(* ===== verification/_CoqProject ===== *)
-Q . S2P
Prelude.v
CString.v
Common.v
Memory.v
Parser.v
ParserMemory.v
Index.v
BPTree.v
IndexMemory.v
Schema.v
SchemaMemory.v
Json.v
Storage.v
CsvWrite.v
StorageMemory.v
DbContext.v
ContextMemory.v
FirstLoad.v
Executor.v
InsertWrites.v
ExecutorMemory.v
Restart.v
Benchmark.v
Main.v
MainMemory.v
SqlService.v
ServiceMemory.v
DbGuard.v
GuardTSO.v
GuardWeak.v
GuardProgress.v
GuardedWork.v
GuardedPrograms.v
JobQueue.v
QueueMonitor.v
ThreadPool.v
HttpProtocol.v
RequestHandler.v
RequestWrites.v
RequestPrograms.v
SocketServer.v
Server.v
RequestMemory.v
ServerJob.v
ClientMemory.v
ServerMain.v
Lifecycle.v
ServerRun.v
ServerThreads.v
ServerProgress.v
