(* ===== verification/Prelude.v ===== *)
(** * Verification of the mini SQL engine and its HTTP API server

    The program stores tables as a schema file and a CSV file, answers [SELECT *] and [INSERT]
    statements over them through an in-memory copy with a B+ tree on the primary key, and is
    used in two ways: as a command-line program that runs a script, and as an HTTP server that
    runs one statement per request on a pool of worker threads under a reader-writer lock.

    ** Parts of the program and their models (sources under [src/src] and [src/include])

    - [CString]: the parts of the C library the code calls: [isspace], [isdigit], [tolower],
      [strchr], trimming, [atoi], [strtol], [%d], 32-bit wrap-around.
    - [Common] ([common.c]): [SqlError] with its 256-byte message, [sql_json_quote],
      [sql_read_text_file]; and [World], the file system: contents by path, which paths
      [fopen(path, "a")] admits, and which calls on temporary files succeed.
    - [Parser] ([query/tokenizer.c], [query/parser.c], [ast.h]): the recursive-descent parser.
    - [Index]: the interface [RowIndex], what the tables rely on from their index: a finite map
      from ids to row positions with create, insert and search.
    - [BPTree] ([index/bptree.c]): the B+ tree of order 100, with its leaf chain by address; it is
      the instance of [RowIndex].
    - [Schema] ([storage/schema.c]): schema files.
    - [Storage] ([storage/storage.c]): CSV rows: quoting, scanning, appending, loading;
      [CsvWrite] ([append_csv_row]): appending with writes that fail.
    - [DbContext] ([index/db_context.c]): a loaded table [TableState], loading it, the cache of
      tables [DbContext], reloading.
    - [Executor] ([query/executor.c]): [execute_select], [execute_insert], [execute_query];
      [InsertWrites]: [execute_insert] with writes that fail.
    - [Benchmark] ([run_benchmark] in [runtime/main.c]): what the benchmark counts and prints.
    - [Main] ([runtime/cli.c], [runtime/main.c]): arguments, the [?] parameter, comments, the
      script loop, [main] with its exit code and output.
    - [Json]: a specification, not code: JSON trees, their text, and a strict reader.
    - [SqlService] ([server/request/sql_service.c]): read/write classification, the growing JSON
      buffer, the payloads, [sql_service_execute].
    - [DbGuard] ([server/concurrency/db_guard.c]): the lock, as interleaved atomic operations;
      [GuardTSO]: the same on a machine with store buffers; [GuardWeak]: the same with the memory
      orders of the source only; [GuardProgress]: that it does not block for ever; [GuardedWork]
      ([db_guard_execute_read], [db_guard_execute_write]): sections of several steps over a shared
      state; [GuardedPrograms]: sections that run programs.
    - [JobQueue], [ThreadPool] ([server/pool/job_queue.c], [thread_pool.c]): the ring buffer and
      the worker threads.
    - [HttpProtocol] ([server/request/http_protocol.c]): parsing requests, printing responses.
    - [RequestHandler] ([server/request/request_handler.c]): validation, lock choice, status;
      [RequestWrites]: the same with the INSERT of [InsertWrites].
    - [SocketServer] ([server/api/socket_server.c], reading and writing): the end of the headers,
      Content-Length, the receive loop, the send loop.
    - [Server] ([server_socket_process_request], [server_socket_execute_request_job]): a raw request
      to the bytes of its response.
    - [ServerJob] ([server/pool/server_job_stub.c], the dispatch in [socket_server.c]): the
      payload of a request in a heap, handling a client, handing a request to the pool.
    - [ServerMain] ([server/api/server_config.c], [server_main.c], [server_runtime_main.c]):
      defaults, arguments, validation, creation, opening the listening socket.
    - [ServerRun] ([server_main.c], the accept loop in [socket_server.c], [main] of
      [server_runtime_main.c]): the running server as a transition system over all of the above,
      with the execution of a request as one step that returns.

    The same operations with the resources they take, in a memory where every request can fail
    ([Memory]: blocks, streams, sockets and condition variables are numbers that are held until
    they are given back; giving back what is not held is recorded as a fault):

    - [ParserMemory], [IndexMemory], [SchemaMemory], [StorageMemory], [ContextMemory],
      [ExecutorMemory]: [parser.c], [bptree.c], [schema.c], [storage.c], [db_context.c] and
      [executor.c] with their [free] and [destroy] functions.
    - [ServiceMemory] ([sql_service.c]), [RequestMemory] ([request_handler.c], [http_protocol.c],
      [server_socket_process_request]): a statement and a whole request.
    - [ClientMemory] ([socket_server.c], [server_job_stub.c]): the socket, the receive buffer and
      the payload of a client.
    - [MainMemory] ([main.c]): the command-line program.
    - [Lifecycle] ([server_main.c] and what it creates): the objects of the server.

    And at other granularities:

    - [QueueMonitor] ([job_queue.c]): the calls as interleaved steps under a mutex with condition
      variables.
    - [Restart]: sequences of statements in one process and with a restart before each.
    - [FirstLoad] ([db_context_get_table]): the call as its accesses to the context and the array
      of tables, interleaved with those of other readers.
    - [RequestPrograms] ([sql_service_execute], [build_select_payload], [execute_insert]): a
      statement as its accesses to tables and files, inside the sections of [GuardedPrograms].
    - [ServerThreads], [ServerProgress] ([server_socket_execute_request_job] on the workers of
      [thread_pool.c], [server_start], [server_stop]): overlapping requests, each taken apart
      into parsing, lock operations, the steps of its statement and sending, with arrivals, the
      shutdown, and calls that wait for ever on a socket without a timeout.

    Calls between parts are calls between definitions: [Main] and [SqlService] call [Parser] and
    [Executor], which call [DbContext], [Storage] and the index; [RequestHandler] calls
    [SqlService]; [Server] composes [HttpProtocol] and [RequestHandler]; the callbacks of the jobs
    in [ThreadPool] are run by [ServerRun].  [DbContext], [Executor] and everything above them are
    proved for any [RowIndex]; examples use the B+ tree.

    ** Conventions

    A C string is the list of its bytes without the NUL.  A cursor is the remaining suffix.  A
    function that returns 0 or NULL and fills a [SqlError] returns [result SqlError A] (this
    file); [fail] builds the error with the code's message, cut to 255 bytes.  State is passed
    explicitly: the context and the world go in and come out, also on error paths.  [int]
    values are integers with [wrap32] where the code computes new ones from stored ones;
    [size_t] values are [N], with the wrap-around written out where the code does not exclude
    it.  A pointer into [ctx->tables] is a position.  [atoi] and [inet_pton] follow
    glibc: [atoi] saturates to [long] and takes the low 32 bits, [inet_pton] wants four octets
    without leading zeros.

    ** What the theorems show

    - INSERT and SELECT ([Executor]): [execute_insert] on every branch; the invariant of tables
      is kept by every query; what is inserted is found; the index answers like a scan; memory
      and files stay the same table across a restart; the automatic id at the end of the [int]
      range; with failing writes the table in memory changes exactly when success is reported, and
      a file only under its own table.
    - Index ([BPTree]): insertion and search refine insertion and lookup in a finite map, the
      leaf chain yields the keys in order, the height is logarithmic.
    - Loading ([Schema], [Storage], [DbContext]): schema and row round trips, which files load,
      what a loaded table satisfies, which values make a file unloadable.
    - Parsing ([Parser], [Main]): the parser accepts exactly a grammar given as relations; the
      script loop runs exactly the statements of a script; the parameter substitution.
    - Requests ([SqlService], [RequestHandler], [Server], [HttpProtocol], [SocketServer]): the
      lock mode agrees with the statement; the payloads are the JSON texts of the result; a 200
      status means the statement was executed, any other status that no file changed, unless a
      write failed or the result could not be read back ([RequestWrites]); requests
      and responses survive their framing; reading stays inside its buffer, ends, and does not
      depend on how the network cuts a request into packets.
    - Concurrency ([DbGuard], [GuardTSO], [GuardWeak], [GuardProgress], [GuardedWork],
      [GuardedPrograms], [RequestPrograms], [FirstLoad], [JobQueue], [ThreadPool]): mutual
      exclusion by an invariant of the interleaving; it survives the store buffers of x86, where
      the protected data is sequentially consistent; with acquire and release orders alone
      writers still exclude each other and see each other's work, but a reader and a writer can
      be inside at once ([GuardWeak.guard_weak_reader_writer_race]); guarded sections are isolated;
      statements on loaded tables are serializable, step by step;
      overlapping readers of loaded tables do not disturb each other, those that load a table do
      ([FirstLoad.first_load_race]); from every
      reachable state every thread can get the lock it waits for; the ring buffer refines a
      bounded queue; every accepted job runs once and every job is cleaned up once, across start,
      stop and destruction; the workers run out of work.
    - The running server ([ServerRun], [ServerMain], [ServerJob]): an invariant ties the pool, the
      payloads, the open sockets and the database; everything taken is released exactly once;
      opening the listening socket leaks nothing.
    - Overlapping requests ([ServerThreads], [ServerProgress]): on loaded tables they are answered
      as if they were served one after the other, in an order that respects which was answered
      before which arrived; with a positive timeout, from every reachable state all requests
      received can be answered and a shutdown can be completed, in a bounded number of steps
      outside the lock and its sections.
    - The command line ([Main], [Benchmark]): scripts keep the database invariant, what the
      benchmark counts.

    Behaviour that differs from the apparent intention is stated as what the code does, for
    example [Storage.newline_field_unloadable], [Executor.whitespace_not_durable],
    [Schema.load_schema_stale_index], [SqlService.plus_sign_breaks_json],
    [SocketServer.content_length_wraps], [Server.second_response_after_partial_write],
    [RequestHandler.failure_after_insert],
    [ExecutorMemory.failed_insert_is_durable], [IndexMemory.split_loses_keys],
    [SchemaMemory.schema_leaks], [ClientMemory.payload_failure_ends_server],
    [CsvWrite.unchecked_line_end_unloadable], [CsvWrite.failed_append_unloadable],
    [Executor.long_row_unloadable], [ServerProgress.no_timeout_blocks_shutdown].

    - Restarts ([Restart]): the tables in memory are a cache; a process and one that is restarted
      before every statement give the same answers and files.
    - Failing resources (the [Memory] files): each part gives back what it took, and nothing
      twice, on every path; what the code leaks is stated exactly; when a call reports success,
      or when no request fails, it did what the definitions without memory say.  An answer with
      status 200 is therefore true also when memory is short ([RequestMemory]), and every
      client's socket, buffer and payload is given back ([ClientMemory]); a script that ends with
      exit code 0 was run completely ([MainMemory]).
    - The monitor ([QueueMonitor]): the calls of the job queue take effect one after the other, and
      no wakeup is lost.

    ** Fuel

    Loops that are not structural take fuel, and the theorems are about the functions that
    supply it: the VALUES loop gets one more than the length of the text and reads a byte per
    round; the binary search gets one more than the number of keys; the leaf chain gets the
    number of leaves; buffer doubling gets 64 rounds, enough for [size_t]; the receive loop gets
    one more than the bytes and events left; the header loop and the SQL prefix loop get one more
    than the length of their text; decimal printing gets one more than the bit length; the JSON
    reader gets the length of the text.  Where running out is a possible value it is shown not to
    occur.

    ** Not modelled

    - NULL arguments.  Write and close errors after a successful [fopen] are in [CsvWrite],
      [InsertWrites] and [RequestWrites], where the bytes that reach the file after a failed write
      are not known (the C standard does not say); elsewhere writes succeed.  In [ServerRun],
      [ServerThreads] and [ServerProgress] no resource is refused but those the operating
      system decides about.
    - The sizes of allocated blocks: [Memory] counts blocks.  [SocketServer] bounds the request by
      the capacity of the receive buffer, which the code allocates with one byte more.
    - Messages that an earlier call has left in a [SqlError]: the functions of the [Memory] files
      start with an empty one.
    - The copies of [is_integer_string], [is_float_string], [find_column_index] and [free_query] in
      several files have the same text and are modelled once.
    - Overflow of a row count or row capacity past [int], which needs more rows than memory holds.
    - What the operating system decides is an input, not modelled further: which socket calls
      fail, what [recv] and [send] return, how many threads [pthread_create] starts, what [clock]
      measures and how [printf] shows a floating point number.  [accept] is assumed to return a
      descriptor that is not open.
    - In [ServerRun] the execution of a request is one step that returns, so that nothing there is
      said about overlapping executions, waiting for the lock or blocking sends.
      [ServerThreads] and [ServerProgress] are about these, for requests about loaded tables: the
      first SELECT of a table extends the context under the read lock, and overlapping ones can
      go wrong ([FirstLoad.first_load_race]).  Their pool is a queue and the places of the
      workers; that the ring buffer and the monitor are such a queue is shown in [JobQueue] and
      [QueueMonitor].  Their steps, like those of [RequestPrograms], are calls:
      [append_csv_row], [bptree_insert] and [db_context_get_table] of a loaded table are one step
      each.  What the scheduler does is not assumed: the lock spins, so progress is stated as
      what can happen from every state, and as a bound on the steps outside the lock.
    - [DbGuard], [GuardProgress], [GuardedPrograms], [RequestPrograms], [ServerThreads] and
      [ServerProgress] take the operations of the lock in sequentially consistent order;
      [GuardTSO] (in which threads store to the protected data in write sections only, which
      excludes the first SELECT of a table) and [GuardWeak] do not.
    - In [FirstLoad] a pair of loads in one expression is one step, as is [table_state_load] into
      its slot.  The machine of [GuardWeak] has no reordering of loads with later stores, which
      the acquire and release orders exclude here.
    - Reads outside an array are undefined in C; [DbContext.field_at] gives an empty string there,
      and the theorems that read fields establish or assume that the index is inside. *)

From stdpp Require Import base list strings.
From Stdlib Require Import Ascii.

(** ** Notations *)

Declare Scope minisql_scope.
Delimit Scope minisql_scope with minisql.
Open Scope minisql_scope.

(** A C string is the list of its bytes without the terminating NUL. *)
Abbreviation cstr := (list ascii).

(** A C string literal. *)
Definition lit (s : string) : cstr := Stdlib.Strings.String.list_ascii_of_string s.
Arguments lit : simpl never.

Notation "« s »" := (lit s%string) (at level 0, s at level 200, format "« s »") : minisql_scope.

(** ** Results of fallible operations: C functions that return 0 or NULL and fill an error. *)

Inductive result (E A : Type) : Type :=
| Ok (a : A)
| Err (e : E).
Arguments Ok {E A} a.
Arguments Err {E A} e.

#[export] Instance result_ret {E} : MRet (result E) := λ A a, Ok a.
#[export] Instance result_bind {E} : MBind (result E) := λ A B f m,
  match m with Ok a => f a | Err e => Err e end.
#[export] Instance result_fmap {E} : FMap (result E) := λ A B f m,
  match m with Ok a => Ok (f a) | Err e => Err e end.

Definition is_ok {E A} (r : result E A) : bool :=
  match r with Ok _ => true | Err _ => false end.

Lemma Ok_inj {E A} (a b : A) : Ok (E := E) a = Ok b → a = b.
Proof. by intros [= ->]. Qed.

(** ** Generic operations on lists *)

(** The suffix a [while (p( *cursor))  cursor++] loop stops at, and the part it consumes. *)
Fixpoint drop_while {A} (p : A → bool) (l : list A) : list A :=
  match l with
  | [] => []
  | x :: l' => if p x then drop_while p l' else l
  end.

Fixpoint take_while {A} (p : A → bool) (l : list A) : list A :=
  match l with
  | [] => []
  | x :: l' => if p x then x :: take_while p l' else []
  end.

(** Array insertion: shift the tail right by one and store at [i]. *)
Definition insert_at {A} (i : nat) (x : A) (l : list A) : list A :=
  take i l ++ x :: drop i l.
Arguments insert_at : simpl never.

(** Apply [f] to the element at an index, [d] when the index is out of range.  Written as a
    nested fixpoint so that recursive functions over trees may pass themselves as [f]. *)
Definition nth_with {A B} (d : B) (f : A → B) : list A → nat → B :=
  fix go l i :=
    match l, i with
    | [], _ => d
    | x :: _, 0 => f x
    | _ :: l', S i' => go l' i'
    end.

(** ** Automation *)

Create HintDb minisql discriminated.
Create Rewrite HintDb minisql_simp.

(** Split the outermost match of the goal or of a hypothesis on a result, keeping equations. *)
Ltac case_result :=
  repeat match goal with
  | H : Ok _ = Ok _ |- _ => injection H as H; subst
  | H : Err _ = Err _ |- _ => injection H as H; subst
  | H : Ok _ = Err _ |- _ => discriminate H
  | H : Err _ = Ok _ |- _ => discriminate H
  | H : context [match ?x with Ok _ => _ | Err _ => _ end] |- _ => destruct x eqn:?
  end.

(** Turn boolean comparisons on [Z], [nat] and [N] in the context into propositions. *)
Ltac breflect :=
  repeat match goal with
  | H : _ && _ = true |- _ => apply andb_true_iff in H as [? ?]
  | H : _ || _ = false |- _ => apply orb_false_iff in H as [? ?]
  | H : negb _ = true |- _ => apply negb_true_iff in H
  | H : negb _ = false |- _ => apply negb_false_iff in H
  | H : Z.eqb _ _ = true |- _ => apply Z.eqb_eq in H
  | H : Z.eqb _ _ = false |- _ => apply Z.eqb_neq in H
  | H : Z.leb _ _ = true |- _ => apply Z.leb_le in H
  | H : Z.leb _ _ = false |- _ => apply Z.leb_gt in H
  | H : Z.ltb _ _ = true |- _ => apply Z.ltb_lt in H
  | H : Z.ltb _ _ = false |- _ => apply Z.ltb_ge in H
  | H : Nat.eqb _ _ = true |- _ => apply Nat.eqb_eq in H
  | H : Nat.eqb _ _ = false |- _ => apply Nat.eqb_neq in H
  | H : Nat.leb _ _ = true |- _ => apply Nat.leb_le in H
  | H : Nat.leb _ _ = false |- _ => apply Nat.leb_gt in H
  | H : Nat.ltb _ _ = true |- _ => apply Nat.ltb_lt in H
  | H : Nat.ltb _ _ = false |- _ => apply Nat.ltb_ge in H
  end.

(** ** Lemmas: loops over lists *)

Section While.
Context {A : Type} (p : A → bool).
Implicit Types l : list A.

Lemma take_drop_while l : take_while p l ++ drop_while p l = l.
Proof. induction l as [|x l IH]; simpl; [done|]. destruct (p x); simpl; by rewrite ?IH. Qed.

Lemma take_while_all l : Forall (λ x, p x = true) (take_while p l).
Proof. induction l as [|x l IH]; simpl; [done|]. destruct (p x) eqn:?; by constructor. Qed.

Lemma drop_while_head l x l' : drop_while p l = x :: l' → p x = false.
Proof. induction l as [|y l IH]; simpl; [done|]. destruct (p y) eqn:?; naive_solver. Qed.

Lemma drop_while_app l1 l2 :
  Forall (λ x, p x = true) l1 → drop_while p (l1 ++ l2) = drop_while p l2.
Proof. induction 1 as [|x l1 Hx _ IH]; simpl; [done|]. by rewrite Hx. Qed.

Lemma take_while_app l1 l2 :
  Forall (λ x, p x = true) l1 → take_while p (l1 ++ l2) = l1 ++ take_while p l2.
Proof. induction 1 as [|x l1 Hx _ IH]; simpl; [done|]. by rewrite Hx, IH. Qed.

Lemma drop_while_stop x l : p x = false → drop_while p (x :: l) = x :: l.
Proof. simpl. by intros ->. Qed.

Lemma take_while_stop x l : p x = false → take_while p (x :: l) = [].
Proof. simpl. by intros ->. Qed.

Lemma drop_while_length l : length (drop_while p l) ≤ length l.
Proof. induction l as [|x l IH]; simpl; [done|]. destruct (p x); simpl; lia. Qed.

Lemma drop_while_all l : Forall (λ x, p x = true) l → drop_while p l = [].
Proof. induction 1 as [|x l Hx _ IH]; simpl; [done|]. by rewrite Hx. Qed.

Lemma drop_while_suffix l : ∃ k, l = k ++ drop_while p l.
Proof. exists (take_while p l). by rewrite take_drop_while. Qed.

Lemma drop_while_idemp l : drop_while p (drop_while p l) = drop_while p l.
Proof.
  destruct (drop_while p l) as [|x l'] eqn:H; [done|].
  by rewrite drop_while_stop by (by eapply drop_while_head).
Qed.

End While.

Lemma surjective_pairing_3 {A B C} (p : A * B * C) : p = (p.1.1, p.1.2, p.2).
Proof. by destruct p as [[a b] c]. Qed.

(** ** Lemmas: array insertion *)

Section InsertAt.
Context {A : Type}.
Implicit Types l : list A.

Lemma length_insert_at i x l : length (insert_at i x l) = S (length l).
Proof. unfold insert_at. rewrite length_app, length_take. simpl. rewrite length_drop. lia. Qed.

Lemma insert_at_0 x l : insert_at 0 x l = x :: l.
Proof. done. Qed.

Lemma insert_at_S i x y l : insert_at (S i) x (y :: l) = y :: insert_at i x l.
Proof. done. Qed.

Lemma insert_at_app x l1 l2 : insert_at (length l1) x (l1 ++ l2) = l1 ++ x :: l2.
Proof. unfold insert_at. by rewrite take_app_length, drop_app_length. Qed.

Lemma insert_at_Permutation i x l : insert_at i x l ≡ₚ x :: l.
Proof.
  unfold insert_at. rewrite <- Permutation_middle. by rewrite take_drop.
Qed.

End InsertAt.

Lemma zip_insert_at {A B} i (x : A) (y : B) (l : list A) (k : list B) :
  length l = length k →
  zip (insert_at i x l) (insert_at i y k) = insert_at i (x, y) (zip l k).
Proof.
  revert l k. induction i as [|i IH]; intros [|a l] [|b k] Hlen; try done.
  simpl in Hlen. change (zip (a :: l) (b :: k)) with ((a, b) :: zip l k).
  rewrite !insert_at_S, <- IH by lia. done.
Qed.

Lemma nth_with_lookup {A B} (d : B) (f : A → B) l i :
  nth_with d f l i = match l !! i with Some x => f x | None => d end.
Proof. revert i. induction l as [|x l IH]; intros [|i]; simpl; auto. Qed.

#[export] Hint Rewrite @length_insert_at : minisql_simp.
