(* ===== verification/CString.v ===== *)
(** * The parts of the C library the program relies on

    Character classification in the C locale, searching and trimming strings, decimal
    conversion in both directions, and the width of [int] and [long].  Strings are lists of
    bytes without the terminating NUL; reading the byte at the end of a string yields NUL.
    [atoi] and [strtol] follow the documented glibc behaviour: the value of the longest
    numeric prefix, saturated to the 64-bit [long] range, then converted to the 32-bit [int]
    by [atoi] keeping the low 32 bits. *)

From stdpp Require Import base list strings sets.
From Stdlib Require Import Ascii.
From S2P Require Import Prelude.

(** ** Characters *)

Definition NUL : ascii := "000"%char.
Definition DQUOTE : ascii := "034"%char.
Definition SQUOTE : ascii := "'"%char.
Definition BACKSLASH : ascii := "\"%char.
Definition CR : ascii := "013"%char.
Definition LF : ascii := "010"%char.
Definition TAB : ascii := "009"%char.

(** The value of a byte as an [unsigned char]. *)
Definition code (c : ascii) : N := N_of_ascii c.

(** The byte a cursor points at: NUL at the end of the string. *)
Definition peek (s : cstr) : ascii :=
  match s with [] => NUL | c :: _ => c end.

Definition between (lo hi : N) (c : ascii) : bool := (lo <=? code c)%N && (code c <=? hi)%N.

Definition isspace (c : ascii) : bool := between 9 13 c || (code c =? 32)%N.
Definition isdigit (c : ascii) : bool := between 48 57 c.
Definition isupper (c : ascii) : bool := between 65 90 c.
Definition islower (c : ascii) : bool := between 97 122 c.
Definition isalpha (c : ascii) : bool := isupper c || islower c.
Definition isalnum (c : ascii) : bool := isalpha c || isdigit c.
Definition tolower (c : ascii) : ascii := if isupper c then ascii_of_N (code c + 32) else c.
Definition toupper (c : ascii) : ascii := if islower c then ascii_of_N (code c - 32) else c.

(** A literal written with single quotes where the C text has double quotes. *)
Definition dq (s : cstr) : cstr := map (λ c, if Ascii.eqb c SQUOTE then DQUOTE else c) s.

(** ** Machine integers *)

Definition INT_MIN : Z := -2147483648.
Definition INT_MAX : Z := 2147483647.
Definition LONG_MIN : Z := -9223372036854775808.
Definition LONG_MAX : Z := 9223372036854775807.

Definition is_int (z : Z) : Prop := (INT_MIN <= z <= INT_MAX)%Z.

(** Conversion to a 32-bit two's complement [int]. *)
Definition wrap32 (z : Z) : Z := ((z + 2147483648) mod 4294967296 - 2147483648)%Z.

(** Conversion to a 64-bit two's complement [long]. *)
Definition wrap64 (z : Z) : Z := ((z + 9223372036854775808) mod 18446744073709551616 - 9223372036854775808)%Z.

(** ** Decimal conversion *)

Definition digit_value (c : ascii) : Z := (Z.of_N (code c) - 48)%Z.

(** Accumulate a run of digits, as strtol does before it saturates. *)
Definition digits_value (acc : Z) (ds : cstr) : Z :=
  fold_left (λ a c, (a * 10 + digit_value c)%Z) ds acc.

Definition clamp_long (z : Z) : Z := Z.max LONG_MIN (Z.min LONG_MAX z).

(** [strtol(text, &end, 10)]: the value and the suffix [end] points at. *)
Definition strtol (text : cstr) : Z * cstr :=
  let s := drop_while isspace text in
  let neg := Ascii.eqb (peek s) "-" in
  let s' := if neg || Ascii.eqb (peek s) "+" then tail s else s in
  let ds := take_while isdigit s' in
  match ds with
  | [] => (0%Z, text)
  | _ => let v := digits_value 0 ds in
         (clamp_long (if neg then - v else v)%Z, drop_while isdigit s')
  end.

Definition atol (text : cstr) : Z := (strtol text).1.
Definition atoi (text : cstr) : Z := wrap32 (atol text).

Definition digit_char (n : N) : ascii := ascii_of_N (48 + n).

(** The digits of [n], most significant first, in front of [acc]. *)
Fixpoint show_digits (fuel : nat) (n : N) (acc : cstr) : cstr :=
  match fuel with
  | O => acc
  | S fuel' =>
      let acc' := digit_char (n mod 10) :: acc in
      if (n <? 10)%N then acc' else show_digits fuel' (n / 10) acc'
  end.

(** [%zu]: an unsigned decimal. *)
Definition show_N (n : N) : cstr := show_digits (S (N.to_nat (N.size n))) n [].

(** [%d]: a signed decimal. *)
Definition show_int (z : Z) : cstr :=
  if (z <? 0)%Z then "-"%char :: show_N (Z.to_N (- z)) else show_N (Z.to_N z).

(** ** Searching and trimming *)

(** [strchr]: the text before the first [c] and the text after it. *)
Fixpoint split_at (c : ascii) (s : cstr) : option (cstr * cstr) :=
  match s with
  | [] => None
  | x :: s' =>
      if Ascii.eqb x c then Some ([], s')
      else match split_at c s' with
           | Some (l, r) => Some (x :: l, r)
           | None => None
           end
  end.

(** Whether [pat] is a prefix of [s]. *)
Fixpoint starts_with (pat s : cstr) : bool :=
  match pat, s with
  | [], _ => true
  | p :: pat', c :: s' => Ascii.eqb p c && starts_with pat' s'
  | _ :: _, [] => false
  end.

(** [strstr]: the offset of the first occurrence. *)
Fixpoint strstr (s pat : cstr) : option nat :=
  if starts_with pat s then Some 0
  else match s with
       | [] => None
       | _ :: s' => S <$> strstr s' pat
       end.

(** Drop trailing characters that satisfy [p]. *)
Definition rstrip (p : ascii → bool) (s : cstr) : cstr := reverse (drop_while p (reverse s)).

(** Skip leading white space, then cut trailing white space. *)
Definition trim (s : cstr) : cstr := rstrip isspace (drop_while isspace s).

(** What the string functions see of a buffer: the bytes before its first NUL. *)
Definition c_string (buf : cstr) : cstr := take_while (λ c, negb (Ascii.eqb c NUL)) buf.

(** What [snprintf] and [strncpy] with room for [n] bytes and the NUL keep. *)
Definition bounded (n : nat) (s : cstr) : cstr := take (n - 1) s.

(** ** Lemmas: characters *)

Lemma code_inj c d : code c = code d → c = d.
Proof. intros H. rewrite <- (ascii_N_embedding c), <- (ascii_N_embedding d). by f_equal. Qed.

Lemma code_bound c : (code c < 256)%N.
Proof. destruct c as [[][][][][][][][]]; done. Qed.

Lemma code_ascii_of_N n : (n < 256)%N → code (ascii_of_N n) = n.
Proof. apply N_ascii_embedding. Qed.

Lemma ascii_eqb_eq c d : Ascii.eqb c d = true ↔ c = d.
Proof. apply Ascii.eqb_eq. Qed.

Lemma ascii_eqb_neq c d : Ascii.eqb c d = false ↔ c ≠ d.
Proof. apply Ascii.eqb_neq. Qed.

(** Decide a statement about one or two bytes by evaluating it on all of them. *)
Definition all_ascii : list ascii := map ascii_of_nat (seq 0 256).

Lemma all_ascii_spec (p : ascii → bool) : forallb p all_ascii = true → ∀ c, p c = true.
Proof.
  intros H c. rewrite forallb_forall in H. apply H. unfold all_ascii.
  apply in_map_iff. exists (nat_of_ascii c). split; [apply ascii_nat_embedding|].
  apply in_seq. pose proof (nat_ascii_bounded c). lia.
Qed.

Ltac all_bytes c := revert c; apply (all_ascii_spec (λ c, _)); vm_compute; reflexivity.

Lemma isdigit_not_space c : implb (isdigit c) (negb (isspace c)) = true.
Proof. all_bytes c. Qed.

(** Comparing a character with a letter ignoring case: folding both to lower case or both to
    upper case gives the same answer. *)
Lemma fold_case_eqb c d :
  isalpha d = true → Ascii.eqb (tolower c) (tolower d) = Ascii.eqb (toupper c) (toupper d).
Proof.
  assert (H : ∀ d, forallb (λ c, implb (isalpha d)
    (Bool.eqb (Ascii.eqb (tolower c) (tolower d)) (Ascii.eqb (toupper c) (toupper d))))
    all_ascii = true) by (intros d0; all_bytes d0).
  intros Hd. specialize (H d). apply all_ascii_spec with (c := c) in H.
  rewrite Hd in H. by apply Bool.eqb_prop in H.
Qed.

(** ** Lemmas: decimal conversion *)

Lemma code_digit_char n : (n < 10)%N → code (digit_char n) = (48 + n)%N.
Proof. intros. apply code_ascii_of_N. lia. Qed.

Lemma isdigit_digit_char n : (n < 10)%N → isdigit (digit_char n) = true.
Proof.
  intros. unfold isdigit, between. rewrite code_digit_char by done.
  apply andb_true_iff; split; apply N.leb_le; lia.
Qed.

Lemma digit_value_digit_char n : (n < 10)%N → digit_value (digit_char n) = Z.of_N n.
Proof. intros. unfold digit_value. rewrite code_digit_char by done. lia. Qed.

Lemma show_digits_isdigit fuel n acc :
  Forall (λ c, isdigit c = true) acc → Forall (λ c, isdigit c = true) (show_digits fuel n acc).
Proof.
  revert n acc. induction fuel as [|fuel IH]; intros n acc Hacc; simpl; [done|].
  assert (Hd : isdigit (digit_char (n mod 10)) = true).
  { apply isdigit_digit_char. by apply N.mod_upper_bound. }
  case_match; [by constructor|]. apply IH. by constructor.
Qed.

Lemma show_digits_value fuel n acc :
  (n < 10 ^ N.of_nat fuel)%N →
  digits_value 0 (show_digits fuel n acc) = digits_value (Z.of_N n) acc.
Proof.
  revert n acc. induction fuel as [|fuel IH]; intros n acc Hn; simpl.
  { simpl in Hn. by replace n with 0%N by lia. }
  assert (Hm : (n mod 10 < 10)%N) by (by apply N.mod_upper_bound).
  destruct (N.ltb_spec n 10) as [Hlt|Hge].
  - unfold digits_value at 1. simpl. fold (digits_value (digit_value (digit_char (n mod 10))) acc).
    rewrite digit_value_digit_char by done. by rewrite N.mod_small.
  - rewrite IH.
    + unfold digits_value at 1. simpl. rewrite digit_value_digit_char by done.
      replace (Z.of_N (n / 10) * 10 + Z.of_N (n mod 10))%Z with (Z.of_N n); [done|].
      pose proof (N.div_mod n 10 ltac:(done)). lia.
    + rewrite Nat2N.inj_succ, N.pow_succ_r' in Hn. by apply N.Div0.div_lt_upper_bound.
Qed.

Lemma show_N_fuel n : (n < 10 ^ N.of_nat (S (N.to_nat (N.size n))))%N.
Proof.
  rewrite Nat2N.inj_succ, N2Nat.id.
  apply N.lt_le_trans with (2 ^ N.size n)%N; [apply N.size_gt|].
  transitivity (10 ^ N.size n)%N; [by apply N.pow_le_mono_l|].
  apply N.pow_le_mono_r; lia.
Qed.

Lemma show_N_value n : digits_value 0 (show_N n) = Z.of_N n.
Proof. unfold show_N. rewrite show_digits_value by apply show_N_fuel. done. Qed.

Lemma show_N_isdigit n : Forall (λ c, isdigit c = true) (show_N n).
Proof. by apply show_digits_isdigit. Qed.

Lemma show_digits_not_nil fuel n acc : acc ≠ [] → show_digits fuel n acc ≠ [].
Proof.
  revert n acc. induction fuel as [|fuel IH]; intros n acc Hacc; simpl; [done|].
  case_match; [done|]. by apply IH.
Qed.

Lemma show_N_not_nil n : show_N n ≠ [].
Proof. unfold show_N. simpl. case_match; [done|]. by apply show_digits_not_nil. Qed.

Lemma clamp_long_id z : (LONG_MIN <= z <= LONG_MAX)%Z → clamp_long z = z.
Proof. unfold clamp_long. lia. Qed.

Lemma wrap64_id z : (LONG_MIN <= z <= LONG_MAX)%Z → wrap64 z = z.
Proof. unfold LONG_MIN, LONG_MAX, wrap64. intros Hz. rewrite Z.mod_small by lia. lia. Qed.

Lemma wrap32_id z : is_int z → wrap32 z = z.
Proof. unfold wrap32, is_int, INT_MIN, INT_MAX. intros. rewrite Z.mod_small by lia. lia. Qed.

Lemma wrap32_is_int z : is_int (wrap32 z).
Proof.
  unfold wrap32, is_int, INT_MIN, INT_MAX.
  pose proof (Z.mod_pos_bound (z + 2147483648) 4294967296 eq_refl). lia.
Qed.

Lemma atoi_is_int s : is_int (atoi s).
Proof. apply wrap32_is_int. Qed.

(** strtol reads back the digits of a number that fits in [long] and stops after them. *)
Lemma strtol_digits (neg : bool) ds rest :
  ds ≠ [] → Forall (λ c, isdigit c = true) ds → isdigit (peek rest) = false →
  strtol ((if neg then ["-"%char] else []) ++ ds ++ rest) =
    (clamp_long (if neg then - digits_value 0 ds else digits_value 0 ds)%Z, rest).
Proof.
  intros Hne Hds Hrest. destruct ds as [|d ds]; [done|]. inversion Hds as [|? ? Hd Hds']; subst.
  assert (Htk : take_while isdigit (d :: ds ++ rest) = d :: ds).
  { change (take_while isdigit ((d :: ds) ++ rest) = d :: ds).
    rewrite take_while_app by done. destruct rest as [|r rest]; simpl; [by rewrite app_nil_r|].
    simpl in Hrest. by rewrite Hrest, app_nil_r. }
  assert (Hdr : drop_while isdigit (d :: ds ++ rest) = rest).
  { change (drop_while isdigit ((d :: ds) ++ rest) = rest).
    rewrite drop_while_app by done. destruct rest as [|r rest]; simpl; [done|].
    simpl in Hrest. by rewrite Hrest. }
  assert (Hsp : isspace d = false).
  { pose proof (isdigit_not_space d) as H. rewrite Hd in H. by apply negb_true_iff. }
  assert (Hsign : Ascii.eqb d "-" = false ∧ Ascii.eqb d "+" = false).
  { split; apply ascii_eqb_neq; intros ->; done. }
  destruct Hsign as [Hm Hp].
  unfold strtol. destruct neg; cbn [app].
  - rewrite drop_while_stop by done. cbn [peek tail orb].
    change (Ascii.eqb "-" "-") with true. cbn [orb tail]. by rewrite Htk, Hdr.
  - rewrite drop_while_stop by done. cbn [peek]. rewrite Hm, Hp. cbn [orb]. by rewrite Htk, Hdr.
Qed.

Lemma show_int_form z :
  show_int z = (if (z <? 0)%Z then ["-"%char] else []) ++ show_N (Z.to_N (Z.abs z)).
Proof. unfold show_int. destruct (Z.ltb_spec z 0); simpl; do 2 f_equal; lia. Qed.

(** Printing an [int] with [%d] and reading it with [atoi] gives it back. *)
Lemma atoi_show_int z : is_int z → atoi (show_int z) = z.
Proof.
  intros Hz. unfold atoi, atol. rewrite show_int_form, <- (app_nil_r (show_N _)).
  rewrite strtol_digits; [|apply show_N_not_nil|apply show_N_isdigit|done]. simpl.
  rewrite show_N_value, clamp_long_id.
  - rewrite wrap32_id; unfold is_int, INT_MIN, INT_MAX in *; destruct (Z.ltb_spec z 0); lia.
  - unfold is_int, INT_MIN, INT_MAX, LONG_MIN, LONG_MAX in *. destruct (Z.ltb_spec z 0); lia.
Qed.

Lemma show_int_not_nil z : show_int z ≠ [].
Proof. rewrite show_int_form. pose proof (show_N_not_nil (Z.to_N (Z.abs z))). by case_match. Qed.

(** ** Lemmas: trimming and searching *)

(** No white space at either end. *)
Definition trimmed (s : cstr) : Prop :=
  (∀ c, head s = Some c → isspace c = false) ∧ (∀ c, last s = Some c → isspace c = false).

Lemma rstrip_id p s : (∀ c, last s = Some c → p c = false) → rstrip p s = s.
Proof.
  intros H. unfold rstrip. destruct s as [|x s _] using rev_ind; [done|].
  rewrite reverse_snoc, drop_while_stop, reverse_cons, reverse_involutive; [done|].
  apply H. by rewrite last_snoc.
Qed.

Lemma rstrip_app p s t : Forall (λ c, p c = true) t → rstrip p (s ++ t) = rstrip p s.
Proof.
  intros Ht. unfold rstrip. rewrite reverse_app, drop_while_app; [done|].
  by apply Forall_reverse.
Qed.

Lemma trim_id s : trimmed s → trim s = s.
Proof.
  intros [Hh Hl]. unfold trim. destruct s as [|c s]; [done|].
  rewrite drop_while_stop by (by apply Hh). by apply rstrip_id.
Qed.

Lemma rstrip_prefix p s : ∃ t, s = rstrip p s ++ t.
Proof.
  unfold rstrip. destruct (drop_while_suffix p (reverse s)) as [k Hk]. exists (reverse k).
  apply (f_equal reverse) in Hk. by rewrite reverse_involutive, reverse_app in Hk.
Qed.

Lemma rstrip_last p s c : last (rstrip p s) = Some c → p c = false.
Proof.
  unfold rstrip. rewrite last_reverse. intros Hc.
  destruct (drop_while p (reverse s)) as [|x l] eqn:E; [done|]. simpl in Hc. simplify_eq.
  by eapply drop_while_head.
Qed.

Lemma trim_trimmed s : trimmed (trim s).
Proof.
  split; [|apply rstrip_last].
  intros c Hc. unfold trim in Hc. destruct (rstrip_prefix isspace (drop_while isspace s)) as [t Ht].
  destruct (rstrip isspace (drop_while isspace s)) as [|d l]; [done|]. simpl in Hc. simplify_eq.
  by eapply drop_while_head.
Qed.

(** Trimming twice is trimming once. *)
Lemma trim_trim s : trim (trim s) = trim s.
Proof. apply trim_id, trim_trimmed. Qed.

Lemma split_at_Some c s l r : split_at c s = Some (l, r) → s = l ++ c :: r ∧ c ∉ l.
Proof.
  revert l r. induction s as [|x s IH]; intros l r; simpl; [done|].
  destruct (Ascii.eqb_spec x c) as [->|Hne]; [intros; simplify_eq; set_solver|].
  destruct (split_at c s) as [[l' r']|]; [|done]. intros; simplify_eq.
  destruct (IH l' r eq_refl) as [-> Hn]. set_solver.
Qed.

Lemma split_at_None c s : split_at c s = None ↔ c ∉ s.
Proof.
  induction s as [|x s IH]; simpl; [set_solver|].
  destruct (Ascii.eqb_spec x c) as [->|Hne]; [set_solver|].
  destruct (split_at c s) as [[??]|]; set_solver.
Qed.

Lemma split_at_app c l r : c ∉ l → split_at c (l ++ c :: r) = Some (l, r).
Proof.
  induction l as [|x l IH]; intros Hl; simpl; [by rewrite (proj2 (ascii_eqb_eq c c))|].
  rewrite (proj2 (ascii_eqb_neq x c)) by set_solver. by rewrite IH by set_solver.
Qed.

Lemma c_string_id s : NUL ∉ s → c_string s = s.
Proof.
  intros Hs. unfold c_string. rewrite <- (app_nil_r s) at 1. rewrite take_while_app.
  - by rewrite app_nil_r.
  - apply Forall_forall. intros c Hc. apply negb_true_iff, ascii_eqb_neq. by intros ->.
Qed.

(** ** Lemmas: loops over characters that stop at the end of the string *)

Section Span.
Context (p : ascii → bool) (Hnul : p NUL = false).

Lemma drop_while_peek s : p (peek (drop_while p s)) = false.
Proof. destruct (drop_while p s) as [|c l] eqn:E; [done|]. by eapply drop_while_head. Qed.

Lemma drop_while_peek_stop s : p (peek s) = false → drop_while p s = s.
Proof. destruct s as [|c s]; [done|]. apply drop_while_stop. Qed.

Lemma take_while_peek_stop s : p (peek s) = false → take_while p s = [].
Proof. destruct s as [|c s]; [done|]. apply take_while_stop. Qed.

Lemma span_app v rest :
  Forall (λ c, p c = true) v → p (peek rest) = false →
  take_while p (v ++ rest) = v ∧ drop_while p (v ++ rest) = rest.
Proof.
  intros Hv Hr. rewrite take_while_app, drop_while_app by done.
  rewrite take_while_peek_stop, drop_while_peek_stop by done. by rewrite app_nil_r.
Qed.

Lemma skip_app ws s :
  Forall (λ c, p c = true) ws → p (peek s) = false → drop_while p (ws ++ s) = s.
Proof. intros. by apply span_app. Qed.

End Span.

Lemma skip_split p (s : cstr) : ∃ ws, Forall (λ c, p c = true) ws ∧ s = ws ++ drop_while p s.
Proof. exists (take_while p s). split; [apply take_while_all|by rewrite take_drop_while]. Qed.

Lemma peek_tail (s : cstr) : peek s ≠ NUL → s = peek s :: tail s.
Proof. by destruct s. Qed.

Lemma space_not_letter c : implb (isspace c) (negb (isalpha (tolower c))) = true.
Proof. all_bytes c. Qed.
