(* ===== verification/Common.v ===== *)
(** * [src/src/common.c]: errors, JSON quoting and reading a whole file

    An error is the value the [SqlError *] out-parameter receives.  The file system is a
    finite map from paths to contents, part of the [World] the storage and schema components
    read and extend. *)

From stdpp Require Import base list strings gmap.
From Stdlib Require Import Ascii.
From S2P Require Import Prelude CString.

(** ** Errors *)

Definition SQL_ERROR_MESSAGE_SIZE : nat := 256.
Definition SQL_PATH_BUFFER_SIZE : nat := 4096.

Record SqlError := mkSqlError {
  line : Z;
  column : Z;
  message : cstr
}.

(** [vsnprintf] into the 256-byte message buffer: at most 255 bytes are kept. *)
Definition sql_set_error (l c : Z) (formatted : cstr) : SqlError :=
  {| line := l; column := c; message := bounded SQL_ERROR_MESSAGE_SIZE formatted |}.

(** [sql_set_error(error, 0, 0, ...); return 0;] *)
Definition fail {A} (formatted : cstr) : result SqlError A := Err (sql_set_error 0 0 formatted).

(** ** JSON string literals *)

Definition SIZE_MAX : N := 18446744073709551615.

Definition hex_digit (n : N) : ascii :=
  if (n <? 10)%N then ascii_of_N (48 + n) else ascii_of_N (87 + n).

(** One iteration of the quoting loop: the bytes appended for one input byte. *)
Definition json_escape (ch : ascii) : cstr :=
  if Ascii.eqb ch DQUOTE then [BACKSLASH; DQUOTE]
  else if Ascii.eqb ch BACKSLASH then [BACKSLASH; BACKSLASH]
  else if (code ch =? 8)%N then [BACKSLASH; "b"%char]
  else if (code ch =? 12)%N then [BACKSLASH; "f"%char]
  else if (code ch =? 10)%N then [BACKSLASH; "n"%char]
  else if (code ch =? 13)%N then [BACKSLASH; "r"%char]
  else if (code ch =? 9)%N then [BACKSLASH; "t"%char]
  else if (code ch <? 32)%N then
    [BACKSLASH; "u"%char; "0"%char; "0"%char; hex_digit (code ch / 16); hex_digit (code ch mod 16)]
  else [ch].

(** [malloc(output_capacity)] and the bytes written, without the NUL. *)
Definition json_quote_capacity (src : cstr) : N := N.of_nat (length src) * 6 + 3.

Definition sql_json_quote (src : cstr) : result SqlError cstr :=
  if ((SIZE_MAX - 3) / 6 <? N.of_nat (length src))%N
  then fail «"JSON string is too large to quote"»
  else Ok (DQUOTE :: concat (map json_escape src) ++ [DQUOTE]).

(** ** Reading a text file *)

(** Which calls on a temporary file succeed. *)
Record StreamCalls := mkStreamCalls {
  tmpfile_ok : bool;
  fflush_ok : bool;
  seek_end_ok : bool;
  ftell_ok : bool;
  rewind_ok : bool;
  fread_ok : bool
}.

Definition stream_works : StreamCalls := mkStreamCalls true true true true true true.

Record World := mkWorld {
  files : gmap cstr cstr;       (** path to contents *)
  writable : cstr → bool;       (** whether fopen(path, "a") succeeds *)
  freed : cstr → cstr;          (** what a read of a freed string yields *)
  temporary : StreamCalls       (** temporary files *)
}.

(** The contents as the C string functions see them. *)
Definition sql_read_text_file (w : World) (path : cstr) : result SqlError cstr :=
  match files w !! path with
  | None => fail («"failed to open file: "» ++ path)
  | Some content => Ok (c_string content)
  end.

(** ** Specification: decoding a JSON string literal

    The lexical rule for strings of RFC 8259, for text whose escapes denote single bytes. *)

Definition hex_value (c : ascii) : option N :=
  if isdigit c then Some (code c - 48)%N
  else if between 97 102 c then Some (code c - 87)%N
  else if between 65 70 c then Some (code c - 55)%N
  else None.

Definition simple_escape (e : ascii) : option ascii :=
  if Ascii.eqb e DQUOTE then Some DQUOTE
  else if Ascii.eqb e BACKSLASH then Some BACKSLASH
  else if Ascii.eqb e "/" then Some "/"%char
  else if Ascii.eqb e "b" then Some (ascii_of_N 8)
  else if Ascii.eqb e "f" then Some (ascii_of_N 12)
  else if Ascii.eqb e "n" then Some LF
  else if Ascii.eqb e "r" then Some CR
  else if Ascii.eqb e "t" then Some TAB
  else None.

(** [00h1h2] after [\u]. *)
Definition unicode_escape (a b c d : ascii) : option ascii :=
  hi ← hex_value c; lo ← hex_value d;
  if Ascii.eqb a "0" && Ascii.eqb b "0" then Some (ascii_of_N (hi * 16 + lo)) else None.

(** The decoded text up to the closing quote, and what follows the quote. *)
Fixpoint json_string_body (s : cstr) : option (cstr * cstr) :=
  match s with
  | [] => None
  | c :: s1 =>
      if Ascii.eqb c DQUOTE then Some ([], s1)
      else if Ascii.eqb c BACKSLASH then
        match s1 with
        | [] => None
        | e :: s2 =>
            if Ascii.eqb e "u" then
              match s2 with
              | h1 :: h2 :: h3 :: h4 :: s3 =>
                  x ← unicode_escape h1 h2 h3 h4;
                  '(t, rest) ← json_string_body s3; Some (x :: t, rest)
              | _ => None
              end
            else x ← simple_escape e; '(t, rest) ← json_string_body s2; Some (x :: t, rest)
        end
      else if (code c <? 32)%N then None
      else '(t, rest) ← json_string_body s1; Some (c :: t, rest)
  end.

Definition json_string (s : cstr) : option (cstr * cstr) :=
  match s with
  | c :: s' => if Ascii.eqb c DQUOTE then json_string_body s' else None
  | [] => None
  end.

(** ** Lemmas *)

Lemma json_escape_body ch s :
  json_string_body (json_escape ch ++ s) = '(t, rest) ← json_string_body s; Some (ch :: t, rest).
Proof. destruct ch as [[][][][][][][][]]; vm_compute json_escape; reflexivity. Qed.

Lemma json_escape_length ch : (length (json_escape ch) <= 6)%nat.
Proof. unfold json_escape. repeat case_match; simpl; lia. Qed.

Lemma json_escapes_body src rest :
  json_string_body (concat (map json_escape src) ++ DQUOTE :: rest) = Some (src, rest).
Proof.
  induction src as [|ch src IH]; simpl; [done|].
  rewrite <- app_assoc, json_escape_body, IH. done.
Qed.

Lemma sql_json_quote_Ok src q :
  sql_json_quote src = Ok q → q = DQUOTE :: concat (map json_escape src) ++ [DQUOTE].
Proof. unfold sql_json_quote. case_match; [done|]. by intros [= <-]. Qed.

Lemma json_escapes_length src : length (concat (map json_escape src)) ≤ length src * 6.
Proof.
  induction src as [|ch src IH]; simpl; [done|]. rewrite length_app.
  pose proof (json_escape_length ch). lia.
Qed.

Lemma message_bound l c s : length (message (sql_set_error l c s)) < SQL_ERROR_MESSAGE_SIZE.
Proof. unfold sql_set_error, bounded. simpl. rewrite length_take. unfold SQL_ERROR_MESSAGE_SIZE. lia. Qed.

(** ** Properties *)

(** Quoting is reversible: a JSON reader that meets the literal [sql_json_quote] produced,
    followed by any text, decodes exactly the quoted bytes and stops right after the literal.
    No byte of the input can end the literal early or leak out of it. *)
Theorem sql_json_quote_roundtrip src q rest :
  sql_json_quote src = Ok q → json_string (q ++ rest) = Some (src, rest).
Proof.
  intros ->%sql_json_quote_Ok. rewrite <- app_comm_cons, <- app_assoc. simpl.
  by rewrite json_escapes_body.
Qed.

Lemma sql_json_quote_roundtrip_witness :
  json_string ((DQUOTE :: (BACKSLASH :: "n"%char :: «"a"») ++ [DQUOTE]) ++ «",x"»)
  = Some (LF :: «"a"», «",x"»).
Proof. apply (sql_json_quote_roundtrip (LF :: «"a"»)). reflexivity. Defined.

(** The quoting loop stays inside its buffer: for every input that passes the size check,
    the bytes written including the NUL fit in the [6 * length + 3] bytes allocated, and that
    capacity itself does not overflow [size_t]. *)
Theorem sql_json_quote_in_bounds src q :
  sql_json_quote src = Ok q →
  (N.of_nat (length q) + 1 <= json_quote_capacity src ∧ json_quote_capacity src <= SIZE_MAX)%N.
Proof.
  unfold sql_json_quote, json_quote_capacity. destruct (N.ltb_spec ((SIZE_MAX - 3) / 6) (N.of_nat (length src))) as [|Hle]; [done|].
  intros [= <-]. simpl. rewrite length_app. simpl. pose proof (json_escapes_length src).
  split; [lia|]. change ((SIZE_MAX - 3) / 6)%N with 3074457345618258602%N in Hle.
  unfold SIZE_MAX. lia.
Qed.

Lemma sql_json_quote_in_bounds_witness :
  (N.of_nat (length (DQUOTE :: «"ab"» ++ [DQUOTE])) + 1 <= json_quote_capacity «"ab"» ∧
   json_quote_capacity «"ab"» <= SIZE_MAX)%N.
Proof. apply sql_json_quote_in_bounds. reflexivity. Defined.
