(* ===== verification/Memory.v ===== *)
(** * Memory that is taken and given back

    The other files leave out that [malloc] can fail and that [free] has to be called.  The files
    that build on this one ([ParserMemory], [StorageMemory], [Lifecycle]) take the same functions
    of the sources again with those two things in them.

    A resource (a block of memory, a mutex, a condition variable, an open stream) is a number.
    [Mem] has the resources that are held, and the outcomes of the coming requests; it remembers
    whether something was given back that was not held.  [triple pre c post Q R] says of [c]: from
    a memory that holds [pre] and anything else, it gives nothing back twice, holds [post] of its
    result and the same anything else afterwards, and its result satisfies [Q]; it satisfies [R]
    too if no request fails. *)

From stdpp Require Import base list sets strings.
From Stdlib Require Import Ascii.
From S2P Require Import Prelude CString Common.

Record Mem := mkMem {
  held : list nat;
  next : nat;
  outcomes : list bool;    (** of the coming requests, [true] for success; all succeed after them *)
  fault : bool
}.

Definition M (A : Type) : Type := Mem → A * Mem.

#[export] Instance M_ret : MRet M := λ A a m, (a, m).
#[export] Instance M_bind : MBind M := λ A B k c m, let '(a, m') := c m in k a m'.

Definition acquire : M (option nat) := λ m,
  match outcomes m with
  | false :: o => (None, mkMem (held m) (next m) o (fault m))
  | o => (Some (next m), mkMem (next m :: held m) (S (next m)) (tail o) (fault m))
  end.

(** A call that can fail and takes nothing. *)
Definition attempt : M bool := λ m,
  match outcomes m with
  | false :: o => (false, mkMem (held m) (next m) o (fault m))
  | o => (true, mkMem (held m) (next m) (tail o) (fault m))
  end.

Definition release (x : nat) : M () := λ m,
  if bool_decide (x ∈ held m)
  then ((), mkMem (filter (λ y, y ≠ x) (held m)) (next m) (outcomes m) (fault m))
  else ((), mkMem (held m) (next m) (outcomes m) true).

(** [malloc], [calloc], and every other request that can fail. *)
Abbreviation malloc := acquire.

(** [free(NULL)] does nothing. *)
Definition free (p : option nat) : M () := match p with Some x => release x | None => mret () end.

(** When [realloc] fails, the old block stays. *)
Definition realloc (p : option nat) : M (option nat) :=
  r ← malloc;
  match r with
  | None => mret None
  | Some x => _ ← free p; mret (Some x)
  end.

(** [for (index = 0; index < count; index++) free(array[index]);] *)
Fixpoint free_each (ps : list (option nat)) : M () :=
  match ps with [] => mret () | p :: ps' => _ ← free p; free_each ps' end.

(** An owned string: its block and its text. *)
Record ostr := mkOstr { block : nat; text : cstr }.

(** [free(array[index])] for the strings of an array. *)
Definition free_values (vs : list ostr) : M () := free_each (map (λ v, Some (block v)) vs).

Definition free_str (s : option ostr) : M () := free (block <$> s).

(** [sql_strdup] of a string that is not NULL. *)
Definition sql_strdup (src : cstr) : M (option ostr) :=
  copy ← malloc;
  match copy with
  | None => mret None
  | Some x => mret (Some (mkOstr x src))
  end.

(** [sql_read_text_file]: [fopen] fails when there is no file, every call may fail. *)
Definition sql_read_text_file_mem (w : World) (path : cstr) : M (result SqlError ostr) :=
  match sql_read_text_file w path with
  | Err e => mret (Err e)
  | Ok content =>
      file ← acquire;
      match file with
      | None => mret (fail («"failed to open file: "» ++ path))
      | Some file =>
          seek ← attempt;
          if negb seek then _ ← release file; mret (fail («"failed to seek file: "» ++ path))
          else
            tell ← attempt;
            if negb tell then _ ← release file; mret (fail («"failed to tell file length: "» ++ path))
            else
              rewind ← attempt;
              if negb rewind then _ ← release file; mret (fail («"failed to rewind file: "» ++ path))
              else
                buffer ← malloc;
                match buffer with
                | None => _ ← release file; mret (fail «"failed to allocate file buffer"»)
                | Some b =>
                    read ← attempt;
                    _ ← release file;
                    if negb read then _ ← release b; mret (fail («"failed to read file: "» ++ path))
                    else mret (Ok (mkOstr b content))
                end
      end
  end.

(** What a pointer owns. *)
Definition ptr (p : option nat) : list nat := option_list p.
Definition strs (s : option ostr) : list nat := option_list (block <$> s).

(** ** Triples *)

(** What is held is distinct, numbers are not used again, and nothing was given back twice. *)
Definition mem_ok (m : Mem) : Prop := fault m = false ∧ NoDup (held m) ∧ Forall (λ x, x < next m) (held m).

Definition all_succeed (m : Mem) : Prop := Forall (λ b, b = true) (outcomes m).

Definition triple {A} (pre : list nat) (c : M A) (post : A → list nat) (Q R : A → Prop) : Prop :=
  ∀ m L, mem_ok m → held m ≡ₚ pre ++ L →
    mem_ok (c m).2 ∧ held (c m).2 ≡ₚ post (c m).1 ++ L ∧ Q (c m).1 ∧
    (all_succeed m → all_succeed (c m).2 ∧ R (c m).1).

Lemma triple_ret {A} (a : A) pre post (Q R : A → Prop) :
  pre ≡ₚ post a → Q a → R a → triple pre (mret a) post Q R.
Proof. intros Hp HQ HR m L Hm Hh. simpl. rewrite Hh, Hp. auto. Qed.

Lemma triple_bind {A B} (c : M A) (k : A → M B) pre mid post Q1 R1 (Q R : B → Prop) :
  triple pre c mid Q1 R1 →
  (∀ a, Q1 a → triple (mid a) (k a) post Q (λ b, R1 a → R b)) → triple pre (c ≫= k) post Q R.
Proof.
  intros Hc Hk m L Hm Hh. destruct (Hc m L Hm Hh) as (Hm1 & Hh1 & HQ1 & HR1).
  destruct (Hk _ HQ1 _ L Hm1 Hh1) as (Hm2 & Hh2 & HQ2 & HR2).
  unfold mbind, M_bind. destruct (c m) as [a m1]. simpl in *. split_and!; try done.
  intros Hall. destruct (HR1 Hall) as [Hall1 Ha]. destruct (HR2 Hall1) as [Hall2 Hb]. auto.
Qed.

Lemma triple_frame {A} (c : M A) F pre post Q R :
  triple pre c post Q R → triple (pre ++ F) c (λ a, post a ++ F) Q R.
Proof.
  intros Hc m L Hm Hh. rewrite <- (assoc_L (++)) in Hh. destruct (Hc m (F ++ L) Hm Hh) as (? & Hp & ? & ?).
  split_and!; try done. rewrite <- (assoc_L (++)). done.
Qed.

Lemma triple_conseq {A} (c : M A) pre pre' post post' (Q Q' R R' : A → Prop) :
  triple pre c post Q R → pre' ≡ₚ pre →
  (∀ a, Q a → post a ≡ₚ post' a ∧ Q' a ∧ (R a → R' a)) → triple pre' c post' Q' R'.
Proof.
  intros Hc Hp Ha m L Hm Hh. rewrite Hp in Hh. destruct (Hc m L Hm Hh) as (Hm1 & Hh1 & HQ & HR).
  destruct (Ha _ HQ) as (Hpost & HQ' & HR'). split_and!; try done; [by rewrite <- Hpost|].
  intros Hall. destruct (HR Hall). auto.
Qed.

(** Call a function on a part [p1] of what is held. *)
Lemma triple_seq {A B} F (c : M A) (k : A → M B) pre p1 mid post Q1 R1 (Q R : B → Prop) :
  triple p1 c mid Q1 R1 → pre ≡ₚ p1 ++ F →
  (∀ a, Q1 a → triple (mid a ++ F) (k a) post Q (λ b, R1 a → R b)) → triple pre (c ≫= k) post Q R.
Proof.
  intros Hc Hp Hk. eapply triple_bind; [|exact Hk]. eapply triple_conseq; [by apply triple_frame|done|auto].
Qed.

(** ** Triples that allow for a leak *)

(** As [triple], but afterwards [leak] is held as well, which nobody owns. *)
Definition leaks {A} (pre : list nat) (c : M A) (post : A → list nat) (Q R : A → list nat → Prop) : Prop :=
  ∀ m L, mem_ok m → held m ≡ₚ pre ++ L → ∃ leak,
    mem_ok (c m).2 ∧ held (c m).2 ≡ₚ post (c m).1 ++ leak ++ L ∧ Q (c m).1 leak ∧
    (all_succeed m → all_succeed (c m).2 ∧ R (c m).1 leak).

Lemma triple_leaks {A} (c : M A) pre post (Q R : A → Prop) (Q' R' : A → list nat → Prop) :
  triple pre c post Q R → (∀ a, Q a → Q' a [] ∧ (R a → R' a [])) → leaks pre c post Q' R'.
Proof.
  intros Hc Ha m L Hm Hh. destruct (Hc m L Hm Hh) as (Hm1 & Hh1 & HQ & HR). destruct (Ha _ HQ) as [HQ' HR'].
  exists []. split_and!; try done. intros Hall. destruct (HR Hall). auto.
Qed.

(** What a function holds besides its result when it returns is a leak. *)
Lemma leaks_ret {A} (a : A) pre post leak (Q R : A → list nat → Prop) :
  pre ≡ₚ post a ++ leak → Q a leak → R a leak → leaks pre (mret a) post Q R.
Proof. intros Hp HQ HR m L Hm Hh. exists leak. simpl. rewrite Hh, Hp, <- (assoc_L (++)). auto. Qed.

Lemma leaks_seq {A B} F (c : M A) (k : A → M B) pre p1 mid post Q1 R1 (Q R : B → list nat → Prop) :
  leaks p1 c mid Q1 R1 → pre ≡ₚ p1 ++ F →
  (∀ a l1, Q1 a l1 → leaks (mid a ++ F) (k a) post (λ b l2, Q b (l1 ++ l2)) (λ b l2, R1 a l1 → R b (l1 ++ l2))) →
  leaks pre (c ≫= k) post Q R.
Proof.
  intros Hc Hp Hk m L Hm Hh. destruct (Hc m (F ++ L) Hm) as (l1 & Hm1 & Hh1 & HQ1 & HR1).
  { rewrite Hh, Hp. by rewrite <- (assoc_L (++)). }
  destruct (Hk _ _ HQ1 (c m).2 (l1 ++ L) Hm1) as (l2 & Hm2 & Hh2 & HQ2 & HR2).
  { rewrite Hh1. solve_Permutation. }
  exists (l1 ++ l2). unfold mbind, M_bind. destruct (c m) as [a m1]. simpl in *. split_and!; try done.
  - rewrite Hh2. solve_Permutation.
  - intros Hall. destruct (HR1 Hall) as [Hall1 Ha]. destruct (HR2 Hall1) as [Hall2 Hb]. auto.
Qed.

(** A call that leaks nothing. *)
Lemma leaks_seq_triple {A B} F (c : M A) (k : A → M B) pre p1 mid post Q1 R1 (Q R : B → list nat → Prop) :
  triple p1 c mid Q1 R1 → pre ≡ₚ p1 ++ F →
  (∀ a, Q1 a → leaks (mid a ++ F) (k a) post Q (λ b l, R1 a → R b l)) → leaks pre (c ≫= k) post Q R.
Proof.
  intros Hc Hp Hk. eapply (leaks_seq F _ _ _ p1 mid _ (λ a l, l = [] ∧ Q1 a) (λ a _, R1 a)); [|done|].
  - eapply triple_leaks; [done|auto].
  - intros a l1 [-> Ha]. exact (Hk a Ha).
Qed.

Lemma leaks_conseq {A} (c : M A) pre pre' post post' (Q Q' R R' : A → list nat → Prop) :
  leaks pre c post Q R → pre' ≡ₚ pre →
  (∀ a l, Q a l → post a ≡ₚ post' a ∧ Q' a l ∧ (R a l → R' a l)) → leaks pre' c post' Q' R'.
Proof.
  intros Hc Hp Ha m L Hm Hh. rewrite Hp in Hh. destruct (Hc m L Hm Hh) as (leak & Hm1 & Hh1 & HQ & HR).
  destruct (Ha _ _ HQ) as (Hpost & HQ' & HR'). exists leak. split_and!; try done; [by rewrite <- Hpost|].
  intros Hall. destruct (HR Hall). auto.
Qed.

(** What an array of owners holds, apart from one of them. *)
Lemma bind_insert {A} (f : A → list nat) l i x :
  l !! i = Some x → ∃ F, (l ≫= f) ≡ₚ f x ++ F ∧ ∀ x', (<[i := x']> l ≫= f) ≡ₚ f x' ++ F.
Proof.
  intros Hi. exists ((take i l ≫= f) ++ (drop (S i) l ≫= f)). split.
  - rewrite <- (take_drop_middle _ _ _ Hi) at 1. rewrite bind_app. csimpl. solve_Permutation.
  - intros x'. rewrite insert_take_drop by (by eapply lookup_lt_Some). rewrite bind_app. csimpl. solve_Permutation.
Qed.

(** Programs that do the same. *)
Lemma leaks_ext {A} (c c' : M A) pre post Q R : (∀ m, c m = c' m) → leaks pre c' post Q R → leaks pre c post Q R.
Proof. intros He Hc m L Hm Hh. rewrite He. by apply Hc. Qed.

(** ** The requests *)

Lemma triple_acquire : triple [] acquire ptr (λ _, True) (λ r, is_Some r).
Proof.
  intros m L (Hf & Hnd & Hlt) Hh. simpl in Hh. unfold acquire.
  assert (Hnew : mem_ok (mkMem (next m :: held m) (S (next m)) (tail (outcomes m)) (fault m))).
  { split_and!; simpl; [done| |].
    - constructor; [|done]. rewrite Forall_forall in Hlt. intros ?%Hlt. lia.
    - constructor; [lia|]. eapply Forall_impl; [done|]. simpl. lia. }
  destruct (outcomes m) as [|[|] o] eqn:Ho; simpl in *; split_and!; try done; try (by rewrite Hh); unfold all_succeed; rewrite Ho;
    intros Hall; inversion Hall; subst; try done; split; done || by eexists.
Qed.

Lemma triple_attempt : triple [] attempt (λ _, []) (λ _, True) (λ b, b = true).
Proof.
  intros m L Hm Hh. unfold attempt, all_succeed. destruct (outcomes m) as [|[|] o]; simpl; split_and!; try done;
    intros Hall; inversion Hall; subst; done.
Qed.

Lemma triple_release x : triple [x] (release x) (λ _, []) (λ _, True) (λ _, True).
Proof.
  intros m L (Hf & Hnd & Hlt) Hh. unfold release. rewrite bool_decide_eq_true_2 by (rewrite Hh; set_solver). simpl.
  split_and!; try done.
  - split_and!; simpl; [done|by apply NoDup_filter|].
    apply Forall_forall. intros y [_ Hy]%list_elem_of_filter. rewrite Forall_forall in Hlt. auto.
  - assert (Hx : x ∉ L) by (rewrite Hh in Hnd; by apply NoDup_cons in Hnd as [? _]). rewrite Hh. simpl.
    rewrite filter_cons_False by auto. clear -Hx. induction L as [|y L IH]; [done|].
    rewrite filter_cons_True by set_solver. constructor. apply IH. set_solver.
Qed.

Lemma triple_free p : triple (ptr p) (free p) (λ _, []) (λ _, True) (λ _, True).
Proof. destruct p; [apply triple_release|by apply triple_ret]. Qed.

Lemma triple_free_str s : triple (strs s) (free_str s) (λ _, []) (λ _, True) (λ _, True).
Proof. apply triple_free. Qed.

Lemma triple_realloc p :
  triple (ptr p) (realloc p) (λ r, match r with Some x => [x] | None => ptr p end) (λ _, True) (λ r, is_Some r).
Proof.
  eapply (triple_seq (ptr p)); [apply triple_acquire|done|]. intros [x|] _; simpl; [|by apply triple_ret].
  eapply (triple_seq [x]); [apply triple_free|solve_Permutation|]. intros [] _. apply triple_ret; [done|done|by eexists].
Qed.

Lemma triple_free_each ps : triple (ps ≫= ptr) (free_each ps) (λ _, []) (λ _, True) (λ _, True).
Proof.
  induction ps as [|p ps IH]; [by apply triple_ret|]. simpl.
  eapply (triple_seq (ps ≫= ptr)); [apply triple_free|done|]. intros [] _. simpl.
  eapply triple_conseq; [exact IH|done|auto].
Qed.

Lemma triple_free_values vs : triple (map block vs) (free_values vs) (λ _, []) (λ _, True) (λ _, True).
Proof.
  unfold free_values. eapply triple_conseq; [apply triple_free_each| |auto].
  induction vs as [|v vs IH]; simpl; [done|by rewrite IH].
Qed.

Lemma triple_strdup src :
  triple [] (sql_strdup src) strs (λ r, ∀ s, r = Some s → text s = src) (λ r, is_Some r).
Proof.
  eapply (triple_seq []); [apply triple_acquire|done|]. intros [x|] _; simpl; apply triple_ret; naive_solver.
Qed.

(** ** Automation *)

(** [call H with F as a Ha]: the next call satisfies [H], [F] is held besides what it needs; its
    result is [a] and satisfies [Ha].  Without names for a call that returns nothing. *)
Tactic Notation "call" uconstr(H) "with" uconstr(F) "as" simple_intropattern(a) simple_intropattern(Ha) :=
  first [eapply (triple_seq F)|eapply (leaks_seq_triple F)]; [eapply H|simpl; solve_Permutation|intros a; cbn beta iota; intros Ha; simpl].
Tactic Notation "call" uconstr(H) "with" uconstr(F) := call H with F as [] _.

(** The code returns. *)
Ltac finish := apply triple_ret; [simpl; try solve_Permutation|simpl; try done..].

(** What a triple says of a memory in which nothing else is of interest. *)
Lemma triple_run {A} pre (c : M A) post Q R m :
  triple pre c post Q R → mem_ok m → held m ≡ₚ pre →
  mem_ok (c m).2 ∧ held (c m).2 ≡ₚ post (c m).1 ∧ Q (c m).1 ∧ (all_succeed m → R (c m).1).
Proof.
  intros Hc Hm Hh. destruct (Hc m [] Hm) as (? & Hp & ? & HR); [by rewrite (right_id_L [] (++))|].
  rewrite (right_id_L [] (++)) in Hp. split_and!; try done. intros Hall. by apply HR.
Qed.

(** Reading a file holds its text, or nothing. *)
Lemma triple_read_text_file w path :
  triple [] (sql_read_text_file_mem w path) (λ r, match r with Ok t => [block t] | Err _ => [] end)
    (λ r, match r with Ok t => sql_read_text_file w path = Ok (text t) | Err _ => True end)
    (λ r, match r with Err e => sql_read_text_file w path = Err e | Ok _ => True end).
Proof.
  unfold sql_read_text_file_mem. destruct (sql_read_text_file w path) as [content|e]; [|finish].
  call triple_acquire with (@nil nat) as [file|] _; [|finish].
  do 3 (call triple_attempt with [file] as [] _; [|call triple_release with (@nil nat); finish]).
  call triple_acquire with [file] as [b|] _; [|call triple_release with (@nil nat); finish].
  call triple_attempt with [b; file] as [] _; call triple_release with [b]; [finish|].
  call triple_release with (@nil nat). finish.
Qed.
