(* ===== verification/Parser.v ===== *)
(** * [src/src/query/tokenizer.c], [src/src/query/parser.c], [src/include/ast.h]: the SQL parser

    A cursor is the suffix of the text that remains.  Each parsing function returns the value
    it read and the advanced cursor.  The second half gives the grammar of the two supported
    statements as relations between texts and queries, independently of the parser, and shows
    that [parse_sql_text] accepts exactly that grammar. *)

From stdpp Require Import base list strings sets.
From Stdlib Require Import Ascii.
From S2P Require Import Prelude CString Common.

(** ** The query a statement denotes *)

Inductive QueryType := QUERY_INSERT | QUERY_SELECT.
Inductive ValueType := VALUE_INT | VALUE_FLOAT | VALUE_STRING.

#[export] Instance QueryType_eq_dec : EqDecision QueryType.
Proof. solve_decision. Defined.

Record Value := mkValue { value_type : ValueType; raw : cstr }.

Record Condition := mkCondition { cond_column : cstr; cond_value : Value }.

(** [value_count] is the length of [values]; [has_condition] is whether [condition] is set. *)
Record Query := mkQuery {
  query_type : QueryType;
  table_name : cstr;
  values : list cstr;
  condition : option Condition
}.

(** ** Tokenizer: reject blank text *)

Fixpoint tokenize_sql (sql : cstr) : result SqlError () :=
  match sql with
  | [] => fail «"sql must not be empty"»
  | c :: sql' =>
      if Ascii.eqb c NUL then fail «"sql must not be empty"»
      else if negb (isspace c) then Ok ()
      else tokenize_sql sql'
  end.

(** ** Lexical functions *)

Definition skip_whitespace (cursor : cstr) : cstr := drop_while isspace cursor.

Definition is_identifier_char (ch : ascii) : bool := isalnum ch || Ascii.eqb ch "_".

(** The comparison loop of [match_keyword]: [scan + index] after the keyword. *)
Fixpoint match_letters (scan keyword : cstr) : option cstr :=
  match keyword with
  | [] => Some scan
  | k :: keyword' =>
      if Ascii.eqb (tolower (peek scan)) (tolower k) then match_letters (tail scan) keyword'
      else None
  end.

Definition match_keyword (cursor keyword : cstr) : option cstr :=
  match match_letters (skip_whitespace cursor) keyword with
  | None => None
  | Some rest => if is_identifier_char (peek rest) then None else Some rest
  end.

Definition parse_identifier (cursor : cstr) : result SqlError (cstr * cstr) :=
  let cursor := skip_whitespace cursor in
  if negb (is_identifier_char (peek cursor)) then fail «"expected identifier"»
  else Ok (take_while is_identifier_char cursor, drop_while is_identifier_char cursor).

Definition is_quote (c : ascii) : bool := Ascii.eqb c SQUOTE || Ascii.eqb c DQUOTE.

(** The characters the two value loops step over. *)
Definition in_quotes (quote c : ascii) : bool := negb (Ascii.eqb c NUL) && negb (Ascii.eqb c quote).

Definition is_bare (c : ascii) : bool :=
  negb (Ascii.eqb c NUL) && negb (Ascii.eqb c ",") && negb (Ascii.eqb c ")") &&
  negb (Ascii.eqb c ";") && negb (isspace c).

Definition parse_value (cursor : cstr) : result SqlError (cstr * cstr) :=
  let cursor := skip_whitespace cursor in
  if is_quote (peek cursor) then
    let quote := peek cursor in
    let value := take_while (in_quotes quote) (tail cursor) in
    let stop := drop_while (in_quotes quote) (tail cursor) in
    if negb (Ascii.eqb (peek stop) quote) then fail «"unterminated string literal"»
    else if Nat.eqb (length value) 0 then fail «"expected value"»
    else Ok (value, tail stop)
  else
    let value := take_while is_bare cursor in
    if Nat.eqb (length value) 0 then fail «"expected value"»
    else Ok (value, drop_while is_bare cursor).

(** ** Statements *)

Definition parse_condition (cursor : cstr) : result SqlError (option Condition * cstr) :=
  match match_keyword cursor «"where"» with
  | None => Ok (None, cursor)
  | Some cursor =>
      '(col, cursor) ← parse_identifier cursor;
      let cursor := skip_whitespace cursor in
      if negb (Ascii.eqb (peek cursor) "=") then fail «"expected '=' in WHERE clause"»
      else
        '(value, cursor) ← parse_value (tail cursor);
        Ok (Some (mkCondition col (mkValue VALUE_STRING value)), cursor)
  end.

(** The optional semicolon and the check that nothing follows. *)
Definition parse_end (cursor : cstr) : result SqlError () :=
  let cursor := skip_whitespace cursor in
  let cursor := if Ascii.eqb (peek cursor) ";" then tail cursor else cursor in
  let cursor := skip_whitespace cursor in
  if negb (Ascii.eqb (peek cursor) NUL) then fail «"unexpected trailing SQL"» else Ok ().

Definition parse_select (sql : cstr) : result SqlError Query :=
  match match_keyword sql «"select"» with
  | None => fail «"expected SELECT"»
  | Some cursor =>
      let cursor := skip_whitespace cursor in
      if negb (Ascii.eqb (peek cursor) "*") then fail «"only SELECT * is supported"»
      else
        match match_keyword (tail cursor) «"from"» with
        | None => fail «"expected FROM"»
        | Some cursor =>
            '(table, cursor) ← parse_identifier cursor;
            '(cond, cursor) ← parse_condition cursor;
            _ ← parse_end cursor;
            Ok (mkQuery QUERY_SELECT table [] cond)
        end
  end.

(** The VALUES loop.  Every round reads at least one character, so [length cursor] rounds are
    enough; the result is [None] only when [fuel] runs out. *)
Fixpoint parse_values (fuel : nat) (cursor : cstr) : option (result SqlError (list cstr * cstr)) :=
  match fuel with
  | O => None
  | S fuel =>
      match parse_value cursor with
      | Err e => Some (Err e)
      | Ok (value, cursor) =>
          let cursor := skip_whitespace cursor in
          if Ascii.eqb (peek cursor) "," then
            match parse_values fuel (tail cursor) with
            | Some (Ok (values, cursor)) => Some (Ok (value :: values, cursor))
            | other => other
            end
          else if Ascii.eqb (peek cursor) ")" then Some (Ok ([value], tail cursor))
          else Some (fail «"expected ',' or ')' in VALUES list"»)
      end
  end.

Definition parse_insert (sql : cstr) : result SqlError Query :=
  match match_keyword sql «"insert"» with
  | None => fail «"expected INSERT"»
  | Some cursor =>
      match match_keyword cursor «"into"» with
      | None => fail «"expected INTO"»
      | Some cursor =>
          '(table, cursor) ← parse_identifier cursor;
          match match_keyword cursor «"values"» with
          | None => fail «"expected VALUES"»
          | Some cursor =>
              let cursor := skip_whitespace cursor in
              if negb (Ascii.eqb (peek cursor) "(") then fail «"expected '(' after VALUES"»
              else
                match parse_values (S (length cursor)) (tail cursor) with
                | None => fail «"VALUES loop out of fuel"»
                | Some r =>
                    '(vs, cursor) ← r;
                    _ ← parse_end cursor;
                    Ok (mkQuery QUERY_INSERT table vs None)
                end
          end
      end
  end.

(** The error of a failed alternative is discarded; the last assignment wins. *)
Definition parse_sql_text (sql : cstr) : result SqlError Query :=
  if Ascii.eqb (peek sql) NUL then fail «"sql must not be empty"»
  else
    _ ← tokenize_sql sql;
    match parse_select sql with
    | Ok q => Ok q
    | Err _ =>
        match parse_insert sql with
        | Ok q => Ok q
        | Err _ => fail «"unsupported SQL statement"»
        end
    end.

(** ** Specification: the grammar of the supported statements

    [x_at s x rest] says that [s] starts with an [x] after optional white space and that
    [rest] is what follows. *)

Definition blank (ws : cstr) : Prop := Forall (λ c, isspace c = true) ws.

(** Equal up to the case of letters. *)
Definition same_letters (s t : cstr) : Prop := map tolower s = map tolower t.

Definition keyword_at (kw s rest : cstr) : Prop :=
  ∃ ws sp, blank ws ∧ same_letters sp kw ∧ s = ws ++ sp ++ rest ∧
           is_identifier_char (peek rest) = false.

Definition symbol_at (c : ascii) (s rest : cstr) : Prop := ∃ ws, blank ws ∧ s = ws ++ c :: rest.

Definition identifier (id : cstr) : Prop :=
  id ≠ [] ∧ Forall (λ c, is_identifier_char c = true) id.

Definition identifier_at (s id rest : cstr) : Prop :=
  ∃ ws, blank ws ∧ identifier id ∧ s = ws ++ id ++ rest ∧ is_identifier_char (peek rest) = false.

Inductive value_at (s v rest : cstr) : Prop :=
| value_quoted ws quote :
    blank ws → is_quote quote = true → v ≠ [] → Forall (λ c, in_quotes quote c = true) v →
    s = ws ++ quote :: v ++ quote :: rest → value_at s v rest
| value_bare ws :
    blank ws → v ≠ [] → Forall (λ c, is_bare c = true) v → is_quote (peek v) = false →
    is_bare (peek rest) = false → s = ws ++ v ++ rest → value_at s v rest.

Inductive values_at : cstr → list cstr → cstr → Prop :=
| values_last s v s1 rest :
    value_at s v s1 → symbol_at ")" s1 rest → values_at s [v] rest
| values_more s v s1 s2 vs rest :
    value_at s v s1 → symbol_at "," s1 s2 → values_at s2 vs rest → values_at s (v :: vs) rest.

Definition end_at (s : cstr) : Prop :=
  ∃ ws1 semi ws2 rest, blank ws1 ∧ (semi = [] ∨ semi = [";"%char]) ∧ blank ws2 ∧
    s = ws1 ++ semi ++ ws2 ++ rest ∧ peek rest = NUL.

Inductive condition_at : cstr → option Condition → cstr → Prop :=
| condition_none s : end_at s → condition_at s None s
| condition_some s s1 col s2 s3 v rest :
    keyword_at «"where"» s s1 → identifier_at s1 col s2 → symbol_at "=" s2 s3 →
    value_at s3 v rest →
    condition_at s (Some (mkCondition col (mkValue VALUE_STRING v))) rest.

Inductive statement : cstr → Query → Prop :=
| select_statement s s1 s2 s3 table s4 cond s5 :
    keyword_at «"select"» s s1 → symbol_at "*" s1 s2 → keyword_at «"from"» s2 s3 →
    identifier_at s3 table s4 → condition_at s4 cond s5 → end_at s5 →
    statement s (mkQuery QUERY_SELECT table [] cond)
| insert_statement s s1 s2 table s3 s4 s5 vs s6 :
    keyword_at «"insert"» s s1 → keyword_at «"into"» s1 s2 → identifier_at s2 table s3 →
    keyword_at «"values"» s3 s4 → symbol_at "(" s4 s5 → values_at s5 vs s6 → end_at s6 →
    statement s (mkQuery QUERY_INSERT table vs None).

(** ** Lemmas: the lexical functions against the grammar *)

Lemma symbol_at_skip c s rest :
  symbol_at c s rest → isspace c = false → skip_whitespace s = c :: rest.
Proof. intros (ws & Hws & ->) Hc. unfold skip_whitespace. by rewrite skip_app. Qed.

Lemma match_letters_sound kw scan rest :
  Forall (λ k, isalpha (tolower k) = true) kw → match_letters scan kw = Some rest →
  ∃ sp, same_letters sp kw ∧ scan = sp ++ rest.
Proof.
  intros Hkw. revert scan. induction Hkw as [|k kw Hk _ IH]; intros scan; simpl.
  - intros [= <-]. by exists [].
  - destruct (Ascii.eqb_spec (tolower (peek scan)) (tolower k)) as [He|]; [|done].
    intros (sp & Hsp & Hscan)%IH. exists (peek scan :: sp). split.
    + unfold same_letters in *. simpl. by rewrite He, Hsp.
    + simpl. rewrite <- Hscan. apply peek_tail. intros Hz. rewrite Hz in He.
      by rewrite <- He in Hk.
Qed.

Lemma match_letters_complete kw sp rest :
  same_letters sp kw → match_letters (sp ++ rest) kw = Some rest.
Proof.
  unfold same_letters. revert sp. induction kw as [|k kw IH]; intros [|c sp]; simpl; try done.
  intros [= Hc Hsp]. rewrite Hc, (proj2 (ascii_eqb_eq _ _)) by done. by apply IH.
Qed.

(** The keywords of the grammar are non-empty words. *)
Definition word (kw : cstr) : Prop := kw ≠ [] ∧ Forall (λ k, isalpha (tolower k) = true) kw.

Lemma same_letters_peek sp kw rest : word kw → same_letters sp kw → isspace (peek (sp ++ rest)) = false.
Proof.
  unfold same_letters. intros [Hne Hkw] Hs. destruct kw as [|k kw]; [done|].
  destruct sp as [|c sp]; [done|]. simpl in *. injection Hs as Hc _. inversion_clear Hkw.
  pose proof (space_not_letter c) as Hsp. destruct (isspace c); [|done].
  simpl in Hsp. apply negb_true_iff in Hsp. congruence.
Qed.

Lemma match_keyword_spec kw s rest :
  word kw → match_keyword s kw = Some rest ↔ keyword_at kw s rest.
Proof.
  intros Hkw. unfold match_keyword, skip_whitespace. split.
  - destruct (match_letters _ _) as [r|] eqn:Hm; [|done]. case_match eqn:Hid; [done|]. intros [= <-].
    apply match_letters_sound in Hm as (sp & Hsp & Hs); [|apply Hkw].
    destruct (skip_split isspace s) as (ws & Hws & Hws'). exists ws, sp. split_and!; try done.
    by rewrite Hws', Hs at 1.
  - intros (ws & sp & Hws & Hsp & -> & Hid). rewrite skip_app by (done || by eapply same_letters_peek).
    rewrite match_letters_complete by done. by rewrite Hid.
Qed.

Lemma parse_identifier_spec s id rest :
  parse_identifier s = Ok (id, rest) ↔ identifier_at s id rest.
Proof.
  unfold parse_identifier, skip_whitespace, fail. split.
  - case_match eqn:Hid; [done|]. intros [= <- <-]. apply negb_false_iff in Hid.
    destruct (skip_split isspace s) as (ws & Hws & Hs). exists ws. split_and!; [done| | |].
    + split; [|apply take_while_all]. destruct (drop_while isspace s); simpl in *; [done|]. by rewrite Hid.
    + by rewrite take_drop_while.
    + by apply drop_while_peek.
  - intros (ws & Hws & [Hne Hall] & -> & Hstop).
    assert (Hhead : is_identifier_char (peek (id ++ rest)) = true).
    { destruct id; [done|]. by inversion Hall. }
    rewrite skip_app; [|done|].
    + rewrite Hhead. simpl. by destruct (span_app is_identifier_char id rest) as [-> ->].
    + destruct (isspace (peek (id ++ rest))) eqn:Hsp; [|done].
      assert (Hx : implb (isspace (peek (id ++ rest))) (negb (is_identifier_char (peek (id ++ rest)))) = true)
        by (generalize (peek (id ++ rest)) as c; intros c; all_bytes c).
      by rewrite Hsp, Hhead in Hx.
Qed.

Lemma quote_not_space c : is_quote c = true → isspace c = false ∧ c ≠ NUL.
Proof.
  unfold is_quote. rewrite orb_true_iff, !ascii_eqb_eq. by intros [-> | ->].
Qed.

Lemma bare_not_space c : is_bare c = true → isspace c = false.
Proof. unfold is_bare. intros. breflect. done. Qed.

Lemma parse_value_sound s v rest : parse_value s = Ok (v, rest) → value_at s v rest.
Proof.
  unfold parse_value, skip_whitespace, fail. destruct (skip_split isspace s) as (ws & Hws & Hs).
  set (t := drop_while isspace s) in *. case_match eqn:Hq.
  - destruct (quote_not_space _ Hq) as [_ Hn]. apply peek_tail in Hn as Ht.
    case_match eqn:Hstop; [done|]. case_match eqn:Hlen; [done|]. intros [= <- <-]. breflect.
    apply ascii_eqb_eq in Hstop. apply (value_quoted _ _ _ ws (peek t)); try done.
    + intros He. apply Hlen. by rewrite He.
    + apply take_while_all.
    + etrans; [exact Hs|]. f_equal. etrans; [exact Ht|]. f_equal.
      etrans; [symmetry; apply (take_drop_while (in_quotes (peek t)))|]. f_equal.
      rewrite <- Hstop at 2. apply peek_tail. congruence.
  - case_match eqn:Hlen; [done|]. intros [= <- <-]. breflect. apply (value_bare _ _ _ ws); try done.
    + intros He. apply Hlen. by rewrite He.
    + apply take_while_all.
    + destruct t as [|c t']; simpl in *; [done|]. by destruct (is_bare c).
    + by apply drop_while_peek.
    + by rewrite take_drop_while.
Qed.

Lemma parse_value_complete s v rest : value_at s v rest → parse_value s = Ok (v, rest).
Proof.
  intros Hv. unfold parse_value, skip_whitespace.
  destruct Hv as [ws quote Hws Hq Hne Hall -> | ws Hws Hne Hall Hnq Hstop ->].
  - destruct (quote_not_space _ Hq) as [Hsp Hn]. rewrite skip_app by done. cbn [peek tail].
    rewrite Hq. destruct (span_app (in_quotes quote) v (quote :: rest)) as [-> ->]; [done| |].
    + simpl. unfold in_quotes. rewrite (proj2 (ascii_eqb_eq quote quote)) by done. by rewrite andb_false_r.
    + cbn [peek]. rewrite (proj2 (ascii_eqb_eq quote quote)) by done. by destruct v.
  - destruct v as [|c v]; [done|]. inversion Hall; subst.
    rewrite skip_app by (done || by apply bare_not_space). cbn [peek app] in *. rewrite Hnq.
    change (c :: v ++ rest) with ((c :: v) ++ rest).
    by destruct (span_app is_bare (c :: v) rest) as [-> ->].
Qed.

Lemma parse_end_spec s : parse_end s = Ok () ↔ end_at s.
Proof.
  unfold parse_end, skip_whitespace, fail. split.
  - destruct (skip_split isspace s) as (ws & Hws & Hs). set (t := drop_while isspace s) in *.
    case_match eqn:Hend; [done|]. intros _. apply negb_false_iff, ascii_eqb_eq in Hend.
    destruct (skip_split isspace (if Ascii.eqb (peek t) ";" then tail t else t)) as (ws2 & Hws2 & Ht).
    eexists ws, (if Ascii.eqb (peek t) ";" then [";"%char] else []), ws2, _.
    split_and!; [done|by case_match; [right|left]|done| |exact Hend].
    rewrite <- Ht. etrans; [exact Hs|]. f_equal.
    destruct (Ascii.eqb_spec (peek t) ";") as [Hp|]; [|done]. simpl. rewrite <- Hp.
    apply peek_tail. by rewrite Hp.
  - intros (ws1 & semi & ws2 & rest & Hws1 & [-> | ->] & Hws2 & -> & Hr); simpl.
    + rewrite drop_while_app by done.
      assert (Hrest : drop_while isspace (ws2 ++ rest) = rest) by (apply skip_app; [done|by rewrite Hr]).
      rewrite Hrest, Hr. simpl. by rewrite drop_while_peek_stop, Hr; [|rewrite Hr].
    + rewrite drop_while_app, drop_while_stop by done. simpl.
      rewrite skip_app; [by rewrite Hr|done|by rewrite Hr].
Qed.

(** ** Lemmas: statements against the grammar *)

Lemma words :
  word «"select"» ∧ word «"from"» ∧ word «"where"» ∧ word «"insert"» ∧ word «"into"» ∧ word «"values"».
Proof. split_and!; (split; [done|by repeat constructor]). Qed.

Lemma keyword_at_skip kw s rest :
  word kw → keyword_at kw s rest →
  ∃ c k kw', kw = k :: kw' ∧ peek (skip_whitespace s) = c ∧ tolower c = tolower k ∧
             isalpha (tolower c) = true.
Proof.
  intros Hkw (ws & sp & Hws & Hsp & -> & _). unfold skip_whitespace.
  rewrite skip_app by (done || by eapply same_letters_peek). destruct Hkw as [Hne Hkw].
  destruct kw as [|k kw]; [done|]. inversion_clear Hkw. destruct sp as [|c sp]; [done|].
  unfold same_letters in Hsp. simpl in Hsp. injection Hsp as Hc _.
  exists c, k, kw. split_and!; try done. congruence.
Qed.

Lemma end_at_not_keyword kw s rest : word kw → end_at s → ¬ keyword_at kw s rest.
Proof.
  intros Hkw (ws1 & semi & ws2 & r & Hws1 & Hsemi & Hws2 & -> & Hr) Hk.
  apply keyword_at_skip in Hk as (c & k & kw' & _ & Hc & _ & Ha); [|done].
  unfold skip_whitespace in Hc. rewrite drop_while_app in Hc by done.
  destruct Hsemi as [-> | ->]; simpl in Hc; [|by subst].
  rewrite skip_app in Hc by (done || by rewrite Hr). by rewrite <- Hc, Hr in Ha.
Qed.

Lemma value_at_length s v rest : value_at s v rest → length rest < length s.
Proof.
  destruct 1 as [ws quote Hws Hq Hne Hall -> | ws Hws Hne Hall Hnq Hstop ->];
    rewrite ?length_app; simpl; rewrite ?length_app; destruct v; simpl; done || lia.
Qed.

Lemma symbol_at_length c s rest : symbol_at c s rest → length rest < length s.
Proof. intros (ws & _ & ->). rewrite length_app. simpl. lia. Qed.

Lemma peek_cons c (s : cstr) : peek s = c → c ≠ NUL → s = c :: tail s.
Proof. intros <- H. by apply peek_tail. Qed.

Lemma skip_peek_symbol c s :
  c ≠ NUL → peek (skip_whitespace s) = c → symbol_at c s (tail (skip_whitespace s)).
Proof.
  intros Hn Hp. destruct (skip_split isspace s) as (ws & Hws & Hs). exists ws. split; [done|].
  etrans; [exact Hs|]. f_equal. by apply peek_cons.
Qed.

Lemma parse_values_sound fuel s vs rest :
  parse_values fuel s = Some (Ok (vs, rest)) → values_at s vs rest.
Proof.
  revert s vs rest. induction fuel as [|fuel IH]; intros s vs rest; simpl; [done|].
  destruct (parse_value s) as [[v s1]|] eqn:Hv; [|done]. apply parse_value_sound in Hv.
  destruct (Ascii.eqb_spec (peek (skip_whitespace s1)) ",") as [Hc|_].
  - destruct (parse_values fuel _) as [[[vs' r]|]|] eqn:Hvs; [|done..]. intros [= <- <-].
    apply IH in Hvs. eapply values_more; [done| |done]. by apply skip_peek_symbol.
  - destruct (Ascii.eqb_spec (peek (skip_whitespace s1)) ")") as [Hc|_]; [|done].
    intros [= <- <-]. eapply values_last; [done|]. by apply skip_peek_symbol.
Qed.

Lemma parse_values_complete s vs rest fuel :
  values_at s vs rest → length s < fuel → parse_values fuel s = Some (Ok (vs, rest)).
Proof.
  intros Hvs. revert fuel.
  induction Hvs as [s v s1 rest Hv Hc | s v s1 s2 vs rest Hv Hc Hvs IH]; intros fuel Hf;
    (destruct fuel as [|fuel]; [lia|]); simpl; rewrite (parse_value_complete _ _ _ Hv);
    apply value_at_length in Hv; rewrite (symbol_at_skip _ _ _ Hc eq_refl); simpl; [done|].
  apply symbol_at_length in Hc. rewrite IH by lia. done.
Qed.

(** The loop returns for every input within the fuel [parse_insert] gives it. *)
Lemma parse_values_total s fuel : length s < fuel → is_Some (parse_values fuel s).
Proof.
  revert s. induction fuel as [|fuel IH]; intros s Hf; [lia|]. simpl.
  destruct (parse_value s) as [[v s1]|] eqn:Hv; [|done].
  apply parse_value_sound, value_at_length in Hv.
  destruct (Ascii.eqb_spec (peek (skip_whitespace s1)) ",") as [Hc|_].
  - apply skip_peek_symbol in Hc; [|done]. apply symbol_at_length in Hc.
    destruct (IH (tail (skip_whitespace s1))) as [[[??]|] ->]; [lia|done..].
  - by case_match.
Qed.

Lemma parse_condition_sound s c rest :
  parse_condition s = Ok (c, rest) → end_at rest → condition_at s c rest.
Proof.
  destruct words as (_ & _ & Hw & _). unfold parse_condition.
  destruct (match_keyword s _) as [s1|] eqn:Hk; [|intros [= <- <-]; by constructor].
  apply match_keyword_spec in Hk; [|done].
  destruct (parse_identifier s1) as [[col s2]|] eqn:Hi; simpl; [|done].
  apply parse_identifier_spec in Hi. case_match eqn:He; [done|].
  apply negb_false_iff, ascii_eqb_eq in He. apply skip_peek_symbol in He; [|done].
  destruct (parse_value _) as [[v r]|] eqn:Hv; simpl; [|done]. intros [= <- <-] _.
  apply parse_value_sound in Hv. by econstructor.
Qed.

Lemma parse_condition_complete s c rest :
  condition_at s c rest → parse_condition s = Ok (c, rest).
Proof.
  destruct words as (_ & _ & Hw & _). unfold parse_condition.
  destruct 1 as [s He | s s1 col s2 s3 v rest Hk Hi He Hv].
  - destruct (match_keyword s _) as [s1|] eqn:Hk; [|done].
    apply match_keyword_spec in Hk; [|done]. by eapply end_at_not_keyword in Hk.
  - rewrite (proj2 (match_keyword_spec _ _ _ Hw) Hk), (proj2 (parse_identifier_spec _ _ _) Hi). simpl.
    rewrite (symbol_at_skip _ _ _ He eq_refl). simpl. by rewrite (parse_value_complete _ _ _ Hv).
Qed.

#[local] Arguments parse_values : simpl never.

Lemma parse_select_sound s q : parse_select s = Ok q → statement s q.
Proof.
  destruct words as (Hsel & Hfrom & _). unfold parse_select.
  destruct (match_keyword s _) as [s1|] eqn:Hk1; [|done]. apply match_keyword_spec in Hk1; [|done].
  case_match eqn:Hstar; [done|]. apply negb_false_iff, ascii_eqb_eq in Hstar.
  apply skip_peek_symbol in Hstar; [|done].
  destruct (match_keyword (tail _) _) as [s3|] eqn:Hk2; [|done].
  apply match_keyword_spec in Hk2; [|done].
  destruct (parse_identifier s3) as [[t s4]|] eqn:Hi; simpl; [|done]. apply parse_identifier_spec in Hi.
  destruct (parse_condition s4) as [[c s5]|] eqn:Hc; simpl; [|done].
  destruct (parse_end s5) as [[]|] eqn:He; simpl; [|done]. intros [= <-]. apply parse_end_spec in He.
  eapply select_statement; try done. by apply parse_condition_sound.
Qed.

Lemma parse_insert_sound s q : parse_insert s = Ok q → statement s q.
Proof.
  destruct words as (_ & _ & _ & Hins & Hinto & Hval). unfold parse_insert.
  destruct (match_keyword s _) as [s1|] eqn:Hk1; [|done]. apply match_keyword_spec in Hk1; [|done].
  destruct (match_keyword s1 _) as [s2|] eqn:Hk2; [|done]. apply match_keyword_spec in Hk2; [|done].
  destruct (parse_identifier s2) as [[t s3]|] eqn:Hi; simpl; [|done]. apply parse_identifier_spec in Hi.
  destruct (match_keyword s3 _) as [s4|] eqn:Hk3; [|done]. apply match_keyword_spec in Hk3; [|done].
  case_match eqn:Hp; [done|]. apply negb_false_iff, ascii_eqb_eq in Hp.
  apply skip_peek_symbol in Hp; [|done].
  destruct (parse_values _ _) as [[[vs s6]|]|] eqn:Hvs; simpl; [|done..].
  destruct (parse_end s6) as [[]|] eqn:He; simpl; [|done]. intros [= <-]. apply parse_end_spec in He.
  apply parse_values_sound in Hvs. by eapply insert_statement.
Qed.

Lemma keyword_at_other kw kw' s rest :
  word kw → keyword_at kw s rest → tolower (peek kw) ≠ tolower (peek kw') → kw' ≠ [] →
  match_keyword s kw' = None.
Proof.
  intros Hw Hk Hne Hn. apply keyword_at_skip in Hk as (c & k & kw1 & -> & Hc & Hl & _); [|done].
  unfold match_keyword. destruct kw' as [|k' kw']; [done|]. simpl in *.
  rewrite Hc, (proj2 (ascii_eqb_neq _ _)); [done|congruence].
Qed.

Lemma tokenize_skip s :
  tokenize_sql s = if Ascii.eqb (peek (skip_whitespace s)) NUL then fail «"sql must not be empty"» else Ok ().
Proof.
  induction s as [|c s IH]; simpl; [done|]. unfold skip_whitespace in *. simpl.
  destruct (isspace c) eqn:Hc; simpl.
  - rewrite (proj2 (ascii_eqb_neq c NUL)) by (by intros ->). done.
  - by case_match.
Qed.

Lemma statement_keyword s q :
  statement s q →
  ∃ kw rest, keyword_at kw s rest ∧ word kw ∧
    kw = match query_type q with QUERY_SELECT => «"select"» | QUERY_INSERT => «"insert"» end.
Proof. destruct words as (? & ? & ? & ? & ?). destruct 1; eauto 10. Qed.

Lemma statement_nonblank s q : statement s q → tokenize_sql s = Ok () ∧ peek s ≠ NUL.
Proof.
  intros Hs. apply statement_keyword in Hs as (kw & rest & Hk & Hw & _).
  apply keyword_at_skip in Hk as (c & k & kw' & _ & Hc & _ & Ha); [|done]. split.
  - rewrite tokenize_skip, Hc, (proj2 (ascii_eqb_neq c NUL)); [done|by intros ->].
  - intros Hp. unfold skip_whitespace in Hc. rewrite drop_while_peek_stop in Hc by (by rewrite Hp).
    by rewrite <- Hc, Hp in Ha.
Qed.

Lemma parse_select_complete s q :
  statement s q → query_type q = QUERY_SELECT → parse_select s = Ok q.
Proof.
  destruct words as (Hsel & Hfrom & _).
  destruct 1 as [s s1 s2 s3 t s4 c s5 Hk1 Hstar Hk2 Hi Hc He|]; [intros _|done]. unfold parse_select.
  rewrite (proj2 (match_keyword_spec _ _ _ Hsel) Hk1), (symbol_at_skip _ _ _ Hstar eq_refl). simpl.
  rewrite (proj2 (match_keyword_spec _ _ _ Hfrom) Hk2), (proj2 (parse_identifier_spec _ _ _) Hi). simpl.
  rewrite (parse_condition_complete _ _ _ Hc). simpl. by rewrite (proj2 (parse_end_spec _) He).
Qed.

Lemma parse_insert_complete s q :
  statement s q → query_type q = QUERY_INSERT → parse_insert s = Ok q.
Proof.
  destruct words as (_ & _ & _ & Hins & Hinto & Hval).
  destruct 1 as [|s s1 s2 t s3 s4 s5 vs s6 Hk1 Hk2 Hi Hk3 Hp Hvs He]; [done|intros _].
  unfold parse_insert.
  rewrite (proj2 (match_keyword_spec _ _ _ Hins) Hk1), (proj2 (match_keyword_spec _ _ _ Hinto) Hk2).
  rewrite (proj2 (parse_identifier_spec _ _ _) Hi). simpl.
  rewrite (proj2 (match_keyword_spec _ _ _ Hval) Hk3), (symbol_at_skip _ _ _ Hp eq_refl). simpl negb. cbv iota.
  rewrite (parse_values_complete _ _ _ _ Hvs) by (simpl; lia). simpl.
  by rewrite (proj2 (parse_end_spec _) He).
Qed.

Lemma parse_sql_text_sound s q : parse_sql_text s = Ok q → statement s q.
Proof.
  unfold parse_sql_text. case_match; [done|]. destruct (tokenize_sql s) as [[]|]; simpl; [|done].
  destruct (parse_select s) as [q'|] eqn:Hs; [intros [= <-]; by apply parse_select_sound|].
  destruct (parse_insert s) as [q'|] eqn:Hi; [intros [= <-]; by apply parse_insert_sound|done].
Qed.

Lemma parse_sql_text_complete s q : statement s q → parse_sql_text s = Ok q.
Proof.
  intros Hs. unfold parse_sql_text. destruct (statement_nonblank _ _ Hs) as [Ht Hp].
  rewrite (proj2 (ascii_eqb_neq _ _) Hp), Ht. simpl. destruct (query_type q) eqn:Hq.
  - assert (parse_select s = fail «"expected SELECT"») as ->.
    { apply statement_keyword in Hs as (kw & rest & Hk & Hw & ->). rewrite Hq in Hk, Hw.
      unfold parse_select. by rewrite (keyword_at_other _ «"select"» _ _ Hw Hk). }
    simpl. by rewrite (parse_insert_complete _ _ Hs Hq).
  - by rewrite (parse_select_complete _ _ Hs Hq).
Qed.

(** ** Properties *)

(** C23. The parser decides the grammar: [parse_sql_text] returns a query exactly when the text is
    a statement of the grammar denoting that query, whatever the case of the keywords, the white
    space, the kind of quotes and the optional semicolon. *)
Theorem parse_sql_text_correct s q : parse_sql_text s = Ok q ↔ statement s q.
Proof. split; [apply parse_sql_text_sound|apply parse_sql_text_complete]. Qed.

(** Every query the parser returns is well formed: the table name is a non-empty word of
    identifier characters, an INSERT carries at least one value and no condition, no value is
    empty, and a SELECT carries no values. *)
Theorem parse_sql_text_wf s q :
  parse_sql_text s = Ok q →
  identifier (table_name q) ∧
  match query_type q with
  | QUERY_SELECT =>
      values q = [] ∧
      (∀ c, condition q = Some c → identifier (cond_column c) ∧ raw (cond_value c) ≠ [])
  | QUERY_INSERT => values q ≠ [] ∧ Forall (λ v, v ≠ []) (values q) ∧ condition q = None
  end.
Proof.
  assert (Hval : ∀ s v r, value_at s v r → v ≠ []) by (by destruct 1).
  intros Hs%parse_sql_text_sound.
  destruct Hs as [s s1 s2 s3 t s4 c s5 _ _ _ Hi Hc _|s s1 s2 t s3 s4 s5 vs s6 _ _ Hi _ _ Hvs _]; simpl;
    destruct Hi as (? & _ & Hid & _ & _); (split; [done|]).
  - split; [done|]. intros c' ->. inversion_clear Hc as [|? ? ? ? ? ? ? ? Hi]; simpl.
    destruct Hi as (? & _ & Hid' & _). eauto.
  - clear -Hvs Hval. induction Hvs as [? ? ? ? Hv|? ? ? ? ? ? Hv ? ? IH]; naive_solver.
Qed.

Lemma parse_sql_text_wf_witness :
  identifier «"users"» ∧ [«"7"»; «"kim"»] ≠ [] ∧
  Forall (λ v, v ≠ []) [«"7"»; «"kim"»] ∧ @None Condition = None.
Proof.
  exact (parse_sql_text_wf «"insert into users values (7, 'kim');"»
    (mkQuery QUERY_INSERT «"users"» [«"7"»; «"kim"»] None) eq_refl).
Defined.

(** The parser reports failure with one of two messages, whatever went wrong: the detailed
    diagnostics the alternatives set ("expected FROM", "unterminated string literal", ...) are
    always overwritten. *)
Theorem parse_sql_text_error s e :
  parse_sql_text s = Err e →
  e = sql_set_error 0 0 «"sql must not be empty"» ∨ e = sql_set_error 0 0 «"unsupported SQL statement"».
Proof.
  unfold parse_sql_text. rewrite tokenize_skip. unfold fail.
  destruct (Ascii.eqb (peek s) NUL); [intros; simplify_eq; auto|].
  destruct (Ascii.eqb (peek (skip_whitespace s)) NUL); simpl; [intros; simplify_eq; auto|].
  destruct (parse_select s); [done|]. destruct (parse_insert s); [done|]. intros; simplify_eq; auto.
Qed.

Lemma parse_sql_text_error_witness :
  sql_set_error 0 0 «"unsupported SQL statement"» = sql_set_error 0 0 «"sql must not be empty"» ∨
  sql_set_error 0 0 «"unsupported SQL statement"» = sql_set_error 0 0 «"unsupported SQL statement"».
Proof. apply (parse_sql_text_error «"select * form users"»). reflexivity. Defined.
