(* ===== verification/ParserMemory.v ===== *)
(** * [src/src/query/parser.c]: the memory of a query

    The parser again, now with the memory it takes: every identifier and value is a block, the
    array of values grows by [realloc], every one of these requests can fail, and the error paths
    give back what was taken.  What the characters say is as in [Parser], whose functions these
    definitions call.  [free_query] is the one of [runtime/main.c] and [sql_service.c]. *)

From stdpp Require Import base list strings.
From Stdlib Require Import Ascii.
From S2P Require Import Prelude CString Common Memory Parser.

(** A [Query] in memory; [value_count] is the length of [q_values]. *)
Record MQuery := mkMQuery {
  q_type : QueryType;
  q_table : option ostr;
  q_array : option nat;
  q_values : list ostr;
  q_has_condition : bool;
  q_value_type : ValueType;
  q_column : option ostr;
  q_raw : option ostr
}.

(** [memset] to zero. *)
Definition zero_query : MQuery := mkMQuery QUERY_INSERT None None [] false VALUE_INT None None.

Definition set_q_table (t : option ostr) (q : MQuery) : MQuery :=
  mkMQuery (q_type q) t (q_array q) (q_values q) (q_has_condition q) (q_value_type q) (q_column q) (q_raw q).
Definition set_q_type (t : QueryType) (q : MQuery) : MQuery :=
  mkMQuery t (q_table q) (q_array q) (q_values q) (q_has_condition q) (q_value_type q) (q_column q) (q_raw q).
Definition set_q_values (a : option nat) (vs : list ostr) (q : MQuery) : MQuery :=
  mkMQuery (q_type q) (q_table q) a vs (q_has_condition q) (q_value_type q) (q_column q) (q_raw q).
Definition set_q_condition (has : bool) (t : ValueType) (c v : option ostr) (q : MQuery) : MQuery :=
  mkMQuery (q_type q) (q_table q) (q_array q) (q_values q) has t c v.

(** ** Releasing *)

Definition free_query_values (q : MQuery) : M MQuery :=
  match q_array q with
  | None => mret q
  | Some a => _ ← free_values (q_values q); _ ← free (Some a); mret (set_q_values None [] q)
  end.

Definition free_query_condition (q : MQuery) : M MQuery :=
  if q_has_condition q then
    _ ← free_str (q_column q);
    _ ← free_str (q_raw q);
    mret (set_q_condition false (q_value_type q) None None q)
  else mret q.

Definition free_query (q : MQuery) : M MQuery :=
  _ ← free_str (q_table q);
  _ ← free_values (q_values q);
  _ ← free (q_array q);
  _ ← free_str (q_column q);
  _ ← free_str (q_raw q);
  mret (mkMQuery (q_type q) None None [] false (q_value_type q) None None).

(** ** Parsing *)

Definition parse_identifier_mem (cursor : cstr) : M (result SqlError (ostr * cstr)) :=
  match parse_identifier cursor with
  | Err e => mret (Err e)
  | Ok (identifier, cursor) =>
      p ← malloc;
      match p with
      | None => mret (fail «"failed to allocate identifier"»)
      | Some b => mret (Ok (mkOstr b identifier, cursor))
      end
  end.

Definition parse_value_mem (cursor : cstr) : M (result SqlError (ostr * cstr)) :=
  match parse_value cursor with
  | Err e => mret (Err e)
  | Ok (value, cursor) =>
      p ← malloc;
      match p with
      | None => mret (fail «"failed to allocate value"»)
      | Some b => mret (Ok (mkOstr b value, cursor))
      end
  end.

Definition parse_condition_mem (cursor : cstr) (q : MQuery) : M (result SqlError cstr * MQuery) :=
  match match_keyword cursor «"where"» with
  | None => mret (Ok cursor, q)
  | Some cursor =>
      r ← parse_identifier_mem cursor;
      match r with
      | Err e => mret (Err e, q)
      | Ok (column, cursor) =>
          let cursor := skip_whitespace cursor in
          if negb (Ascii.eqb (peek cursor) "=") then
            _ ← free_str (Some column);
            mret (fail «"expected '=' in WHERE clause"», q)
          else
            r ← parse_value_mem (tail cursor);
            match r with
            | Err e => _ ← free_str (Some column); mret (Err e, q)
            | Ok (value, cursor) => mret (Ok cursor, set_q_condition true VALUE_STRING (Some column) (Some value) q)
            end
      end
  end.

Definition parse_select_mem (sql : cstr) (q : MQuery) : M (result SqlError () * MQuery) :=
  match match_keyword sql «"select"» with
  | None => mret (fail «"expected SELECT"», q)
  | Some cursor =>
      let cursor := skip_whitespace cursor in
      if negb (Ascii.eqb (peek cursor) "*") then mret (fail «"only SELECT * is supported"», q)
      else
        match match_keyword (tail cursor) «"from"» with
        | None => mret (fail «"expected FROM"», q)
        | Some cursor =>
            r ← parse_identifier_mem cursor;
            match r with
            | Err e => mret (Err e, set_q_table None q)
            | Ok (table, cursor) =>
                '(r, q) ← parse_condition_mem cursor (set_q_table (Some table) q);
                match r with
                | Err e => mret (Err e, q)
                | Ok cursor =>
                    match parse_end cursor with
                    | Err e => mret (Err e, q)
                    | Ok _ => mret (Ok (), set_q_type QUERY_SELECT q)
                    end
                end
            end
        end
  end.

(** The VALUES loop: the array, its capacity and the values read so far; the array and the values
    are given back when it fails.  [None] when [fuel] runs out, as in [Parser.parse_values]. *)
Fixpoint parse_values_mem (fuel : nat) (cursor : cstr) (array : option nat) (capacity : nat) (vs : list ostr)
    : M (option (result SqlError (option nat * list ostr * cstr))) :=
  match fuel with
  | O => _ ← free_values vs; _ ← free array; mret None
  | S fuel =>
      r ← parse_value_mem cursor;
      match r with
      | Err e => _ ← free_values vs; _ ← free array; mret (Some (Err e))
      | Ok (value, cursor) =>
          let full := Nat.eqb (length vs) capacity in
          next_values ← (if full then realloc array else mret array);
          match next_values with
          | None =>
              _ ← free_str (Some value);
              _ ← free_values vs;
              _ ← free array;
              mret (Some (fail «"failed to allocate insert values"»))
          | Some array' =>
              let capacity := if full then (if Nat.eqb capacity 0 then 4 else capacity * 2) else capacity in
              let vs := vs ++ [value] in
              let cursor := skip_whitespace cursor in
              if Ascii.eqb (peek cursor) "," then parse_values_mem fuel (tail cursor) (Some array') capacity vs
              else if Ascii.eqb (peek cursor) ")" then mret (Some (Ok (Some array', vs, tail cursor)))
              else
                _ ← free_values (reverse vs);
                _ ← free (Some array');
                mret (Some (fail «"expected ',' or ')' in VALUES list"»))
          end
      end
  end.

Definition parse_insert_mem (sql : cstr) (q : MQuery) : M (result SqlError () * MQuery) :=
  match match_keyword sql «"insert"» with
  | None => mret (fail «"expected INSERT"», q)
  | Some cursor =>
      match match_keyword cursor «"into"» with
      | None => mret (fail «"expected INTO"», q)
      | Some cursor =>
          r ← parse_identifier_mem cursor;
          match r with
          | Err e => mret (Err e, set_q_table None q)
          | Ok (table, cursor) =>
              let q := set_q_table (Some table) q in
              match match_keyword cursor «"values"» with
              | None => mret (fail «"expected VALUES"», q)
              | Some cursor =>
                  let cursor := skip_whitespace cursor in
                  if negb (Ascii.eqb (peek cursor) "(") then mret (fail «"expected '(' after VALUES"», q)
                  else
                    r ← parse_values_mem (S (length cursor)) (tail cursor) None 0 [];
                    match r with
                    | None => mret (fail «"VALUES loop out of fuel"», q)
                    | Some (Err e) => mret (Err e, q)
                    | Some (Ok (array, vs, cursor)) =>
                        match parse_end cursor with
                        | Err e => _ ← free_values (reverse vs); _ ← free array; mret (Err e, q)
                        | Ok _ => mret (Ok (), set_q_values array vs (set_q_type QUERY_INSERT q))
                        end
                    end
              end
          end
      end
  end.

(** What [parse_sql_text] gives back after a failed alternative. *)
Definition clear_query (q : MQuery) : M MQuery :=
  _ ← free_str (q_table q);
  q ← free_query_values (set_q_table None q);
  free_query_condition q.

(** [query] is not NULL; nothing is written to it when the text is blank. *)
Definition parse_sql_text_mem (sql : cstr) (query : MQuery) : M (result SqlError () * MQuery) :=
  if Ascii.eqb (peek sql) NUL then mret (fail «"sql must not be empty"», query)
  else
    match tokenize_sql sql with
    | Err e => mret (Err e, query)
    | Ok _ =>
        '(r, q) ← parse_select_mem sql zero_query;
        match r with
        | Ok _ => mret (Ok (), q)
        | Err _ =>
            q ← clear_query q;
            '(r, q) ← parse_insert_mem sql q;
            match r with
            | Ok _ => mret (Ok (), q)
            | Err _ =>
                q ← clear_query q;
                mret (fail «"unsupported SQL statement"», q)
            end
        end
    end.

(** The query in memory, for the functions that only read it. *)
Definition query_of (q : MQuery) : Query :=
  mkQuery (q_type q) (default [] (text <$> q_table q)) (map text (q_values q))
    (if q_has_condition q
     then Some (mkCondition (default [] (text <$> q_column q)) (mkValue (q_value_type q) (default [] (text <$> q_raw q))))
     else None).

(** ** Specification *)

(** What a query owns. *)
Definition query_blocks (q : MQuery) : list nat :=
  strs (q_table q) ++ ptr (q_array q) ++ map block (q_values q) ++ strs (q_column q) ++ strs (q_raw q).

(** The query that a query in memory denotes. *)
Definition denotes (m : MQuery) (q : Query) : Prop :=
  q_type m = query_type q ∧ text <$> q_table m = Some (table_name q) ∧ map text (q_values m) = values q ∧
  match condition q with
  | None => q_has_condition m = false
  | Some c => q_has_condition m = true ∧ text <$> q_column m = Some (cond_column c) ∧
              text <$> q_raw m = Some (raw (cond_value c)) ∧ q_value_type m = value_type (cond_value c)
  end.

(** Pointers of a condition are set only with the flag, the values only with the array. *)
Definition query_shape (q : MQuery) : Prop :=
  (q_has_condition q = false → q_column q = None ∧ q_raw q = None) ∧ (q_array q = None → q_values q = []).

(** Nothing is owned. *)
Definition empty_query (q : MQuery) : Prop := ∃ t vt, q = mkMQuery t None None [] false vt None None.

Lemma denotes_query_of m q : denotes m q → query_of m = q.
Proof.
  intros (Ht & Hn & Hv & Hc). unfold query_of. rewrite Ht, Hn, Hv. destruct q as [ty n vs [[col [vt rw]]|]]; simpl in *.
  - destruct Hc as (-> & -> & -> & ->). done.
  - by rewrite Hc.
Qed.

(** ** Lemmas: releasing *)

Lemma triple_free_query q : triple (query_blocks q) (free_query q) (λ _, []) empty_query (λ _, True).
Proof.
  unfold free_query, query_blocks.
  call triple_free_str with (ptr (q_array q) ++ map block (q_values q) ++ strs (q_column q) ++ strs (q_raw q)).
  call triple_free_values with (ptr (q_array q) ++ strs (q_column q) ++ strs (q_raw q)).
  call triple_free with (strs (q_column q) ++ strs (q_raw q)).
  call triple_free_str with (strs (q_raw q)).
  call triple_free_str with (@nil nat). finish. by do 2 eexists.
Qed.

Lemma triple_clear_query q :
  query_shape q → triple (query_blocks q) (clear_query q) (λ _, []) empty_query (λ _, True).
Proof.
  intros [Hcond Harr]. unfold clear_query, query_blocks.
  call triple_free_str with (ptr (q_array q) ++ map block (q_values q) ++ strs (q_column q) ++ strs (q_raw q)).
  eapply (triple_seq (strs (q_column q) ++ strs (q_raw q)) _ _ _ (ptr (q_array q) ++ map block (q_values q)) (λ _, []) _
            (λ q', q' = mkMQuery (q_type q) None None [] (q_has_condition q) (q_value_type q) (q_column q) (q_raw q)) (λ _, True));
    [|solve_Permutation|].
  - unfold free_query_values. simpl. destruct (q_array q) as [a|] eqn:Ha.
    + call triple_free_values with [a]. call triple_release with (@nil nat). finish.
    + destruct q. simpl in *. subst. rewrite Harr by done. finish.
  - intros q' ->. unfold free_query_condition. simpl. destruct (q_has_condition q).
    + call triple_free_str with (strs (q_raw q)). call triple_free_str with (@nil nat). finish. by do 2 eexists.
    + destruct Hcond as [-> ->]; [done|]. finish. by do 2 eexists.
Qed.

(** ** Lemmas: parsing *)

(** A block for what a lexical function has read. *)
Lemma triple_lexed (r : result SqlError (cstr * cstr)) (msg : cstr) :
  triple [] (match r with
             | Err e => mret (Err e)
             | Ok (s, c) =>
                 p ← malloc;
                 match p with None => mret (fail msg) | Some b => mret (Ok (mkOstr b s, c)) end
             end)
    (λ o, match o with Ok (s, _) => [block s] | Err _ => [] end)
    (λ o, match o with Ok (s, c) => r = Ok (text s, c) | Err _ => True end)
    (λ o, match o with Err e => r = Err e | Ok _ => True end).
Proof.
  destruct r as [[s c]|e]; [|by finish]. call triple_acquire with (@nil nat) as [b|] _; finish.
Qed.

Lemma triple_parse_condition cursor q :
  q_has_condition q = false → q_column q = None → q_raw q = None →
  triple [] (parse_condition_mem cursor q) (λ '(_, q'), strs (q_column q') ++ strs (q_raw q'))
    (λ '(r, q'), match r with
                 | Err _ => q' = q
                 | Ok c => ∃ cond, parse_condition cursor = Ok (cond, c) ∧
                     match cond with
                     | None => q' = q
                     | Some cd => ∃ col v, q' = set_q_condition true (value_type (cond_value cd)) (Some col) (Some v) q ∧
                                    text col = cond_column cd ∧ text v = raw (cond_value cd)
                     end
                 end)
    (λ '(r, _), match r with Err e => parse_condition cursor = Err e | Ok _ => True end).
Proof.
  intros Hh Hc Hr. unfold parse_condition_mem, parse_condition. destruct (match_keyword cursor _) as [c1|].
  2: { finish; [by rewrite Hc, Hr|]. by exists None. }
  call (triple_lexed (parse_identifier c1)) with (@nil nat) as [[col c2]|e] Hcol.
  2: { finish; [by rewrite Hc, Hr|]. by intros ->. }
  rewrite Hcol. simpl. destruct (negb _).
  { call triple_release with (@nil nat). finish. by rewrite Hc, Hr. }
  call (triple_lexed (parse_value (tail (skip_whitespace c2)))) with [block col] as [[v c3]|e] Hv.
  - rewrite Hv. finish. eexists. split; [done|]. simpl. by do 2 eexists.
  - call triple_release with (@nil nat). finish; [by rewrite Hc, Hr|]. by intros _ ->.
Qed.

Lemma triple_parse_select sql q :
  empty_query q →
  triple [] (parse_select_mem sql q) (λ '(_, q'), query_blocks q')
    (λ '(r, q'), query_shape q' ∧
       match r with Ok _ => ∃ pq, parse_select sql = Ok pq ∧ denotes q' pq | Err _ => True end)
    (λ '(r, _), match r with Err e => parse_select sql = Err e | Ok _ => True end).
Proof.
  intros (t & vt & ->). assert (Hshape : query_shape (mkMQuery t None None [] false vt None None)) by done.
  unfold parse_select_mem, parse_select. destruct (match_keyword sql _) as [c1|]; [|by finish].
  destruct (negb _); [by finish|]. destruct (match_keyword (tail _) _) as [c2|]; [|by finish].
  call (triple_lexed (parse_identifier c2)) with (@nil nat) as [[table c3]|e] Htable.
  2: { finish. by intros ->. }
  rewrite Htable. simpl.
  call triple_parse_condition with [block table] as [[c4|e] q'] Hcond; [done..| |].
  - destruct Hcond as (cond & Hcond & Hq'). rewrite Hcond. simpl.
    assert (Hq : query_shape q' ∧ q_table q' = Some table ∧ q_array q' = None ∧ q_values q' = [] ∧
                 denotes (set_q_type QUERY_SELECT q') (mkQuery QUERY_SELECT (text table) [] cond)).
    { destruct cond as [cd|]; [|by subst q'].
      destruct Hq' as (col & v & -> & Hcol & Hv). unfold denotes. simpl. rewrite Hcol, Hv. done. }
    destruct Hq as (Hsh & Ht & Ha & Hvs & Hden). destruct (parse_end c4) as [[]|e] eqn:Hend; simpl.
    + finish; [|by split; [|eexists]]. unfold query_blocks. simpl. rewrite Ht, Ha, Hvs. simpl. solve_Permutation.
    + finish. unfold query_blocks. rewrite Ht, Ha, Hvs. simpl. solve_Permutation.
  - subst q'. finish. by intros ->.
Qed.

Lemma triple_parse_values fuel cursor array capacity vs :
  (array = None → vs = [] ∧ capacity = 0) →
  triple (ptr array ++ map block vs) (parse_values_mem fuel cursor array capacity vs)
    (λ r, match r with Some (Ok (a, vs', _)) => ptr a ++ map block vs' | _ => [] end)
    (λ r, match r with
          | Some (Ok (a, vs', c)) => is_Some a ∧ ∃ ws, parse_values fuel cursor = Some (Ok (ws, c)) ∧ map text vs' = map text vs ++ ws
          | Some (Err _) => True
          | None => parse_values fuel cursor = None
          end)
    (λ r, match r with Some (Err e) => parse_values fuel cursor = Some (Err e) | _ => True end).
Proof.
  revert cursor array capacity vs. induction fuel as [|fuel IH]; intros cursor array capacity vs Harr; simpl.
  { call triple_free_values with (ptr array). call triple_free with (@nil nat). finish. }
  call (triple_lexed (parse_value cursor)) with (ptr array ++ map block vs) as [[v c]|e] Hv.
  2: { call triple_free_values with (ptr array). call triple_free with (@nil nat). finish. by intros _ _ ->. }
  rewrite Hv.
  eapply (triple_seq (block v :: map block vs) _ _ _ (ptr array)
            (λ r, match r with Some x => [x] | None => ptr array end) _ (λ _, True) (λ r, is_Some r)); [|solve_Permutation|].
  { destruct (Nat.eqb_spec (length vs) capacity) as [|Hlen]; [apply triple_realloc|].
    destruct array as [a|]; [by finish|]. destruct Harr as [-> ->]; done. }
  intros [a|] _; simpl.
  2: { call triple_release with (ptr array ++ map block vs). call triple_free_values with (ptr array).
       call triple_free with (@nil nat). finish. }
  set (c' := skip_whitespace c).
  destruct (Ascii.eqb (peek c') ",").
  { eapply triple_conseq; [apply (IH (tail c') (Some a) _ (vs ++ [v])); done| |].
    - simpl. rewrite map_app. simpl. solve_Permutation.
    - intros [[[[a' vs'] c'']|e]|] Hr; simpl in *.
      + destruct Hr as (Ha & ws & -> & Hws). split; [done|]. split; [|done]. split; [done|]. eexists. split; [done|].
        by rewrite Hws, map_app, <- (assoc_L (++)).
      + split_and!; try done. by intros -> _ _.
      + split_and!; try done. by rewrite Hr. }
  destruct (Ascii.eqb (peek c') ")").
  { finish; [rewrite map_app; simpl; solve_Permutation|]. split; [by eexists|]. eexists. split; [done|]. by rewrite map_app. }
  eapply (triple_seq [a]); [apply triple_free_values| |intros [] _; simpl].
  - rewrite reverse_Permutation, map_app. simpl. solve_Permutation.
  - call triple_release with (@nil nat). finish.
Qed.

#[local] Arguments parse_values_mem : simpl never.
#[local] Arguments parse_values : simpl never.

Lemma triple_parse_insert sql q :
  empty_query q →
  triple [] (parse_insert_mem sql q) (λ '(_, q'), query_blocks q')
    (λ '(r, q'), query_shape q' ∧
       match r with Ok _ => ∃ pq, parse_insert sql = Ok pq ∧ denotes q' pq | Err _ => True end)
    (λ '(r, _), match r with Err e => parse_insert sql = Err e | Ok _ => True end).
Proof.
  intros (t & vt & ->). assert (Hshape : query_shape (mkMQuery t None None [] false vt None None)) by done.
  unfold parse_insert_mem, parse_insert. destruct (match_keyword sql _) as [c1|]; [|by finish].
  destruct (match_keyword c1 _) as [c2|]; [|by finish].
  call (triple_lexed (parse_identifier c2)) with (@nil nat) as [[table c3]|e] Htable.
  2: { finish. by intros ->. }
  rewrite Htable. cbn [mbind result_bind]. destruct (match_keyword c3 _) as [c4|]; [|by finish].
  destruct (negb _); [by finish|]. generalize (S (length (skip_whitespace c4))). intros fuel. set (c5 := tail _).
  call (triple_parse_values fuel c5 None 0 []) with [block table] as [[[[a vs] c6]|e]|] Hvs; [done|..].
  - destruct Hvs as ([a' ->] & ws & -> & Hws). simpl in *. destruct (parse_end c6) as [[]|e] eqn:Hend.
    + finish. split; [done|]. eexists. split; [done|]. by unfold denotes.
    + eapply (triple_seq [a'; block table]); [apply triple_free_values| |intros [] _; simpl].
      * rewrite reverse_Permutation. solve_Permutation.
      * call triple_release with [block table]. finish.
  - finish. by intros ->.
  - finish. by rewrite Hvs.
Qed.

(** A text that starts with one keyword does not start with the other. *)
Lemma insert_not_select sql pq : parse_insert sql = Ok pq → ∃ e, parse_select sql = Err e.
Proof.
  intros Hins. assert (Hkw : match_keyword sql «"select"» = None).
  { unfold parse_insert in Hins. destruct (match_keyword sql «"insert"») as [c|] eqn:Hk; [|done]. clear Hins.
    unfold match_keyword in *. unfold lit in *. simpl in *.
    destruct (Ascii.eqb_spec (tolower (peek (skip_whitespace sql))) "i"%char) as [Hi|Hi].
    - change (tolower "s"%char) with "s"%char. by rewrite Hi.
    - change (tolower "i"%char) with "i"%char in Hk. apply Ascii.eqb_neq in Hi. by rewrite Hi in Hk. }
  unfold parse_select. rewrite Hkw. by eexists.
Qed.

Lemma triple_parse_sql_text sql query :
  triple [] (parse_sql_text_mem sql query)
    (λ '(r, q), match r with Ok _ => query_blocks q | Err _ => [] end)
    (λ '(r, q), match r with Ok _ => ∃ pq, parse_sql_text sql = Ok pq ∧ denotes q pq | Err _ => q = query ∨ empty_query q end)
    (λ '(r, _), match r with Err e => parse_sql_text sql = Err e | Ok _ => True end).
Proof.
  unfold parse_sql_text_mem, parse_sql_text. destruct (Ascii.eqb (peek sql) NUL); [by finish; left|].
  destruct (tokenize_sql sql) as [[]|e]; [|by finish; left]. simpl.
  call triple_parse_select with (@nil nat) as [[[]|e] q] [Hshape Hq]; [by do 2 eexists|..].
  { destruct Hq as (pq & -> & Hden). finish. by eexists. }
  call triple_clear_query with (@nil nat) as q1 Hq1; [done|].
  call triple_parse_insert with (@nil nat) as [[[]|e'] q2] [Hshape2 Hq2]; [done|..].
  { destruct Hq2 as (pq & Hpq & Hden). finish.
    destruct (insert_not_select sql pq Hpq) as [e2 ->]. rewrite Hpq. by eexists. }
  call triple_clear_query with (@nil nat) as q3 Hq3; [done|]. finish; [by right|]. by intros _ -> _ ->.
Qed.

(** ** Properties *)

(** Parsing with failing allocations: whatever requests fail, [parse_sql_text] gives back
    everything it has taken and nothing twice when it returns 0; when it returns 1 the query in
    memory is the one the text denotes, it holds exactly its own blocks, and [free_query] gives
    all of them back.  When no request fails, it fails only as [Parser.parse_sql_text] does. *)
Theorem parse_sql_text_memory (sql : cstr) (query : MQuery) (m : Mem) :
  mem_ok m →
  let '((r, q), m1) := parse_sql_text_mem sql query m in
  mem_ok m1 ∧
  match r with
  | Ok _ => (∃ pq, parse_sql_text sql = Ok pq ∧ denotes q pq) ∧ held m1 ≡ₚ query_blocks q ++ held m ∧
            mem_ok (free_query q m1).2 ∧ held (free_query q m1).2 ≡ₚ held m
  | Err e => held m1 ≡ₚ held m ∧ (all_succeed m → parse_sql_text sql = Err e)
  end.
Proof.
  intros Hm. destruct (triple_parse_sql_text sql query m (held m) Hm) as (Hm1 & Hh1 & HQ & HR); [done|].
  destruct (parse_sql_text_mem sql query m) as [[[[]|e] q] m1]; simpl in *; (split; [done|]).
  - destruct (triple_free_query q m1 (held m) Hm1 Hh1) as (? & ? & _). auto.
  - split; [done|]. intros Hall. by apply HR.
Qed.

(** ** Examples *)

Definition insert_text : cstr := «"INSERT INTO t VALUES (1, 'a', 2, 3, 4)"».

(** The eighth request, the [realloc] for the fifth value, fails. *)
Definition short_memory : Mem := mkMem [7] 8 [true; true; true; true; true; true; true; false] false.

Example parse_out_of_memory :
  let '((r, q), m1) := parse_sql_text_mem insert_text zero_query short_memory in
  is_ok r = false ∧ held m1 = [7] ∧ fault m1 = false.
Proof. vm_compute. done. Qed.

Lemma parse_sql_text_memory_witness :
  let '((r, q), m1) := parse_sql_text_mem insert_text zero_query short_memory in
  mem_ok m1 ∧
  match r with
  | Ok _ => (∃ pq, parse_sql_text insert_text = Ok pq ∧ denotes q pq) ∧
            held m1 ≡ₚ query_blocks q ++ held short_memory ∧
            mem_ok (free_query q m1).2 ∧ held (free_query q m1).2 ≡ₚ held short_memory
  | Err e => held m1 ≡ₚ held short_memory ∧ (all_succeed short_memory → parse_sql_text insert_text = Err e)
  end.
Proof.
  apply (parse_sql_text_memory insert_text zero_query short_memory).
  split_and!; [reflexivity|apply (bool_decide_unpack _); vm_compute; exact I|apply (bool_decide_unpack _); vm_compute; exact I].
Defined.
