(* ===== verification/Index.v ===== *)
(** * The interface between the tables and their index

    [table_state_load] and [execute_insert] use the B+ tree through three operations:
    create, insert and search.  This class states what they rely on: an index denotes a finite
    map from ids to row indexes, [insert] rejects exactly the ids already present with the
    "duplicate id" error and otherwise extends the map, and [search] looks the id up. *)

From stdpp Require Import base list strings gmap.
From S2P Require Import Prelude CString Common.

Class RowIndex (Idx : Type) := {
  index_empty : Idx;
  index_insert : Idx → Z → Z → result SqlError Idx;
  index_search : Idx → Z → option Z;
  index_ok : Idx → Prop;
  index_map : Idx → gmap Z Z;
  index_empty_ok : index_ok index_empty;
  index_empty_map : index_map index_empty = ∅;
  index_search_map i k : index_ok i → index_search i k = index_map i !! k;
  index_insert_dup i k r :
    index_ok i → is_Some (index_map i !! k) →
    index_insert i k r = fail («"duplicate id: "» ++ show_int k);
  index_insert_new i k r :
    index_ok i → index_map i !! k = None →
    ∃ i', index_insert i k r = Ok i' ∧ index_ok i' ∧ index_map i' = <[k := r]> (index_map i)
}.

Lemma index_insert_Ok `{RowIndex Idx} (i i' : Idx) k r :
  index_ok i → index_insert i k r = Ok i' →
  index_ok i' ∧ index_map i !! k = None ∧ index_map i' = <[k := r]> (index_map i).
Proof.
  intros Hok Hins. destruct (index_map i !! k) as [r'|] eqn:Hk.
  - rewrite index_insert_dup in Hins by (done || by rewrite Hk). done.
  - destruct (index_insert_new i k r Hok Hk) as (i'' & Hins' & Hok' & Hmap).
    rewrite Hins in Hins'. by injection Hins' as ->.
Qed.
