(* ===== verification/BPTree.v ===== *)
(** * [src/src/index/bptree.c]: the B+ tree that maps ids to row indexes

    A node is a tree value.  The arrays of the C structure are represented by their live
    prefix: [keys] holds the first [key_count] keys, so [key_count] is its length, and the
    shifting loops become [insert_at].  Leaves are linked by address through [next], exactly
    as the code links them: [bptree_collect_keys] follows that chain and never the tree, so
    each leaf carries the address it was allocated at and the address of the next leaf, and
    dereferencing an address looks it up among the leaves of the tree.  Allocation hands out a
    fresh address and does not fail. *)

From stdpp Require Import base list strings gmap sets.
From Stdlib Require Import Ascii Sorting.Sorted.
From S2P Require Import Prelude CString Common Index.

Open Scope Z_scope.

(** ** Data *)

Definition BPTREE_ORDER : nat := 100.
Definition BPTREE_MAX_KEYS : nat := BPTREE_ORDER - 1.

Abbreviation addr := nat.

Record Leaf := mkLeaf {
  leaf_addr : addr;
  leaf_keys : list Z;
  row_indexes : list Z;
  leaf_next : option addr
}.

Inductive BPTreeNode :=
| LeafNode (leaf : Leaf)
| InnerNode (keys : list Z) (children : list BPTreeNode).

Record BPTree := mkBPTree {
  root : option BPTreeNode;
  next_addr : addr               (** the next address the allocator returns *)
}.

(** ** Searching *)

(** The first child whose subtree may hold [key]. *)
Fixpoint bptree_child_index (keys : list Z) (key : Z) : nat :=
  match keys with
  | [] => 0
  | k :: keys' => if k <=? key then S (bptree_child_index keys' key) else 0
  end.

(** The binary search loop on [low, high). *)
Fixpoint leaf_search_loop (fuel : nat) (keys : list Z) (key : Z) (low high : nat) : bool * nat :=
  match fuel with
  | O => (false, low)
  | S fuel =>
      if (low <? high)%nat then
        let mid := (low + (high - low) / 2)%nat in
        let k := default 0 (keys !! mid) in
        if k =? key then (true, mid)
        else if k <? key then leaf_search_loop fuel keys key (S mid) high
        else leaf_search_loop fuel keys key low mid
      else (false, low)
  end.

(** Whether the key is there, and the slot it is at or belongs at. *)
Definition bptree_leaf_search (keys : list Z) (key : Z) : bool * nat :=
  leaf_search_loop (S (length keys)) keys key 0 (length keys).

(** ** Insertion *)

Definition bptree_node_create (fresh : addr) : Leaf := mkLeaf fresh [] [] None.

(** The leaf after the insertion, the promoted key and new right sibling if it split, and the
    allocator's next address. *)
Definition bptree_insert_into_leaf (leaf : Leaf) (key row_index : Z) (fresh : addr)
    : result SqlError (Leaf * option (Z * Leaf) * addr) :=
  let '(found, slot) := bptree_leaf_search (leaf_keys leaf) key in
  if found then fail («"duplicate id: "» ++ show_int key)
  else
    let temp_keys := insert_at slot key (leaf_keys leaf) in
    let temp_rows := insert_at slot row_index (row_indexes leaf) in
    if (length (leaf_keys leaf) <? BPTREE_MAX_KEYS)%nat then
      Ok (mkLeaf (leaf_addr leaf) temp_keys temp_rows (leaf_next leaf), None, fresh)
    else
      let split_index := (BPTREE_ORDER / 2)%nat in
      let blank := bptree_node_create fresh in
      let right := mkLeaf (leaf_addr blank) (drop split_index temp_keys)
                          (drop split_index temp_rows) (leaf_next leaf) in
      let left := mkLeaf (leaf_addr leaf) (take split_index temp_keys)
                         (take split_index temp_rows) (Some (leaf_addr right)) in
      Ok (left, Some (default 0 (head (leaf_keys right)), right), S fresh).

(** Store a split child in a node that has [key_count] keys: in place, or splitting the node. *)
Definition insert_split (keys : list Z) (children : list BPTreeNode) (child_index : nat)
    (promoted : Z) (split_right : BPTreeNode) : BPTreeNode * option (Z * BPTreeNode) :=
  let temp_keys := insert_at child_index promoted keys in
  let temp_children := insert_at (S child_index) split_right children in
  if (length keys <? BPTREE_MAX_KEYS)%nat then (InnerNode temp_keys temp_children, None)
  else
    let split_index := (BPTREE_ORDER / 2)%nat in
    (InnerNode (take split_index temp_keys) (take (S split_index) temp_children),
     Some (default 0 (temp_keys !! split_index),
           InnerNode (drop (S split_index) temp_keys) (drop (S split_index) temp_children))).

Fixpoint bptree_insert_recursive (node : BPTreeNode) (key row_index : Z) (fresh : addr)
    : result SqlError (BPTreeNode * option (Z * BPTreeNode) * addr) :=
  match node with
  | LeafNode leaf =>
      match bptree_insert_into_leaf leaf key row_index fresh with
      | Err e => Err e
      | Ok (l, sp, fresh') => Ok (LeafNode l, prod_map id LeafNode <$> sp, fresh')
      end
  | InnerNode keys children =>
      let child_index := bptree_child_index keys key in
      let updated := nth_with (fail []) (λ c, bptree_insert_recursive c key row_index fresh)
                              children child_index in
      match updated with
      | Err e => Err e
      | Ok (child, None, fresh') => Ok (InnerNode keys (<[child_index := child]> children), None, fresh')
      | Ok (child, Some (promoted, split_right), fresh') =>
          let '(node', sp) :=
            insert_split keys (<[child_index := child]> children) child_index promoted split_right in
          Ok (node', sp, fresh')
      end
  end.

(** ** The tree *)

Definition bptree_create : BPTree := mkBPTree None 0.

Definition bptree_insert (tree : BPTree) (key row_index : Z) : result SqlError BPTree :=
  match root tree with
  | None =>
      Ok (mkBPTree (Some (LeafNode (mkLeaf (next_addr tree) [key] [row_index] None))) (S (next_addr tree)))
  | Some node =>
      match bptree_insert_recursive node key row_index (next_addr tree) with
      | Err e => Err e
      | Ok (node', None, fresh) => Ok (mkBPTree (Some node') fresh)
      | Ok (node', Some (promoted_key, split_right), fresh) =>
          Ok (mkBPTree (Some (InnerNode [promoted_key] [node'; split_right])) fresh)
      end
  end.

(** The leaf the descent loop of [bptree_search] reaches. *)
Fixpoint descend (node : BPTreeNode) (key : Z) : option Leaf :=
  match node with
  | LeafNode leaf => Some leaf
  | InnerNode keys children =>
      nth_with None (λ c, descend c key) children (bptree_child_index keys key)
  end.

(** The row index, or [None] when the function returns 0. *)
Definition bptree_search (tree : BPTree) (key : Z) : option Z :=
  match root tree with
  | None => None
  | Some node =>
      match descend node key with
      | None => None
      | Some leaf =>
          let '(found, slot) := bptree_leaf_search (leaf_keys leaf) key in
          if found then row_indexes leaf !! slot else None
      end
  end.

(** ** Collecting the keys along the leaf chain *)

Fixpoint leaves (node : BPTreeNode) : list Leaf :=
  match node with
  | LeafNode leaf => [leaf]
  | InnerNode _ children => concat (map leaves children)
  end.

Fixpoint leftmost (node : BPTreeNode) : option Leaf :=
  match node with
  | LeafNode leaf => Some leaf
  | InnerNode _ children => nth_with None leftmost children 0
  end.

(** Dereference a leaf address. *)
Definition deref (node : BPTreeNode) (a : addr) : option Leaf :=
  snd <$> list_find (λ l, leaf_addr l = a) (leaves node).

(** Copy the keys of one leaf; [false] when the buffer is full. *)
Fixpoint copy_keys (capacity : Z) (written keys : list Z) : bool * list Z :=
  match keys with
  | [] => (true, written)
  | k :: keys' =>
      if capacity <=? Z.of_nat (length written) then (false, written)
      else copy_keys capacity (written ++ [k]) keys'
  end.

(** Follow [next]; [None] when the chain is longer than [fuel] or dangles. *)
Fixpoint collect_chain (fuel : nat) (node : BPTreeNode) (leaf : Leaf) (capacity : Z) (written : list Z)
    : option (bool * list Z) :=
  match fuel with
  | O => None
  | S fuel =>
      match copy_keys capacity written (leaf_keys leaf) with
      | (false, written') => Some (false, written')
      | (true, written') =>
          match leaf_next leaf with
          | None => Some (true, written')
          | Some a => leaf' ← deref node a; collect_chain fuel node leaf' capacity written'
          end
      end
  end.

(** Whether the call returned 1, and the keys written to the buffer. *)
Definition bptree_collect_keys (tree : BPTree) (capacity : Z) : option (bool * list Z) :=
  match root tree with
  | None => Some (true, [])
  | Some node =>
      leaf ← leftmost node; collect_chain (length (leaves node)) node leaf capacity []
  end.

(** ** Specification: ordered association lists *)

Definition leaf_entries (l : Leaf) : list (Z * Z) := zip (leaf_keys l) (row_indexes l).
Definition entries (n : BPTreeNode) : list (Z * Z) := concat (map leaf_entries (leaves n)).
Definition tree_entries (t : BPTree) : list (Z * Z) := from_option entries [] (root t).

(** What a tree means: the finite map from ids to row indexes. *)
Definition to_map (t : BPTree) : gmap Z Z := list_to_map (tree_entries t).

(** Insertion into an association list sorted by key. *)
Fixpoint ins (k r : Z) (l : list (Z * Z)) : list (Z * Z) :=
  match l with
  | [] => [(k, r)]
  | (k', r') :: l' => if k <? k' then (k, r) :: l else (k', r') :: ins k r l'
  end.

(** ** Well-formed trees *)

Definition above (lo : option Z) (k : Z) : Prop := match lo with None => True | Some l => l <= k end.
Definition above_strict (lo : option Z) (k : Z) : Prop := match lo with None => True | Some l => l < k end.
Definition below (hi : option Z) (k : Z) : Prop := match hi with None => True | Some h => k < h end.

(** Keys of a subtree lie in [lo, hi), separators strictly inside. *)
Definition in_range (lo hi : option Z) (k : Z) : Prop := above lo k ∧ below hi k.
Definition in_open (lo hi : option Z) (k : Z) : Prop := above_strict lo k ∧ below hi k.

Definition MIN_LEAF_KEYS : nat := 50.
Definition MIN_INNER_KEYS : nat := 49.

Definition leaf_ok (is_root : bool) (lo hi : option Z) (l : Leaf) : Prop :=
  StronglySorted Z.lt (leaf_keys l) ∧ Forall (in_range lo hi) (leaf_keys l) ∧
  length (row_indexes l) = length (leaf_keys l) ∧
  ((if is_root then 1 else MIN_LEAF_KEYS) <= length (leaf_keys l) <= BPTREE_MAX_KEYS)%nat.

Section Children.
Context (P : option Z → option Z → BPTreeNode → Prop).

(** [n] separators between [n + 1] children, each child within its two separators. *)
Fixpoint children_ok (lo hi : option Z) (ks : list Z) (cs : list BPTreeNode) : Prop :=
  match ks, cs with
  | [], [c] => P lo hi c
  | k :: ks', c :: cs' => P lo (Some k) c ∧ in_open lo hi k ∧ children_ok (Some k) hi ks' cs'
  | _, _ => False
  end.

End Children.

(** [node_ok h is_root lo hi n]: [n] has height [h], all leaves at the same depth. *)
Fixpoint node_ok (h : nat) (is_root : bool) (lo hi : option Z) (n : BPTreeNode) : Prop :=
  match h, n with
  | O, LeafNode l => leaf_ok is_root lo hi l
  | S h', InnerNode ks cs =>
      children_ok (node_ok h' false) lo hi ks cs ∧
      ((if is_root then 1 else MIN_INNER_KEYS) <= length ks <= BPTREE_MAX_KEYS)%nat
  | _, _ => False
  end.

(** Each leaf points at the next one, the last at nothing. *)
Fixpoint linked (ls : list Leaf) : Prop :=
  match ls with
  | [] => True
  | l :: ls' => leaf_next l = leaf_addr <$> head ls' ∧ linked ls'
  end.

Definition chain_ok (ls : list Leaf) (fresh : addr) : Prop :=
  linked ls ∧ NoDup (map leaf_addr ls) ∧ Forall (λ l, leaf_addr l < fresh)%nat ls.

Definition bptree_ok_at (h : nat) (t : BPTree) : Prop :=
  match root t with
  | None => h = 0%nat
  | Some n => node_ok h true None None n ∧ chain_ok (leaves n) (next_addr t)
  end.

Definition bptree_ok (t : BPTree) : Prop := ∃ h, bptree_ok_at h t.

(** ** Lemmas: sorted lists and [ins] *)

Lemma sorted_lookup_lt (l : list Z) i j x y :
  StronglySorted Z.lt l → l !! i = Some x → l !! j = Some y → (i < j)%nat → x < y.
Proof.
  intros Hs. revert i j. induction Hs as [|z l Hs IH Hz]; intros i j Hx Hy Hij; [done|].
  destruct i as [|i], j as [|j]; simpl in *; [lia| |lia|]; simplify_eq.
  - eapply Forall_lookup_1 in Hz; done.
  - eapply IH; [done..|lia].
Qed.

Lemma StronglySorted_app_iff (l1 l2 : list Z) :
  StronglySorted Z.lt (l1 ++ l2) ↔
  StronglySorted Z.lt l1 ∧ StronglySorted Z.lt l2 ∧ ∀ x y, x ∈ l1 → y ∈ l2 → x < y.
Proof.
  induction l1 as [|z l1 IH]; simpl.
  - split; [intros; split_and!; [constructor|done|set_solver]|tauto].
  - split.
    + inversion_clear 1 as [|? ? Hs Hz]. apply IH in Hs as (? & ? & Hlt).
      apply Forall_app in Hz as [? Hz2]. split_and!; [by constructor|done|].
      intros x y Hx Hy. apply elem_of_cons in Hx as [-> |Hx]; [|by apply Hlt].
      by eapply Forall_forall in Hz2.
    + intros (Hs1 & Hs2 & Hlt). inversion_clear Hs1. constructor.
      * apply IH. set_solver.
      * apply Forall_app. split; [done|]. apply Forall_forall. intros y Hy. apply Hlt; set_solver.
Qed.

Lemma ins_app_l k r l1 l2 :
  Forall (λ e, k < e.1) l2 → ins k r (l1 ++ l2) = ins k r l1 ++ l2.
Proof.
  intros Hl2. induction l1 as [|[k' r'] l1 IH]; simpl.
  - destruct l2 as [|[k2 r2] l2]; [done|]. inversion_clear Hl2. simpl in *.
    by rewrite (proj2 (Z.ltb_lt _ _)).
  - case_match; [done|]. by rewrite IH.
Qed.

Lemma ins_app_r k r l1 l2 :
  Forall (λ e, e.1 < k) l1 → ins k r (l1 ++ l2) = l1 ++ ins k r l2.
Proof.
  induction 1 as [|[k' r'] l1 Hk _ IH]; simpl in *; [done|].
  rewrite (proj2 (Z.ltb_ge _ _)) by lia. by rewrite IH.
Qed.

Lemma ins_Permutation k r l : ins k r l ≡ₚ (k, r) :: l.
Proof.
  induction l as [|[k' r'] l IH]; simpl; [done|]. case_match; [done|]. rewrite IH.
  by rewrite Permutation_swap.
Qed.

(** ** Lemmas: searching a leaf *)

Section LeafSearch.
Context (keys : list Z) (key : Z) (Hsorted : StronglySorted Z.lt keys).

(** The binary search keeps: smaller keys before [low], larger keys from [high] on. *)
Lemma leaf_search_loop_spec fuel low high :
  (low <= high <= length keys)%nat → (high - low < fuel)%nat →
  (∀ j x, keys !! j = Some x → (j < low)%nat → x < key) →
  (∀ j x, keys !! j = Some x → (high <= j)%nat → key < x) →
  match leaf_search_loop fuel keys key low high with
  | (true, i) => keys !! i = Some key
  | (false, i) => (i <= length keys)%nat ∧
      (∀ j x, keys !! j = Some x → (j < i)%nat → x < key) ∧
      (∀ j x, keys !! j = Some x → (i <= j)%nat → key < x)
  end.
Proof.
  revert low high. induction fuel as [|fuel IH]; intros low high Hb Hf Hlo Hhi; [lia|].
  cbn [leaf_search_loop].
  destruct (Nat.ltb_spec low high) as [Hlt|Hge].
  2: { split_and!; [lia|done|]. intros j x Hx Hj. eapply Hhi; [done|lia]. }
  set (mid := (low + (high - low) / 2)%nat).
  assert (Hmid : (low <= mid < high)%nat).
  { assert ((high - low) / 2 < high - low)%nat by (apply Nat.div_lt; lia). unfold mid. lia. }
  destruct (lookup_lt_is_Some_2 keys mid) as [k Hk]; [lia|]. rewrite Hk. simpl.
  destruct (Z.eqb_spec k key) as [-> |Hne]; [done|]. destruct (Z.ltb_spec k key) as [Hkl|Hkg].
  - apply IH; [lia|lia| |done]. intros j x Hx Hj.
    destruct (decide (j = mid)) as [-> |]; [congruence|].
    assert (x < k); [|lia]. eapply sorted_lookup_lt; [done..|lia].
  - apply IH; [lia|lia|done|]. intros j x Hx Hj.
    destruct (decide (j = mid)) as [-> |]; [simplify_eq; lia|].
    assert (k < x); [|lia]. eapply sorted_lookup_lt; [done..|lia].
Qed.

Lemma bptree_leaf_search_spec :
  match bptree_leaf_search keys key with
  | (true, i) => keys !! i = Some key
  | (false, i) => ∃ k1 k2, keys = k1 ++ k2 ∧ length k1 = i ∧
      Forall (λ x, x < key) k1 ∧ Forall (λ x, key < x) k2
  end.
Proof.
  unfold bptree_leaf_search.
  pose proof (leaf_search_loop_spec (S (length keys)) 0 (length keys)) as H.
  destruct (leaf_search_loop _ _ _ _ _) as [[] i].
  - apply H; try lia. intros j x Hx Hj. apply lookup_lt_Some in Hx. lia.
  - destruct H as (Hi & Hlo & Hhi); try lia.
    { intros j x Hx Hj. apply lookup_lt_Some in Hx. lia. }
    exists (take i keys), (drop i keys). rewrite take_drop, length_take. split_and!; [done|lia| |].
    + apply Forall_lookup. intros j x Hx. apply lookup_take_Some in Hx as [??]. by eapply Hlo.
    + apply Forall_lookup. intros j x Hx. rewrite lookup_drop in Hx. eapply Hhi; [done|lia].
Qed.

(** The search agrees with membership. *)
Lemma bptree_leaf_search_found : (bptree_leaf_search keys key).1 = true ↔ key ∈ keys.
Proof.
  pose proof bptree_leaf_search_spec as H. destruct (bptree_leaf_search keys key) as [[] i]; simpl.
  - split; [|done]. intros _. by eapply list_elem_of_lookup_2.
  - destruct H as (k1 & k2 & -> & _ & H1 & H2). split; [done|].
    rewrite elem_of_app. intros [Hin|Hin].
    + eapply Forall_forall in H1; [|done]. lia.
    + eapply Forall_forall in H2; [|done]. lia.
Qed.

End LeafSearch.

(** ** What an insertion does to the leaves and to a subtree *)

(** One leaf is replaced by itself with more keys, or by two leaves linked in its place. *)
Inductive leaves_step : list Leaf → list Leaf → addr → addr → Prop :=
| step_same l1 l l' l2 fresh :
    leaf_addr l' = leaf_addr l → leaf_next l' = leaf_next l →
    leaves_step (l1 ++ l :: l2) (l1 ++ l' :: l2) fresh fresh
| step_split l1 l la lb l2 fresh :
    leaf_addr la = leaf_addr l → leaf_next la = Some fresh →
    leaf_addr lb = fresh → leaf_next lb = leaf_next l →
    leaves_step (l1 ++ l :: l2) (l1 ++ la :: lb :: l2) fresh (S fresh).

Definition split_leaves (n : BPTreeNode) (sp : option (Z * BPTreeNode)) : list Leaf :=
  leaves n ++ from_option (leaves ∘ snd) [] sp.

Definition split_ok (h : nat) (is_root : bool) (lo hi : option Z) (n : BPTreeNode)
    (sp : option (Z * BPTreeNode)) : Prop :=
  match sp with
  | None => node_ok h is_root lo hi n
  | Some (pk, r) => node_ok h false lo (Some pk) n ∧ node_ok h false (Some pk) hi r ∧ in_open lo hi pk
  end.

Definition inserted (h : nat) (is_root : bool) (lo hi : option Z) (key row : Z)
    (n n' : BPTreeNode) (sp : option (Z * BPTreeNode)) (fresh fresh' : addr) : Prop :=
  split_ok h is_root lo hi n' sp ∧
  concat (map leaf_entries (split_leaves n' sp)) = ins key row (entries n) ∧
  leaves_step (leaves n) (split_leaves n' sp) fresh fresh'.

(** ** Lemmas: inserting into a leaf *)

Lemma ins_head k r l : Forall (λ e, k < e.1) l → ins k r l = (k, r) :: l.
Proof. intros H. by apply (ins_app_l k r [] l). Qed.

Lemma insert_at_ins i k r l :
  Forall (λ e, e.1 < k) (take i l) → Forall (λ e, k < e.1) (drop i l) →
  insert_at i (k, r) l = ins k r l.
Proof.
  intros H1 H2. unfold insert_at. rewrite <- (take_drop i l) at 3.
  by rewrite ins_app_r, ins_head.
Qed.

Lemma Forall_fst_take_zip (P : Z → Prop) i (ks rs : list Z) :
  Forall P (take i ks) → Forall (λ e, P e.1) (take i (zip ks rs)).
Proof.
  revert i rs. induction ks as [|k ks IH]; intros [|i] [|r rs]; simpl; try (constructor; fail).
  inversion_clear 1. constructor; auto.
Qed.

Lemma Forall_fst_drop_zip (P : Z → Prop) i (ks rs : list Z) :
  Forall P (drop i ks) → Forall (λ e, P e.1) (drop i (zip ks rs)).
Proof.
  revert i rs. induction ks as [|k ks IH]; intros [|i] [|r rs]; simpl; try (constructor; fail); auto.
  inversion_clear 1. constructor; [done|]. by apply (IH 0%nat).
Qed.

Lemma zip_insert_at_ins ks rs i key row :
  length rs = length ks → Forall (λ x, x < key) (take i ks) → Forall (λ x, key < x) (drop i ks) →
  zip (insert_at i key ks) (insert_at i row rs) = ins key row (zip ks rs).
Proof.
  intros Hlen H1 H2. rewrite zip_insert_at by done. apply insert_at_ins.
  - by apply (Forall_fst_take_zip (λ x, x < key)).
  - by apply (Forall_fst_drop_zip (λ x, key < x)).
Qed.

Lemma sorted_insert_at (ks : list Z) i key :
  StronglySorted Z.lt ks → Forall (λ x, x < key) (take i ks) → Forall (λ x, key < x) (drop i ks) →
  StronglySorted Z.lt (insert_at i key ks).
Proof.
  intros Hs H1 H2. rewrite <- (take_drop i ks) in Hs.
  apply StronglySorted_app_iff in Hs as (Hs1 & Hs2 & Hlt). unfold insert_at.
  apply StronglySorted_app_iff. split_and!; [done|by constructor|].
  intros x y Hx Hy. apply elem_of_cons in Hy as [-> |Hy]; [|by apply Hlt].
  by eapply Forall_forall in H1.
Qed.

Lemma Forall_insert_at {A} (P : A → Prop) i x l : P x → Forall P l → Forall P (insert_at i x l).
Proof.
  intros Hx Hl. unfold insert_at. apply Forall_app. split; [by apply Forall_take|].
  constructor; [done|by apply Forall_drop].
Qed.

(** A sorted list cut at [i]: the element at [i] separates the two parts. *)
Lemma sorted_cut (ks : list Z) lo hi i pk :
  StronglySorted Z.lt ks → Forall (in_range lo hi) ks → ks !! i = Some pk → (0 < i)%nat →
  in_open lo hi pk ∧ Forall (in_range lo (Some pk)) (take i ks) ∧
  Forall (in_range (Some pk) hi) (drop i ks).
Proof.
  intros Hs Hr Hpk Hi. rewrite Forall_lookup in Hr.
  assert (Hlt : ∀ j x, ks !! j = Some x → (j < i)%nat → x < pk) by (intros; by eapply sorted_lookup_lt).
  split_and!.
  - destruct (lookup_lt_is_Some_2 ks 0) as [x Hx]; [apply lookup_lt_Some in Hpk; lia|].
    destruct (Hr _ _ Hx), (Hr _ _ Hpk). split; [|done]. apply Hlt in Hx; [|done].
    destruct lo; simpl in *; lia || done.
  - apply Forall_lookup. intros j x Hx. apply lookup_take_Some in Hx as [Hx Hj].
    split; [by destruct (Hr _ _ Hx)|by eapply Hlt].
  - apply Forall_lookup. intros j x Hx. rewrite lookup_drop in Hx. destruct (Hr _ _ Hx).
    split; [|done]. simpl. destruct (decide (j = 0%nat)) as [-> |].
    + rewrite Nat.add_0_r in Hx. simplify_eq. lia.
    + assert (pk < x); [eapply sorted_lookup_lt; [done..|lia]|lia].
Qed.

Lemma entries_leaf l : entries (LeafNode l) = leaf_entries l.
Proof. unfold entries. simpl. by rewrite app_nil_r. Qed.

Lemma insert_into_leaf_duplicate is_root lo hi l key row fresh :
  leaf_ok is_root lo hi l → key ∈ leaf_keys l →
  bptree_insert_into_leaf l key row fresh = fail («"duplicate id: "» ++ show_int key).
Proof.
  intros (Hs & _) Hin. apply (bptree_leaf_search_found _ _ Hs) in Hin.
  unfold bptree_insert_into_leaf. destruct (bptree_leaf_search _ _) as [[] i]; done.
Qed.

Lemma insert_into_leaf_new is_root lo hi l key row fresh :
  leaf_ok is_root lo hi l → in_range lo hi key → key ∉ leaf_keys l →
  ∃ l' sp fresh',
    bptree_insert_into_leaf l key row fresh = Ok (l', sp, fresh') ∧
    inserted 0 is_root lo hi key row (LeafNode l) (LeafNode l') (prod_map id LeafNode <$> sp) fresh fresh'.
Proof.
  intros (Hs & Hr & Hlen & Hmin & Hmax) Hkey Hnin. pose proof (bptree_leaf_search_spec _ key Hs) as Hsp.
  rewrite <- (bptree_leaf_search_found _ _ Hs) in Hnin. unfold bptree_insert_into_leaf.
  destruct (bptree_leaf_search _ _) as [[] i]; [done|]. clear Hnin.
  destruct Hsp as (k1 & k2 & Hk & Hi & H1 & H2).
  rewrite <- (take_app_length' k1 k2 i), <- Hk in H1 by done.
  rewrite <- (drop_app_length' k1 k2 i), <- Hk in H2 by done.
  assert (Hz := zip_insert_at_ins _ _ _ _ row Hlen H1 H2).
  assert (Hs' := sorted_insert_at _ _ _ Hs H1 H2).
  assert (Hr' := Forall_insert_at _ i key _ Hkey Hr).
  assert (Hlk := length_insert_at i key (leaf_keys l)).
  assert (Hlr := length_insert_at i row (row_indexes l)).
  destruct (Nat.ltb_spec (length (leaf_keys l)) BPTREE_MAX_KEYS) as [Hlt|Hge].
  - do 3 eexists. split; [done|]. split_and!; simpl.
    + split_and!; simpl; [done|done|lia|destruct is_root; lia|lia].
    + rewrite app_nil_r, entries_leaf. exact Hz.
    + by apply (step_same []).
  - do 3 eexists. split; [done|]. unfold BPTREE_MAX_KEYS, BPTREE_ORDER in *.
    set (tk := insert_at i key (leaf_keys l)) in *. set (tr := insert_at i row (row_indexes l)) in *.
    destruct (lookup_lt_is_Some_2 tk 50) as [pk Hpk]; [lia|].
    assert (Hhead : head (drop 50 tk) = Some pk) by (by rewrite head_lookup, lookup_drop).
    destruct (sorted_cut tk lo hi 50 pk) as (Hop & Hl & Hrt); [done..|lia|].
    rewrite <- (take_drop 50 tk) in Hs'. apply StronglySorted_app_iff in Hs' as (Hsl & Hsr & _).
    split_and!.
    + simpl. change (100 / 2)%nat with 50%nat. rewrite Hhead. simpl.
      split_and!; [|  |done]; split_and!; simpl; try done;
        rewrite ?length_take, ?length_drop; unfold MIN_LEAF_KEYS, BPTREE_MAX_KEYS, BPTREE_ORDER; lia.
    + simpl. change (100 / 2)%nat with 50%nat. rewrite app_nil_r, entries_leaf. unfold leaf_entries. simpl.
      rewrite <- zip_with_app by (rewrite !length_take; lia). by rewrite !take_drop.
    + by apply (step_split []).
Qed.

(** ** Lemmas: children and separators *)

Section ChildrenLemmas.
Context (P : option Z → option Z → BPTreeNode → Prop).

Lemma children_ok_length lo hi ks cs : children_ok P lo hi ks cs → length cs = S (length ks).
Proof.
  revert lo cs. induction ks as [|k ks IH]; intros lo [|c cs]; simpl; try done.
  - by destruct cs.
  - intros (_ & _ & H). by rewrite (IH _ _ H).
Qed.

Lemma in_open_weaken lo hi k k' :
  in_open lo hi k → in_open (Some k) hi k' → in_open lo hi k'.
Proof. intros [] [? ?]. split; [|done]. destruct lo; simpl in *; lia || done. Qed.

Lemma children_ok_separators lo hi ks cs : children_ok P lo hi ks cs → Forall (in_open lo hi) ks.
Proof.
  revert lo cs. induction ks as [|k ks IH]; intros lo cs; [done|]. destruct cs as [|c cs]; [done|].
  intros (_ & Hk & H). constructor; [done|]. apply IH in H. eapply Forall_impl; [exact H|].
  intros x. by apply in_open_weaken.
Qed.

(** Cutting the children at a separator. *)
Lemma children_ok_cut lo hi ks1 k ks2 cs :
  children_ok P lo hi (ks1 ++ k :: ks2) cs →
  children_ok P lo (Some k) ks1 (take (S (length ks1)) cs) ∧
  children_ok P (Some k) hi ks2 (drop (S (length ks1)) cs) ∧ in_open lo hi k.
Proof.
  revert lo cs. induction ks1 as [|k1 ks1 IH]; intros lo [|c cs]; simpl; try done.
  - by intros (Hc & Hk & H).
  - intros (Hc & Hk1 & H). destruct (IH _ _ H) as (Hl & Hr & Hk). split_and!; try done.
    + split; [apply Hk1|apply Hk].
    + by eapply in_open_weaken.
Qed.

(** The child [bptree_child_index] selects: its bounds hold the key, it can be replaced by one
    or by two well-formed children, and the entries left and right of it are smaller and larger. *)
Lemma children_focus lo hi ks cs key :
  children_ok P lo hi ks cs → in_range lo hi key →
  ∃ lo' hi' c ks1 ks2 cs1 cs2,
    ks = ks1 ++ ks2 ∧ cs = cs1 ++ c :: cs2 ∧
    length ks1 = bptree_child_index ks key ∧ length cs1 = bptree_child_index ks key ∧
    P lo' hi' c ∧ in_range lo' hi' key ∧
    (∀ c', P lo' hi' c' → children_ok P lo hi ks (cs1 ++ c' :: cs2)) ∧
    (∀ pk l r, P lo' (Some pk) l → P (Some pk) hi' r → in_open lo' hi' pk →
       children_ok P lo hi (ks1 ++ pk :: ks2) (cs1 ++ l :: r :: cs2)) ∧
    (∀ E : BPTreeNode → list (Z * Z),
       (∀ lo hi c, P lo hi c → Forall (λ e, in_range lo hi e.1) (E c)) →
       Forall (λ e, e.1 < key) (concat (map E cs1)) ∧ Forall (λ e, key < e.1) (concat (map E cs2))).
Proof.
  revert lo cs. induction ks as [|k ks IH]; intros lo [|c cs]; simpl; try done.
  - destruct cs; [|done]. intros Hc Hkey. exists lo, hi, c, [], [], [], []. simpl. by split_and!.
  - intros (Hc & Hk & Hcs) Hkey. destruct (Z.leb_spec k key) as [Hle|Hgt].
    + destruct (IH (Some k) cs Hcs) as (lo' & hi' & c' & ks1 & ks2 & cs1 & cs2 & -> & -> & Hl1 & Hl2 & HP & Hr & H1 & H2 & HE).
      { split; [done|apply Hkey]. }
      exists lo', hi', c', (k :: ks1), ks2, (c :: cs1), cs2. simpl. split_and!; try done; auto.
      intros E HEr. destruct (HE E HEr) as [HE1 HE2]. split; [|done].
      apply Forall_app. split; [|done]. eapply Forall_impl; [by apply HEr|].
      intros e [_ He]. simpl in *. lia.
    + exists lo, (Some k), c, [], (k :: ks), [], cs. simpl. split_and!; try done; auto.
      * split; [apply Hkey|done].
      * intros pk l r Hl Hr' [Hop1 Hop2]. split_and!; try done.
        { split; [done|]. destruct Hk as [_ Hk]. destruct hi; simpl in *; lia || done. }
        split; [exact Hop2|apply Hk].
      * intros E HEr. split; [done|]. clear -HEr Hcs Hgt. revert k cs Hcs Hgt.
        induction ks as [|k' ks IH]; intros k [|c' cs]; simpl; try done.
        { destruct cs; [|done]. simpl. intros Hc Hgt. rewrite app_nil_r.
          eapply Forall_impl; [by apply HEr|]. intros e [He _]. simpl in *. lia. }
        intros (Hc & [Hk _] & Hcs) Hgt. apply Forall_app. split.
        { eapply Forall_impl; [by apply HEr|]. intros e [He _]. simpl in *. lia. }
        eapply IH; [done|]. simpl in Hk. lia.
Qed.

End ChildrenLemmas.

Lemma entries_inner ks cs : entries (InnerNode ks cs) = concat (map entries cs).
Proof.
  unfold entries. simpl. induction cs as [|c cs IH]; simpl; [done|].
  by rewrite map_app, concat_app, IH.
Qed.

Lemma in_range_weaken_hi lo hi k x : in_open lo hi k → in_range lo (Some k) x → in_range lo hi x.
Proof. intros [_ ?] [? ?]. split; [done|]. destruct hi; simpl in *; lia || done. Qed.

Lemma in_range_weaken_lo lo hi k x : in_open lo hi k → in_range (Some k) hi x → in_range lo hi x.
Proof. intros [? _] [? ?]. split; [|done]. destruct lo; simpl in *; lia || done. Qed.

(** Entries of a well-formed subtree: sorted by key, within bounds. *)
Definition entries_sorted (lo hi : option Z) (l : list (Z * Z)) : Prop :=
  StronglySorted Z.lt (map fst l) ∧ Forall (λ e, in_range lo hi e.1) l.

Lemma entries_sorted_app lo hi k l1 l2 :
  in_open lo hi k → entries_sorted lo (Some k) l1 → entries_sorted (Some k) hi l2 →
  entries_sorted lo hi (l1 ++ l2).
Proof.
  intros Hk [Hs1 Hr1] [Hs2 Hr2]. split.
  - rewrite map_app. apply StronglySorted_app_iff. split_and!; [done..|].
    intros x y (e & -> & He)%list_elem_of_fmap (e' & -> & He')%list_elem_of_fmap.
    eapply Forall_forall in Hr1 as [_ H1]; [|done]. eapply Forall_forall in Hr2 as [H2 _]; [|done].
    simpl in *. lia.
  - apply Forall_app. split; (eapply Forall_impl; [done|]); intros e He; simpl in He.
    + by eapply in_range_weaken_hi.
    + by eapply in_range_weaken_lo.
Qed.

Lemma leaf_entries_keys l : length (row_indexes l) = length (leaf_keys l) → map fst (leaf_entries l) = leaf_keys l.
Proof. intros H. unfold leaf_entries. change (fst <$> zip (leaf_keys l) (row_indexes l) = leaf_keys l). apply fst_zip. lia. Qed.

Lemma node_ok_entries h is_root lo hi n : node_ok h is_root lo hi n → entries_sorted lo hi (entries n).
Proof.
  revert is_root lo hi n. induction h as [|h IH]; intros is_root lo hi [l|ks cs]; simpl; try done.
  - intros (Hs & Hr & Hlen & _). rewrite entries_leaf. split.
    + by rewrite leaf_entries_keys.
    + apply (Forall_map fst (in_range lo hi)). by rewrite leaf_entries_keys.
  - intros [Hcs _]. rewrite entries_inner. clear is_root. revert lo cs Hcs.
    induction ks as [|k ks IHk]; intros lo [|c cs]; simpl; try done.
    + destruct cs; [|done]. simpl. rewrite app_nil_r. apply IH.
    + intros (Hc & Hk & Hcs). eapply entries_sorted_app; [done|by eapply IH|by apply IHk].
Qed.

(** ** Lemmas: inserting into a subtree *)

Lemma insert_split_ok h (is_root : bool) lo hi ks cs i pk r :
  children_ok (node_ok h false) lo hi (insert_at i pk ks) (insert_at (S i) r cs) →
  ((if is_root then 1 else MIN_INNER_KEYS) <= length ks <= BPTREE_MAX_KEYS)%nat →
  split_ok (S h) is_root lo hi (insert_split ks cs i pk r).1 (insert_split ks cs i pk r).2 ∧
  split_leaves (insert_split ks cs i pk r).1 (insert_split ks cs i pk r).2 =
    concat (map leaves (insert_at (S i) r cs)).
Proof.
  intros Hok Hlen. assert (Hlk := length_insert_at i pk ks). assert (Hlc := children_ok_length _ _ _ _ _ Hok).
  unfold insert_split, MIN_INNER_KEYS, BPTREE_MAX_KEYS, BPTREE_ORDER in *. change (100 / 2)%nat with 50%nat.
  set (tk := insert_at i pk ks) in *. set (tc := insert_at (S i) r cs) in *.
  destruct (Nat.ltb_spec (length ks) (100 - 1)) as [Hlt|Hge]; cbn [fst snd].
  - split; [split; [done|]|].
    + unfold BPTREE_MAX_KEYS, BPTREE_ORDER, MIN_INNER_KEYS. destruct is_root; lia.
    + unfold split_leaves. cbn. by rewrite app_nil_r.
  - destruct (lookup_lt_is_Some_2 tk 50) as [pk' Hpk]; [lia|]. rewrite Hpk. cbn [from_option id default].
    rewrite <- (take_drop_middle _ _ _ Hpk) in Hok. apply children_ok_cut in Hok as (Hl & Hr & Hop).
    rewrite length_take_le in Hl, Hr by lia.
    split; [cbn [split_ok]; split_and!; [split; [done|]|split; [done|]|done]|].
    + rewrite length_take. unfold BPTREE_MAX_KEYS, BPTREE_ORDER, MIN_INNER_KEYS. lia.
    + rewrite length_drop. unfold BPTREE_MAX_KEYS, BPTREE_ORDER, MIN_INNER_KEYS. lia.
    + unfold split_leaves. cbn -[take drop]. by rewrite <- concat_app, <- map_app, take_drop.
Qed.

Lemma leaves_step_context a b ls ls' f f' :
  leaves_step ls ls' f f' → leaves_step (a ++ ls ++ b) (a ++ ls' ++ b) f f'.
Proof.
  destruct 1; rewrite <- !app_assoc; simpl; rewrite !(app_assoc a); by constructor.
Qed.

Lemma insert_at_middle {A} (c r : A) cs1 cs2 i :
  length cs1 = i → insert_at (S i) r (cs1 ++ c :: cs2) = cs1 ++ c :: r :: cs2.
Proof.
  intros <-. rewrite !(cons_middle c), !(app_assoc cs1).
  replace (S (length cs1)) with (length (cs1 ++ [c])) by (rewrite length_app; simpl; lia).
  by rewrite insert_at_app, <- !app_assoc.
Qed.

Definition node_keys (n : BPTreeNode) : list Z := map fst (entries n).

Lemma focus_member cs1 c cs2 key :
  Forall (λ e, e.1 < key) (concat (map entries cs1)) →
  Forall (λ e, key < e.1) (concat (map entries cs2)) →
  ∀ r, (key, r) ∈ concat (map entries (cs1 ++ c :: cs2)) ↔ (key, r) ∈ entries c.
Proof.
  intros H1 H2 r. rewrite map_app, concat_app. simpl. rewrite !elem_of_app.
  rewrite Forall_forall in H1, H2. split; [|tauto]. intros [H|[H|H]]; [|done|].
  - apply H1 in H. simpl in H. lia.
  - apply H2 in H. simpl in H. lia.
Qed.

Lemma node_keys_member n key : key ∈ node_keys n ↔ ∃ r, (key, r) ∈ entries n.
Proof.
  unfold node_keys. split.
  - intros ([k r] & -> & H)%list_elem_of_fmap. by exists r.
  - intros [r H]. by apply (list_elem_of_fmap_2 fst) in H.
Qed.

Lemma insert_recursive_duplicate h is_root lo hi n key row fresh :
  node_ok h is_root lo hi n → in_range lo hi key → key ∈ node_keys n →
  bptree_insert_recursive n key row fresh = fail («"duplicate id: "» ++ show_int key).
Proof.
  revert is_root lo hi n. induction h as [|h IH]; intros is_root lo hi [l|ks cs]; simpl; try done.
  - intros Hok _ Hin. erewrite insert_into_leaf_duplicate; [done..|].
    unfold node_keys in Hin. destruct Hok as (_ & _ & Hlen & _). by rewrite entries_leaf, leaf_entries_keys in Hin.
  - intros [Hcs _] Hkey Hin.
    destruct (children_focus _ _ _ _ _ _ Hcs Hkey) as
      (lo' & hi' & c & ks1 & ks2 & cs1 & cs2 & -> & -> & _ & Hl2 & Hc & Hr & _ & _ & HE).
    destruct (HE entries) as [H1 H2]; [intros; by eapply node_ok_entries|].
    rewrite nth_with_lookup, <- Hl2, list_lookup_middle by done.
    erewrite IH; [done..|]. apply node_keys_member. apply node_keys_member in Hin as [r Hin].
    exists r. rewrite entries_inner in Hin. by eapply focus_member.
Qed.

Lemma insert_recursive_new h is_root lo hi n key row fresh :
  node_ok h is_root lo hi n → in_range lo hi key → key ∉ node_keys n →
  ∃ n' sp fresh', bptree_insert_recursive n key row fresh = Ok (n', sp, fresh') ∧
    inserted h is_root lo hi key row n n' sp fresh fresh'.
Proof.
  revert is_root lo hi n. induction h as [|h IH]; intros is_root lo hi [l|ks cs]; cbn [node_ok]; try done.
  - intros Hok Hkey Hnin. destruct (insert_into_leaf_new is_root lo hi l key row fresh) as (l' & sp & fresh' & He & Hi).
    { done. } { done. }
    { unfold node_keys in Hnin. destruct Hok as (_ & _ & Hlen & _). by rewrite entries_leaf, leaf_entries_keys in Hnin. }
    exists (LeafNode l'), (prod_map id LeafNode <$> sp), fresh'. split; [|done]. simpl. by rewrite He.
  - intros [Hcs Hlen] Hkey Hnin.
    destruct (children_focus _ _ _ _ _ _ Hcs Hkey) as
      (lo' & hi' & c & ks1 & ks2 & cs1 & cs2 & Hks & -> & Hl1 & Hl2 & Hc & Hr & Hrep1 & Hrep2 & HE).
    destruct (HE entries) as [H1 H2]; [intros; by eapply node_ok_entries|].
    destruct (IH false lo' hi' c Hc Hr) as (c' & sp & fresh' & Hins & Hsplit & Hent & Hstep).
    { rewrite node_keys_member in Hnin |- *. intros [r Hin]. apply Hnin. exists r.
      rewrite entries_inner. by eapply focus_member. }
    cbn [bptree_insert_recursive].
    rewrite nth_with_lookup, <- Hl2, list_lookup_middle, Hins by done.
    rewrite insert_app_r_alt, Nat.sub_diag by done. cbn [insert list_insert].
    assert (Hents : ins key row (entries (InnerNode ks (cs1 ++ c :: cs2))) =
      concat (map entries cs1) ++ concat (map leaf_entries (split_leaves c' sp)) ++ concat (map entries cs2)).
    { rewrite entries_inner, map_app, concat_app. simpl.
      by rewrite ins_app_r, ins_app_l, Hent. }
    assert (Hlv : ∀ cs0, concat (map entries cs0) = concat (map leaf_entries (concat (map leaves cs0)))).
    { intros cs0. by rewrite <- (entries_inner []). }
    rewrite !Hlv, <- !concat_app, <- !map_app in Hents.
    assert (Hst : leaves_step (leaves (InnerNode ks (cs1 ++ c :: cs2)))
       (concat (map leaves cs1) ++ split_leaves c' sp ++ concat (map leaves cs2)) fresh fresh').
    { simpl. rewrite map_app, concat_app. simpl. by apply leaves_step_context. }
    destruct sp as [[pk r]|]; unfold split_leaves in Hents, Hst; cbn [from_option compose snd] in Hents, Hst.
    + destruct Hsplit as (Hpl & Hpr & Hpo). specialize (Hrep2 pk c' r Hpl Hpr Hpo).
      rewrite <- (insert_at_middle c' r cs1 cs2 _ eq_refl) in Hrep2.
      rewrite <- (insert_at_app pk ks1 ks2), <- Hks, Hl1, <- Hl2 in Hrep2.
      destruct (insert_split_ok h is_root lo hi ks (cs1 ++ c' :: cs2) (length cs1) pk r Hrep2 Hlen) as [Hok Hls].
      destruct (insert_split _ _ _ _ _) as [n' sp']. exists n', sp', fresh'. split; [done|].
      rewrite insert_at_middle, map_app, concat_app in Hls by done. cbn [map concat fst snd] in Hls.
      unfold inserted. cbn [fst snd] in Hok. rewrite Hls, Hents. rewrite <- app_assoc in Hst |- *. done.
    + exists (InnerNode ks (cs1 ++ c' :: cs2)), None, fresh'. split; [done|].
      rewrite app_nil_r in Hents, Hst.
      unfold inserted, split_leaves. cbn [from_option]. rewrite app_nil_r, Hents. simpl.
      rewrite map_app, concat_app. simpl. split_and!; first [by apply Hrep1|apply Hlen|done].
Qed.

(** ** Lemmas: the leaf chain *)

Lemma linked_suffix l1 l2 : linked (l1 ++ l2) → linked l2.
Proof. induction l1 as [|l l1 IH]; simpl; [done|]. intros [_ H]. auto. Qed.

Lemma linked_replace l1 l l2 l' new :
  leaf_addr l' = leaf_addr l → linked (l1 ++ l :: l2) → linked (l' :: new) → linked (l1 ++ l' :: new).
Proof.
  intros Ha. induction l1 as [|x l1 IH]; simpl; [done|]. intros [Hn Hl] Hnew. split; [|auto].
  rewrite Hn. destruct l1; simpl; by rewrite ?Ha.
Qed.

Lemma chain_ok_step ls ls' fresh fresh' :
  chain_ok ls fresh → leaves_step ls ls' fresh fresh' → chain_ok ls' fresh'.
Proof.
  intros (Hl & Hnd & Hf) Hstep. destruct Hstep as [l1 l l' l2 fresh Ha Hn|l1 l la lb l2 fresh Ha Hna Hb Hnb].
  - apply linked_suffix in Hl as Hl2. split_and!.
    + eapply linked_replace; [done..|]. simpl in *. by rewrite Hn.
    + rewrite map_app in *. simpl in *. by rewrite Ha.
    + apply Forall_app in Hf as [? Hf]. inversion_clear Hf. apply Forall_app.
      split; [done|]. constructor; [by rewrite Ha|done].
  - apply linked_suffix in Hl as Hl2. split_and!.
    + eapply linked_replace; [done..|]. simpl in *. rewrite Hna, Hnb, Hb. naive_solver.
    + assert (Hp : map leaf_addr (l1 ++ la :: lb :: l2) ≡ₚ fresh :: map leaf_addr (l1 ++ l :: l2)).
      { rewrite !map_app. simpl. rewrite Ha, Hb. rewrite <- !Permutation_middle. apply Permutation_swap. }
      rewrite Hp. constructor; [|done]. intros (l0 & H0 & Hin)%list_elem_of_fmap.
      eapply Forall_forall in Hf; [|done]. simpl in Hf. lia.
    + apply Forall_app in Hf as [Hf1 Hf]. inversion_clear Hf as [|? ? Hfl Hf2]. apply Forall_app. split.
      * eapply Forall_impl; [done|]. simpl. lia.
      * constructor; [simpl; lia|]. constructor; [simpl; lia|].
        eapply Forall_impl; [done|]. simpl. lia.
Qed.

(** ** Lemmas: the whole tree *)

Definition tree_keys (t : BPTree) : list Z := map fst (tree_entries t).

Lemma in_range_all k : in_range None None k.
Proof. done. Qed.

Lemma split_ok_root h n sp :
  split_ok h true None None n sp →
  match sp with
  | None => node_ok h true None None n
  | Some (pk, r) => node_ok (S h) true None None (InnerNode [pk] [n; r])
  end.
Proof.
  destruct sp as [[pk r]|]; [|done]. intros (Hl & Hr & Hop). split_and!; [done..| |];
    unfold BPTREE_MAX_KEYS, BPTREE_ORDER; simpl; lia.
Qed.

Lemma bptree_insert_new t key row :
  bptree_ok t → key ∉ tree_keys t →
  ∃ t', bptree_insert t key row = Ok t' ∧ bptree_ok t' ∧ tree_entries t' = ins key row (tree_entries t).
Proof.
  intros [h Hok] Hnin. unfold bptree_insert, bptree_ok_at, tree_keys, tree_entries in *.
  destruct (root t) as [n|]; simpl in *.
  - destruct Hok as [Hn Hch].
    destruct (insert_recursive_new _ _ _ _ _ _ row (next_addr t) Hn (in_range_all key) Hnin)
      as (n' & sp & fresh' & -> & Hsp & Hent & Hstep).
    apply split_ok_root in Hsp. apply (chain_ok_step _ _ _ _ Hch) in Hstep.
    unfold split_leaves in *. destruct sp as [[pk r]|]; eexists; (split; [done|]); simpl in *.
    + split; [exists (S h); split; [done|]; simpl; by rewrite app_nil_r|].
      rewrite <- Hent. unfold entries. simpl. by rewrite app_nil_r.
    + rewrite app_nil_r in *. split; [by exists h|done].
  - eexists. split; [done|]. simpl. split; [|done]. exists 0%nat. split.
    + repeat constructor; unfold BPTREE_MAX_KEYS, BPTREE_ORDER; simpl; lia.
    + split_and!; [done|apply NoDup_singleton|]. constructor; [simpl; lia|done].
Qed.

Lemma bptree_insert_duplicate t key row :
  bptree_ok t → key ∈ tree_keys t →
  bptree_insert t key row = fail («"duplicate id: "» ++ show_int key).
Proof.
  intros [h Hok] Hin. unfold bptree_insert, bptree_ok_at, tree_keys, tree_entries in *.
  destruct (root t) as [n|]; simpl in *; [|set_solver]. destruct Hok as [Hn _].
  by erewrite insert_recursive_duplicate.
Qed.

Lemma tree_entries_sorted t : bptree_ok t → StronglySorted Z.lt (tree_keys t).
Proof.
  intros [h Hok]. unfold bptree_ok_at, tree_keys, tree_entries in *. destruct (root t); simpl in *; [|constructor].
  destruct Hok as [Hn _]. by apply node_ok_entries in Hn as [? _].
Qed.

Lemma StronglySorted_NoDup (l : list Z) : StronglySorted Z.lt l → NoDup l.
Proof.
  induction 1 as [|x l Hs IH Hx]; constructor; [|done]. intros Hin.
  eapply Forall_forall in Hx; [|done]. lia.
Qed.

Lemma tree_keys_NoDup t : bptree_ok t → NoDup (tree_keys t).
Proof. intros. by apply StronglySorted_NoDup, tree_entries_sorted. Qed.

Lemma to_map_lookup t key row : bptree_ok t → to_map t !! key = Some row ↔ (key, row) ∈ tree_entries t.
Proof. intros Hok. symmetry. apply elem_of_list_to_map. by apply tree_keys_NoDup. Qed.

Lemma to_map_None t key : to_map t !! key = None ↔ key ∉ tree_keys t.
Proof. symmetry. apply not_elem_of_list_to_map. Qed.

Lemma to_map_ins t t' key row :
  bptree_ok t → key ∉ tree_keys t → tree_entries t' = ins key row (tree_entries t) →
  to_map t' = <[key := row]> (to_map t).
Proof.
  intros Hok Hnin Hent. unfold to_map. rewrite Hent, <- list_to_map_cons.
  assert (Hp := ins_Permutation key row (tree_entries t)). symmetry.
  apply list_to_map_proper; [|by rewrite Hp]. simpl. constructor; [done|by apply tree_keys_NoDup].
Qed.

(** ** Lemmas: searching *)

Lemma leaf_lookup_zip (ks rs : list Z) i k r :
  NoDup ks → ks !! i = Some k → rs !! i = Some r ↔ (k, r) ∈ zip ks rs.
Proof.
  intros Hnd Hk. rewrite list_elem_of_lookup. setoid_rewrite lookup_zip_Some. split.
  - intros Hr. by exists i.
  - intros (j & Hj & Hr). by rewrite (NoDup_lookup _ _ _ _ Hnd Hk Hj).
Qed.

Lemma descend_spec h is_root lo hi n key :
  node_ok h is_root lo hi n → in_range lo hi key →
  ∃ l lo' hi' b, descend n key = Some l ∧ leaf_ok b lo' hi' l ∧
    ∀ r, (key, r) ∈ entries n ↔ (key, r) ∈ leaf_entries l.
Proof.
  revert is_root lo hi n. induction h as [|h IH]; intros is_root lo hi [l|ks cs]; simpl; try done.
  - intros Hok _. exists l, lo, hi, is_root. split_and!; [done..|]. intros r. by rewrite entries_leaf.
  - intros [Hcs _] Hkey.
    destruct (children_focus _ _ _ _ _ _ Hcs Hkey) as
      (lo' & hi' & c & ks1 & ks2 & cs1 & cs2 & _ & -> & _ & Hl2 & Hc & Hr & _ & _ & HE).
    destruct (HE entries) as [H1 H2]; [intros; by eapply node_ok_entries|].
    rewrite nth_with_lookup, <- Hl2, list_lookup_middle by done.
    destruct (IH _ _ _ _ Hc Hr) as (l & lo'' & hi'' & b & Hd & Hl & Hiff).
    exists l, lo'', hi'', b. split_and!; [done..|]. intros r. rewrite entries_inner, focus_member by done. apply Hiff.
Qed.

Lemma bptree_search_entries t key row :
  bptree_ok t → bptree_search t key = Some row ↔ (key, row) ∈ tree_entries t.
Proof.
  intros [h Hok]. unfold bptree_search, tree_entries, bptree_ok_at in *.
  destruct (root t) as [n|]; simpl in *; [|by set_solver]. destruct Hok as [Hn _].
  destruct (descend_spec _ _ _ _ _ _ Hn (in_range_all key)) as (l & lo' & hi' & b & -> & Hl & ->).
  destruct Hl as (Hs & _ & Hlen & _). assert (Hnd := StronglySorted_NoDup _ Hs).
  pose proof (bptree_leaf_search_spec _ key Hs) as Hsp.
  pose proof (bptree_leaf_search_found _ key Hs) as Hf.
  destruct (bptree_leaf_search (leaf_keys l) key) as [[] i]; simpl in Hf; unfold leaf_entries.
  - by apply leaf_lookup_zip.
  - split; [done|]. intros Hin%elem_of_zip_l. by apply Hf in Hin.
Qed.

Lemma bptree_search_map t key : bptree_ok t → bptree_search t key = to_map t !! key.
Proof.
  intros Hok. apply option_eq. intros r. rewrite bptree_search_entries, to_map_lookup by done. done.
Qed.

(** ** Lemmas: walking the leaf chain *)

Lemma children_ok_Forall (P : option Z → option Z → BPTreeNode → Prop) lo hi ks cs :
  children_ok P lo hi ks cs → Forall (λ c, ∃ lo' hi', P lo' hi' c) cs.
Proof.
  revert lo cs. induction ks as [|k ks IH]; intros lo [|c cs]; simpl; try done.
  - destruct cs; [|done]. intros H. repeat constructor. eauto.
  - intros (Hc & _ & H). constructor; eauto.
Qed.

Lemma node_ok_leaves h is_root lo hi n :
  node_ok h is_root lo hi n →
  Forall (λ l, length (row_indexes l) = length (leaf_keys l)) (leaves n) ∧
  is_Some (leftmost n) ∧ leftmost n = head (leaves n).
Proof.
  revert is_root lo hi n. induction h as [|h IH]; intros is_root lo hi [l|ks cs]; simpl; try done.
  - intros (_ & _ & Hlen & _). split_and!; [by constructor|done|done].
  - intros [Hcs _]. assert (Hlen := children_ok_length _ _ _ _ _ Hcs).
    apply children_ok_Forall in Hcs. split.
    + clear Hlen. induction Hcs as [|c cs (lo' & hi' & Hc) _ IHcs]; simpl; [done|].
      apply Forall_app. split; [by apply IH in Hc as [? _]|done].
    + destruct cs as [|c cs]; [done|]. inversion_clear Hcs as [|? ? (lo' & hi' & Hc) _]. simpl.
      apply IH in Hc as (_ & [l Hl] & Hh). rewrite Hl in *. split; [done|].
      destruct (leaves c); [done|]. done.
Qed.

Lemma node_keys_leaves h is_root lo hi n :
  node_ok h is_root lo hi n → concat (map leaf_keys (leaves n)) = node_keys n.
Proof.
  intros Hok. apply node_ok_leaves in Hok as [Hall _]. unfold node_keys, entries.
  induction Hall as [|l ls Hl _ IH]; simpl; [done|]. by rewrite map_app, leaf_entries_keys, IH.
Qed.

Lemma copy_keys_app cap w k1 k2 :
  copy_keys cap w (k1 ++ k2) =
    match copy_keys cap w k1 with (true, w') => copy_keys cap w' k2 | other => other end.
Proof. revert w. induction k1 as [|k k1 IH]; intros w; simpl; [done|]. case_match; auto. Qed.

Lemma copy_keys_spec cap w ks :
  Z.of_nat (length w) <= cap →
  copy_keys cap w ks =
    if Z.of_nat (length w + length ks) <=? cap then (true, w ++ ks)
    else (false, w ++ take (Z.to_nat cap - length w) ks).
Proof.
  revert w. induction ks as [|k ks IH]; intros w Hw; simpl.
  - rewrite (proj2 (Z.leb_le _ _)) by lia. by rewrite app_nil_r.
  - destruct (Z.leb_spec cap (Z.of_nat (length w))) as [Hle|Hgt].
    + rewrite (proj2 (Z.leb_gt _ _)) by lia. replace (Z.to_nat cap - length w)%nat with 0%nat by lia.
      by rewrite app_nil_r.
    + rewrite IH by (rewrite length_app; simpl; lia). rewrite !length_app. simpl.
      replace (length w + 1 + length ks)%nat with (length w + S (length ks))%nat by lia.
      replace (Z.to_nat cap - length w)%nat with (S (Z.to_nat cap - (length w + 1)))%nat by lia.
      case_match; by rewrite <- app_assoc.
Qed.

Lemma deref_leaf n i l :
  NoDup (map leaf_addr (leaves n)) → leaves n !! i = Some l → deref n (leaf_addr l) = Some l.
Proof.
  intros Hnd Hi. unfold deref.
  assert (list_find (λ l0, leaf_addr l0 = leaf_addr l) (leaves n) = Some (i, l)) as ->; [|done].
  apply list_find_Some. split_and!; [done..|]. intros j y Hj Hlt Heq.
  assert (j = i); [|lia]. eapply (NoDup_lookup _ _ _ (leaf_addr l) Hnd).
  - rewrite list_lookup_fmap, Hj. simpl. by rewrite Heq.
  - by rewrite list_lookup_fmap, Hi.
Qed.

Lemma collect_chain_spec n cap pre l post w :
  leaves n = pre ++ l :: post → linked (leaves n) → NoDup (map leaf_addr (leaves n)) →
  collect_chain (length (l :: post)) n l cap w =
    Some (copy_keys cap w (concat (map leaf_keys (l :: post)))).
Proof.
  intros Heq Hl Hnd. revert pre l w Heq. induction post as [|l2 post IH]; intros pre l w Heq;
    (assert (Hlink := Hl); rewrite Heq in Hlink; apply linked_suffix in Hlink; simpl in Hlink).
  - simpl. rewrite app_nil_r. destruct (copy_keys cap w (leaf_keys l)) as [[] w']; [|done].
    by destruct Hlink as [-> _].
  - destruct Hlink as [Hn _]. change (length (l :: l2 :: post)) with (S (length (l2 :: post))).
    cbn [collect_chain]. change (map leaf_keys (l :: l2 :: post)) with (leaf_keys l :: map leaf_keys (l2 :: post)).
    cbn [concat]. rewrite copy_keys_app. destruct (copy_keys cap w (leaf_keys l)) as [[] w']; [|done].
    rewrite Hn. simpl fmap. cbn iota.
    rewrite (deref_leaf n (length pre + 1) l2); [|done|].
    + cbn [mbind option_bind]. apply (IH (pre ++ [l])). by rewrite Heq, <- app_assoc.
    + rewrite Heq, lookup_app_r by lia. replace (length pre + 1 - length pre)%nat with 1%nat by lia. done.
Qed.

Lemma bptree_collect_keys_copy t cap :
  bptree_ok t → bptree_collect_keys t cap = Some (copy_keys cap [] (tree_keys t)).
Proof.
  intros [h Hok]. unfold bptree_collect_keys, bptree_ok_at, tree_keys, tree_entries in *.
  destruct (root t) as [n|]; simpl in *; [|done]. destruct Hok as [Hn (Hl & Hnd & _)].
  fold (node_keys n). rewrite <- (node_keys_leaves _ _ _ _ _ Hn).
  destruct (node_ok_leaves _ _ _ _ _ Hn) as (_ & [l Hlm] & Hh). rewrite Hlm in *. simpl.
  destruct (leaves n) as [|l0 post] eqn:E; [done|]. simpl in Hh. simplify_eq.
  rewrite <- E in Hl, Hnd. by apply (collect_chain_spec n cap []).
Qed.

(** ** Lemmas: size and height *)

Lemma concat_length_ge {A B} (f : A → list B) m l :
  Forall (λ x, (m <= length (f x))%nat) l → (length l * m <= length (concat (map f l)))%nat.
Proof. induction 1 as [|x l Hx _ IH]; simpl; [lia|]. rewrite length_app. lia. Qed.

Lemma node_ok_size h is_root lo hi n :
  node_ok h is_root lo hi n →
  ((if is_root then 1 else MIN_LEAF_KEYS * 50 ^ h) <= length (entries n))%nat ∧
  (∀ h', h = S h' → 2 * (MIN_LEAF_KEYS * 50 ^ h') <= length (entries n))%nat.
Proof.
  revert is_root lo hi n. induction h as [|h IH]; intros is_root lo hi [l|ks cs]; cbn [node_ok]; try done.
  - intros (_ & _ & Hlen & Hmin & _). split; [|done]. rewrite entries_leaf. unfold leaf_entries.
    rewrite length_zip_with. destruct is_root; unfold MIN_LEAF_KEYS in *; simpl in *; lia.
  - intros [Hcs [Hmin _]]. assert (Hlen := children_ok_length _ _ _ _ _ Hcs).
    apply children_ok_Forall in Hcs. rewrite entries_inner.
    assert (Hall : Forall (λ c, (MIN_LEAF_KEYS * 50 ^ h <= length (entries c))%nat) cs).
    { eapply Forall_impl; [exact Hcs|]. intros c (lo' & hi' & Hc). by apply IH in Hc as [? _]. }
    apply concat_length_ge in Hall. rewrite Hlen in Hall.
    assert (Hpos : (1 <= 50 ^ h)%nat) by (pose proof (Nat.pow_nonzero 50 h); lia).
    unfold MIN_LEAF_KEYS, MIN_INNER_KEYS in *. split.
    + destruct is_root; [nia|]. rewrite Nat.pow_succ_r'. nia.
    + intros h' [= <-]. destruct is_root; nia.
Qed.

(** The number of inner nodes on the way to the first leaf. *)
Fixpoint height (n : BPTreeNode) : nat :=
  match n with
  | LeafNode _ => 0
  | InnerNode _ children => S (nth_with 0%nat height children 0)
  end.

Definition tree_height (t : BPTree) : nat := from_option height 0%nat (root t).

Lemma node_ok_height h is_root lo hi n : node_ok h is_root lo hi n → h = height n.
Proof.
  revert is_root lo hi n. induction h as [|h IH]; intros is_root lo hi [l|ks cs]; simpl; try done.
  intros [Hcs _]. assert (Hlen := children_ok_length _ _ _ _ _ Hcs).
  apply children_ok_Forall in Hcs. destruct cs as [|c cs]; [done|].
  inversion_clear Hcs as [|? ? (lo' & hi' & Hc) _]. simpl. by rewrite (IH _ _ _ _ Hc).
Qed.

Lemma bptree_ok_height t : bptree_ok t → bptree_ok_at (tree_height t) t.
Proof.
  intros [h Hok]. unfold bptree_ok_at, tree_height in *. destruct (root t); simpl; [|done].
  destruct Hok as [Hn Hch]. by rewrite <- (node_ok_height _ _ _ _ _ Hn).
Qed.

(** ** The tree is a row index *)

Lemma bptree_create_ok : bptree_ok bptree_create.
Proof. by exists 0%nat. Qed.

Lemma bptree_insert_dup_map t k r :
  bptree_ok t → is_Some (to_map t !! k) → bptree_insert t k r = fail («"duplicate id: "» ++ show_int k).
Proof.
  intros Hok [r' Hr]. apply bptree_insert_duplicate; [done|].
  destruct (decide (k ∈ tree_keys t)) as [|Hn]; [done|]. apply to_map_None in Hn. congruence.
Qed.

Lemma bptree_insert_new_map t k r :
  bptree_ok t → to_map t !! k = None →
  ∃ t', bptree_insert t k r = Ok t' ∧ bptree_ok t' ∧ to_map t' = <[k := r]> (to_map t).
Proof.
  intros Hok Hk%to_map_None. destruct (bptree_insert_new t k r Hok Hk) as (t' & ? & ? & Hent).
  exists t'. split_and!; [done..|]. by apply to_map_ins.
Qed.

#[export] Instance BPTree_RowIndex : RowIndex BPTree := {|
  index_empty := bptree_create;
  index_insert := bptree_insert;
  index_search := bptree_search;
  index_ok := bptree_ok;
  index_map := to_map;
  index_empty_ok := bptree_create_ok;
  index_empty_map := eq_refl;
  index_search_map := bptree_search_map;
  index_insert_dup := bptree_insert_dup_map;
  index_insert_new := bptree_insert_new_map
|}.

(** Inserting a list of entries in order, as a table load does. *)
Fixpoint insert_all (l : list (Z * Z)) (t : BPTree) : result SqlError BPTree :=
  match l with
  | [] => Ok t
  | (k, r) :: l' => t' ← bptree_insert t k r; insert_all l' t'
  end.

Lemma insert_all_ok l t t' : bptree_ok t → insert_all l t = Ok t' → bptree_ok t'.
Proof.
  revert t. induction l as [|[k r] l IH]; intros t Hok; simpl; [naive_solver|].
  destruct (bptree_insert t k r) as [t1|] eqn:Hi; simpl; [|done]. apply IH.
  by destruct (@index_insert_Ok BPTree BPTree_RowIndex t t1 k r Hok Hi) as [? _].
Qed.

(** The ids 1, 4, 7, ..., 748 inserted in a scattered order: a tree of height one. *)
Definition sample_entries : list (Z * Z) :=
  map (λ i, (1 + 3 * ((Z.of_nat i * 101) mod 250), Z.of_nat i)) (seq 0 250).
Definition sample_tree : BPTree :=
  match insert_all sample_entries bptree_create with Ok t => t | Err _ => bptree_create end.

Lemma sample_tree_ok : bptree_ok sample_tree.
Proof.
  apply (insert_all_ok sample_entries bptree_create); [apply bptree_create_ok|].
  vm_compute. reflexivity.
Qed.

(** ** Properties *)

(** C3. Insertion refines a finite map.  On a well-formed tree, inserting an id that is present
    fails with "duplicate id: <id>" and inserting a new id always succeeds, gives a well-formed
    tree again (sorted keys, separators that bound their subtrees, all leaves at one depth,
    between half and full occupancy, an unbroken leaf chain) and adds exactly that binding. *)
Theorem bptree_insert_correct t key row_index :
  bptree_ok t →
  match to_map t !! key with
  | Some _ => bptree_insert t key row_index = fail («"duplicate id: "» ++ show_int key)
  | None => ∃ t', bptree_insert t key row_index = Ok t' ∧ bptree_ok t' ∧
                  to_map t' = <[key := row_index]> (to_map t)
  end.
Proof.
  intros Hok. destruct (to_map t !! key) eqn:Hk.
  - apply bptree_insert_dup_map; [done|]. by rewrite Hk.
  - by apply bptree_insert_new_map.
Qed.

Lemma bptree_insert_correct_witness :
  (∃ t', bptree_insert sample_tree 5 250 = Ok t' ∧ bptree_ok t' ∧
         to_map t' = <[5 := 250]> (to_map sample_tree)) ∧
  bptree_insert sample_tree 7 250 = fail («"duplicate id: "» ++ show_int 7).
Proof.
  split.
  - pose proof (bptree_insert_correct sample_tree 5 250 sample_tree_ok) as H.
    rewrite (eq_refl : to_map sample_tree !! 5 = None) in H. exact H.
  - pose proof (bptree_insert_correct sample_tree 7 250 sample_tree_ok) as H.
    assert (Hs : to_map sample_tree !! 7 = Some 52) by (vm_compute; reflexivity).
    rewrite Hs in H. exact H.
Defined.

(** C4. Searching a well-formed tree is looking up the finite map it denotes: the descent
    always reaches a leaf and the binary search in it finds the id exactly when it is stored,
    with the row index stored last for it. *)
Theorem bptree_search_correct t key : bptree_ok t → bptree_search t key = to_map t !! key.
Proof. apply bptree_search_map. Qed.

Lemma bptree_search_correct_witness :
  bptree_search sample_tree 7 = to_map sample_tree !! 7 ∧ to_map sample_tree !! 7 = Some 52.
Proof.
  split; [exact (bptree_search_correct sample_tree 7 sample_tree_ok)|vm_compute; reflexivity].
Defined.

(** The leaf chain is complete and in order: [bptree_collect_keys] terminates on a
    well-formed tree without meeting a dangling pointer, returns 1 with all the keys in strictly
    increasing order when the buffer holds them, and otherwise returns 0 having written the
    smallest [capacity] keys and nothing beyond the buffer. *)
Theorem bptree_collect_keys_correct t capacity :
  bptree_ok t → 0 <= capacity →
  bptree_collect_keys t capacity =
    Some (if Z.of_nat (length (tree_keys t)) <=? capacity then (true, tree_keys t)
          else (false, take (Z.to_nat capacity) (tree_keys t))) ∧
  StronglySorted Z.lt (tree_keys t).
Proof.
  intros Hok Hcap. split; [|by apply tree_entries_sorted].
  rewrite bptree_collect_keys_copy, copy_keys_spec by done. simpl. by rewrite Nat.sub_0_r.
Qed.

Lemma bptree_collect_keys_correct_witness :
  bptree_collect_keys sample_tree 2 =
    Some (if Z.of_nat (length (tree_keys sample_tree)) <=? 2 then (true, tree_keys sample_tree)
          else (false, take (Z.to_nat 2) (tree_keys sample_tree))) ∧
  StronglySorted Z.lt (tree_keys sample_tree).
Proof. apply (bptree_collect_keys_correct sample_tree 2 sample_tree_ok). lia. Defined.

(** The tree is shallow: a well-formed tree of height [h > 0] holds at least [2 * 50 ^ h]
    entries, so the recursion of [bptree_insert_recursive] and the descent of [bptree_search]
    are at most logarithmic in the number of rows. *)
Theorem bptree_height_bound t :
  bptree_ok t → (0 < tree_height t)%nat → (2 * 50 ^ tree_height t <= length (tree_entries t))%nat.
Proof.
  intros Hok%bptree_ok_height. revert Hok. generalize (tree_height t) as h. intros h.
  unfold bptree_ok_at, tree_entries. intros Hok Hh. destruct (root t) as [n|]; simpl; [|lia].
  destruct Hok as [Hn _]. apply node_ok_size in Hn as [_ Hs]. destruct h as [|h]; [lia|].
  specialize (Hs h eq_refl). unfold MIN_LEAF_KEYS in Hs. rewrite Nat.pow_succ_r'. lia.
Qed.

Lemma bptree_height_bound_witness :
  (2 * 50 ^ tree_height sample_tree <= length (tree_entries sample_tree))%nat ∧
  tree_height sample_tree = 1%nat.
Proof.
  split; [|vm_compute; reflexivity].
  apply (bptree_height_bound sample_tree sample_tree_ok). apply Nat.ltb_lt. vm_compute. reflexivity.
Defined.
