(* ===== verification/IndexMemory.v ===== *)
(** * [src/src/index/bptree.c]: the memory of the B+ tree

    Every node is a block; a split requests one for the right half, and the request can fail.  A
    leaf is split before its parent asks for the room to store the new half: when that request
    fails, the insertion has changed the tree, and the right half hangs nowhere ([split_loses_keys]).
    Searching and comparing are as in [BPTree]. *)

From stdpp Require Import base list strings sets.
From Stdlib Require Import Ascii.
From S2P Require Import Prelude CString Common Memory BPTree.

Local Open Scope nat_scope.

Inductive MNode :=
| MLeaf (b : nat) (keys rows : list Z) (next : option nat)
| MInner (b : nat) (keys : list Z) (children : list MNode).

Record MTree := mkMTree { t_block : nat; t_root : option MNode }.

(** Loops over an array that call a function on every element, or on one of them; written as
    nested fixpoints so that recursive functions over trees may pass themselves. *)
Definition each {A} (f : A → M ()) : list A → M () :=
  fix go l := match l with [] => mret () | x :: l' => _ ← f x; go l' end.

Definition modify_nth {A B} (d : B) (f : A → M (B * A)) : list A → nat → M (B * list A) :=
  fix go l i :=
    match l, i with
    | [], _ => mret (d, [])
    | x :: l', 0 => '(r, x') ← f x; mret (r, x' :: l')
    | x :: l', S i' => '(r, l'') ← go l' i'; mret (r, x :: l'')
    end.

(** ** Releasing *)

Fixpoint bptree_node_destroy (n : MNode) : M () :=
  match n with
  | MLeaf b _ _ _ => release b
  | MInner b _ children => _ ← each bptree_node_destroy children; release b
  end.

(** [None] is the NULL that [bptree_destroy] accepts. *)
Definition bptree_destroy (t : option MTree) : M () :=
  match t with
  | None => mret ()
  | Some t =>
      _ ← match t_root t with Some n => bptree_node_destroy n | None => mret () end;
      release (t_block t)
  end.

(** ** Creating and inserting *)

Definition bptree_create_mem : M (option MTree) :=
  p ← malloc;
  mret ((λ b, mkMTree b None) <$> p).

Definition no_node : result SqlError (option (Z * MNode)) := fail «"failed to allocate B+ tree node"».

(** The outcome, with the right half of a split, and the leaf as it is afterwards. *)
Definition bptree_insert_into_leaf_mem (b : nat) (keys rows : list Z) (next : option nat) (key row_index : Z)
    : M (result SqlError (option (Z * MNode)) * MNode) :=
  let '(found, slot) := bptree_leaf_search keys key in
  if found then mret (fail («"duplicate id: "» ++ show_int key), MLeaf b keys rows next)
  else
    let temp_keys := insert_at slot key keys in
    let temp_rows := insert_at slot row_index rows in
    if (length keys <? BPTREE_MAX_KEYS)%nat then mret (Ok None, MLeaf b temp_keys temp_rows next)
    else
      right ← malloc;
      match right with
      | None => mret (no_node, MLeaf b keys rows next)
      | Some r =>
          let split_index := (BPTREE_ORDER / 2)%nat in
          let right_keys := drop split_index temp_keys in
          mret (Ok (Some (default 0%Z (head right_keys), MLeaf r right_keys (drop split_index temp_rows) next)),
                MLeaf b (take split_index temp_keys) (take split_index temp_rows) (Some r))
      end.

Fixpoint bptree_insert_recursive_mem (n : MNode) (key row_index : Z)
    : M (result SqlError (option (Z * MNode)) * MNode) :=
  match n with
  | MLeaf b keys rows next => bptree_insert_into_leaf_mem b keys rows next key row_index
  | MInner b keys children =>
      let child_index := bptree_child_index keys key in
      '(r, children) ← modify_nth (fail []) (λ c, bptree_insert_recursive_mem c key row_index) children child_index;
      match r with
      | Err e => mret (Err e, MInner b keys children)
      | Ok None => mret (Ok None, MInner b keys children)
      | Ok (Some (promoted, split_right)) =>
          let temp_keys := insert_at child_index promoted keys in
          let temp_children := insert_at (S child_index) split_right children in
          if (length keys <? BPTREE_MAX_KEYS)%nat then mret (Ok None, MInner b temp_keys temp_children)
          else
            right ← malloc;
            match right with
            | None => mret (no_node, MInner b keys children)
            | Some r =>
                let split_index := (BPTREE_ORDER / 2)%nat in
                mret (Ok (Some (default 0%Z (temp_keys !! split_index),
                                MInner r (drop (S split_index) temp_keys) (drop (S split_index) temp_children))),
                      MInner b (take split_index temp_keys) (take (S split_index) temp_children))
            end
      end
  end.

Definition bptree_insert_mem (t : MTree) (key row_index : Z) : M (result SqlError () * MTree) :=
  match t_root t with
  | None =>
      p ← malloc;
      match p with
      | None => mret (fail «"failed to allocate B+ tree node"», t)
      | Some b => mret (Ok (), mkMTree (t_block t) (Some (MLeaf b [key] [row_index] None)))
      end
  | Some n =>
      '(r, n) ← bptree_insert_recursive_mem n key row_index;
      let t := mkMTree (t_block t) (Some n) in
      match r with
      | Err e => mret (Err e, t)
      | Ok None => mret (Ok (), t)
      | Ok (Some (promoted_key, split_right)) =>
          p ← malloc;
          match p with
          | None => mret (fail «"failed to allocate B+ tree node"», t)
          | Some b => mret (Ok (), mkMTree (t_block t) (Some (MInner b [promoted_key] [n; split_right])))
          end
      end
  end.

(** ** Specification *)

Fixpoint node_blocks (n : MNode) : list nat :=
  match n with
  | MLeaf b _ _ _ => [b]
  | MInner b _ children => b :: (children ≫= node_blocks)
  end.

Definition tree_blocks (t : MTree) : list nat := t_block t :: match t_root t with Some n => node_blocks n | None => [] end.

(** A tree without its addresses: what searching and inserting depend on. *)
Fixpoint node_shape (n : BPTreeNode) : BPTreeNode :=
  match n with
  | LeafNode l => LeafNode (mkLeaf 0 (leaf_keys l) (row_indexes l) None)
  | InnerNode keys children => InnerNode keys (map node_shape children)
  end.

Fixpoint mem_shape (n : MNode) : BPTreeNode :=
  match n with
  | MLeaf _ keys rows _ => LeafNode (mkLeaf 0 keys rows None)
  | MInner _ keys children => InnerNode keys (map mem_shape children)
  end.

Definition same_tree (m : MTree) (t : BPTree) : Prop := mem_shape <$> t_root m = node_shape <$> root t.

(** Induction that reaches the children. *)
Fixpoint MNode_children_ind (P : MNode → Prop)
    (Hleaf : ∀ b keys rows next, P (MLeaf b keys rows next))
    (Hinner : ∀ b keys children, Forall P children → P (MInner b keys children)) (n : MNode) : P n :=
  match n with
  | MLeaf b keys rows next => Hleaf b keys rows next
  | MInner b keys children =>
      Hinner b keys children
        ((fix go l : Forall P l :=
            match l with
            | [] => Forall_nil_2 P
            | x :: l' => Forall_cons_2 P x l' (MNode_children_ind P Hleaf Hinner x) (go l')
            end) children)
  end.

(** ** Lemmas: blocks of the children *)

Lemma insert_at_blocks i n children : (insert_at i n children ≫= node_blocks) ≡ₚ node_blocks n ++ (children ≫= node_blocks).
Proof. rewrite insert_at_Permutation. done. Qed.

Lemma split_blocks k children : (take k children ≫= node_blocks) ++ (drop k children ≫= node_blocks) = children ≫= node_blocks.
Proof. by rewrite <- bind_app, take_drop. Qed.

(** ** Lemmas: releasing *)

Lemma triple_node_destroy n : triple (node_blocks n) (bptree_node_destroy n) (λ _, []) (λ _, True) (λ _, True).
Proof.
  induction n as [b keys rows next|b keys children IH] using MNode_children_ind; simpl; [apply triple_release|].
  eapply (triple_seq [b] _ _ _ (children ≫= node_blocks) (λ _, []) _ (λ _, True) (λ _, True)); [|solve_Permutation|].
  - induction IH as [|c children Hc _ IHc]; simpl; [by apply triple_ret|].
    call Hc with (children ≫= node_blocks). eapply triple_conseq; [exact IHc|done|auto].
  - intros [] _. eapply triple_conseq; [apply triple_release|done|auto].
Qed.

Lemma triple_bptree_destroy t :
  triple (match t with Some t => tree_blocks t | None => [] end) (bptree_destroy t) (λ _, []) (λ _, True) (λ _, True).
Proof.
  destruct t as [[b [n|]]|]; unfold tree_blocks; simpl; [| |by apply triple_ret].
  - call triple_node_destroy with [b]. eapply triple_conseq; [apply triple_release|done|auto].
  - eapply (triple_seq [b] _ _ _ [] (λ _, []) _ (λ _, True) (λ _, True)); [by apply triple_ret|done|]. intros [] _.
    eapply triple_conseq; [apply triple_release|done|auto].
Qed.

(** ** Lemmas: inserting *)

Lemma modify_nth_lookup {A B} (d : B) (f : A → M (B * A)) l i x m :
  l !! i = Some x → modify_nth d f l i m = ('(r, x') ← f x; mret (r, <[i := x']> l)) m.
Proof.
  revert i. induction l as [|y l IH]; intros [|i] Hi; simplify_eq/=.
  - unfold mbind, M_bind. by destruct (f x m) as [[r x'] m'].
  - specialize (IH i Hi). unfold mbind, M_bind in *. rewrite IH. by destruct (f x m) as [[r x'] m'].
Qed.

Lemma modify_nth_outside {A B} (d : B) (f : A → M (B * A)) l i m :
  l !! i = None → modify_nth d f l i m = ((d, l), m).
Proof.
  revert i. induction l as [|y l IH]; intros [|i] Hi; simplify_eq/=; [done..|].
  specialize (IH i Hi). unfold mbind, M_bind in *. by rewrite IH.
Qed.

Lemma map_insert_at {A B} (f : A → B) i x l : map f (insert_at i x l) = insert_at i (f x) (map f l).
Proof. unfold insert_at. by rewrite map_app, firstn_map, skipn_map. Qed.

Lemma map_insert {A B} (f : A → B) i x l : map f (<[i := x]> l) = <[i := f x]> (map f l).
Proof. exact (list_fmap_insert f l i x). Qed.

(** What became of the node [n] and of [leak] when inserting ended with [r] and [n']. *)
Definition insert_outcome (n n' : MNode) (key row_index : Z) (r : result SqlError (option (Z * MNode))) (leak : list nat) : Prop :=
  match r with
  | Ok sp => leak = [] ∧ ∀ n0 fresh, node_shape n0 = mem_shape n → ∃ n0' sp0 fresh',
      bptree_insert_recursive n0 key row_index fresh = Ok (n0', sp0, fresh') ∧ node_shape n0' = mem_shape n' ∧
      prod_map id node_shape <$> sp0 = prod_map id mem_shape <$> sp
  | Err e => (n' = n ∧ leak = []) ∨ (Err e = no_node ∧ leak ≠ [])
  end.

Definition insert_fails (n n' : MNode) (key row_index : Z) (r : result SqlError (option (Z * MNode))) (leak : list nat) : Prop :=
  match r with
  | Ok _ => True
  | Err e => n' = n ∧ leak = [] ∧
      ∀ n0 fresh, node_shape n0 = mem_shape n → bptree_insert_recursive n0 key row_index fresh = Err e
  end.

(** What a node and the right half of a split hold. *)
Definition split_blocks_of (r : result SqlError (option (Z * MNode))) : list nat :=
  match r with Ok (Some (_, n)) => node_blocks n | _ => [] end.

Lemma node_blocks_nonempty n : node_blocks n ≠ [].
Proof. by destruct n. Qed.

Lemma leaks_insert_into_leaf b keys rows next key row_index :
  leaks [b] (bptree_insert_into_leaf_mem b keys rows next key row_index)
    (λ '(r, n'), node_blocks n' ++ split_blocks_of r)
    (λ '(r, n') leak, insert_outcome (MLeaf b keys rows next) n' key row_index r leak)
    (λ '(r, n') leak, insert_fails (MLeaf b keys rows next) n' key row_index r leak).
Proof.
  assert (Hleaf : ∀ n0, node_shape n0 = mem_shape (MLeaf b keys rows next) →
    ∃ l, n0 = LeafNode l ∧ leaf_keys l = keys ∧ row_indexes l = rows).
  { intros [l|] Hn; simplify_eq/=. eauto. }
  unfold bptree_insert_into_leaf_mem. destruct (bptree_leaf_search keys key) as [found slot] eqn:Hs. destruct found.
  { apply (leaks_ret _ _ _ []); simpl; [done|by left|]. split_and!; try done. intros n0 fresh Hn.
    destruct (Hleaf n0 Hn) as (l & -> & Hk & Hr). simpl. unfold bptree_insert_into_leaf. by rewrite Hk, Hs. }
  destruct (length keys <? BPTREE_MAX_KEYS) eqn:Hroom.
  { apply (leaks_ret _ _ _ []); simpl; [done| |done]. split; [done|]. intros n0 fresh Hn.
    destruct (Hleaf n0 Hn) as (l & -> & Hk & Hr). simpl. unfold bptree_insert_into_leaf. rewrite Hk, Hr, Hs, Hroom. by do 3 eexists. }
  call triple_acquire with [b] as [r|] _.
  - apply (leaks_ret _ _ _ []); simpl; [solve_Permutation| |done]. split; [done|]. intros n0 fresh Hn.
    destruct (Hleaf n0 Hn) as (l & -> & Hk & Hr). simpl. unfold bptree_insert_into_leaf. rewrite Hk, Hr, Hs, Hroom. by do 3 eexists.
  - apply (leaks_ret _ _ _ []); simpl; [done|by left|naive_solver].
Qed.

Lemma leaks_modify_nth {B} (d : B) (f : MNode → M (B * MNode)) l i x (post : B → list nat) Q R :
  l !! i = Some x → leaks (node_blocks x) (f x) (λ '(r, x'), node_blocks x' ++ post r) Q R →
  leaks (l ≫= node_blocks) (modify_nth d f l i) (λ '(r, l'), (l' ≫= node_blocks) ++ post r)
    (λ '(r, l') leak, ∃ x', l' = <[i := x']> l ∧ Q (r, x') leak)
    (λ '(r, l') leak, ∀ x', l' = <[i := x']> l → R (r, x') leak).
Proof.
  intros Hi Hf. destruct (bind_insert node_blocks _ _ _ Hi) as (F & HF & HF').
  eapply leaks_ext; [intros m; by apply modify_nth_lookup|].
  eapply (leaks_seq F); [exact Hf|exact HF|]. intros [r x'] leak HQ.
  apply (leaks_ret _ _ _ []); simpl.
  - rewrite HF'. solve_Permutation.
  - rewrite (right_id_L [] (++)). eauto.
  - rewrite (right_id_L [] (++)). intros HR x'' Heq.
    assert (Hx : <[i := x'']> l !! i = Some x') by (rewrite <- Heq; apply list_lookup_insert_eq; by eapply lookup_lt_Some).
    rewrite list_lookup_insert_eq in Hx by (by eapply lookup_lt_Some). by simplify_eq.
Qed.

(** The child of a node that the pure function takes. *)
Lemma child_shape cs children i c :
  map node_shape cs = map mem_shape children → children !! i = Some c →
  ∃ c0, cs !! i = Some c0 ∧ node_shape c0 = mem_shape c.
Proof.
  intros Hcs Hi. assert (Hm : map mem_shape children !! i = Some (mem_shape c)) by exact (list_lookup_fmap_Some_2 _ _ _ _ Hi).
  rewrite <- Hcs in Hm. apply list_lookup_fmap_Some in Hm as (c0 & Hc & Hc0). eauto.
Qed.

Lemma leaks_insert_recursive n key row_index :
  leaks (node_blocks n) (bptree_insert_recursive_mem n key row_index)
    (λ '(r, n'), node_blocks n' ++ split_blocks_of r)
    (λ '(r, n') leak, insert_outcome n n' key row_index r leak)
    (λ '(r, n') leak, insert_fails n n' key row_index r leak).
Proof.
  induction n as [b keys rows next|b keys children IH] using MNode_children_ind; [apply leaks_insert_into_leaf|].
  assert (Hinner : ∀ n0, node_shape n0 = mem_shape (MInner b keys children) →
    ∃ cs, n0 = InnerNode keys cs ∧ map node_shape cs = map mem_shape children).
  { intros [l|ks cs] Hn; simplify_eq/=. eauto. }
  simpl. set (ci := bptree_child_index keys key). destruct (children !! ci) as [c|] eqn:Hc.
  2: { eapply leaks_ext.
       { intros m. unfold mbind at 1, M_bind. rewrite modify_nth_outside by done. instantiate (1 := mret _). reflexivity. }
       apply (leaks_ret _ _ _ []); simpl; [solve_Permutation|by left|]. split_and!; try done.
       intros n0 fresh Hn. destruct (Hinner n0 Hn) as (cs & -> & Hcs). simpl. fold ci. rewrite nth_with_lookup.
       assert (Hnone : cs !! ci = None); [|by rewrite Hnone].
       apply lookup_ge_None. apply lookup_ge_None in Hc. rewrite <- (length_map mem_shape), <- Hcs, length_map in Hc. done. }
  eapply (leaks_seq [b]); [apply (leaks_modify_nth _ _ _ _ c split_blocks_of); [done|by eapply (Forall_lookup_1 _ _ _ _ IH)]|solve_Permutation|].
  clear IH. intros [r children'] leak (c' & -> & Hr). simpl.
  assert (Hsame : <[ci := c]> children = children) by (by apply list_insert_id).
  destruct r as [[[promoted right]|]|e]; simpl in *.
  - destruct Hr as [-> Hpure].
    assert (Hstore : ∀ n0 fresh, node_shape n0 = mem_shape (MInner b keys children) → ∃ cs sr fresh',
      bptree_insert_recursive n0 key row_index fresh =
        Ok ((insert_split keys cs ci promoted sr).1, (insert_split keys cs ci promoted sr).2, fresh') ∧
      map node_shape (insert_at (S ci) sr cs) = map mem_shape (insert_at (S ci) right (<[ci := c']> children))).
    { intros n0 fresh Hn. destruct (Hinner n0 Hn) as (cs & -> & Hcs). destruct (child_shape _ _ _ _ Hcs Hc) as (c0 & Hc0 & Hsh).
      destruct (Hpure c0 fresh Hsh) as (c0' & sp0 & fresh' & Hins & Hsh' & Hsp). destruct sp0 as [[p0 sr]|]; [|done].
      simplify_eq/=. fold ci. rewrite nth_with_lookup, Hc0, Hins. exists (<[ci := c0']> cs), sr, fresh'. split.
      - by destruct (insert_split keys (<[ci := c0']> cs) ci promoted sr).
      - rewrite !map_insert_at, !map_insert, Hcs, Hsh'. by f_equal. }
    destruct (length keys <? BPTREE_MAX_KEYS) eqn:Hroom;
      [|call triple_acquire with (node_blocks right ++ b :: (<[ci := c']> children ≫= node_blocks)) as [rb|] _].
    + apply (leaks_ret _ _ _ []); simpl; [rewrite insert_at_blocks; solve_Permutation| |done]. split; [done|]. intros n0 fresh Hn.
      destruct (Hstore n0 fresh Hn) as (cs & sr & fresh' & -> & Hcs). do 3 eexists. split; [done|].
      unfold insert_split. rewrite Hroom. simpl. by rewrite Hcs.
    + pose proof (insert_at_blocks (S ci) right (<[ci := c']> children)) as Hb.
      rewrite <- (split_blocks (S (BPTREE_ORDER / 2))) in Hb.
      apply (leaks_ret _ _ _ []); cbn [ptr option_list split_blocks_of node_blocks app]; [| |done].
      * transitivity (rb :: b :: node_blocks right ++ (<[ci := c']> children ≫= node_blocks)); [solve_Permutation|].
        rewrite <- Hb. solve_Permutation.
      * split; [done|]. intros n0 fresh Hn. destruct (Hstore n0 fresh Hn) as (cs & sr & fresh' & -> & Hcs). do 3 eexists. split; [done|].
        unfold insert_split. rewrite Hroom. cbn [fst snd node_shape mem_shape fmap option_fmap option_map prod_map].
        split; [by rewrite <- !firstn_map, Hcs|]. unfold prod_map. simpl. by rewrite <- !skipn_map, Hcs.
    + apply (leaks_ret _ _ _ (node_blocks right)); simpl; [solve_Permutation| |naive_solver].
      right. split; [done|apply node_blocks_nonempty].
  - destruct Hr as [-> Hpure]. apply (leaks_ret _ _ _ []); simpl; [solve_Permutation| |done]. split; [done|].
    intros n0 fresh Hn. destruct (Hinner n0 Hn) as (cs & -> & Hcs). destruct (child_shape _ _ _ _ Hcs Hc) as (c0 & Hc0 & Hsh).
    destruct (Hpure c0 fresh Hsh) as (c0' & sp0 & fresh' & Hins & Hsh' & Hsp). simpl. fold ci. rewrite nth_with_lookup, Hc0, Hins.
    destruct sp0; [done|]. do 3 eexists. split_and!; [done| |done]. simpl. by rewrite !map_insert, Hcs, Hsh'.
  - apply (leaks_ret _ _ _ []); simpl; [solve_Permutation| |].
    + rewrite (right_id_L [] (++)). destruct Hr as [[-> ->]|?]; [left|by right]. by rewrite Hsame.
    + rewrite (right_id_L [] (++)). intros HR. destruct (HR c' eq_refl) as (-> & -> & Hpure). split_and!; [by rewrite Hsame|done|].
      intros n0 fresh Hn. destruct (Hinner n0 Hn) as (cs & -> & Hcs). destruct (child_shape _ _ _ _ Hcs Hc) as (c0 & Hc0 & Hsh).
      simpl. fold ci. by rewrite nth_with_lookup, Hc0, (Hpure c0 fresh Hsh).
Qed.

Lemma leaks_bptree_insert t key row_index :
  leaks (tree_blocks t) (bptree_insert_mem t key row_index) (λ '(_, t'), tree_blocks t')
    (λ '(r, t') leak,
       match r with
       | Ok _ => leak = [] ∧ ∀ t0, same_tree t t0 → ∃ t0', bptree_insert t0 key row_index = Ok t0' ∧ same_tree t' t0'
       | Err e => (t' = t ∧ leak = []) ∨ (Err (A := ()) e = fail «"failed to allocate B+ tree node"» ∧ leak ≠ [])
       end)
    (λ '(r, t') leak,
       match r with
       | Ok _ => True
       | Err e => t' = t ∧ leak = [] ∧ ∀ t0, same_tree t t0 → bptree_insert t0 key row_index = Err e
       end).
Proof.
  destruct t as [tb [n|]]; unfold bptree_insert_mem, tree_blocks, same_tree, bptree_insert; cbn [t_root t_block].
  2: { call triple_acquire with [tb] as [b|] _.
       - apply (leaks_ret _ _ _ []); simpl; [solve_Permutation| |done]. split; [done|]. intros [[n0|] fresh] Ht; [done|]. by eexists.
       - apply (leaks_ret _ _ _ []); simpl; [done|by left|naive_solver]. }
  assert (Hroot : ∀ t0, Some (mem_shape n) = node_shape <$> root t0 → ∃ n0, root t0 = Some n0 ∧ node_shape n0 = mem_shape n).
  { intros [[n0|] fresh] Ht; simplify_eq/=. eauto. }
  eapply (leaks_seq [tb]); [apply leaks_insert_recursive|solve_Permutation|]. intros [r n'] leak Hr.
  destruct r as [[[k right]|]|e]; simpl in *.
  - destruct Hr as [-> Hpure]. call triple_acquire with (tb :: node_blocks n' ++ node_blocks right) as [b|] _.
    + apply (leaks_ret _ _ _ []); simpl; [solve_Permutation| |done]. split; [done|]. intros t0 Ht.
      destruct (Hroot t0 Ht) as (n0 & -> & Hn0). destruct (Hpure n0 (next_addr t0) Hn0) as (n0' & sp0 & fresh' & -> & Hsh & Hsp).
      destruct sp0 as [[k0 sr]|]; [|done]. injection Hsp as Hk Hright. unfold id in Hk. subst k0.
      eexists. split; [done|]. simpl. by rewrite Hsh, Hright.
    + apply (leaks_ret _ _ _ (node_blocks right)); simpl; [solve_Permutation| |naive_solver].
      right. split; [done|apply node_blocks_nonempty].
  - destruct Hr as [-> Hpure]. apply (leaks_ret _ _ _ []); simpl; [solve_Permutation| |done]. split; [done|]. intros t0 Ht.
    destruct (Hroot t0 Ht) as (n0 & -> & Hn0). destruct (Hpure n0 (next_addr t0) Hn0) as (n0' & sp0 & fresh' & -> & Hsh & Hsp).
    destruct sp0; [done|]. eexists. split; [done|]. simpl. by rewrite Hsh.
  - apply (leaks_ret _ _ _ []); simpl; [solve_Permutation| |]; rewrite (right_id_L [] (++)).
    + destruct Hr as [[-> ->]|[? ?]]; [by left|right]. split; [|done]. unfold no_node, fail in *. naive_solver.
    + intros (-> & -> & Hpure). split_and!; [done..|]. intros t0 Ht. destruct (Hroot t0 Ht) as (n0 & -> & Hn0).
      by rewrite (Hpure n0 (next_addr t0) Hn0).
Qed.

(** Searching does not depend on the addresses. *)
Lemma same_tree_search m t key t' : same_tree m t → same_tree m t' → bptree_search t key = bptree_search t' key.
Proof.
  assert (Hd : ∀ n n', node_shape n = node_shape n' → ∀ k,
    (λ l, (leaf_keys l, row_indexes l)) <$> descend n k = (λ l, (leaf_keys l, row_indexes l)) <$> descend n' k).
  { fix IH 1. intros [l|keys children] [l'|keys' children'] Hn k; simplify_eq/=; [congruence|].
    revert children' H. generalize (bptree_child_index keys' k). induction children as [|c children IHc]; intros i [|c' children'] Hc; simplify_eq/=; [done|].
    destruct i as [|i]; simpl; [by apply IH|by apply IHc]. }
  unfold same_tree, bptree_search. intros -> Ht. destruct (root t) as [n|], (root t') as [n'|]; simplify_eq/=; [|done].
  specialize (Hd n n' Ht key). destruct (descend n key), (descend n' key); simplify_eq/=; [|done]. rewrite H. by rewrite H0.
Qed.

(** ** Examples *)

(** A tree with one full leaf. *)
Definition full_tree : MTree :=
  mkMTree 0 (Some (MLeaf 1 (Z.of_nat <$> seq 1 99) (Z.of_nat <$> seq 0 99) None)).

Definition search_mem (t : MTree) (key : Z) : option Z := bptree_search (mkBPTree (mem_shape <$> t_root t) 0) key.

(** The leaf is split, then the request for a new root fails: the call returns 0, and the upper half
    of the keys, which were there before, is gone from the tree and its block is lost. *)
Lemma split_loses_keys :
  let '((r, t), m) := bptree_insert_mem full_tree 100 99 (mkMem [0; 1] 2 [true; false] false) in
  is_ok r = false ∧ search_mem full_tree 99 = Some 98%Z ∧ search_mem t 99 = None ∧
  held (bptree_destroy (Some t) m).2 = [2].
Proof. vm_compute. done. Qed.
