(* ===== verification/Schema.v ===== *)
(** * [src/src/storage/schema.c]: schema files

    A schema file is a list of [key=value] lines.  [load_schema] folds over the lines; the
    in-place edits of the text buffer ([*separator = '\0'], trimming) become functions on
    strings.  [columns] is [NULL] in C exactly when no column is stored, the empty list here. *)

From stdpp Require Import base list strings sets gmap.
From Stdlib Require Import Ascii.
From S2P Require Import Prelude CString Common.

(** ** Data *)

Inductive ColumnType := COLUMN_TYPE_INT | COLUMN_TYPE_FLOAT | COLUMN_TYPE_STRING.

#[export] Instance ColumnType_eq_dec : EqDecision ColumnType.
Proof. solve_decision. Defined.

Record ColumnDef := mkColumnDef { col_name : cstr; col_type : ColumnType }.

Record Schema := mkSchema {
  schema_table_name : cstr;
  columns : list ColumnDef;
  primary_key : option cstr;
  primary_key_index : Z;
  autoincrement : bool
}.

Definition column_count (s : Schema) : nat := length (columns s).

(** ** Pieces of the text *)

(** The pieces between the occurrences of [c]. *)
Fixpoint split_on (c : ascii) (s : cstr) : list cstr :=
  match s with
  | [] => [[]]
  | x :: s' =>
      if Ascii.eqb x c then [] :: split_on c s'
      else match split_on c s' with
           | [] => [[x]]
           | p :: ps => (x :: p) :: ps
           end
  end.

(** The tokens of successive [strtok(text, "\n")] calls: the non-empty pieces. *)
Definition strtok_lines (text : cstr) : list cstr :=
  List.filter (λ l, negb (Nat.eqb (length l) 0)) (split_on LF text).

(** ** Parsing *)

Definition parse_column_type (type_name : cstr) : result SqlError ColumnType :=
  if bool_decide (type_name = «"int"») then Ok COLUMN_TYPE_INT
  else if bool_decide (type_name = «"float"») then Ok COLUMN_TYPE_FLOAT
  else if bool_decide (type_name = «"string"») then Ok COLUMN_TYPE_STRING
  else fail («"unsupported column type: "» ++ type_name).

(** One [name:type] entry. *)
Definition parse_column (piece : cstr) : result SqlError ColumnDef :=
  let entry := trim piece in
  match split_at ":" entry with
  | None => fail («"invalid column definition: "» ++ entry)
  | Some (before, after) =>
      ty ← parse_column_type (trim after);
      Ok (mkColumnDef (trim before) ty)
  end.

(** The loop over the comma-separated entries; it stops when the rest of the text is empty. *)
Fixpoint parse_column_list (pieces : list cstr) : result SqlError (list ColumnDef) :=
  match pieces with
  | [] => Ok []
  | [[]] => Ok []
  | piece :: pieces' =>
      c ← parse_column piece;
      cs ← parse_column_list pieces';
      Ok (c :: cs)
  end.

Definition parse_columns (value : cstr) : result SqlError (list ColumnDef) :=
  parse_column_list (split_on "," value).

(** The index of the first column with this name. *)
Fixpoint find_column (cols : list ColumnDef) (name : cstr) : option nat :=
  match cols with
  | [] => None
  | c :: cols' =>
      if bool_decide (col_name c = name) then Some 0%nat else S <$> find_column cols' name
  end.

(** The search for the primary key after each line; a name that is not found leaves the
    index as it was. *)
Definition update_primary_key_index (s : Schema) : Schema :=
  match primary_key s with
  | None => s
  | Some pk =>
      match find_column (columns s) pk with
      | None => s
      | Some i => mkSchema (schema_table_name s) (columns s) (primary_key s) (Z.of_nat i) (autoincrement s)
      end
  end.

(** One [key=value] assignment. *)
Definition schema_assign (s : Schema) (key value : cstr) : result SqlError Schema :=
  if bool_decide (key = «"table"») then
    Ok (mkSchema value (columns s) (primary_key s) (primary_key_index s) (autoincrement s))
  else if bool_decide (key = «"columns"») then
    cols ← parse_columns value;
    Ok (mkSchema (schema_table_name s) cols (primary_key s) (primary_key_index s) (autoincrement s))
  else if bool_decide (key = «"pkey"») then
    Ok (mkSchema (schema_table_name s) (columns s) (Some value) (primary_key_index s) (autoincrement s))
  else if bool_decide (key = «"autoincrement"») then
    Ok (mkSchema (schema_table_name s) (columns s) (primary_key s) (primary_key_index s)
                 (bool_decide (value = «"true"»)))
  else Ok s.

(** One iteration of the line loop.  The text is freed before the error message is formatted
    from it, so the message holds whatever the freed block contains. *)
Definition schema_line (w : World) (s : Schema) (l : cstr) : result SqlError Schema :=
  let trimmed_line := trim l in
  match trimmed_line with
  | [] => Ok s
  | _ =>
      match split_at "=" trimmed_line with
      | None => fail («"invalid schema line: "» ++ freed w trimmed_line)
      | Some (before, after) =>
          s' ← schema_assign s (trim before) (trim after);
          Ok (update_primary_key_index s')
      end
  end.

Fixpoint schema_lines (w : World) (s : Schema) (ls : list cstr) : result SqlError Schema :=
  match ls with
  | [] => Ok s
  | l :: ls' => s' ← schema_line w s l; schema_lines w s' ls'
  end.

Definition schema_path (db_root table_name : cstr) : cstr :=
  bounded SQL_PATH_BUFFER_SIZE (db_root ++ «"/schema/"» ++ table_name ++ «".schema"»).

Definition load_schema (w : World) (db_root table_name : cstr) : result SqlError Schema :=
  let s0 := mkSchema table_name [] None (-1)%Z false in
  text ← sql_read_text_file w (schema_path db_root table_name);
  s ← schema_lines w s0 (strtok_lines text);
  if Nat.eqb (column_count s) 0 then fail «"schema has no columns"» else Ok s.

(** ** Specification *)

(** A schema a table can be used with: the primary key index, when set, names the column. *)
Definition schema_ok (s : Schema) : Prop :=
  columns s ≠ [] ∧
  (primary_key_index s = (-1)%Z ∨
   ∃ c, (0 <= primary_key_index s)%Z ∧ columns s !! Z.to_nat (primary_key_index s) = Some c).

(** The key of a line, as the loop reads it. *)
Definition line_key (l : cstr) : option cstr :=
  match split_at "=" (trim l) with None => None | Some (before, _) => Some (trim before) end.

(** The text of a schema file that denotes [s]. *)
Definition column_type_name (t : ColumnType) : cstr :=
  match t with
  | COLUMN_TYPE_INT => «"int"»
  | COLUMN_TYPE_FLOAT => «"float"»
  | COLUMN_TYPE_STRING => «"string"»
  end.

Definition print_column (c : ColumnDef) : cstr := col_name c ++ ":"%char :: column_type_name (col_type c).

Fixpoint join (sep : ascii) (l : list cstr) : cstr :=
  match l with
  | [] => []
  | [x] => x
  | x :: l' => x ++ sep :: join sep l'
  end.

Definition assignment (key value : cstr) : cstr := key ++ "="%char :: value.

Definition schema_file_lines (s : Schema) : list cstr :=
  [assignment «"table"» (schema_table_name s);
   assignment «"columns"» (join "," (map print_column (columns s)));
   assignment «"pkey"» (default [] (primary_key s));
   assignment «"autoincrement"» (if autoincrement s then «"true"» else «"false"»)].

Definition print_schema (s : Schema) : cstr := concat (map (λ l, l ++ [LF]) (schema_file_lines s)).

(** Names that survive the file format. *)
Definition plain_name (n : cstr) : Prop :=
  n ≠ [] ∧ trimmed n ∧ LF ∉ n ∧ NUL ∉ n ∧ ","%char ∉ n ∧ ":"%char ∉ n ∧ "="%char ∉ n.

Definition printable_schema (s : Schema) : Prop :=
  plain_name (schema_table_name s) ∧ columns s ≠ [] ∧
  Forall (λ c, plain_name (col_name c)) (columns s) ∧
  ∃ pk i, primary_key s = Some pk ∧ plain_name pk ∧
    find_column (columns s) pk = Some i ∧ primary_key_index s = Z.of_nat i.

(** ** Lemmas: splitting and joining *)

Lemma split_on_nonempty c s : split_on c s ≠ [].
Proof. destruct s; simpl; repeat case_match; done. Qed.

Lemma split_on_none c s : c ∉ s → split_on c s = [s].
Proof.
  induction s as [|x s IH]; intros Hs; simpl; [done|].
  rewrite (proj2 (ascii_eqb_neq x c)) by set_solver. by rewrite IH by set_solver.
Qed.

Lemma split_on_app c l r : c ∉ l → split_on c (l ++ c :: r) = l :: split_on c r.
Proof.
  induction l as [|x l IH]; intros Hl; simpl; [by rewrite (proj2 (ascii_eqb_eq c c))|].
  rewrite (proj2 (ascii_eqb_neq x c)) by set_solver. by rewrite IH by set_solver.
Qed.

Lemma split_on_join c l : l ≠ [] → Forall (λ x, c ∉ x) l → split_on c (join c l) = l.
Proof.
  intros Hne Hl. induction Hl as [|x l Hx Hl IH]; [done|]. destruct l as [|y l].
  - by apply split_on_none.
  - change (join c (x :: y :: l)) with (x ++ c :: join c (y :: l)).
    rewrite split_on_app by done. by rewrite IH.
Qed.

Lemma trimmed_app l1 l2 : l1 ≠ [] → l2 ≠ [] → isspace (peek l1) = false → trimmed l2 → trimmed (l1 ++ l2).
Proof.
  intros H1 H2 Hp [_ Hl]. split.
  - destruct l1; [done|]. simpl in *. naive_solver.
  - intros c Hc. apply Hl. rewrite last_app in Hc. destruct (last l2) as [d|] eqn:E; [done|].
    by apply last_None in E.
Qed.

Lemma trimmed_peek s : s ≠ [] → trimmed s → isspace (peek s) = false.
Proof. intros Hne [Hh _]. destruct s; [done|]. by apply Hh. Qed.

Lemma trimmed_join c l :
  isspace c = false → l ≠ [] → Forall (λ x, x ≠ [] ∧ trimmed x) l → trimmed (join c l) ∧ join c l ≠ [].
Proof.
  intros Hc Hne Hl. induction Hl as [|x l [Hx Ht] Hl IH]; [done|]. destruct l as [|y l]; [done|].
  change (join c (x :: y :: l)) with (x ++ c :: join c (y :: l)).
  destruct IH as [IHt IHn]; [done|]. split; [|by destruct x].
  apply trimmed_app; [done|done|by apply trimmed_peek|].
  apply (trimmed_app [c]); done.
Qed.

(** ** Lemmas: reading back a printed schema *)

Lemma parse_print_column c : plain_name (col_name c) → parse_column (print_column c) = Ok c.
Proof.
  intros (Hne & Ht & _ & _ & _ & Hcolon & _). unfold parse_column, print_column.
  assert (Hty : column_type_name (col_type c) ≠ [] ∧ trimmed (column_type_name (col_type c)))
    by (destruct (col_type c); (split; [done|]; split; intros ? [= <-]; done)).
  destruct Hty as [Hty1 Hty2].
  rewrite trim_id by (apply trimmed_app; [done|done|by apply trimmed_peek|by apply (trimmed_app [":"%char])]).
  rewrite split_at_app by done. rewrite !trim_id by done. destruct c as [n []]; done.
Qed.

Lemma parse_print_columns cols :
  Forall (λ c, plain_name (col_name c)) cols → parse_column_list (map print_column cols) = Ok cols.
Proof.
  induction 1 as [|c cols Hc _ IH]; [done|]. cbn [map parse_column_list].
  assert (Hpc := parse_print_column c Hc). destruct (print_column c) as [|x p] eqn:E.
  { unfold print_column in E. by apply app_nil in E as [_ ?]. }
  rewrite Hpc. simpl. by rewrite IH.
Qed.

Lemma print_column_plain c :
  plain_name (col_name c) →
  ","%char ∉ print_column c ∧ LF ∉ print_column c ∧ NUL ∉ print_column c ∧
  print_column c ≠ [] ∧ trimmed (print_column c).
Proof.
  intros (Hne & Ht & Hlf & Hnul & Hcomma & _). unfold print_column.
  assert (Hty : ","%char ∉ column_type_name (col_type c) ∧ LF ∉ column_type_name (col_type c) ∧
    NUL ∉ column_type_name (col_type c) ∧ column_type_name (col_type c) ≠ [] ∧ trimmed (column_type_name (col_type c))).
  { destruct (col_type c); (split_and!; [apply (bool_decide_unpack _); done..|]; split; intros ? [= <-]; done). }
  destruct Hty as (H1 & H2 & H3 & H4 & H5). rewrite !not_elem_of_app, !not_elem_of_cons.
  split_and!; try done.
  - by destruct (col_name c).
  - apply trimmed_app; [done|done|by apply trimmed_peek|by apply (trimmed_app [":"%char])].
Qed.

Lemma elem_of_join c x l : x ∈ join c l → x = c ∨ ∃ y, y ∈ l ∧ x ∈ y.
Proof.
  induction l as [|y l IH]; [set_solver|]. destruct l as [|z l].
  - intros H. right. exists y. split; [left|done].
  - change (join c (y :: z :: l)) with (y ++ c :: join c (z :: l)).
    rewrite elem_of_app, elem_of_cons. intros [H|[->|H]]; [set_solver|by left|].
    apply IH in H as [->|(u & Hu & Hx)]; [by left|]. right. exists u. split; [by right|done].
Qed.

(** A [key=value] line with a trimmed value assigns it. *)
Lemma schema_line_assign w s key value :
  key ≠ [] → trimmed key → "="%char ∉ key → value ≠ [] → trimmed value →
  schema_line w s (assignment key value) =
    s' ← schema_assign s key value; Ok (update_primary_key_index s').
Proof.
  intros Hk Htk Heq Hv Htv. unfold schema_line, assignment.
  rewrite trim_id by (apply trimmed_app; [done|done|by apply trimmed_peek|by apply (trimmed_app ["="%char])]).
  rewrite split_at_app by done. rewrite !trim_id by done. by destruct key.
Qed.

Lemma strtok_lines_concat ls :
  Forall (λ l, l ≠ [] ∧ LF ∉ l) ls → strtok_lines (concat (map (λ l, l ++ [LF]) ls)) = ls.
Proof.
  unfold strtok_lines. induction 1 as [|l ls [Hne Hl] _ IH]; [done|]. cbn [map concat].
  rewrite <- app_assoc. cbn [app]. rewrite split_on_app by done.
  destruct l as [|c l]; [done|]. cbn [List.filter length Nat.eqb negb]. by rewrite IH.
Qed.

(** What the lines of a printable schema are made of. *)
Lemma printable_parts s :
  printable_schema s →
  let cs := join "," (map print_column (columns s)) in
  (trimmed cs ∧ cs ≠ []) ∧ (LF ∉ cs ∧ NUL ∉ cs) ∧ parse_columns cs = Ok (columns s).
Proof.
  intros (_ & Hne & Hcols & _). cbn zeta. assert (Hne' : map print_column (columns s) ≠ []) by (by destruct (columns s)).
  split_and!.
  1-2: apply trimmed_join; [done|done|]; apply Forall_map; eapply Forall_impl; [done|];
    intros c Hc%print_column_plain; tauto.
  1-2: rewrite Forall_forall in Hcols; intros [?|(y & (c & -> & Hc)%list_elem_of_fmap & Hx)]%elem_of_join;
    [done|]; apply Hcols, print_column_plain in Hc; tauto.
  unfold parse_columns. rewrite split_on_join; [by apply parse_print_columns|done|].
  apply Forall_map. eapply Forall_impl; [done|]. intros c Hc%print_column_plain; tauto.
Qed.

Definition bool_text (b : bool) : cstr := if b then «"true"» else «"false"».

Lemma bool_text_plain b : bool_text b ≠ [] ∧ trimmed (bool_text b) ∧ LF ∉ bool_text b ∧ NUL ∉ bool_text b.
Proof.
  destruct b; (split_and!; [done|split; intros ? [= <-]; done|apply (bool_decide_unpack _); done..]).
Qed.

Lemma not_elem_of_assignment c key value :
  c ∉ key → c ≠ "="%char → c ∉ value → c ∉ assignment key value.
Proof. unfold assignment. rewrite not_elem_of_app, not_elem_of_cons. done. Qed.

Lemma print_schema_text s :
  printable_schema s →
  NUL ∉ print_schema s ∧ Forall (λ l, l ≠ [] ∧ LF ∉ l) (schema_file_lines s).
Proof.
  intros Hs. destruct (printable_parts s Hs) as (_ & [Hc1 Hc2] & _).
  destruct Hs as ((_ & _ & Htl & Htn & _) & _ & _ & pk & i & Hpk & (_ & _ & Hpl & Hpn & _) & _).
  destruct (bool_text_plain (autoincrement s)) as (_ & _ & Hb1 & Hb2).
  unfold print_schema, schema_file_lines. rewrite Hpk. simpl default. fold (bool_text (autoincrement s)). split.
  - cbn [map concat]. rewrite !not_elem_of_app.
    split_and!; try (apply not_elem_of_assignment; [apply (bool_decide_unpack _); done|done|done]);
      apply (bool_decide_unpack _); done.
  - repeat constructor; try done; (apply not_elem_of_assignment; [apply (bool_decide_unpack _); done|done|done]).
Qed.

Lemma load_print_schema_lines w s name :
  printable_schema s →
  schema_lines w (mkSchema name [] None (-1) false) (schema_file_lines s) = Ok s.
Proof.
  intros Hs. destruct (printable_parts s Hs) as ([Hct Hcn] & _ & Hcols).
  destruct Hs as ((Htn & Htt & _) & _ & _ & pk & i & Hpk & (Hpn & Hpt & _) & Hfind & Hidx).
  destruct (bool_text_plain (autoincrement s)) as (Hbn & Hbt & _).
  unfold schema_file_lines. rewrite Hpk. simpl default. fold (bool_text (autoincrement s)).
  assert (Hkeys : Forall (λ k, k ≠ [] ∧ trimmed k ∧ "="%char ∉ k)
    [«"table"»; «"columns"»; «"pkey"»; «"autoincrement"»]).
  { repeat constructor; first [done|intros ? [= <-]; done|apply (bool_decide_unpack _); done]. }
  apply Forall_cons in Hkeys as [(? & ? & ?) Hkeys]. apply Forall_cons in Hkeys as [(? & ? & ?) Hkeys].
  apply Forall_cons in Hkeys as [(? & ? & ?) Hkeys]. apply Forall_cons in Hkeys as [(? & ? & ?) _].
  cbn [schema_lines]. rewrite schema_line_assign by done. simpl.
  rewrite schema_line_assign by done. unfold schema_assign at 1. simpl. rewrite Hcols. simpl.
  rewrite schema_line_assign by done. unfold schema_assign at 1. simpl.
  unfold update_primary_key_index at 1. simpl. rewrite Hfind. simpl.
  rewrite schema_line_assign by done. unfold schema_assign at 1. simpl.
  unfold update_primary_key_index at 1. simpl. rewrite Hfind. simpl.
  destruct s as [tn cs pk' pi ai]. simpl in *. subst. f_equal. by destruct ai.
Qed.

(** Only the freed blocks of the world matter once the text is read. *)
Lemma schema_lines_freed w w' s ls : freed w = freed w' → schema_lines w s ls = schema_lines w' s ls.
Proof.
  intros Hf. revert s. induction ls as [|l ls IH]; intros s; [done|]. cbn [schema_lines].
  replace (schema_line w s l) with (schema_line w' s l) by (unfold schema_line; by rewrite Hf).
  destruct (schema_line w' s l); simpl; [apply IH|done].
Qed.

(** ** Lemmas: the primary key index *)

Definition index_in_range (s : Schema) : Prop :=
  primary_key_index s = (-1)%Z ∨
  ∃ c, (0 <= primary_key_index s)%Z ∧ columns s !! Z.to_nat (primary_key_index s) = Some c.

Definition is_columns_line (l : cstr) : bool := bool_decide (line_key l = Some «"columns"»).

Lemma find_column_Some cols name i :
  find_column cols name = Some i → ∃ c, cols !! i = Some c ∧ col_name c = name.
Proof.
  revert i. induction cols as [|c cols IH]; intros i; simpl; [done|]. case_bool_decide; [naive_solver|].
  destruct (find_column cols name) as [j|]; simpl; [|done]. intros [= <-]. by apply IH.
Qed.

Lemma update_in_range s : index_in_range s → index_in_range (update_primary_key_index s).
Proof.
  intros Hs. unfold update_primary_key_index. destruct (primary_key s) as [pk|]; [|done].
  destruct (find_column (columns s) pk) as [i|] eqn:Hf; [|done]. right. simpl.
  apply find_column_Some in Hf as (d & Hd & _). exists d. by rewrite Nat2Z.id; split; [lia|].
Qed.

Lemma update_no_columns s : columns s = [] → update_primary_key_index s = s.
Proof. intros Hs. unfold update_primary_key_index. rewrite Hs. by destruct (primary_key s). Qed.

Lemma update_columns s : columns (update_primary_key_index s) = columns s.
Proof. unfold update_primary_key_index. by repeat case_match. Qed.

(** A line that is not a [columns] line keeps the columns; any line keeps the stored index
    until it looks the key up again. *)
Lemma schema_line_cases w s l s' :
  schema_line w s l = Ok s' →
  (is_columns_line l = false ∧ columns s' = columns s ∧ (index_in_range s → index_in_range s') ∧
     (columns s = [] → primary_key_index s' = primary_key_index s)) ∨
  (is_columns_line l = true ∧ (primary_key_index s = (-1)%Z → index_in_range s')).
Proof.
  unfold schema_line, is_columns_line, line_key. destruct (trim l) as [|x t] eqn:Ht.
  { intros [= <-]. left. by rewrite bool_decide_eq_false_2. }
  destruct (split_at "=" (x :: t)) as [[before after]|]; [|done].
  destruct (schema_assign s (trim before) (trim after)) as [s1|] eqn:Ha; simpl; [|done].
  intros [= <-]. unfold schema_assign in Ha. generalize dependent (trim before). intros key Ha.
  destruct (decide (key = «"columns"»)) as [->|Hk].
  - right. split; [by apply bool_decide_eq_true|]. intros Hi. apply update_in_range. left.
    cbn in Ha. destruct (parse_columns (trim after)); simpl in Ha; [|done]. by simplify_eq.
  - left. split; [apply bool_decide_eq_false; congruence|]. rewrite update_columns.
    rewrite (bool_decide_eq_false_2 (key = «"columns"»)) in Ha by done.
    repeat case_bool_decide; simplify_eq; (split; [done|]); (split;
      [intros Hin; apply update_in_range; exact Hin|intros Hc; by rewrite update_no_columns]).
Qed.

Lemma schema_lines_in_range w s ls s' :
  schema_lines w s ls = Ok s' → index_in_range s →
  length (List.filter is_columns_line ls) = 0%nat ∨
    ((length (List.filter is_columns_line ls) <= 1)%nat ∧ columns s = [] ∧ primary_key_index s = (-1)%Z) →
  index_in_range s'.
Proof.
  revert s. induction ls as [|l ls IH]; intros s; simpl; [by intros [= ->]|].
  destruct (schema_line w s l) as [s1|] eqn:Hl; simpl; [|done].
  intros Hls Hs Hcnt. apply schema_line_cases in Hl as [(Hk & Hc & Hr & He)|[Hk Hr]];
    rewrite Hk in Hcnt; simpl in Hcnt.
  - apply (IH s1 Hls); [auto|]. destruct Hcnt as [?|(? & Hc0 & Hi)]; [by left|]. right.
    split_and!; [done|by rewrite Hc|]. by rewrite He.
  - destruct Hcnt as [?|(? & Hc0 & Hi)]; [done|]. apply (IH s1 Hls); [auto|]. left. lia.
Qed.

(** The schema file, if there is one, has at most one [columns] line. *)
Definition single_columns_line (w : World) (db_root table_name : cstr) : Prop :=
  ∀ content, files w !! schema_path db_root table_name = Some content →
    (length (List.filter is_columns_line (strtok_lines (c_string content))) <= 1)%nat.

Lemma load_schema_schema_ok w db_root table_name s :
  single_columns_line w db_root table_name → load_schema w db_root table_name = Ok s → schema_ok s.
Proof.
  intros Hcnt. unfold load_schema, sql_read_text_file. destruct (files w !! _) as [content|] eqn:Hf; simpl; [|done].
  specialize (Hcnt content Hf).
  destruct (schema_lines _ _ _) as [s'|] eqn:Hl; simpl; [|done].
  destruct (Nat.eqb_spec (column_count s') 0) as [|Hc]; [done|]. intros [= <-].
  apply schema_lines_in_range in Hl; [|by left|by right].
  split; [|done]. intros He. apply Hc. unfold column_count. by rewrite He.
Qed.

(** ** Properties *)

(** C38. Schema files round-trip.  Take a schema whose table and column names are not empty, have
    no white space at either end and none of the characters the file format uses (comma, colon,
    equals sign, newline, NUL), with at least one column, and a primary key that names a
    column, whose index is the one recorded, the first of that name.  Loading the text that lists
    its table name, columns, primary key and autoincrement flag gives back exactly that schema,
    primary key index included. *)
Theorem load_schema_roundtrip w db_root table_name s :
  printable_schema s → files w !! schema_path db_root table_name = Some (print_schema s) →
  load_schema w db_root table_name = Ok s.
Proof.
  intros Hs Hf. destruct (print_schema_text s Hs) as [Hnul Hlines].
  unfold load_schema, sql_read_text_file. rewrite Hf. simpl. rewrite c_string_id by done.
  unfold print_schema. rewrite strtok_lines_concat by done. rewrite load_print_schema_lines by done. simpl.
  destruct Hs as (_ & Hne & _). unfold column_count. by destruct (columns s).
Qed.

Definition users_schema : Schema :=
  mkSchema «"users"»
    [mkColumnDef «"id"» COLUMN_TYPE_INT; mkColumnDef «"name"» COLUMN_TYPE_STRING;
     mkColumnDef «"age"» COLUMN_TYPE_INT]
    (Some «"id"») 0 true.

Lemma plain_name_dec_ok n :
  bool_decide (n ≠ [] ∧ LF ∉ n ∧ NUL ∉ n ∧ ","%char ∉ n ∧ ":"%char ∉ n ∧ "="%char ∉ n ∧ trim n = n) = true →
  plain_name n.
Proof.
  rewrite bool_decide_eq_true. intros (? & ? & ? & ? & ? & ? & Ht).
  split_and!; try done. rewrite <- Ht. apply trim_trimmed.
Qed.

Lemma users_schema_printable : printable_schema users_schema.
Proof.
  split_and!; [by apply plain_name_dec_ok|done|repeat constructor; by apply plain_name_dec_ok|].
  exists «"id"», 0%nat. split_and!; [done|by apply plain_name_dec_ok|done..].
Qed.

Definition schema_world (text : cstr) : World :=
  mkWorld {[ schema_path «"data"» «"users"» := text ]} (λ _, true) id stream_works.

Lemma load_schema_roundtrip_witness :
  load_schema (schema_world (print_schema users_schema)) «"data"» «"users"» = Ok users_schema.
Proof. apply load_schema_roundtrip; [apply users_schema_printable|reflexivity]. Defined.

(** A schema loaded from a file with at most one [columns] line can be indexed safely: it
    has a column, and the primary key index is either [-1] or the position of a column. *)
Theorem load_schema_in_range w db_root table_name content s :
  files w !! schema_path db_root table_name = Some content →
  (length (List.filter is_columns_line (strtok_lines (c_string content))) <= 1)%nat →
  load_schema w db_root table_name = Ok s → schema_ok s.
Proof. intros. eapply load_schema_schema_ok; [|done]. intros ? ?. by simplify_eq. Qed.

Lemma load_schema_in_range_witness : schema_ok users_schema.
Proof.
  apply (load_schema_in_range (schema_world (print_schema users_schema)) «"data"» «"users"»
    (print_schema users_schema)); [reflexivity|apply Nat.leb_le; reflexivity|reflexivity].
Defined.

(** With two [columns] lines the index can go stale: the loader accepts the file and
    returns a primary key index past the last column, which the table loader then uses to read
    a field of every row. *)
Theorem load_schema_stale_index :
  ∃ text s,
    load_schema (schema_world text) «"data"» «"users"» = Ok s ∧
    (Z.of_nat (column_count s) <= primary_key_index s)%Z.
Proof.
  exists (concat (map (λ l, l ++ [LF]) [«"columns=a:int,b:int"»; «"pkey=b"»; «"columns=a:int"»])).
  eexists. split; [vm_compute; reflexivity|]. vm_compute. done.
Qed.
