(* ===== verification/SchemaMemory.v ===== *)
(** * [src/src/storage/schema.c]: the memory of a schema

    [load_schema] again, with the memory it takes: the text of the file, the names, the array of
    columns.  Any request can fail.  What the characters say is as in [Schema].

    Whatever the file and whatever fails, nothing is given back twice; what stays held is the
    schema, and nothing else if the file is [tidy].  Three kinds of file are not: with a second
    [columns] line, with a second [pkey] line, or with a malformed column after a good one
    ([schema_leaks]). *)

From stdpp Require Import base list strings sets gmap.
From Stdlib Require Import Ascii.
From S2P Require Import Prelude CString Common Memory Schema.

Record MColumn := mkMColumn { c_name : ostr; c_type : ColumnType }.

(** [column_count] is the length of [s_columns]. *)
Record MSchema := mkMSchema {
  s_table : option ostr;
  s_array : option nat;
  s_columns : list MColumn;
  s_key : option ostr;
  s_key_index : Z;
  s_auto : bool
}.

Definition column_def (c : MColumn) : ColumnDef := mkColumnDef (text (c_name c)) (c_type c).

Definition free_schema (s : MSchema) : M MSchema :=
  _ ← free_values (map c_name (s_columns s));
  _ ← free (s_array s);
  _ ← free_str (s_table s);
  _ ← free_str (s_key s);
  mret (mkMSchema None None [] None (-1) (s_auto s)).

(** One entry of [parse_columns]: the array and the columns so far.  The message of a failed copy of
    a name is set only if the error record is empty, as it is taken to be here. *)
Definition parse_column_mem (piece : cstr) (array : option nat) (cols : list MColumn)
    : M (result SqlError (option nat * list MColumn)) :=
  let entry := trim piece in
  match split_at ":" entry with
  | None => _ ← free array; mret (fail («"invalid column definition: "» ++ entry))
  | Some (before, after) =>
      next_columns ← realloc array;
      match next_columns with
      | None =>
          _ ← free_values (map c_name cols);
          _ ← free array;
          mret (fail «"failed to allocate schema columns"»)
      | Some a =>
          n ← sql_strdup (trim before);
          match n with
          | None =>
              _ ← free_values (map c_name cols);
              _ ← free (Some a);
              mret (fail «"failed to allocate schema column"»)
          | Some n =>
              match parse_column_type (trim after) with
              | Err e =>
                  _ ← free_str (Some n);
                  _ ← free_values (map c_name cols);
                  _ ← free (Some a);
                  mret (Err e)
              | Ok ty => mret (Ok (Some a, cols ++ [mkMColumn n ty]))
              end
          end
      end
  end.

(** The loop over the entries. *)
Fixpoint parse_column_list_mem (pieces : list cstr) (array : option nat) (cols : list MColumn)
    : M (result SqlError (option nat * list MColumn)) :=
  match pieces with
  | [] => mret (Ok (array, cols))
  | [[]] => mret (Ok (array, cols))
  | piece :: pieces' =>
      r ← parse_column_mem piece array cols;
      match r with
      | Err e => mret (Err e)
      | Ok (array, cols) => parse_column_list_mem pieces' array cols
      end
  end.

Definition parse_columns_mem (value : cstr) : M (result SqlError (option nat * list MColumn)) :=
  parse_column_list_mem (split_on "," value) None [].

(** The search for the primary key: only when both are there. *)
Definition update_key_index (s : MSchema) : MSchema :=
  match s_key s with
  | None => s
  | Some pk =>
      match find_column (map column_def (s_columns s)) (text pk) with
      | None => s
      | Some i => mkMSchema (s_table s) (s_array s) (s_columns s) (s_key s) (Z.of_nat i) (s_auto s)
      end
  end.

(** One assignment.  What the fields pointed to before is overwritten; only the table name is
    given back first. *)
Definition schema_assign_mem (s : MSchema) (key value : cstr) : M (result SqlError () * MSchema) :=
  if bool_decide (key = «"table"») then
    _ ← free_str (s_table s);
    t ← sql_strdup value;
    let s := mkMSchema t (s_array s) (s_columns s) (s_key s) (s_key_index s) (s_auto s) in
    match t with
    | None => mret (fail «"failed to allocate schema table name"», s)
    | Some _ => mret (Ok (), s)
    end
  else if bool_decide (key = «"columns"») then
    r ← parse_columns_mem value;
    match r with
    | Err e => mret (Err e, s)
    | Ok (array, cols) => mret (Ok (), mkMSchema (s_table s) array cols (s_key s) (s_key_index s) (s_auto s))
    end
  else if bool_decide (key = «"pkey"») then
    k ← sql_strdup value;
    let s := mkMSchema (s_table s) (s_array s) (s_columns s) k (s_key_index s) (s_auto s) in
    match k with
    | None => mret (fail «"failed to allocate primary key"», s)
    | Some _ => mret (Ok (), s)
    end
  else if bool_decide (key = «"autoincrement"») then
    mret (Ok (), mkMSchema (s_table s) (s_array s) (s_columns s) (s_key s) (s_key_index s) (bool_decide (value = «"true"»)))
  else mret (Ok (), s).

(** The loop over the lines; [txt] is the block of the text.  It gives everything back when a line
    is rejected. *)
Fixpoint schema_lines_mem (w : World) (txt : nat) (s : MSchema) (ls : list cstr) : M (result SqlError () * MSchema) :=
  match ls with
  | [] => mret (Ok (), s)
  | l :: ls' =>
      let trimmed_line := trim l in
      match trimmed_line with
      | [] => schema_lines_mem w txt s ls'
      | _ =>
          match split_at "=" trimmed_line with
          | None =>
              _ ← free (Some txt);
              s ← free_schema s;
              mret (fail («"invalid schema line: "» ++ freed w trimmed_line), s)
          | Some (before, after) =>
              '(r, s) ← schema_assign_mem s (trim before) (trim after);
              match r with
              | Err e => _ ← free (Some txt); s ← free_schema s; mret (Err e, s)
              | Ok _ => schema_lines_mem w txt (update_key_index s) ls'
              end
          end
      end
  end.

Definition load_schema_mem (w : World) (db_root table_name : cstr) : M (result SqlError () * MSchema) :=
  t ← sql_strdup table_name;
  let s := mkMSchema t None [] None (-1) false in
  match t with
  | None => mret (fail «"failed to allocate schema table name"», s)
  | Some _ =>
      r ← sql_read_text_file_mem w (schema_path db_root table_name);
      match r with
      | Err e => s ← free_schema s; mret (Err e, s)
      | Ok txt =>
          '(r, s) ← schema_lines_mem w (block txt) s (strtok_lines (text txt));
          match r with
          | Err e => mret (Err e, s)
          | Ok _ =>
              _ ← free (Some (block txt));
              if Nat.eqb (length (s_columns s)) 0 then
                s ← free_schema s; mret (fail «"schema has no columns"», s)
              else mret (Ok (), s)
          end
      end
  end.

(** ** Specification *)

Definition column_blocks (array : option nat) (cols : list MColumn) : list nat := ptr array ++ map block (map c_name cols).

Definition schema_blocks (s : MSchema) : list nat :=
  column_blocks (s_array s) (s_columns s) ++ strs (s_table s) ++ strs (s_key s).

Definition schema_of (s : MSchema) : Schema :=
  mkSchema (default [] (text <$> s_table s)) (map column_def (s_columns s)) (text <$> s_key s) (s_key_index s) (s_auto s).

(** Every entry of a [columns] line has its colon. *)
Fixpoint tidy_columns (pieces : list cstr) : Prop :=
  match pieces with
  | [] => True
  | [[]] => True
  | piece :: pieces' => split_at ":" (trim piece) ≠ None ∧ tidy_columns pieces'
  end.

(** What a line assigns. *)
Definition line_assigns (l : cstr) : option (cstr * cstr) :=
  match trim l with [] => None | t => match split_at "=" t with Some (b, a) => Some (trim b, trim a) | None => None end end.

(** At most one line assigns [key]. *)
Definition assigned_once (key : cstr) (ls : list cstr) : Prop :=
  length (filter (λ kv, kv.1 = key) (omap line_assigns ls)) ≤ 1.

Definition tidy (ls : list cstr) : Prop :=
  assigned_once «"columns"» ls ∧ assigned_once «"pkey"» ls ∧
  Forall (λ kv, kv.1 = «"columns"» → tidy_columns (split_on "," kv.2)) (omap line_assigns ls).

(** ** Lemmas *)

Lemma triple_free_schema s :
  triple (schema_blocks s) (free_schema s) schema_blocks (λ s', schema_blocks s' = []) (λ _, True).
Proof.
  unfold free_schema, schema_blocks, column_blocks.
  call triple_free_values with (ptr (s_array s) ++ strs (s_table s) ++ strs (s_key s)).
  call triple_free with (strs (s_table s) ++ strs (s_key s)).
  call triple_free_str with (strs (s_key s)). call triple_free_str with (@nil nat). finish.
Qed.

(** The loops on an entry that is not an empty rest. *)
Lemma column_list_steps piece pieces :
  ¬ (piece = [] ∧ pieces = []) →
  parse_column_list (piece :: pieces) =
    (c ← parse_column piece; cs ← parse_column_list pieces; Ok (c :: cs)) ∧
  (∀ array cols, parse_column_list_mem (piece :: pieces) array cols =
    (r ← parse_column_mem piece array cols;
     match r with Err e => mret (Err e) | Ok (a, cs) => parse_column_list_mem pieces a cs end)) ∧
  (tidy_columns (piece :: pieces) ↔ split_at ":" (trim piece) ≠ None ∧ tidy_columns pieces).
Proof. by destruct piece, pieces; naive_solver. Qed.

Lemma leaks_parse_column piece array cols :
  leaks (column_blocks array cols) (parse_column_mem piece array cols)
    (λ r, match r with Ok (a, cs) => column_blocks a cs | Err _ => [] end)
    (λ r leak, (split_at ":" (trim piece) ≠ None → leak = []) ∧
       match r with
       | Ok (_, cs) => leak = [] ∧ ∃ d, parse_column piece = Ok d ∧ map column_def cs = map column_def cols ++ [d]
       | Err _ => True
       end)
    (λ r _, match r with Err e => parse_column piece = Err e | Ok _ => True end).
Proof.
  unfold parse_column_mem, parse_column, column_blocks. set (names := map block (map c_name cols)).
  destruct (split_at ":" (trim piece)) as [[before after]|].
  2: { call triple_free with names. by apply (leaks_ret _ _ _ names). }
  call triple_realloc with names as [a|] _.
  2: { call triple_free_values with (ptr array). call triple_free with (@nil nat).
       apply (leaks_ret _ _ _ []); naive_solver. }
  call triple_strdup with (a :: names) as [n|] Hn.
  2: { call triple_free_values with [a]. call triple_release with (@nil nat).
       apply (leaks_ret _ _ _ []); naive_solver. }
  destruct (parse_column_type (trim after)) as [ty|e]; simpl.
  - apply (leaks_ret _ _ _ []); simpl; [|split_and!; [done|done|]|done].
    + rewrite !map_app. simpl. fold names. solve_Permutation.
    + eexists. split; [done|]. rewrite map_app. simpl. unfold column_def at 2. simpl. by rewrite (Hn n).
  - call triple_release with (a :: names). call triple_free_values with [a]. call triple_release with (@nil nat).
    by apply (leaks_ret _ _ _ []).
Qed.

Lemma leaks_parse_columns pieces array cols :
  leaks (column_blocks array cols) (parse_column_list_mem pieces array cols)
    (λ r, match r with Ok (a, cs) => column_blocks a cs | Err _ => [] end)
    (λ r leak, (tidy_columns pieces → leak = []) ∧
       match r with
       | Ok (_, cs) => leak = [] ∧ ∃ ds, parse_column_list pieces = Ok ds ∧ map column_def cs = map column_def cols ++ ds
       | Err _ => True
       end)
    (λ r _, match r with Err e => parse_column_list pieces = Err e | Ok _ => True end).
Proof.
  assert (Hend : ∀ pieces array cols, parse_column_list pieces = Ok [] →
    leaks (column_blocks array cols) (mret (Ok (array, cols)) : M (result SqlError _))
      (λ r, match r with Ok (a, cs) => column_blocks a cs | Err _ => [] end)
      (λ r leak, (tidy_columns pieces → leak = []) ∧
         match r with
         | Ok (_, cs) => leak = [] ∧ ∃ ds, parse_column_list pieces = Ok ds ∧ map column_def cs = map column_def cols ++ ds
         | Err _ => True
         end)
      (λ r _, match r with Err e => parse_column_list pieces = Err e | Ok _ => True end)).
  { intros ps a cs Hps. apply (leaks_ret _ _ _ []); simpl; [by rewrite (right_id_L [] (++))| |done].
    split_and!; [done|done|]. exists []. by rewrite (right_id_L [] (++)). }
  revert array cols. induction pieces as [|piece pieces IH]; intros array cols; [by apply Hend|].
  destruct (decide (piece = [] ∧ pieces = [])) as [[-> ->]|Hne]; [by apply Hend|].
  destruct (column_list_steps piece pieces Hne) as (Hpure & Hmem & Htidy). rewrite Hpure, Hmem.
  eapply (leaks_seq []); [apply leaks_parse_column|by rewrite (right_id_L [] (++))|].
  intros [[a cs]|e] l1 [Hl1 Hr]; simpl.
  - destruct Hr as (-> & d & -> & Hcs). simpl. eapply leaks_conseq; [apply IH|by rewrite (right_id_L [] (++))|].
    intros [[a' cs']|e] l2 [Hl2 Hr2]; simpl.
    + destruct Hr2 as (-> & ds & -> & Hcs'). split_and!; try done. eexists. split; [done|]. rewrite Hcs', Hcs.
      by rewrite <- (assoc_L (++)).
    + split_and!; try done; [|by intros -> _]. intros Ht. apply Hl2. naive_solver.
  - apply (leaks_ret _ _ _ []); simpl; [done| |by intros ->]. rewrite (right_id_L [] (++)). naive_solver.
Qed.

(** [schema_assign_mem] agrees with [schema_assign], and overwrites nothing in a tidy file. *)
Lemma leaks_schema_assign s key value :
  is_Some (s_table s) →
  leaks (schema_blocks s) (schema_assign_mem s key value) (λ '(_, s'), schema_blocks s')
    (λ '(r, s') leak,
       ((key = «"columns"» → s_array s = None ∧ s_columns s = [] ∧ tidy_columns (split_on "," value)) →
        (key = «"pkey"» → s_key s = None) → leak = []) ∧
       match r with
       | Ok _ => is_Some (s_table s') ∧ schema_assign (schema_of s) key value = Ok (schema_of s') ∧
                 (key ≠ «"columns"» → s_array s' = s_array s ∧ s_columns s' = s_columns s) ∧
                 (key ≠ «"pkey"» → s_key s' = s_key s)
       | Err _ => True
       end)
    (λ '(r, _) _, match r with Err e => schema_assign (schema_of s) key value = Err e | Ok _ => True end).
Proof.
  intros [t Ht]. unfold schema_assign_mem, schema_assign, schema_blocks.
  destruct (bool_decide_reflect (key = «"table"»)) as [->|_].
  { call triple_free_str with (column_blocks (s_array s) (s_columns s) ++ strs (s_key s)).
    call triple_strdup with (column_blocks (s_array s) (s_columns s) ++ strs (s_key s)) as [n|] Hn.
    - apply (leaks_ret _ _ _ []); simpl; [solve_Permutation| |done]. split_and!; try done.
      unfold schema_of. simpl. by rewrite (Hn n).
    - apply (leaks_ret _ _ _ []); simpl; [solve_Permutation|done|naive_solver]. }
  destruct (bool_decide_reflect (key = «"columns"»)) as [->|Hc].
  { eapply (leaks_seq (schema_blocks s) _ _ _ (column_blocks None [])); [apply leaks_parse_columns|done|].
    intros [[a cs]|e] l1 [Hl1 Hr]; simpl; unfold parse_columns.
    - destruct Hr as (-> & ds & -> & Hcs). simpl in Hcs. subst ds.
      apply (leaks_ret _ _ _ (column_blocks (s_array s) (s_columns s))); simpl; [unfold schema_blocks; solve_Permutation| |done].
      split; [|by split_and!]. intros Hcols _. destruct (Hcols eq_refl) as (-> & -> & _). done.
    - apply (leaks_ret _ _ _ []); simpl; [unfold schema_blocks; solve_Permutation| |by intros ->]. rewrite (right_id_L [] (++)). naive_solver. }
  destruct (bool_decide_reflect (key = «"pkey"»)) as [->|Hp].
  { call triple_strdup with (column_blocks (s_array s) (s_columns s) ++ strs (s_table s) ++ strs (s_key s)) as [n|] Hn.
    - apply (leaks_ret _ _ _ (strs (s_key s))); simpl; [solve_Permutation| |done].
      split; [|split_and!; try done; unfold schema_of; simpl; by rewrite (Hn n)].
      intros _ Hk. by rewrite (Hk eq_refl).
    - apply (leaks_ret _ _ _ (strs (s_key s))); simpl; [solve_Permutation| |naive_solver].
      split; [|done]. intros _ Hk. by rewrite (Hk eq_refl). }
  destruct (bool_decide (key = «"autoincrement"»)); apply (leaks_ret _ _ _ []); simpl; try done;
    try solve_Permutation; split_and!; done.
Qed.

Lemma update_key_index_spec s :
  schema_of (update_key_index s) = update_primary_key_index (schema_of s) ∧
  schema_blocks (update_key_index s) = schema_blocks s ∧
  s_table (update_key_index s) = s_table s ∧ s_array (update_key_index s) = s_array s ∧
  s_columns (update_key_index s) = s_columns s ∧ s_key (update_key_index s) = s_key s.
Proof.
  destruct s as [t a cs [k|] i au]; [|done]. unfold update_key_index, update_primary_key_index, schema_of. simpl.
  by destruct (find_column _ _).
Qed.

(** The rest of a file is tidy, for a schema that has been read so far. *)
Definition unassigned (key : cstr) (ls : list cstr) : Prop := Forall (λ kv, kv.1 ≠ key) (omap line_assigns ls).

Definition tidy_from (s : MSchema) (ls : list cstr) : Prop :=
  tidy ls ∧ (s_array s = None ∧ s_columns s = [] ∨ unassigned «"columns"» ls) ∧ (s_key s = None ∨ unassigned «"pkey"» ls).

Lemma assigned_once_cons key l ls k v :
  line_assigns l = Some (k, v) → assigned_once key (l :: ls) →
  assigned_once key ls ∧ (k = key → unassigned key ls).
Proof.
  unfold assigned_once, unassigned. csimpl. intros ->. rewrite filter_cons. case_decide as Hk; csimpl in *; intros Hlen.
  - split; [lia|]. intros _. apply Forall_forall. intros kv Hin Hkv.
    assert (Hf : kv ∈ filter (λ kv : cstr * cstr, kv.1 = key) (omap line_assigns ls)) by (by apply list_elem_of_filter).
    destruct (filter _ _); [by apply not_elem_of_nil in Hf|csimpl in Hlen; lia].
  - split; [done|]. by intros.
Qed.

(** A line that assigns: what it may overwrite, and what is left. *)
Lemma tidy_from_cons s l ls key value :
  line_assigns l = Some (key, value) → tidy_from s (l :: ls) →
  (key = «"columns"» → s_array s = None ∧ s_columns s = [] ∧ tidy_columns (split_on "," value)) ∧
  (key = «"pkey"» → s_key s = None) ∧
  (∀ s', (key ≠ «"columns"» → s_array s' = s_array s ∧ s_columns s' = s_columns s) →
         (key ≠ «"pkey"» → s_key s' = s_key s) → tidy_from s' ls).
Proof.
  intros Hl ([Hc [Hp Hcols]] & Hsc & Hsk). destruct (assigned_once_cons _ _ _ _ _ Hl Hc) as [Hc' Hcn].
  destruct (assigned_once_cons _ _ _ _ _ Hl Hp) as [Hp' Hpn]. unfold unassigned in *. csimpl in *. rewrite Hl in *. csimpl in *.
  apply Forall_cons in Hcols as [Hcol Hcols]. split_and!.
  - intros ->. destruct Hsc as [[? ?]|Hsc]; [by auto|]. by apply Forall_cons in Hsc as [? _].
  - intros ->. destruct Hsk as [?|Hsk]; [done|]. by apply Forall_cons in Hsk as [? _].
  - intros s' Hs1 Hs2. split_and!; [done| |].
    + destruct (decide (key = «"columns"»)) as [Hk|Hk]; [by right; apply Hcn|]. destruct (Hs1 Hk) as [-> ->].
      destruct Hsc as [?|Hsc]; [by left|right]. by apply Forall_cons in Hsc as [_ ?].
    + destruct (decide (key = «"pkey"»)) as [Hk|Hk]; [by right; apply Hpn|]. rewrite (Hs2 Hk).
      destruct Hsk as [?|Hsk]; [by left|right]. by apply Forall_cons in Hsk as [_ ?].
Qed.

Lemma tidy_from_skip s l ls : line_assigns l = None → tidy_from s (l :: ls) → tidy_from s ls.
Proof. unfold tidy_from, tidy, assigned_once, unassigned. csimpl. by intros ->. Qed.

Lemma leaks_schema_lines w txt s ls :
  is_Some (s_table s) →
  leaks (txt :: schema_blocks s) (schema_lines_mem w txt s ls)
    (λ '(r, s'), match r with Ok _ => [txt] | Err _ => [] end ++ schema_blocks s')
    (λ '(r, s') leak, (tidy_from s ls → leak = []) ∧
       match r with Ok _ => schema_lines w (schema_of s) ls = Ok (schema_of s') | Err _ => schema_blocks s' = [] end)
    (λ '(r, _) _, match r with Err e => schema_lines w (schema_of s) ls = Err e | Ok _ => True end).
Proof.
  revert s. induction ls as [|l ls IH]; intros s Ht; simpl.
  { apply (leaks_ret _ _ _ []); simpl; [solve_Permutation|done|done]. }
  assert (Hassign : line_assigns l = match trim l with [] => None | t => match split_at "=" t with Some (b, a) => Some (trim b, trim a) | None => None end end) by done.
  unfold schema_line. destruct (trim l) as [|c0 t]; [eapply leaks_conseq; [by apply IH|done|]|].
  { intros [r s'] leak [Hl Hr]. split_and!; try done. intros Hty. apply Hl. by eapply tidy_from_skip. }
  destruct (split_at "=" (c0 :: t)) as [[before after]|]; simpl.
  2: { call triple_release with (schema_blocks s). call triple_free_schema with (@nil nat) as s' Hs'.
       apply (leaks_ret _ _ _ []); simpl; [done|by rewrite Hs'|done]. }
  eapply (leaks_seq [txt]); [by apply leaks_schema_assign|solve_Permutation|]. intros [[[]|e] s'] l1 [Hl1 Hr]; simpl.
  - destruct Hr as (Ht' & -> & Hs1 & Hs2). simpl. destruct (update_key_index_spec s') as (Hof & Hbl & Htb & Har & Hco & Hke).
    rewrite <- Hof. eapply leaks_conseq; [apply IH; by rewrite Htb|rewrite Hbl; solve_Permutation|].
    intros [r s''] l2 [Hl2 Hr2]. split; [done|]. split; [|by destruct r].
    split; [|done]. intros Hty. destruct (tidy_from_cons _ _ _ _ _ Hassign Hty) as (Hc & Hp & Hnext).
    rewrite Hl1 by done. apply Hl2, Hnext; [by rewrite Har, Hco|by rewrite Hke].
  - call triple_release with (schema_blocks s'). call triple_free_schema with (@nil nat) as s'' Hs''.
    apply (leaks_ret _ _ _ []); simpl; [done| |by intros _ _ ->]. rewrite (right_id_L [] (++)). split; [|done].
    intros Hty. destruct (tidy_from_cons _ _ _ _ _ Hassign Hty) as (Hc & Hp & _). auto.
Qed.

(** The schema file of a table, if there is one, is tidy. *)
Definition tidy_file (w : World) (db_root table_name : cstr) : Prop :=
  ∀ content, sql_read_text_file w (schema_path db_root table_name) = Ok content → tidy (strtok_lines content).

Lemma leaks_load_schema w db_root table_name :
  leaks [] (load_schema_mem w db_root table_name) (λ '(_, s), schema_blocks s)
    (λ '(r, s) leak, (tidy_file w db_root table_name → leak = []) ∧
       match r with Ok _ => load_schema w db_root table_name = Ok (schema_of s) | Err _ => schema_blocks s = [] end)
    (λ '(r, _) _, match r with Err e => load_schema w db_root table_name = Err e | Ok _ => True end).
Proof.
  unfold load_schema_mem, load_schema. call triple_strdup with (@nil nat) as [t|] Ht.
  2: { apply (leaks_ret _ _ _ []); naive_solver. }
  call triple_read_text_file with [block t] as [txt|e] Hread.
  2: { call triple_free_schema with (@nil nat) as s Hs; apply (leaks_ret _ _ _ []); simpl; [by rewrite (right_id_L [] (++))|done|].
       by intros _ ->. }
  eapply (leaks_seq [] _ _ _ (block txt :: schema_blocks (mkMSchema (Some t) None [] None (-1) false)));
    [by apply leaks_schema_lines|simpl; solve_Permutation|].
  intros [[[]|e] s] l1 [Hl1 Hs]; simpl; rewrite Hread; simpl.
  - assert (Hlines : schema_lines w (mkSchema table_name [] None (-1) false) (strtok_lines (text txt)) = Ok (schema_of s)).
    { rewrite <- Hs. unfold schema_of. simpl. by rewrite (Ht t). }
    assert (Htidy : tidy_file w db_root table_name → l1 = []).
    { intros Hty. apply Hl1. split_and!; [|by left..]. by apply Hty. }
    rewrite Hlines. simpl. unfold column_count. simpl. rewrite length_map.
    call triple_release with (schema_blocks s). destruct (Nat.eqb (length (s_columns s)) 0).
    + call triple_free_schema with (@nil nat) as s' Hs'.
      apply (leaks_ret _ _ _ []); simpl; [by rewrite (right_id_L [] (++))| |done]. rewrite (right_id_L [] (++)). done.
    + apply (leaks_ret _ _ _ []); simpl; [solve_Permutation| |done]. rewrite (right_id_L [] (++)). done.
  - apply (leaks_ret _ _ _ []); simpl; [solve_Permutation| |].
    + rewrite (right_id_L [] (++)). split; [|done]. intros Hty. apply Hl1. split_and!; [|by left..]. by apply Hty.
    + unfold schema_of. simpl. rewrite (Ht t) by done. by intros -> _ _.
Qed.

(** ** Examples *)

(** Blocks that stay held after loading the schema of [t] from this text and giving it back. *)
Definition left_behind (content : cstr) : list nat :=
  let w := mkWorld {[ schema_path «"db"» «"t"» := content ]} (λ _, true) id stream_works in
  let '((_, s), m) := load_schema_mem w «"db"» «"t"» (mkMem [] 0 [] false) in
  held (free_schema s m).2.

(** A second [pkey] line, a second [columns] line, and a malformed column after a good one leave
    blocks behind that nothing points to. *)
Example schema_leaks :
  left_behind (print_schema (mkSchema «"t"» [mkColumnDef «"id"» COLUMN_TYPE_INT] (Some «"id"») 0 true)) = [] ∧
  length (left_behind («"columns=id:int"» ++ LF :: «"pkey=id"» ++ LF :: «"pkey=id"»)) = 1 ∧
  length (left_behind («"columns=id:int"» ++ LF :: «"columns=id:int"»)) = 2 ∧
  length (left_behind «"columns=id:int,name"») = 1.
Proof. vm_compute. done. Qed.
