(* ===== verification/Json.v ===== *)
(** * Specification of the JSON text the server answers with

    A strict reader for JSON texts without white space (RFC 8259) that keeps the digits of a
    number as text, and the printer whose output it reads back.  The payload theorems state
    which tree a client reads from a payload. *)

From stdpp Require Import base list strings sets gmap.
From Stdlib Require Import Ascii.
From S2P Require Import Prelude CString Common Schema.

Inductive json :=
| JBool (b : bool)
| JNumber (digits : cstr)
| JString (text : cstr)
| JArray (items : list json)
| JObject (members : list (cstr * json)).

(** ** Printing *)

Definition json_quoted (s : cstr) : cstr := DQUOTE :: concat (map json_escape s) ++ [DQUOTE].

Definition brackets (l r : ascii) (body : cstr) : cstr := l :: body ++ [r].

Fixpoint print_json (j : json) : cstr :=
  match j with
  | JBool true => «"true"»
  | JBool false => «"false"»
  | JNumber d => d
  | JString s => json_quoted s
  | JArray items => brackets "[" "]" (join "," (map print_json items))
  | JObject members =>
      brackets "{" "}" (join "," (map (λ m, json_quoted m.1 ++ ":"%char :: print_json m.2) members))
  end.

(** ** Reading *)

(** A number: an optional minus sign, digits without a leading zero, an optional fraction. *)
Definition json_fraction (s : cstr) : bool :=
  match s with
  | [] => true
  | c :: ds => Ascii.eqb c "." && negb (Nat.eqb (length ds) 0) && forallb isdigit ds
  end.

Definition is_json_number (s : cstr) : bool :=
  let s := if Ascii.eqb (peek s) "-" then tail s else s in
  let int_part := take_while isdigit s in
  match int_part with
  | [] => false
  | [_] => json_fraction (drop_while isdigit s)
  | d :: _ => negb (Ascii.eqb d "0") && json_fraction (drop_while isdigit s)
  end.

Definition number_char (c : ascii) : bool := isdigit c || Ascii.eqb c "-" || Ascii.eqb c ".".

Definition read_literal (word : cstr) (j : json) (s : cstr) : option (json * cstr) :=
  if starts_with word s then Some (j, drop (length word) s) else None.

Definition read_number (s : cstr) : option (json * cstr) :=
  let d := take_while number_char s in
  if is_json_number d then Some (JNumber d, drop_while number_char s) else None.

(** One [string : value] member. *)
Definition read_member (read : cstr → option (json * cstr)) (s : cstr) : option ((cstr * json) * cstr) :=
  '(key, s1) ← json_string s;
  match s1 with
  | c :: s2 => if Ascii.eqb c ":" then '(v, s3) ← read s2; Some ((key, v), s3) else None
  | [] => None
  end.

(** Elements separated by commas up to the closing bracket. *)
Fixpoint read_list {A} (read : cstr → option (A * cstr)) (close : ascii) (fuel : nat) (s : cstr)
    : option (list A * cstr) :=
  match fuel with
  | O => None
  | S fuel =>
      '(x, s1) ← read s;
      match s1 with
      | c :: s2 =>
          if Ascii.eqb c close then Some ([x], s2)
          else if Ascii.eqb c "," then '(xs, s3) ← read_list read close fuel s2; Some (x :: xs, s3)
          else None
      | [] => None
      end
  end.

Definition read_items {A} (read : cstr → option (A * cstr)) (close : ascii) (fuel : nat) (s : cstr)
    : option (list A * cstr) :=
  match s with
  | c :: s' => if Ascii.eqb c close then Some ([], s') else read_list read close fuel s
  | [] => None
  end.

(** A value and the text after it.  [fuel] bounds the nesting and the lengths of lists. *)
Fixpoint read_json (fuel : nat) (s : cstr) : option (json * cstr) :=
  match fuel with
  | O => None
  | S fuel =>
      match s with
      | [] => None
      | c :: s' =>
          if Ascii.eqb c DQUOTE then '(t, rest) ← json_string s; Some (JString t, rest)
          else if Ascii.eqb c "[" then
            '(items, rest) ← read_items (read_json fuel) "]" fuel s'; Some (JArray items, rest)
          else if Ascii.eqb c "{" then
            '(ms, rest) ← read_items (read_member (read_json fuel)) "}" fuel s'; Some (JObject ms, rest)
          else if Ascii.eqb c "t" then read_literal «"true"» (JBool true) s
          else if Ascii.eqb c "f" then read_literal «"false"» (JBool false) s
          else read_number s
      end
  end.

(** The tree of a complete text. *)
Definition json_text (s : cstr) : option json :=
  match read_json (S (length s)) s with Some (j, []) => Some j | _ => None end.

(** Trees whose numbers are JSON numbers. *)
Fixpoint json_wf (j : json) : bool :=
  match j with
  | JNumber d => is_json_number d
  | JArray items => forallb json_wf items
  | JObject members => forallb (λ m, json_wf m.2) members
  | _ => true
  end.

(** ** Lemmas *)

#[local] Arguments Ascii.eqb : simpl never.

Lemma json_string_quoted s rest : json_string (json_quoted s ++ rest) = Some (s, rest).
Proof.
  unfold json_quoted. rewrite <- app_comm_cons, <- app_assoc. simpl. by rewrite json_escapes_body.
Qed.

Definition stops (rest : cstr) : Prop := number_char (peek rest) = false.

Lemma join_length sep (l : list cstr) : length l ≤ S (length (join sep l)).
Proof.
  induction l as [|x l IH]; [simpl; lia|]. destruct l as [|y l]; [simpl; lia|].
  change (join sep (x :: y :: l)) with (x ++ sep :: join sep (y :: l)). rewrite length_app.
  cbn [length] in *. lia.
Qed.

Lemma join_length_elem sep (l : list cstr) x : x ∈ l → length x ≤ length (join sep l).
Proof.
  induction l as [|y l IH]; [set_solver|]. destruct l as [|z l].
  { intros ->%list_elem_of_singleton. done. }
  change (join sep (y :: z :: l)) with (y ++ sep :: join sep (z :: l)). rewrite length_app. cbn [length].
  intros [-> |Hx]%elem_of_cons; [lia|]. specialize (IH Hx). lia.
Qed.

Lemma read_list_join {A} (read : cstr → option (A * cstr)) (pr : A → cstr) close fuel xs rest :
  number_char close = false → Ascii.eqb "," close = false → xs ≠ [] → length xs ≤ fuel →
  (∀ x r, x ∈ xs → stops r → read (pr x ++ r) = Some (x, r)) →
  read_list read close fuel (join "," (map pr xs) ++ close :: rest) = Some (xs, rest).
Proof.
  intros Hclose Hcomma. revert fuel. induction xs as [|x xs IH]; intros fuel Hne Hlen Hread; [done|].
  destruct fuel as [|fuel]; simpl in Hlen; [lia|]. destruct xs as [|y xs]; cbn [read_list].
  - cbn [map join]. rewrite Hread by (done || by left). simpl. by rewrite (proj2 (ascii_eqb_eq close close)).
  - change (join "," (map pr (x :: y :: xs))) with (pr x ++ ","%char :: join "," (map pr (y :: xs))).
    rewrite <- app_assoc. rewrite Hread by (done || by left). simpl. rewrite Hcomma. simpl.
    change (join "," (pr y :: map pr xs)) with (join "," (map pr (y :: xs))).
    rewrite IH; [done|done|simpl in *; lia|]. intros z r Hz. apply Hread. by right.
Qed.

Lemma read_items_join {A} (read : cstr → option (A * cstr)) (pr : A → cstr) close fuel xs rest :
  number_char close = false → Ascii.eqb "," close = false → length xs ≤ fuel →
  (∀ x, x ∈ xs → pr x ≠ [] ∧ Ascii.eqb (peek (pr x)) close = false) →
  (∀ x r, x ∈ xs → stops r → read (pr x ++ r) = Some (x, r)) →
  read_items read close fuel (join "," (map pr xs) ++ close :: rest) = Some (xs, rest).
Proof.
  intros Hclose Hcomma Hlen Hhead Hread. destruct xs as [|x xs].
  { simpl. by rewrite (proj2 (ascii_eqb_eq close close)). }
  unfold read_items. destruct (Hhead x) as [Hne Hp]; [by left|].
  assert (Hd : ∃ l, join "," (map pr (x :: xs)) ++ close :: rest = peek (pr x) :: l).
  { destruct (pr x) as [|c l] eqn:E; [done|]. destruct xs as [|y xs]; simpl; rewrite E; simpl; eauto. }
  destruct Hd as [l Hd]. rewrite Hd, Hp, <- Hd. by apply read_list_join.
Qed.

Lemma number_parts d :
  is_json_number d = true → d ≠ [] ∧ Forall (λ c, number_char c = true) d ∧
  (isdigit (peek d) || Ascii.eqb (peek d) "-") = true.
Proof.
  unfold is_json_number. set (s := if Ascii.eqb (peek d) "-" then tail d else d). intros Hnum.
  assert (Hdig : take_while isdigit s ≠ []) by (by destruct (take_while isdigit s)).
  assert (Hfrac : json_fraction (drop_while isdigit s) = true).
  { destruct (take_while isdigit s) as [|a [|b l]]; [done|done|]. by apply andb_true_iff in Hnum as [_ ?]. }
  assert (Hs : Forall (λ c, number_char c = true) s).
  { rewrite <- (take_drop_while isdigit s). apply Forall_app. split.
    - eapply Forall_impl; [apply take_while_all|]. intros c Hc. unfold number_char. simpl in Hc. by rewrite Hc.
    - destruct (drop_while isdigit s) as [|c ds]; [done|]. simpl in Hfrac.
      apply andb_true_iff in Hfrac as [Hc Hds]. apply andb_true_iff in Hc as [Hdot _]. constructor.
      + unfold number_char. rewrite Hdot. by rewrite orb_true_r.
      + apply Forall_forall. intros x Hx. rewrite forallb_forall in Hds.
        unfold number_char. by rewrite (Hds x) by (by apply list_elem_of_In). }
  subst s. destruct d as [|c d]; [done|]. simpl in *. split; [done|].
  destruct (Ascii.eqb c "-") eqn:Hc.
  - split; [|by rewrite orb_true_r]. constructor; [|done]. unfold number_char. by rewrite Hc, orb_true_r.
  - split; [done|]. simpl in Hdig. by destruct (isdigit c).
Qed.

Lemma start_not_special c :
  implb (isdigit c || Ascii.eqb c "-")
    (negb (Ascii.eqb c DQUOTE) && negb (Ascii.eqb c "[") && negb (Ascii.eqb c "{") &&
     negb (Ascii.eqb c "t") && negb (Ascii.eqb c "f") && negb (Ascii.eqb c "]") && negb (Ascii.eqb c "}")) = true.
Proof. all_bytes c. Qed.

Lemma print_json_head j :
  json_wf j = true →
  print_json j ≠ [] ∧ Ascii.eqb (peek (print_json j)) "]" = false ∧ Ascii.eqb (peek (print_json j)) "}" = false.
Proof.
  destruct j as [[]|d|s|items|ms]; try done. intros Hwf. apply number_parts in Hwf as (Hne & _ & Hc).
  split; [done|]. pose proof (start_not_special (peek d)) as Hs. rewrite Hc in Hs. simpl in Hs. breflect.
  by simpl.
Qed.

Lemma read_number_print d rest :
  is_json_number d = true → stops rest → read_number (d ++ rest) = Some (JNumber d, rest).
Proof.
  intros Hd Hrest. unfold read_number. apply number_parts in Hd as Hd'. destruct Hd' as (_ & Hall & _).
  destruct (span_app number_char d rest Hall Hrest) as [-> ->]. by rewrite Hd.
Qed.

(** Reading what was printed gives the tree back and stops right after it. *)
Lemma read_print_json fuel j rest :
  json_wf j = true → (length (print_json j) < fuel)%nat → stops rest →
  read_json fuel (print_json j ++ rest) = Some (j, rest).
Proof.
  revert j rest. induction fuel as [|fuel IH]; intros j rest Hwf Hlen Hrest; [lia|].
  destruct j as [b|d|s|items|ms].
  - by destruct b.
  - pose proof (number_parts d Hwf) as (Hne & _ & Hc). pose proof (start_not_special (peek d)) as Hs.
    rewrite Hc in Hs. simpl in Hs. destruct d as [|c d]; [done|]. simpl in Hs, Hwf. breflect.
    cbn [print_json app read_json].
    repeat match goal with Hx : Ascii.eqb c _ = false |- _ => rewrite Hx; clear Hx end.
    by apply (read_number_print (c :: d)).
  - pose proof (json_string_quoted s rest) as Hq. cbn [print_json]. unfold json_quoted in *.
    cbn [app read_json] in *. rewrite (proj2 (ascii_eqb_eq DQUOTE DQUOTE)) by done. by rewrite Hq.
  - simpl in Hwf. rewrite forallb_forall in Hwf.
    assert (Hin : ∀ x, x ∈ items → json_wf x = true) by (intros; apply Hwf; by apply list_elem_of_In).
    cbn [print_json] in *. unfold brackets in *. cbn [app read_json length] in *. rewrite length_app in Hlen.
    change (Ascii.eqb "[" DQUOTE) with false. change (Ascii.eqb "[" "[") with true. cbn iota.
    rewrite <- app_assoc. cbn [app]. pose proof (join_length "," (map print_json items)) as Hj.
    rewrite length_map in Hj. simpl in Hlen. rewrite read_items_join; [done|done|done|lia| |].
    + intros x Hx. destruct (print_json_head x) as (? & ? & ?); [by apply Hin|done].
    + intros x r Hx Hr. apply IH; [by apply Hin| |done].
      pose proof (join_length_elem "," (map print_json items) (print_json x)) as He.
      specialize (He (list_elem_of_fmap_2 print_json items x Hx)). lia.
  - simpl in Hwf. rewrite forallb_forall in Hwf.
    assert (Hin : ∀ x, x ∈ ms → json_wf x.2 = true) by (intros; apply Hwf; by apply list_elem_of_In).
    cbn [print_json] in *. unfold brackets in *. cbn [app read_json length] in *. rewrite length_app in Hlen.
    change (Ascii.eqb "{" DQUOTE) with false. change (Ascii.eqb "{" "[") with false.
    change (Ascii.eqb "{" "{") with true. cbn iota. rewrite <- app_assoc. cbn [app].
    set (pr := λ m : cstr * json, json_quoted m.1 ++ ":"%char :: print_json m.2) in *.
    pose proof (join_length "," (map pr ms)) as Hj. rewrite length_map in Hj. simpl in Hlen.
    rewrite read_items_join; [done|done|done|lia|done|].
    intros [k v] r Hx Hr. unfold read_member, pr. cbn [fst snd]. rewrite <- app_assoc, json_string_quoted.
    simpl.
    rewrite IH; [done|by apply (Hin (k, v))| |done].
    pose proof (join_length_elem "," (map pr ms) (pr (k, v))) as He.
    specialize (He (list_elem_of_fmap_2 pr ms (k, v) Hx)). unfold pr in He at 1. cbn [fst snd] in He.
    rewrite length_app in He. cbn [length] in He. lia.
Qed.

Lemma json_text_print j : json_wf j = true → json_text (print_json j) = Some j.
Proof.
  intros Hwf. unfold json_text. rewrite <- (app_nil_r (print_json j)) at 2.
  by rewrite read_print_json by (done || lia).
Qed.
