(* ===== verification/Storage.v ===== *)
(** * [src/src/storage/storage.c]: table files in CSV form

    A row is the list of its fields.  The scanner of [parse_csv_line] is a recursive function
    on the line with the loop's variables as arguments.  Appending writes to the [World]'s file
    map; writes that [fopen] admitted are assumed to succeed. *)

From stdpp Require Import base list strings sets gmap.
From Stdlib Require Import Ascii.
From S2P Require Import Prelude CString Common Schema.

(** ** Rows in memory *)

Abbreviation Row := (list cstr).

(** [row_count] is the length of [rows]; [row_capacity] is how many rows are allocated. *)
Record RowSet := mkRowSet {
  rows : list Row;
  row_capacity : Z;
  rowset_column_count : nat
}.

Definition row_count (rs : RowSet) : nat := length (rows rs).

Definition next_capacity (c : Z) : Z := if (c =? 0)%Z then 8%Z else (c * 2)%Z.

Definition rowset_append (rs : RowSet) (fields : Row) : RowSet :=
  let capacity :=
    if (Z.of_nat (row_count rs) =? row_capacity rs)%Z then next_capacity (row_capacity rs)
    else row_capacity rs in
  mkRowSet (rows rs ++ [fields]) capacity (rowset_column_count rs).

(** ** Reading one line *)

Definition trim_field (text : cstr) : cstr := trim text.

(** The scanning loop of [parse_csv_line] over the rest of the line. *)
Fixpoint csv_scan (line : cstr) (in_quotes : bool) (buffer : cstr) (fields : list cstr)
    : result SqlError (list cstr) :=
  match line with
  | [] =>
      if in_quotes then fail «"unterminated quoted CSV field"»
      else Ok (fields ++ [trim_field buffer])
  | ch :: line' =>
      if in_quotes then
        if Ascii.eqb ch DQUOTE then
          match line' with
          | d :: line'' =>
              if Ascii.eqb d DQUOTE then csv_scan line'' true (buffer ++ [DQUOTE]) fields
              else csv_scan line' false buffer fields
          | [] => csv_scan line' false buffer fields
          end
        else csv_scan line' true (buffer ++ [ch]) fields
      else if Ascii.eqb ch DQUOTE then csv_scan line' true buffer fields
      else if Ascii.eqb ch "," then csv_scan line' false [] (fields ++ [trim_field buffer])
      else csv_scan line' false (buffer ++ [ch]) fields
  end.

Definition parse_csv_line (line : cstr) (expected_fields : nat) : result SqlError (list cstr) :=
  fields ← csv_scan line false [] [];
  if Nat.eqb (length fields) expected_fields then Ok fields else fail «"row field count mismatch"».

(** ** Writing one row *)

Definition escape_quote (c : ascii) : cstr := if Ascii.eqb c DQUOTE then [DQUOTE; DQUOTE] else [c].

Definition write_csv_field (value : cstr) : cstr :=
  DQUOTE :: concat (map escape_quote value) ++ [DQUOTE].

Definition csv_row_text (fields : list cstr) : cstr := join "," (map write_csv_field fields) ++ [LF].

(** ** Table files *)

Definition build_table_path (db_root table_name : cstr) : cstr :=
  bounded SQL_PATH_BUFFER_SIZE (db_root ++ «"/tables/"» ++ table_name ++ «".csv"»).

Definition append_csv_row (w : World) (db_root table_name : cstr) (fields : list cstr)
    : result SqlError World :=
  if Nat.eqb (length fields) 0 then fail «"append_csv_row received invalid arguments"»
  else
    let path := build_table_path db_root table_name in
    if negb (writable w path) then fail («"failed to open table file: "» ++ path)
    else
      let old := default [] (files w !! path) in
      Ok (mkWorld (<[path := old ++ csv_row_text fields]> (files w)) (writable w) (freed w) (temporary w)).

Definition LINE_BUFFER_SIZE : N := 8192.

(** Successive [fgets] calls: each returns up to [room] bytes or through the next newline. *)
Fixpoint fgets_chunks (room : N) (current content : cstr) : list cstr :=
  match content with
  | [] => match current with [] => [] | _ => [current] end
  | c :: content' =>
      if Ascii.eqb c LF || (room =? 1)%N
      then (current ++ [c]) :: fgets_chunks (LINE_BUFFER_SIZE - 1) [] content'
      else fgets_chunks (room - 1) (current ++ [c]) content'
  end.

Definition is_line_end (c : ascii) : bool := Ascii.eqb c LF || Ascii.eqb c CR.

(** The loop body: strip the line end, skip empty lines, parse and append. *)
Fixpoint read_lines (expected_fields : nat) (rs : RowSet) (chunks : list cstr) : result SqlError RowSet :=
  match chunks with
  | [] => Ok rs
  | chunk :: chunks' =>
      let line := rstrip is_line_end (c_string chunk) in
      match line with
      | [] => read_lines expected_fields rs chunks'
      | _ =>
          fields ← parse_csv_line line expected_fields;
          read_lines expected_fields (rowset_append rs fields) chunks'
      end
  end.

Definition read_csv_rows (w : World) (db_root table_name : cstr) (expected_fields : nat)
    : result SqlError RowSet :=
  let path := build_table_path db_root table_name in
  match files w !! path with
  | None => fail («"failed to open table file: "» ++ path)
  | Some content =>
      read_lines expected_fields (mkRowSet [] 0 expected_fields)
        (fgets_chunks (LINE_BUFFER_SIZE - 1) [] content)
  end.

(** ** Specification *)

(** Rows that fit the allocation. *)
Definition capacity_ok (rs : RowSet) : Prop := (Z.of_nat (row_count rs) <= row_capacity rs)%Z.

(** A field that stays on its line, and one the file format preserves exactly. *)
Definition line_safe (f : cstr) : Prop := LF ∉ f ∧ NUL ∉ f.
Definition csv_safe (f : cstr) : Prop := line_safe f ∧ trimmed f.

(** The row fits one [fgets] buffer. *)
Definition row_fits (fields : list cstr) : Prop :=
  (N.of_nat (length (csv_row_text fields)) <= LINE_BUFFER_SIZE - 1)%N.

(** Text made of complete lines. *)
Definition complete_lines (content : cstr) : Prop := content = [] ∨ last content = Some LF.

(** The table's file exists and ends at a line end, as every append leaves it. *)
Definition table_closed (w : World) (db_root table_name : cstr) : Prop :=
  ∃ content, files w !! build_table_path db_root table_name = Some content ∧ complete_lines content.

(** A row set as the reader builds it. *)
Definition rowset_ok (rs : RowSet) : Prop :=
  capacity_ok rs ∧
  Forall (λ r, length r = rowset_column_count rs ∧ Forall trimmed r) (rows rs).

(** ** Lemmas: one row *)

Lemma csv_scan_quoted v rest buffer fields :
  Ascii.eqb (peek rest) DQUOTE = false →
  csv_scan (concat (map escape_quote v) ++ DQUOTE :: rest) true buffer fields =
    csv_scan rest false (buffer ++ v) fields.
Proof.
  intros Hrest. revert buffer. induction v as [|c v IH]; intros buffer; cbn [map concat app csv_scan].
  - rewrite (proj2 (ascii_eqb_eq DQUOTE DQUOTE)) by done. rewrite app_nil_r.
    destruct rest as [|d rest]; [done|]. simpl in Hrest. by rewrite Hrest.
  - unfold escape_quote at 1. destruct (Ascii.eqb_spec c DQUOTE) as [->|Hc].
    + cbn [app csv_scan]. rewrite (proj2 (ascii_eqb_eq DQUOTE DQUOTE)) by done.
      rewrite IH, <- app_assoc. done.
    + cbn [app csv_scan]. rewrite (proj2 (ascii_eqb_neq c DQUOTE)) by done.
      rewrite IH, <- app_assoc. done.
Qed.

Lemma csv_scan_field v rest fields :
  Ascii.eqb (peek rest) DQUOTE = false →
  csv_scan (write_csv_field v ++ rest) false [] fields = csv_scan rest false v fields.
Proof.
  intros Hrest. unfold write_csv_field. cbn [app csv_scan].
  rewrite (proj2 (ascii_eqb_eq DQUOTE DQUOTE)) by done. rewrite <- app_assoc. cbn [app].
  by rewrite csv_scan_quoted.
Qed.

Lemma csv_scan_row vs fields :
  vs ≠ [] → csv_scan (join "," (map write_csv_field vs)) false [] fields = Ok (fields ++ map trim vs).
Proof.
  revert fields. induction vs as [|v vs IH]; intros fields Hne; [done|]. destruct vs as [|v2 vs].
  - cbn [map join]. rewrite <- (app_nil_r (write_csv_field v)). by rewrite csv_scan_field.
  - change (join "," (map write_csv_field (v :: v2 :: vs)))
      with (write_csv_field v ++ ","%char :: join "," (map write_csv_field (v2 :: vs))).
    rewrite csv_scan_field by done. cbn [csv_scan].
    change (Ascii.eqb "," DQUOTE) with false. change (Ascii.eqb "," ",") with true. cbn iota.
    rewrite IH by done. rewrite <- app_assoc. done.
Qed.

(** Every row written is read back with each field trimmed. *)
Lemma parse_written_row vs :
  vs ≠ [] → parse_csv_line (join "," (map write_csv_field vs)) (length vs) = Ok (map trim vs).
Proof.
  intros Hne. unfold parse_csv_line. rewrite csv_scan_row by done. simpl.
  by rewrite length_map, Nat.eqb_refl.
Qed.

(** ** Lemmas: lines of a file *)

Lemma fgets_chunks_app room current c1 c2 :
  complete_lines (current ++ c1) → (c1 = [] → current = []) → room = (LINE_BUFFER_SIZE - 1)%N ∨ c1 ≠ [] →
  fgets_chunks room current (c1 ++ c2) = fgets_chunks room current c1 ++ fgets_chunks (LINE_BUFFER_SIZE - 1) [] c2.
Proof.
  revert room current. induction c1 as [|c c1 IH]; intros room current Hcl Hcur Hroom.
  - destruct Hroom as [-> |]; [|done]. by rewrite Hcur.
  - cbn [app fgets_chunks]. destruct (Ascii.eqb c LF || (room =? 1)%N) eqn:Hstop.
    + cbn [app]. f_equal. apply IH; [|done|by left]. destruct Hcl as [Hcl|Hcl]; [by apply app_nil in Hcl as [_ ?]|].
      destruct c1 as [|d c1]; [by left|]. right. cbn [app]. by rewrite last_app_cons in Hcl.
    + apply IH.
      * destruct Hcl as [Hcl|Hcl]; [by apply app_nil in Hcl as [_ ?]|]. right. by rewrite <- app_assoc.
      * intros ->. apply orb_false_iff in Hstop as [Hlf _]. apply ascii_eqb_neq in Hlf.
        destruct Hcl as [Hcl|Hcl]; [by apply app_nil in Hcl as [_ ?]|].
        rewrite last_snoc in Hcl. congruence.
      * right. intros ->. apply orb_false_iff in Hstop as [Hlf _]. apply ascii_eqb_neq in Hlf.
        destruct Hcl as [Hcl|Hcl]; [by apply app_nil in Hcl as [_ ?]|].
        rewrite last_snoc in Hcl. congruence.
Qed.

(** One line that fits the buffer is one chunk. *)
Lemma fgets_chunks_line room current l rest :
  LF ∉ l → (N.of_nat (length l) < room)%N →
  fgets_chunks room current (l ++ LF :: rest) =
    (current ++ l ++ [LF]) :: fgets_chunks (LINE_BUFFER_SIZE - 1) [] rest.
Proof.
  revert room current. induction l as [|c l IH]; intros room current Hl Hroom; [done|].
  cbn [app fgets_chunks]. rewrite (proj2 (ascii_eqb_neq c LF)) by set_solver.
  simpl in Hroom. rewrite (proj2 (N.eqb_neq room 1)) by lia. cbn [orb].
  rewrite IH by (set_solver || lia). by rewrite <- !app_assoc.
Qed.

Lemma read_lines_app n rs ch1 ch2 :
  read_lines n rs (ch1 ++ ch2) = rs' ← read_lines n rs ch1; read_lines n rs' ch2.
Proof.
  revert rs. induction ch1 as [|ch ch1 IH]; intros rs; [done|]. cbn [app read_lines].
  destruct (rstrip is_line_end (c_string ch)); [apply IH|].
  destruct (parse_csv_line _ n); simpl; [apply IH|done].
Qed.

Lemma elem_of_written c v : c ∈ write_csv_field v → c = DQUOTE ∨ c ∈ v.
Proof.
  unfold write_csv_field. rewrite elem_of_cons, elem_of_app, list_elem_of_singleton.
  intros [?|[H|?]]; [by left| |by left]. right. induction v as [|d v IH]; simpl in *; [set_solver|].
  apply elem_of_app in H as [H|H]; [|set_solver]. unfold escape_quote in H.
  destruct (Ascii.eqb_spec d DQUOTE); set_solver.
Qed.

Lemma row_text_clean c vs :
  c ≠ DQUOTE → c ≠ ","%char → Forall (λ v, c ∉ v) vs → c ∉ join "," (map write_csv_field vs).
Proof.
  intros Hq Hcomma Hvs. intros [?|(y & (v & -> & Hv)%list_elem_of_fmap & Hx)]%elem_of_join; [done|].
  apply elem_of_written in Hx as [?|Hx]; [done|]. by eapply Forall_forall in Hvs.
Qed.

Lemma row_text_last vs : vs ≠ [] → last (join "," (map write_csv_field vs)) = Some DQUOTE.
Proof.
  assert (Hw : ∀ v, last (write_csv_field v) = Some DQUOTE).
  { intros v. unfold write_csv_field. by rewrite app_comm_cons, last_snoc. }
  induction vs as [|v vs IH]; intros Hne; [done|]. destruct vs as [|v2 vs]; [apply Hw|].
  change (join "," (map write_csv_field (v :: v2 :: vs)))
    with (write_csv_field v ++ [","%char] ++ join "," (map write_csv_field (v2 :: vs))).
  rewrite !last_app. by rewrite IH.
Qed.

(** The line read back is the line written, without its newline. *)
Lemma strip_row_text vs :
  vs ≠ [] → Forall line_safe vs →
  rstrip is_line_end (c_string (csv_row_text vs)) = join "," (map write_csv_field vs).
Proof.
  intros Hne Hvs. unfold csv_row_text. rewrite c_string_id.
  - rewrite rstrip_app by (by constructor). apply rstrip_id.
    intros c. rewrite row_text_last by done. by intros [= <-].
  - rewrite not_elem_of_app. split; [|apply (bool_decide_unpack _); done].
    apply row_text_clean; [done|done|]. eapply Forall_impl; [done|]. by intros v [_ ?].
Qed.

Lemma row_text_chunk vs :
  Forall line_safe vs → row_fits vs →
  fgets_chunks (LINE_BUFFER_SIZE - 1) [] (csv_row_text vs) = [csv_row_text vs].
Proof.
  intros Hvs Hfit. unfold csv_row_text. rewrite fgets_chunks_line; [done| |].
  - apply row_text_clean; [done|done|]. eapply Forall_impl; [done|]. by intros v [? _].
  - unfold row_fits, csv_row_text in Hfit. rewrite length_app in Hfit. simpl in Hfit. lia.
Qed.

Lemma complete_lines_app c1 c2 : complete_lines (c1 ++ c2 ++ [LF]).
Proof. right. by rewrite app_assoc, last_snoc. Qed.

(** ** Lemmas: appending and reading *)

Lemma append_csv_row_Ok w db t fields w' :
  append_csv_row w db t fields = Ok w' →
  fields ≠ [] ∧
  w' = mkWorld (<[build_table_path db t :=
                   default [] (files w !! build_table_path db t) ++ csv_row_text fields]> (files w))
               (writable w) (freed w) (temporary w).
Proof.
  unfold append_csv_row. destruct (Nat.eqb_spec (length fields) 0) as [|Hne]; [done|].
  destruct (writable w _); simpl; [|done]. intros [= <-]. split; [by intros -> |done].
Qed.

Lemma append_csv_row_closed w db t fields w' :
  append_csv_row w db t fields = Ok w' → table_closed w' db t.
Proof.
  intros [_ ->]%append_csv_row_Ok. eexists. simpl. rewrite lookup_insert_eq. split; [done|].
  apply complete_lines_app.
Qed.

(** Reading the extended file continues where reading the old one ended. *)
Lemma read_after_append w db t fields w' n rs :
  table_closed w db t → append_csv_row w db t fields = Ok w' → read_csv_rows w db t n = Ok rs →
  read_csv_rows w' db t n =
    read_lines n rs (fgets_chunks (LINE_BUFFER_SIZE - 1) [] (csv_row_text fields)).
Proof.
  intros (content & Hf & Hcl) [_ ->]%append_csv_row_Ok. unfold read_csv_rows. simpl.
  rewrite lookup_insert_eq, Hf. simpl. intros Hr.
  rewrite fgets_chunks_app by (done || by left). by rewrite read_lines_app, Hr.
Qed.

Lemma read_appended_row w db t fields w' n rs :
  table_closed w db t → read_csv_rows w db t n = Ok rs → append_csv_row w db t fields = Ok w' →
  length fields = n → Forall line_safe fields → row_fits fields →
  read_csv_rows w' db t n = Ok (rowset_append rs (map trim fields)).
Proof.
  intros Hc Hr Ha Hn Hs Hfit. rewrite (read_after_append w db t fields w' n rs) by done.
  apply append_csv_row_Ok in Ha as [Hne _]. rewrite row_text_chunk by done. cbn [read_lines].
  rewrite strip_row_text by done. subst n. rewrite parse_written_row by done.
  pose proof (row_text_last fields Hne) as Hlast.
  by destruct (join "," (map write_csv_field fields)).
Qed.

(** ** Lemmas: what the reader produces *)

Lemma csv_scan_trimmed line q buf fields fields' :
  csv_scan line q buf fields = Ok fields' → Forall trimmed fields → Forall trimmed fields'.
Proof.
  remember (length line) as n eqn:Hn. revert line Hn q buf fields.
  induction (lt_wf n) as [n _ IH]; intros line -> q buf fields.
  destruct line as [|ch line]; simpl.
  - destruct q; [done|]. intros [= <-] Hf. apply Forall_app; split; [done|].
    constructor; [apply trim_trimmed|done].
  - intros H Hf. assert (Hnew : Forall trimmed (fields ++ [trim_field buf])).
    { apply Forall_app; split; [done|]. constructor; [apply trim_trimmed|done]. }
    repeat case_match; try (eapply IH; [|reflexivity|exact H|assumption]; simpl; lia).
Qed.

Lemma next_capacity_gt c : (0 <= c)%Z → (c < next_capacity c)%Z.
Proof. unfold next_capacity. case_match; breflect; lia. Qed.

(** The store of [rowset_append] is inside the reallocated array, and the invariant is kept. *)
Lemma rowset_append_capacity rs r : capacity_ok rs → capacity_ok (rowset_append rs r).
Proof.
  unfold capacity_ok, row_count, rowset_append. simpl. rewrite length_app. simpl. unfold row_count.
  case_match; breflect; [|lia]. intros. pose proof (next_capacity_gt (row_capacity rs)). lia.
Qed.

Lemma rowset_append_ok rs r :
  rowset_ok rs → length r = rowset_column_count rs → Forall trimmed r → rowset_ok (rowset_append rs r).
Proof.
  intros [Hc Hr] Hl Ht. split; [by apply rowset_append_capacity|]. simpl.
  apply Forall_app; split; [done|]. by repeat constructor.
Qed.

Lemma read_lines_ok n rs chunks rs' :
  rowset_ok rs → rowset_column_count rs = n → read_lines n rs chunks = Ok rs' →
  rowset_ok rs' ∧ rowset_column_count rs' = n.
Proof.
  revert rs. induction chunks as [|ch chunks IH]; intros rs Hok Hn; simpl; [by intros [= <-]|].
  destruct (rstrip is_line_end (c_string ch)) as [|x l]; [by apply IH|].
  unfold parse_csv_line. destruct (csv_scan _ _ _ _) as [fs|] eqn:Hscan; simpl; [|done].
  destruct (Nat.eqb_spec (length fs) n); simpl; [|done]. apply IH; [|done].
  apply rowset_append_ok; [done|congruence|]. by eapply csv_scan_trimmed.
Qed.

Lemma read_csv_rows_ok w db t n rs :
  read_csv_rows w db t n = Ok rs → rowset_ok rs ∧ rowset_column_count rs = n.
Proof.
  unfold read_csv_rows. case_match; [|done]. apply read_lines_ok; [|done]. by split.
Qed.

(** A line with an open quote at its end is rejected. *)
Lemma csv_scan_open a buf fields :
  csv_scan (concat (map escape_quote a)) true buf fields = fail «"unterminated quoted CSV field"».
Proof.
  revert buf. induction a as [|c a IH]; intros buf; [done|]. cbn [map concat].
  unfold escape_quote at 1. destruct (Ascii.eqb_spec c DQUOTE) as [->|Hc]; cbn [app csv_scan].
  - rewrite (proj2 (ascii_eqb_eq DQUOTE DQUOTE)) by done. apply IH.
  - rewrite (proj2 (ascii_eqb_neq c DQUOTE)) by done. apply IH.
Qed.

(** The text of a row whose first field holds a newline breaks at it. *)
Lemma newline_row_text a b fields :
  ∃ rest, csv_row_text ((a ++ LF :: b) :: fields) = (DQUOTE :: concat (map escape_quote a)) ++ LF :: rest.
Proof.
  assert (Hw : ∃ t, write_csv_field (a ++ LF :: b) = (DQUOTE :: concat (map escape_quote a)) ++ LF :: t).
  { unfold write_csv_field. rewrite map_app, concat_app. cbn [map concat].
    change (escape_quote LF) with [LF]. eexists. rewrite <- app_assoc. cbn [app]. reflexivity. }
  destruct Hw as [t Ht]. unfold csv_row_text. destruct fields as [|f fields]; cbn [map join].
  - rewrite Ht. eexists. rewrite <- app_assoc. reflexivity.
  - cbn [map] in *. rewrite Ht. eexists. rewrite <- !app_assoc. cbn [app]. reflexivity.
Qed.

Lemma elem_of_escaped c a : c ∈ concat (map escape_quote a) → c ∈ a.
Proof.
  induction a as [|d a IH]; simpl; [done|]. intros [H|H]%elem_of_app; [|set_solver].
  unfold escape_quote in H. destruct (Ascii.eqb_spec d DQUOTE); set_solver.
Qed.

Lemma open_field_text a :
  Forall (λ c, is_line_end c = false ∧ c ≠ NUL) a →
  LF ∉ DQUOTE :: concat (map escape_quote a) ∧
  rstrip is_line_end (c_string ((DQUOTE :: concat (map escape_quote a)) ++ [LF])) =
    DQUOTE :: concat (map escape_quote a).
Proof.
  intros Ha. assert (Hin : ∀ c, c ∈ DQUOTE :: concat (map escape_quote a) → is_line_end c = false ∧ c ≠ NUL).
  { intros c [-> |Hc]%elem_of_cons; [done|]. rewrite Forall_forall in Ha. by apply Ha, elem_of_escaped. }
  split; [intros Hc; by apply Hin in Hc as [? _]|]. rewrite c_string_id.
  - rewrite rstrip_app by (by constructor). apply rstrip_id. intros c Hc.
    apply Hin. by apply last_Some_elem_of.
  - rewrite not_elem_of_app. split; [intros Hc; by apply Hin in Hc as [_ ?]|].
    apply (bool_decide_unpack _); done.
Qed.

(** ** Properties *)

(** C35. What is appended is what is read: for a table file that ends at a line end and loads,
    appending a row of the right width whose fields hold no newline and that fits one line
    buffer, then loading again, gives the old rows followed by the new one with its fields
    trimmed.  Commas, quotes and carriage returns inside a field survive, and the file again
    ends at a line end, so the statement applies to the next append. *)
Theorem append_read_roundtrip w db_root table_name fields w' n rs :
  table_closed w db_root table_name → read_csv_rows w db_root table_name n = Ok rs →
  append_csv_row w db_root table_name fields = Ok w' →
  length fields = n → Forall line_safe fields → row_fits fields →
  read_csv_rows w' db_root table_name n = Ok (rowset_append rs (map trim fields)) ∧
  table_closed w' db_root table_name.
Proof.
  intros. split; [by eapply read_appended_row|by eapply append_csv_row_closed].
Qed.

Definition table_world (content : cstr) : World :=
  mkWorld {[ build_table_path «"data"» «"users"» := content ]} (λ _, true) id stream_works.

Lemma append_read_roundtrip_witness :
  let row := [«"2"»; DQUOTE :: «"a, b"»] in
  let w := table_world (csv_row_text [«"1"»; «"kim"»]) in
  let w' := table_world (csv_row_text [«"1"»; «"kim"»] ++ csv_row_text row) in
  read_csv_rows w' «"data"» «"users"» 2 = Ok (rowset_append (mkRowSet [[«"1"»; «"kim"»]] 8 2) (map trim row)) ∧
  table_closed w' «"data"» «"users"».
Proof.
  intros row w w'. apply (append_read_roundtrip w _ _ row).
  - exists (csv_row_text [«"1"»; «"kim"»]). split; [reflexivity|by right].
  - vm_compute. reflexivity.
  - vm_compute. reflexivity.
  - reflexivity.
  - repeat constructor; (apply (bool_decide_unpack _); vm_compute; reflexivity).
  - apply N.leb_le. vm_compute. reflexivity.
Defined.

(** The rows of a loaded table are well formed: the row count never exceeds the allocated
    capacity through all reallocations, every row has exactly the expected number of fields,
    and every field is trimmed. *)
Theorem read_csv_rows_wf w db_root table_name n rs :
  read_csv_rows w db_root table_name n = Ok rs → rowset_ok rs ∧ rowset_column_count rs = n.
Proof. apply read_csv_rows_ok. Qed.

Lemma read_csv_rows_wf_witness :
  rowset_ok (mkRowSet [[«"1"»; «"kim"»]] 8 2) ∧ 2 = 2.
Proof.
  apply (read_csv_rows_wf (table_world (csv_row_text [«"1"»; «"kim"»])) «"data"» «"users"»).
  vm_compute. reflexivity.
Defined.

(** A newline inside a value makes the table unloadable: [append_csv_row] accepts a row
    whose first field contains a newline and reports success, but every later load of the
    table fails with "unterminated quoted CSV field". *)
Theorem newline_field_unloadable w db_root table_name a b fields w' n rs :
  table_closed w db_root table_name → read_csv_rows w db_root table_name n = Ok rs →
  Forall (λ c, is_line_end c = false ∧ c ≠ NUL) a →
  (N.of_nat (length (concat (map escape_quote a))) + 1 < LINE_BUFFER_SIZE - 1)%N →
  append_csv_row w db_root table_name ((a ++ LF :: b) :: fields) = Ok w' →
  read_csv_rows w' db_root table_name n = fail «"unterminated quoted CSV field"».
Proof.
  intros Hc Hr Ha Hfit Happ. rewrite (read_after_append w db_root table_name _ w' n rs) by done.
  destruct (newline_row_text a b fields) as [rest ->].
  destruct (open_field_text a Ha) as [Hlf Hstrip].
  rewrite fgets_chunks_line; [|done|simpl; lia]. cbn [app read_lines].
  rewrite app_comm_cons, Hstrip. unfold parse_csv_line. cbn [csv_scan].
  rewrite (proj2 (ascii_eqb_eq DQUOTE DQUOTE)) by done. by rewrite csv_scan_open.
Qed.

Lemma newline_field_unloadable_witness :
  read_csv_rows (table_world (csv_row_text [«"1"»; «"kim"»] ++ csv_row_text [«"2"» ++ LF :: []; «"lee"»]))
    «"data"» «"users"» 2 = fail «"unterminated quoted CSV field"».
Proof.
  eapply (newline_field_unloadable (table_world (csv_row_text [«"1"»; «"kim"»])) _ _ «"2"» [] [«"lee"»]).
  - exists (csv_row_text [«"1"»; «"kim"»]). split; [reflexivity|by right].
  - vm_compute. reflexivity.
  - by repeat constructor.
  - apply N.ltb_lt. vm_compute. reflexivity.
  - vm_compute. reflexivity.
Defined.
