(* ===== verification/CsvWrite.v ===== *)
(** * [append_csv_row] in [src/src/storage/storage.c] with writes that can fail

    [Storage] appends a row in one step.  Here every [fputc] can fail, and so can the [fclose]
    that flushes the stream.  What the calls return is an input ([WriteCalls]).  The file is open
    for appending, so whatever is written comes after its old content.  When no call fails, the
    bytes have reached the file once [fclose] has returned; when one fails, the C standard does
    not say which bytes have, and that is an input too. *)

From stdpp Require Import base list strings gmap.
From Stdlib Require Import Ascii.
From S2P Require Import Prelude CString Common Schema Storage.

(** ** The stream *)

(** What the successive [fputc] calls return (those past the list succeed), what [fclose]
    returns, and what has reached the file when one of them failed. *)
Record WriteCalls := mkWriteCalls { puts : list bool; close_ok : bool; reached : cstr }.

(** The [fputc] results to come, the bytes put so far, and whether a put has failed. *)
Record OutStream := mkOutStream { puts_left : list bool; taken : cstr; put_failed : bool }.

Definition fputc (c : ascii) (s : OutStream) : bool * OutStream :=
  match puts_left s with
  | [] => (true, mkOutStream [] (taken s ++ [c]) (put_failed s))
  | true :: bs => (true, mkOutStream bs (taken s ++ [c]) (put_failed s))
  | false :: bs => (false, mkOutStream bs (taken s) true)
  end.

(** [if (fputc(c, file) == EOF) { sql_set_error(...); return 0; }], then [k]. *)
Definition put_or_fail (c : ascii) (m : cstr) (s : OutStream) (k : OutStream → result SqlError () * OutStream)
    : result SqlError () * OutStream :=
  let '(ok, s) := fputc c s in if ok then k s else (fail m, s).

(** ** Writing a row *)

Fixpoint write_chars (value : cstr) (s : OutStream) (k : OutStream → result SqlError () * OutStream)
    : result SqlError () * OutStream :=
  match value with
  | [] => k s
  | c :: value' =>
      if Ascii.eqb c DQUOTE then
        put_or_fail DQUOTE «"failed to escape CSV quote"» s (λ s,
        put_or_fail DQUOTE «"failed to escape CSV quote"» s (λ s, write_chars value' s k))
      else put_or_fail c «"failed to write CSV field"» s (λ s, write_chars value' s k)
  end.

Definition write_csv_field_io (value : cstr) (s : OutStream) : result SqlError () * OutStream :=
  put_or_fail DQUOTE «"failed to write CSV quote"» s (λ s,
  write_chars value s (λ s,
  put_or_fail DQUOTE «"failed to write CSV quote"» s (λ s, (Ok (), s)))).

(** The loop over the fields; [first] is [index == 0].  The separator is not checked. *)
Fixpoint write_fields (first : bool) (fields : list cstr) (s : OutStream) : result SqlError () * OutStream :=
  match fields with
  | [] => (Ok (), s)
  | f :: fields' =>
      let s := if first then s else (fputc "," s).2 in
      let '(r, s) := write_csv_field_io f s in
      match r with Err e => (Err e, s) | Ok _ => write_fields false fields' s end
  end.

(** The bytes that the file has gained once the stream is closed. *)
Definition closed_text (calls : WriteCalls) (s : OutStream) : cstr :=
  if close_ok calls && negb (put_failed s) then taken s else reached calls.

Definition append_text (w : World) (path : cstr) (text : cstr) : World :=
  mkWorld (<[path := default [] (files w !! path) ++ text]> (files w)) (writable w) (freed w) (temporary w).

Definition append_csv_row_io (calls : WriteCalls) (w : World) (db_root table_name : cstr) (fields : list cstr)
    : result SqlError () * World :=
  if Nat.eqb (length fields) 0 then (fail «"append_csv_row received invalid arguments"», w)
  else
    let path := build_table_path db_root table_name in
    if negb (writable w path) then (fail («"failed to open table file: "» ++ path), w)
    else
      let '(r, s) := write_fields true fields (mkOutStream (puts calls) [] false) in
      match r with
      | Err e => (Err e, append_text w path (closed_text calls s))
      | Ok _ =>
          let s := (fputc LF s).2 in
          (if close_ok calls then Ok () else fail («"failed to flush table file: "» ++ path),
           append_text w path (closed_text calls s))
      end.

(** ** Specification *)

(** No write fails. *)
Definition all_written (calls : WriteCalls) : Prop := false ∉ puts calls ∧ close_ok calls = true.

(** ** Lemmas *)

(** The stream after [text] has been put without a failure. *)
Definition after (s s' : OutStream) (text : cstr) : Prop :=
  false ∉ puts_left s' ∧ taken s' = taken s ++ text ∧ put_failed s' = put_failed s.

Lemma after_nil s : false ∉ puts_left s → after s s [].
Proof. intros Hs. split; [done|]. by rewrite (right_id_L [] (++)). Qed.

Lemma after_trans s s1 s2 t1 t2 : after s s1 t1 → after s1 s2 t2 → after s s2 (t1 ++ t2).
Proof. intros (_ & H1 & F1) (H2 & H3 & F2). split; [done|]. by rewrite H3, H1, F2, F1, <- (assoc_L (++)). Qed.

Lemma fputc_after c s : false ∉ puts_left s → (fputc c s).1 = true ∧ after s (fputc c s).2 [c].
Proof.
  unfold fputc, after. destruct (puts_left s) as [|[] bs]; simpl; intros Hs; [done| |].
  - apply not_elem_of_cons in Hs as [_ Hs]. done.
  - by destruct Hs; left.
Qed.

Lemma put_after c m s k : false ∉ puts_left s → ∃ s', after s s' [c] ∧ put_or_fail c m s k = k s'.
Proof.
  intros Hs. destruct (fputc_after c s Hs) as [Hok Ha]. exists (fputc c s).2. split; [done|].
  unfold put_or_fail. destruct (fputc c s) as [[] s']; done.
Qed.

Lemma chars_after value s k : false ∉ puts_left s → ∃ s', after s s' (concat (map escape_quote value)) ∧ write_chars value s k = k s'.
Proof.
  revert s. induction value as [|c value IH]; intros s Hs; [exists s; split; [by apply after_nil|done]|].
  cbn [write_chars map concat]. unfold escape_quote at 1. destruct (Ascii.eqb c DQUOTE).
  - edestruct put_after as (s1 & H1 & ->); [exact Hs|]. edestruct put_after as (s2 & H2 & ->); [apply H1|].
    edestruct (IH s2) as (s3 & H3 & ->); [apply H2|]. exists s3. split; [|done].
    exact (after_trans _ _ _ [_] _ H1 (after_trans _ _ _ [_] _ H2 H3)).
  - edestruct put_after as (s1 & H1 & ->); [exact Hs|]. edestruct (IH s1) as (s3 & H3 & ->); [apply H1|].
    exists s3. split; [|done]. exact (after_trans _ _ _ [_] _ H1 H3).
Qed.

Lemma field_after value s : false ∉ puts_left s → ∃ s', after s s' (write_csv_field value) ∧ write_csv_field_io value s = (Ok (), s').
Proof.
  intros Hs. unfold write_csv_field_io. edestruct put_after as (s1 & H1 & ->); [exact Hs|].
  edestruct (chars_after value s1) as (s2 & H2 & ->); [apply H1|]. edestruct put_after as (s3 & H3 & ->); [apply H2|].
  exists s3. split; [|done]. exact (after_trans _ _ _ [_] _ H1 (after_trans _ _ _ _ _ H2 H3)).
Qed.

Lemma join_concat (sep : ascii) f (fields : list cstr) : join sep (f :: fields) = f ++ concat (map (cons sep) fields).
Proof.
  revert f. induction fields as [|g fields IH]; intros f; [simpl; by rewrite (right_id_L [] (++))|].
  change (join sep (f :: g :: fields)) with (f ++ sep :: join sep (g :: fields)). rewrite IH. done.
Qed.

Lemma rest_after fields s :
  false ∉ puts_left s →
  ∃ s', after s s' (concat (map (cons ","%char) (map write_csv_field fields))) ∧ write_fields false fields s = (Ok (), s').
Proof.
  revert s. induction fields as [|f fields IH]; intros s Hs; [exists s; split; [by apply after_nil|done]|]. cbn [write_fields map concat].
  destruct (fputc_after "," s Hs) as [_ H1]. destruct (field_after f (fputc "," s).2) as (s2 & H2 & ->); [apply H1|].
  destruct (IH s2) as (s3 & H3 & ->); [apply H2|]. exists s3. split; [|done].
  exact (after_trans _ _ _ _ _ (after_trans _ _ _ [_] _ H1 H2) H3).
Qed.

(** The whole row, when no put fails. *)
Lemma row_after f fields bs :
  false ∉ bs →
  ∃ s, write_fields true (f :: fields) (mkOutStream bs [] false) = (Ok (), s) ∧
    after (mkOutStream bs [] false) (fputc LF s).2 (csv_row_text (f :: fields)).
Proof.
  intros Hbs. cbn [write_fields]. destruct (field_after f (mkOutStream bs [] false) Hbs) as (s1 & H1 & ->).
  destruct (rest_after fields s1) as (s2 & H2 & ->); [apply H1|]. exists s2. split; [done|].
  destruct (fputc_after LF s2) as [_ H3]; [apply H2|]. unfold csv_row_text. cbn [map]. rewrite join_concat.
  exact (after_trans _ _ _ _ _ (after_trans _ _ _ _ _ H1 H2) H3).
Qed.

(** ** Properties *)

(** What an append leaves behind, whichever writes fail: no other file changes and the old
    content stays in front; success with no failing put means that the file has gained exactly
    the row, and failure that some write failed. *)
Theorem append_csv_row_io_outcome calls w db_root table_name fields r w' :
  fields ≠ [] → writable w (build_table_path db_root table_name) = true →
  append_csv_row_io calls w db_root table_name fields = (r, w') →
  ∃ text, w' = append_text w (build_table_path db_root table_name) text ∧
    match r with
    | Ok _ => false ∉ puts calls → text = csv_row_text fields
    | Err _ => ¬ all_written calls
    end.
Proof.
  intros Hf Hw. destruct fields as [|f fields]; [done|]. unfold append_csv_row_io. cbn [length Nat.eqb]. rewrite Hw. cbn [negb].
  destruct (write_fields true (f :: fields) (mkOutStream (puts calls) [] false)) as [[[]|e] s] eqn:Hwr; intros [= <- <-];
    eexists; (split; [reflexivity|]).
  - unfold closed_text, all_written. destruct (close_ok calls); [|by intros [_ ?]]. intros Hp.
    destruct (row_after f fields (puts calls) Hp) as (s2 & Hwr2 & _ & Ht & Hfl). rewrite Hwr in Hwr2. simplify_eq.
    by rewrite Hfl, Ht.
  - intros [Hp _]. destruct (row_after f fields (puts calls) Hp) as (s2 & Hwr2 & _). by rewrite Hwr in Hwr2.
Qed.

(** When no write fails, the append is the one of [Storage], so everything proved of tables
    that are written and read back holds of it. *)
Theorem append_csv_row_io_succeeds calls w db_root table_name fields :
  all_written calls →
  append_csv_row_io calls w db_root table_name fields =
  match append_csv_row w db_root table_name fields with Ok w' => (Ok (), w') | Err e => (Err e, w) end.
Proof.
  intros [Hputs Hclose]. unfold append_csv_row_io, append_csv_row. destruct fields as [|f fields]; [done|]. cbn [length Nat.eqb].
  destruct (writable w _); [|done]. cbn [negb]. destruct (row_after f fields (puts calls) Hputs) as (s & -> & _ & Ht & Hfl).
  cbv zeta. unfold closed_text. by rewrite Hclose, Hfl, Ht.
Qed.

(** ** Examples *)

Definition one_row : World := table_world (csv_row_text [«"1"»; «"kim"»]).

(** The write of the line end fails (the row of two fields takes nine bytes before it), and the
    other bytes reach the file. *)
Definition line_end_fails : WriteCalls :=
  mkWriteCalls (replicate 9 true ++ [false]) true (join "," (map write_csv_field [«"2"»; «"lee"»])).

(** The unchecked line end: the append reports success, the next row continues the line, and
    the table can no longer be loaded. *)
Theorem unchecked_line_end_unloadable :
  let '(r1, w1) := append_csv_row_io line_end_fails one_row «"data"» «"users"» [«"2"»; «"lee"»] in
  let '(r2, w2) := append_csv_row_io (mkWriteCalls [] true []) w1 «"data"» «"users"» [«"3"»; «"park"»] in
  r1 = Ok () ∧ r2 = Ok () ∧ read_csv_rows w2 «"data"» «"users"» 2 = fail «"row field count mismatch"».
Proof. vm_compute. done. Qed.

(** A write that fails inside the second field, after the first bytes of the row have reached
    the file: the append reports the failure, the bytes stay, and the table can no longer be
    loaded. *)
Theorem failed_append_unloadable :
  let calls := mkWriteCalls (replicate 5 true ++ [false]) true (take 5 (csv_row_text [«"2"»; «"lee"»])) in
  let '(r, w1) := append_csv_row_io calls one_row «"data"» «"users"» [«"2"»; «"lee"»] in
  r = fail «"failed to write CSV field"» ∧ is_ok (read_csv_rows one_row «"data"» «"users"» 2) = true ∧
  read_csv_rows w1 «"data"» «"users"» 2 = fail «"unterminated quoted CSV field"».
Proof. vm_compute. done. Qed.
