(* ===== verification/StorageMemory.v ===== *)
(** * [src/src/storage/storage.c]: the memory of the rows of a table

    Reading a table file again, with the memory it takes: the buffer of a line, the array of
    fields, each field, the array of rows, and the open stream.  Any request can fail.  What the
    characters say is as in [Storage].

    Everything is given back on every error path but one: when the array of rows cannot grow, the
    row that was just parsed is lost ([read_csv_rows_leak]). *)

From stdpp Require Import base list strings sets gmap.
From Stdlib Require Import Ascii.
From S2P Require Import Prelude CString Common Memory Schema Storage.

(** ** Rows in memory *)

(** [field_count] is the length of [row_values]. *)
Record MRow := mkMRow { row_fields : option nat; row_values : list ostr }.

(** [row_count] is the length of [m_rows]. *)
Record MRowSet := mkMRowSet {
  m_array : option nat;
  m_rows : list MRow;
  m_capacity : Z;
  m_columns : nat
}.

Definition free_fields (fields : option nat) (vs : list ostr) : M () :=
  _ ← free_values (reverse vs);
  free fields.

(** The loop over the rows of [free_rowset]. *)
Fixpoint free_rows (rs : list MRow) : M () :=
  match rs with
  | [] => mret ()
  | r :: rs' =>
      _ ← free_values (row_values r);
      _ ← free (row_fields r);
      free_rows rs'
  end.

Definition free_rowset (rs : MRowSet) : M MRowSet :=
  _ ← free_rows (m_rows rs);
  _ ← free (m_array rs);
  mret (mkMRowSet None [] 0 0).

(** ** Reading a row *)

(** The array and its fields stay as they are, or the array has moved, when it fails. *)
Definition append_field (fields : option nat) (vs : list ostr) (value : cstr)
    : M (result SqlError () * (option nat * list ostr)) :=
  next_fields ← realloc fields;
  match next_fields with
  | None => mret (fail «"failed to allocate row fields"», (fields, vs))
  | Some a =>
      v ← sql_strdup value;
      match v with
      | None => mret (fail «"failed to allocate row field"», (Some a, vs))
      | Some v => mret (Ok (), (Some a, vs ++ [v]))
      end
  end.

(** The scanning loop; [buf] is the block of the buffer and [buffer] the bytes in it. *)
Fixpoint csv_scan_mem (line : cstr) (in_quotes : bool) (buf : nat) (buffer : cstr) (fields : option nat) (vs : list ostr)
    : M (result SqlError (option nat * list ostr)) :=
  match line with
  | [] =>
      if in_quotes then
        _ ← free (Some buf);
        _ ← free_fields fields vs;
        mret (fail «"unterminated quoted CSV field"»)
      else
        '(r, (fields, vs)) ← append_field fields vs (trim_field buffer);
        match r with
        | Err e => _ ← free (Some buf); _ ← free_fields fields vs; mret (Err e)
        | Ok _ => _ ← free (Some buf); mret (Ok (fields, vs))
        end
  | ch :: line' =>
      if in_quotes then
        if Ascii.eqb ch DQUOTE then
          match line' with
          | d :: line'' =>
              if Ascii.eqb d DQUOTE then csv_scan_mem line'' true buf (buffer ++ [DQUOTE]) fields vs
              else csv_scan_mem line' false buf buffer fields vs
          | [] => csv_scan_mem line' false buf buffer fields vs
          end
        else csv_scan_mem line' true buf (buffer ++ [ch]) fields vs
      else if Ascii.eqb ch DQUOTE then csv_scan_mem line' true buf buffer fields vs
      else if Ascii.eqb ch "," then
        '(r, (fields, vs)) ← append_field fields vs (trim_field buffer);
        match r with
        | Err e => _ ← free (Some buf); _ ← free_fields fields vs; mret (Err e)
        | Ok _ => csv_scan_mem line' false buf [] fields vs
        end
      else csv_scan_mem line' false buf (buffer ++ [ch]) fields vs
  end.

Definition parse_csv_line_mem (line : cstr) (expected_fields : nat) : M (result SqlError MRow) :=
  buf ← malloc;
  match buf with
  | None => mret (fail «"failed to allocate CSV parse buffer"»)
  | Some buf =>
      r ← csv_scan_mem line false buf [] None [];
      match r with
      | Err e => mret (Err e)
      | Ok (fields, vs) =>
          if Nat.eqb (length vs) expected_fields then mret (Ok (mkMRow fields vs))
          else _ ← free_fields fields vs; mret (fail «"row field count mismatch"»)
      end
  end.

(** ** Reading the rows *)

(** The capacity is raised before the request for the larger array. *)
Definition rowset_append_mem (rs : MRowSet) (r : MRow) : M (result SqlError () * MRowSet) :=
  if (Z.of_nat (length (m_rows rs)) =? m_capacity rs)%Z then
    let capacity := next_capacity (m_capacity rs) in
    next_rows ← realloc (m_array rs);
    match next_rows with
    | None => mret (fail «"failed to allocate rowset"», mkMRowSet (m_array rs) (m_rows rs) capacity (m_columns rs))
    | Some a => mret (Ok (), mkMRowSet (Some a) (m_rows rs ++ [r]) capacity (m_columns rs))
    end
  else mret (Ok (), mkMRowSet (m_array rs) (m_rows rs ++ [r]) (m_capacity rs) (m_columns rs)).

(** The loop of [read_csv_rows]; [file] is the open stream. *)
Fixpoint read_lines_mem (expected_fields : nat) (file : nat) (rs : MRowSet) (chunks : list cstr)
    : M (result SqlError () * MRowSet) :=
  match chunks with
  | [] => _ ← release file; mret (Ok (), rs)
  | chunk :: chunks' =>
      let line := rstrip is_line_end (c_string chunk) in
      match line with
      | [] => read_lines_mem expected_fields file rs chunks'
      | _ =>
          r ← parse_csv_line_mem line expected_fields;
          match r with
          | Err e => _ ← release file; rs ← free_rowset rs; mret (Err e, rs)
          | Ok row =>
              '(r, rs) ← rowset_append_mem rs row;
              match r with
              | Err e => _ ← release file; rs ← free_rowset rs; mret (Err e, rs)
              | Ok _ => read_lines_mem expected_fields file rs chunks'
              end
          end
      end
  end.

(** [fopen] fails when there is no file, and may fail when there is one. *)
Definition read_csv_rows_mem (w : World) (db_root table_name : cstr) (expected_fields : nat)
    : M (result SqlError () * MRowSet) :=
  let rs := mkMRowSet None [] 0 expected_fields in
  let path := build_table_path db_root table_name in
  match files w !! path with
  | None => mret (fail («"failed to open table file: "» ++ path), rs)
  | Some content =>
      file ← acquire;
      match file with
      | None => mret (fail («"failed to open table file: "» ++ path), rs)
      | Some file => read_lines_mem expected_fields file rs (fgets_chunks (LINE_BUFFER_SIZE - 1) [] content)
      end
  end.

(** ** Specification *)

Definition row_blocks (r : MRow) : list nat := ptr (row_fields r) ++ map block (row_values r).
Definition rowset_blocks (rs : MRowSet) : list nat := ptr (m_array rs) ++ (m_rows rs ≫= row_blocks).

Definition row_of (r : MRow) : Row := map text (row_values r).
Definition rowset_of (rs : MRowSet) : RowSet := mkRowSet (map row_of (m_rows rs)) (m_capacity rs) (m_columns rs).

(** ** Lemmas: releasing *)

Lemma triple_free_fields fields vs :
  triple (ptr fields ++ map block vs) (free_fields fields vs) (λ _, []) (λ _, True) (λ _, True).
Proof.
  eapply (triple_seq (ptr fields)); [apply triple_free_values|rewrite reverse_Permutation; solve_Permutation|].
  intros [] _. eapply triple_conseq; [apply triple_free|done|auto].
Qed.

Lemma triple_free_rowset rs :
  triple (rowset_blocks rs) (free_rowset rs) rowset_blocks (λ rs', rs' = mkMRowSet None [] 0 0) (λ _, True).
Proof.
  assert (Hrows : ∀ l, triple (l ≫= row_blocks) (free_rows l) (λ _, []) (λ _, True) (λ _, True)).
  { induction l as [|r l IH]; simpl; [by apply triple_ret|]. unfold row_blocks at 1.
    call triple_free_values with (ptr (row_fields r) ++ (l ≫= row_blocks)).
    call triple_free with (l ≫= row_blocks). eapply triple_conseq; [exact IH|done|auto]. }
  unfold free_rowset, rowset_blocks. call Hrows with (ptr (m_array rs)). call triple_free with (@nil nat). finish.
Qed.

(** ** Lemmas: reading *)

Lemma triple_append_field fields vs value :
  triple (ptr fields ++ map block vs) (append_field fields vs value) (λ '(_, (fields', vs')), ptr fields' ++ map block vs')
    (λ '(r, (_, vs')), match r with Ok _ => map text vs' = map text vs ++ [value] | Err _ => True end)
    (λ '(r, _), is_ok r = true).
Proof.
  unfold append_field. call triple_realloc with (map block vs) as [a|] _.
  - call triple_strdup with (a :: map block vs) as [v|] Hv.
    + finish; [rewrite map_app; simpl; solve_Permutation|]. rewrite map_app. simpl. by rewrite (Hv v).
    + finish.
  - finish.
Qed.

Lemma triple_csv_scan line in_quotes buf buffer fields vs :
  triple (buf :: ptr fields ++ map block vs) (csv_scan_mem line in_quotes buf buffer fields vs)
    (λ r, match r with Ok (fields', vs') => ptr fields' ++ map block vs' | Err _ => [] end)
    (λ r, match r with Ok (_, vs') => csv_scan line in_quotes buffer (map text vs) = Ok (map text vs') | Err _ => True end)
    (λ r, match r with Err e => csv_scan line in_quotes buffer (map text vs) = Err e | Ok _ => True end).
Proof.
  revert in_quotes buffer fields vs. induction line as [line IH] using (induction_ltof1 _ length). unfold ltof in IH.
  intros in_quotes buffer fields vs. destruct line as [|ch line]; simpl.
  { destruct in_quotes.
    - call triple_release with (ptr fields ++ map block vs). call triple_free_fields with (@nil nat). finish.
    - call triple_append_field with [buf] as [[[]|e] [fields' vs']] Hvs.
      + call triple_release with (ptr fields' ++ map block vs'). finish. by rewrite Hvs.
      + call triple_release with (ptr fields' ++ map block vs'). call triple_free_fields with (@nil nat). finish. }
  assert (Hgo : ∀ line' iq b, length line' < length (ch :: line) →
    triple (buf :: ptr fields ++ map block vs) (csv_scan_mem line' iq buf b fields vs)
      (λ r, match r with Ok (fields', vs') => ptr fields' ++ map block vs' | Err _ => [] end)
      (λ r, match r with Ok (_, vs') => csv_scan line' iq b (map text vs) = Ok (map text vs') | Err _ => True end)
      (λ r, match r with Err e => csv_scan line' iq b (map text vs) = Err e | Ok _ => True end)) by auto.
  destruct in_quotes.
  { destruct (Ascii.eqb ch DQUOTE); [|apply Hgo; simpl; lia].
    destruct line as [|d line]; [apply Hgo; simpl; lia|]. destruct (Ascii.eqb d DQUOTE); apply Hgo; simpl; lia. }
  destruct (Ascii.eqb ch DQUOTE); [apply Hgo; simpl; lia|].
  destruct (Ascii.eqb ch ","); [|apply Hgo; simpl; lia].
  call triple_append_field with [buf] as [[[]|e] [fields' vs']] Hvs.
  - eapply triple_conseq; [apply (IH line); simpl; lia|solve_Permutation|]. rewrite Hvs. intros [[f v]|e]; simpl; auto.
  - call triple_release with (ptr fields' ++ map block vs'). call triple_free_fields with (@nil nat). finish.
Qed.

Lemma triple_parse_csv_line line expected :
  triple [] (parse_csv_line_mem line expected) (λ r, match r with Ok row => row_blocks row | Err _ => [] end)
    (λ r, match r with Ok row => parse_csv_line line expected = Ok (row_of row) | Err _ => True end)
    (λ r, match r with Err e => parse_csv_line line expected = Err e | Ok _ => True end).
Proof.
  unfold parse_csv_line_mem, parse_csv_line. call triple_acquire with (@nil nat) as [buf|] _; [|finish].
  call triple_csv_scan with (@nil nat) as [[fields vs]|e] Hvs.
  - simpl in Hvs. rewrite Hvs. simpl. rewrite length_map. destruct (Nat.eqb (length vs) expected); [finish|].
    call triple_free_fields with (@nil nat). finish.
  - finish. simpl. by intros ->.
Qed.

(** The row goes into the row set, or, when the array cannot grow, nowhere. *)
Lemma leaks_rowset_append rs row :
  leaks (rowset_blocks rs ++ row_blocks row) (rowset_append_mem rs row) (λ '(_, rs'), rowset_blocks rs')
    (λ '(r, rs') leak, match r with
                       | Ok _ => leak = [] ∧ rowset_of rs' = rowset_append (rowset_of rs) (row_of row)
                       | Err e => Err (A := ()) e = fail «"failed to allocate rowset"» ∧ leak = row_blocks row
                       end)
    (λ '(r, _) _, is_ok r = true).
Proof.
  unfold rowset_append_mem, rowset_append, rowset_blocks, rowset_of, row_count. cbn [rows row_capacity rowset_column_count].
  rewrite length_map. destruct (_ =? _)%Z.
  - call triple_realloc with ((m_rows rs ≫= row_blocks) ++ row_blocks row) as [a|] _.
    + apply (leaks_ret _ _ _ []); simpl; [|by rewrite map_app|done].
      rewrite bind_app. simpl. solve_Permutation.
    + apply (leaks_ret _ _ _ (row_blocks row)); simpl; [solve_Permutation|done|by intros [? ?]].
  - apply (leaks_ret _ _ _ []); simpl; [|by rewrite map_app|done]. rewrite bind_app. simpl. solve_Permutation.
Qed.

(** Reading leaks at most one row, and only when a request failed. *)
Definition read_leak {A} (r : result SqlError A) (leak : list nat) : Prop :=
  leak = [] ∨ (r = fail «"failed to allocate rowset"» ∧ ∃ row, leak = row_blocks row).

Lemma leaks_read_lines expected file rs chunks :
  leaks (file :: rowset_blocks rs) (read_lines_mem expected file rs chunks) (λ '(_, rs'), rowset_blocks rs')
    (λ '(r, rs') leak, read_leak r leak ∧
       match r with Ok _ => leak = [] ∧ read_lines expected (rowset_of rs) chunks = Ok (rowset_of rs') | Err _ => rowset_blocks rs' = [] end)
    (λ '(r, _) leak, leak = [] ∧ match r with Err e => read_lines expected (rowset_of rs) chunks = Err e | Ok _ => True end).
Proof.
  revert rs. induction chunks as [|chunk chunks IH]; intros rs; simpl.
  { call triple_release with (rowset_blocks rs). apply (leaks_ret _ _ _ []); simpl; [by rewrite (right_id_L [] (++))|..]; [|done].
    split; [by left|done]. }
  destruct (rstrip is_line_end (c_string chunk)) as [|c line] eqn:Hline; [apply IH|].
  call triple_parse_csv_line with (file :: rowset_blocks rs) as [row|e] Hrow.
  2: { call triple_release with (rowset_blocks rs). call triple_free_rowset with (@nil nat) as rs' Hrs'. subst rs'.
       apply (leaks_ret _ _ _ []); simpl; [done|split; [by left|done]|]. by intros _ _ ->. }
  rewrite Hrow. simpl.
  eapply (leaks_seq [file]); [apply leaks_rowset_append|solve_Permutation|]. intros [[[]|e] rs'] leak Hr; simpl.
  - destruct Hr as [-> Hrs']. rewrite <- Hrs'. eapply leaks_conseq; [apply IH|solve_Permutation|].
    intros [[[]|e] rs''] leak (Hleak & Hr); simpl in *; auto.
  - call triple_release with (rowset_blocks rs'). call triple_free_rowset with (@nil nat) as rs'' Hrs''. subst rs''.
    destruct Hr as [He ->].
    apply (leaks_ret _ _ _ []); simpl; [done| |by intros]. rewrite (right_id_L [] (++)). split; [|done].
    right. eauto.
Qed.

Lemma leaks_read_csv_rows w db_root table_name expected :
  leaks [] (read_csv_rows_mem w db_root table_name expected) (λ '(_, rs), rowset_blocks rs)
    (λ '(r, rs) leak, read_leak r leak ∧
       match r with
       | Ok _ => leak = [] ∧ read_csv_rows w db_root table_name expected = Ok (rowset_of rs)
       | Err _ => rowset_blocks rs = []
       end)
    (λ '(r, _) leak, leak = [] ∧ match r with Err e => read_csv_rows w db_root table_name expected = Err e | Ok _ => True end).
Proof.
  unfold read_csv_rows_mem, read_csv_rows. destruct (files w !! _) as [content|].
  2: { apply (leaks_ret _ _ _ []); simpl; [done| |done]. by split; [left|]. }
  call triple_acquire with (@nil nat) as [file|] _.
  - eapply leaks_conseq; [apply leaks_read_lines|done|]. intros [[[]|e] rs'] leak Hr; simpl in *; split_and!; naive_solver.
  - apply (leaks_ret _ _ _ []); simpl; [done| |naive_solver]. by split; [left|].
Qed.

(** ** Examples *)

(** The second request for the array of rows fails: the row that was read, its array of fields and
    its field, stays held. *)
Lemma read_csv_rows_leak :
  let w := mkWorld {[ build_table_path «"db"» «"t"» := concat (replicate 9 («"1"» ++ [LF])) ]} (λ _, true) id stream_works in
  let '((r, rs), m) := read_csv_rows_mem w «"db"» «"t"» 1 (mkMem [] 0 (replicate 29 true ++ [false]) false) in
  is_ok r = false ∧ rowset_blocks rs = [] ∧ fault m = false ∧ length (held m) = 2.
Proof. vm_compute. done. Qed.
