(* ===== verification/DbContext.v ===== *)
(** * [src/src/index/db_context.c], [src/include/db_context.h]: loaded tables

    A table in memory is its schema, its rows, an index from ids to row positions and the next
    automatic id.  The index is used only through the [RowIndex] interface, so everything here
    holds for any implementation of it; the program's is the B+ tree.  A [TableState *] into
    [ctx->tables] is the position of the table in the list. *)

From stdpp Require Import base list strings sets gmap.
From Stdlib Require Import Ascii.
From S2P Require Import Prelude CString Common Index BPTree Schema Storage.

(** ** Values stored in typed columns *)

Definition is_sign (c : ascii) : bool := Ascii.eqb c "-" || Ascii.eqb c "+".

Definition skip_sign (text : cstr) : cstr := if is_sign (peek text) then tail text else text.

Definition is_integer_string (text : cstr) : bool :=
  match skip_sign text with
  | [] => false
  | digits => forallb isdigit digits
  end.

(** The loop of [is_float_string] with its two flags. *)
Fixpoint float_scan (text : cstr) (saw_digit saw_dot : bool) : bool :=
  match text with
  | [] => saw_digit
  | c :: text' =>
      if isdigit c then float_scan text' true saw_dot
      else if Ascii.eqb c "." && negb saw_dot then float_scan text' saw_digit true
      else false
  end.

Definition is_float_string (text : cstr) : bool := float_scan (skip_sign text) false false.

Definition is_int_column (c : ColumnDef) : bool := bool_decide (col_type c = COLUMN_TYPE_INT).
Definition is_float_column (c : ColumnDef) : bool := bool_decide (col_type c = COLUMN_TYPE_FLOAT).

Definition validate_loaded_value (c : ColumnDef) (value : cstr) : result SqlError () :=
  if is_int_column c && negb (is_integer_string value) then
    fail («"invalid persisted int for column "» ++ col_name c ++ «": "» ++ value)
  else if is_float_column c && negb (is_float_string value) then
    fail («"invalid persisted float for column "» ++ col_name c ++ «": "» ++ value)
  else Ok ().

(** The inner loop, over the columns and the fields of one row in parallel. *)
Fixpoint validate_fields (check : ColumnDef → cstr → result SqlError ()) (cols : list ColumnDef) (fields : Row)
    : result SqlError () :=
  match cols, fields with
  | c :: cols', v :: fields' => _ ← check c v; validate_fields check cols' fields'
  | _, _ => Ok ()
  end.

Fixpoint validate_loaded_rows (s : Schema) (rs : list Row) : result SqlError () :=
  match rs with
  | [] => Ok ()
  | r :: rs' =>
      if negb (Nat.eqb (length r) (column_count s))
      then fail «"persisted row field count does not match schema"»
      else
        _ ← validate_fields validate_loaded_value (columns s) r;
        validate_loaded_rows s rs'
  end.

Definition validate_loaded_rowset (s : Schema) (rs : RowSet) : result SqlError () :=
  validate_loaded_rows s (rows rs).

(** ** Tables *)

Definition TABLE_NAME_SIZE : nat := 256.

(** [row->fields[index]].  An index outside the row is undefined in C; the theorems that read
    fields assume or establish that it is inside. *)
Definition field_at (r : Row) (index : Z) : cstr := default [] (r !! Z.to_nat index).

(** The id of a row. *)
Definition row_id (s : Schema) (r : Row) : Z := atoi (field_at r (primary_key_index s)).

Section DbContext.
Context `{RowIndex Idx}.

Record TableState := mkTableState {
  name : cstr;
  schema : Schema;
  rowset : RowSet;
  index : Idx;
  next_id : Z
}.

(** The indexing loop of [table_state_load]: row [row_index] onwards. *)
Fixpoint build_index (s : Schema) (idx : Idx) (max_id row_index : Z) (rs : list Row)
    : result SqlError (Idx * Z) :=
  match rs with
  | [] => Ok (idx, max_id)
  | r :: rs' =>
      let id := row_id s r in
      idx' ← index_insert idx id row_index;
      build_index s idx' (if (max_id <? id)%Z then id else max_id) (row_index + 1) rs'
  end.

(** [max_id + 1], replaced by 1 when it is not positive. *)
Definition initial_next_id (max_id : Z) : Z :=
  let n := wrap32 (max_id + 1) in if (n <=? 0)%Z then 1%Z else n.

Definition table_state_load (w : World) (db_root table_name : cstr) : result SqlError TableState :=
  s ← load_schema w db_root table_name;
  rs ← read_csv_rows w db_root table_name (column_count s);
  _ ← validate_loaded_rowset s rs;
  if (primary_key_index s <? 0)%Z then
    fail («"table "» ++ table_name ++ «" is missing a valid primary key"»)
  else
    '(idx, max_id) ← build_index s index_empty 0 0 (rows rs);
    Ok (mkTableState (bounded TABLE_NAME_SIZE table_name) s rs idx (initial_next_id max_id)).

(** ** The context *)

Record DbContext := mkDbContext {
  db_root : cstr;
  tables : list TableState
}.

Definition db_context_create (root : cstr) : DbContext :=
  mkDbContext (bounded SQL_PATH_BUFFER_SIZE root) [].

(** The position of the first table with this name. *)
Fixpoint find_table (ts : list TableState) (table_name : cstr) : option nat :=
  match ts with
  | [] => None
  | t :: ts' => if bool_decide (name t = table_name) then Some 0%nat else S <$> find_table ts' table_name
  end.

(** The table's position, and the context, which gains the table when it was not loaded. *)
Definition db_context_get_table (w : World) (ctx : DbContext) (table_name : cstr)
    : result SqlError nat * DbContext :=
  match find_table (tables ctx) table_name with
  | Some i => (Ok i, ctx)
  | None =>
      match table_state_load w (db_root ctx) table_name with
      | Err e => (Err e, ctx)
      | Ok t => (Ok (length (tables ctx)), mkDbContext (db_root ctx) (tables ctx ++ [t]))
      end
  end.

Definition db_context_reload_table (w : World) (ctx : DbContext) (table_name : cstr)
    : result SqlError () * DbContext :=
  match find_table (tables ctx) table_name with
  | None => (fail («"table not loaded: "» ++ table_name), ctx)
  | Some i =>
      match table_state_load w (db_root ctx) table_name with
      | Err e => (Err e, ctx)
      | Ok t => (Ok (), mkDbContext (db_root ctx) (<[i := t]> (tables ctx)))
      end
  end.

End DbContext.
Arguments TableState : clear implicits.
Arguments DbContext : clear implicits.

(** ** Specification *)

Definition value_ok (c : ColumnDef) (v : cstr) : bool :=
  implb (is_int_column c) (is_integer_string v) && implb (is_float_column c) (is_float_string v).

Definition row_ok (s : Schema) (r : Row) : Prop :=
  length r = column_count s ∧ Forall2 (λ c v, value_ok c v = true) (columns s) r.

(** The ids of the rows, in row order. *)
Definition row_ids (s : Schema) (rs : list Row) : list Z := map (row_id s) rs.

(** The next automatic id is above every id, unless the largest [int] is taken. *)
Definition next_id_ok (ids : list Z) (next : Z) : Prop :=
  INT_MAX ∈ ids ∨ ((0 < next)%Z ∧ is_int next ∧ ∀ id, id ∈ ids → (id < next)%Z).

Section Invariant.
Context `{RowIndex Idx}.

(** The index maps exactly the ids to the positions of their rows. *)
Definition index_agrees (idx : Idx) (ids : list Z) : Prop :=
  ∀ k r, index_map idx !! k = Some r ↔ (0 <= r)%Z ∧ ids !! Z.to_nat r = Some k.

Record table_ok (t : TableState Idx) : Prop := {
  table_schema_ok : schema_ok (schema t);
  table_key : (0 <= primary_key_index (schema t))%Z;
  table_capacity : capacity_ok (rowset t);
  table_rows : Forall (row_ok (schema t)) (rows (rowset t));
  table_index_ok : index_ok (index t);
  table_index : index_agrees (index t) (row_ids (schema t) (rows (rowset t)));
  table_next_id : next_id_ok (row_ids (schema t) (rows (rowset t))) (next_id t)
}.

Definition ctx_ok (ctx : DbContext Idx) : Prop := Forall table_ok (tables ctx).

End Invariant.

(** ** Lemmas: validation *)

Lemma validate_loaded_value_ok c v :
  validate_loaded_value c v = Ok () ↔ value_ok c v = true.
Proof.
  unfold validate_loaded_value, value_ok, fail.
  destruct (is_int_column c), (is_float_column c), (is_integer_string v), (is_float_string v); done.
Qed.

Lemma validate_fields_ok check cols fields :
  (∀ c v, check c v = Ok () ↔ value_ok c v = true) → length fields = length cols →
  validate_fields check cols fields = Ok () ↔ Forall2 (λ c v, value_ok c v = true) cols fields.
Proof.
  intros Hcheck. revert fields. induction cols as [|c cols IH]; intros [|v fields] Hlen; try done.
  cbn [validate_fields]. rewrite Forall2_cons, <- Hcheck, <- IH by (simpl in Hlen; lia).
  destruct (check c v) as [[]|e]; simpl; naive_solver.
Qed.

Lemma validate_loaded_rows_ok s rs :
  validate_loaded_rows s rs = Ok () ↔ Forall (row_ok s) rs.
Proof.
  induction rs as [|r rs IH]; simpl; [done|]. rewrite Forall_cons, <- IH. unfold row_ok.
  destruct (Nat.eqb_spec (length r) (column_count s)) as [Hl|Hl]; simpl; [|unfold fail; naive_solver].
  rewrite <- (validate_fields_ok validate_loaded_value) by (apply validate_loaded_value_ok || done).
  destruct (validate_fields _ _ r) as [[]|]; simpl; naive_solver.
Qed.

(** ** Lemmas: building the index *)

Lemma lookup_snoc_Some_iff {A} (l : list A) x i y :
  (l ++ [x]) !! i = Some y ↔ l !! i = Some y ∨ (i = length l ∧ x = y).
Proof.
  rewrite lookup_app_Some. split; intros [?|[? ?]]; [by left| |by left|].
  - right. destruct (i - length l)%nat eqn:E; simpl in *; [|done]. simplify_eq. split; [lia|done].
  - right. subst. by rewrite Nat.sub_diag.
Qed.

Section BuildIndex.
Context `{RowIndex Idx}.
Implicit Types idx : Idx.

Lemma index_agrees_empty : index_agrees (Idx := Idx) index_empty [].
Proof. intros k r. rewrite index_empty_map, lookup_empty. split; [done|]. by intros [_ ?]. Qed.

Lemma index_agrees_NoDup idx ids : index_agrees idx ids → NoDup ids.
Proof.
  intros Ha. apply NoDup_alt. intros i j k Hi Hj.
  assert (Hmap : ∀ n, ids !! n = Some k → index_map idx !! k = Some (Z.of_nat n)).
  { intros n Hn. apply Ha. rewrite Nat2Z.id. split; [lia|done]. }
  pose proof (Hmap i Hi) as H1. rewrite (Hmap j Hj) in H1. injection H1. lia.
Qed.

Lemma index_agrees_elem idx ids k : index_agrees idx ids → k ∈ ids ↔ is_Some (index_map idx !! k).
Proof.
  intros Ha. rewrite list_elem_of_lookup. split.
  - intros [n Hn]. exists (Z.of_nat n). apply Ha. rewrite Nat2Z.id. split; [lia|done].
  - intros [r Hr]. apply Ha in Hr as [_ ?]. eauto.
Qed.

Lemma index_agrees_snoc idx idx' ids k :
  index_agrees idx ids → index_map idx !! k = None →
  index_map idx' = <[k := Z.of_nat (length ids)]> (index_map idx) → index_agrees idx' (ids ++ [k]).
Proof.
  intros Ha Hk Hmap k' r. rewrite Hmap, lookup_snoc_Some_iff.
  destruct (decide (k = k')) as [<-|Hne].
  - rewrite lookup_insert_eq. split.
    + intros [= <-]. split; [lia|]. right. by rewrite Nat2Z.id.
    + intros [Hr [Hin|[Hlen _]]].
      * assert (index_map idx !! k = Some r) by (apply Ha; done). congruence.
      * f_equal. lia.
  - rewrite lookup_insert_ne by done. rewrite (Ha k' r). naive_solver.
Qed.

Lemma index_insert_agrees idx ids k :
  index_ok idx → index_agrees idx ids → k ∉ ids →
  ∃ idx', index_insert idx k (Z.of_nat (length ids)) = Ok idx' ∧ index_ok idx' ∧ index_agrees idx' (ids ++ [k]).
Proof.
  intros Hok Ha Hk. assert (Hnone : index_map idx !! k = None).
  { destruct (index_map idx !! k) eqn:E; [|done]. destruct Hk. apply (index_agrees_elem idx); eauto. }
  destruct (index_insert_new idx k (Z.of_nat (length ids)) Hok Hnone) as (idx' & Hins & Hok' & Hmap).
  exists idx'. split_and!; [done|done|]. by eapply index_agrees_snoc.
Qed.

Lemma index_insert_agrees_dup idx ids k r :
  index_ok idx → index_agrees idx ids → k ∈ ids →
  index_insert idx k r = fail («"duplicate id: "» ++ show_int k).
Proof. intros Hok Ha Hk. apply index_insert_dup; [done|]. by apply (index_agrees_elem idx ids). Qed.

Definition max_id_from (m : Z) (ids : list Z) : Z := fold_left Z.max ids m.

Lemma build_index_fresh s idx ids m rs :
  index_ok idx → index_agrees idx ids → NoDup (ids ++ row_ids s rs) →
  ∃ idx', build_index s idx m (Z.of_nat (length ids)) rs = Ok (idx', max_id_from m (row_ids s rs)) ∧
    index_ok idx' ∧ index_agrees idx' (ids ++ row_ids s rs).
Proof.
  revert idx ids m. induction rs as [|r rs IH]; intros idx ids m Hok Ha Hnd; cbn [build_index].
  { exists idx. by rewrite app_nil_r. }
  simpl in Hnd. assert (Hk : row_id s r ∉ ids).
  { intros Hin. apply NoDup_app in Hnd as (_ & Hd & _). apply (Hd _ Hin). by left. }
  destruct (index_insert_agrees idx ids (row_id s r) Hok Ha Hk) as (idx1 & -> & Hok1 & Ha1). simpl.
  destruct (IH idx1 (ids ++ [row_id s r]) (Z.max m (row_id s r))) as (idx' & Hb & Hok' & Ha').
  { done. } { done. } { by rewrite <- app_assoc. }
  rewrite length_app in Hb. simpl in Hb. exists idx'. rewrite <- app_assoc in Ha'. split_and!; [|done|done].
  replace (if (m <? row_id s r)%Z then row_id s r else m) with (Z.max m (row_id s r))
    by (destruct (Z.ltb_spec m (row_id s r)); lia).
  by replace (Z.of_nat (length ids) + 1)%Z with (Z.of_nat (length ids + 1)) by lia.
Qed.

Lemma build_index_duplicate s idx ids m rs :
  index_ok idx → index_agrees idx ids → ¬ NoDup (ids ++ row_ids s rs) →
  ∃ id, id ∈ row_ids s rs ∧
    build_index s idx m (Z.of_nat (length ids)) rs = fail («"duplicate id: "» ++ show_int id).
Proof.
  revert idx ids m. induction rs as [|r rs IH]; intros idx ids m Hok Ha Hnd; cbn [build_index].
  { destruct Hnd. rewrite app_nil_r. by apply (index_agrees_NoDup idx). }
  destruct (decide (row_id s r ∈ ids)) as [Hin|Hk].
  - exists (row_id s r). split; [by left|]. by rewrite (index_insert_agrees_dup idx ids).
  - destruct (index_insert_agrees idx ids (row_id s r) Hok Ha Hk) as (idx1 & -> & Hok1 & Ha1). simpl.
    destruct (IH idx1 (ids ++ [row_id s r]) (if (m <? row_id s r)%Z then row_id s r else m))
      as (id & Hid & Hb); [done|done|by rewrite <- app_assoc|].
    exists id. split; [by right|]. rewrite length_app in Hb. simpl in Hb.
    by replace (Z.of_nat (length ids) + 1)%Z with (Z.of_nat (length ids + 1)) by lia.
Qed.

(** Building from the empty index succeeds exactly when the ids are distinct. *)
Lemma build_index_empty s rs idx m :
  build_index (Idx := Idx) s index_empty 0 0 rs = Ok (idx, m) →
  index_ok idx ∧ index_agrees idx (row_ids s rs) ∧ m = max_id_from 0 (row_ids s rs).
Proof.
  intros Hb. destruct (decide (NoDup (row_ids s rs))) as [Hnd|Hnd].
  - destruct (build_index_fresh s index_empty [] 0 rs) as (idx' & Hb' & ? & ?);
      [apply index_empty_ok|apply index_agrees_empty|done|].
    change (Z.of_nat (length [])) with 0%Z in Hb'. rewrite Hb in Hb'. by simplify_eq.
  - destruct (build_index_duplicate s index_empty [] 0 rs) as (id & _ & Hb');
      [apply index_empty_ok|apply index_agrees_empty|done|].
    change (Z.of_nat (length [])) with 0%Z in Hb'. by rewrite Hb in Hb'.
Qed.

End BuildIndex.

(** ** Lemmas: loading a table *)

Lemma max_id_from_spec m ids :
  (m <= max_id_from m ids)%Z ∧ (∀ id, id ∈ ids → (id <= max_id_from m ids)%Z) ∧
  (max_id_from m ids = m ∨ max_id_from m ids ∈ ids).
Proof.
  revert m. induction ids as [|x ids IH]; intros m; unfold max_id_from in *; simpl.
  { split_and!; [lia|set_solver|by left]. }
  destruct (IH (Z.max m x)) as (Hle & Hall & Hin). split_and!; [lia| |].
  - intros id [-> |Hid]%elem_of_cons; [lia|by apply Hall].
  - destruct Hin as [-> |]; [|by right; right].
    destruct (Z.max_spec m x) as [[_ ->]|[_ ->]]; [right; by left|by left].
Qed.

Lemma row_ids_int s rs id : id ∈ row_ids s rs → is_int id.
Proof. intros (r & -> & _)%list_elem_of_fmap. apply atoi_is_int. Qed.

Lemma initial_next_id_ok s rs :
  next_id_ok (row_ids s rs) (initial_next_id (max_id_from 0 (row_ids s rs))).
Proof.
  destruct (max_id_from_spec 0 (row_ids s rs)) as (Hle & Hall & Hin).
  assert (Hint : is_int (max_id_from 0 (row_ids s rs))).
  { destruct Hin as [-> |Hin]; [done|]. by eapply row_ids_int. }
  destruct (decide (INT_MAX ∈ row_ids s rs)) as [?|Hmax]; [by left|]. right.
  assert ((max_id_from 0 (row_ids s rs) < INT_MAX)%Z).
  { destruct Hin as [-> |Hin]; [done|]. destruct Hint as [_ Hub].
    destruct (decide (max_id_from 0 (row_ids s rs) = INT_MAX)) as [E|]; [|lia]. rewrite E in Hin. done. }
  unfold initial_next_id. unfold is_int in *. rewrite wrap32_id by (unfold is_int, INT_MIN in *; lia).
  case_match; breflect; [unfold INT_MIN in *; lia|]. unfold INT_MIN in *.
  split_and!; [lia..|]. intros id Hid. specialize (Hall id Hid). lia.
Qed.

Section Load.
Context `{RowIndex Idx}.

Lemma table_state_load_inv w db t tab :
  table_state_load w db t = Ok tab →
  load_schema w db t = Ok (schema tab) ∧
  read_csv_rows w db t (column_count (schema tab)) = Ok (rowset tab) ∧
  Forall (row_ok (schema tab)) (rows (rowset tab)) ∧
  (0 <= primary_key_index (schema tab))%Z ∧
  name tab = bounded TABLE_NAME_SIZE t ∧
  build_index (schema tab) index_empty 0 0 (rows (rowset tab)) =
    Ok (index tab, max_id_from 0 (row_ids (schema tab) (rows (rowset tab)))) ∧
  next_id tab = initial_next_id (max_id_from 0 (row_ids (schema tab) (rows (rowset tab)))).
Proof.
  unfold table_state_load. destruct (load_schema w db t) as [s|] eqn:Hs; simpl; [|done].
  destruct (read_csv_rows w db t (column_count s)) as [rs|] eqn:Hr; simpl; [|done].
  unfold validate_loaded_rowset. destruct (validate_loaded_rows s (rows rs)) as [[]|] eqn:Hv; simpl; [|done].
  destruct (Z.ltb_spec (primary_key_index s) 0) as [|Hpk]; [done|].
  destruct (build_index s index_empty 0 0 (rows rs)) as [[idx m]|] eqn:Hb; simpl; [|done].
  intros [= <-]. simpl. destruct (build_index_empty _ _ _ _ Hb) as (_ & _ & ->).
  by rewrite <- validate_loaded_rows_ok.
Qed.

Lemma table_state_load_table_ok w db t tab :
  table_state_load w db t = Ok tab → schema_ok (schema tab) → table_ok tab.
Proof.
  intros (_ & Hr & Hv & Hpk & _ & Hb & Hn)%table_state_load_inv Hs.
  apply read_csv_rows_ok in Hr as [[Hcap _] _]. apply build_index_empty in Hb as (Hiok & Ha & _).
  constructor; [done..|]. rewrite Hn. apply initial_next_id_ok.
Qed.

(** Building a table from its parts, the converse. *)
Lemma table_state_load_intro w db t s rs :
  load_schema w db t = Ok s → read_csv_rows w db t (column_count s) = Ok rs →
  Forall (row_ok s) (rows rs) → (0 <= primary_key_index s)%Z → NoDup (row_ids s (rows rs)) →
  ∃ idx, build_index s index_empty 0 0 (rows rs) = Ok (idx, max_id_from 0 (row_ids s (rows rs))) ∧
    table_state_load w db t = Ok (mkTableState (bounded TABLE_NAME_SIZE t) s rs idx
      (initial_next_id (max_id_from 0 (row_ids s (rows rs))))).
Proof.
  intros Hs Hr Hv Hpk Hnd.
  destruct (build_index_fresh s index_empty [] 0 (rows rs)) as (idx & Hb & _ & _);
    [apply index_empty_ok|apply index_agrees_empty|done|].
  change (Z.of_nat (length [])) with 0%Z in Hb. exists idx. split; [done|].
  unfold table_state_load. rewrite Hs. simpl. rewrite Hr. simpl. unfold validate_loaded_rowset.
  rewrite (proj2 (validate_loaded_rows_ok s (rows rs))) by done. simpl.
  destruct (Z.ltb_spec (primary_key_index s) 0); [lia|]. by rewrite Hb.
Qed.

Lemma find_table_Some ts n i :
  find_table ts n = Some i → ∃ t : TableState Idx, ts !! i = Some t ∧ name t = n.
Proof.
  revert i. induction ts as [|t ts IH]; intros i; simpl; [done|]. case_bool_decide; [naive_solver|].
  destruct (find_table ts n); simpl; [|done]. intros [= <-]. by apply IH.
Qed.

Lemma find_table_snoc ts (t : TableState Idx) n :
  find_table ts n = None → name t = n → find_table (ts ++ [t]) n = Some (length ts).
Proof.
  intros Hn <-. induction ts as [|x ts IH]; simpl in *; [by rewrite bool_decide_eq_true_2|].
  case_bool_decide; [done|]. destruct (find_table ts (name t)); [done|]. by rewrite IH.
Qed.

(** Loading keeps the context invariant, when the schemas are well formed. *)
Lemma get_table_ctx_ok w ctx n r ctx' :
  (∀ t, table_state_load w (db_root ctx) n = Ok t → schema_ok (schema t)) →
  ctx_ok ctx → db_context_get_table w ctx n = (r, ctx') → ctx_ok ctx'.
Proof.
  intros Hs Hok. unfold db_context_get_table. destruct (find_table _ _); [by intros [= <- <-]|].
  destruct (table_state_load _ _ _) as [t|] eqn:Hl; intros [= <- <-]; [|done].
  apply Forall_app; split; [done|]. constructor; [|done].
  eapply table_state_load_table_ok; [done|by apply Hs].
Qed.

Lemma get_table_position w ctx n i ctx' :
  db_context_get_table w ctx n = (Ok i, ctx') → db_root ctx' = db_root ctx ∧ is_Some (tables ctx' !! i).
Proof.
  unfold db_context_get_table. destruct (find_table (tables ctx) n) as [j|] eqn:Hf.
  - intros [= <- <-]. split; [done|]. apply find_table_Some in Hf as (t & ? & _). by exists t.
  - destruct (table_state_load _ _ _) as [t|]; intros [= <- <-]. simpl. split; [done|].
    exists t. by rewrite list_lookup_middle.
Qed.

Lemma get_table_find w ctx n i ctx' :
  (length n < TABLE_NAME_SIZE)%nat →
  db_context_get_table w ctx n = (Ok i, ctx') → find_table (tables ctx') n = Some i.
Proof.
  intros Hlen. unfold db_context_get_table. destruct (find_table (tables ctx) n) as [j|] eqn:Hf.
  - by intros [= <- <-].
  - destruct (table_state_load _ _ _) as [t|] eqn:Hl; intros [= <- <-].
    apply table_state_load_inv in Hl as (_ & _ & _ & _ & Hn & _).
    simpl. apply find_table_snoc; [done|].
    rewrite Hn. unfold bounded. apply take_ge. unfold TABLE_NAME_SIZE in *. lia.
Qed.

Lemma get_table_again w w2 ctx n i ctx' :
  (length n < TABLE_NAME_SIZE)%nat →
  db_context_get_table w ctx n = (Ok i, ctx') → db_context_get_table w2 ctx' n = (Ok i, ctx').
Proof.
  intros Hlen Hg. apply get_table_find in Hg; [|done]. unfold db_context_get_table. by rewrite Hg.
Qed.

(** Replacing a table by one with the same name does not move any table. *)
Lemma find_table_insert ts i (t t' : TableState Idx) n :
  ts !! i = Some t → name t' = name t → find_table (<[i := t']> ts) n = find_table ts n.
Proof.
  revert i. induction ts as [|x ts IH]; intros [|i] Hi Hn; simpl in *; [done|done| |].
  - injection Hi as ->. by rewrite Hn.
  - by rewrite (IH i).
Qed.

End Load.

(** ** Properties *)

(** C9. Loading establishes the table invariant: for a schema file with at most one [columns]
    line, whatever the table file holds, a table that loads has a primary key column, rows of
    the schema's width whose values fit their column types, an index that maps exactly the ids
    of the rows to their positions (so ids are unique), and a next id above all of them, unless
    the largest [int] is already taken. *)
Theorem table_state_load_invariant `{RowIndex Idx} w db_root table_name (t : TableState Idx) :
  single_columns_line w db_root table_name →
  table_state_load w db_root table_name = Ok t → table_ok t.
Proof.
  intros Hs Hl. pose proof Hl as (Hsch & _)%table_state_load_inv.
  eapply table_state_load_table_ok; [done|]. by eapply load_schema_schema_ok.
Qed.

Definition sample_rows : list Row := [[«"1"»; «"kim"»; «"20"»]; [«"7"»; «"lee"»; «"-3"»]].

Definition sample_world : World :=
  mkWorld (<[ build_table_path «"data"» «"users"» := concat (map csv_row_text sample_rows) ]>
           {[ schema_path «"data"» «"users"» := print_schema users_schema ]}) (λ _, true) id stream_works.

Definition sample_table : TableState BPTree :=
  mkTableState «"users"» users_schema (mkRowSet sample_rows 8 3)
    (match insert_all [(1, 0); (7, 1)]%Z bptree_create with Ok t => t | Err _ => bptree_create end) 8.

Lemma sample_world_single : single_columns_line sample_world «"data"» «"users"».
Proof.
  intros content Hc. vm_compute in Hc. injection Hc as <-. apply Nat.leb_le. vm_compute. reflexivity.
Qed.

Lemma sample_table_load : table_state_load (Idx := BPTree) sample_world «"data"» «"users"» = Ok sample_table.
Proof. vm_compute. reflexivity. Qed.

Lemma table_state_load_invariant_witness : table_ok sample_table.
Proof.
  apply (table_state_load_invariant sample_world «"data"» «"users"»);
    [apply sample_world_single|apply sample_table_load].
Defined.

(** When the schema and the rows can be read and the schema has a primary key, loading
    succeeds exactly for valid rows with distinct ids, keeping the rows in file order; valid
    rows with a repeated id are rejected with the "duplicate id" error for one of the ids, and
    any invalid row is rejected. *)
Theorem table_state_load_spec `{RowIndex Idx} w db_root table_name s rs :
  load_schema w db_root table_name = Ok s →
  read_csv_rows w db_root table_name (column_count s) = Ok rs →
  (0 <= primary_key_index s)%Z →
  (Forall (row_ok s) (rows rs) → NoDup (row_ids s (rows rs)) →
     ∃ t : TableState Idx, table_state_load w db_root table_name = Ok t ∧ schema t = s ∧ rowset t = rs) ∧
  (Forall (row_ok s) (rows rs) → ¬ NoDup (row_ids s (rows rs)) →
     ∃ id, id ∈ row_ids s (rows rs) ∧
       table_state_load (Idx := Idx) w db_root table_name = fail («"duplicate id: "» ++ show_int id)) ∧
  (¬ Forall (row_ok s) (rows rs) → ∃ e, table_state_load (Idx := Idx) w db_root table_name = Err e).
Proof.
  intros Hs Hr Hpk. split_and!.
  - intros Hv Hnd. destruct (table_state_load_intro w db_root table_name s rs) as (idx & _ & Hl); eauto.
  - intros Hv Hnd.
    destruct (build_index_duplicate s (index_empty (Idx := Idx)) [] 0 (rows rs))
      as (id & Hid & Hb); [apply index_empty_ok|apply index_agrees_empty|done|].
    exists id. split; [done|]. unfold table_state_load. rewrite Hs. simpl. rewrite Hr. simpl.
    unfold validate_loaded_rowset. rewrite (proj2 (validate_loaded_rows_ok s (rows rs))) by done. simpl.
    destruct (Z.ltb_spec (primary_key_index s) 0); [lia|].
    change (Z.of_nat (length [])) with 0%Z in Hb. by rewrite Hb.
  - intros Hv. destruct (table_state_load w db_root table_name) as [t|e] eqn:Hl; [|by exists e].
    apply (table_state_load_inv (Idx := Idx)) in Hl as (Hs' & Hr' & Hv' & _). destruct Hv.
    rewrite Hs in Hs'. injection Hs' as ->. rewrite Hr in Hr'. by injection Hr' as ->.
Qed.

Lemma table_state_load_spec_witness :
  ∃ t : TableState BPTree, table_state_load sample_world «"data"» «"users"» = Ok t ∧
    schema t = users_schema ∧ rowset t = mkRowSet sample_rows 8 3.
Proof.
  apply (table_state_load_spec sample_world «"data"» «"users"» users_schema (mkRowSet sample_rows 8 3)).
  - vm_compute. reflexivity.
  - vm_compute. reflexivity.
  - done.
  - apply validate_loaded_rows_ok. vm_compute. reflexivity.
  - apply (bool_decide_unpack _). vm_compute. reflexivity.
Defined.

(** A loaded table stays loaded: once a table with a name of at most 255 bytes was found
    or loaded, asking for it again gives the same position and leaves the context alone,
    whatever happened to the files meanwhile.  (A longer name is cut in the table record and is
    loaded again on every use.) *)
Theorem get_table_cached `{RowIndex Idx} w w2 (ctx : DbContext Idx) table_name i ctx' :
  (length table_name < TABLE_NAME_SIZE)%nat →
  db_context_get_table w ctx table_name = (Ok i, ctx') →
  db_context_get_table w2 ctx' table_name = (Ok i, ctx').
Proof. intros Hlen Hg. by eapply get_table_again. Qed.

Lemma get_table_cached_witness :
  db_context_get_table (mkWorld ∅ (λ _, false) id stream_works) (mkDbContext «"data"» [sample_table]) «"users"»
  = (Ok 0%nat, mkDbContext «"data"» [sample_table]).
Proof.
  apply (get_table_cached sample_world _ (db_context_create «"data"»)).
  - apply Nat.ltb_lt. vm_compute. reflexivity.
  - vm_compute. reflexivity.
Defined.
