(* ===== verification/ContextMemory.v ===== *)
(** * [src/src/index/db_context.c]: the memory of the loaded tables

    A loaded table owns its schema, its rows and its index ([SchemaMemory], [StorageMemory],
    [IndexMemory]); the context owns the array of tables and the tables.  Loading, the cache,
    reloading and destroying, with requests that can fail. *)

From stdpp Require Import base list strings sets gmap.
From Stdlib Require Import Ascii.
From S2P Require Import Prelude CString Common Memory Index BPTree Schema Storage DbContext.
From S2P Require Import SchemaMemory StorageMemory IndexMemory.

Local Open Scope nat_scope.

Record MTable := mkMTable {
  mt_name : cstr;
  mt_schema : MSchema;
  mt_rowset : MRowSet;
  mt_index : option MTree;
  mt_next_id : Z
}.

Record MContext := mkMContext {
  mc_block : nat;
  mc_root : cstr;
  mc_array : option nat;
  mc_tables : list MTable
}.

(** [memset] to zero. *)
Definition zero_schema : MSchema := mkMSchema None None [] None 0 false.
Definition zero_rowset : MRowSet := mkMRowSet None [] 0 0.

Definition table_state_destroy (t : MTable) : M MTable :=
  s ← free_schema (mt_schema t);
  rs ← free_rowset (mt_rowset t);
  _ ← bptree_destroy (mt_index t);
  mret (mkMTable (mt_name t) s rs None 0).

(** The indexing loop of [table_state_load]. *)
Fixpoint build_index_mem (s : Schema) (idx : MTree) (max_id row_index : Z) (rs : list Row)
    : M (result SqlError Z * MTree) :=
  match rs with
  | [] => mret (Ok max_id, idx)
  | r :: rs' =>
      let id := row_id s r in
      '(r, idx) ← bptree_insert_mem idx id row_index;
      match r with
      | Err e => mret (Err e, idx)
      | Ok _ => build_index_mem s idx (if (max_id <? id)%Z then id else max_id) (row_index + 1) rs'
      end
  end.

(** [table_state_destroy] and return 0. *)
Definition load_fails (t : MTable) (e : result SqlError ()) : M (result SqlError () * MTable) :=
  t ← table_state_destroy t; mret (e, t).

Definition table_state_load_mem (w : World) (db_root table_name : cstr) : M (result SqlError () * MTable) :=
  let n := bounded TABLE_NAME_SIZE table_name in
  '(r, s) ← load_schema_mem w db_root table_name;
  match r with
  | Err e => load_fails (mkMTable n s zero_rowset None 0) (Err e)
  | Ok _ =>
      '(r, rs) ← read_csv_rows_mem w db_root table_name (length (s_columns s));
      let t := mkMTable n s rs None 0 in
      match r with
      | Err e => load_fails t (Err e)
      | Ok _ =>
          match validate_loaded_rowset (schema_of s) (rowset_of rs) with
          | Err e => load_fails t (Err e)
          | Ok _ =>
              if (s_key_index s <? 0)%Z then
                load_fails t (fail («"table "» ++ table_name ++ «" is missing a valid primary key"»))
              else
                idx ← bptree_create_mem;
                match idx with
                | None => load_fails t (fail «"failed to allocate B+ tree"»)
                | Some idx =>
                    '(r, idx) ← build_index_mem (schema_of s) idx 0 0 (rows (rowset_of rs));
                    match r with
                    | Err e => load_fails (mkMTable n s rs (Some idx) 0) (Err e)
                    | Ok max_id => mret (Ok (), mkMTable n s rs (Some idx) (initial_next_id max_id))
                    end
                end
          end
      end
  end.

Definition db_context_create_mem (root : cstr) : M (result SqlError MContext) :=
  p ← malloc;
  match p with
  | None => mret (fail «"failed to allocate db context"»)
  | Some b => mret (Ok (mkMContext b (bounded SQL_PATH_BUFFER_SIZE root) None []))
  end.

Fixpoint destroy_tables (ts : list MTable) : M () :=
  match ts with [] => mret () | t :: ts' => _ ← table_state_destroy t; destroy_tables ts' end.

Definition db_context_destroy (ctx : MContext) : M () :=
  _ ← destroy_tables (mc_tables ctx);
  _ ← free (mc_array ctx);
  free (Some (mc_block ctx)).

Fixpoint find_table_mem (ts : list MTable) (table_name : cstr) : option nat :=
  match ts with
  | [] => None
  | t :: ts' => if bool_decide (mt_name t = table_name) then Some 0 else S <$> find_table_mem ts' table_name
  end.

(** The array has grown also when loading fails; the table is counted only when it is loaded. *)
Definition db_context_get_table_mem (w : World) (ctx : MContext) (table_name : cstr) : M (result SqlError nat * MContext) :=
  match find_table_mem (mc_tables ctx) table_name with
  | Some i => mret (Ok i, ctx)
  | None =>
      next_tables ← realloc (mc_array ctx);
      match next_tables with
      | None => mret (fail «"failed to expand db context tables"», ctx)
      | Some a =>
          '(r, t) ← table_state_load_mem w (mc_root ctx) table_name;
          match r with
          | Err e => mret (Err e, mkMContext (mc_block ctx) (mc_root ctx) (Some a) (mc_tables ctx))
          | Ok _ => mret (Ok (length (mc_tables ctx)), mkMContext (mc_block ctx) (mc_root ctx) (Some a) (mc_tables ctx ++ [t]))
          end
      end
  end.

Definition db_context_reload_table_mem (w : World) (ctx : MContext) (table_name : cstr) : M (result SqlError () * MContext) :=
  match find_table_mem (mc_tables ctx) table_name with
  | None => mret (fail («"table not loaded: "» ++ table_name), ctx)
  | Some i =>
      '(r, reloaded) ← table_state_load_mem w (mc_root ctx) table_name;
      match r with
      | Err e => mret (Err e, ctx)
      | Ok _ =>
          _ ← match mc_tables ctx !! i with Some t => _ ← table_state_destroy t; mret () | None => mret () end;
          mret (Ok (), mkMContext (mc_block ctx) (mc_root ctx) (mc_array ctx) (<[i := reloaded]> (mc_tables ctx)))
      end
  end.

(** ** Specification *)

Definition index_blocks (t : option MTree) : list nat := match t with Some t => tree_blocks t | None => [] end.

Definition table_blocks (t : MTable) : list nat :=
  schema_blocks (mt_schema t) ++ rowset_blocks (mt_rowset t) ++ index_blocks (mt_index t).

Definition context_blocks (ctx : MContext) : list nat :=
  mc_block ctx :: ptr (mc_array ctx) ++ (mc_tables ctx ≫= table_blocks).

(** The table and the context that these are in memory. *)
Definition same_table (m : MTable) (t : TableState BPTree) : Prop :=
  mt_name m = name t ∧ schema_of (mt_schema m) = schema t ∧ rowset_of (mt_rowset m) = rowset t ∧
  (∃ tree, mt_index m = Some tree ∧ same_tree tree (index t)) ∧ mt_next_id m = next_id t.

Definition same_context (m : MContext) (ctx : DbContext BPTree) : Prop :=
  mc_root m = db_root ctx ∧ Forall2 same_table (mc_tables m) (tables ctx).

(** The two requests whose failure leaves something behind. *)
Definition lossy (e : SqlError) : Prop :=
  Err (A := ()) e = fail «"failed to allocate rowset"» ∨ Err (A := ()) e = fail «"failed to allocate B+ tree node"».

(** ** Lemmas: releasing *)

Lemma triple_table_destroy t :
  triple (table_blocks t) (table_state_destroy t) (λ _, []) (λ t', table_blocks t' = []) (λ _, True).
Proof.
  unfold table_state_destroy, table_blocks.
  call triple_free_schema with (rowset_blocks (mt_rowset t) ++ index_blocks (mt_index t)) as s Hs.
  call triple_free_rowset with (schema_blocks s ++ index_blocks (mt_index t)) as rs ->.
  call triple_bptree_destroy with (schema_blocks s). finish; by rewrite Hs.
Qed.

Lemma triple_context_destroy ctx : triple (context_blocks ctx) (db_context_destroy ctx) (λ _, []) (λ _, True) (λ _, True).
Proof.
  assert (Htables : ∀ ts, triple (ts ≫= table_blocks) (destroy_tables ts) (λ _, []) (λ _, True) (λ _, True)).
  { induction ts as [|t ts IH]; simpl; [by apply triple_ret|]. call triple_table_destroy with (ts ≫= table_blocks) as ? _.
    eapply triple_conseq; [exact IH|done|auto]. }
  unfold db_context_destroy, context_blocks. call Htables with (mc_block ctx :: ptr (mc_array ctx)).
  call triple_free with [mc_block ctx]. eapply triple_conseq; [apply triple_release|done|auto].
Qed.

(** ** Lemmas: loading *)

Lemma leaks_build_index s idx max_id row_index rs :
  leaks (tree_blocks idx) (build_index_mem s idx max_id row_index rs) (λ '(_, idx'), tree_blocks idx')
    (λ '(r, idx') leak,
       match r with
       | Ok mx => leak = [] ∧ ∀ t0, same_tree idx t0 → ∃ t0', build_index s t0 max_id row_index rs = Ok (t0', mx) ∧ same_tree idx' t0'
       | Err e => leak = [] ∨ lossy e
       end)
    (λ '(r, idx') leak,
       match r with Ok _ => True | Err e => leak = [] ∧ ∀ t0, same_tree idx t0 → build_index s t0 max_id row_index rs = Err e end).
Proof.
  revert idx max_id row_index. induction rs as [|r rs IH]; intros idx max_id row_index; simpl.
  { apply (leaks_ret _ _ _ []); simpl; [by rewrite (right_id_L [] (++))| |done]. split; [done|]. eauto. }
  eapply (leaks_seq []); [apply leaks_bptree_insert|by rewrite (right_id_L [] (++))|].
  intros [[[]|e] idx'] l1 Hr; simpl.
  - destruct Hr as [-> Hins]. eapply leaks_conseq; [apply IH|by rewrite (right_id_L [] (++))|].
    intros [[mx|e] idx''] l2 Hr2; simpl in *.
    + destruct Hr2 as [-> Hb]. split_and!; try done. intros t0 Ht. destruct (Hins t0 Ht) as (t1 & -> & Ht1). simpl. by apply Hb.
    + split_and!; try done. intros [-> Hb] _. split; [done|]. intros t0 Ht. destruct (Hins t0 Ht) as (t1 & -> & Ht1). simpl. by apply Hb.
  - apply (leaks_ret _ _ _ []); simpl; [by rewrite !(right_id_L [] (++))| |]; rewrite (right_id_L [] (++)).
    + destruct Hr as [[_ ->]|[He _]]; [by left|by right; right].
    + intros (_ & -> & Hb). split; [done|]. intros t0 Ht. by rewrite (Hb t0 Ht).
Qed.

Lemma triple_load_fails t e :
  triple (table_blocks t) (load_fails t e) (λ '(_, t'), table_blocks t') (λ '(r, t'), r = e ∧ table_blocks t' = []) (λ _, True).
Proof. unfold load_fails. call triple_table_destroy with (@nil nat) as t' Ht'. finish. by rewrite Ht'. Qed.

(** Ends a failing branch of [table_state_load_mem]. *)
Lemma leaks_load_fails t (e : SqlError) pre (Q R : result SqlError () * MTable → list nat → Prop) :
  pre ≡ₚ table_blocks t → (∀ t', table_blocks t' = [] → Q (Err e, t') [] ∧ R (Err e, t') []) →
  leaks pre (load_fails t (Err e)) (λ '(_, t'), table_blocks t') Q R.
Proof.
  intros Hp HQ. eapply leaks_conseq; [eapply triple_leaks; [apply triple_load_fails|]|done|].
  - intros [r t'] [-> Ht']. instantiate (1 := λ '(r, t') l, True). instantiate (1 := λ '(r, t') l, l = [] ∧ r = Err e ∧ table_blocks t' = []). auto.
  - intros [r t'] l (-> & -> & Ht'). destruct (HQ t' Ht'). auto.
Qed.

(** What loading a table does with its memory. *)
Definition load_outcome (w : World) (root table_name : cstr) (m : MTable) (r : result SqlError ()) (leak : list nat) : Prop :=
  match r with
  | Ok _ => (tidy_file w root table_name → leak = []) ∧ ∃ t, table_state_load w root table_name = Ok t ∧ same_table m t
  | Err e => table_blocks m = [] ∧ (tidy_file w root table_name → leak = [] ∨ lossy e)
  end.

Definition load_reliable (w : World) (root table_name : cstr) (r : result SqlError ()) (leak : list nat) : Prop :=
  (tidy_file w root table_name → leak = []) ∧
  match r with Ok _ => True | Err e => table_state_load (Idx := BPTree) w root table_name = Err e end.

Lemma leaks_table_load w root table_name :
  leaks [] (table_state_load_mem w root table_name) (λ '(_, t), table_blocks t)
    (λ '(r, t) leak, load_outcome w root table_name t r leak) (λ '(r, _) leak, load_reliable w root table_name r leak).
Proof.
  unfold table_state_load_mem, load_outcome, load_reliable, table_state_load.
  eapply (leaks_seq []); [apply leaks_load_schema|done|]. intros [[[]|e] s] l1 [Hl1 Hs]; simpl.
  2: { apply leaks_load_fails; [simpl; unfold table_blocks; simpl; solve_Permutation|].
       intros t' Ht'. rewrite (right_id_L [] (++)). split; [auto|]. intros HR. split; [done|]. by rewrite HR. }
  assert (Hcols : column_count (schema_of s) = length (s_columns s)) by apply length_map.
  rewrite Hs. simpl. rewrite Hcols.
  eapply (leaks_seq (schema_blocks s)); [apply leaks_read_csv_rows|by rewrite (right_id_L [] (++))|]. intros [[[]|e] rs] l2 [Hl2 Hrs]; simpl.
  2: { apply leaks_load_fails; [simpl; unfold table_blocks; simpl; solve_Permutation|].
       intros t' Ht'. rewrite (right_id_L [] (++)). split.
       - split; [done|]. intros Hty. rewrite Hl1 by done. destruct Hl2 as [->|[He _]]; [by left|by right; left].
       - intros [-> Hr] _. split; [intros Hty; by rewrite Hl1|]. by rewrite Hr. }
  destruct Hrs as [-> Hrs]. rewrite Hrs. simpl.
  destruct (validate_loaded_rowset (schema_of s) (rowset_of rs)) as [[]|e] eqn:Hval; simpl.
  2: { apply leaks_load_fails; [unfold table_blocks; simpl; solve_Permutation|].
       intros t' Ht'. rewrite (right_id_L [] (++)). split; [auto|]. by intros _ _. }
  destruct (s_key_index s <? 0)%Z eqn:Hkey.
  { apply leaks_load_fails; [unfold table_blocks; simpl; solve_Permutation|].
    intros t' Ht'. rewrite (right_id_L [] (++)). split; [auto|]. by intros _ _. }
  unfold bptree_create_mem. eapply (leaks_seq_triple (rowset_blocks rs ++ schema_blocks s) _ _ _ [] (λ o, index_blocks o) _
    (λ o, ∀ idx, o = Some idx → t_root idx = None) (λ o, is_Some o)); [|done|].
  { call triple_acquire with (@nil nat) as [b|] _; finish; naive_solver. }
  intros [idx|] Hidx; simpl.
  2: { apply leaks_load_fails; [unfold table_blocks; simpl; solve_Permutation|].
       intros t' Ht'. rewrite (right_id_L [] (++)). split; [auto|]. naive_solver. }
  assert (Hempty : same_tree idx bptree_create) by (unfold same_tree; by rewrite (Hidx idx)).
  eapply (leaks_seq (rowset_blocks rs ++ schema_blocks s)); [apply leaks_build_index|solve_Permutation|].
  intros [[mx|e] idx'] l3 Hr; simpl.
  - destruct Hr as [-> Hb]. destruct (Hb _ Hempty) as (t0 & Hbuild & Ht0). simpl in Hbuild.
    apply (leaks_ret _ _ _ []); simpl; [unfold table_blocks; simpl; solve_Permutation| |].
    + rewrite !(right_id_L [] (++)). split; [done|]. rewrite Hbuild. simpl. eexists. split; [done|]. split_and!; try done. eauto.
    + rewrite !(right_id_L [] (++)). done.
  - apply leaks_load_fails; [unfold table_blocks; simpl; solve_Permutation|].
    intros t' Ht'. rewrite !(right_id_L [] (++)). split.
    + split; [done|]. intros Hty. rewrite Hl1 by done. destruct Hr as [->|?]; auto.
    + intros [-> Hb] _ _ _. rewrite (right_id_L [] (++)). split; [done|]. specialize (Hb _ Hempty). simpl in Hb. by rewrite Hb.
Qed.

(** ** Lemmas: the context *)

Lemma find_table_same ms ts n : Forall2 same_table ms ts → find_table_mem ms n = find_table ts n.
Proof. induction 1 as [|m t ms ts (Hn & _) _ IH]; simpl; [done|]. by rewrite Hn, IH. Qed.

Lemma leaks_get_table w m n :
  leaks (context_blocks m) (db_context_get_table_mem w m n) (λ '(_, m'), context_blocks m')
    (λ '(r, m') leak,
       (tidy_file w (mc_root m) n → leak = [] ∨ ∃ e, r = Err e ∧ lossy e) ∧
       mc_root m' = mc_root m ∧
       ∀ ctx, same_context m ctx →
         match r with
         | Ok i => ∃ ctx', db_context_get_table w ctx n = (Ok i, ctx') ∧ same_context m' ctx'
         | Err _ => same_context m' ctx
         end)
    (λ '(r, m') leak,
       (tidy_file w (mc_root m) n → leak = []) ∧
       ∀ ctx, same_context m ctx → match r with Ok _ => True | Err e => db_context_get_table w ctx n = (Err e, ctx) end).
Proof.
  unfold db_context_get_table_mem, db_context_get_table.
  assert (Hfind : ∀ ctx, same_context m ctx → find_table (tables ctx) n = find_table_mem (mc_tables m) n).
  { intros ctx [_ Ht]. symmetry. by apply find_table_same. }
  destruct (find_table_mem (mc_tables m) n) as [i|].
  { apply (leaks_ret _ _ _ []); simpl; [by rewrite (right_id_L [] (++))| |done]. split_and!; [auto|done|].
    intros ctx Hctx. rewrite (Hfind ctx Hctx). eauto. }
  unfold context_blocks at 1. set (F := mc_tables m ≫= table_blocks).
  call triple_realloc with (mc_block m :: F) as [a|] _.
  2: { apply (leaks_ret _ _ _ []); simpl; [unfold context_blocks; solve_Permutation|auto|naive_solver]. }
  eapply (leaks_seq (a :: mc_block m :: F) _ _ _ []); [apply leaks_table_load|solve_Permutation|].
  intros [[[]|e] t] leak Hr; simpl in *.
  - destruct Hr as (Hl & t0 & Hload & Ht0).
    apply (leaks_ret _ _ _ []); simpl; rewrite ?(right_id_L [] (++)).
    + unfold context_blocks. simpl. rewrite bind_app. simpl. subst F. solve_Permutation.
    + split_and!; [auto|done|]. intros ctx Hctx. rewrite (Hfind ctx Hctx). destruct Hctx as [Hroot Ht]. rewrite <- Hroot, Hload.
      rewrite (Forall2_length _ _ _ Ht). eexists. split; [done|]. split; [done|]. simpl. by apply Forall2_app; [|constructor].
    + done.
  - destruct Hr as [Hb Hl]. apply (leaks_ret _ _ _ []); simpl; rewrite ?(right_id_L [] (++)).
    + rewrite Hb. unfold context_blocks. simpl. subst F. solve_Permutation.
    + split_and!; [|done|done]. intros Hty. destruct (Hl Hty); eauto.
    + intros [Hl' Hload] _. split; [done|]. intros ctx Hctx. rewrite (Hfind ctx Hctx). destruct Hctx as [Hroot _].
      by rewrite <- Hroot, Hload.
Qed.

Lemma find_table_mem_lookup ts n i : find_table_mem ts n = Some i → is_Some (ts !! i).
Proof.
  revert i. induction ts as [|t ts IH]; intros i Hi; simpl in Hi; [done|].
  destruct (bool_decide _); simplify_eq/=; [by eexists|]. apply fmap_Some in Hi as (j & Hj & ->). simpl. by apply IH.
Qed.

Lemma leaks_reload_table w m n :
  leaks (context_blocks m) (db_context_reload_table_mem w m n) (λ '(_, m'), context_blocks m')
    (λ '(r, m') leak,
       (tidy_file w (mc_root m) n → leak = [] ∨ ∃ e, r = Err e ∧ lossy e) ∧
       mc_root m' = mc_root m ∧
       match r with
       | Ok _ => ∃ i t t0, mc_tables m' = <[i := t]> (mc_tables m) ∧ table_state_load w (mc_root m) n = Ok t0 ∧ same_table t t0
       | Err _ => m' = m
       end ∧
       ∀ ctx, same_context m ctx →
         match r with
         | Ok _ => ∃ ctx', db_context_reload_table w ctx n = (Ok (), ctx') ∧ same_context m' ctx'
         | Err _ => same_context m' ctx
         end)
    (λ '(r, m') leak,
       (tidy_file w (mc_root m) n → leak = []) ∧
       ∀ ctx, same_context m ctx → match r with Ok _ => True | Err e => db_context_reload_table w ctx n = (Err e, ctx) end).
Proof.
  unfold db_context_reload_table_mem, db_context_reload_table.
  assert (Hfind : ∀ ctx, same_context m ctx → find_table (tables ctx) n = find_table_mem (mc_tables m) n).
  { intros ctx [_ Ht]. symmetry. by apply find_table_same. }
  destruct (find_table_mem (mc_tables m) n) as [i|] eqn:Hi.
  2: { apply (leaks_ret _ _ _ []); simpl; [by rewrite (right_id_L [] (++))|auto|]. split; [done|].
       intros ctx Hctx. by rewrite (Hfind ctx Hctx). }
  destruct (find_table_mem_lookup _ _ _ Hi) as [told Hold].
  eapply (leaks_seq (context_blocks m) _ _ _ []); [apply leaks_table_load|done|].
  intros [[[]|e] t] leak Hr; simpl in *.
  - destruct Hr as (Hl & t0 & Hload & Ht0). destruct (bind_insert table_blocks _ _ _ Hold) as (F & HF & HF'). rewrite Hold.
    eapply (leaks_seq_triple (mc_block m :: table_blocks t ++ ptr (mc_array m) ++ F) _ _ _ (table_blocks told) (λ _, []) _ (λ _, True) (λ _, True)).
    { eapply (triple_seq []); [apply triple_table_destroy|by rewrite (right_id_L [] (++))|]. intros ? _. by finish. }
    { unfold context_blocks. rewrite HF. solve_Permutation. }
    intros [] _. apply (leaks_ret _ _ _ []); simpl; rewrite ?(right_id_L [] (++)).
    + unfold context_blocks. simpl. rewrite HF'. solve_Permutation.
    + split_and!; [auto|done|by eauto 10|]. intros ctx Hctx. rewrite (Hfind ctx Hctx). destruct Hctx as [Hroot Ht].
      rewrite <- Hroot, Hload. eexists. split; [done|]. split; [done|]. simpl. by apply Forall2_insert.
    + done.
  - destruct Hr as [Hb Hl]. apply (leaks_ret _ _ _ []); simpl; rewrite ?(right_id_L [] (++)).
    + by rewrite Hb.
    + split_and!; [|done..]. intros Hty. destruct (Hl Hty); eauto.
    + intros [Hl' Hload]. split; [done|]. intros ctx Hctx. rewrite (Hfind ctx Hctx). destruct Hctx as [Hroot _].
      by rewrite <- Hroot, Hload.
Qed.

(** ** The life of a context *)

Inductive table_op := GetTable (n : cstr) | ReloadTable (n : cstr).

Definition op_table (op : table_op) : cstr := match op with GetTable n | ReloadTable n => n end.

(** Calls on a context, each with the files as they are then, and what they return. *)
Definition table_call_mem (m : MContext) (w : World) (op : table_op) : M (result SqlError () * MContext) :=
  match op with
  | GetTable n => '(r, m) ← db_context_get_table_mem w m n; mret (r ≫= (λ _, Ok ()), m)
  | ReloadTable n => db_context_reload_table_mem w m n
  end.

Fixpoint table_calls_mem (m : MContext) (ops : list (World * table_op)) : M (list (result SqlError ()) * MContext) :=
  match ops with
  | [] => mret ([], m)
  | (w, op) :: ops' =>
      '(r, m) ← table_call_mem m w op;
      '(rs, m) ← table_calls_mem m ops';
      mret (r :: rs, m)
  end.

Definition table_call (ctx : DbContext BPTree) (w : World) (op : table_op) : result SqlError () * DbContext BPTree :=
  match op with
  | GetTable n => let '(r, ctx) := db_context_get_table w ctx n in (r ≫= (λ _, Ok ()), ctx)
  | ReloadTable n => db_context_reload_table w ctx n
  end.

Fixpoint table_calls (ctx : DbContext BPTree) (ops : list (World * table_op)) : list (result SqlError ()) :=
  match ops with
  | [] => []
  | (w, op) :: ops' => let '(r, ctx) := table_call ctx w op in r :: table_calls ctx ops'
  end.

(** Create a context, make the calls, destroy it. *)
Definition context_life (root : cstr) (ops : list (World * table_op)) : M (result SqlError (list (result SqlError ()))) :=
  r ← db_context_create_mem root;
  match r with
  | Err e => mret (Err e)
  | Ok m => '(rs, m) ← table_calls_mem m ops; _ ← db_context_destroy m; mret (Ok rs)
  end.

Definition tidy_files (root : cstr) (ops : list (World * table_op)) : Prop :=
  Forall (λ '(w, op), tidy_file w root (op_table op)) ops.

Lemma leaks_table_call m w op :
  leaks (context_blocks m) (table_call_mem m w op) (λ '(_, m'), context_blocks m')
    (λ '(r, m') leak,
       (tidy_file w (mc_root m) (op_table op) → leak = [] ∨ ∃ e, r = Err e ∧ lossy e) ∧ mc_root m' = mc_root m ∧
       ∀ ctx, same_context m ctx → if is_ok r then (table_call ctx w op).1 = r ∧ same_context m' (table_call ctx w op).2
                                   else same_context m' ctx)
    (λ '(r, m') leak,
       (tidy_file w (mc_root m) (op_table op) → leak = []) ∧
       ∀ ctx, same_context m ctx → is_ok r = false → table_call ctx w op = (r, ctx)).
Proof.
  destruct op as [n|n]; simpl.
  - eapply (leaks_seq []); [apply leaks_get_table|by rewrite (right_id_L [] (++))|]. intros [[i|e] m'] leak (Hl & Hroot & Hctx).
    + apply (leaks_ret _ _ _ []); simpl; [done| |]; rewrite (right_id_L [] (++)).
      * split_and!; [naive_solver|done|]. intros ctx Hsame. destruct (Hctx ctx Hsame) as (ctx' & -> & ?). done.
      * by intros [? _].
    + apply (leaks_ret _ _ _ []); simpl; [done| |]; rewrite (right_id_L [] (++)).
      * split_and!; [naive_solver|done|done].
      * intros [? HR]. split; [done|]. intros ctx Hsame _. by rewrite (HR ctx Hsame).
  - eapply leaks_conseq; [apply leaks_reload_table|done|]. intros [[[]|e] m'] leak (Hl & Hroot & _ & Hctx); simpl; split_and!; try done.
    + intros ctx Hsame. by destruct (Hctx ctx Hsame) as (ctx' & -> & ?).
    + by intros [? _].
    + intros [? HR]. split; [done|]. intros ctx Hsame _. by rewrite (HR ctx Hsame).
Qed.

Lemma leaks_table_calls m ops :
  leaks (context_blocks m) (table_calls_mem m ops) (λ '(_, m'), context_blocks m')
    (λ '(rs, _) leak, tidy_files (mc_root m) ops → leak = [] ∨ ∃ e, Err e ∈ rs ∧ lossy e)
    (λ '(rs, _) leak, (tidy_files (mc_root m) ops → leak = []) ∧ ∀ ctx, same_context m ctx → rs = table_calls ctx ops).
Proof.
  revert m. induction ops as [|[w op] ops IH]; intros m; simpl.
  { apply (leaks_ret _ _ _ []); simpl; [by rewrite (right_id_L [] (++))|auto|done]. }
  eapply (leaks_seq []); [apply leaks_table_call|by rewrite (right_id_L [] (++))|]. intros [r m'] l1 (Hl1 & Hroot & Hctx).
  eapply (leaks_seq []); [apply IH|done|]. intros [rs m''] l2 Hl2. rewrite Hroot in Hl2.
  apply (leaks_ret _ _ _ []); simpl; [done| |]; rewrite (right_id_L [] (++)).
  - intros [Hop Hops]%Forall_cons. destruct (Hl1 Hop) as [->|(e & -> & He)]; [|right; exists e; set_solver].
    destruct (Hl2 Hops) as [->|(e & He & ?)]; [by left|right; exists e; set_solver].
  - rewrite Hroot. intros [Hl2' HR2] [Hl1' HR1]. split.
    { intros [Hop Hops]%Forall_cons. by rewrite Hl1', Hl2'. }
    intros ctx H. specialize (Hctx ctx H). destruct (table_call ctx w op) as [r' ctx'] eqn:Hcall. destruct (is_ok r) eqn:Hr.
    + simpl in Hctx. destruct Hctx as [-> Hctx']. by rewrite (HR2 ctx' Hctx').
    + rewrite (HR1 ctx H eq_refl) in Hcall. simplify_eq. by rewrite (HR2 ctx' Hctx).
Qed.

(** ** Properties *)

(** The memory of the loaded tables: create a context, look up and reload tables in any order
    while the files change, and destroy it, with any of the requests for memory and streams
    failing.  Nothing is given back twice.  For [tidy_files], everything is given back, unless
    the request for a larger array of rows or for a B+ tree node failed.  When no request
    fails, everything is given back and the calls return what [DbContext] says. *)
Theorem context_memory (root : cstr) (ops : list (World * table_op)) (m : Mem) :
  mem_ok m → tidy_files (bounded SQL_PATH_BUFFER_SIZE root) ops →
  let '(r, m1) := context_life root ops m in
  mem_ok m1 ∧
  (held m1 ≡ₚ held m ∨ ∃ rs e, r = Ok rs ∧ Err e ∈ rs ∧ lossy e) ∧
  (all_succeed m → held m1 ≡ₚ held m ∧ r = Ok (table_calls (db_context_create root) ops)).
Proof.
  intros Hm Htidy.
  assert (Hlife : leaks [] (context_life root ops) (λ _, [])
    (λ r leak, leak = [] ∨ ∃ rs e, r = Ok rs ∧ Err e ∈ rs ∧ lossy e)
    (λ r leak, leak = [] ∧ r = Ok (table_calls (db_context_create root) ops))).
  { unfold context_life, db_context_create_mem. set (root' := bounded SQL_PATH_BUFFER_SIZE root) in *.
    eapply (leaks_seq_triple [] _ _ _ [] (λ r, match r with Ok c => context_blocks c | Err _ => [] end) _
      (λ r, match r with Ok c => mc_root c = root' ∧ mc_tables c = [] | Err _ => True end) (λ r, is_ok r = true)); [|done|].
    { call triple_acquire with (@nil nat) as [b|] _; finish; naive_solver. }
    intros [c|e] Hc; simpl; [|by apply (leaks_ret _ _ _ []); [|left|]]. destruct Hc as [Hroot Hts].
    eapply (leaks_seq []); [apply leaks_table_calls|by rewrite !(right_id_L [] (++))|]. intros [rs c'] leak Hl. rewrite Hroot in Hl.
    call triple_context_destroy with (@nil nat). apply (leaks_ret _ _ _ []); simpl; [done| |]; rewrite (right_id_L [] (++)).
    - destruct (Hl Htidy) as [->|(e & ? & ?)]; [by left|right; eauto].
    - rewrite Hroot. intros _ [Hl' HR] _. split; [by apply Hl'|]. f_equal. apply HR. split; [done|]. rewrite Hts. constructor. }
  destruct (Hlife m (held m) Hm) as (leak & Hm1 & Hh & HQ & HR); [done|].
  destruct (context_life root ops m) as [r m1]; simpl in *. split_and!; [done| |].
  - destruct HQ as [->|?]; [by left|by right].
  - intros Hall. by destruct (HR Hall) as (_ & -> & ->).
Qed.

(** ** Examples *)

Lemma users_file_tidy : tidy_file sample_world «"data"» «"users"».
Proof.
  intros content Hc. assert (Hcontent : content = print_schema users_schema) by (vm_compute in Hc |- *; congruence).
  subst content. split_and!.
  - apply Nat.leb_le. vm_compute. reflexivity.
  - apply Nat.leb_le. vm_compute. reflexivity.
  - set (l := omap _ _). vm_compute in l. subst l. repeat (constructor; [intros Hk; vm_compute in Hk |- *; naive_solver|]). constructor.
Qed.

Definition users_ops : list (World * table_op) :=
  [(sample_world, GetTable «"users"»); (sample_world, ReloadTable «"users"»)].

Lemma context_memory_witness :
  let m := mkMem [5] 6 [true; true; false] false in
  let '(r, m1) := context_life «"data"» users_ops m in
  mem_ok m1 ∧
  (held m1 ≡ₚ held m ∨ ∃ rs e, r = Ok rs ∧ Err e ∈ rs ∧ lossy e) ∧
  (all_succeed m → held m1 ≡ₚ held m ∧ r = Ok (table_calls (db_context_create «"data"») users_ops)).
Proof.
  intros m. apply (context_memory «"data"» users_ops m).
  - split_and!; [reflexivity|apply (bool_decide_unpack _); vm_compute; exact I|apply (bool_decide_unpack _); vm_compute; exact I].
  - assert (Hb : bounded SQL_PATH_BUFFER_SIZE «"data"» = «"data"») by (vm_compute; reflexivity). rewrite Hb.
    constructor; [exact users_file_tidy|]. constructor; [exact users_file_tidy|constructor].
Defined.
