(* ===== verification/FirstLoad.v ===== *)
(** * [db_context_get_table] in [src/src/index/db_context.c]: overlapping readers

    [DbContext] runs a call of [db_context_get_table] as one step.  The server makes these calls
    inside read sections too, and read sections overlap, so here the call is taken apart into
    its accesses to the shared context and to the array of tables, and the steps of any number
    of readers interleave.  The arrays live in a heap by address; an array that [realloc] has
    moved is gone from the heap, and an access through a stale pointer, past the end of an array
    or to a slot that holds no table is undefined behaviour.  After the call a reader looks at
    its table through the pointer it was given, as the SELECT path does. *)

From stdpp Require Import base list strings gmap.
From Stdlib Require Import Ascii.
From S2P Require Import Prelude CString Common Index BPTree Schema Storage DbContext.

Local Open Scope nat_scope.

Section FirstLoad.
Context `{RowIndex Idx}.
Notation Table := (TableState Idx).

(** ** The shared memory *)

(** [tables_ptr] is [ctx->tables]; a slot of an array that holds no loaded table is [None]. *)
Record Shared := mkShared {
  sh_root : cstr;
  tables_ptr : option nat;
  table_count : nat;
  arrays : gmap nat (list (option Table));
  next_address : nat
}.

(** The array at a pointer, if the pointer is good. *)
Definition array_at (s : Shared) (p : option nat) : option (list (option Table)) := a ← p; arrays s !! a.

(** Reading the table in slot [i] of the array at [p]. *)
Definition read_slot (s : Shared) (p : option nat) (i : nat) : option Table := slots ← array_at s p; mjoin (slots !! i).

(** What [realloc] does: it fails, grows the array where it is, or moves it. *)
Inductive growth := Fails | InPlace | Moves.

(** The first slots of the old array, and empty ones up to [size]. *)
Definition resized (size : nat) (slots : list (option Table)) : list (option Table) :=
  take size (slots ++ replicate size None).

(** [realloc(p, size * sizeof(TableState))]: [None] when [p] is not a live array, otherwise the
    result. *)
Definition realloc_array (g : growth) (p : option nat) (size : nat) (s : Shared) : option (option nat * Shared) :=
  match p with
  | None =>
      Some match g with
      | Fails => (None, s)
      | _ => (Some (next_address s),
          mkShared (sh_root s) (tables_ptr s) (table_count s) (<[next_address s := resized size []]> (arrays s)) (S (next_address s)))
      end
  | Some a =>
      slots ← arrays s !! a;
      Some match g with
      | Fails => (None, s)
      | InPlace => (Some a,
          mkShared (sh_root s) (tables_ptr s) (table_count s) (<[a := resized size slots]> (arrays s)) (next_address s))
      | Moves => (Some (next_address s),
          mkShared (sh_root s) (tables_ptr s) (table_count s)
            (<[next_address s := resized size slots]> (delete a (arrays s))) (S (next_address s)))
      end
  end.

Definition write_slot (p : option nat) (i : nat) (t : option Table) (s : Shared) : option Shared :=
  a ← p; slots ← arrays s !! a;
  if decide (i < length slots) then
    Some (mkShared (sh_root s) (tables_ptr s) (table_count s) (<[a := <[i := t]> slots]> (arrays s)) (next_address s))
  else None.

Definition set_tables (p : option nat) (s : Shared) : Shared :=
  mkShared (sh_root s) p (table_count s) (arrays s) (next_address s).
Definition set_table_count (c : nat) (s : Shared) : Shared :=
  mkShared (sh_root s) (tables_ptr s) c (arrays s) (next_address s).

(** ** The steps of a reader *)

Inductive reader_point :=
| ScanTest (i : nat)                             (** [index < ctx->table_count] *)
| ScanName (i : nat)                             (** load [ctx->tables] *)
| ScanCompare (p : option nat) (i : nat)         (** [strcmp(ctx->tables[index].name, table_name)] *)
| ScanReturn (i : nat)                           (** [return &ctx->tables[index]] *)
| GrowRead                                       (** load the arguments of [realloc] *)
| GrowArray (p : option nat) (c : nat)           (** [realloc] *)
| GrowStore (p : option nat)                     (** test for [NULL]; [ctx->tables = next_tables] *)
| LoadRead                                       (** load [&ctx->tables[ctx->table_count]] *)
| LoadSlot (p : option nat) (c : nat)            (** [table_state_load] into that slot *)
| CountRead                                      (** [ctx->table_count++]: the load *)
| CountWrite (c : nat)                           (** [ctx->table_count++]: the store *)
| ReturnRead                                     (** [return &ctx->tables[ctx->table_count - 1]] *)
| Using (p : option nat) (i : nat)               (** the call has returned; look at the table *)
| Done (r : result SqlError Table).

(** One step of a reader that asked for [n]; [None] is undefined behaviour. *)
Definition reader_step (w : World) (g : growth) (n : cstr) (s : Shared) (pt : reader_point)
    : option (Shared * reader_point) :=
  match pt with
  | ScanTest i => Some (s, if decide (i < table_count s) then ScanName i else GrowRead)
  | ScanName i => Some (s, ScanCompare (tables_ptr s) i)
  | ScanCompare p i =>
      t ← read_slot s p i;
      Some (s, if decide (name t = n) then ScanReturn i else ScanTest (S i))
  | ScanReturn i => Some (s, Using (tables_ptr s) i)
  | GrowRead => Some (s, GrowArray (tables_ptr s) (table_count s))
  | GrowArray p c => '(p', s') ← realloc_array g p (S c) s; Some (s', GrowStore p')
  | GrowStore None => Some (s, Done (fail «"failed to expand db context tables"»))
  | GrowStore p => Some (set_tables p s, LoadRead)
  | LoadRead => Some (s, LoadSlot (tables_ptr s) (table_count s))
  | LoadSlot p c =>
      match table_state_load w (sh_root s) n with
      | Ok t => s' ← write_slot p c (Some t) s; Some (s', CountRead)
      | Err e => s' ← write_slot p c None s; Some (s', Done (Err e))
      end
  | CountRead => Some (s, CountWrite (table_count s))
  | CountWrite c => Some (set_table_count (S c) s, ReturnRead)
  | ReturnRead => Some (s, Using (tables_ptr s) (pred (table_count s)))
  | Using p i => t ← read_slot s p i; Some (s, Done (Ok t))
  | Done r => Some (s, Done r)
  end.

(** [None]: one of them ran into undefined behaviour. *)
Record Readers := mkReaders { shared_ctx : Shared; readers : list (cstr * reader_point) }.

Definition readers_step (w : World) (rs : Readers) (j : nat) (g : growth) : option Readers :=
  match readers rs !! j with
  | None => Some rs
  | Some (n, pt) =>
      '(s', pt') ← reader_step w g n (shared_ctx rs) pt;
      Some (mkReaders s' (<[j := (n, pt')]> (readers rs)))
  end.

(** A schedule: which reader moves next, and what [realloc] does if it calls it. *)
Fixpoint run_readers (w : World) (rs : Readers) (sched : list (nat * growth)) : option Readers :=
  match sched with
  | [] => Some rs
  | (j, g) :: sched' => rs' ← readers_step w rs j g; run_readers w rs' sched'
  end.

Definition start_readers (s : Shared) (ns : list cstr) : Readers := mkReaders s (map (λ n, (n, ScanTest 0)) ns).

(** ** Specification *)

(** The shared memory holds this context; the array may have slots to spare. *)
Record holds (s : Shared) (ctx : DbContext Idx) : Prop := {
  holds_root : sh_root s = db_root ctx;
  holds_count : table_count s = length (tables ctx);
  holds_array : match tables_ptr s with
    | None => tables ctx = []
    | Some a => ∃ spare, arrays s !! a = Some (map Some (tables ctx) ++ spare)
    end;
  holds_fresh : ∀ a, next_address s ≤ a → arrays s !! a = None
}.

(** The context as [db_context_create] leaves it. *)
Definition empty_shared (root : cstr) : Shared := mkShared (bounded SQL_PATH_BUFFER_SIZE root) None 0 ∅ 0.

(** A reader of a table that is loaded at position [k]: it never leaves the scan. *)
Definition warm_point (s : Shared) (k : nat) (t : Table) (pt : reader_point) : Prop :=
  match pt with
  | ScanTest i | ScanName i => i ≤ k
  | ScanCompare p i => p = tables_ptr s ∧ i ≤ k
  | ScanReturn i => i = k
  | Using p i => p = tables_ptr s ∧ i = k
  | Done r => r = Ok t
  | _ => False
  end.

(** How many steps such a reader still has to take. *)
Definition steps_left (k : nat) (pt : reader_point) : nat :=
  match pt with
  | ScanTest i => 3 * (k - i) + 5
  | ScanName i => 3 * (k - i) + 4
  | ScanCompare _ i => 3 * (k - i) + 3
  | ScanReturn _ => 2
  | Using _ _ => 1
  | _ => 0
  end.

(** How often a schedule picks reader [j]. *)
Definition picks (j : nat) (sched : list (nat * growth)) : nat := length (List.filter (λ '(i, _), i =? j) sched).

(** ** Lemmas: loaded tables *)

Lemma holds_read s ctx i t : holds s ctx → tables ctx !! i = Some t → read_slot s (tables_ptr s) i = Some t.
Proof.
  intros [_ _ Ha _] Hi. unfold read_slot, array_at. destruct (tables_ptr s) as [a|]; [|by rewrite Ha in Hi].
  destruct Ha as [spare Ha]. simpl. rewrite Ha. simpl.
  rewrite lookup_app_l by (rewrite length_map; by eapply lookup_lt_Some). by rewrite list_lookup_fmap, Hi.
Qed.

Lemma find_table_before ts n k i (t : Table) : find_table ts n = Some k → i < k → ts !! i = Some t → name t ≠ n.
Proof.
  revert k i. induction ts as [|x ts IH]; intros k i Hk Hlt Hi; simpl in *; [done|]. case_bool_decide; [naive_solver lia|].
  destruct (find_table ts n) as [k'|] eqn:Hf; simplify_eq/=. destruct i as [|i]; simplify_eq/=; [done|].
  apply (IH k' i); [done|lia|done].
Qed.

Lemma warm_step w g n s ctx k t pt :
  holds s ctx → find_table (tables ctx) n = Some k → tables ctx !! k = Some t → warm_point s k t pt →
  ∃ pt', reader_step w g n s pt = Some (s, pt') ∧ warm_point s k t pt' ∧ steps_left k pt' = pred (steps_left k pt).
Proof.
  intros Hh Hf Ht Hpt. pose proof (holds_read _ _ _ _ Hh Ht) as Hread. pose proof (lookup_lt_Some _ _ _ Ht) as Hk.
  destruct pt as [i|i|p i|i| | | | | | | | |p i|r]; simpl in Hpt; try done; simpl.
  - rewrite decide_True by (rewrite (holds_count _ _ Hh); lia). eexists. split_and!; [done|done|cbn [steps_left]; lia].
  - eexists. split_and!; [done|by split|cbn [steps_left]; lia].
  - destruct Hpt as [-> Hi]. destruct (lookup_lt_is_Some_2 (tables ctx) i ltac:(lia)) as [u Hu]. rewrite (holds_read _ _ _ _ Hh Hu). simpl.
    assert (Hcmp : name u = n ↔ i = k).
    { split; [|intros ->; destruct (find_table_Some _ _ _ Hf) as (v & Hv & <-); congruence].
      intros Hn. destruct (decide (i = k)) as [|Hne]; [done|]. by destruct (find_table_before _ n k i u Hf ltac:(lia) Hu). }
    destruct (decide (name u = n)) as [Hn|Hn]; eexists; split_and!; try done; cbn [warm_point steps_left].
    + by apply Hcmp.
    + apply Hcmp in Hn. lia.
    + assert (i ≠ k) by naive_solver. lia.
    + assert (i ≠ k) by naive_solver. lia.
  - subst i. eexists. by split_and!.
  - destruct Hpt as [-> ->]. rewrite Hread. eexists. by split_and!.
  - subst r. eexists. by split_and!.
Qed.

(** The readers of a run: each still asks for its table and is [m] steps on its way. *)
Definition warm (ctx : DbContext Idx) (s : Shared) (r : cstr * reader_point) : Prop :=
  ∃ k t, find_table (tables ctx) r.1 = Some k ∧ tables ctx !! k = Some t ∧ warm_point s k t r.2.

Lemma picks_cons j i g sched : picks j ((i, g) :: sched) = (if decide (i = j) then 1 else 0) + picks j sched.
Proof. unfold picks. simpl. destruct (Nat.eqb_spec i j) as [->|]; [by rewrite decide_True|by rewrite decide_False]. Qed.

Lemma warm_run w ctx s rs sched :
  holds s ctx → Forall (warm ctx s) rs →
  ∃ rs', run_readers w (mkReaders s rs) sched = Some (mkReaders s rs') ∧ Forall (warm ctx s) rs' ∧ length rs' = length rs ∧
    ∀ j n pt, rs !! j = Some (n, pt) → ∃ pt', rs' !! j = Some (n, pt') ∧
      ∀ k, find_table (tables ctx) n = Some k → steps_left k pt' = steps_left k pt - picks j sched.
Proof.
  intros Hh. revert rs. induction sched as [|[j g] sched IH]; intros rs Hrs; simpl.
  { exists rs. split_and!; [done|done|done|]. intros j n pt Hj. exists pt. split; [done|]. intros k _. unfold picks. simpl. lia. }
  unfold readers_step. simpl. destruct (rs !! j) as [[n pt]|] eqn:Hj; simpl.
  2: { destruct (IH rs Hrs) as (rs' & -> & Hw & Hlen & Hall). exists rs'. split_and!; [done|done|done|].
       intros i m q Hi. destruct (Hall i m q Hi) as (q' & Hq' & Hk). exists q'. split; [done|].
       intros k Hf. rewrite picks_cons, decide_False by congruence. by rewrite (Hk k Hf). }
  destruct (Forall_lookup_1 _ _ _ _ Hrs Hj) as (k & t & Hf & Ht & Hpt). simpl in *.
  destruct (warm_step w g n s ctx k t pt Hh Hf Ht Hpt) as (pt' & -> & Hpt' & Hleft). simpl.
  destruct (IH (<[j := (n, pt')]> rs)) as (rs' & -> & Hw & Hlen & Hall).
  { apply Forall_insert; [done|]. by exists k, t. }
  rewrite length_insert in Hlen. exists rs'. split_and!; [done|done|done|]. intros i m q Hi. destruct (decide (j = i)) as [->|Hne].
  - assert (m = n ∧ q = pt) as [-> ->] by (split; congruence).
    destruct (Hall i n pt') as (q' & Hq' & Hk); [apply list_lookup_insert_eq; by eapply lookup_lt_Some|].
    exists q'. split; [done|]. intros k' Hf'. assert (k' = k) as -> by congruence.
    rewrite picks_cons, decide_True, (Hk k Hf), Hleft by done. lia.
  - destruct (Hall i m q) as (q' & Hq' & Hk); [by rewrite list_lookup_insert_ne|]. exists q'. split; [done|].
    intros k' Hf'. rewrite picks_cons, decide_False by done. by rewrite (Hk k' Hf').
Qed.

Lemma picks_replicate j g m : picks j (replicate m (j, g)) = m.
Proof. induction m as [|m IH]; [done|]. cbn [replicate]. by rewrite picks_cons, decide_True, IH. Qed.

(** ** Lemmas: a reader alone *)

Lemma resized_spec ts (spare : list (option Table)) :
  ∃ x, resized (S (length ts)) (map Some ts ++ spare) = map Some ts ++ [x].
Proof.
  unfold resized. rewrite <- (assoc_L (++)), take_app. rewrite length_map, take_ge by (rewrite length_map; lia).
  replace (S (length ts) - length ts) with 1 by lia. destruct spare as [|x spare]; simpl; eauto.
Qed.

(** The array after [realloc], once [ctx->tables] points to it. *)
Lemma realloc_holds g s ctx :
  g ≠ Fails → holds s ctx →
  ∃ a x s1, realloc_array g (tables_ptr s) (S (table_count s)) s = Some (Some a, s1) ∧
    arrays s1 !! a = Some (map Some (tables ctx) ++ [x]) ∧ holds (set_tables (Some a) s1) ctx.
Proof.
  intros Hg [Hroot Hcount Harr Hfresh]. unfold realloc_array, set_tables. destruct (tables_ptr s) as [a|].
  - destruct Harr as [spare Harr]. destruct (resized_spec (tables ctx) spare) as [x Hx].
    assert (Ha : a < next_address s) by (destruct (decide (a < next_address s)); [done|]; rewrite Hfresh in Harr; [done|lia]).
    rewrite Harr, Hcount. simpl. rewrite Hx. destruct g; [done| |];
      do 3 eexists; (split; [done|]); simpl; (split; [apply lookup_insert_eq|]); constructor; simpl; try done.
    + eexists. apply lookup_insert_eq.
    + intros b Hb. rewrite lookup_insert_ne by lia. by apply Hfresh.
    + eexists. apply lookup_insert_eq.
    + intros b Hb. rewrite lookup_insert_ne, lookup_delete_ne by lia. apply Hfresh. lia.
  - rewrite Harr in *. simpl in *. rewrite Hcount. destruct g; [done| |];
      exists (next_address s), None; eexists; (split; [done|]); simpl; (split; [apply lookup_insert_eq|]);
      (constructor; simpl; [done|by rewrite Harr|rewrite Harr; eexists; apply lookup_insert_eq|]);
      intros b Hb; rewrite lookup_insert_ne by lia; apply Hfresh; lia.
Qed.

(** The loaded table in the slot behind the others, and counted. *)
Lemma write_slot_holds s ctx a x (v : option Table) :
  holds s ctx → tables_ptr s = Some a → arrays s !! a = Some (map Some (tables ctx) ++ [x]) →
  ∃ s', write_slot (Some a) (length (tables ctx)) v s = Some s' ∧ holds s' ctx ∧
    tables_ptr s' = Some a ∧ sh_root s' = sh_root s ∧
    ∀ t, v = Some t → holds (set_table_count (S (length (tables ctx))) s') (mkDbContext (db_root ctx) (tables ctx ++ [t])).
Proof.
  intros [Hroot Hcount Harr Hfresh] Hp Ha. unfold write_slot. simpl. rewrite Ha. simpl.
  rewrite decide_True by (rewrite length_app, length_map; simpl; lia).
  assert (Hins : <[length (tables ctx) := v]> (map Some (tables ctx) ++ [x]) = map Some (tables ctx) ++ [v]).
  { rewrite insert_app_r_alt by (rewrite length_map; lia). by rewrite length_map, Nat.sub_diag. }
  assert (Hlt : a < next_address s) by (destruct (decide (a < next_address s)); [done|]; rewrite Hfresh in Ha; [done|lia]).
  rewrite Hins. eexists. split; [done|].
  assert (Hf : ∀ b, next_address s ≤ b → <[a := map Some (tables ctx) ++ [v]]> (arrays s) !! b = None).
  { intros b Hb. rewrite lookup_insert_ne by lia. by apply Hfresh. }
  split_and!; simpl; try done.
  - constructor; simpl; try done. rewrite Hp. eexists. apply lookup_insert_eq.
  - intros t ->. constructor; simpl; try done; [rewrite length_app; simpl; lia|]. rewrite Hp. exists [].
    by rewrite lookup_insert_eq, (right_id_L [] (++)), map_app.
Qed.

Lemma solo_step w g n s pt m :
  run_readers w (mkReaders s [(n, pt)]) (replicate (S m) (0, g)) =
  '(s', pt') ← reader_step w g n s pt; run_readers w (mkReaders s' [(n, pt')]) (replicate m (0, g)).
Proof. cbn [replicate run_readers]. unfold readers_step. simpl. by destruct (reader_step w g n s pt) as [[s' pt']|]. Qed.

Lemma solo_done w g n s r m :
  run_readers w (mkReaders s [(n, Done r)]) (replicate m (0, g)) = Some (mkReaders s [(n, Done r)]).
Proof. induction m as [|m IH]; [done|]. rewrite solo_step. simpl. apply IH. Qed.

Lemma find_table_None ts n i (t : Table) : find_table ts n = None → ts !! i = Some t → name t ≠ n.
Proof.
  revert i. induction ts as [|x ts IH]; intros i Hf Hi; simpl in *; [done|]. case_bool_decide; [done|].
  destruct (find_table ts n); simplify_eq/=. destruct i as [|i]; simplify_eq/=; [done|by apply (IH i)].
Qed.

(** The scan of a context without the table. *)
Lemma solo_scan w g n s ctx d i m :
  holds s ctx → find_table (tables ctx) n = None → i + d = length (tables ctx) →
  run_readers w (mkReaders s [(n, ScanTest i)]) (replicate (3 * d + m) (0, g)) =
  run_readers w (mkReaders s [(n, ScanTest (length (tables ctx)))]) (replicate m (0, g)).
Proof.
  intros Hh Hf. revert i. induction d as [|d IH]; intros i Hd.
  { by replace i with (length (tables ctx)) by lia. }
  destruct (lookup_lt_is_Some_2 (tables ctx) i ltac:(lia)) as [t Ht].
  replace (3 * S d + m) with (S (S (S (3 * d + m)))) by lia. rewrite solo_step. cbn [reader_step mbind option_bind].
  rewrite decide_True by (rewrite (holds_count _ _ Hh); lia). rewrite solo_step. cbn [reader_step mbind option_bind].
  rewrite solo_step. cbn [reader_step]. rewrite (holds_read _ _ _ _ Hh Ht). simpl.
  rewrite decide_False by (by eapply find_table_None). apply IH. lia.
Qed.

(** The rest of the call once the scan has found nothing. *)
Lemma solo_load w g n s ctx :
  g ≠ Fails → holds s ctx → 
  let run := run_readers w (mkReaders s [(n, ScanTest (length (tables ctx)))]) (replicate 10 (0, g)) in
  match table_state_load w (db_root ctx) n with
  | Ok t => ∃ s', run = Some (mkReaders s' [(n, Done (Ok t))]) ∧ holds s' (mkDbContext (db_root ctx) (tables ctx ++ [t]))
  | Err e => ∃ s', run = Some (mkReaders s' [(n, Done (Err e))]) ∧ holds s' ctx
  end.
Proof.
  intros Hg Hh run. subst run. destruct (realloc_holds g s ctx Hg Hh) as (a & x & s1 & Hre & Ha & Hh1).
  rewrite solo_step. cbn [reader_step mbind option_bind]. rewrite decide_False by (rewrite (holds_count _ _ Hh); lia).
  rewrite solo_step. cbn [reader_step mbind option_bind]. rewrite solo_step. cbn [reader_step]. rewrite Hre. cbn [mbind option_bind].
  rewrite solo_step. cbn [reader_step mbind option_bind]. set (s2 := set_tables (Some a) s1) in *.
  rewrite solo_step. cbn [reader_step mbind option_bind]. rewrite solo_step. cbn [reader_step].
  rewrite (holds_root _ _ Hh1), (holds_count _ _ Hh1). change (tables_ptr s2) with (Some a).
  destruct (table_state_load w (db_root ctx) n) as [t|e].
  - destruct (write_slot_holds s2 ctx a x (Some t) Hh1 eq_refl Ha) as (s3 & -> & Hh3 & Hp3 & _ & Hh4). cbn [mbind option_bind].
    rewrite solo_step. cbn [reader_step mbind option_bind]. rewrite (holds_count _ _ Hh3).
    rewrite solo_step. cbn [reader_step mbind option_bind]. specialize (Hh4 t eq_refl). set (s4 := set_table_count _ s3) in *.
    rewrite solo_step. cbn [reader_step mbind option_bind]. rewrite solo_step. cbn [reader_step].
    rewrite (holds_read s4 _ _ t Hh4) by (rewrite (holds_count _ _ Hh4); cbn [tables]; rewrite length_app; simpl; rewrite Nat.add_comm; by apply list_lookup_middle).
    cbn [mbind option_bind]. rewrite solo_done. by exists s4.
  - destruct (write_slot_holds s2 ctx a x None Hh1 eq_refl Ha) as (s3 & -> & Hh3 & _). cbn [mbind option_bind].
    rewrite solo_done. by exists s3.
Qed.

Lemma start_warm s ctx ns :
  Forall (λ n, is_Some (find_table (tables ctx) n)) ns → Forall (warm ctx s) (readers (start_readers s ns)).
Proof.
  intros Hns. simpl. apply Forall_map. eapply Forall_impl; [exact Hns|]. intros n [k Hk]. unfold warm. simpl.
  destruct (find_table_Some _ _ _ Hk) as (t & Ht & _). exists k, t. split_and!; [done|done|lia].
Qed.

(** A reader with no steps left has its table. *)
Lemma warm_finished ctx s n pt k :
  warm ctx s (n, pt) → find_table (tables ctx) n = Some k → steps_left k pt = 0 →
  ∃ t, tables ctx !! k = Some t ∧ pt = Done (Ok t).
Proof.
  intros (k' & t & Hf & Ht & Hpt) Hk Hleft. simpl in *. assert (k' = k) as -> by congruence. exists t. split; [done|].
  destruct pt; simpl in Hpt, Hleft; try done; try lia. by subst.
Qed.

End FirstLoad.

(** ** Properties *)

(** C21. Taken apart into its accesses to shared memory, a call of [db_context_get_table] that
    runs alone ends within three steps for every loaded table and ten more, without undefined
    behaviour wherever [realloc] puts the array, and gives what the call in one step gives: the
    same table or error, and the same context afterwards. *)
Theorem get_table_alone `{RowIndex Idx} w g n s (ctx : DbContext Idx) :
  g ≠ Fails → holds s ctx →
  let run := run_readers w (start_readers s [n]) (replicate (3 * length (tables ctx) + 10) (0, g)) in
  match db_context_get_table w ctx n with
  | (Ok i, ctx') => ∃ t s', tables ctx' !! i = Some t ∧ run = Some (mkReaders s' [(n, Done (Ok t))]) ∧ holds s' ctx'
  | (Err e, ctx') => ∃ s', run = Some (mkReaders s' [(n, Done (Err e))]) ∧ holds s' ctx'
  end.
Proof.
  intros Hg Hh run. subst run. unfold db_context_get_table. destruct (find_table (tables ctx) n) as [k|] eqn:Hf.
  - destruct (find_table_Some _ _ _ Hf) as (t & Ht & _). exists t, s. pose proof (lookup_lt_Some _ _ _ Ht).
    destruct (warm_run w ctx s [(n, ScanTest 0)] (replicate (3 * length (tables ctx) + 10) (0, g)) Hh) as (rs' & Hrun & Hw & Hlen & Hall).
    { apply (start_warm s ctx [n]). by constructor; [eexists|]. }
    destruct (Hall 0 n (ScanTest 0) eq_refl) as (pt' & Hpt' & Hleft). specialize (Hleft k Hf).
    assert (Hpicks : picks 0 (replicate (3 * length (tables ctx) + 10) (0, g)) = 3 * length (tables ctx) + 10) by apply picks_replicate.
    destruct (warm_finished ctx s n pt' k) as (t' & Ht' & ->); [exact (Forall_lookup_1 _ _ _ _ Hw Hpt')|done| |].
    { rewrite Hleft, Hpicks. cbn [steps_left]. lia. }
    assert (t' = t) as -> by congruence. destruct rs' as [|r [|]]; simplify_eq/=. by split_and!.
  - unfold start_readers. simpl map. rewrite (solo_scan w g n s ctx (length (tables ctx)) 0 10 Hh Hf eq_refl).
    pose proof (solo_load w g n s ctx Hg Hh) as Hload. simpl in Hload.
    destruct (table_state_load w (db_root ctx) n) as [t|e]; destruct Hload as (s' & Hrun & Hh'); [|by exists s'].
    exists t, s'. split_and!; [by apply list_lookup_middle|done|done].
Qed.

(** C20. Overlapping readers of loaded tables do not disturb each other: however their steps
    interleave, nobody runs into undefined behaviour, the shared memory stays as it was, and a
    reader that has moved often enough (three times for every loaded table and five more) has
    the table it asked for. *)
Theorem readers_of_loaded_tables `{RowIndex Idx} w s (ctx : DbContext Idx) ns sched :
  holds s ctx → Forall (λ n, is_Some (find_table (tables ctx) n)) ns →
  ∃ rs, run_readers w (start_readers s ns) sched = Some (mkReaders s rs) ∧
    ∀ j n, ns !! j = Some n → 3 * length (tables ctx) + 5 ≤ picks j sched →
      ∃ k t, find_table (tables ctx) n = Some k ∧ tables ctx !! k = Some t ∧ rs !! j = Some (n, Done (Ok t)).
Proof.
  intros Hh Hns. destruct (warm_run w ctx s _ sched Hh (start_warm s ctx ns Hns)) as (rs & Hrun & Hw & _ & Hall).
  exists rs. split; [done|]. intros j n Hj Hpicks.
  destruct (Hall j n (ScanTest 0)) as (pt & Hpt & Hleft); [simpl; by rewrite list_lookup_fmap, Hj|].
  destruct (Forall_lookup_1 _ _ _ _ Hns Hj) as [k Hk]. destruct (find_table_Some _ _ _ Hk) as (t & Ht & _).
  pose proof (lookup_lt_Some _ _ _ Ht).
  destruct (warm_finished ctx s n pt k) as (t' & Ht' & ->); [exact (Forall_lookup_1 _ _ _ _ Hw Hpt)|done| |eauto 10].
  rewrite (Hleft k Hk). cbn [steps_left]. lia.
Qed.

(** ** Examples *)

Definition loaded_ctx : DbContext BPTree := mkDbContext «"data"» [sample_table].
Definition loaded_shared : Shared (Idx := BPTree) := mkShared «"data"» (Some 0) 1 {[0 := [Some sample_table]]} 1.

Lemma loaded_holds : holds loaded_shared loaded_ctx.
Proof.
  constructor; [done|done| |].
  - exists []. apply lookup_singleton_eq.
  - simpl. intros a Ha. apply lookup_singleton_ne. lia.
Qed.

Lemma users_loaded : find_table (tables loaded_ctx) «"users"» = Some 0.
Proof. vm_compute. reflexivity. Qed.

(** Two readers of [users], step by step in turn. *)
Lemma readers_of_loaded_tables_witness :
  ∃ rs, run_readers sample_world (start_readers loaded_shared [«"users"»; «"users"»]) (concat (replicate 8 [(0, Moves); (1, Moves)]))
          = Some (mkReaders loaded_shared rs) ∧
    rs !! 1 = Some («"users"», Done (Ok sample_table)).
Proof.
  destruct (readers_of_loaded_tables sample_world loaded_shared loaded_ctx [«"users"»; «"users"»]
    (concat (replicate 8 [(0, Moves); (1, Moves)])) loaded_holds) as (rs & Hrun & Hall).
  { constructor; [exists 0; exact users_loaded|]. constructor; [exists 0; exact users_loaded|constructor]. }
  exists rs. split; [exact Hrun|]. destruct (Hall 1 «"users"» eq_refl) as (k & t & Hk & Ht & Hr).
  - apply Nat.leb_le. reflexivity.
  - rewrite users_loaded in Hk. injection Hk as <-. simpl in Ht. injection Ht as <-. exact Hr.
Defined.

(** The first call on a fresh context. *)
Lemma empty_holds root : holds (Idx := BPTree) (empty_shared root) (db_context_create root).
Proof. constructor; [done|done|done|]. intros a _. apply lookup_empty. Qed.

Lemma get_table_alone_witness :
  ∃ t s', run_readers sample_world (start_readers (empty_shared (Idx := BPTree) «"data"») [«"users"»]) (replicate 10 (0, Moves)) =
      Some (mkReaders s' [(«"users"», Done (Ok t))]) ∧ holds s' loaded_ctx.
Proof.
  pose proof (get_table_alone sample_world Moves «"users"» _ _ ltac:(done) (empty_holds «"data"»)) as Hrun. cbv zeta in Hrun.
  assert (Hget : db_context_get_table sample_world (db_context_create «"data"») «"users"» = (Ok 0, loaded_ctx)) by (vm_compute; reflexivity).
  rewrite Hget in Hrun. destruct Hrun as (t & s' & _ & Hrun & Hh). exists t, s'. split; [exact Hrun|exact Hh].
Defined.

(** A schedule for two readers of a table that is not loaded yet: both find nothing; the first
    loads the table and returns; then the second moves the array, and the first looks at its
    table through a pointer into the array that was given back. *)
Definition first_load_schedule : list (nat * growth) :=
  (1, Moves) :: replicate 9 (0, Moves) ++ [(1, Moves); (1, Moves); (0, Moves)].

(** Overlapping readers that load a table are not safe: the schedule ends in undefined
    behaviour, one step after a state in which none had happened. *)
Theorem first_load_race :
  let start := start_readers (empty_shared (Idx := BPTree) «"data"») [«"users"»; «"users"»] in
  is_Some (run_readers sample_world start (take 12 first_load_schedule)) ∧
  run_readers sample_world start first_load_schedule = None.
Proof. split; [apply (bool_decide_unpack _); vm_compute; exact I|vm_compute; reflexivity]. Qed.

(** Without undefined behaviour the same table can end up loaded twice. *)
Theorem first_load_twice :
  match run_readers sample_world (start_readers (empty_shared (Idx := BPTree) «"data"») [«"users"»; «"users"»])
    ((1, InPlace) :: replicate 10 (0, InPlace) ++ replicate 9 (1, InPlace)) with
  | Some rs => option_map (map (option_map name)) (array_at (shared_ctx rs) (tables_ptr (shared_ctx rs))) = Some [Some «"users"»; Some «"users"»]
  | None => False
  end.
Proof. vm_compute. reflexivity. Qed.
