(* ===== verification/Executor.v ===== *)
(** * [src/src/query/executor.c]: running a query

    [execute_select] and [execute_insert] take the world and the context and return the text
    printed to [out], or the error, together with the new context and world: on an error path
    the context may still have changed, because the table was loaded. *)

From stdpp Require Import base list strings sets gmap.
From Stdlib Require Import Ascii.
From S2P Require Import Prelude CString Common Parser Index BPTree Schema Storage DbContext.

Definition validate_value (c : ColumnDef) (value : cstr) : result SqlError () :=
  if is_int_column c && negb (is_integer_string value) then
    fail («"column "» ++ col_name c ++ «" expects int"»)
  else if is_float_column c && negb (is_float_string value) then
    fail («"column "» ++ col_name c ++ «" expects float"»)
  else Ok ().

Definition find_column_index (s : Schema) (column_name : cstr) : Z :=
  match find_column (columns s) column_name with Some i => Z.of_nat i | None => (-1)%Z end.

Definition print_header (s : Schema) : cstr := join "," (map col_name (columns s)) ++ [LF].

Definition print_row (r : Row) : cstr := join "," r ++ [LF].

Definition print_rows (rs : list Row) : cstr := concat (map print_row rs).

Section Executor.
Context `{RowIndex Idx}.

(** What [execute_select] prints for a table. *)
Definition select_table (t : TableState Idx) (cond : option Condition) : result SqlError cstr :=
  match cond with
  | None => Ok (print_header (schema t) ++ print_rows (rows (rowset t)))
  | Some c =>
      if bool_decide (cond_column c = «"id"») then
        if negb (is_integer_string (raw (cond_value c))) then fail «"WHERE id requires an integer value"»
        else
          Ok (print_header (schema t) ++
              match index_search (index t) (atoi (raw (cond_value c))) with
              | Some matched_row_index =>
                  print_rows (option_list (rows (rowset t) !! Z.to_nat matched_row_index))
              | None => []
              end)
      else
        let column_index := find_column_index (schema t) (cond_column c) in
        if (column_index <? 0)%Z then fail («"unknown column in WHERE clause: "» ++ cond_column c)
        else
          Ok (print_header (schema t) ++
              print_rows (List.filter (λ r, bool_decide (field_at r column_index = raw (cond_value c)))
                                      (rows (rowset t))))
  end.

(** Run [k] on the table a position denotes; [db_context_get_table] returns valid positions. *)
Definition with_table {A} (ctx : DbContext Idx) (i : nat) (d : A) (k : TableState Idx → A) : A :=
  match tables ctx !! i with Some t => k t | None => d end.

Definition execute_select (w : World) (ctx : DbContext Idx) (q : Query) : result SqlError cstr * DbContext Idx :=
  match db_context_get_table w ctx (table_name q) with
  | (Err e, ctx') => (Err e, ctx')
  | (Ok i, ctx') => (with_table ctx' i (Ok []) (λ t, select_table t (condition q)), ctx')
  end.

(** ** INSERT *)

(** The row of an INSERT: the values, with the automatic id in front when it was left out. *)
Definition insert_fields (t : TableState Idx) (vals : list cstr) : result SqlError Row :=
  if Nat.eqb (length vals) (column_count (schema t)) then Ok vals
  else if autoincrement (schema t) && (primary_key_index (schema t) =? 0)%Z &&
          Nat.eqb (length vals) (column_count (schema t) - 1)
  then Ok (show_int (next_id t) :: vals)
  else fail «"VALUES count does not match schema"».

Definition checked_fields (t : TableState Idx) (vals : list cstr) : result SqlError Row :=
  fields ← insert_fields t vals;
  _ ← validate_fields validate_value (columns (schema t)) fields;
  Ok fields.

Definition append_row_to_memory (t : TableState Idx) (fields : Row) : TableState Idx :=
  let rs := rowset t in
  let capacity :=
    if (Z.of_nat (row_count rs) =? row_capacity rs)%Z
    then (if (row_capacity rs =? 0)%Z then 8 else row_capacity rs * 2)%Z
    else row_capacity rs in
  mkTableState (name t) (schema t)
    (mkRowSet (rows rs ++ [take (column_count (schema t)) fields]) capacity (rowset_column_count rs))
    (index t) (next_id t).

Definition set_table (ctx : DbContext Idx) (i : nat) (t : TableState Idx) : DbContext Idx :=
  mkDbContext (db_root ctx) (<[i := t]> (tables ctx)).

(** The table after its index received the new row. *)
Definition finish_insert (t : TableState Idx) (idx : Idx) (id : Z) : TableState Idx :=
  mkTableState (name t) (schema t) (rowset t) idx
    (if (next_id t <=? id)%Z then wrap32 (id + 1) else next_id t).

(** [execute_insert] once the table is known to be at position [i]. *)
Definition insert_into (w : World) (ctx : DbContext Idx) (i : nat) (table_name : cstr) (vals : list cstr)
    (t : TableState Idx) : result SqlError cstr * DbContext Idx * World :=
  match checked_fields t vals with
  | Err e => (Err e, ctx, w)
  | Ok fields =>
      let inserted_id := row_id (schema t) fields in
      match index_search (index t) inserted_id with
      | Some _ => (fail («"duplicate id: "» ++ show_int inserted_id), ctx, w)
      | None =>
          match append_csv_row w (db_root ctx) table_name fields with
          | Err e => (Err e, ctx, w)
          | Ok w' =>
              let inserted_row_index := Z.of_nat (row_count (rowset t)) in
              let t1 := append_row_to_memory t fields in
              match index_insert (index t1) inserted_id inserted_row_index with
              | Err e =>
                  match db_context_reload_table w' (set_table ctx i t1) table_name with
                  | (Err e', ctx') => (Err e', ctx', w')
                  | (Ok _, ctx') => (Err e, ctx', w')
                  end
              | Ok idx => (Ok («"INSERT 1"» ++ [LF]), set_table ctx i (finish_insert t1 idx inserted_id), w')
              end
          end
      end
  end.

Definition execute_insert (w : World) (ctx : DbContext Idx) (q : Query)
    : result SqlError cstr * DbContext Idx * World :=
  match db_context_get_table w ctx (table_name q) with
  | (Err e, ctx') => (Err e, ctx', w)
  | (Ok i, ctx') => with_table ctx' i (Ok [], ctx', w) (insert_into w ctx' i (table_name q) (values q))
  end.

Definition execute_query (w : World) (ctx : DbContext Idx) (q : Query)
    : result SqlError cstr * DbContext Idx * World :=
  match query_type q with
  | QUERY_SELECT => let '(r, ctx') := execute_select w ctx q in (r, ctx', w)
  | QUERY_INSERT => execute_insert w ctx q
  end.

End Executor.

(** ** Specification *)

Section Spec.
Context `{RowIndex Idx}.

(** The table an INSERT of [fields] should leave, as far as queries can see. *)
Record inserted (t : TableState Idx) (fields : Row) (t' : TableState Idx) : Prop := {
  inserted_name : name t' = name t;
  inserted_schema : schema t' = schema t;
  inserted_rows : rowset t' = rowset_append (rowset t) fields;
  inserted_next : next_id t' = if (next_id t <=? row_id (schema t) fields)%Z
                               then wrap32 (row_id (schema t) fields + 1) else next_id t;
  inserted_index : index_insert (index t) (row_id (schema t) fields) (Z.of_nat (row_count (rowset t)))
                   = Ok (index t')
}.

(** An INSERT that goes through: the new world and the new context. *)
Definition insert_done (w : World) (ctx : DbContext Idx) (i : nat) (n : cstr) (t : TableState Idx)
    (fields : Row) (ctx' : DbContext Idx) (w' : World) : Prop :=
  ∃ t', inserted t fields t' ∧ ctx' = set_table ctx i t' ∧ append_csv_row w (db_root ctx) n fields = Ok w'.

End Spec.

(** ** Lemmas: one INSERT *)

Lemma validate_value_ok c v : validate_value c v = Ok () ↔ value_ok c v = true.
Proof.
  unfold validate_value, value_ok, fail.
  destruct (is_int_column c), (is_float_column c), (is_integer_string v), (is_float_string v); done.
Qed.

Lemma next_id_ok_snoc ids next id :
  is_int id → next_id_ok ids next →
  next_id_ok (ids ++ [id]) (if (next <=? id)%Z then wrap32 (id + 1) else next).
Proof.
  intros Hid [Hmax|(Hpos & Hint & Hall)]; [left; set_solver|].
  destruct (decide (id = INT_MAX)) as [-> |Hne]; [left; set_solver|]. right.
  unfold is_int, INT_MIN, INT_MAX in *. destruct (Z.leb_spec next id) as [Hle|Hgt].
  - rewrite wrap32_id by (unfold is_int, INT_MIN, INT_MAX; lia). split_and!; [lia..|].
    intros k [Hk| ->%list_elem_of_singleton]%elem_of_app; [specialize (Hall k Hk)|]; lia.
  - split_and!; [lia..|]. intros k [Hk| ->%list_elem_of_singleton]%elem_of_app; [by apply Hall|lia].
Qed.

Section Insert.
Context `{RowIndex Idx}.
Implicit Types t : TableState Idx.

Lemma insert_fields_length t vals fields :
  columns (schema t) ≠ [] → insert_fields t vals = Ok fields → length fields = column_count (schema t).
Proof.
  intros Hne. unfold insert_fields. destruct (Nat.eqb_spec (length vals) (column_count (schema t))).
  { by intros [= <-]. }
  destruct (_ && _ && _) eqn:Hb; [|done]. intros [= <-]. breflect. simpl.
  unfold column_count in *. destruct (columns (schema t)); [done|]. simpl in *. lia.
Qed.

Lemma checked_fields_Ok t vals fields :
  columns (schema t) ≠ [] → checked_fields t vals = Ok fields →
  insert_fields t vals = Ok fields ∧ row_ok (schema t) fields.
Proof.
  intros Hne. unfold checked_fields. destruct (insert_fields t vals) as [fs|] eqn:Hf; simpl; [|done].
  destruct (validate_fields _ _ fs) as [[]|] eqn:Hv; simpl; [|done]. intros [= <-].
  assert (Hl := insert_fields_length t vals fs Hne Hf). split; [done|]. split; [done|].
  by apply (validate_fields_ok validate_value) in Hv; [|apply validate_value_ok|].
Qed.

Lemma append_row_to_memory_rows t fields :
  length fields = column_count (schema t) →
  rowset (append_row_to_memory t fields) = rowset_append (rowset t) fields.
Proof.
  intros Hl. unfold append_row_to_memory, rowset_append, next_capacity. simpl.
  by rewrite take_ge by lia.
Qed.

(** A search that found nothing makes the insertion succeed: the recovery branch is dead. *)
Lemma index_insert_after_search t id :
  table_ok t → index_search (index t) id = None →
  ∃ idx, index_insert (index t) id (Z.of_nat (row_count (rowset t))) = Ok idx.
Proof.
  intros Ht Hs. rewrite index_search_map in Hs by apply Ht.
  destruct (index_insert_new (index t) id (Z.of_nat (row_count (rowset t))) (table_index_ok t Ht) Hs)
    as (idx & ? & _). eauto.
Qed.

Lemma insert_into_cases w ctx i n vals t r ctx' w' :
  table_ok t → insert_into w ctx i n vals t = (r, ctx', w') →
  (∃ e, r = Err e ∧ ctx' = ctx ∧ w' = w) ∨
  (∃ fields, checked_fields t vals = Ok fields ∧ row_id (schema t) fields ∉ row_ids (schema t) (rows (rowset t)) ∧
     r = Ok («"INSERT 1"» ++ [LF]) ∧ insert_done w ctx i n t fields ctx' w').
Proof.
  intros Ht. unfold insert_into. destruct (checked_fields t vals) as [fields|] eqn:Hc; [|naive_solver].
  destruct (index_search (index t) (row_id (schema t) fields)) eqn:Hs; [intros; simplify_eq; left; eexists; done|].
  destruct (append_csv_row w (db_root ctx) n fields) as [w1|] eqn:Ha; [|naive_solver].
  destruct (index_insert_after_search t (row_id (schema t) fields) Ht Hs) as [idx Hi]. cbn [append_row_to_memory index].
  rewrite Hi. intros [= <- <- <-]. right. exists fields.
  destruct (checked_fields_Ok t vals fields) as [_ [Hl _]]; [apply Ht|done|]. split_and!; [done| |done|].
  - rewrite (index_agrees_elem (index t)) by apply Ht. rewrite <- index_search_map by apply Ht. rewrite Hs.
    by intros [? ?].
  - eexists. split; [|done]. constructor; simpl; [done..| |done|done].
    by rewrite <- append_row_to_memory_rows.
Qed.

(** The row id of a stored row. *)
Lemma inserted_table_ok t fields t' :
  table_ok t → row_ok (schema t) fields → inserted t fields t' → table_ok t'.
Proof.
  intros Ht Hrow [Hn Hs Hr Hx Hi].
  destruct (index_insert_Ok (index t) (index t') _ _ (table_index_ok t Ht) Hi) as (Hok & Hnone & Hmap).
  assert (Hids : row_ids (schema t') (rows (rowset t')) =
                 row_ids (schema t) (rows (rowset t)) ++ [row_id (schema t) fields]).
  { rewrite Hs, Hr. unfold row_ids. simpl. by rewrite map_app. }
  constructor; rewrite ?Hids, ?Hs; try apply Ht; try done.
  - rewrite Hr. apply rowset_append_capacity, Ht.
  - rewrite Hr. simpl. apply Forall_app; split; [apply Ht|]. by constructor.
  - eapply index_agrees_snoc; [apply Ht|done|]. rewrite Hmap. unfold row_ids, row_count. by rewrite length_map.
  - rewrite Hx. apply next_id_ok_snoc; [apply atoi_is_int|apply Ht].
Qed.

Lemma set_table_ctx_ok ctx i t : ctx_ok ctx → table_ok t → ctx_ok (set_table ctx i t).
Proof. intros. by apply Forall_insert. Qed.

Lemma ctx_ok_lookup (ctx : DbContext Idx) i t : ctx_ok ctx → tables ctx !! i = Some t → table_ok t.
Proof. intros Hc Ht. by eapply Forall_lookup_1 in Hc. Qed.

(** The outcome of [execute_insert]: an error that changes nothing but the loaded tables, or
    one row appended to the file, the table and the index. *)
Lemma execute_insert_cases w ctx q r ctx' w' :
  (∀ t, table_state_load w (db_root ctx) (table_name q) = Ok t → schema_ok (schema t)) →
  ctx_ok ctx → execute_insert w ctx q = (r, ctx', w') →
  let ctx1 := (db_context_get_table w ctx (table_name q)).2 in
  ctx_ok ctx1 ∧ db_root ctx1 = db_root ctx ∧
  ((∃ e, r = Err e ∧ ctx' = ctx1 ∧ w' = w) ∨
   (∃ i t fields, db_context_get_table w ctx (table_name q) = (Ok i, ctx1) ∧ tables ctx1 !! i = Some t ∧
      table_ok t ∧ checked_fields t (values q) = Ok fields ∧
      row_id (schema t) fields ∉ row_ids (schema t) (rows (rowset t)) ∧
      r = Ok («"INSERT 1"» ++ [LF]) ∧ insert_done w ctx1 i (table_name q) t fields ctx' w')).
Proof.
  intros Hs Hctx. unfold execute_insert.
  destruct (db_context_get_table w ctx (table_name q)) as [g ctx1] eqn:Hg. simpl. intros Hins.
  assert (Hok1 : ctx_ok ctx1) by (by eapply get_table_ctx_ok).
  destruct g as [i|e].
  - destruct (get_table_position w ctx (table_name q) i ctx1 Hg) as [Hroot [t Ht]].
    split; [done|]. split; [done|]. unfold with_table in Hins. rewrite Ht in Hins.
    assert (Htok := ctx_ok_lookup ctx1 i t Hok1 Ht).
    destruct (insert_into_cases w ctx1 i _ _ t r ctx' w' Htok Hins) as [?|(fields & ? & ? & ? & ?)]; [by left|].
    right. by exists i, t, fields.
  - simplify_eq. split; [done|]. split; [|left; by exists e]. unfold db_context_get_table in Hg.
    destruct (find_table _ _); [done|]. destruct (table_state_load _ _ _); by simplify_eq.
Qed.

(** A successful INSERT into a loaded table. *)
Lemma insert_loaded w ctx q i t fields out ctx' w' :
  find_table (tables ctx) (table_name q) = Some i → tables ctx !! i = Some t → table_ok t →
  checked_fields t (values q) = Ok fields → execute_insert w ctx q = (Ok out, ctx', w') →
  ∃ t', inserted t fields t' ∧ table_ok t' ∧ row_id (schema t) fields ∉ row_ids (schema t) (rows (rowset t)) ∧
    ctx' = set_table ctx i t' ∧ find_table (tables ctx') (table_name q) = Some i ∧ tables ctx' !! i = Some t'.
Proof.
  intros Hf Hi Ht Hc. unfold execute_insert, db_context_get_table. rewrite Hf. unfold with_table. rewrite Hi.
  intros Hins. destruct (insert_into_cases w ctx i _ _ t _ ctx' w' Ht Hins)
    as [(e & ? & _)|(fs & Hfs & Hfresh & _ & t' & Hins' & -> & _)]; [done|].
  rewrite Hc in Hfs. injection Hfs as <-. exists t'. split_and!; [done| |done|done| |].
  - eapply inserted_table_ok; [done| |done]. by apply (checked_fields_Ok t (values q)); [apply Ht|].
  - simpl. by rewrite (find_table_insert _ _ t) by (done || apply Hins').
  - simpl. apply list_lookup_insert_eq. by eapply lookup_lt_Some.
Qed.

End Insert.

(** ** Lemmas: SELECT *)

Lemma filter_none {A} (p : A → bool) l : Forall (λ x, p x = false) l → List.filter p l = [].
Proof. induction 1 as [|x l Hx _ IH]; simpl; [done|]. by rewrite Hx. Qed.

Lemma filter_unique {A} (f : A → Z) l i x :
  NoDup (map f l) → l !! i = Some x → List.filter (λ y, (f y =? f x)%Z) l = [x].
Proof.
  revert i. induction l as [|y l IH]; intros i Hnd Hi; [done|].
  change (map f (y :: l)) with (f y :: map f l) in Hnd. apply NoDup_cons in Hnd as [Hy Hnd]. destruct i as [|i]; simpl in Hi.
  - injection Hi as ->. simpl. rewrite Z.eqb_refl. f_equal. apply filter_none, Forall_forall.
    intros z Hz. apply Z.eqb_neq. intros Heq. apply Hy. rewrite <- Heq. by apply list_elem_of_fmap_2.
  - simpl. destruct (Z.eqb_spec (f y) (f x)) as [Heq|_]; [|by apply (IH i)]. destruct Hy. rewrite Heq.
    apply list_elem_of_fmap_2. by apply list_elem_of_lookup_2 in Hi.
Qed.

Section Select.
Context `{RowIndex Idx}.
Implicit Types t : TableState Idx.

(** The index lookup finds the rows a scan of the table would find. *)
Lemma index_scan t id :
  table_ok t →
  match index_search (index t) id with
  | Some i => option_list (rows (rowset t) !! Z.to_nat i)
  | None => []
  end = List.filter (λ r, (row_id (schema t) r =? id)%Z) (rows (rowset t)).
Proof.
  intros Ht. pose proof (table_index t Ht) as Ha. rewrite index_search_map by apply Ht.
  destruct (index_map (index t) !! id) as [i|] eqn:Hi.
  - apply Ha in Hi as [_ Hi]. unfold row_ids in Hi.
    rewrite list_lookup_fmap in Hi. destruct (rows (rowset t) !! Z.to_nat i) as [r|] eqn:Hr; [|done].
    simpl in Hi. injection Hi as <-. simpl. symmetry. eapply filter_unique; [|done].
    by apply (index_agrees_NoDup (index t)).
  - symmetry. apply filter_none, Forall_forall. intros r Hr. apply Z.eqb_neq. intros Heq.
    assert (Hs : is_Some (index_map (index t) !! id)); [|rewrite Hi in Hs; by destruct Hs].
    apply (index_agrees_elem (index t) _ id Ha). rewrite <- Heq. by apply list_elem_of_fmap_2.
Qed.

Lemma select_by_id t v :
  table_ok t → is_integer_string (raw v) = true →
  select_table t (Some (mkCondition «"id"» v)) =
    Ok (print_header (schema t) ++
        print_rows (List.filter (λ r, (row_id (schema t) r =? atoi (raw v))%Z) (rows (rowset t)))).
Proof.
  intros Ht Hint. unfold select_table. cbn [cond_column cond_value].
  rewrite bool_decide_eq_true_2 by done. rewrite Hint. cbn [negb]. do 2 f_equal.
  rewrite <- (index_scan t (atoi (raw v)) Ht). by destruct (index_search _ _).
Qed.

End Select.

(** ** Lemmas: the files after an INSERT *)

(** The schema and the table of a root short enough for the path buffer are different files. *)
Lemma paths_differ db n m : (length db + 2 < SQL_PATH_BUFFER_SIZE)%nat → schema_path db n ≠ build_table_path db m.
Proof.
  unfold schema_path, build_table_path, bounded. intros Hl Heq.
  apply (f_equal (λ l, l !! (length db + 1)%nat)) in Heq.
  rewrite !lookup_take_lt in Heq by lia. rewrite !(lookup_app_r db) in Heq by lia.
  by replace (length db + 1 - length db)%nat with 1%nat in Heq by lia.
Qed.

Lemma load_schema_append w db n m fields w' :
  (length db + 2 < SQL_PATH_BUFFER_SIZE)%nat → append_csv_row w db n fields = Ok w' →
  load_schema w' db m = load_schema w db m.
Proof.
  intros Hl [_ ->]%append_csv_row_Ok. unfold load_schema, sql_read_text_file. simpl.
  rewrite lookup_insert_ne by (intros He; by apply (paths_differ db m n Hl)).
  destruct (files w !! schema_path db m) as [c|]; simpl; [|done].
  by rewrite (schema_lines_freed _ w).
Qed.

Lemma initial_next_id_step m id :
  (0 <= m < INT_MAX)%Z → is_int id → (id < INT_MAX)%Z →
  initial_next_id (Z.max m id) =
    if (initial_next_id m <=? id)%Z then wrap32 (id + 1) else initial_next_id m.
Proof.
  intros Hm Hid Hlt. unfold initial_next_id, is_int, INT_MIN, INT_MAX in *.
  rewrite (wrap32_id (m + 1)) by (unfold is_int, INT_MIN, INT_MAX; lia).
  rewrite (wrap32_id (Z.max m id + 1)) by (unfold is_int, INT_MIN, INT_MAX; lia).
  destruct (Z.leb_spec (m + 1) 0); [lia|]. destruct (Z.leb_spec (Z.max m id + 1) 0); [lia|].
  destruct (Z.leb_spec (m + 1) id); [|lia].
  rewrite wrap32_id by (unfold is_int, INT_MIN, INT_MAX; lia). lia.
Qed.

Section Durable.
Context `{RowIndex Idx}.
Implicit Types t : TableState Idx.

Lemma build_index_snoc s (idx idx' idx2 : Idx) m m' i rs r :
  build_index s idx m i rs = Ok (idx', m') →
  index_insert idx' (row_id s r) (i + Z.of_nat (length rs)) = Ok idx2 →
  build_index s idx m i (rs ++ [r]) = Ok (idx2, Z.max m' (row_id s r)).
Proof.
  revert idx m i. induction rs as [|x rs IH]; intros idx m i; simpl.
  - intros [= -> ->]. rewrite Z.add_0_r. intros ->. simpl. do 2 f_equal.
    destruct (Z.ltb_spec m' (row_id s r)); lia.
  - destruct (index_insert idx (row_id s x) i) as [idx1|]; simpl; [|done]. intros Hb Hi.
    eapply IH; [done|]. by replace (i + 1 + Z.of_nat (length rs))%Z with (i + Z.of_nat (S (length rs)))%Z by lia.
Qed.

Lemma map_trim_safe fields : Forall csv_safe fields → map trim fields = fields.
Proof. induction 1 as [|f fields [_ Hf] _ IH]; simpl; [done|]. by rewrite IH, trim_id. Qed.

Lemma reload_after_insert w db n t fields w' t' :
  (length db + 2 < SQL_PATH_BUFFER_SIZE)%nat → table_closed w db n →
  table_state_load w db n = Ok t → inserted t fields t' → append_csv_row w db n fields = Ok w' →
  row_ok (schema t) fields → Forall csv_safe fields → row_fits fields →
  INT_MAX ∉ row_ids (schema t) (rows (rowset t)) ++ [row_id (schema t) fields] →
  table_state_load w' db n = Ok t'.
Proof.
  intros Hdb Hcl Hl [Hn Hs Hr Hx Hi] Ha Hrow Hsafe Hfit Hmax.
  apply table_state_load_inv in Hl as (Hsch & Hread & Hv & Hpk & Hname & Hb & Hnext).
  assert (Hread' : read_csv_rows w' db n (column_count (schema t)) = Ok (rowset_append (rowset t) fields)).
  { rewrite <- (map_trim_safe fields) by done. eapply read_appended_row; try done; [apply Hrow|].
    eapply Forall_impl; [done|]. by intros ? [? _]. }
  unfold table_state_load. rewrite (load_schema_append w db n n fields w') by done. rewrite Hsch. simpl.
  rewrite Hread'. simpl. unfold validate_loaded_rowset.
  rewrite (proj2 (validate_loaded_rows_ok (schema t) (rows (rowset_append (rowset t) fields))))
    by (simpl; apply Forall_app; split; [done|by constructor]).
  simpl. destruct (Z.ltb_spec (primary_key_index (schema t)) 0); [lia|].
  erewrite build_index_snoc by (exact Hb || exact Hi). simpl.
  set (m := max_id_from 0 (row_ids (schema t) (rows (rowset t)))) in *.
  assert (Hm : (0 <= m < INT_MAX)%Z).
  { destruct (max_id_from_spec 0 (row_ids (schema t) (rows (rowset t)))) as (Hm0 & _ & Hin). fold m in Hm0, Hin.
    split; [done|]. destruct Hin as [-> |Hin]; [done|]. pose proof (row_ids_int _ _ _ Hin) as [_ ?].
    destruct (decide (m = INT_MAX)) as [E|]; [|lia]. rewrite E in Hin. set_solver. }
  assert (Hid : (row_id (schema t) fields < INT_MAX)%Z).
  { pose proof (atoi_is_int (field_at fields (primary_key_index (schema t)))) as [_ Hub].
    change (row_id (schema t) fields <= INT_MAX)%Z in Hub.
    destruct (decide (row_id (schema t) fields = INT_MAX)); [set_solver|lia]. }
  rewrite initial_next_id_step by (done || apply atoi_is_int). rewrite <- Hnext, <- Hx, <- Hs, <- Hname.
  destruct t' as [n' s' rs' idx' x']. simpl in *. by subst.
Qed.

End Durable.

(** ** Sample data for the witnesses *)

Lemma sample_table_ok : table_ok sample_table.
Proof.
  pose proof (table_state_load_inv _ _ _ _ sample_table_load) as (Hs & _).
  apply (table_state_load_table_ok sample_world «"data"» «"users"»); [apply sample_table_load|].
  eapply load_schema_schema_ok; [apply sample_world_single|exact Hs].
Qed.

Definition sample_ctx : DbContext BPTree := mkDbContext «"data"» [sample_table].

Lemma sample_ctx_ok : ctx_ok sample_ctx.
Proof. apply Forall_singleton, sample_table_ok. Qed.

(** [INSERT INTO users VALUES (park, 31)]: the id is automatic. *)
Definition insert_park : Query := mkQuery QUERY_INSERT «"users"» [«"park"»; «"31"»] None.

Definition park_row : Row := [«"8"»; «"park"»; «"31"»].

Definition park_world : World :=
  match append_csv_row sample_world «"data"» «"users"» park_row with Ok w => w | Err _ => sample_world end.

(** ** Lemmas: sequences of queries *)

Lemma execute_query_ctx_ok `{RowIndex Idx} w (ctx : DbContext Idx) q r ctx' w' :
  single_columns_line w (db_root ctx) (table_name q) → ctx_ok ctx →
  execute_query w ctx q = (r, ctx', w') → ctx_ok ctx' ∧ db_root ctx' = db_root ctx.
Proof.
  intros Hs Hctx Hq.
  assert (Hsch : ∀ t : TableState Idx, table_state_load w (db_root ctx) (table_name q) = Ok t → schema_ok (schema t)).
  { intros t (Hl & _)%table_state_load_inv. by eapply load_schema_schema_ok. }
  unfold execute_query in Hq. destruct (query_type q).
  - destruct (execute_insert_cases w ctx q r ctx' w' Hsch Hctx Hq)
      as (Hok1 & Hroot & [(e & _ & -> & _)|(i & t & fields & _ & Hi & Ht & Hc & _ & _ & t' & Hins & -> & _)]); [done|].
    split; [|done]. apply set_table_ctx_ok; [done|]. eapply inserted_table_ok; [done| |done].
    apply (checked_fields_Ok t (values q)); [apply Ht|done].
  - unfold execute_select in Hq. destruct (db_context_get_table w ctx (table_name q)) as [g ctx1] eqn:Hg.
    assert (Hok1 : ctx_ok ctx1) by (by eapply get_table_ctx_ok).
    assert (Hroot : db_root ctx1 = db_root ctx).
    { unfold db_context_get_table in Hg. destruct (find_table _ _); [by simplify_eq|].
      destruct (table_state_load _ _ _); by simplify_eq. }
    destruct g; by simplify_eq.
Qed.

(** What every query keeps: the context invariant, and schema files with at most one [columns]
    line under a root short enough for the path buffer. *)
Record db_ok `{RowIndex Idx} (w : World) (ctx : DbContext Idx) : Prop := {
  db_ctx_ok : ctx_ok ctx;
  db_schemas : ∀ n, single_columns_line w (db_root ctx) n;
  db_root_short : (length (db_root ctx) + 2 < SQL_PATH_BUFFER_SIZE)%nat
}.

(** Appending to a table leaves all schema files alone. *)
Lemma append_keeps_schemas w db n fields w' m :
  (length db + 2 < SQL_PATH_BUFFER_SIZE)%nat → append_csv_row w db n fields = Ok w' →
  single_columns_line w db m → single_columns_line w' db m.
Proof.
  intros Hl [_ ->]%append_csv_row_Ok Hs content. simpl.
  rewrite lookup_insert_ne by (intros He; by apply (paths_differ db m n Hl)). apply Hs.
Qed.

Lemma get_table_root `{RowIndex Idx} w (ctx : DbContext Idx) n :
  db_root (db_context_get_table w ctx n).2 = db_root ctx.
Proof. unfold db_context_get_table. destruct (find_table _ _); [done|]. by destruct (table_state_load _ _ _). Qed.

(** The files a query leaves: unchanged, or with a row appended to the table it names. *)
Lemma execute_query_files `{RowIndex Idx} w (ctx : DbContext Idx) q r ctx' w' :
  single_columns_line w (db_root ctx) (table_name q) → ctx_ok ctx → execute_query w ctx q = (r, ctx', w') →
  w' = w ∨ ∃ fields, append_csv_row w (db_root ctx) (table_name q) fields = Ok w'.
Proof.
  intros Hs Hctx. unfold execute_query. destruct (query_type q).
  - intros Hins. assert (Hsch : ∀ t : TableState Idx, table_state_load w (db_root ctx) (table_name q) = Ok t → schema_ok (schema t)).
    { intros t (Hl & _)%table_state_load_inv. by eapply load_schema_schema_ok. }
    destruct (execute_insert_cases w ctx q r ctx' w' Hsch Hctx Hins)
      as (_ & Hroot & [(e & _ & _ & ->)|(i & t & fields & _ & _ & _ & _ & _ & _ & t' & _ & _ & Ha)]); [by left|].
    right. exists fields. by rewrite <- Hroot.
  - destruct (execute_select w ctx q). intros [= _ _ <-]. by left.
Qed.

(** No file loses a byte: every file keeps its content as a prefix. *)
Definition files_grow (w w' : World) : Prop :=
  ∀ path c, files w !! path = Some c → ∃ added, files w' !! path = Some (c ++ added).

#[export] Instance files_grow_preorder : PreOrder files_grow.
Proof.
  split.
  - intros w path c Hc. exists []. by rewrite app_nil_r.
  - intros w1 w2 w3 H12 H23 path c Hc. destruct (H12 path c Hc) as [a Ha]. destruct (H23 path _ Ha) as [b Hb].
    exists (a ++ b). by rewrite app_assoc.
Qed.

Lemma append_files_grow w db n fields w' : append_csv_row w db n fields = Ok w' → files_grow w w'.
Proof.
  intros [_ ->]%append_csv_row_Ok path c Hc. simpl. destruct (decide (path = build_table_path db n)) as [-> |Hne].
  - rewrite lookup_insert_eq, Hc. by eexists.
  - rewrite lookup_insert_ne by done. exists []. by rewrite app_nil_r.
Qed.

Lemma execute_query_db_ok `{RowIndex Idx} w (ctx : DbContext Idx) q r ctx' w' :
  db_ok w ctx → execute_query w ctx q = (r, ctx', w') →
  db_ok w' ctx' ∧ db_root ctx' = db_root ctx ∧ files_grow w w'.
Proof.
  intros [Hctx Hs Hl] Hq. destruct (execute_query_ctx_ok w ctx q r ctx' w') as [Hctx' Hroot]; [done..|].
  destruct (execute_query_files w ctx q r ctx' w') as [-> |[fields Ha]]; [done..| |].
  - split_and!; [|done|done]. constructor; by rewrite ?Hroot.
  - split_and!; [|done|by eapply append_files_grow]. constructor; rewrite ?Hroot; [done| |done].
    intros n. by eapply append_keeps_schemas.
Qed.

(** Looking a table up keeps it all, whether or not it loads the table. *)
Lemma get_table_db_ok `{RowIndex Idx} w (ctx : DbContext Idx) n :
  db_ok w ctx → db_ok w (db_context_get_table w ctx n).2.
Proof.
  intros [Hctx Hs Hl]. constructor; rewrite ?get_table_root; [|done..].
  destruct (db_context_get_table w ctx n) as [g ctx1] eqn:Hg. eapply get_table_ctx_ok; [|done|done].
  intros t (Hsch & _)%table_state_load_inv. by eapply load_schema_schema_ok.
Qed.

(** ** Properties *)

(** C1. INSERT is correct and atomic, when requests for memory and writes to the open file succeed.
    For a loaded table that satisfies the invariant, the
    whole of [execute_insert], index search, file append, memory append, index insertion and
    the recovery branch included, amounts to this: a wrong number of values or a value of the
    wrong type is reported; an id that is already taken is reported as duplicate; a file that
    cannot be opened is reported; in these cases neither the context nor any file changes.
    Otherwise the row is appended to the file and to the table, the index and the next id
    follow, and the recovery branch is never taken.  ([ExecutorMemory] lets requests for memory
    fail, [InsertWrites] the writes.) *)
Theorem execute_insert_spec `{RowIndex Idx} w (ctx : DbContext Idx) q i t :
  find_table (tables ctx) (table_name q) = Some i → tables ctx !! i = Some t → table_ok t →
  match checked_fields t (values q) with
  | Err e => execute_insert w ctx q = (Err e, ctx, w)
  | Ok fields =>
      let id := row_id (schema t) fields in
      if decide (id ∈ row_ids (schema t) (rows (rowset t)))
      then execute_insert w ctx q = (fail («"duplicate id: "» ++ show_int id), ctx, w)
      else match append_csv_row w (db_root ctx) (table_name q) fields with
           | Err e => execute_insert w ctx q = (Err e, ctx, w)
           | Ok w' => ∃ t', inserted t fields t' ∧ table_ok t' ∧
               execute_insert w ctx q = (Ok («"INSERT 1"» ++ [LF]), set_table ctx i t', w')
           end
  end.
Proof.
  intros Hf Hi Ht. unfold execute_insert, db_context_get_table. rewrite Hf. unfold with_table. rewrite Hi.
  destruct (insert_into w ctx i (table_name q) (values q) t) as [[r ctx'] w'] eqn:Hins.
  pose proof (insert_into_cases w ctx i _ _ t r ctx' w' Ht Hins) as Hcases. unfold insert_into in Hins.
  destruct (checked_fields t (values q)) as [fields|e] eqn:Hc; [|naive_solver]. simpl.
  rewrite index_search_map in Hins by apply Ht. case_decide as Hid.
  - apply (index_agrees_elem (index t)) in Hid; [|apply Ht]. destruct Hid as [x Hx].
    rewrite Hx in Hins. by simplify_eq.
  - destruct (index_map (index t) !! row_id (schema t) fields) eqn:Hx.
    { destruct Hid. apply (index_agrees_elem (index t)); [apply Ht|]. by rewrite Hx. }
    destruct (append_csv_row w (db_root ctx) (table_name q) fields) as [w1|] eqn:Ha; [|by simplify_eq].
    destruct Hcases as [(e & -> & -> & ->)|(fs & Hfs & _ & -> & t' & Hins' & -> & Ha')].
    + destruct (index_insert_after_search t (row_id (schema t) fields) Ht) as [idx Hidx].
      { by rewrite index_search_map by apply Ht. }
      cbn [append_row_to_memory index] in Hins. by rewrite Hidx in Hins.
    + simplify_eq. rewrite Ha in Ha'. simplify_eq. exists t'. split_and!; [done| |done].
      eapply inserted_table_ok; [done| |done]. by apply (checked_fields_Ok t (values q)); [apply Ht|].
Qed.

Lemma execute_insert_spec_witness :
  ∃ t', inserted sample_table park_row t' ∧ table_ok t' ∧
    execute_insert sample_world sample_ctx insert_park =
      (Ok («"INSERT 1"» ++ [LF]), set_table sample_ctx 0 t', park_world).
Proof.
  exact (execute_insert_spec sample_world sample_ctx insert_park 0 sample_table eq_refl eq_refl sample_table_ok).
Defined.

(** C10. Every query about a table whose schema file has at most one [columns] line keeps the context
    invariant, whether it succeeds or fails, and whether or not it loads its table first.  (With
    a second [columns] line the loader keeps an index into the first one:
    [Schema.load_schema_stale_index].) *)
Theorem execute_query_invariant `{RowIndex Idx} w (ctx : DbContext Idx) q r ctx' w' :
  single_columns_line w (db_root ctx) (table_name q) → ctx_ok ctx →
  execute_query w ctx q = (r, ctx', w') → ctx_ok ctx' ∧ db_root ctx' = db_root ctx.
Proof. apply execute_query_ctx_ok. Qed.

Lemma execute_query_invariant_witness :
  ctx_ok (execute_query sample_world (db_context_create (Idx := BPTree) «"data"») insert_park).1.2 ∧
  db_root (execute_query sample_world (db_context_create (Idx := BPTree) «"data"») insert_park).1.2 = «"data"».
Proof.
  eapply (execute_query_invariant sample_world (db_context_create «"data"») insert_park).
  - apply sample_world_single.
  - apply Forall_nil_2.
  - apply surjective_pairing_3.
Defined.

(** [WHERE id = v] through the index prints what a scan would print: the header and the
    rows whose primary key reads as the same integer as [v].  A value that is not an integer
    literal is an error. *)
Theorem where_id_is_scan `{RowIndex Idx} (t : TableState Idx) v :
  table_ok t →
  select_table t (Some (mkCondition «"id"» v)) =
    if is_integer_string (raw v) then
      Ok (print_header (schema t) ++
          print_rows (List.filter (λ r, (row_id (schema t) r =? atoi (raw v))%Z) (rows (rowset t))))
    else fail «"WHERE id requires an integer value"».
Proof.
  intros Ht. destruct (is_integer_string (raw v)) eqn:Hv; [by apply select_by_id|].
  unfold select_table. cbn [cond_column cond_value]. by rewrite bool_decide_eq_true_2, Hv.
Qed.

Lemma where_id_is_scan_witness :
  select_table sample_table (Some (mkCondition «"id"» (mkValue VALUE_STRING «"+07"»))) =
  Ok («"id,name,age"» ++ LF :: «"7,lee,-3"» ++ [LF]).
Proof.
  rewrite (where_id_is_scan sample_table (mkValue VALUE_STRING «"+07"») sample_table_ok).
  vm_compute. reflexivity.
Defined.

(** C5. What was inserted is found: after a successful INSERT, [SELECT ... WHERE id = v] for
    any integer literal [v] that denotes the new row's id prints the header and exactly the
    inserted row; for a literal that denotes another id it prints what it printed before the
    INSERT. *)
Theorem insert_then_select `{RowIndex Idx} w w2 (ctx : DbContext Idx) q i t fields out ctx' w' v :
  find_table (tables ctx) (table_name q) = Some i → tables ctx !! i = Some t → table_ok t →
  checked_fields t (values q) = Ok fields →
  execute_insert w ctx q = (Ok out, ctx', w') → is_integer_string (raw v) = true →
  let select := mkQuery QUERY_SELECT (table_name q) [] (Some (mkCondition «"id"» v)) in
  execute_select w2 ctx' select =
    if (row_id (schema t) fields =? atoi (raw v))%Z
    then (Ok (print_header (schema t) ++ print_row fields), ctx')
    else ((execute_select w2 ctx select).1, ctx').
Proof.
  intros Hf Hi Ht Hc Hins Hv select.
  destruct (insert_loaded w ctx q i t fields out ctx' w') as (t' & Hins' & Htok & Hfresh & -> & Hf' & Hi'); [done..|].
  unfold execute_select, db_context_get_table. cbn [table_name condition select]. rewrite Hf', Hf.
  unfold with_table. rewrite Hi', Hi. rewrite !select_by_id by done.
  destruct Hins' as [_ -> -> _ _]. cbn [rowset_append rows]. rewrite List.filter_app. cbn [List.filter].
  destruct (Z.eqb_spec (row_id (schema t) fields) (atoi (raw v))) as [Hid|Hid].
  - rewrite filter_none; [by cbn; rewrite app_nil_r|]. apply Forall_forall. intros r Hr. apply Z.eqb_neq.
    rewrite <- Hid. intros Heq. apply Hfresh. rewrite <- Heq. by apply list_elem_of_fmap_2.
  - by rewrite app_nil_r.
Qed.

Lemma insert_then_select_witness :
  execute_select sample_world (execute_insert sample_world sample_ctx insert_park).1.2
    (mkQuery QUERY_SELECT «"users"» [] (Some (mkCondition «"id"» (mkValue VALUE_STRING «"8"»)))) =
  (Ok (print_header users_schema ++ print_row park_row),
   (execute_insert sample_world sample_ctx insert_park).1.2).
Proof.
  apply (insert_then_select sample_world sample_world sample_ctx insert_park 0 sample_table park_row
    («"INSERT 1"» ++ [LF]) _ park_world (mkValue VALUE_STRING «"8"»));
    [reflexivity|reflexivity|apply sample_table_ok|vm_compute; reflexivity|vm_compute; reflexivity|reflexivity].
Defined.

(** The table at position [i] is what loading its files gives. *)
Definition synced `{RowIndex Idx} (w : World) (ctx : DbContext Idx) (n : cstr) (i : nat) (t : TableState Idx) : Prop :=
  find_table (tables ctx) n = Some i ∧ tables ctx !! i = Some t ∧
  table_state_load w (db_root ctx) n = Ok t ∧ table_closed w (db_root ctx) n.

(** C2. Durability: memory and disk stay the same table.  Take a table in memory that is what its
    files load to, under a root of fewer than 4094 bytes, whose file ends at a line end, and a
    successful INSERT of a row whose fields are trimmed and hold no newline and no NUL, whose line
    in the file is at most 8191 bytes long, the buffer of [fgets] less one, and whose id, like
    those already there, is not the largest [int].  Then loading the files again, as after a
    restart, gives exactly the table in memory: rows, capacity, index structure and next id; and
    the file again ends at a line end, so that the statement applies to its own result.  (A longer
    row is inserted and makes the table unloadable: [long_row_unloadable]; the largest [int]:
    [next_id_overflow].) *)
Theorem insert_durable `{RowIndex Idx} w (ctx : DbContext Idx) q i t fields out ctx' w' :
  synced w ctx (table_name q) i t → table_ok t → (length (db_root ctx) + 2 < SQL_PATH_BUFFER_SIZE)%nat →
  checked_fields t (values q) = Ok fields → Forall csv_safe fields → row_fits fields →
  INT_MAX ∉ row_ids (schema t) (rows (rowset t)) ++ [row_id (schema t) fields] →
  execute_insert w ctx q = (Ok out, ctx', w') →
  ∃ t', synced w' ctx' (table_name q) i t' ∧ table_ok t' ∧ inserted t fields t'.
Proof.
  intros (Hf & Hi & Hl & Hcl) Ht Hdb Hc Hsafe Hfit Hmax Hins.
  destruct (insert_loaded w ctx q i t fields out ctx' w' Hf Hi Ht Hc Hins)
    as (t' & Hins' & Htok & _ & -> & Hf' & Hi').
  assert (Ha : append_csv_row w (db_root ctx) (table_name q) fields = Ok w').
  { unfold execute_insert, db_context_get_table in Hins. rewrite Hf in Hins. unfold with_table in Hins. rewrite Hi in Hins.
    destruct (insert_into_cases w ctx i _ _ t _ _ w' Ht Hins) as [(e & ? & _)|(fs & Hfs & _ & _ & t2 & _ & _ & Ha)]; [done|].
    by rewrite Hc in Hfs; injection Hfs as <-. }
  exists t'. split; [|done]. split_and!; [done|done| |by eapply append_csv_row_closed].
  eapply reload_after_insert; try done. by apply (checked_fields_Ok t (values q)); [apply Ht|].
Qed.

Lemma sample_synced : synced sample_world sample_ctx «"users"» 0 sample_table.
Proof.
  split_and!; [done|done|apply sample_table_load|]. exists (concat (map csv_row_text sample_rows)).
  split; [vm_compute; reflexivity|right; vm_compute; reflexivity].
Qed.

Lemma csv_safe_dec f : bool_decide (LF ∉ f ∧ NUL ∉ f ∧ trim f = f) = true → csv_safe f.
Proof.
  rewrite bool_decide_eq_true. intros (? & ? & Ht). split; [done|]. rewrite <- Ht. apply trim_trimmed.
Qed.

Lemma insert_durable_witness :
  ∃ t', synced park_world (execute_insert sample_world sample_ctx insert_park).1.2 «"users"» 0 t' ∧
    table_ok t' ∧ inserted sample_table park_row t'.
Proof.
  apply (insert_durable sample_world sample_ctx insert_park 0 sample_table park_row («"INSERT 1"» ++ [LF])).
  - apply sample_synced.
  - apply sample_table_ok.
  - apply Nat.ltb_lt. vm_compute. reflexivity.
  - vm_compute. reflexivity.
  - repeat constructor; by apply csv_safe_dec.
  - apply N.leb_le. vm_compute. reflexivity.
  - apply (bool_decide_unpack _). vm_compute. reflexivity.
  - vm_compute. reflexivity.
Defined.

(** A row that does not fit the buffer with which the loader reads lines: the INSERT reports success,
    and the table can no longer be loaded. *)
Theorem long_row_unloadable :
  let q := mkQuery QUERY_INSERT «"users"» [replicate (N.to_nat 8200) "a"%char; «"30"»] None in
  let '(r, _, w') := execute_insert sample_world sample_ctx q in
  r = Ok («"INSERT 1"» ++ [LF]) ∧
  table_state_load (Idx := BPTree) w' «"data"» «"users"» = fail «"unterminated quoted CSV field"».
Proof. vm_compute. done. Qed.

(** The automatic id overflows: an explicit INSERT of id 2147483647 is accepted and makes
    the in-memory next id wrap to -2147483648, which the next automatic INSERT writes, although
    loading the same files chooses 1 (the loader has a guard, [execute_insert] has none). *)
Theorem next_id_overflow `{RowIndex Idx} (t : TableState Idx) fields t' :
  inserted t fields t' → row_id (schema t) fields = INT_MAX → (next_id t <= INT_MAX)%Z →
  next_id t' = INT_MIN ∧
  initial_next_id (max_id_from 0 (row_ids (schema t') (rows (rowset t')))) = 1%Z ∧
  ∀ vals, autoincrement (schema t) = true → primary_key_index (schema t) = 0%Z →
    S (length vals) = column_count (schema t) → insert_fields t' vals = Ok (show_int INT_MIN :: vals).
Proof.
  intros [Hn Hs Hr Hx _] Hid Hle. rewrite Hid in Hx.
  rewrite (proj2 (Z.leb_le (next_id t) INT_MAX)) in Hx by done. change (wrap32 (INT_MAX + 1)) with INT_MIN in Hx.
  split_and!; [done| |].
  - rewrite Hs, Hr. cbn [rowset_append rows]. unfold row_ids. rewrite map_app. cbn [map]. rewrite Hid.
    unfold max_id_from. rewrite fold_left_app. cbn [fold_left].
    destruct (max_id_from_spec 0 (map (row_id (schema t)) (rows (rowset t)))) as (_ & _ & Hin).
    unfold max_id_from in Hin. rewrite Z.max_r; [done|].
    destruct Hin as [-> |Hin]; [done|]. apply row_ids_int in Hin as [_ ?]. done.
  - intros vals Ha Hpk Hlen. unfold insert_fields. rewrite Hs, Hx, Ha, Hpk.
    destruct (Nat.eqb_spec (length vals) (column_count (schema t))); [lia|]. simpl.
    by destruct (Nat.eqb_spec (length vals) (column_count (schema t) - 1)); [|lia].
Qed.

Definition max_row : Row := [«"2147483647"»; «"max"»; «"1"»].

Lemma next_id_overflow_witness :
  next_id (from_option id sample_table (tables (execute_insert sample_world sample_ctx
    (mkQuery QUERY_INSERT «"users"» max_row None)).1.2 !! 0%nat)) = INT_MIN.
Proof.
  apply (next_id_overflow sample_table max_row).
  - constructor; vm_compute; reflexivity.
  - vm_compute. reflexivity.
  - apply Z.leb_le. vm_compute. reflexivity.
Defined.

(** White space at the ends of a quoted value is lost by a restart: the table in memory
    keeps it and SELECT prints it, but the row read back from the file is trimmed, so the two
    answers differ. *)
Theorem whitespace_not_durable :
  ∃ q out ctx' w' t1 t2,
    parse_sql_text («"INSERT INTO users VALUES (9, ' kim ', 20)"») = Ok q ∧
    execute_insert sample_world sample_ctx q = (Ok out, ctx', w') ∧
    tables ctx' !! 0%nat = Some t1 ∧ table_state_load w' «"data"» «"users"» = Ok t2 ∧
    rows (rowset t1) !! 2%nat = Some [«"9"»; «" kim "»; «"20"»] ∧
    rows (rowset t2) !! 2%nat = Some [«"9"»; «"kim"»; «"20"»] ∧
    select_table t1 None ≠ select_table t2 None.
Proof.
  do 6 eexists. split; [vm_compute; reflexivity|]. split; [vm_compute; reflexivity|].
  split; [vm_compute; reflexivity|]. split; [vm_compute; reflexivity|].
  split; [vm_compute; reflexivity|]. split; [vm_compute; reflexivity|]. vm_compute. congruence.
Qed.
