(* ===== verification/InsertWrites.v ===== *)
(** * [execute_insert] in [src/src/query/executor.c] with writes that can fail

    The INSERT of [Executor] with the append of [CsvWrite]: what a full disk or a failing device
    does to the table in memory and to its file. *)

From stdpp Require Import base list strings gmap.
From Stdlib Require Import Ascii.
From S2P Require Import Prelude CString Common Index BPTree Parser Schema Storage CsvWrite DbContext Executor.

Local Open Scope nat_scope.

Section InsertWrites.
Context `{RowIndex Idx}.

(** [execute_insert] once the table is known to be at position [i]. *)
Definition insert_into_io (calls : WriteCalls) (w : World) (ctx : DbContext Idx) (i : nat) (table_name : cstr)
    (vals : list cstr) (t : TableState Idx) : result SqlError cstr * DbContext Idx * World :=
  match checked_fields t vals with
  | Err e => (Err e, ctx, w)
  | Ok fields =>
      let inserted_id := row_id (schema t) fields in
      match index_search (index t) inserted_id with
      | Some _ => (fail («"duplicate id: "» ++ show_int inserted_id), ctx, w)
      | None =>
          let '(r, w') := append_csv_row_io calls w (db_root ctx) table_name fields in
          match r with
          | Err e => (Err e, ctx, w')
          | Ok _ =>
              let inserted_row_index := Z.of_nat (row_count (rowset t)) in
              let t1 := append_row_to_memory t fields in
              match index_insert (index t1) inserted_id inserted_row_index with
              | Err e =>
                  match db_context_reload_table w' (set_table ctx i t1) table_name with
                  | (Err e', ctx') => (Err e', ctx', w')
                  | (Ok _, ctx') => (Err e, ctx', w')
                  end
              | Ok idx => (Ok («"INSERT 1"» ++ [LF]), set_table ctx i (finish_insert t1 idx inserted_id), w')
              end
          end
      end
  end.

Definition execute_insert_io (calls : WriteCalls) (w : World) (ctx : DbContext Idx) (q : Query)
    : result SqlError cstr * DbContext Idx * World :=
  match db_context_get_table w ctx (table_name q) with
  | (Err e, ctx') => (Err e, ctx', w)
  | (Ok i, ctx') => with_table ctx' i (Ok [], ctx', w) (insert_into_io calls w ctx' i (table_name q) (values q))
  end.

(** ** Lemmas *)






End InsertWrites.

(** ** Properties *)


(** When no write fails it is the INSERT of [Executor]. *)
Theorem insert_without_failing_writes `{RowIndex Idx} calls w (ctx : DbContext Idx) q :
  all_written calls → execute_insert_io calls w ctx q = execute_insert w ctx q.
Proof.
  intros Hall. unfold execute_insert_io, execute_insert. destruct (db_context_get_table _ _ _) as [[i|e] ctx1]; [|done].
  unfold with_table. destruct (tables ctx1 !! i) as [t|]; [|done]. unfold insert_into_io, insert_into.
  destruct (checked_fields t (values q)) as [fields|]; [|done]. destruct (index_search _ _); [done|].
  rewrite append_csv_row_io_succeeds by done. by destruct (append_csv_row _ _ _ _).
Qed.

(** ** Examples *)


