(* ===== verification/ExecutorMemory.v ===== *)
(** * [src/src/query/executor.c]: the memory of an INSERT

    [execute_insert] again, with the memory it takes: the array of fields and their copies, the
    row in memory, the nodes of the index, and the tables that are loaded or reloaded on the way.
    Any request can fail, also after the row has been written to the table's file
    ([failed_insert_is_durable]). *)

From stdpp Require Import base list strings sets gmap.
From Stdlib Require Import Ascii.
From S2P Require Import Prelude CString Common Memory Parser Index BPTree Schema Storage DbContext Executor.
From S2P Require Import SchemaMemory StorageMemory IndexMemory ContextMemory.

Local Open Scope nat_scope.

(** The table that this is in memory, for the functions that only read it. *)
Definition table_of (t : MTable) : TableState BPTree :=
  mkTableState (mt_name t) (schema_of (mt_schema t)) (rowset_of (mt_rowset t))
    (mkBPTree (match mt_index t with Some idx => mem_shape <$> t_root idx | None => None end) 0) (mt_next_id t).

Definition set_rowset (t : MTable) (rs : MRowSet) : MTable := mkMTable (mt_name t) (mt_schema t) rs (mt_index t) (mt_next_id t).
Definition set_index (t : MTable) (idx : option MTree) : MTable := mkMTable (mt_name t) (mt_schema t) (mt_rowset t) idx (mt_next_id t).
Definition set_next_id (t : MTable) (n : Z) : MTable := mkMTable (mt_name t) (mt_schema t) (mt_rowset t) (mt_index t) n.
Definition set_table_mem (m : MContext) (i : nat) (t : MTable) : MContext :=
  mkMContext (mc_block m) (mc_root m) (mc_array m) (<[i := t]> (mc_tables m)).

(** The loops that copy fields: whether all copies were made, and the copies. *)
Fixpoint copy_values (srcs : list cstr) (copies : list ostr) : M (bool * list ostr) :=
  match srcs with
  | [] => mret (true, copies)
  | v :: srcs' =>
      c ← sql_strdup v;
      match c with
      | None => mret (false, copies)
      | Some c => copy_values srcs' (copies ++ [c])
      end
  end.

(** The rows array and the capacity are kept when a later request fails. *)
Definition append_row_to_memory_mem (t : MTable) (fields : list cstr) : M (result SqlError () * MTable) :=
  let rs := mt_rowset t in
  grown ← (if (Z.of_nat (length (m_rows rs)) =? m_capacity rs)%Z then
             next_rows ← realloc (m_array rs);
             mret ((λ a, mkMRowSet (Some a) (m_rows rs) (next_capacity (m_capacity rs)) (m_columns rs)) <$> next_rows)
           else mret (Some rs));
  match grown with
  | None => mret (fail «"failed to expand in-memory rowset"», t)
  | Some rs =>
      copies ← malloc;
      match copies with
      | None => mret (fail «"failed to allocate in-memory row"», set_rowset t rs)
      | Some a =>
          '(copied, vs) ← copy_values (take (length (s_columns (mt_schema t))) fields) [];
          if negb copied then
            _ ← free_values (reverse vs);
            _ ← release a;
            mret (fail «"failed to copy inserted row"», set_rowset t rs)
          else
            mret (Ok (), set_rowset t (mkMRowSet (m_array rs) (m_rows rs ++ [mkMRow (Some a) vs]) (m_capacity rs) (m_columns rs)))
      end
  end.

(** The cleanup of [execute_insert]: it frees as many fields as the table has columns now.  The
    array has [slots] entries, those without a copy are NULL; freeing past the array is an
    error. *)
Definition free_insert_row (columns slots : nat) (array : nat) (vs : list ostr) : M () :=
  if columns <=? slots then _ ← free_values (take columns vs); release array
  else λ m, ((), mkMem (held m) (next m) (outcomes m) true).

(** [execute_insert] from the check of the row on, with the fields copied. *)
Definition insert_fields_mem (w : World) (m : MContext) (i : nat) (table_name : cstr) (t : MTable) (fields : list cstr)
    : M (result SqlError cstr * MContext * World) :=
  match validate_fields validate_value (columns (schema_of (mt_schema t))) fields with
  | Err e => mret (Err e, m, w)
  | Ok _ =>
      let inserted_id := row_id (schema_of (mt_schema t)) fields in
      match bptree_search (index (table_of t)) inserted_id with
      | Some _ => mret (fail («"duplicate id: "» ++ show_int inserted_id), m, w)
      | None =>
          match append_csv_row w (mc_root m) table_name fields with
          | Err e => mret (Err e, m, w)
          | Ok w' =>
              let inserted_row_index := Z.of_nat (length (m_rows (mt_rowset t))) in
              '(r, t) ← append_row_to_memory_mem t fields;
              match r, mt_index t with
              | Err e, _ => mret (Err e, set_table_mem m i t, w')
              | Ok _, None => mret (fail «"tree must not be null"», set_table_mem m i t, w')
              | Ok _, Some idx =>
                  '(r, idx) ← bptree_insert_mem idx inserted_id inserted_row_index;
                  let t := set_index t (Some idx) in
                  match r with
                  | Err e =>
                      '(r, m) ← db_context_reload_table_mem w' (set_table_mem m i t) table_name;
                      mret (match r with Err e' => Err e' | Ok _ => Err e end, m, w')
                  | Ok _ =>
                      let t := if (mt_next_id t <=? inserted_id)%Z then set_next_id t (wrap32 (inserted_id + 1)) else t in
                      mret (Ok («"INSERT 1"» ++ [LF]), set_table_mem m i t, w')
                  end
              end
          end
      end
  end.

Definition insert_into_mem (w : World) (m : MContext) (i : nat) (table_name : cstr) (vals : list cstr) (t : MTable)
    : M (result SqlError cstr * MContext * World) :=
  let slots := length (s_columns (mt_schema t)) in
  match insert_fields (table_of t) vals with
  | Err e => mret (Err e, m, w)
  | Ok srcs =>
      array ← malloc;
      match array with
      | None => mret (fail «"failed to allocate insert row"», m, w)
      | Some a =>
          '(copied, vs) ← copy_values srcs [];
          if negb copied then
            _ ← free_insert_row slots slots a vs;
            mret (fail (if negb (Nat.eqb (length vals) slots) && Nat.eqb (length vs) 0
                        then «"failed to allocate id field"» else «"failed to allocate field value"»), m, w)
          else
            '(r, m, w) ← insert_fields_mem w m i table_name t (map text vs);
            let columns := match mc_tables m !! i with Some t => length (s_columns (mt_schema t)) | None => slots end in
            _ ← free_insert_row columns slots a vs;
            mret (r, m, w)
      end
  end.

Definition execute_insert_mem (w : World) (m : MContext) (q : Query) : M (result SqlError cstr * MContext * World) :=
  '(r, m) ← db_context_get_table_mem w m (table_name q);
  match r with
  | Err e => mret (Err e, m, w)
  | Ok i =>
      match mc_tables m !! i with
      | None => mret (Ok [], m, w)
      | Some t => insert_into_mem w m i (table_name q) (values q) t
      end
  end.

Definition execute_query_mem (w : World) (m : MContext) (q : Query) : M (result SqlError cstr * MContext * World) :=
  match query_type q with
  | QUERY_SELECT =>
      '(r, m) ← db_context_get_table_mem w m (table_name q);
      match r with
      | Err e => mret (Err e, m, w)
      | Ok i =>
          match mc_tables m !! i with
          | None => mret (Ok [], m, w)
          | Some t => mret (select_table (table_of t) (condition q), m, w)
          end
      end
  | QUERY_INSERT => execute_insert_mem w m q
  end.

(** ** Lemmas *)

Lemma node_shape_mem n : node_shape (mem_shape n) = mem_shape n.
Proof.
  induction n as [b keys rows next|b keys children IH] using MNode_children_ind; simpl; [done|]. f_equal.
  induction IH as [|c children Hc _ IHc]; simpl; [done|]. f_equal; [done|]. exact IHc.
Qed.

(** What the code reads of a table in memory is what it reads of the table. *)
Lemma table_of_same t t0 vals :
  same_table t t0 →
  insert_fields (table_of t) vals = insert_fields t0 vals ∧
  (∀ id, bptree_search (index (table_of t)) id = bptree_search (index t0) id) ∧
  length (s_columns (mt_schema t)) = column_count (schema t0) ∧
  length (m_rows (mt_rowset t)) = row_count (rowset t0).
Proof.
  intros (Hn & Hs & Hr & (tree & Hi & Ht) & Hid). split_and!.
  - unfold insert_fields. rewrite <- Hs, <- Hid. reflexivity.
  - intros id. simpl. rewrite Hi. apply (same_tree_search tree); [|done]. unfold same_tree. simpl.
    destruct (t_root tree) as [n|]; simpl; [|done]. f_equal. symmetry. apply node_shape_mem.
  - rewrite <- Hs. unfold column_count, schema_of. simpl. by rewrite length_map.
  - rewrite <- Hr. unfold row_count, rowset_of. simpl. by rewrite length_map.
Qed.

Lemma triple_copy_values srcs copies :
  triple (map block copies) (copy_values srcs copies) (λ '(_, vs), map block vs)
    (λ '(ok, vs), length vs ≤ length copies + length srcs ∧ (ok = true → map text vs = map text copies ++ srcs)) (λ '(ok, _), ok = true).
Proof.
  revert copies. induction srcs as [|v srcs IH]; intros copies; simpl.
  { finish. split; [lia|]. by rewrite (right_id_L [] (++)). }
  call triple_strdup with (map block copies) as [c|] Hc.
  - eapply triple_conseq; [apply IH|rewrite map_app; simpl; solve_Permutation|]. intros [ok vs] [Hlen Hvs]. simpl.
    rewrite length_app in Hlen. simpl in Hlen. split_and!; [done|lia| |done]. intros ->. rewrite Hvs by done. rewrite map_app, <- (assoc_L (++)).
    simpl. by rewrite (Hc c).
  - finish. split; [lia|done].
Qed.

Lemma triple_append_row t fields :
  triple (table_blocks t) (append_row_to_memory_mem t fields) (λ '(_, t'), table_blocks t')
    (λ '(r, t'), mt_name t' = mt_name t ∧ mt_schema t' = mt_schema t ∧ mt_index t' = mt_index t ∧ mt_next_id t' = mt_next_id t ∧
       match r with Ok _ => ∀ t0, same_table t t0 → same_table t' (append_row_to_memory t0 fields) | Err _ => True end)
    (λ '(r, _), is_ok r = true).
Proof.
  unfold append_row_to_memory_mem. set (rs := mt_rowset t). unfold table_blocks. fold rs.
  set (F := schema_blocks (mt_schema t) ++ index_blocks (mt_index t)).
  eapply (triple_seq F _ _ _ (rowset_blocks rs) (λ g, match g with Some rs' => rowset_blocks rs' | None => rowset_blocks rs end) _
    (λ g, ∀ rs', g = Some rs' → m_rows rs' = m_rows rs ∧ m_columns rs' = m_columns rs ∧
       m_capacity rs' = (if (Z.of_nat (length (m_rows rs)) =? m_capacity rs)%Z then next_capacity (m_capacity rs) else m_capacity rs))
    (λ g, is_Some g)); [|subst F; solve_Permutation|].
  { destruct (_ =? _)%Z; [|finish; naive_solver]. unfold rowset_blocks.
    call triple_realloc with (m_rows rs ≫= row_blocks) as [a|] _; finish; naive_solver. }
  intros [rs'|] Hg; simpl; [|finish; subst F; unfold table_blocks; solve_Permutation].
  destruct (Hg rs' eq_refl) as (Hrows & Hcols & Hcap).
  call triple_acquire with (rowset_blocks rs' ++ F) as [a|] _; [|finish; subst F; unfold table_blocks; simpl; solve_Permutation].
  eapply (triple_seq (a :: rowset_blocks rs' ++ F) _ _ _ (map block [])); [apply triple_copy_values|solve_Permutation|].
  intros [ok vs] [_ Hvs]. destruct ok; simpl.
  - finish.
    + unfold table_blocks, rowset_blocks. simpl. rewrite bind_app. simpl. unfold row_blocks at 2. simpl. subst F. solve_Permutation.
    + split_and!; try done. intros t0 (Hn & Hs & Hr & Hi & Hid). split_and!; try done. simpl.
      assert (Hlen : length (s_columns (mt_schema t)) = column_count (schema t0)).
      { rewrite <- Hs. unfold column_count, schema_of. simpl. by rewrite length_map. }
      specialize (Hvs eq_refl). simpl in Hvs. unfold row_count. rewrite <- Hr. unfold rowset_of. simpl. rewrite length_map.
      rewrite Hrows, Hcols, Hcap, map_app. simpl. unfold row_of at 2. simpl. by rewrite Hvs, Hlen.
  - eapply (triple_seq (a :: rowset_blocks rs' ++ F)); [apply triple_free_values|rewrite reverse_Permutation; solve_Permutation|].
    intros [] _. simpl. call triple_release with (rowset_blocks rs' ++ F). finish.
Qed.

(** The table at position [i] keeps its number of columns. *)
Definition same_columns (m m' : MContext) (i : nat) : Prop :=
  ∀ t, mc_tables m !! i = Some t →
    ∃ t', mc_tables m' !! i = Some t' ∧ length (s_columns (mt_schema t')) = length (s_columns (mt_schema t)).

Lemma same_columns_set m i t t' :
  mc_tables m !! i = Some t → mt_schema t' = mt_schema t → same_columns m (set_table_mem m i t') i.
Proof.
  intros Hi Hs t1 Ht1. simplify_eq. exists t'. simpl. rewrite list_lookup_insert_eq by (by eapply lookup_lt_Some). by rewrite Hs.
Qed.

(** What an INSERT did, when [w] was the world before it. *)
Definition written (w w' : World) (root n : cstr) : Prop := w' = w ∨ ∃ fields, append_csv_row w root n fields = Ok w'.

(** The outcome of the INSERT into [t0], the table at position [i] of [ctx]. *)
Definition insert_agrees (w : World) (ctx : DbContext BPTree) (i : nat) (n : cstr) (vals : list cstr) (t0 : TableState BPTree)
    (o : result SqlError cstr * MContext * World) : Prop :=
  let '(r, m', w') := o in ∃ ctx', insert_into w ctx i n vals t0 = (r, ctx', w') ∧ same_context m' ctx'.

Section Insert.
Context (w : World) (m : MContext) (ctx : DbContext BPTree) (i : nat) (n : cstr) (t : MTable) (t0 : TableState BPTree).
Context (Hctx : same_context m ctx) (Hi : mc_tables m !! i = Some t) (Hi0 : tables ctx !! i = Some t0).
Context (Hroot : length (db_root ctx) + 2 < SQL_PATH_BUFFER_SIZE).
(** The schema file still has the columns of the loaded table. *)
Context (Hstable : ∀ s, load_schema w (db_root ctx) n = Ok s → column_count s = column_count (schema t0)).

Lemma insert_same_table : same_table t t0.
Proof. destruct Hctx as [_ Ht]. by eapply Forall2_lookup_lr. Qed.

Lemma tidy_file_append fields w' :
  append_csv_row w (db_root ctx) n fields = Ok w' → tidy_file w (mc_root m) n → tidy_file w' (mc_root m) n.
Proof.
  destruct Hctx as [-> _]. intros [_ ->]%append_csv_row_Ok Htidy content. unfold sql_read_text_file. simpl.
  rewrite lookup_insert_ne by (intros He; by apply (paths_differ (db_root ctx) n n Hroot)). apply Htidy.
Qed.

Lemma same_context_set t' t0' : same_table t' t0' → same_context (set_table_mem m i t') (set_table ctx i t0').
Proof. destruct Hctx as [Hr Ht]. intros Hs. split; [done|]. simpl. by apply Forall2_insert. Qed.

(** The table is replaced in place. *)
Lemma context_blocks_set : ∃ F, context_blocks m ≡ₚ table_blocks t ++ F ∧
  ∀ t', context_blocks (set_table_mem m i t') ≡ₚ table_blocks t' ++ F.
Proof.
  destruct (bind_insert table_blocks _ _ _ Hi) as (F & HF & HF').
  exists (mc_block m :: ptr (mc_array m) ++ F). unfold context_blocks. split.
  - rewrite HF. solve_Permutation.
  - intros t'. simpl. rewrite HF'. solve_Permutation.
Qed.

Lemma leaks_insert_fields vals fields :
  insert_fields t0 vals = Ok fields →
  leaks (context_blocks m) (insert_fields_mem w m i n t fields) (λ '(_, m', _), context_blocks m')
    (λ '(r, m', w') leak, same_columns m m' i ∧ written w w' (db_root ctx) n ∧
       (is_ok r = true → leak = [] ∧ insert_agrees w ctx i n vals t0 (r, m', w')))
    (λ '(r, m', w') leak, (tidy_file w (mc_root m) n → leak = []) ∧ insert_agrees w ctx i n vals t0 (r, m', w')).
Proof.
  intros Hfields. pose proof insert_same_table as Hsame. pose proof Hsame as (Hn & Hs & Hr & (tree & Htree & Hti) & Hid).
  destruct (table_of_same t t0 vals Hsame) as (_ & Hsearch & Hcols & Hrows). pose proof (proj1 Hctx) as Hrt.
  assert (Hkeep : same_columns m m i) by (intros t1 Ht1; eauto).
  unfold insert_fields_mem, insert_agrees, insert_into, checked_fields. rewrite Hfields, Hs. cbn [mbind result_bind].
  change (index_search (index t0)) with (bptree_search (index t0)).
  destruct (validate_fields validate_value (columns (schema t0)) fields) as [[]|e]; cbn [mbind result_bind].
  2: { apply (leaks_ret _ _ _ []); simpl; [by rewrite (right_id_L [] (++))|split_and!; [done|by left|done]|split; [done|by eexists]]. }
  rewrite Hsearch.
  destruct (bptree_search (index t0) (row_id (schema t0) fields)) eqn:Hfound.
  { apply (leaks_ret _ _ _ []); simpl; [by rewrite (right_id_L [] (++))|split_and!; [done|by left|done]|split; [done|by eexists]]. }
  rewrite Hrt. destruct (append_csv_row w (db_root ctx) n fields) as [w'|e] eqn:Happ.
  2: { apply (leaks_ret _ _ _ []); simpl; [by rewrite (right_id_L [] (++))|split_and!; [done|by left|done]|split; [done|by eexists]]. }
  assert (Hwritten : written w w' (db_root ctx) n) by (right; eauto).
  destruct context_blocks_set as (F & HF & HF').
  eapply (leaks_seq_triple F); [apply triple_append_row|exact HF|].
  intros [[[]|e] t1] (Hn1 & Hs1 & Hi1 & Hid1 & Happend).
  2: { apply (leaks_ret _ _ _ []); cbn beta iota; [by rewrite HF', (right_id_L [] (++))|split_and!; [by eapply same_columns_set|done|done]|done]. }
  specialize (Happend t0 Hsame). rewrite Hi1, Htree, Hrows.
  assert (Hsplit : ∀ idx, table_blocks (set_index t1 (Some idx)) ≡ₚ tree_blocks idx ++ schema_blocks (mt_schema t1) ++ rowset_blocks (mt_rowset t1)).
  { intros idx. unfold table_blocks. simpl. solve_Permutation. }
  assert (Ht1 : table_blocks t1 ≡ₚ tree_blocks tree ++ schema_blocks (mt_schema t1) ++ rowset_blocks (mt_rowset t1)).
  { rewrite <- Hsplit. unfold table_blocks. simpl. by rewrite Hi1, Htree. }
  eapply (leaks_seq (schema_blocks (mt_schema t1) ++ rowset_blocks (mt_rowset t1) ++ F)); [apply leaks_bptree_insert|rewrite Ht1; solve_Permutation|].
  intros [[[]|e] idx'] l1 Hins.
  - destruct Hins as [-> Hins]. destruct (Hins _ Hti) as (idx0 & Hidx0 & Hsame').
    set (tf := if (mt_next_id (set_index t1 (Some idx')) <=? row_id (schema t0) fields)%Z
        then set_next_id (set_index t1 (Some idx')) (wrap32 (row_id (schema t0) fields + 1)) else set_index t1 (Some idx')).
    assert (Hdone : same_table tf (finish_insert (append_row_to_memory t0 fields) idx0 (row_id (schema t0) fields))).
    { destruct Happend as (Ha & Hb & Hc & _ & He). subst tf. unfold finish_insert. cbn [mt_next_id set_index]. rewrite He.
      destruct (next_id (append_row_to_memory t0 fields) <=? row_id (schema t0) fields)%Z; split_and!; try done; by eexists. }
    cbn [index_insert BPTree_RowIndex]. change (index (append_row_to_memory t0 fields)) with (index t0). rewrite Hidx0.
    assert (Hbl : table_blocks tf = table_blocks (set_index t1 (Some idx'))) by (subst tf; by destruct (_ <=? _)%Z).
    assert (Hsch : mt_schema tf = mt_schema t) by (subst tf; by destruct (_ <=? _)%Z).
    apply (leaks_ret (Ok («"INSERT 1"» ++ [LF]), set_table_mem m i tf, w') _ _ []); cbn beta iota.
    + rewrite HF', Hbl, Hsplit. solve_Permutation.
    + split_and!; [by eapply same_columns_set|done|]. intros _. split; [done|]. eexists. split; [done|]. by apply same_context_set.
    + intros _ _. split; [done|]. eexists. split; [done|]. by apply same_context_set.
  - set (m1 := set_table_mem m i (set_index t1 (Some idx'))).
    eapply (leaks_seq []); [apply leaks_reload_table|rewrite (right_id_L [] (++)); unfold m1; rewrite HF', Hsplit; solve_Permutation|].
    intros [r m2] l2 (Hl2 & Hr2 & Hm2 & Hctx2).
    assert (Hsame2 : same_columns m m2 i).
    { assert (Hm1 : same_columns m m1 i) by (by eapply same_columns_set). destruct r as [[]|]; [|by subst m2].
      destruct Hm2 as (j & tr & tl & Htabs & Hload & Htr). intros t2 Ht2. destruct (Hm1 t2 Ht2) as (t3 & Ht3 & Hc3). rewrite Htabs.
      destruct (decide (j = i)) as [->|Hne]; [|exists t3; by rewrite list_lookup_insert_ne].
      exists tr. rewrite list_lookup_insert_eq by (by eapply lookup_lt_Some). split; [done|]. simplify_eq. rewrite Hcols.
      destruct (table_of_same tr tl [] Htr) as (_ & _ & -> & _). apply Hstable.
      apply table_state_load_inv in Hload as (Hload & _). change (mc_root m1) with (mc_root m) in Hload. rewrite Hrt in Hload.
      by rewrite <- (load_schema_append w (db_root ctx) n n fields w'). }
    apply (leaks_ret _ _ _ []); cbn beta iota; [by rewrite !(right_id_L [] (++))|split_and!; [done|done|by destruct r]|].
    rewrite !(right_id_L [] (++)). intros [Hl2' HR2] (-> & -> & Hpure) _. split.
    { intros Hty. simpl. apply Hl2'. change (mc_root m1) with (mc_root m). rewrite <- Hrt in Hty. by eapply tidy_file_append. }
    cbn [index_insert BPTree_RowIndex]. change (index (append_row_to_memory t0 fields)) with (index t0). rewrite (Hpure _ Hti).
    assert (Hc1 : same_context m1 (set_table ctx i (append_row_to_memory t0 fields))).
    { apply same_context_set. destruct Happend as (Ha & Hb & Hc & Hd & He). split_and!; try done. by exists tree. }
    specialize (Hctx2 _ Hc1). specialize (HR2 _ Hc1). destruct r as [[]|e'].
    + destruct Hctx2 as (ctx' & -> & Hctx'). by eexists.
    + rewrite HR2. by eexists.
Qed.
End Insert.

Lemma insert_fields_slots (t0 : TableState BPTree) vals fields :
  insert_fields t0 vals = Ok fields → length fields = column_count (schema t0).
Proof.
  unfold insert_fields. destruct (Nat.eqb_spec (length vals) (column_count (schema t0))); [by intros [= <-]|].
  destruct (_ && _ && _) eqn:Hb; [|done]. intros [= <-]. breflect. simpl. lia.
Qed.

Lemma triple_free_insert_row slots a vs :
  length vs ≤ slots → triple (a :: map block vs) (free_insert_row slots slots a vs) (λ _, []) (λ _, True) (λ _, True).
Proof.
  intros Hlen. unfold free_insert_row. rewrite Nat.leb_refl, take_ge by done.
  call triple_free_values with [a]. eapply triple_conseq; [apply triple_release|done|auto].
Qed.

Lemma leaks_insert_into w m ctx i n t t0 vals :
  same_context m ctx → mc_tables m !! i = Some t → tables ctx !! i = Some t0 →
  length (db_root ctx) + 2 < SQL_PATH_BUFFER_SIZE →
  (∀ s, load_schema w (db_root ctx) n = Ok s → column_count s = column_count (schema t0)) →
  leaks (context_blocks m) (insert_into_mem w m i n vals t) (λ '(_, m', _), context_blocks m')
    (λ '(r, m', w') leak, written w w' (db_root ctx) n ∧
       (is_ok r = true → leak = [] ∧ insert_agrees w ctx i n vals t0 (r, m', w')))
    (λ '(r, m', w') leak, (tidy_file w (mc_root m) n → leak = []) ∧ insert_agrees w ctx i n vals t0 (r, m', w')).
Proof.
  intros Hctx Hi Hi0 Hroot Hstable. pose proof (insert_same_table m ctx i t t0 Hctx Hi Hi0) as Hsame.
  destruct (table_of_same t t0 vals Hsame) as (Hfields & _ & Hcols & _). unfold insert_into_mem. rewrite Hfields.
  destruct (insert_fields t0 vals) as [srcs|e] eqn:Hsrcs.
  2: { apply (leaks_ret _ _ _ []); cbn beta iota; [solve_Permutation|split; [by left|done]|]. split; [done|]. exists ctx. split; [|done].
       unfold insert_into, checked_fields. by rewrite Hsrcs. }
  pose proof (insert_fields_slots _ _ _ Hsrcs) as Hlen.
  call triple_acquire with (context_blocks m) as [a|] _.
  2: { apply (leaks_ret _ _ _ []); cbn beta iota; [solve_Permutation|split; [by left|done]|naive_solver]. }
  eapply (leaks_seq_triple (a :: context_blocks m) _ _ _ (map block [])); [apply triple_copy_values|solve_Permutation|].
  intros [copied vs] [Hvlen Hvs]. simpl in Hvlen. destruct copied; cbn [negb].
  2: { eapply (leaks_seq_triple (context_blocks m)); [apply triple_free_insert_row; lia|solve_Permutation|]. intros [] _.
       apply (leaks_ret _ _ _ []); cbn beta iota; [solve_Permutation|split; [by left|done]|naive_solver]. }
  specialize (Hvs eq_refl). simpl in Hvs. rewrite Hvs.
  eapply (leaks_seq (a :: map block vs)); [by eapply (leaks_insert_fields w m ctx i n t t0 Hctx Hi Hi0 Hroot Hstable vals)|solve_Permutation|].
  intros [[r m'] w'] leak (Hcol & Hw & Hr). destruct (Hcol t Hi) as (t' & -> & ->).
  eapply (leaks_seq_triple (context_blocks m')); [apply triple_free_insert_row; lia|solve_Permutation|]. intros [] _.
  apply (leaks_ret _ _ _ []); cbn beta iota; rewrite ?(right_id_L [] (++)); [done|done|naive_solver].
Qed.

Lemma select_table_same t t0 cond : same_table t t0 → select_table (table_of t) cond = select_table t0 cond.
Proof.
  intros Hsame. destruct (table_of_same t t0 [] Hsame) as (_ & Hsearch & _). destruct Hsame as (_ & Hs & Hr & _).
  unfold select_table. change (index_search (index (table_of t))) with (bptree_search (index (table_of t))).
  destruct cond as [c|]; [rewrite Hsearch|]; cbn [schema rowset table_of]; by rewrite Hs, Hr.
Qed.

(** The schema file of a table that is loaded still has as many columns. *)
Definition columns_stable (w : World) (ctx : DbContext BPTree) (n : cstr) : Prop :=
  ∀ t s, t ∈ tables ctx → name t = n → load_schema w (db_root ctx) n = Ok s → column_count s = column_count (schema t).

(** The table that [db_context_get_table] returns has the columns of its file. *)
Lemma get_table_columns w ctx n i ctx' t0 s :
  columns_stable w ctx n → db_context_get_table w ctx n = (Ok i, ctx') → tables ctx' !! i = Some t0 →
  db_root ctx' = db_root ctx ∧ (load_schema w (db_root ctx) n = Ok s → column_count s = column_count (schema t0)).
Proof.
  intros Hst Hget Hi. unfold db_context_get_table in Hget. destruct (find_table (tables ctx) n) as [j|] eqn:Hf.
  - simplify_eq. split; [done|]. apply find_table_Some in Hf as (t & Ht & Hn). simplify_eq.
    apply Hst; [by eapply list_elem_of_lookup_2|done].
  - destruct (table_state_load w (db_root ctx) n) as [t|] eqn:Hload; simplify_eq/=. split; [done|]. intros Hs.
    rewrite lookup_app_r, Nat.sub_diag in Hi by lia. simplify_eq/=. apply table_state_load_inv in Hload as (Hload & _). congruence.
Qed.

Definition query_agrees (w : World) (ctx : DbContext BPTree) (q : Query) (o : result SqlError cstr * MContext * World) : Prop :=
  let '(r, m', w') := o in ∃ ctx', execute_query w ctx q = (r, ctx', w') ∧ same_context m' ctx'.

(** The table at the position that [db_context_get_table] returned. *)
Lemma got_table w ctx n i ctx' m' :
  db_context_get_table w ctx n = (Ok i, ctx') → same_context m' ctx' →
  ∃ t t0, mc_tables m' !! i = Some t ∧ tables ctx' !! i = Some t0 ∧ same_table t t0.
Proof.
  intros Hget [_ Htabs]. destruct (get_table_position _ _ _ _ _ Hget) as [_ [t0 Ht0]].
  destruct (Forall2_lookup_r _ _ _ _ _ Htabs Ht0) as (t & Ht & Hs). eauto.
Qed.

Section Query.
Context (w : World) (m : MContext) (ctx : DbContext BPTree) (q : Query).
Context (Hctx : same_context m ctx) (Hroot : length (db_root ctx) + 2 < SQL_PATH_BUFFER_SIZE).
Context (Hstable : columns_stable w ctx (table_name q)) (Htidy : tidy_file w (db_root ctx) (table_name q)).

(** Get the table, then run [k] on it; [f] is what [k] does to tables that are values. *)
Lemma leaks_with_table (k : MContext → nat → MTable → M (result SqlError cstr * MContext * World))
    (f : DbContext BPTree → nat → TableState BPTree → result SqlError cstr * DbContext BPTree * World) :
  (∀ m' ctx' i t t0, same_context m' ctx' → mc_tables m' !! i = Some t → tables ctx' !! i = Some t0 → db_root ctx' = db_root ctx →
     (∀ s, load_schema w (db_root ctx') (table_name q) = Ok s → column_count s = column_count (schema t0)) →
     leaks (context_blocks m') (k m' i t) (λ '(_, m', _), context_blocks m')
       (λ '(r, m2, w') leak, written w w' (db_root ctx) (table_name q) ∧
          (is_ok r = true → leak = [] ∧ ∃ ctx2, f ctx' i t0 = (r, ctx2, w') ∧ same_context m2 ctx2))
       (λ '(r, m2, w') leak, leak = [] ∧ ∃ ctx2, f ctx' i t0 = (r, ctx2, w') ∧ same_context m2 ctx2)) →
  let pure := match db_context_get_table w ctx (table_name q) with
              | (Err e, ctx') => (Err e, ctx', w)
              | (Ok i, ctx') => with_table ctx' i (Ok [], ctx', w) (f ctx' i)
              end in
  leaks (context_blocks m)
    ('(r, m) ← db_context_get_table_mem w m (table_name q);
     match r with
     | Err e => mret (Err e, m, w)
     | Ok i => match mc_tables m !! i with None => mret (Ok [], m, w) | Some t => k m i t end
     end) (λ '(_, m', _), context_blocks m')
    (λ '(r, m', w') leak, written w w' (db_root ctx) (table_name q) ∧
       (is_ok r = true → leak = [] ∧ ∃ ctx', pure = (r, ctx', w') ∧ same_context m' ctx'))
    (λ '(r, m', w') leak, leak = [] ∧ ∃ ctx', pure = (r, ctx', w') ∧ same_context m' ctx').
Proof.
  intros Hk pure. pose proof (proj1 Hctx) as Hrt. subst pure.
  eapply (leaks_seq []); [apply leaks_get_table|by rewrite (right_id_L [] (++))|]. rewrite Hrt.
  intros [[i|e] m'] leak (Hl & Hroot' & Hsame); specialize (Hsame ctx Hctx).
  - destruct (Hl Htidy) as [->|(e & ? & _)]; [|done]. destruct Hsame as (ctx' & Hget & Hctx'). rewrite Hget. unfold with_table.
    destruct (got_table _ _ _ _ _ _ Hget Hctx') as (t & t0 & Ht & Ht0 & Hs). rewrite Ht, Ht0.
    destruct (get_table_position _ _ _ _ _ Hget) as [Hr _].
    eapply leaks_conseq; [apply (Hk m' ctx' i t t0 Hctx')|by rewrite (right_id_L [] (++))|].
    + done.
    + done.
    + done.
    + intros s Hload. rewrite Hr in Hload. by eapply get_table_columns.
    + intros [[r m2] w'] leak Hq. auto.
  - apply (leaks_ret _ _ _ []); cbn beta iota; rewrite ?(right_id_L [] (++)); [done|split; [by left|done]|].
    intros [Hl' HR]. split; [by apply Hl'|]. rewrite (HR ctx Hctx). by eexists.
Qed.

Lemma leaks_execute_query :
  leaks (context_blocks m) (execute_query_mem w m q) (λ '(_, m', _), context_blocks m')
    (λ '(r, m', w') leak, written w w' (db_root ctx) (table_name q) ∧
       (is_ok r = true → leak = [] ∧ ∃ ctx', execute_query w ctx q = (r, ctx', w') ∧ same_context m' ctx'))
    (λ '(r, m', w') leak, leak = [] ∧ ∃ ctx', execute_query w ctx q = (r, ctx', w') ∧ same_context m' ctx').
Proof.
  unfold execute_query_mem, execute_query. destruct (query_type q).
  - eapply leaks_conseq; [apply (leaks_with_table (λ m i t, insert_into_mem w m i (table_name q) (values q) t)
      (λ ctx i t0, insert_into w ctx i (table_name q) (values q) t0))|done|auto].
    intros m' ctx' i t t0 Hctx' Hi Hi0 Hr Hcols.
    eapply leaks_conseq; [apply leaks_insert_into; [done|done|done|by rewrite Hr|done]|done|].
    intros [[r m2] w'] leak [Hw Hok]. rewrite Hr in *. split_and!; [done|done|done|]. intros [Hl Hag]. split; [|done].
    apply Hl. by rewrite (proj1 Hctx'), Hr.
  - eapply leaks_conseq; [apply (leaks_with_table (λ m i t, mret (select_table (table_of t) (condition q), m, w))
      (λ ctx i t0, (select_table t0 (condition q), ctx, w)))|done|].
    + intros m' ctx' i t t0 Hctx' Hi Hi0 Hr Hcols.
      assert (Hs : same_table t t0) by (by eapply insert_same_table). rewrite (select_table_same t t0 _ Hs).
      apply (leaks_ret _ _ _ []); cbn beta iota; [by rewrite (right_id_L [] (++))|split; [by left|by eauto]|by eauto].
    + intros [[r m2] w'] leak Hq. unfold execute_select.
      destruct (db_context_get_table w ctx (table_name q)) as [[i|e] ctx']; [|auto].
      unfold with_table in *. destruct (tables ctx' !! i); auto.
Qed.

End Query.

(** ** Properties *)

(** C7. Running a query with failing allocations.  Whatever requests fail, nothing is given back
    twice, every block that the context had or has now is accounted for, and the table's file is
    as before or has the new row.  If the query returns 1, or if no request fails, nothing is
    left behind and the output, the files and the context are those of [Executor.execute_query].
    This is for a root of fewer than 4094 bytes, a table which, if loaded, still has as many
    columns in its schema file as when it was loaded, and a tidy schema file: at most one line
    assigns [columns] and one [pkey], and every entry of [columns], an empty last one
    excepted, has a colon.  (The code leaks for schema files that are not tidy:
    [SchemaMemory.schema_leaks].) *)
Theorem execute_query_memory (w : World) (m : MContext) (ctx : DbContext BPTree) (q : Query) (mem : Mem) (others : list nat) :
  mem_ok mem → held mem ≡ₚ context_blocks m ++ others → same_context m ctx →
  length (db_root ctx) + 2 < SQL_PATH_BUFFER_SIZE → columns_stable w ctx (table_name q) →
  tidy_file w (db_root ctx) (table_name q) →
  let '((r, m', w'), mem') := execute_query_mem w m q mem in
  mem_ok mem' ∧ written w w' (db_root ctx) (table_name q) ∧
  (∃ leak, held mem' ≡ₚ context_blocks m' ++ leak ++ others) ∧
  (is_ok r = true ∨ all_succeed mem →
     held mem' ≡ₚ context_blocks m' ++ others ∧
     ∃ ctx', execute_query w ctx q = (r, ctx', w') ∧ same_context m' ctx').
Proof.
  intros Hm Hh Hctx Hroot Hst Hty.
  destruct (leaks_execute_query w m ctx q Hctx Hroot Hst Hty mem others Hm Hh) as (leak & Hm1 & Hh1 & HQ & HR).
  destruct (execute_query_mem w m q mem) as [[[r m'] w'] mem']; simpl in *. destruct HQ as [Hw Hok].
  split_and!; [done|done|by eexists|]. intros [Hr|Hall].
  - destruct (Hok Hr) as [-> Hag]. done.
  - destruct (HR Hall) as (_ & -> & Hag). done.
Qed.

(** ** Examples *)

(** The sample table, loaded. *)
Definition sample_loaded : MContext * Mem :=
  let '(r, mem) := db_context_create_mem «"data"» (mkMem [] 0 [] false) in
  match r with
  | Ok m => let '((_, m), mem) := db_context_get_table_mem sample_world m «"users"» mem in (m, mem)
  | Err _ => (mkMContext 0 [] None [], mem)
  end.

(** The same, with these outcomes of the requests to come. *)
Definition with_outcomes (o : list bool) (mem : Mem) : Mem := mkMem (held mem) (next mem) o (fault mem).

Lemma sample_loaded_same : same_context sample_loaded.1 sample_ctx.
Proof.
  split; [vm_compute; reflexivity|]. assert (Ht : ∃ t, mc_tables sample_loaded.1 = [t] ∧ same_table t sample_table).
  { eexists. split; [vm_compute; reflexivity|]. split_and!; [vm_compute; reflexivity..| |vm_compute; reflexivity].
    eexists. split; [reflexivity|]. vm_compute. reflexivity. }
  destruct Ht as (t & -> & Ht). constructor; [done|constructor].
Qed.

Definition insert_eight : Query := mkQuery QUERY_INSERT «"users"» [«"8"»; «"park"»; «"31"»] None.

(** The request for the row in memory fails after the row was written to the file: the INSERT
    returns 0 but the row is durable; the same INSERT succeeds when it is tried again, and then the
    file has the id twice and cannot be loaded any more. *)
Lemma failed_insert_is_durable :
  let '((r1, m1, w1), mem1) := execute_query_mem sample_world sample_loaded.1 insert_eight
                                 (with_outcomes [true; true; true; true; false] sample_loaded.2) in
  let '((r2, m2, w2), mem2) := execute_query_mem w1 m1 insert_eight mem1 in
  is_ok r1 = false ∧ is_ok r2 = true ∧
  is_ok (table_state_load (Idx := BPTree) w1 «"data"» «"users"») = true ∧
  is_ok (table_state_load (Idx := BPTree) w2 «"data"» «"users"») = false.
Proof. vm_compute. done. Qed.

Lemma execute_query_memory_witness :
  let mem := with_outcomes [true; true; true; true; false] sample_loaded.2 in
  let '((r, m', w'), mem') := execute_query_mem sample_world sample_loaded.1 insert_eight mem in
  mem_ok mem' ∧ written sample_world w' (db_root sample_ctx) (table_name insert_eight) ∧
  (∃ leak, held mem' ≡ₚ context_blocks m' ++ leak ++ []) ∧
  (is_ok r = true ∨ all_succeed mem →
     held mem' ≡ₚ context_blocks m' ++ [] ∧
     ∃ ctx', execute_query sample_world sample_ctx insert_eight = (r, ctx', w') ∧ same_context m' ctx').
Proof.
  apply (execute_query_memory sample_world sample_loaded.1 sample_ctx insert_eight).
  - split_and!; [vm_compute; reflexivity|apply (bool_decide_unpack _); vm_compute; exact I|apply (bool_decide_unpack _); vm_compute; exact I].
  - apply (bool_decide_unpack _). vm_compute. exact I.
  - exact sample_loaded_same.
  - apply Nat.ltb_lt. vm_compute. reflexivity.
  - intros t s Ht _ Hs. apply list_elem_of_singleton in Ht as ->. vm_compute in Hs. injection Hs as <-. vm_compute. reflexivity.
  - exact users_file_tidy.
Defined.
