(* ===== verification/Restart.v ===== *)
(** * The loaded tables as a cache of the files

    The context of [db_context.c] keeps loaded tables between statements.  This file compares a
    process that keeps its context with one that is started afresh, with an empty context, for
    every statement: the files are the only state that matters. *)

From stdpp Require Import base list strings sets gmap.
From Stdlib Require Import Ascii.
From S2P Require Import Prelude CString Common Parser Index BPTree Schema Storage DbContext Executor.

(** The root leaves room in the path buffer for every table name that fits its record. *)
Definition root_fits (root : cstr) : Prop := (length root + TABLE_NAME_SIZE + 12 < SQL_PATH_BUFFER_SIZE)%nat.

Definition name_fits (n : cstr) : Prop := (length n < TABLE_NAME_SIZE)%nat.

Section Restart.
Context `{RowIndex Idx}.

(** A new process. *)
Definition fresh (root : cstr) : DbContext Idx := mkDbContext root [].

(** Every table in memory is what its files load to, and the table files end at line ends. *)
Record cached (w : World) (ctx : DbContext Idx) : Prop := {
  cached_db : db_ok w ctx;
  cached_root : root_fits (db_root ctx);
  cached_files : ∀ n content, files w !! build_table_path (db_root ctx) n = Some content → complete_lines content;
  cached_tables : ∀ i t, tables ctx !! i = Some t →
    name_fits (name t) ∧ find_table (tables ctx) (name t) = Some i ∧
    table_state_load w (db_root ctx) (name t) = Ok t
}.

(** If [q] inserts a row, the file keeps its fields as they are, and the largest [int] is no id. *)
Definition durable (w : World) (root : cstr) (q : Query) : Prop :=
  query_type q = QUERY_INSERT →
  ∀ (t : TableState Idx) fields, table_state_load w root (table_name q) = Ok t → checked_fields t (values q) = Ok fields →
    Forall csv_safe fields ∧ row_fits fields ∧
    INT_MAX ∉ row_ids (schema t) (rows (rowset t)) ++ [row_id (schema t) fields].

(** The result of a statement and the files it leaves, as a function of the files alone. *)
Definition query_files (w : World) (root : cstr) (q : Query) : result SqlError cstr * World :=
  match table_state_load w root (table_name q) with
  | Err e => (Err e, w)
  | Ok t =>
      match query_type q with
      | QUERY_SELECT => (select_table t (condition q), w)
      | QUERY_INSERT =>
          let '(r, _, w') := insert_into w (fresh root) 0 (table_name q) (values q) t in (r, w')
      end
  end.

(** Statements run by one process, and by a new process each: the results and the files. *)
Fixpoint execute_all (w : World) (ctx : DbContext Idx) (qs : list Query) : list (result SqlError cstr) * World :=
  match qs with
  | [] => ([], w)
  | q :: qs' =>
      let '(r, ctx', w') := execute_query w ctx q in
      let '(rs, w'') := execute_all w' ctx' qs' in (r :: rs, w'')
  end.

Fixpoint execute_restarting (w : World) (root : cstr) (qs : list Query) : list (result SqlError cstr) * World :=
  match qs with
  | [] => ([], w)
  | q :: qs' =>
      let '(r, _, w') := execute_query w (fresh root) q in
      let '(rs, w'') := execute_restarting w' root qs' in (r :: rs, w'')
  end.

(** Every statement names a table with a short name and is durable when its turn comes. *)
Fixpoint durable_run (w : World) (root : cstr) (qs : list Query) : Prop :=
  match qs with
  | [] => True
  | q :: qs' =>
      name_fits (table_name q) ∧ durable w root q ∧
      durable_run (execute_query w (fresh root) q).2 root qs'
  end.

(** ** Lemmas *)

(** Different tables have different files. *)
Lemma table_paths_differ root n m :
  root_fits root → name_fits n → name_fits m → build_table_path root n = build_table_path root m → n = m.
Proof.
  unfold root_fits, name_fits, build_table_path, bounded. intros Hr Hn Hm.
  assert (H8 : length «"/tables/"» = 8%nat) by done. assert (H4 : length «".csv"» = 4%nat) by done.
  rewrite !take_ge by (rewrite !length_app, H8, H4; lia).
  intros Heq%app_inv_head%app_inv_head. by apply app_inv_tail in Heq.
Qed.

(** An INSERT into one table does not change how another loads. *)
Lemma load_other w root n m fields w' :
  root_fits root → name_fits n → name_fits m → n ≠ m → append_csv_row w root n fields = Ok w' →
  table_state_load (Idx := Idx) w' root m = table_state_load w root m.
Proof.
  intros Hr Hn Hm Hne Ha. unfold table_state_load.
  rewrite (load_schema_append w root n m fields w') by (done || unfold root_fits in *; lia).
  apply append_csv_row_Ok in Ha as [_ ->]. unfold read_csv_rows. simpl.
  rewrite lookup_insert_ne; [done|]. intros Heq. by apply Hne, (table_paths_differ root).
Qed.

Lemma find_table_app ts ts' n i : find_table ts n = Some i → find_table (Idx := Idx) (ts ++ ts') n = Some i.
Proof.
  revert i. induction ts as [|t ts IH]; intros i; simpl; [done|]. case_bool_decide; [done|].
  destruct (find_table ts n) as [j|]; simpl; [|done]. intros [= <-]. by rewrite (IH j).
Qed.

(** Looking a table up, in memory or from the files, gives what its files load to. *)
Lemma cached_get_table w ctx n :
  cached w ctx → name_fits n →
  match table_state_load w (db_root ctx) n with
  | Err e => db_context_get_table w ctx n = (Err e, ctx)
  | Ok t => ∃ i ctx', db_context_get_table w ctx n = (Ok i, ctx') ∧ tables ctx' !! i = Some t ∧ name t = n ∧
      cached w ctx' ∧ db_root ctx' = db_root ctx
  end.
Proof.
  intros Hc Hn. pose proof Hc as [Hdb Hroot Hfiles Htabs].
  pose proof (get_table_db_ok w ctx n Hdb) as Hdb'. unfold db_context_get_table in *.
  destruct (find_table (tables ctx) n) as [i|] eqn:Hf.
  - apply find_table_Some in Hf as (t & Hi & <-). destruct (Htabs i t Hi) as (_ & _ & ->). eauto 10.
  - destruct (table_state_load w (db_root ctx) n) as [t|e] eqn:Hl; [|done]. simpl in Hdb'.
    assert (Hname : name t = n).
    { apply table_state_load_inv in Hl as (_ & _ & _ & _ & -> & _). apply take_ge. unfold name_fits in Hn. lia. }
    eexists _, _. split; [reflexivity|]. simpl. split; [by rewrite list_lookup_middle|]. split_and!; [done| |done].
    constructor; simpl; [done|done|done|]. intros i t' [Hi|[Hge Ht']]%lookup_app_Some.
    + destruct (Htabs i t' Hi) as (? & ? & ?). split_and!; [done|by apply find_table_app|done].
    + apply list_lookup_singleton_Some in Ht' as [Hz <-]. rewrite Hname. split_and!; [done| |done].
      rewrite (find_table_snoc _ _ n) by done. f_equal. lia.
Qed.

(** What an INSERT answers and writes depends on the table alone. *)
Lemma insert_into_same w (c1 c2 : DbContext Idx) i j n vals t :
  table_ok t → db_root c1 = db_root c2 →
  (insert_into w c1 i n vals t).1.1 = (insert_into w c2 j n vals t).1.1 ∧
  (insert_into w c1 i n vals t).2 = (insert_into w c2 j n vals t).2.
Proof.
  intros Ht Hroot. unfold insert_into. rewrite Hroot.
  destruct (checked_fields t vals) as [fields|]; [|done].
  destruct (index_search (index t) (row_id (schema t) fields)) eqn:Hs; [done|].
  destruct (append_csv_row w (db_root c2) n fields); [|done].
  destruct (index_insert_after_search t _ Ht Hs) as [idx Hi]. cbn [append_row_to_memory index]. by rewrite Hi.
Qed.

(** A durable INSERT keeps memory and files the same. *)
Lemma cached_insert w ctx i n t fields ctx' w' :
  cached w ctx → tables ctx !! i = Some t → name t = n →
  row_ok (schema t) fields → Forall csv_safe fields → row_fits fields →
  INT_MAX ∉ row_ids (schema t) (rows (rowset t)) ++ [row_id (schema t) fields] →
  insert_done w ctx i n t fields ctx' w' → db_ok w' ctx' → cached w' ctx'.
Proof.
  intros [Hdb Hroot Hfiles Htabs] Hi <- Hrow Hsafe Hfit Hmax (t' & Hins & -> & Ha) Hdb'.
  destruct (Htabs i t Hi) as (Hn & Hf & Hl). pose proof Hins as [Hname _ _ _ _].
  assert (Hclosed : table_closed w (db_root ctx) (name t)).
  { apply table_state_load_inv in Hl as (_ & Hread & _). unfold read_csv_rows in Hread.
    destruct (files w !! build_table_path (db_root ctx) (name t)) as [content|] eqn:Hc; [|done].
    exists content. split; [done|]. by eapply Hfiles. }
  constructor; simpl; [done|done| |].
  - intros m content. destruct (append_csv_row_closed _ _ _ _ _ Ha) as (c & Hc & Hcl).
    apply append_csv_row_Ok in Ha as [_ ->]. simpl in *.
    destruct (decide (build_table_path (db_root ctx) m = build_table_path (db_root ctx) (name t))) as [->|Hne].
    + rewrite Hc. by intros [= <-].
    + rewrite lookup_insert_ne by (intros Heq; by apply Hne). apply Hfiles.
  - intros j u [(<- & <- & _)|[Hne Hj]]%list_lookup_insert_Some.
    + rewrite (find_table_insert _ _ t), Hname by done. split_and!; [done|done|].
      eapply reload_after_insert; try done. apply Hdb.
    + destruct (Htabs j u Hj) as (Hnu & Hfu & Hlu). rewrite (find_table_insert _ _ t) by done. split_and!; [done|done|].
      rewrite (load_other w (db_root ctx) (name t) (name u) fields w'); try done. intros Heq. congruence.
Qed.

Lemma cached_fresh w ctx : cached w ctx → cached w (fresh (db_root ctx)).
Proof. intros [[_ Hs Hl] Hroot Hfiles _]. constructor; [constructor; [constructor|exact Hs|exact Hl]|exact Hroot|exact Hfiles|]. intros i t [=]. Qed.

(** A process with a context that agrees with the files answers from the files. *)
Lemma cached_query w ctx q r ctx' w' :
  cached w ctx → name_fits (table_name q) → execute_query w ctx q = (r, ctx', w') →
  query_files w (db_root ctx) q = (r, w') ∧ db_root ctx' = db_root ctx ∧
  (durable w (db_root ctx) q → cached w' ctx').
Proof.
  intros Hc Hn Hq. pose proof (cached_get_table w ctx (table_name q) Hc Hn) as Hget.
  destruct (execute_query_db_ok w ctx q r ctx' w' (cached_db _ _ Hc) Hq) as (Hdb' & Hroot' & _).
  unfold query_files, durable. unfold execute_query, execute_select, execute_insert in Hq.
  destruct (table_state_load w (db_root ctx) (table_name q)) as [t|e].
  2:{ rewrite Hget in Hq. destruct (query_type q); by injection Hq as <- <- <-. }
  destruct Hget as (i & ctx1 & Hget & Hi & Hname & Hc1 & Hroot1). rewrite Hget in Hq. unfold with_table in Hq. rewrite Hi in Hq.
  destruct (query_type q); [|by injection Hq as <- <- <-].
  assert (Ht : table_ok t) by (eapply ctx_ok_lookup; [apply (cached_db _ _ Hc1)|done]).
  destruct (insert_into_same w ctx1 (fresh (db_root ctx)) i 0 (table_name q) (values q) t Ht Hroot1) as [Hr Hw].
  rewrite Hq in Hr, Hw. destruct (insert_into w (fresh (db_root ctx)) 0 _ _ t) as [[r0 c0] w0]. simpl in Hr, Hw. subst r0 w0.
  split_and!; [done|done|]. intros Hdur.
  destruct (insert_into_cases w ctx1 i _ _ t r ctx' w' Ht Hq) as [(e & -> & -> & ->)|(fields & Hf & _ & _ & Hdone)]; [done|].
  destruct (Hdur eq_refl t fields eq_refl Hf) as (Hsafe & Hfit & Hmax).
  eapply cached_insert; try done. by apply (checked_fields_Ok t (values q)); [apply Ht|].
Qed.

Lemma execute_all_restarting w ctx qs :
  cached w ctx → durable_run w (db_root ctx) qs → execute_all w ctx qs = execute_restarting w (db_root ctx) qs.
Proof.
  revert w ctx. induction qs as [|q qs IH]; intros w ctx Hc; [done|]. cbn [durable_run execute_all execute_restarting].
  intros (Hn & Hd & Hrest).
  destruct (execute_query w ctx q) as [[r ctx'] w'] eqn:Hq.
  destruct (execute_query w (fresh (db_root ctx)) q) as [[r0 ctx0] w0] eqn:Hq0.
  destruct (cached_query w ctx q r ctx' w' Hc Hn Hq) as (Hf & Hroot & Hc').
  destruct (cached_query w (fresh (db_root ctx)) q r0 ctx0 w0 (cached_fresh w ctx Hc) Hn Hq0) as (Hf0 & _ & _).
  cbn [db_root fresh] in Hf0. rewrite Hf in Hf0. injection Hf0 as <- <-. simpl in Hrest.
  rewrite <- Hroot in Hrest |- *. by rewrite (IH w' ctx' (Hc' Hd) Hrest).
Qed.

End Restart.

(** ** Properties *)

(** C6. A restart changes nothing: the tables in memory are a cache of the files.  Take a process
    in which every loaded table is what its files load to, as in a new one, and that satisfies
    the invariant, with files in which each table file ends at a line end and no schema
    file has a second [columns] line, under a root that leaves 268 of the 4096 bytes of
    the path buffer; and any sequence of statements about tables with names of fewer than 256
    bytes, in which every row inserted has trimmed fields without newline and NUL and a line of
    at most 8191 bytes, into a table in which the largest [int] is not an id.  Run by that one
    process, or by a process that is started afresh for every statement, the sequence gives the
    same results, errors included, and the same files.  The result of each statement is a
    function of the files and the statement alone. *)
Theorem restart_transparent `{RowIndex Idx} w (ctx : DbContext Idx) qs :
  cached w ctx → durable_run (Idx := Idx) w (db_root ctx) qs →
  execute_all w ctx qs = execute_restarting (Idx := Idx) w (db_root ctx) qs ∧
  ∀ q, name_fits (table_name q) →
    ((execute_query w ctx q).1.1, (execute_query w ctx q).2) = query_files (Idx := Idx) w (db_root ctx) q.
Proof.
  intros Hc Hd. split; [by apply execute_all_restarting|]. intros q Hn.
  destruct (execute_query w ctx q) as [[r ctx'] w'] eqn:Hq.
  by destruct (cached_query w ctx q r ctx' w' Hc Hn Hq) as [-> _].
Qed.

Lemma sample_cached : cached sample_world sample_ctx.
Proof.
  assert (Hshort : (length «"data"» + 2 < SQL_PATH_BUFFER_SIZE)%nat) by (apply Nat.ltb_lt; vm_compute; reflexivity).
  constructor.
  - constructor; [apply sample_ctx_ok| |done]. intros n content.
    cbn [files sample_world]. rewrite lookup_insert_Some, lookup_singleton_Some. intros [[Hp _]|[_ [_ <-]]].
    + exfalso. by apply (paths_differ «"data"» n «"users"»).
    + apply Nat.leb_le. vm_compute. reflexivity.
  - apply Nat.ltb_lt. vm_compute. reflexivity.
  - intros n content. cbn [files sample_world]. rewrite lookup_insert_Some, lookup_singleton_Some.
    intros [[_ <-]|[_ [Hp _]]]; [right; vm_compute; reflexivity|]. exfalso. by apply (paths_differ «"data"» «"users"» n).
  - intros i t Hi. apply list_lookup_singleton_Some in Hi as [-> <-].
    split_and!; [apply Nat.ltb_lt; vm_compute; reflexivity|vm_compute; reflexivity|apply sample_table_load].
Qed.

(** An INSERT, the same id again, and a SELECT. *)
Definition sample_queries : list Query :=
  [insert_park; mkQuery QUERY_INSERT «"users"» [«"8"»; «"lee"»; «"20"»] None; mkQuery QUERY_SELECT «"users"» [] None].

Lemma restart_transparent_witness :
  execute_all sample_world sample_ctx sample_queries =
    execute_restarting (Idx := BPTree) sample_world «"data"» sample_queries ∧
  (execute_restarting (Idx := BPTree) sample_world «"data"» sample_queries).1 !! 1%nat = Some (fail «"duplicate id: 8"»).
Proof.
  split; [|vm_compute; reflexivity]. apply (restart_transparent sample_world sample_ctx sample_queries sample_cached).
  assert (Hn : name_fits «"users"») by (apply Nat.ltb_lt; vm_compute; reflexivity).
  split; [exact Hn|]. split; [|split; [exact Hn|split; [|split; [exact Hn|split; [intros Hq; discriminate Hq|exact I]]]]].
  all: intros _ t fields Hl Hc; vm_compute in Hl; injection Hl as <-; vm_compute in Hc; injection Hc as <-.
  all: split; [repeat constructor; by apply csv_safe_dec|split; [apply N.leb_le; vm_compute; reflexivity|]].
  all: apply (bool_decide_unpack _); vm_compute; reflexivity.
Defined.
