(* ===== verification/Benchmark.v ===== *)
(** * [src/src/runtime/main.c], [run_benchmark]: index lookups against linear scans

    The benchmark probes rows of the table [users] in a fixed order and counts hits and scan
    steps.  The times it prints come from [clock] and floating point; they and the printed
    average are parameters.  The warm-up loop only reads and leaves no trace. *)

From stdpp Require Import base list strings sets gmap.
From Stdlib Require Import Ascii.
From S2P Require Import Prelude CString Common Index BPTree Schema Storage DbContext Executor.

Open Scope Z_scope.

(** What [printf("%.3f", ...)] shows of the measured times, and of a quotient of two counts. *)
Record BenchTimes := mkBenchTimes {
  load_build_ms : cstr;
  index_ms : cstr;
  linear_ms : cstr;
  speedup_ratio : cstr;
  average : Z → Z → cstr
}.

Definition probe_stride (row_count : Z) : Z := if 1 <? row_count then row_count - 1 else 1.

(** [(int) ((iteration * (long) probe_stride) % row_count)] *)
Definition probe_row (iteration row_count : Z) : Z :=
  wrap32 (Z.rem (wrap64 (iteration * probe_stride row_count)) row_count).

Definition distinct_probes (iterations row_count : Z) : Z :=
  wrap32 (if iterations <? row_count then iterations else row_count).

Section Benchmark.
Context `{RowIndex Idx}.

(** [table->rowset.rows[probe_row]] *)
Definition probed (t : TableState Idx) (iteration : Z) : Row :=
  default [] (rows (rowset t) !! Z.to_nat (probe_row iteration (Z.of_nat (row_count (rowset t))))).

(** The index loop, [n] iterations from [iteration] on. *)
Fixpoint index_loop (n : nat) (t : TableState Idx) (iteration index_hits : Z) : Z :=
  match n with
  | O => index_hits
  | S n =>
      let hit := match index_search (index t) (row_id (schema t) (probed t iteration)) with
                 | Some row_index => 0 <=? row_index
                 | None => false
                 end in
      index_loop n t (iteration + 1) (if hit then wrap32 (index_hits + 1) else index_hits)
  end.

End Benchmark.

(** The counters of the linear loop. *)
Record LinearCounts := mkLinearCounts {
  linear_hits : Z;
  linear_steps : Z;
  max_linear_steps : Z
}.

(** The inner loop: scan for the first row with this name. *)
Fixpoint linear_scan (rs : list Row) (probe_name : cstr) (scan_index : Z) (c : LinearCounts) : LinearCounts :=
  match rs with
  | [] => c
  | r :: rs' =>
      let steps := wrap64 (linear_steps c + 1) in
      if bool_decide (field_at r 1 = probe_name) then
        mkLinearCounts (wrap32 (linear_hits c + 1)) steps
          (if max_linear_steps c <? wrap32 (scan_index + 1) then wrap32 (scan_index + 1) else max_linear_steps c)
      else linear_scan rs' probe_name (scan_index + 1) (mkLinearCounts (linear_hits c) steps (max_linear_steps c))
  end.

Section Run.
Context `{RowIndex Idx}.

Fixpoint linear_loop (n : nat) (t : TableState Idx) (iteration : Z) (c : LinearCounts) : LinearCounts :=
  match n with
  | O => c
  | S n =>
      linear_loop n t (iteration + 1) (linear_scan (rows (rowset t)) (field_at (probed t iteration) 1) 0 c)
  end.

Definition bench_line (label value : cstr) : cstr := label ++ value ++ [LF].

(** What is printed for a loaded table. *)
Definition benchmark_table (t : TableState Idx) (iterations : Z) (times : BenchTimes) : cstr :=
  let row_count := Z.of_nat (row_count (rowset t)) in
  if row_count =? 0 then
    «"benchmark rows=0 iterations="» ++ show_int iterations ++ [LF] ++
    bench_line «"load_build_ms="» (load_build_ms times) ++
    bench_line «"index_hits=0"» [] ++ bench_line «"linear_hits=0"» [] ++ bench_line «"distinct_probes=0"» [] ++
    bench_line «"avg_linear_steps=0.000"» [] ++ bench_line «"max_linear_steps=0"» [] ++
    bench_line «"index_ms=0.000"» [] ++ bench_line «"linear_ms=0.000"» [] ++ bench_line «"speedup_ratio=0.000"» []
  else
    let index_hits := index_loop (Z.to_nat iterations) t 0 0 in
    let c := linear_loop (Z.to_nat iterations) t 0 (mkLinearCounts 0 0 0) in
    «"benchmark rows="» ++ show_int row_count ++ «" iterations="» ++ show_int iterations ++ [LF] ++
    bench_line «"load_build_ms="» (load_build_ms times) ++
    bench_line «"index_hits="» (show_int index_hits) ++
    bench_line «"linear_hits="» (show_int (linear_hits c)) ++
    bench_line «"distinct_probes="» (show_int (distinct_probes iterations row_count)) ++
    bench_line «"avg_linear_steps="» (average times (linear_steps c) iterations) ++
    bench_line «"max_linear_steps="» (show_int (max_linear_steps c)) ++
    bench_line «"index_ms="» (index_ms times) ++ bench_line «"linear_ms="» (linear_ms times) ++
    bench_line «"speedup_ratio="» (speedup_ratio times).

Definition run_benchmark (w : World) (ctx : DbContext Idx) (iterations : Z) (times : BenchTimes)
    : result SqlError cstr * DbContext Idx :=
  match db_context_get_table w ctx «"users"» with
  | (Err e, ctx') => (Err e, ctx')
  | (Ok i, ctx') =>
      (match tables ctx' !! i with Some t => Ok (benchmark_table t iterations times) | None => Ok [] end, ctx')
  end.

End Run.

(** ** Lemmas: the probe sequence *)

Lemma probe_row_spec i n :
  0 < n <= INT_MAX → 0 <= i <= INT_MAX → probe_row i n = (- i) mod n.
Proof.
  intros Hn Hi. unfold probe_row, probe_stride.
  assert (Hm : (i * (if 1 <? n then n - 1 else 1)) mod n = (- i) mod n).
  { destruct (Z.ltb_spec 1 n) as [H1|H1].
    - rewrite <- (Z.mod_add (- i) i n) by lia. f_equal. ring.
    - replace n with 1 by lia. by rewrite !Z.mod_1_r. }
  assert (Hb : 0 <= i * (if 1 <? n then n - 1 else 1) <= LONG_MAX).
  { unfold INT_MAX, LONG_MAX in *. destruct (Z.ltb_spec 1 n); nia. }
  rewrite wrap64_id by (unfold LONG_MIN; lia). rewrite Z.rem_mod_nonneg, Hm by lia.
  pose proof (Z.mod_pos_bound (- i) n). apply wrap32_id. unfold is_int, INT_MIN, INT_MAX in *. lia.
Qed.

Lemma probe_row_range i n : 0 < n <= INT_MAX → 0 <= i <= INT_MAX → 0 <= probe_row i n < n.
Proof. intros Hn Hi. rewrite probe_row_spec by done. apply Z.mod_pos_bound. lia. Qed.

Lemma neg_mod i n : 0 <= i < n → (- i) mod n = if i =? 0 then 0 else n - i.
Proof.
  intros Hi. destruct (Z.eqb_spec i 0) as [-> |Hne]; [by apply Z.mod_0_l; lia|].
  rewrite <- (Z.mod_add (- i) 1 n), Z.mod_small by lia. lia.
Qed.

(** The probes within one period are different. *)
Lemma probe_row_inj i j n :
  0 < n <= INT_MAX → 0 <= i < n → 0 <= j < n → probe_row i n = probe_row j n → i = j.
Proof.
  intros Hn Hi Hj. rewrite !probe_row_spec, !neg_mod by lia.
  destruct (Z.eqb_spec i 0), (Z.eqb_spec j 0); lia.
Qed.

Lemma probe_row_periodic i n :
  0 < n <= INT_MAX → 0 <= i <= INT_MAX → probe_row (i mod n) n = probe_row i n.
Proof.
  intros Hn Hi. pose proof (Z.mod_pos_bound i n). rewrite !probe_row_spec by lia.
  rewrite <- (Zminus_mod_idemp_r 0 i). done.
Qed.

(** The rows probed by the first [m] iterations. *)
Definition probes (m : nat) (n : Z) : gset Z := list_to_set (map (λ i, probe_row (Z.of_nat i) n) (seq 0 m)).

Lemma probes_within m n : 0 < n <= INT_MAX → Z.of_nat m <= n → size (probes m n) = m.
Proof.
  intros Hn Hm. unfold probes. rewrite size_list_to_set; [by rewrite length_map, length_seq|].
  apply NoDup_fmap_2_strong; [|apply NoDup_seq].
  intros x y Hx%elem_of_seq Hy%elem_of_seq Heq. apply probe_row_inj in Heq; lia.
Qed.

Lemma probes_beyond m n :
  0 < n <= INT_MAX → n <= Z.of_nat m <= INT_MAX → probes m n = probes (Z.to_nat n) n.
Proof.
  intros Hn Hm. apply set_eq. intros x. unfold probes. rewrite !elem_of_list_to_set, !list_elem_of_fmap. split.
  - intros (i & -> & Hi%elem_of_seq). exists (Z.to_nat (Z.of_nat i mod n)).
    pose proof (Z.mod_pos_bound (Z.of_nat i) n). rewrite elem_of_seq, Z2Nat.id, probe_row_periodic by lia.
    split; [done|lia].
  - intros (i & -> & Hi%elem_of_seq). exists i. rewrite elem_of_seq. split; [done|lia].
Qed.

(** ** Lemmas: the loops *)

Section Loops.
Context `{RowIndex Idx} (t : TableState Idx) (Hok : table_ok t).
Context (Hrows : 0 < Z.of_nat (row_count (rowset t)) <= INT_MAX).

Lemma probed_row i : 0 <= i <= INT_MAX → probed t i ∈ rows (rowset t).
Proof using Hrows.
  intros Hi. unfold probed. pose proof (probe_row_range i _ Hrows Hi) as Hr. unfold row_count in *.
  destruct (lookup_lt_is_Some_2 (rows (rowset t)) (Z.to_nat (probe_row i (Z.of_nat (length (rows (rowset t))))))) as [r Hl];
    [lia|]. rewrite Hl. by eapply list_elem_of_lookup_2.
Qed.

Lemma index_loop_hits n i hits :
  0 <= i → i + Z.of_nat n <= INT_MAX → 0 <= hits → hits + Z.of_nat n <= INT_MAX →
  index_loop n t i hits = hits + Z.of_nat n.
Proof using Hok Hrows.
  revert i hits. induction n as [|n IH]; intros i hits Hi Hin Hh Hhn; cbn [index_loop]; [lia|].
  assert (Hid : row_id (schema t) (probed t i) ∈ row_ids (schema t) (rows (rowset t))).
  { apply list_elem_of_fmap_2. apply probed_row. lia. }
  apply (index_agrees_elem (index t)) in Hid as [x Hx]; [|apply Hok].
  rewrite index_search_map, Hx by apply Hok. apply (table_index t Hok) in Hx as [Hx _].
  rewrite (proj2 (Z.leb_le 0 x)), wrap32_id by (unfold is_int, INT_MIN; lia). rewrite IH by lia. lia.
Qed.

End Loops.

Lemma linear_scan_found rs name idx c :
  (∃ r, r ∈ rs ∧ field_at r 1 = name) → 0 <= idx → idx + Z.of_nat (length rs) <= INT_MAX →
  0 <= linear_hits c < INT_MAX → 0 <= linear_steps c → linear_steps c + Z.of_nat (length rs) <= LONG_MAX →
  ∃ j, 1 <= j <= Z.of_nat (length rs) ∧
    linear_scan rs name idx c =
      mkLinearCounts (linear_hits c + 1) (linear_steps c + j) (Z.max (max_linear_steps c) (idx + j)).
Proof.
  revert idx c. induction rs as [|r rs IH]; intros idx c (r0 & Hr0 & Hname) Hidx Hlen Hh Hs Hsl; [by apply elem_of_nil in Hr0|].
  cbn [linear_scan length] in *. rewrite !Nat2Z.inj_succ in *.
  rewrite (wrap64_id (linear_steps c + 1)) by (unfold LONG_MIN; lia). case_bool_decide as Heq.
  - exists 1. split; [lia|]. rewrite !wrap32_id by (unfold is_int, INT_MIN; lia).
    f_equal. destruct (Z.ltb_spec (max_linear_steps c) (idx + 1)); lia.
  - destruct (IH (idx + 1) (mkLinearCounts (linear_hits c) (linear_steps c + 1) (max_linear_steps c))) as (j & Hj & ->);
      simpl; [|lia..|].
    { exists r0. split; [|done]. apply elem_of_cons in Hr0 as [-> |?]; done. }
    exists (j + 1). split; [lia|]. f_equal; lia.
Qed.

(** Every linear search finds its row: the counters after [n] searches. *)
Lemma linear_loop_counts `{RowIndex Idx} (t : TableState Idx) n i c :
  let rc := Z.of_nat (row_count (rowset t)) in
  0 < rc <= INT_MAX → 0 <= i → i + Z.of_nat n <= INT_MAX →
  0 <= linear_hits c → linear_hits c + Z.of_nat n <= INT_MAX →
  0 <= linear_steps c → linear_steps c + Z.of_nat n * rc <= LONG_MAX → 0 <= max_linear_steps c <= rc →
  let c' := linear_loop n t i c in
  linear_hits c' = linear_hits c + Z.of_nat n ∧
  linear_steps c + Z.of_nat n <= linear_steps c' <= linear_steps c + Z.of_nat n * rc ∧
  max_linear_steps c <= max_linear_steps c' <= rc ∧ (0 < Z.of_nat n → 1 <= max_linear_steps c').
Proof.
  intros rc Hrc. revert i c. induction n as [|n IH]; intros i c Hi Hin Hh Hhn Hs Hsn Hm; cbn [linear_loop]; [lia|].
  rewrite Nat2Z.inj_succ in *.
  destruct (linear_scan_found (rows (rowset t)) (field_at (probed t i) 1) 0 c) as (j & Hj & ->);
    [exists (probed t i); split; [apply probed_row; unfold rc in *; lia|done]|unfold rc, row_count in *; nia..|].
  unfold row_count in rc. fold rc in Hj.
  destruct (IH (i + 1) (mkLinearCounts (linear_hits c + 1) (linear_steps c + j) (Z.max (max_linear_steps c) (0 + j))))
    as (H1 & H2 & H3 & _); simpl in *; [nia..|]. split_and!; [lia|nia|nia|lia|lia|lia].
Qed.

(** ** Properties *)

(** The benchmark measures what it says.  For a loaded, non-empty table and a positive
    number of iterations in the [int] range, every index lookup and every linear search finds
    its row, so both hit counts equal the number of iterations; the linear searches take
    between one step and one pass over the table each, and the longest between 1 and the row
    count; and the printed [distinct_probes] is the number of different rows that were probed,
    because the stride [row_count - 1] visits all rows before it repeats one. *)
Theorem benchmark_counts `{RowIndex Idx} (t : TableState Idx) iterations :
  table_ok t → 0 < Z.of_nat (row_count (rowset t)) <= INT_MAX → 0 < iterations <= INT_MAX →
  let n := Z.to_nat iterations in
  let rc := Z.of_nat (row_count (rowset t)) in
  let c := linear_loop n t 0 (mkLinearCounts 0 0 0) in
  index_loop n t 0 0 = iterations ∧ linear_hits c = iterations ∧
  iterations <= linear_steps c <= iterations * rc ∧ 1 <= max_linear_steps c <= rc ∧
  Z.of_nat (size (probes n rc)) = distinct_probes iterations rc.
Proof.
  intros Hok Hrc Hit n rc c. assert (Hn : Z.of_nat n = iterations) by (unfold n; lia). fold rc in Hrc.
  destruct (linear_loop_counts t n 0 (mkLinearCounts 0 0 0)) as (H1 & H2 & H3 & H4); fold rc; simpl;
    [unfold INT_MAX, LONG_MAX in *; nia..|]. fold c in H1, H2, H3, H4. fold rc in H2, H3. simpl in *.
  split_and!; [rewrite index_loop_hits by (done || lia); lia|lia|lia|lia|lia|lia|].
  unfold distinct_probes. destruct (Z.ltb_spec iterations rc).
  - rewrite probes_within by lia. rewrite wrap32_id by (unfold is_int, INT_MIN; lia). lia.
  - rewrite probes_beyond, probes_within by lia. rewrite wrap32_id by (unfold is_int, INT_MIN; lia). lia.
Qed.

Lemma benchmark_counts_witness :
  index_loop 5 sample_table 0 0 = 5 ∧ Z.of_nat (size (probes 5 2)) = 2.
Proof.
  pose proof (benchmark_counts sample_table 5 sample_table_ok ltac:(split; [reflexivity|apply Z.leb_le; reflexivity])
    ltac:(split; [reflexivity|apply Z.leb_le; reflexivity])) as (H1 & _ & _ & _ & H2). split; [exact H1|exact H2].
Defined.
