(* ===== verification/Main.v ===== *)
(** * [src/src/runtime/cli.c] and [src/src/runtime/main.c]: the command-line program

    Argument parsing, the [?] parameter, comment removal, and the script loop that splits the
    text at semicolons outside quotes and runs the statements in order.  The benchmark is in
    [Benchmark]. *)

From stdpp Require Import base list strings sets gmap.
From Stdlib Require Import Ascii.
From S2P Require Import Prelude CString Common Parser Index BPTree Schema Storage DbContext Executor Benchmark.

(** ** Arguments *)

Record CliOptions := mkCliOptions {
  sql_path : option cstr;
  query_text : option cstr;
  param_value : option cstr;
  option_db_root : cstr;
  bench_rows : Z;
  explain : bool
}.

Definition default_options : CliOptions := mkCliOptions None None None «"./data"» 0 false.

(** The loop over [argv[1..]]. *)
Fixpoint parse_arguments (o : CliOptions) (args : list cstr) : result SqlError CliOptions :=
  match args with
  | [] => Ok o
  | arg :: args' =>
      let unknown := fail («"unknown argument: "» ++ arg) in
      if bool_decide (arg = «"--explain"») then
        parse_arguments (mkCliOptions (sql_path o) (query_text o) (param_value o) (option_db_root o) (bench_rows o) true) args'
      else
        match args' with
        | [] => unknown
        | v :: args'' =>
            if bool_decide (arg = «"--sql"») then
              parse_arguments (mkCliOptions (Some v) (query_text o) (param_value o) (option_db_root o) (bench_rows o) (explain o)) args''
            else if bool_decide (arg = «"--query"») then
              parse_arguments (mkCliOptions (sql_path o) (Some v) (param_value o) (option_db_root o) (bench_rows o) (explain o)) args''
            else if bool_decide (arg = «"--param"») then
              parse_arguments (mkCliOptions (sql_path o) (query_text o) (Some v) (option_db_root o) (bench_rows o) (explain o)) args''
            else if bool_decide (arg = «"--db"») then
              parse_arguments (mkCliOptions (sql_path o) (query_text o) (param_value o) v (bench_rows o) (explain o)) args''
            else if bool_decide (arg = «"--bench"») then
              parse_arguments (mkCliOptions (sql_path o) (query_text o) (param_value o) (option_db_root o) (atol v) (explain o)) args''
            else unknown
        end
  end.

Definition parse_cli_args (args : list cstr) : result SqlError CliOptions :=
  o ← parse_arguments default_options args;
  match sql_path o, query_text o with
  | Some _, Some _ => fail «"--sql and --query cannot be used together"»
  | None, None =>
      if (bench_rows o <=? 0)%Z then fail «"either --sql, --query, or --bench must be provided"» else Ok o
  | _, _ => Ok o
  end.

(** ** Scanning SQL text *)

(** The quote state after a character; NUL stands for outside quotes. *)
Definition next_quote (quote c : ascii) : ascii :=
  if negb (Ascii.eqb quote NUL) then (if Ascii.eqb c quote then NUL else quote)
  else if is_quote c then c else NUL.

Definition outside (quote c : ascii) : bool := Ascii.eqb quote NUL && negb (is_quote c).

(** The text before and after the first [?] outside quotes. *)
Fixpoint find_placeholder (quote : ascii) (text : cstr) : option (cstr * cstr) :=
  match text with
  | [] => None
  | c :: text' =>
      if outside quote c && Ascii.eqb c "?" then Some ([], text')
      else match find_placeholder (next_quote quote c) text' with
           | Some (l, r) => Some (c :: l, r)
           | None => None
           end
  end.

Definition apply_single_param (sql_text param : cstr) : result SqlError cstr :=
  match find_placeholder NUL sql_text with
  | None => fail «"--param was provided but no '?' placeholder was found"»
  | Some (prefix, suffix) => Ok (prefix ++ param ++ suffix)
  end.

Definition trim_statement (text : cstr) : cstr := trim text.

(** Blank out [--] comments outside quotes; [in_comment] is the inner loop. *)
Fixpoint strip_comments (quote : ascii) (in_comment : bool) (text : cstr) : cstr :=
  match text with
  | [] => []
  | c :: text' =>
      if in_comment then
        if Ascii.eqb c LF then c :: strip_comments NUL false text'
        else " "%char :: strip_comments NUL true text'
      else if outside quote c && Ascii.eqb c "-" && Ascii.eqb (peek text') "-" then
        " "%char :: strip_comments NUL true text'
      else c :: strip_comments (next_quote quote c) false text'
  end.

Definition strip_line_comments (sql_text : cstr) : cstr := strip_comments NUL false sql_text.

(** The statements: the text between semicolons outside quotes. *)
Fixpoint split_statements (quote : ascii) (current text : cstr) : list cstr :=
  match text with
  | [] => [current]
  | c :: text' =>
      if outside quote c && Ascii.eqb c ";" then current :: split_statements NUL [] text'
      else split_statements (next_quote quote c) (current ++ [c]) text'
  end.

Section Script.
Context `{RowIndex Idx}.

(** Run the statements in order; blank ones are skipped, the first error stops the script.  The
    second part is what was printed, the third whether a statement was run. *)
Fixpoint run_statements (w : World) (ctx : DbContext Idx) (out : cstr) (executed_any : bool) (stmts : list cstr)
    : result SqlError bool * cstr * DbContext Idx * World :=
  match stmts with
  | [] => (Ok executed_any, out, ctx, w)
  | s :: stmts' =>
      match trim_statement s with
      | [] => run_statements w ctx out executed_any stmts'
      | statement =>
          match parse_sql_text statement with
          | Err e => (Err e, out, ctx, w)
          | Ok q =>
              match execute_query w ctx q with
              | (Err e, ctx', w') => (Err e, out, ctx', w')
              | (Ok text, ctx', w') => run_statements w' ctx' (out ++ text) true stmts'
              end
          end
      end
  end.

Definition execute_sql_script (w : World) (ctx : DbContext Idx) (sql_text : cstr)
    : result SqlError () * cstr * DbContext Idx * World :=
  match run_statements w ctx [] false (split_statements NUL [] (strip_line_comments sql_text)) with
  | (Ok true, out, ctx', w') => (Ok (), out, ctx', w')
  | (Ok false, out, ctx', w') => (fail «"sql must not be empty"», out, ctx', w')
  | (Err e, out, ctx', w') => (Err e, out, ctx', w')
  end.

(** What [main] leaves: the exit code, standard output, standard error and the files. *)
Record Exit := mkExit { exit_code : Z; stdout : cstr; stderr : cstr; exit_world : World }.

Definition error_line (e : SqlError) : cstr := «"error: "» ++ message e ++ [LF].

Definition print_usage (program_name : cstr) : cstr :=
  «"usage: "» ++ program_name ++ «" --sql query.sql [--db ./data] [--explain]"» ++ [LF] ++
  «"       "» ++ program_name ++ dq «" --query 'SELECT * FROM users;' [--param 2] [--db ./data] [--explain]"» ++ [LF] ++
  «"       "» ++ program_name ++ «" --bench 1000000 [--db ./data]"» ++ [LF].

(** The SQL text of the options, with the parameter applied. *)
Definition main_text (w : World) (o : CliOptions) : result SqlError cstr :=
  text ← match query_text o with
         | Some q => Ok q
         | None => sql_read_text_file w (default [] (sql_path o))
         end;
  match param_value o with
  | Some p => apply_single_param text p
  | None => Ok text
  end.

Definition main_program (w : World) (times : BenchTimes) (program_name : cstr) (args : list cstr) : Exit :=
  match parse_cli_args args with
  | Err e => mkExit 1 [] (print_usage program_name ++ error_line e) w
  | Ok o =>
      let ctx := db_context_create (Idx := Idx) (option_db_root o) in
      if (0 <? bench_rows o)%Z then
        match (run_benchmark w ctx (bench_rows o) times).1 with
        | Err e => mkExit 1 [] (error_line e) w
        | Ok out => mkExit 0 out [] w
        end
      else
        match main_text w o with
        | Err e => mkExit 1 [] (error_line e) w
        | Ok sql =>
            match execute_sql_script w ctx sql with
            | (Ok _, out, _, w') => mkExit 0 out [] w'
            | (Err e, out, _, w') => mkExit 1 out (error_line e) w'
            end
        end
  end.

End Script.

(** ** Specification *)

(** The quote state after a text that has no semicolon and no comment outside quotes; [None]
    if it has one. *)
Fixpoint plain_scan (quote : ascii) (text : cstr) : option ascii :=
  match text with
  | [] => Some quote
  | c :: text' =>
      if outside quote c && (Ascii.eqb c ";" || (Ascii.eqb c "-" && Ascii.eqb (peek text') "-")) then None
      else plain_scan (next_quote quote c) text'
  end.

(** One statement of a script: balanced quotes, no semicolon and no comment outside them. *)
Definition plain_statement (s : cstr) : Prop := plain_scan NUL s = Some NUL.

(** ** Lemmas *)

Lemma strip_plain quote s rest :
  plain_scan quote s = Some NUL → Ascii.eqb (peek rest) "-" = false →
  strip_comments quote false (s ++ rest) = s ++ strip_comments NUL false rest.
Proof.
  intros Hs Hr. revert quote Hs. induction s as [|c s IH]; intros quote Hs; cbn [plain_scan] in Hs.
  { by injection Hs as ->. }
  cbn [app strip_comments]. destruct (outside quote c) eqn:Ho; cbn [andb] in *; [|f_equal; by apply IH].
  destruct (Ascii.eqb c ";") eqn:Hsemi; cbn [orb] in Hs; [done|].
  destruct (Ascii.eqb c "-") eqn:Hdash; cbn [andb] in *; [|f_equal; by apply IH].
  destruct s as [|d s]; cbn [app peek] in *.
  - rewrite Hr. f_equal. by apply (IH (next_quote quote c)).
  - destruct (Ascii.eqb d "-"); [done|]. f_equal. by apply IH.
Qed.

Lemma split_plain quote current s rest :
  plain_scan quote s = Some NUL →
  split_statements quote current (s ++ rest) = split_statements NUL (current ++ s) rest.
Proof.
  revert quote current. induction s as [|c s IH]; intros quote current Hs; cbn [plain_scan] in Hs.
  { injection Hs as ->. by rewrite app_nil_r. }
  cbn [app split_statements]. destruct (outside quote c); cbn [andb] in *.
  - destruct (Ascii.eqb c ";"); cbn [orb] in Hs; [done|]. destruct (_ && _); [done|].
    rewrite IH by done. by rewrite <- app_assoc.
  - rewrite IH by done. by rewrite <- app_assoc.
Qed.

Lemma join_cons2 sep (x y : cstr) l : join sep (x :: y :: l) = x ++ sep :: join sep (y :: l).
Proof. done. Qed.

(** A script of plain statements is split back into them. *)
Lemma split_script stmts :
  stmts ≠ [] → Forall plain_statement stmts →
  split_statements NUL [] (strip_line_comments (join ";" stmts)) = stmts.
Proof.
  intros Hne Hs. unfold strip_line_comments.
  assert (Hstrip : strip_comments NUL false (join ";" stmts) = join ";" stmts).
  { induction Hs as [|s stmts Hs Hrest IH]; [done|]. destruct stmts as [|s2 stmts].
    - cbn [join]. rewrite <- (app_nil_r s) at 1. rewrite strip_plain by done. by rewrite app_nil_r.
    - rewrite join_cons2, strip_plain by done. cbn [strip_comments].
      change (outside NUL ";" && Ascii.eqb ";" "-") with false. change (next_quote NUL ";") with NUL. cbn [andb].
      do 2 f_equal. by apply IH. }
  rewrite Hstrip. clear Hstrip. induction Hs as [|s stmts Hs Hrest IH]; [done|]. destruct stmts as [|s2 stmts].
  - cbn [join]. rewrite <- (app_nil_r s) at 1. by rewrite split_plain.
  - rewrite join_cons2, split_plain by done. cbn [split_statements app].
    change (outside NUL ";" && Ascii.eqb ";" ";") with true. cbn iota. by rewrite IH.
Qed.

(** The quote state after a text. *)
Definition quote_after (quote : ascii) (text : cstr) : ascii := fold_left next_quote text quote.

Lemma find_placeholder_spec quote text pre post :
  find_placeholder quote text = Some (pre, post) ↔
  text = pre ++ "?"%char :: post ∧ find_placeholder quote pre = None ∧ quote_after quote pre = NUL.
Proof.
  revert quote pre. induction text as [|c text IH]; intros quote pre.
  { simpl. split; [done|]. intros [H _]. by destruct pre. }
  cbn [find_placeholder]. destruct (outside quote c && Ascii.eqb c "?") eqn:Hhit.
  - apply andb_true_iff in Hhit as Hparts. destruct Hparts as [Ho Hc]. apply ascii_eqb_eq in Hc as ->.
    apply andb_true_iff in Ho as Hq. destruct Hq as [Hq _]. apply ascii_eqb_eq in Hq as ->. split.
    + by intros [= <- <-].
    + intros (Heq & Hnone & _). destruct pre as [|d pre]; [by injection Heq as ->|].
      injection Heq as <- _. cbn [find_placeholder] in Hnone. by rewrite Hhit in Hnone.
  - split.
    + destruct (find_placeholder (next_quote quote c) text) as [[l r]|] eqn:Hf; [|done]. intros [= <- <-].
      apply IH in Hf as (-> & Hn & Hq). cbn [find_placeholder app]. rewrite Hhit, Hn. done.
    + intros (Heq & Hnone & Hq). destruct pre as [|d pre].
      * injection Heq as -> ->. simpl in Hq. subst quote. done.
      * injection Heq as <- Heq. cbn [find_placeholder] in Hnone. rewrite Hhit in Hnone.
        destruct (find_placeholder (next_quote quote c) pre) as [[? ?]|] eqn:Hp; [done|].
        by rewrite (proj2 (IH (next_quote quote c) pre)).
Qed.

Lemma strip_comment c rest :
  LF ∉ c →
  strip_comments NUL true (c ++ LF :: rest) = replicate (length c) " "%char ++ LF :: strip_comments NUL false rest.
Proof.
  induction c as [|x c IH]; intros Hc; [done|]. cbn [app strip_comments length replicate].
  rewrite (proj2 (ascii_eqb_neq x LF)) by set_solver. f_equal. apply IH. set_solver.
Qed.

(** ** Lemmas: what a script keeps *)

Lemma run_statements_db_ok `{RowIndex Idx} w (ctx : DbContext Idx) out any stmts r out' ctx' w' :
  db_ok w ctx → run_statements w ctx out any stmts = (r, out', ctx', w') →
  db_ok w' ctx' ∧ db_root ctx' = db_root ctx ∧ files_grow w w' ∧ out `prefix_of` out'.
Proof.
  revert w ctx out any. induction stmts as [|s stmts IH]; intros w ctx out any Hok; cbn [run_statements].
  { intros [= _ <- <- <-]. done. }
  destruct (trim_statement s) as [|c st]; [by apply IH|].
  destruct (parse_sql_text (c :: st)) as [q|]; [|by intros [= _ <- <- <-]].
  destruct (execute_query w ctx q) as [[[text|e] ctx1] w1] eqn:Hq;
    destruct (execute_query_db_ok w ctx q _ ctx1 w1 Hok Hq) as (Hok1 & Hroot1 & Hgrow1).
  - intros Hrun. destruct (IH w1 ctx1 _ _ Hok1 Hrun) as (? & Hroot & Hgrow & Hout).
    split_and!; [done|congruence|by etrans|]. etrans; [|done]. by eexists.
  - intros [= _ <- <- <-]. done.
Qed.

(** ** Properties *)

(** C39. A script runs its statements in order.  Take any statements with balanced quotes that, outside
    their quotes, have no semicolon and no two dashes in a row (which begin a comment): their
    text, joined by semicolons, is executed as exactly those statements one after the other, the
    first error stopping it, with semicolons and dashes inside quotes left alone.  A script of
    blank statements only is an error.  After such a statement and a blank, a comment up to its
    line end is replaced by blanks of the same length. *)
Theorem script_runs_statements `{RowIndex Idx} w (ctx : DbContext Idx) stmts s comment rest :
  stmts ≠ [] → Forall plain_statement stmts → plain_statement s → LF ∉ comment →
  execute_sql_script w ctx (join ";" stmts) =
    match run_statements w ctx [] false stmts with
    | (Ok true, out, ctx', w') => (Ok (), out, ctx', w')
    | (Ok false, out, ctx', w') => (fail «"sql must not be empty"», out, ctx', w')
    | (Err e, out, ctx', w') => (Err e, out, ctx', w')
    end ∧
  strip_line_comments (s ++ " "%char :: «"--"» ++ comment ++ LF :: rest) =
    s ++ " "%char :: replicate (length comment + 2) " "%char ++ LF :: strip_line_comments rest.
Proof.
  intros Hne Hs Hplain Hc. split; [unfold execute_sql_script; by rewrite split_script|].
  unfold strip_line_comments. rewrite strip_plain by done. f_equal.
  change («"--"» ++ comment ++ LF :: rest) with ("-"%char :: ("-"%char :: comment) ++ LF :: rest).
  cbn [strip_comments]. change (outside NUL " " && Ascii.eqb " " "-") with false. cbn [andb].
  change (next_quote NUL " ") with NUL. change (outside NUL "-" && Ascii.eqb "-" "-") with true. cbn [andb app peek].
  change (Ascii.eqb "-" "-") with true. cbn iota.
  change ("-"%char :: comment ++ LF :: rest) with (("-"%char :: comment) ++ LF :: rest).
  rewrite strip_comment by set_solver. cbn [length]. by rewrite Nat.add_comm.
Qed.

Lemma script_runs_statements_witness :
  execute_sql_script sample_world sample_ctx
    (join ";" [«"INSERT INTO users VALUES ('a;b', 1)"»; «" SELECT * FROM users WHERE name = 'a;b'"»; []]) =
    match run_statements sample_world sample_ctx [] false
            [«"INSERT INTO users VALUES ('a;b', 1)"»; «" SELECT * FROM users WHERE name = 'a;b'"»; []] with
    | (Ok true, out, ctx', w') => (Ok (), out, ctx', w')
    | (Ok false, out, ctx', w') => (fail «"sql must not be empty"», out, ctx', w')
    | (Err e, out, ctx', w') => (Err e, out, ctx', w')
    end.
Proof.
  apply (script_runs_statements sample_world sample_ctx
    [«"INSERT INTO users VALUES ('a;b', 1)"»; «" SELECT * FROM users WHERE name = 'a;b'"»; []] [] [] []).
  - done.
  - repeat constructor.
  - done.
  - apply not_elem_of_nil.
Defined.

(** The parameter replaces the first question mark outside quotes and nothing else:
    substitution succeeds exactly when the text has such a placeholder, and the result is the
    text before it, the parameter and the text after it. *)
Theorem apply_single_param_spec text param r :
  apply_single_param text param = Ok r ↔
  ∃ pre post, text = pre ++ "?"%char :: post ∧ r = pre ++ param ++ post ∧
    find_placeholder NUL pre = None ∧ quote_after NUL pre = NUL.
Proof.
  unfold apply_single_param. split.
  - destruct (find_placeholder NUL text) as [[pre post]|] eqn:Hf; [|done]. intros [= <-].
    apply find_placeholder_spec in Hf as (-> & Hn & Hq). by exists pre, post.
  - intros (pre & post & Ht & -> & Hn & Hq).
    by rewrite (proj2 (find_placeholder_spec NUL text pre post)).
Qed.

(** Scripts keep the database consistent: whatever the text of a script, and wherever it
    stops, the context invariant holds afterwards, the schema files are untouched, and no file
    has lost a byte: every file is its old content with rows appended. *)
Theorem script_invariant `{RowIndex Idx} w (ctx : DbContext Idx) text r out ctx' w' :
  db_ok w ctx → execute_sql_script w ctx text = (r, out, ctx', w') →
  db_ok w' ctx' ∧ db_root ctx' = db_root ctx ∧ files_grow w w'.
Proof.
  intros Hok. unfold execute_sql_script.
  destruct (run_statements w ctx [] false _) as [[[r1 out1] ctx1] w1] eqn:Hrun.
  destruct (run_statements_db_ok w ctx [] false _ r1 out1 ctx1 w1 Hok Hrun) as (? & ? & ? & _).
  destruct r1 as [[]|]; by intros [= _ _ <- <-].
Qed.

Lemma sample_db_ok : db_ok sample_world sample_ctx.
Proof.
  constructor; [apply sample_ctx_ok| |apply Nat.ltb_lt; vm_compute; reflexivity].
  intros n content. cbn [files sample_world]. rewrite lookup_insert_Some, lookup_singleton_Some.
  intros [[Hp _]|[_ [_ <-]]].
  - exfalso. apply (paths_differ «"data"» n «"users"»); [|by rewrite Hp].
    apply Nat.ltb_lt. vm_compute. reflexivity.
  - apply Nat.leb_le. vm_compute. reflexivity.
Qed.

Lemma script_invariant_witness :
  let r := execute_sql_script sample_world sample_ctx «"INSERT INTO users VALUES ('a', 1); INSERT INTO users VALUES (1, 'b', 2); SELECT"» in
  r.1.1.1 = fail «"duplicate id: 1"» ∧ db_ok r.2 r.1.2 ∧ files_grow sample_world r.2.
Proof.
  intros r. assert (Hr : execute_sql_script sample_world sample_ctx
    «"INSERT INTO users VALUES ('a', 1); INSERT INTO users VALUES (1, 'b', 2); SELECT"» = (r.1.1.1, r.1.1.2, r.1.2, r.2))
    by (fold r; by destruct r as [[[? ?] ?] ?]).
  split; [vm_compute; reflexivity|].
  destruct (script_invariant _ _ _ _ _ _ _ sample_db_ok Hr) as (Hok & _ & Hgrow). split; [exact Hok|exact Hgrow].
Defined.

(** The exit code tells whether there was an error, and an error is reported on standard
    error only; a benchmark changes no file. *)
Theorem main_exit_code `{RowIndex Idx} w times name args :
  let e := main_program (Idx := Idx) w times name args in
  (exit_code e = 0%Z ∧ stderr e = [] ∨ exit_code e = 1%Z ∧ stderr e ≠ []) ∧
  ∀ o, parse_cli_args args = Ok o → (0 < bench_rows o)%Z → exit_world e = w.
Proof.
  assert (Herr : ∀ e, error_line e ≠ []) by done.
  intros e. unfold e, main_program. destruct (parse_cli_args args) as [o|er]; [|split; [right; split; [done|]|done]].
  - destruct (Z.ltb_spec 0 (bench_rows o)) as [Hb|Hb].
    + destruct (run_benchmark w _ (bench_rows o) times).1; simpl; split; auto.
    + destruct (main_text w o) as [sql|]; simpl; [|split; [auto|intros ? [= <-]; lia]].
      destruct (execute_sql_script w _ sql) as [[[[]? ] ?] ?]; simpl; (split; [auto|intros ? [= <-]; lia]).
  - simpl. unfold print_usage. by destruct name.
Qed.
