(* ===== verification/MainMemory.v ===== *)
(** * [src/src/runtime/main.c]: the memory of the command-line program

    [main] again, with the memory it takes: the context, the text, the resolved text, the queries
    and what the executor takes.  Any request can fail.  The files stay as they are but for the
    rows that the script appends, so that what is asked of the schema files at the start holds
    throughout the run. *)

From stdpp Require Import base list strings sets gmap.
From Stdlib Require Import Ascii.
From S2P Require Import Prelude CString Common Memory Parser Index BPTree Schema Storage DbContext Executor Benchmark Main.
From S2P Require Import ParserMemory SchemaMemory StorageMemory ContextMemory ExecutorMemory Restart.

Local Open Scope nat_scope.

(** ** The text *)

Definition apply_single_param_mem (source : ostr) (param : cstr) : M (result SqlError () * ostr) :=
  match apply_single_param (text source) param with
  | Err e => mret (Err e, source)
  | Ok txt =>
      resolved ← malloc;
      match resolved with
      | None => mret (fail «"failed to allocate resolved query"», source)
      | Some p => _ ← release (block source); mret (Ok (), mkOstr p txt)
      end
  end.

(** ** The script *)

Fixpoint run_statements_mem (w : World) (m : MContext) (out : cstr) (executed_any : bool) (stmts : list cstr)
    : M (result SqlError bool * cstr * MContext * World) :=
  match stmts with
  | [] => mret (Ok executed_any, out, m, w)
  | s :: stmts' =>
      match trim_statement s with
      | [] => run_statements_mem w m out executed_any stmts'
      | statement =>
          '(r, q) ← parse_sql_text_mem statement zero_query;
          match r with
          | Err e => _ ← free_query q; mret (Err e, out, m, w)
          | Ok _ =>
              '(r, m, w) ← execute_query_mem w m (query_of q);
              _ ← free_query q;
              match r with
              | Err e => mret (Err e, out, m, w)
              | Ok printed => run_statements_mem w m (out ++ printed) true stmts'
              end
          end
      end
  end.

Definition execute_sql_script_mem (w : World) (m : MContext) (sql_text : cstr) : M (result SqlError () * cstr * MContext * World) :=
  '(r, out, m, w) ← run_statements_mem w m [] false (split_statements NUL [] (strip_line_comments sql_text));
  mret (match r with Ok true => Ok () | Ok false => fail «"sql must not be empty"» | Err e => Err e end, out, m, w).

(** ** The benchmark *)

Definition run_benchmark_mem (w : World) (m : MContext) (iterations : Z) (times : BenchTimes)
    : M (result SqlError cstr * MContext) :=
  '(r, m) ← db_context_get_table_mem w m «"users"»;
  match r with
  | Err e => mret (Err e, m)
  | Ok i => mret (match mc_tables m !! i with Some t => Ok (benchmark_table (table_of t) iterations times) | None => Ok [] end, m)
  end.

(** ** The program *)

Definition main_text_mem (w : World) (o : CliOptions) : M (result SqlError ostr) :=
  match query_text o with
  | Some q =>
      sql ← sql_strdup q;
      match sql with Some sql => mret (Ok sql) | None => mret (fail «"failed to allocate query text"») end
  | None => sql_read_text_file_mem w (default [] (sql_path o))
  end.

(** From the SQL text on. *)
Definition main_script_mem (w : World) (m : MContext) (o : CliOptions) (sql : ostr) : M Exit :=
  '(r, sql) ← match param_value o with
              | Some p => apply_single_param_mem sql p
              | None => mret (Ok (), sql)
              end;
  match r with
  | Err e =>
      _ ← release (block sql);
      _ ← db_context_destroy m;
      mret (mkExit 1 [] (error_line e) w)
  | Ok _ =>
      '(r, out, m, w) ← execute_sql_script_mem w m (text sql);
      _ ← release (block sql);
      _ ← db_context_destroy m;
      mret (match r with Ok _ => mkExit 0 out [] w | Err e => mkExit 1 out (error_line e) w end)
  end.

Definition main_program_mem (w : World) (times : BenchTimes) (program_name : cstr) (args : list cstr) : M Exit :=
  match parse_cli_args args with
  | Err e => mret (mkExit 1 [] (print_usage program_name ++ error_line e) w)
  | Ok o =>
      r ← db_context_create_mem (option_db_root o);
      match r with
      | Err e => mret (mkExit 1 [] (error_line e) w)
      | Ok m =>
          if (0 <? bench_rows o)%Z then
            '(r, m) ← run_benchmark_mem w m (bench_rows o) times;
            _ ← db_context_destroy m;
            mret (match r with Err e => mkExit 1 [] (error_line e) w | Ok out => mkExit 0 out [] w end)
          else
            r ← main_text_mem w o;
            match r with
            | Err e => _ ← db_context_destroy m; mret (mkExit 1 [] (error_line e) w)
            | Ok sql => main_script_mem w m o sql
            end
      end
  end.

(** ** Specification *)

(** The loaded tables have the schemas of their files. *)
Definition schemas_kept (w : World) (ctx : DbContext BPTree) : Prop :=
  ∀ t, t ∈ tables ctx → load_schema w (db_root ctx) (name t) = Ok (schema t).

(** What is asked of the files and of the context during a run. *)
Record run_ok (w : World) (ctx : DbContext BPTree) : Prop := {
  run_db_ok : db_ok w ctx;
  run_tidy : ∀ n, tidy_file w (db_root ctx) n;
  run_schemas : schemas_kept w ctx
}.

(** The names of the tables of a script fit the buffer. *)
Definition names_fit (stmts : list cstr) : Prop :=
  Forall (λ s, ∀ q, parse_sql_text (trim_statement s) = Ok q → name_fits (table_name q)) stmts.

(** The script that the options give, if they give one. *)
Definition cli_script (w : World) (args : list cstr) : list cstr :=
  match parse_cli_args args with
  | Ok o => match main_text w o with Ok sql => split_statements NUL [] (strip_line_comments sql) | Err _ => [] end
  | Err _ => []
  end.

(** The schema files of the database are tidy and its path fits. *)
Definition cli_files (w : World) (args : list cstr) : Prop :=
  ∀ o, parse_cli_args args = Ok o →
    let root := bounded SQL_PATH_BUFFER_SIZE (option_db_root o) in
    length root + 2 < SQL_PATH_BUFFER_SIZE ∧ ∀ n, single_columns_line w root n ∧ tidy_file w root n.

(** ** Lemmas: the files during a run *)

Lemma append_keeps_loads w db n fields w' m :
  length db + 2 < SQL_PATH_BUFFER_SIZE → append_csv_row w db n fields = Ok w' →
  sql_read_text_file w' (schema_path db m) = sql_read_text_file w (schema_path db m).
Proof.
  intros Hl [_ ->]%append_csv_row_Ok. unfold sql_read_text_file. simpl.
  by rewrite lookup_insert_ne by (intros He; by apply (paths_differ db m n Hl)).
Qed.

Lemma schemas_stable w ctx n : schemas_kept w ctx → columns_stable w ctx n.
Proof. intros Hk t s Ht <- Hs. rewrite (Hk t Ht) in Hs. by injection Hs as <-. Qed.

Lemma bounded_fits n : name_fits n → bounded TABLE_NAME_SIZE n = n.
Proof. unfold name_fits, bounded. intros Hn. apply take_ge. lia. Qed.

Lemma schemas_get_table w ctx n r ctx' :
  name_fits n → schemas_kept w ctx → db_context_get_table w ctx n = (r, ctx') → schemas_kept w ctx'.
Proof.
  intros Hn Hk. unfold db_context_get_table. destruct (find_table _ _); [by intros [= _ <-]|].
  destruct (table_state_load w (db_root ctx) n) as [t|] eqn:Hl; intros [= _ <-]; [|done].
  apply table_state_load_inv in Hl as (Hs & _ & _ & _ & Hname & _). intros t' Ht'. assert (t' ∈ tables ctx ∨ t' = t) as [Ht| ->] by set_solver; [by apply Hk|].
  simpl. rewrite Hname. by rewrite (bounded_fits n Hn).
Qed.

(** A query keeps all of it. *)
Lemma run_ok_query w ctx q r ctx' w' :
  name_fits (table_name q) → run_ok w ctx → execute_query w ctx q = (r, ctx', w') →
  run_ok w' ctx' ∧ db_root ctx' = db_root ctx ∧ files_grow w w'.
Proof.
  intros Hn [Hdb Htidy Hk] Hq. destruct (execute_query_db_ok w ctx q r ctx' w' Hdb Hq) as (Hdb' & Hroot & Hgrow).
  split_and!; [|done|done]. destruct Hdb as [Hctx Hsingle Hl]. constructor; [done|rewrite Hroot; intros n|].
  - destruct (execute_query_files w ctx q r ctx' w') as [-> |[fields Ha]]; [done..|].
    intros content. rewrite (append_keeps_loads _ _ _ _ _ _ Hl Ha). apply Htidy.
  - unfold execute_query in Hq. destruct (query_type q).
    + destruct (execute_insert_cases w ctx q r ctx' w') as (_ & Hroot1 & Hcases); [|done|done|].
      { intros t (Hs & _)%table_state_load_inv. by eapply load_schema_schema_ok. }
      destruct (db_context_get_table w ctx (table_name q)) as [g ctx1] eqn:Hg. simpl in *.
      assert (Hk1 : schemas_kept w ctx1) by (by eapply schemas_get_table).
      destruct Hcases as [(e & _ & -> & ->)|(i & t & fields & _ & Hi & _ & _ & _ & _ & t' & Hins & -> & Ha)]; [done|].
      intros t2 Ht2. simpl in *. rewrite Hroot1 in *. rewrite (load_schema_append _ _ _ _ _ _ Hl Ha).
      apply list_elem_of_lookup in Ht2 as [j Hj].
      apply list_lookup_insert_Some in Hj as [(<- & <- & _)|[_ Hj]].
      * rewrite (inserted_name _ _ _ Hins), (inserted_schema _ _ _ Hins), <- Hroot1. apply Hk1. by eapply list_elem_of_lookup_2.
      * rewrite <- Hroot1. apply Hk1. by eapply list_elem_of_lookup_2.
    + unfold execute_select in Hq. destruct (db_context_get_table w ctx (table_name q)) as [[i|e] ctx1] eqn:Hg; simplify_eq;
        by eapply schemas_get_table.
Qed.

(** ** Lemmas: the memory *)

Lemma triple_apply_param source param :
  triple [block source] (apply_single_param_mem source param) (λ '(_, s), [block s])
    (λ '(r, s), match r with Ok _ => apply_single_param (text source) param = Ok (text s) | Err _ => True end)
    (λ '(r, _), match r with Err e => apply_single_param (text source) param = Err e | Ok _ => True end).
Proof.
  unfold apply_single_param_mem. destruct (apply_single_param (text source) param) as [txt|e]; [|by finish].
  call triple_acquire with [block source] as [p|] _; [|by finish; intros [? ?]].
  call triple_release with [p]. by finish.
Qed.

(** A query that could not be parsed owns nothing. *)
Lemma triple_free_unparsed q F :
  q = zero_query ∨ empty_query q → triple F (free_query q) (λ _, F) (λ _, True) (λ _, True).
Proof.
  intros Hq. eapply triple_conseq; [apply (triple_frame _ F), triple_free_query| |].
  - by destruct Hq as [-> |(t & vt & ->)].
  - intros a _. by split_and!.
Qed.

Lemma written_grows w w' root n : written w w' root n → files_grow w w'.
Proof. intros [-> |[fields Ha]]; [done|by eapply append_files_grow]. Qed.

Lemma leaks_run_statements w m ctx out any stmts :
  same_context m ctx → run_ok w ctx → names_fit stmts →
  leaks (context_blocks m) (run_statements_mem w m out any stmts) (λ '(_, _, m', _), context_blocks m')
    (λ '(r, out', m', w') leak, files_grow w w' ∧
       (is_ok r = true → leak = [] ∧ ∃ ctx', run_statements w ctx out any stmts = (r, out', ctx', w') ∧ same_context m' ctx'))
    (λ '(r, out', m', w') leak,
       leak = [] ∧ ∃ ctx', run_statements w ctx out any stmts = (r, out', ctx', w') ∧ same_context m' ctx').
Proof.
  revert w m ctx out any. induction stmts as [|s stmts IH]; intros w m ctx out any Hctx Hrun Hfit; cbn [run_statements_mem run_statements].
  { apply (leaks_ret _ _ _ []); simpl; [by rewrite (right_id_L [] (++))|split; [done|eauto]|eauto]. }
  apply Forall_cons in Hfit as [Hn Hfit]. destruct (trim_statement s) as [|c st] eqn:Hst; [by apply IH|].
  set (statement := c :: st) in *. clearbody statement.
  call triple_parse_sql_text with (context_blocks m) as [[[]|e] q] Hq.
  2: { eapply leaks_seq_triple; [by apply (triple_free_unparsed q (context_blocks m))|by rewrite (right_id_L [] (++))|].
       intros ? _. apply (leaks_ret _ _ _ []); simpl; rewrite ?(right_id_L [] (++)); [done|split; done|].
       intros _ He. rewrite He. eauto. }
  destruct Hq as (pq & Hpq & <-%denotes_query_of). rewrite Hpq. specialize (Hn _ Hpq).
  eapply (leaks_seq (query_blocks q)).
  { apply (leaks_execute_query w m ctx (query_of q)); [done|apply Hrun|apply schemas_stable, Hrun|apply Hrun]. }
  { solve_Permutation. }
  intros [[r m1] w1] leak [Hw Hok]. apply written_grows in Hw.
  call triple_free_query with (context_blocks m1) as ? _.
  destruct r as [printed|e].
  - destruct (Hok eq_refl) as (-> & ctx1 & Hexec & Hctx1). rewrite Hexec.
    destruct (run_ok_query w ctx _ _ _ _ Hn Hrun Hexec) as (Hrun1 & _ & _).
    eapply leaks_conseq; [by apply IH|simpl; by rewrite ?(right_id_L [] (++))|].
    intros [[[r2 out2] m2] w2] l [Hg Hr]. split_and!; [done|by etrans|done|auto].
  - apply (leaks_ret _ _ _ []); simpl; rewrite ?(right_id_L [] (++)); [done|split; done|].
    intros _ (-> & ctx1 & Hexec & Hctx1) _. rewrite Hexec. eauto.
Qed.

Lemma leaks_script w m ctx sql :
  same_context m ctx → run_ok w ctx → names_fit (split_statements NUL [] (strip_line_comments sql)) →
  leaks (context_blocks m) (execute_sql_script_mem w m sql) (λ '(_, _, m', _), context_blocks m')
    (λ '(r, out, m', w') leak, files_grow w w' ∧
       (is_ok r = true → leak = [] ∧ ∃ ctx', execute_sql_script w ctx sql = (r, out, ctx', w')))
    (λ '(r, out, m', w') leak, leak = [] ∧ ∃ ctx', execute_sql_script w ctx sql = (r, out, ctx', w')).
Proof.
  intros Hctx Hrun Hfit. unfold execute_sql_script_mem, execute_sql_script.
  eapply (leaks_seq []); [by apply (leaks_run_statements w m ctx)|by rewrite (right_id_L [] (++))|].
  intros [[[r out] m'] w'] leak [Hg Hok].
  apply (leaks_ret _ _ _ []); simpl; rewrite ?(right_id_L [] (++)); [done| |].
  - split; [done|]. destruct r as [[|]|e]; [|done|done]. intros _. destruct (Hok eq_refl) as (-> & ctx' & -> & _). eauto.
  - intros (-> & ctx' & -> & _). destruct r as [[|]|e]; eauto.
Qed.

(** The benchmark reads of a table in memory what it reads of the table. *)
Lemma benchmark_table_same t t0 iterations times :
  same_table t t0 → benchmark_table (table_of t) iterations times = benchmark_table t0 iterations times.
Proof.
  intros Hsame. destruct (table_of_same t t0 [] Hsame) as (_ & Hsearch & _). destruct Hsame as (_ & Hs & Hr & _).
  assert (Hprobed : ∀ i, probed (table_of t) i = probed t0 i) by (intros i; unfold probed; cbn [rowset table_of]; by rewrite Hr).
  assert (Hindex : ∀ n i hits, index_loop n (table_of t) i hits = index_loop n t0 i hits).
  { induction n as [|n IH]; intros i hits; [done|]. cbn [index_loop]. rewrite Hprobed, IH.
    change (index_search (index (table_of t))) with (bptree_search (index (table_of t))). rewrite Hsearch.
    cbn [schema table_of]. by rewrite Hs. }
  assert (Hlinear : ∀ n i c, linear_loop n (table_of t) i c = linear_loop n t0 i c).
  { induction n as [|n IH]; intros i c; [done|]. cbn [linear_loop]. rewrite Hprobed, IH. cbn [rowset table_of]. by rewrite Hr. }
  unfold benchmark_table. rewrite Hindex, Hlinear. cbn [rowset table_of]. by rewrite Hr.
Qed.

Lemma leaks_benchmark w m ctx iterations times :
  same_context m ctx → tidy_file w (db_root ctx) «"users"» →
  leaks (context_blocks m) (run_benchmark_mem w m iterations times) (λ '(_, m'), context_blocks m')
    (λ '(r, _) leak, is_ok r = true → leak = [] ∧ (run_benchmark w ctx iterations times).1 = r)
    (λ '(r, _) leak, leak = [] ∧ (run_benchmark w ctx iterations times).1 = r).
Proof.
  intros Hctx Htidy. unfold run_benchmark_mem, run_benchmark. pose proof (proj1 Hctx) as Hrt.
  eapply (leaks_seq []); [apply leaks_get_table|by rewrite (right_id_L [] (++))|]. rewrite Hrt.
  intros [[i|e] m'] leak (Hl & Hroot' & Hsame); specialize (Hsame ctx Hctx).
  - destruct (Hl Htidy) as [-> |(e & ? & _)]; [|done]. destruct Hsame as (ctx' & Hget & Hctx'). rewrite Hget. simpl.
    destruct (got_table _ _ _ _ _ _ Hget Hctx') as (t & t0 & Ht & Ht0 & Hs). rewrite Ht, Ht0, (benchmark_table_same t t0 _ _ Hs).
    apply (leaks_ret _ _ _ []); simpl; rewrite ?(right_id_L [] (++)); done.
  - apply (leaks_ret _ _ _ []); simpl; rewrite ?(right_id_L [] (++)); [done|done|].
    intros [Hl' HR]. split; [by apply Hl'|]. by rewrite (HR ctx Hctx).
Qed.

(** ** Lemmas: the program *)

(** The program ends with this result when no request fails; nothing is left then, nor when it
    reports success. *)
Definition ends (w : World) (pure : Exit) (x : Exit) (leak : list nat) : Prop :=
  files_grow w (exit_world x) ∧ (exit_code x = 0%Z → leak = [] ∧ x = pure).

Lemma run_ok_start w root :
  length (bounded SQL_PATH_BUFFER_SIZE root) + 2 < SQL_PATH_BUFFER_SIZE →
  (∀ n, single_columns_line w (bounded SQL_PATH_BUFFER_SIZE root) n ∧ tidy_file w (bounded SQL_PATH_BUFFER_SIZE root) n) →
  run_ok w (db_context_create root).
Proof.
  intros Hl Hn. constructor; [constructor|..]; simpl; [constructor|by apply Hn|done|by apply Hn|].
  intros t Ht. by apply not_elem_of_nil in Ht.
Qed.

Lemma triple_main_text w o :
  triple [] (main_text_mem w o) (λ r, match r with Ok s => [block s] | Err _ => [] end)
    (λ r, match r with
          | Ok s => match query_text o with Some q => Ok q | None => sql_read_text_file w (default [] (sql_path o)) end = Ok (text s)
          | Err _ => True
          end)
    (λ r, match r with
          | Err e => match query_text o with Some q => Ok q | None => sql_read_text_file w (default [] (sql_path o)) end = Err e
          | Ok _ => True
          end).
Proof.
  unfold main_text_mem. destruct (query_text o) as [q|]; [|apply triple_read_text_file].
  call triple_strdup with (@nil nat) as [sql|] Hs; finish. by rewrite (Hs sql).
Qed.

(** What [main] does with the text [sql]. *)
Definition script_exit (w : World) (ctx : DbContext BPTree) (o : CliOptions) (sql : cstr) : Exit :=
  match match param_value o with Some p => apply_single_param sql p | None => Ok sql end with
  | Err e => mkExit 1 [] (error_line e) w
  | Ok sql =>
      match execute_sql_script w ctx sql with
      | (Ok _, out, _, w') => mkExit 0 out [] w'
      | (Err e, out, _, w') => mkExit 1 out (error_line e) w'
      end
  end.

Lemma leaks_main_script w m ctx o sql :
  same_context m ctx → run_ok w ctx →
  (∀ txt, match param_value o with Some p => apply_single_param (text sql) p | None => Ok (text sql) end = Ok txt →
     names_fit (split_statements NUL [] (strip_line_comments txt))) →
  leaks (block sql :: context_blocks m) (main_script_mem w m o sql) (λ _, [])
    (ends w (script_exit w ctx o (text sql))) (λ x leak, leak = [] ∧ x = script_exit w ctx o (text sql)).
Proof.
  intros Hctx Hrun Hfit. unfold main_script_mem, script_exit, ends.
  eapply (leaks_seq_triple (context_blocks m) _ _ _ [block sql] (λ '(_, s), [block s]) _
    (λ '(r, s), match r with
       | Ok _ => match param_value o with Some p => apply_single_param (text sql) p | None => Ok (text sql) end = Ok (text s)
       | Err _ => True end)
    (λ '(r, s), match r with
       | Err e => match param_value o with Some p => apply_single_param (text sql) p | None => Ok (text sql) end = Err e
       | Ok _ => True end)).
  { destruct (param_value o); [apply triple_apply_param|by finish]. }
  { done. }
  intros [[[]|e] s] Hs; simpl.
  - rewrite Hs. eapply (leaks_seq [block s]); [by apply (leaks_script w m ctx); auto|solve_Permutation|].
    intros [[[r out] m1] w1] leak [Hg Hok].
    call triple_release with (context_blocks m1). call triple_context_destroy with (@nil nat).
    apply (leaks_ret _ _ _ []); simpl; rewrite ?(right_id_L [] (++)); [done| |].
    + destruct r as [[]|e]; simpl; (split; [done|]); [|done]. intros _. destruct (Hok eq_refl) as (-> & ctx1 & ->). done.
    + intros _ _ (-> & ctx1 & ->) _. split; [done|]. by destruct r as [[]|e].
  - call triple_release with (context_blocks m). call triple_context_destroy with (@nil nat).
    apply (leaks_ret _ _ _ []); simpl; [done|split; done|]. intros _ _ He. by rewrite He.
Qed.

Lemma triple_context_create root :
  triple [] (db_context_create_mem root) (λ r, match r with Ok m => context_blocks m | Err _ => [] end)
    (λ r, match r with Ok m => same_context m (db_context_create root) | Err _ => True end) (λ r, is_ok r = true).
Proof.
  unfold db_context_create_mem, db_context_create. set (r := bounded SQL_PATH_BUFFER_SIZE root). clearbody r.
  call triple_acquire with (@nil nat) as [b|] _; finish; by split.
Qed.

Lemma leaks_main w times program_name args :
  cli_files w args → names_fit (cli_script w args) →
  leaks [] (main_program_mem w times program_name args) (λ _, [])
    (ends w (main_program (Idx := BPTree) w times program_name args))
    (λ x leak, leak = [] ∧ x = main_program (Idx := BPTree) w times program_name args).
Proof.
  unfold cli_files, cli_script, main_program_mem, main_program. intros Hfiles Hfit.
  destruct (parse_cli_args args) as [o|e]; [|apply (leaks_ret _ _ _ []); [done|split; done|done]].
  destruct (Hfiles o eq_refl) as [Hl Hn]. clear Hfiles.
  pose proof (run_ok_start w (option_db_root o) Hl Hn) as Hrun.
  call triple_context_create with (@nil nat) as [m|e] Hctx; [|by apply (leaks_ret _ _ _ []); [|split|]].
  set (ctx := db_context_create (option_db_root o)) in *. clearbody ctx. clear Hl Hn.
  destruct (0 <? bench_rows o)%Z.
  - eapply (leaks_seq []); [apply (leaks_benchmark w m ctx); [done|apply Hrun]|by rewrite ?(right_id_L [] (++))|].
    intros [r m1] leak Hok. call triple_context_destroy with (@nil nat).
    apply (leaks_ret _ _ _ []); simpl; rewrite ?(right_id_L [] (++)); [done| |].
    + destruct r as [out|e]; (split; [done|]); [|done]. intros _. by destruct (Hok eq_refl) as [-> ->].
    + intros _ [-> ->] _. by destruct r.
  - call triple_main_text with (context_blocks m) as [sql|e] Hsql.
    + assert (Hmt : main_text w o = match param_value o with Some p => apply_single_param (text sql) p | None => Ok (text sql) end).
      { unfold main_text. rewrite Hsql. done. }
      rewrite Hmt in *. eapply leaks_conseq; [apply (leaks_main_script w m ctx o sql Hctx Hrun)|simpl; solve_Permutation|].
      { intros txt Htxt. by rewrite Htxt in Hfit. }
      intros x l [Hg H0]. split_and!; [done|by split|auto].
    + call triple_context_destroy with (@nil nat). apply (leaks_ret _ _ _ []); simpl; [done|split; done|].
      intros _ He _. unfold main_text. by rewrite He.
Qed.

(** ** Properties *)

(** C40. The command-line program with failing allocations, for a database under a root of fewer than
    4094 bytes whose schema files have at most one [columns] line and are tidy (no [columns] or
    [pkey] assigned twice, a colon in every entry of [columns]), and a script whose table
    names have fewer than 256 bytes.  Whatever requests fail, nothing is given back twice and no
    file loses a byte.  If the
    exit code is 0, or if no request fails, then at exit everything is given back and the exit
    code, the output and the files are those of [Main.main_program]: a run that reports success
    has done all of the script. *)
Theorem main_memory (w : World) (times : BenchTimes) (program_name : cstr) (args : list cstr) (mem : Mem) :
  mem_ok mem → cli_files w args → names_fit (cli_script w args) →
  let '(x, mem') := main_program_mem w times program_name args mem in
  mem_ok mem' ∧ files_grow w (exit_world x) ∧ (∃ leak, held mem' ≡ₚ leak ++ held mem) ∧
  (exit_code x = 0%Z ∨ all_succeed mem →
     held mem' ≡ₚ held mem ∧ x = main_program (Idx := BPTree) w times program_name args).
Proof.
  intros Hm Hfiles Hfit.
  destruct (leaks_main w times program_name args Hfiles Hfit mem (held mem) Hm) as (leak & Hm1 & Hh & [Hg H0] & HR); [done|].
  destruct (main_program_mem w times program_name args mem) as [x mem']; simpl in *.
  split_and!; [done|done|by eexists|]. intros [Hx|Hall].
  - by destruct (H0 Hx) as [-> ->].
  - by destruct (HR Hall) as (_ & -> & ->).
Qed.

(** ** Examples *)

Definition sample_args : list cstr := [«"--query"»; «"INSERT INTO users VALUES (8, ?, 31); SELECT * FROM users"»; «"--param"»; «"park"»; «"--db"»; «"data"»].
Definition no_times : BenchTimes := mkBenchTimes [] [] [] [] (λ _ _, []).

Lemma sample_files_tidy n : single_columns_line sample_world «"data"» n ∧ tidy_file sample_world «"data"» n.
Proof.
  split; [apply (db_schemas _ _ sample_db_ok)|]. intros content Hc. apply users_file_tidy.
  unfold sql_read_text_file in *. destruct (files sample_world !! schema_path «"data"» n) as [c|] eqn:Hf; [|done].
  cbn [files sample_world] in Hf. apply lookup_insert_Some in Hf as [[Hp _]|[_ Hf]].
  - exfalso. apply (paths_differ «"data"» n «"users"»); [|by rewrite Hp]. apply Nat.ltb_lt. vm_compute. reflexivity.
  - apply lookup_singleton_Some in Hf as [_ <-]. rewrite <- Hc. vm_compute. reflexivity.
Qed.

Lemma sample_cli_files : cli_files sample_world sample_args.
Proof.
  intros o Ho. vm_compute in Ho. injection Ho as <-.
  intros root. assert (Hroot : root = «"data"») by (vm_compute; reflexivity). clearbody root. subst root.
  split; [apply Nat.ltb_lt; vm_compute; reflexivity|exact sample_files_tidy].
Qed.

Lemma sample_names_fit : names_fit (cli_script sample_world sample_args).
Proof.
  set (l := cli_script sample_world sample_args). vm_compute in l. subst l.
  unfold names_fit. repeat (apply Forall_cons; split;
    [intros q Hq; vm_compute in Hq; injection Hq as <-; apply Nat.ltb_lt; vm_compute; reflexivity|]). apply Forall_nil_2.
Qed.

(** The third field cannot be copied: the script stops with exit code 1, and nothing is leaked. *)
Lemma main_memory_witness :
  let mem := mkMem [] 0 (replicate 45 true ++ [false]) false in
  let '(x, mem') := main_program_mem sample_world no_times «"minisql"» sample_args mem in
  mem_ok mem' ∧ files_grow sample_world (exit_world x) ∧ (∃ leak, held mem' ≡ₚ leak ++ held mem) ∧
  (exit_code x = 0%Z ∨ all_succeed mem →
     held mem' ≡ₚ held mem ∧ x = main_program (Idx := BPTree) sample_world no_times «"minisql"» sample_args).
Proof.
  intros mem. apply (main_memory sample_world no_times «"minisql"» sample_args mem).
  - split_and!; [reflexivity|constructor|constructor].
  - exact sample_cli_files.
  - exact sample_names_fit.
Defined.
