(* ===== verification/SqlService.v ===== *)
(** * [src/src/server/request/sql_service.c]: SQL requests of the API server

    Classification of a statement as a read or a write (it decides which lock the request
    takes), the growing JSON buffer, the payloads, and [sql_service_execute]. *)

From stdpp Require Import base list strings sets gmap.
From Stdlib Require Import Ascii.
From S2P Require Import Prelude CString Common Parser Index BPTree Schema Json Storage DbContext Executor.

(** ** Classification *)

Inductive SqlOperationKind := SQL_OPERATION_UNKNOWN | SQL_OPERATION_READ | SQL_OPERATION_WRITE.

#[export] Instance SqlOperationKind_eq_dec : EqDecision SqlOperationKind.
Proof. solve_decision. Defined.

Definition not_newline (c : ascii) : bool := negb (Ascii.eqb c NUL) && negb (Ascii.eqb c LF).

(** The loop over blanks, [--] comments and semicolons; every round but the last consumes a
    character.  [None] only when [fuel] runs out. *)
Fixpoint skip_prefix_loop (fuel : nat) (cursor : cstr) : option cstr :=
  match fuel with
  | O => None
  | S fuel =>
      let cursor := drop_while isspace cursor in
      if Ascii.eqb (peek cursor) "-" && Ascii.eqb (peek (tail cursor)) "-" then
        skip_prefix_loop fuel (drop_while not_newline (tail (tail cursor)))
      else if Ascii.eqb (peek cursor) ";" then skip_prefix_loop fuel (tail cursor)
      else Some cursor
  end.

Definition skip_sql_prefix (sql_text : cstr) : cstr :=
  default sql_text (skip_prefix_loop (S (length sql_text)) sql_text).

Definition is_sql_identifier_char (ch : ascii) : bool := isalnum ch || Ascii.eqb ch "_".

Fixpoint matches_keyword (text keyword : cstr) : bool :=
  match keyword with
  | [] => negb (is_sql_identifier_char (peek text))
  | k :: keyword' =>
      if negb (Ascii.eqb (toupper (peek text)) k) then false else matches_keyword (tail text) keyword'
  end.

(** The operation is [SQL_OPERATION_UNKNOWN] exactly on the error results. *)
Definition sql_service_classify_operation (sql_text : cstr) : result SqlError SqlOperationKind :=
  let cursor := skip_sql_prefix sql_text in
  if Ascii.eqb (peek cursor) NUL then fail «"sql_service_classify_operation received empty SQL"»
  else if matches_keyword cursor «"SELECT"» then Ok SQL_OPERATION_READ
  else if matches_keyword cursor «"INSERT"» then Ok SQL_OPERATION_WRITE
  else fail «"sql_service_classify_operation could not classify SQL"».

(** ** The JSON buffer *)

(** [length] is the length of [data]; [capacity] counts the bytes allocated. *)
Record JsonBuffer := mkJsonBuffer { data : cstr; capacity : N }.

Definition json_empty : JsonBuffer := mkJsonBuffer [] 0.

(** The doubling loop; 64 doublings of a positive [size_t] pass any other one. *)
Fixpoint grow_capacity (fuel : nat) (next_capacity needed : N) : N :=
  match fuel with
  | O => next_capacity
  | S fuel =>
      if (next_capacity <? needed)%N then
        if (SIZE_MAX / 2 <? next_capacity)%N then needed else grow_capacity fuel (next_capacity * 2) needed
      else next_capacity
  end.

Definition json_buffer_reserve (buffer : JsonBuffer) (additional : N) : result SqlError JsonBuffer :=
  let len := N.of_nat (length (data buffer)) in
  if (SIZE_MAX - len - 1 <? additional)%N then fail «"JSON payload is too large"»
  else
    let needed := (len + additional + 1)%N in
    if (needed <=? capacity buffer)%N then Ok buffer
    else
      let start := if (capacity buffer =? 0)%N then 128%N else capacity buffer in
      Ok (mkJsonBuffer (data buffer) (grow_capacity 64 start needed)).

Definition json_buffer_append_raw (buffer : JsonBuffer) (text : cstr) : result SqlError JsonBuffer :=
  b ← json_buffer_reserve buffer (N.of_nat (length text));
  Ok (mkJsonBuffer (data b ++ text) (capacity b)).

Definition json_buffer_append_quoted (buffer : JsonBuffer) (text : cstr) : result SqlError JsonBuffer :=
  quoted ← sql_json_quote text;
  json_buffer_append_raw buffer quoted.

Definition json_buffer_finalize (buffer : JsonBuffer) : cstr := data buffer.

(** ** Payloads *)

Definition trimmed_message_copy (message : cstr) : cstr := rstrip is_line_end message.

Definition build_error_payload (message : cstr) : result SqlError cstr :=
  let trimmed := trimmed_message_copy message in
  json ← json_buffer_append_raw json_empty (dq «"{'ok':false,'error':{'message':"»);
  json ← json_buffer_append_quoted json trimmed;
  json ← json_buffer_append_raw json «"}}"»;
  Ok (json_buffer_finalize json).

Definition build_insert_payload (q : Query) (message : cstr) : result SqlError cstr :=
  let trimmed := trimmed_message_copy message in
  json ← json_buffer_append_raw json_empty (dq «"{'ok':true,'type':'insert','table':"»);
  json ← json_buffer_append_quoted json (table_name q);
  json ← json_buffer_append_raw json (dq «",'affected_rows':1,'message':"»);
  json ← json_buffer_append_quoted json trimmed;
  json ← json_buffer_append_raw json «"}"»;
  Ok (json_buffer_finalize json).

(** The value of one column. *)
Definition append_field_value (json : JsonBuffer) (c : ColumnDef) (field : cstr) : result SqlError JsonBuffer :=
  match col_type c with
  | COLUMN_TYPE_STRING => json_buffer_append_quoted json field
  | COLUMN_TYPE_INT =>
      if negb (is_integer_string field) then fail («"invalid persisted int for column "» ++ col_name c)
      else json_buffer_append_raw json field
  | COLUMN_TYPE_FLOAT =>
      if negb (is_float_string field) then fail («"invalid persisted float for column "» ++ col_name c)
      else json_buffer_append_raw json field
  end.

Definition append_comma (first : bool) (json : JsonBuffer) : result SqlError JsonBuffer :=
  if first then Ok json else json_buffer_append_raw json «","».

(** The loop over the columns; [first] is [column_index == 0]. *)
Fixpoint append_columns (json : JsonBuffer) (first : bool) (cols : list ColumnDef) (r : Row)
    : result SqlError JsonBuffer :=
  match cols with
  | [] => Ok json
  | c :: cols' =>
      json ← append_comma first json;
      json ← json_buffer_append_quoted json (col_name c);
      json ← json_buffer_append_raw json «":"»;
      json ← append_field_value json c (default [] (head r));
      append_columns json false cols' (tail r)
  end.

Definition append_row_object (json : JsonBuffer) (s : Schema) (r : Row) : result SqlError JsonBuffer :=
  json ← json_buffer_append_raw json «"{"»;
  json ← append_columns json true (columns s) r;
  json_buffer_append_raw json «"}"».

(** The loop over the rows of a result; [first] is [first_row]. *)
Fixpoint append_row_objects (json : JsonBuffer) (first : bool) (s : Schema) (rs : list Row)
    : result SqlError JsonBuffer :=
  match rs with
  | [] => Ok json
  | r :: rs' =>
      json ← append_comma first json;
      json ← append_row_object json s r;
      append_row_objects json false s rs'
  end.

Section SqlService.
Context `{RowIndex Idx}.

(** The three ways of choosing rows. *)
Definition append_selected (json : JsonBuffer) (t : TableState Idx) (cond : option Condition)
    : result SqlError JsonBuffer :=
  match cond with
  | None => append_row_objects json true (schema t) (rows (rowset t))
  | Some c =>
      if bool_decide (cond_column c = «"id"») then
        if negb (is_integer_string (raw (cond_value c))) then fail «"WHERE id requires an integer value"»
        else
          match index_search (index t) (atoi (raw (cond_value c))) with
          | Some matched_row_index =>
              append_row_objects json true (schema t)
                (option_list (rows (rowset t) !! Z.to_nat matched_row_index))
          | None => Ok json
          end
      else
        let column_index := find_column_index (schema t) (cond_column c) in
        if (column_index <? 0)%Z then fail («"unknown column in WHERE clause: "» ++ cond_column c)
        else
          append_row_objects json true (schema t)
            (List.filter (λ r, bool_decide (field_at r column_index = raw (cond_value c))) (rows (rowset t)))
  end.

Definition select_payload (t : TableState Idx) (q : Query) : result SqlError cstr :=
  json ← json_buffer_append_raw json_empty (dq «"{'ok':true,'type':'select','table':"»);
  json ← json_buffer_append_quoted json (table_name q);
  json ← json_buffer_append_raw json (dq «",'rows':["»);
  json ← append_selected json t (condition q);
  json ← json_buffer_append_raw json «"]}"»;
  Ok (json_buffer_finalize json).

Definition build_select_payload (w : World) (ctx : DbContext Idx) (q : Query)
    : result SqlError cstr * DbContext Idx :=
  match db_context_get_table w ctx (table_name q) with
  | (Err e, ctx') => (Err e, ctx')
  | (Ok i, ctx') => (with_table ctx' i (Ok []) (λ t, select_payload t q), ctx')
  end.

(** ** The service *)

(** [out_message] is the message in the caller's [SqlError], which is read only when there is
    no payload. *)
Record SqlServiceResult := mkSqlServiceResult { ok : bool; payload : option cstr; out_message : cstr }.

Definition error_result (m : cstr) : SqlServiceResult :=
  match build_error_payload m with
  | Ok p => mkSqlServiceResult false (Some p) m
  | Err e => mkSqlServiceResult false None (message e)
  end.

(** [sql_service_create]: the context of the service. *)
Definition sql_service_create (root : cstr) : result SqlError (DbContext Idx) :=
  if Nat.eqb (length root) 0 then fail «"sql_service_create requires a db_root"»
  else if Nat.leb SQL_PATH_BUFFER_SIZE (length root) then fail «"db_root path is too long"»
  else Ok (db_context_create root).

(** Read back what was printed to the temporary file. *)
Definition read_stream_payload (calls : StreamCalls) (printed : cstr) : result SqlError cstr :=
  if negb (fflush_ok calls) then fail «"failed to flush SQL result stream"»
  else if negb (seek_end_ok calls) then fail «"failed to seek SQL result stream"»
  else if negb (ftell_ok calls) then fail «"failed to measure SQL result stream"»
  else if negb (rewind_ok calls) then fail «"failed to rewind SQL result stream"»
  else if negb (fread_ok calls) then fail «"failed to read SQL result payload"»
  else Ok printed.

Definition sql_service_execute (w : World) (ctx : DbContext Idx) (sql_text : cstr)
    : SqlServiceResult * DbContext Idx * World :=
  match parse_sql_text sql_text with
  | Err e => (error_result (message e), ctx, w)
  | Ok q =>
      match query_type q with
      | QUERY_SELECT =>
          match build_select_payload w ctx q with
          | (Ok p, ctx') => (mkSqlServiceResult true (Some p) [], ctx', w)
          | (Err e, ctx') => (error_result (message e), ctx', w)
          end
      | QUERY_INSERT =>
          if negb (tmpfile_ok (temporary w)) then (error_result «"Failed to create SQL result stream."», ctx, w)
          else
            match execute_query w ctx q with
            | (Err e, ctx', w') => (error_result (message e), ctx', w')
            | (Ok out, ctx', w') =>
                match read_stream_payload (temporary w') out with
                | Err e => (error_result (message e), ctx', w')
                | Ok m =>
                    match build_insert_payload q m with
                    | Err e => (error_result (message e), ctx', w')
                    | Ok p => (mkSqlServiceResult true (Some p) [], ctx', w')
                    end
                end
            end
      end
  end.

End SqlService.

(** ** Specification *)

(** Whether what was printed can be read back. *)
Definition reads_back (calls : StreamCalls) : bool :=
  fflush_ok calls && seek_end_ok calls && ftell_ok calls && rewind_ok calls && fread_ok calls.

(** The bytes in use and the NUL fit the allocation, which fits [size_t]. *)
Definition buffer_ok (b : JsonBuffer) : Prop :=
  (capacity b = 0%N ∧ data b = []) ∨
  (N.of_nat (length (data b)) + 1 <= capacity b ∧ capacity b <= SIZE_MAX)%N.

Definition field_json (c : ColumnDef) (field : cstr) : json :=
  match col_type c with COLUMN_TYPE_STRING => JString field | _ => JNumber field end.

Definition row_json (s : Schema) (r : Row) : json :=
  JObject (zip_with (λ c f, (col_name c, field_json c f)) (columns s) r).

(** The numeric fields of the rows are JSON numbers. *)
Definition json_rows (s : Schema) (rs : list Row) : Prop := Forall (λ r, json_wf (row_json s r) = true) rs.

Definition select_json (n : cstr) (s : Schema) (rs : list Row) : json :=
  JObject [(«"ok"», JBool true); («"type"», JString «"select"»); («"table"», JString n);
           («"rows"», JArray (map (row_json s) rs))].

Definition insert_json (n message : cstr) : json :=
  JObject [(«"ok"», JBool true); («"type"», JString «"insert"»); («"table"», JString n);
           («"affected_rows"», JNumber «"1"»); («"message"», JString message)].

Definition error_json (message : cstr) : json :=
  JObject [(«"ok"», JBool false); («"error"», JObject [(«"message"», JString message)])].

(** The rows a SELECT chooses, by scanning the table. *)
Definition selected_rows `{RowIndex Idx} (t : TableState Idx) (cond : option Condition) : result SqlError (list Row) :=
  match cond with
  | None => Ok (rows (rowset t))
  | Some c =>
      let v := raw (cond_value c) in
      if bool_decide (cond_column c = «"id"») then
        if is_integer_string v
        then Ok (List.filter (λ r, (row_id (schema t) r =? atoi v)%Z) (rows (rowset t)))
        else fail «"WHERE id requires an integer value"»
      else
        match find_column (columns (schema t)) (cond_column c) with
        | Some i => Ok (List.filter (λ r, bool_decide (r !! i = Some v)) (rows (rowset t)))
        | None => fail («"unknown column in WHERE clause: "» ++ cond_column c)
        end
  end.

(** ** Lemmas: classification *)

Lemma skip_prefix_loop_total fuel s : (length s < fuel)%nat → is_Some (skip_prefix_loop fuel s).
Proof.
  revert s. induction fuel as [|fuel IH]; intros s Hs; [lia|]. cbn [skip_prefix_loop].
  pose proof (drop_while_length isspace s) as Hd. destruct (drop_while isspace s) as [|c l] eqn:E; [done|].
  simpl in Hd. case_match; [|case_match; [apply IH; simpl; lia|done]].
  apply IH. pose proof (drop_while_length not_newline (tail (tail (c :: l)))) as Hn.
  assert (length (tail (tail (c :: l))) <= length l)%nat by (destruct l; simpl; lia). lia.
Qed.

(** Text that starts with a word after blanks: the prefix loop stops at the word. *)
Lemma skip_sql_prefix_word kw s rest :
  word kw → keyword_at kw s rest → skip_sql_prefix s = drop_while isspace s.
Proof.
  intros Hw (c & k & kw' & _ & Hc & _ & Halpha)%keyword_at_skip; [|done].
  unfold skip_sql_prefix. cbn [skip_prefix_loop]. unfold skip_whitespace in Hc. rewrite Hc.
  rewrite (proj2 (ascii_eqb_neq c "-")) by (by intros ->). rewrite (proj2 (ascii_eqb_neq c ";")) by (by intros ->).
  done.
Qed.

Lemma matches_keyword_letters kw sp rest :
  Forall (λ k, isalpha k = true) kw → Forall (λ k, toupper k = k) kw →
  same_letters sp kw → is_identifier_char (peek rest) = false → matches_keyword (sp ++ rest) kw = true.
Proof.
  intros Ha Hu. revert sp. induction Ha as [|k kw Hk _ IH]; intros sp Hsp Hid.
  - destruct sp; [|done]. simpl. unfold is_sql_identifier_char. unfold is_identifier_char in Hid. by rewrite Hid.
  - apply Forall_cons in Hu as [Huk Hu]. destruct sp as [|c sp]; [done|].
    unfold same_letters in Hsp. simpl in Hsp. injection Hsp as Hc Hsp. cbn [app matches_keyword peek tail].
    assert (Heq : Ascii.eqb (toupper c) (toupper k) = true).
    { rewrite <- fold_case_eqb by done. by apply ascii_eqb_eq. }
    rewrite Huk in Heq. rewrite Heq. simpl. by apply IH.
Qed.

(** The first letter decides between the two keywords. *)
Lemma matches_keyword_first c rest k kw : toupper c ≠ k → matches_keyword (c :: rest) (k :: kw) = false.
Proof. intros Hc. cbn [matches_keyword peek]. by rewrite (proj2 (ascii_eqb_neq _ _)). Qed.

Lemma upper_word kw :
  forallb (λ k, isalpha k && Ascii.eqb (toupper k) k) kw = true →
  Forall (λ k, isalpha k = true) kw ∧ Forall (λ k, toupper k = k) kw.
Proof.
  rewrite forallb_forall. intros Hall. split; apply Forall_forall; intros k Hk;
    apply list_elem_of_In, Hall, andb_true_iff in Hk as [? ?]; [done|by apply ascii_eqb_eq].
Qed.

(** A statement of the grammar is classified by its keyword. *)
Lemma classify_statement s q :
  statement s q →
  sql_service_classify_operation s =
    Ok (match query_type q with QUERY_SELECT => SQL_OPERATION_READ | QUERY_INSERT => SQL_OPERATION_WRITE end).
Proof.
  intros (kw & rest & Hk & Hw & Hkw)%statement_keyword. unfold sql_service_classify_operation.
  rewrite (skip_sql_prefix_word kw s rest) by done. destruct Hk as (ws & sp & Hws & Hsp & -> & Hid).
  rewrite skip_app by (done || by eapply same_letters_peek).
  assert (Hmatch : ∀ up, same_letters up kw → forallb (λ k, isalpha k && Ascii.eqb (toupper k) k) up = true →
                         matches_keyword (sp ++ rest) up = true).
  { intros up Hup [Ha Hu]%upper_word. apply matches_keyword_letters; try done.
    unfold same_letters in *. congruence. }
  destruct sp as [|c sp]; [by destruct (query_type q); subst kw|].
  assert (Hnul : Ascii.eqb c NUL = false).
  { apply ascii_eqb_neq. intros ->. unfold same_letters in Hsp. by destruct (query_type q); subst kw. }
  cbn [app peek]. rewrite Hnul. destruct (query_type q); subst kw.
  - change «"SELECT"» with ("S"%char :: «"ELECT"»).
    rewrite matches_keyword_first; [cbn [app] in Hmatch; by rewrite (Hmatch «"INSERT"»)|].
    unfold same_letters in Hsp. change «"insert"» with ("i"%char :: «"nsert"») in Hsp. cbn [map] in Hsp.
    injection Hsp as Hc _. intros Hs. by destruct c as [[][][][][][][][]].
  - cbn [app] in Hmatch. by rewrite (Hmatch «"SELECT"»).
Qed.

(** ** Lemmas: the JSON buffer *)

Lemma grow_capacity_spec fuel cap needed :
  (needed <= cap * 2 ^ N.of_nat fuel → needed <= SIZE_MAX → cap <= SIZE_MAX →
   needed <= grow_capacity fuel cap needed ∧ grow_capacity fuel cap needed <= SIZE_MAX)%N.
Proof.
  revert cap. induction fuel as [|fuel IH]; intros cap Hf Hn Hc; cbn [grow_capacity].
  { change (2 ^ N.of_nat 0)%N with 1%N in Hf. lia. }
  destruct (N.ltb_spec cap needed); [|lia]. destruct (N.ltb_spec (SIZE_MAX / 2) cap) as [|Hle]; [lia|].
  change (SIZE_MAX / 2)%N with 9223372036854775807%N in Hle. apply IH; [|done|unfold SIZE_MAX; lia].
  rewrite Nat2N.inj_succ, N.pow_succ_r' in Hf. lia.
Qed.

Lemma reserve_Ok b n b' :
  json_buffer_reserve b n = Ok b' → buffer_ok b →
  data b' = data b ∧ (N.of_nat (length (data b)) + n + 1 <= capacity b' ∧ capacity b' <= SIZE_MAX)%N.
Proof.
  unfold json_buffer_reserve. intros Hr Hb.
  destruct (N.ltb_spec (SIZE_MAX - N.of_nat (length (data b)) - 1) n) as [|Hn]; [done|].
  assert (Hneed : (N.of_nat (length (data b)) + n + 1 <= SIZE_MAX)%N).
  { unfold buffer_ok, SIZE_MAX in *. destruct Hb as [[_ Hd]|Hb]; [rewrite Hd in *; cbn [length] in *|]; lia. }
  destruct (N.leb_spec (N.of_nat (length (data b)) + n + 1) (capacity b)).
  { injection Hr as <-. split; [done|]. destruct Hb as [[Hc _]|[_ Hc]]; [rewrite Hc|]; unfold SIZE_MAX in *; lia. }
  apply Ok_inj in Hr as <-. split; [done|]. cbn [capacity].
  assert (Hpos : (N.of_nat (length (data b)) + n + 1 <= 1 * 2 ^ N.of_nat 64)%N).
  { replace (1 * 2 ^ N.of_nat 64)%N with 18446744073709551616%N by (vm_compute; reflexivity).
    unfold SIZE_MAX in Hneed. lia. }
  apply grow_capacity_spec; [|done|].
  - destruct (N.eqb_spec (capacity b) 0); [|].
    + eapply N.le_trans; [exact Hpos|]. apply N.mul_le_mono_r. lia.
    + eapply N.le_trans; [exact Hpos|]. apply N.mul_le_mono_r. lia.
  - destruct (N.eqb_spec (capacity b) 0); [unfold SIZE_MAX; lia|]. destruct Hb as [[? _]|[_ ?]]; [lia|done].
Qed.

Lemma append_raw_Ok b text b' :
  json_buffer_append_raw b text = Ok b' → buffer_ok b →
  data b' = data b ++ text ∧ buffer_ok b'.
Proof.
  unfold json_buffer_append_raw. destruct (json_buffer_reserve b _) as [b1|] eqn:Hr; simpl; [|done].
  intros [= <-] Hb. apply reserve_Ok in Hr as [Hd Hc]; [|done]. simpl. rewrite Hd. split; [done|].
  right. simpl. rewrite length_app. lia.
Qed.

Lemma append_quoted_Ok b text b' :
  json_buffer_append_quoted b text = Ok b' → buffer_ok b →
  data b' = data b ++ json_quoted text ∧ buffer_ok b'.
Proof.
  unfold json_buffer_append_quoted. destruct (sql_json_quote text) as [q|] eqn:Hq; simpl; [|done].
  apply sql_json_quote_Ok in Hq as ->. apply append_raw_Ok.
Qed.

(** Appending short text never fails. *)
Lemma append_raw_total b text :
  (N.of_nat (length (data b) + length text) + 1 <= SIZE_MAX)%N → is_ok (json_buffer_append_raw b text) = true.
Proof.
  intros Hl. unfold json_buffer_append_raw, json_buffer_reserve.
  destruct (N.ltb_spec (SIZE_MAX - N.of_nat (length (data b)) - 1) (N.of_nat (length text))); [lia|].
  by case_match.
Qed.

Lemma json_empty_ok : buffer_ok json_empty.
Proof. by left. Qed.

(** ** Lemmas: payloads *)

(** Elements after what is already in the buffer. *)
Definition joined (first : bool) (l : list cstr) : cstr :=
  match l with [] => [] | _ => (if first then [] else [","%char]) ++ join "," l end.

Lemma joined_cons first x l : joined first (x :: l) = (if first then [] else [","%char]) ++ x ++ joined false l.
Proof. unfold joined. f_equal. destruct l as [|y l]; simpl; [by rewrite app_nil_r|done]. Qed.

Lemma append_comma_Ok first b b' :
  append_comma first b = Ok b' → buffer_ok b →
  data b' = data b ++ (if first then [] else [","%char]) ∧ buffer_ok b'.
Proof.
  unfold append_comma. destruct first; [intros [= <-] ?; by rewrite app_nil_r|]. apply append_raw_Ok.
Qed.

Lemma append_field_value_Ok b c f b' :
  append_field_value b c f = Ok b' → buffer_ok b → data b' = data b ++ print_json (field_json c f) ∧ buffer_ok b'.
Proof.
  unfold append_field_value, field_json. destruct (col_type c).
  - case_match; [done|]. apply append_raw_Ok.
  - case_match; [done|]. apply append_raw_Ok.
  - apply append_quoted_Ok.
Qed.

Definition member_text (m : cstr * json) : cstr := json_quoted m.1 ++ ":"%char :: print_json m.2.

(** Run a successful chain of appends, collecting what the buffer holds after each. *)
Ltac appends :=
  repeat match goal with
  | H : context [json_buffer_append_raw ?b ?t] |- _ =>
      let E := fresh "E" in destruct (json_buffer_append_raw b t) as [?|] eqn:E; simpl in H; [|discriminate H];
      apply append_raw_Ok in E as [? ?]; [|assumption || apply json_empty_ok]
  | H : context [json_buffer_append_quoted ?b ?t] |- _ =>
      let E := fresh "E" in destruct (json_buffer_append_quoted b t) as [?|] eqn:E; simpl in H; [|discriminate H];
      apply append_quoted_Ok in E as [? ?]; [|assumption || apply json_empty_ok]
  | H : context [append_comma ?f ?b] |- _ =>
      let E := fresh "E" in destruct (append_comma f b) as [?|] eqn:E; simpl in H; [|discriminate H];
      apply append_comma_Ok in E as [? ?]; [|assumption]
  | H : context [append_field_value ?b ?c ?f] |- _ =>
      let E := fresh "E" in destruct (append_field_value b c f) as [?|] eqn:E; simpl in H; [|discriminate H];
      apply append_field_value_Ok in E as [? ?]; [|assumption]
  end.

Lemma append_columns_Ok b first cols r b' :
  append_columns b first cols r = Ok b' → buffer_ok b → length r = length cols →
  data b' = data b ++ joined first (map member_text (zip_with (λ c f, (col_name c, field_json c f)) cols r)) ∧
  buffer_ok b'.
Proof.
  revert b first r. induction cols as [|c cols IH]; intros b first r Happ Hb Hlen; cbn [append_columns] in Happ.
  { injection Happ as <-. destruct r; [|done]. simpl. by rewrite app_nil_r. }
  destruct r as [|f r]; [done|]. simpl in Hlen. cbn [head default tail] in Happ. appends.
  apply IH in Happ as [Hd Hok]; [|done|simpl; lia]. split; [|done]. rewrite Hd. cbn [zip_with map].
  rewrite joined_cons. unfold member_text at 2. cbn [fst snd].
  repeat match goal with H : data _ = _ |- _ => rewrite H; clear H end. by rewrite <- !app_assoc.
Qed.

Lemma append_row_object_Ok b s r b' :
  append_row_object b s r = Ok b' → buffer_ok b → length r = column_count s →
  data b' = data b ++ print_json (row_json s r) ∧ buffer_ok b'.
Proof.
  unfold append_row_object. intros Happ Hb Hlen. appends.
  destruct (append_columns _ true (columns s) r) as [b2|] eqn:Hc; simpl in Happ; [|done].
  apply append_columns_Ok in Hc as [Hd Hok]; [|done|done]. apply append_raw_Ok in Happ as [Hd' ?]; [|done].
  split; [|done]. rewrite Hd', Hd. cbn [row_json print_json]. unfold brackets.
  repeat match goal with H : data _ = _ |- _ => rewrite H; clear H end. rewrite <- !app_assoc. do 2 f_equal.
  unfold joined. change (map (λ m : cstr * json, json_quoted m.1 ++ ":"%char :: print_json m.2)) with (map member_text).
  by destruct (map member_text _).
Qed.

Lemma append_row_objects_Ok b first s rs b' :
  append_row_objects b first s rs = Ok b' → buffer_ok b → Forall (λ r, length r = column_count s) rs →
  data b' = data b ++ joined first (map print_json (map (row_json s) rs)) ∧ buffer_ok b'.
Proof.
  revert b first. induction rs as [|r rs IH]; intros b first Happ Hb Hlen; cbn [append_row_objects] in Happ.
  { injection Happ as <-. simpl. by rewrite app_nil_r. }
  apply Forall_cons in Hlen as [Hr Hlen]. appends.
  destruct (append_row_object _ s r) as [b2|] eqn:Ho; simpl in Happ; [|done].
  apply append_row_object_Ok in Ho as [Hd Hok]; [|done|done].
  apply IH in Happ as [Hd' Hok']; [|done|done]. split; [|done]. rewrite Hd', Hd. cbn [map]. rewrite joined_cons.
  repeat match goal with H : data _ = _ |- _ => rewrite H; clear H end. by rewrite <- !app_assoc.
Qed.

(** Associate a printed tree to the right. *)
Ltac flatten :=
  cbn [print_json map join fst snd]; unfold brackets;
  repeat first [rewrite <- app_assoc | rewrite <- app_comm_cons].

(** ** Lemmas: the rows a SELECT chooses *)

Lemma filter_ext_Forall {A} (p p' : A → bool) l :
  Forall (λ x, p x = p' x) l → List.filter p l = List.filter p' l.
Proof. induction 1 as [|x l Hx _ IH]; simpl; [done|]. by rewrite Hx, IH. Qed.

Section Selected.
Context `{RowIndex Idx}.
Implicit Types t : TableState Idx.

Lemma column_filter t col i v :
  table_ok t → find_column (columns (schema t)) col = Some i →
  List.filter (λ r, bool_decide (field_at r (Z.of_nat i) = v)) (rows (rowset t)) =
  List.filter (λ r, bool_decide (r !! i = Some v)) (rows (rowset t)).
Proof.
  intros Ht (c & Hc & _)%find_column_Some. apply filter_ext_Forall.
  eapply Forall_impl; [apply (table_rows t Ht)|]. intros r [Hlen _]. unfold field_at. rewrite Nat2Z.id.
  apply lookup_lt_Some in Hc. unfold column_count in Hlen.
  destruct (lookup_lt_is_Some_2 r i) as [f Hf]; [lia|]. rewrite Hf. simpl.
  apply bool_decide_ext. naive_solver.
Qed.

(** The command line and the server choose the same rows: those of the scan. *)
Lemma append_selected_rows json t cond :
  table_ok t →
  append_selected json t cond = rs ← selected_rows t cond; append_row_objects json true (schema t) rs.
Proof.
  intros Ht. unfold append_selected, selected_rows. destruct cond as [[col [ty v]]|]; [|done]. cbn [cond_column cond_value raw].
  case_bool_decide.
  - destruct (is_integer_string v); [|done]. cbn. rewrite <- (index_scan t (atoi v) Ht).
    by destruct (index_search (index t) (atoi v)).
  - unfold find_column_index. destruct (find_column (columns (schema t)) col) as [i|] eqn:Hf; [|done].
    rewrite (proj2 (Z.ltb_ge (Z.of_nat i) 0)) by lia. by rewrite (column_filter t col).
Qed.

Lemma select_table_rows t cond :
  table_ok t →
  select_table t cond = rs ← selected_rows t cond; Ok (print_header (schema t) ++ print_rows rs).
Proof.
  intros Ht. unfold select_table, selected_rows. destruct cond as [[col [ty v]]|]; [|done]. cbn [cond_column cond_value raw].
  case_bool_decide.
  - destruct (is_integer_string v); [|done]. cbn. rewrite <- (index_scan t (atoi v) Ht).
    by destruct (index_search (index t) (atoi v)).
  - unfold find_column_index. destruct (find_column (columns (schema t)) col) as [i|] eqn:Hf; [|done].
    rewrite (proj2 (Z.ltb_ge (Z.of_nat i) 0)) by lia. by rewrite (column_filter t col).
Qed.

Lemma selected_rows_subset t cond rs :
  selected_rows t cond = Ok rs → ∀ r, r ∈ rs → r ∈ rows (rowset t).
Proof.
  unfold selected_rows. intros Hs r Hr. repeat case_match; unfold fail in *; simplify_eq; try done;
    apply list_elem_of_In in Hr; apply filter_In in Hr as [Hr _]; by apply list_elem_of_In.
Qed.

Lemma select_payload_Ok t q p :
  table_ok t → select_payload t q = Ok p →
  ∃ rs, selected_rows t (condition q) = Ok rs ∧ p = print_json (select_json (table_name q) (schema t) rs).
Proof.
  intros Ht. unfold select_payload. intros Hp. appends.
  rewrite append_selected_rows in Hp by done.
  destruct (selected_rows t (condition q)) as [rs|] eqn:Hs; simpl in Hp; [|done]. exists rs. split; [done|].
  destruct (append_row_objects _ true (schema t) rs) as [b3|] eqn:Ha; simpl in Hp; [|done].
  apply append_row_objects_Ok in Ha as [Hd Hok]; [|done|].
  2:{ apply Forall_forall. intros r Hr. eapply selected_rows_subset in Hr; [|done].
      pose proof (table_rows t Ht) as Hrows. rewrite Forall_forall in Hrows. by apply Hrows. }
  appends. apply Ok_inj in Hp as <-. unfold json_buffer_finalize.
  repeat match goal with H : data _ = _ |- _ => rewrite H; clear H end. unfold joined.
  unfold select_json. flatten.
  destruct (map print_json (map (row_json (schema t)) rs)); flatten; reflexivity.
Qed.

End Selected.

Lemma select_json_wf n s rs : json_rows s rs → json_wf (select_json n s rs) = true.
Proof.
  intros Hrs. simpl. rewrite !andb_true_r. induction Hrs as [|r rs Hr _ IH]; [done|].
  cbn [map forallb]. by rewrite Hr, IH.
Qed.

Lemma error_result_ok m : ok (error_result m) = false.
Proof. unfold error_result. by destruct (build_error_payload m). Qed.

Lemma read_stream_Ok calls printed m : read_stream_payload calls printed = Ok m → m = printed.
Proof. unfold read_stream_payload. repeat (case_match; [done|]). by intros [= <-]. Qed.

Lemma read_stream_works calls printed : reads_back calls = true → read_stream_payload calls printed = Ok printed.
Proof.
  unfold reads_back, read_stream_payload. intros Hr. repeat (apply andb_true_iff in Hr as [Hr ?]).
  repeat match goal with Hb : _ calls = true |- _ => rewrite Hb; clear Hb end. done.
Qed.

Lemma build_insert_payload_Ok q out p :
  build_insert_payload q out = Ok p → p = print_json (insert_json (table_name q) (rstrip is_line_end out)).
Proof.
  unfold build_insert_payload. intros Hp. appends. apply Ok_inj in Hp as <-. unfold json_buffer_finalize.
  repeat match goal with H : data _ = _ |- _ => rewrite H; clear H end.
  unfold insert_json. flatten. reflexivity.
Qed.

Lemma build_error_payload_Ok m p :
  build_error_payload m = Ok p → p = print_json (error_json (rstrip is_line_end m)).
Proof.
  unfold build_error_payload. intros Hp. appends. apply Ok_inj in Hp as <-. unfold json_buffer_finalize.
  repeat match goal with H : data _ = _ |- _ => rewrite H; clear H end.
  unfold error_json. flatten. reflexivity.
Qed.

Lemma append_raw_short b text :
  buffer_ok b → (N.of_nat (length (data b) + length text) < 65536)%N →
  ∃ b', json_buffer_append_raw b text = Ok b' ∧ data b' = data b ++ text ∧ buffer_ok b'.
Proof.
  intros Hb Hl. pose proof (append_raw_total b text) as Ht.
  destruct (json_buffer_append_raw b text) as [b'|e] eqn:Ha.
  - exists b'. split; [done|]. by apply append_raw_Ok in Ha.
  - assert (Hf : false = true); [|done]. apply Ht. unfold SIZE_MAX. lia.
Qed.

Lemma json_quoted_length s : (length (json_quoted s) <= length s * 6 + 2)%nat.
Proof.
  unfold json_quoted. cbn [length]. rewrite length_app. cbn [length]. pose proof (json_escapes_length s). lia.
Qed.

Lemma append_quoted_short b text :
  buffer_ok b → (N.of_nat (length (data b) + length text * 6 + 2) < 65536)%N →
  ∃ b', json_buffer_append_quoted b text = Ok b' ∧ data b' = data b ++ json_quoted text ∧ buffer_ok b'.
Proof.
  intros Hb Hl. unfold json_buffer_append_quoted, sql_json_quote.
  destruct (N.ltb_spec ((SIZE_MAX - 3) / 6) (N.of_nat (length text))) as [Hlt|_].
  { replace ((SIZE_MAX - 3) / 6)%N with 3074457345618258602%N in Hlt by (vm_compute; reflexivity). lia. }
  cbn [mbind result_bind]. apply append_raw_short; [done|]. pose proof (json_quoted_length text) as Hq.
  lia.
Qed.

Lemma rstrip_length p (s : cstr) : (length (rstrip p s) <= length s)%nat.
Proof. destruct (rstrip_prefix p s) as [t Ht]. rewrite Ht at 2. rewrite length_app. lia. Qed.

(** An error message always becomes a payload. *)
Lemma build_error_payload_total m :
  (length m < SQL_ERROR_MESSAGE_SIZE)%nat →
  build_error_payload m = Ok (print_json (error_json (rstrip is_line_end m))).
Proof.
  unfold SQL_ERROR_MESSAGE_SIZE. intros Hm. pose proof (rstrip_length is_line_end m) as Hr.
  assert (Hok : ∃ p, build_error_payload m = Ok p); [|by destruct Hok as [p Hp]; rewrite Hp; f_equal; apply build_error_payload_Ok].
  pose proof (json_quoted_length (trimmed_message_copy m)) as Hq. unfold trimmed_message_copy in Hq.
  unfold build_error_payload.
  destruct (append_raw_short json_empty (dq «"{'ok':false,'error':{'message':"»)) as (b1 & -> & Hd1 & Hb1);
    [apply json_empty_ok|vm_compute; reflexivity|]. cbn [mbind result_bind].
  assert (Hl1 : length (data b1) = 31%nat) by (by rewrite Hd1).
  destruct (append_quoted_short b1 (trimmed_message_copy m)) as (b2 & -> & Hd2 & Hb2);
    [done|rewrite Hl1; unfold trimmed_message_copy; lia|]. cbn [mbind result_bind].
  assert (Hl2 : (length (data b2) <= 31 + (255 * 6 + 2))%nat).
  { rewrite Hd2, length_app, Hl1. unfold trimmed_message_copy in *. lia. }
  destruct (append_raw_short b2 «"}}"») as (b3 & -> & _ & _);
    [done|change (length «"}}"») with 2%nat; lia|]. cbn [mbind result_bind]. eauto.
Qed.

(** The payload of an INSERT can only fail for a table name beyond any sensible length. *)
Lemma build_insert_payload_total q m :
  (N.of_nat (length (table_name q)) <= 4096)%N → (length m < SQL_ERROR_MESSAGE_SIZE)%nat →
  is_ok (build_insert_payload q m) = true.
Proof.
  unfold SQL_ERROR_MESSAGE_SIZE. intros Hn Hm. pose proof (rstrip_length is_line_end m) as Hr.
  pose proof (json_quoted_length (trimmed_message_copy m)) as Hq1. pose proof (json_quoted_length (table_name q)) as Hq2.
  unfold trimmed_message_copy in *. unfold build_insert_payload, trimmed_message_copy.
  destruct (append_raw_short json_empty (dq «"{'ok':true,'type':'insert','table':"»)) as (b1 & -> & Hd1 & Hb1);
    [apply json_empty_ok|vm_compute; reflexivity|]. cbn [mbind result_bind].
  assert (Hl1 : length (data b1) = 35%nat) by (by rewrite Hd1).
  destruct (append_quoted_short b1 (table_name q)) as (b2 & -> & Hd2 & Hb2); [done|rewrite Hl1; lia|]. cbn [mbind result_bind].
  apply (f_equal length) in Hd2. rewrite length_app, Hl1 in Hd2.
  destruct (append_raw_short b2 (dq «",'affected_rows':1,'message':"»)) as (b3 & -> & Hd3 & Hb3);
    [done|change (length (dq «",'affected_rows':1,'message':"»)) with 29%nat; lia|]. cbn [mbind result_bind].
  apply (f_equal length) in Hd3. rewrite length_app in Hd3.
  change (length (dq «",'affected_rows':1,'message':"»)) with 29%nat in Hd3.
  destruct (append_quoted_short b3 (rstrip is_line_end m)) as (b4 & -> & Hd4 & Hb4); [done|lia|]. cbn [mbind result_bind].
  apply (f_equal length) in Hd4. rewrite length_app in Hd4.
  destruct (append_raw_short b4 «"}"») as (b5 & -> & _ & _); [done|change (length «"}"») with 1%nat; lia|]. done.
Qed.

(** ** Lemmas: what a request keeps *)

Lemma service_db_ok `{RowIndex Idx} w (ctx : DbContext Idx) sql res ctx' w' :
  db_ok w ctx → sql_service_execute w ctx sql = (res, ctx', w') →
  db_ok w' ctx' ∧ db_root ctx' = db_root ctx ∧ files_grow w w'.
Proof.
  intros Hok. unfold sql_service_execute. destruct (parse_sql_text sql) as [q|]; [|by intros [= _ <- <-]].
  destruct (query_type q).
  - destruct (tmpfile_ok _); cbn [negb]; [|by intros [= _ <- <-]].
    destruct (execute_query w ctx q) as [[r ctx1] w1] eqn:Hq.
    pose proof (execute_query_db_ok w ctx q r ctx1 w1 Hok Hq) as Hres.
    destruct r as [out|]; [destruct (read_stream_payload _ out) as [m|]; [destruct (build_insert_payload q m)|]|];
      by intros [= _ <- <-].
  - pose proof (get_table_db_ok w ctx (table_name q) Hok) as Hget.
    pose proof (get_table_root w ctx (table_name q)) as Hroot. unfold build_select_payload.
    destruct (db_context_get_table w ctx (table_name q)) as [[i|e] ctx1]; simpl in Hget, Hroot;
      [destruct (with_table _ _ _ _)|]; by intros [= _ <- <-].
Qed.

(** ** Properties *)

(** The lock decision agrees with the parser: a statement the parser accepts is classified
    as a read exactly when it is a SELECT and as a write exactly when it is an INSERT, so no
    INSERT ever runs under the read lock.  (The two compare keywords differently, one folding
    to lower and the other to upper case.) *)
Theorem classify_agrees_with_parser s q :
  parse_sql_text s = Ok q →
  sql_service_classify_operation s =
    Ok (match query_type q with QUERY_SELECT => SQL_OPERATION_READ | QUERY_INSERT => SQL_OPERATION_WRITE end).
Proof. intros Hp. by apply classify_statement, parse_sql_text_sound. Qed.

Lemma classify_agrees_with_parser_witness :
  sql_service_classify_operation «" inSErt into users values (1, 'a', 2);"» = Ok SQL_OPERATION_WRITE.
Proof.
  apply (classify_agrees_with_parser _ (mkQuery QUERY_INSERT «"users"» [«"1"»; «"a"»; «"2"»] None)).
  vm_compute. reflexivity.
Defined.

(** The classifier skips leading semicolons and [--] comments, which the parser does not:
    a request that starts with one is classified as a read or write, takes the lock, and is
    then rejected as an unsupported statement. *)
Theorem classify_accepts_more :
  ∃ semicolon comment e1 e2,
    sql_service_classify_operation semicolon = Ok SQL_OPERATION_READ ∧ parse_sql_text semicolon = Err e1 ∧
    sql_service_classify_operation comment = Ok SQL_OPERATION_WRITE ∧ parse_sql_text comment = Err e2.
Proof.
  exists «";SELECT * FROM users"», (lit "-- add"%string ++ LF :: «"INSERT INTO users VALUES ('a', 1)"»).
  do 2 eexists. split_and!; vm_compute; reflexivity.
Qed.

(** The JSON buffer never overruns: appending to a buffer in a consistent state either
    reports that the payload is too large or leaves exactly the old bytes followed by the new
    ones, with the bytes and the terminating NUL inside an allocation that fits [size_t]; the
    doubling loop reaches the needed capacity.  It is too large only when the bytes and the NUL
    do not fit [size_t]. *)
Theorem json_buffer_append_in_bounds b text :
  buffer_ok b →
  (∃ b', json_buffer_append_raw b text = Ok b' ∧ data b' = data b ++ text ∧ buffer_ok b') ∨
  (json_buffer_append_raw b text = fail «"JSON payload is too large"» ∧
   (SIZE_MAX < N.of_nat (length (data b) + length text) + 1)%N).
Proof.
  intros Hb. pose proof (append_raw_total b text) as Ht.
  destruct (json_buffer_append_raw b text) as [b'|e] eqn:Ha.
  - left. exists b'. split; [done|]. by apply append_raw_Ok in Ha.
  - right. split.
    + unfold json_buffer_append_raw, json_buffer_reserve in Ha. revert Ha. case_match; [done|]. by case_match.
    + apply N.lt_nge. intros Hle. by specialize (Ht Hle).
Qed.

Lemma json_buffer_append_in_bounds_witness :
  (∃ b', json_buffer_append_raw json_empty «"abc"» = Ok b' ∧ data b' = [] ++ «"abc"» ∧ buffer_ok b') ∨
  (json_buffer_append_raw json_empty «"abc"» = fail «"JSON payload is too large"» ∧
   (SIZE_MAX < N.of_nat (length (data json_empty) + length «"abc"») + 1)%N).
Proof. apply (json_buffer_append_in_bounds json_empty). apply json_empty_ok. Defined.

(** C24. What a client reads from a successful SELECT: for a loaded table, the payload is a JSON
    text whose [rows] array holds one object per selected row, in row order, with every column
    name and value, provided the numeric fields of those rows are JSON numbers.  The selected
    rows are those of a scan of the table, the same the command line prints, and neither the
    context nor any file changes. *)
Theorem select_payload_correct `{RowIndex Idx} w (ctx : DbContext Idx) sql q i t res ctx' w' :
  parse_sql_text sql = Ok q → query_type q = QUERY_SELECT →
  find_table (tables ctx) (table_name q) = Some i → tables ctx !! i = Some t → table_ok t →
  sql_service_execute w ctx sql = (res, ctx', w') → ok res = true →
  ctx' = ctx ∧ w' = w ∧
  ∃ p rs, payload res = Some p ∧ selected_rows t (condition q) = Ok rs ∧
    select_table t (condition q) = Ok (print_header (schema t) ++ print_rows rs) ∧
    (json_rows (schema t) rs → json_text p = Some (select_json (table_name q) (schema t) rs)).
Proof.
  intros Hp Hq Hf Hi Ht. unfold sql_service_execute. rewrite Hp, Hq.
  unfold build_select_payload, db_context_get_table. rewrite Hf. unfold with_table. rewrite Hi.
  destruct (select_payload t q) as [p|] eqn:Hs; intros [= <- <- <-]; [intros _|by rewrite error_result_ok].
  split; [done|]. split; [done|]. apply select_payload_Ok in Hs as (rs & Hrs & ->); [|done].
  exists (print_json (select_json (table_name q) (schema t) rs)), rs.
  split_and!; [done|done|by rewrite select_table_rows, Hrs|].
  intros Hjson. apply json_text_print. by apply select_json_wf.
Qed.

Definition select_lee : cstr := «"SELECT * FROM users WHERE name = 'lee'"».

Lemma select_payload_correct_witness :
  ∃ p rs, payload (sql_service_execute sample_world sample_ctx select_lee).1.1 = Some p ∧
    selected_rows sample_table (Some (mkCondition «"name"» (mkValue VALUE_STRING «"lee"»))) = Ok rs ∧
    select_table sample_table (Some (mkCondition «"name"» (mkValue VALUE_STRING «"lee"»))) =
      Ok (print_header users_schema ++ print_rows rs) ∧
    (json_rows users_schema rs → json_text p = Some (select_json «"users"» users_schema rs)).
Proof.
  apply (select_payload_correct sample_world sample_ctx select_lee
    (mkQuery QUERY_SELECT «"users"» [] (Some (mkCondition «"name"» (mkValue VALUE_STRING «"lee"»))))
    0 sample_table (sql_service_execute sample_world sample_ctx select_lee).1.1 sample_ctx sample_world);
    [vm_compute; reflexivity|reflexivity|reflexivity|reflexivity|apply sample_table_ok| |].
  - vm_compute. reflexivity.
  - vm_compute. reflexivity.
Defined.

(** Error messages always reach the client: every message the 256-byte error record can
    hold becomes a payload, and the payload is a JSON object whose [error.message] is the
    message without trailing line ends, whatever bytes it quotes from the request. *)
Theorem error_payload_json m :
  (length m < SQL_ERROR_MESSAGE_SIZE)%nat →
  ∃ p, build_error_payload m = Ok p ∧ json_text p = Some (error_json (rstrip is_line_end m)).
Proof.
  intros Hm. exists (print_json (error_json (rstrip is_line_end m))).
  split; [by apply build_error_payload_total|by apply json_text_print].
Qed.

Lemma error_payload_json_witness :
  ∃ p, build_error_payload (DQUOTE :: «"x"» ++ [LF]) = Ok p ∧ json_text p = Some (error_json (DQUOTE :: «"x"»)).
Proof. apply (error_payload_json (DQUOTE :: «"x"» ++ [LF])). apply Nat.ltb_lt. reflexivity. Defined.

(** An accepted INSERT is reported as such: the payload of a successful INSERT is a JSON
    object with [ok] true, the table name, one affected row and the message "INSERT 1", and the
    row was added to the file. *)
Theorem insert_payload_correct `{RowIndex Idx} w (ctx : DbContext Idx) sql q res ctx' w' :
  parse_sql_text sql = Ok q → query_type q = QUERY_INSERT →
  single_columns_line w (db_root ctx) (table_name q) → ctx_ok ctx →
  sql_service_execute w ctx sql = (res, ctx', w') → ok res = true →
  (∃ p, payload res = Some p ∧ json_text p = Some (insert_json (table_name q) «"INSERT 1"»)) ∧
  ∃ fields, append_csv_row w (db_root ctx) (table_name q) fields = Ok w'.
Proof.
  intros Hp Hq Hs Hctx. unfold sql_service_execute. rewrite Hp, Hq. unfold execute_query. rewrite Hq.
  destruct (tmpfile_ok _); cbn [negb]; [|intros [= <- <- <-]; by rewrite error_result_ok].
  destruct (execute_insert w ctx q) as [[r ctx1] w1] eqn:Hins.
  assert (Hsch : ∀ t : TableState Idx, table_state_load w (db_root ctx) (table_name q) = Ok t → schema_ok (schema t)).
  { intros t (Hl & _)%table_state_load_inv. by eapply load_schema_schema_ok. }
  destruct (execute_insert_cases w ctx q r ctx1 w1 Hsch Hctx Hins)
    as (_ & Hroot & [(e & -> & _ & _)|(i & t & fields & _ & _ & _ & _ & _ & -> & t' & _ & _ & Ha)]).
  { intros [= <- <- <-]. by rewrite error_result_ok. }
  rewrite Hroot in Ha. destruct (read_stream_payload _ _) as [m|] eqn:Hm; [|intros [= <- <- <-]; by rewrite error_result_ok].
  apply read_stream_Ok in Hm as ->. destruct (build_insert_payload q _) as [p|] eqn:Hb; intros [= <- <- <-]; [intros _|by rewrite error_result_ok].
  split; [|by exists fields]. exists p. split; [done|]. apply build_insert_payload_Ok in Hb as ->.
  by apply json_text_print.
Qed.

Definition insert_choi : cstr := «"INSERT INTO users VALUES ('choi', 40);"».

Lemma insert_payload_correct_witness :
  (∃ p, payload (sql_service_execute sample_world sample_ctx insert_choi).1.1 = Some p ∧
        json_text p = Some (insert_json «"users"» «"INSERT 1"»)) ∧
  ∃ fields, append_csv_row sample_world «"data"» «"users"» fields =
            Ok (sql_service_execute sample_world sample_ctx insert_choi).2.
Proof.
  apply (insert_payload_correct sample_world sample_ctx insert_choi
    (mkQuery QUERY_INSERT «"users"» [«"choi"»; «"40"»] None) _ (sql_service_execute sample_world sample_ctx insert_choi).1.2).
  - vm_compute. reflexivity.
  - reflexivity.
  - apply sample_world_single.
  - apply sample_ctx_ok.
  - apply surjective_pairing_3.
  - vm_compute. reflexivity.
Defined.

(** The integer check is laxer than JSON: an INSERT of [+5] into an [int] column is
    accepted, and the SELECT that returns the row answers with [ok] true and a payload that is
    not a JSON text. *)
Theorem plus_sign_breaks_json :
  ∃ r1 ctx1 w1 r2 ctx2 w2 p,
    sql_service_execute sample_world sample_ctx «"INSERT INTO users VALUES ('a', +5)"» = (r1, ctx1, w1) ∧
    ok r1 = true ∧
    sql_service_execute w1 ctx1 «"SELECT * FROM users WHERE id = 8"» = (r2, ctx2, w2) ∧
    ok r2 = true ∧ payload r2 = Some p ∧ json_text p = None.
Proof.
  do 7 eexists. split; [vm_compute; reflexivity|]. split; [vm_compute; reflexivity|].
  split; [vm_compute; reflexivity|]. split; [vm_compute; reflexivity|].
  split; [vm_compute; reflexivity|]. vm_compute. reflexivity.
Qed.
