(* ===== verification/ServiceMemory.v ===== *)
(** * [src/src/server/request/sql_service.c]: the memory of a statement

    [sql_service_execute] again, with the memory it takes: the query, the growing JSON buffer, the
    quoted strings, the message read back from the temporary stream, the payload, and what the
    executor takes.  Any request can fail. *)

From stdpp Require Import base list strings sets gmap.
From Stdlib Require Import Ascii.
From S2P Require Import Prelude CString Common Memory Parser Index BPTree Schema Json Storage DbContext Executor SqlService.
From S2P Require Import ParserMemory SchemaMemory StorageMemory IndexMemory ContextMemory ExecutorMemory.

Local Open Scope nat_scope.

(** ** The JSON buffer *)

(** [j_data] is the pointer, NULL before the first append. *)
Record MJson := mkMJson { j_data : option nat; j_buffer : JsonBuffer }.

Definition json_zero : MJson := mkMJson None json_empty.

Definition json_buffer_reserve_mem (j : MJson) (additional : N) : M (result SqlError () * MJson) :=
  let len := N.of_nat (length (data (j_buffer j))) in
  if (SIZE_MAX - len - 1 <? additional)%N then mret (fail «"JSON payload is too large"», j)
  else
    let needed := (len + additional + 1)%N in
    if (needed <=? capacity (j_buffer j))%N then mret (Ok (), j)
    else
      let start := if (capacity (j_buffer j) =? 0)%N then 128%N else capacity (j_buffer j) in
      next_data ← realloc (j_data j);
      match next_data with
      | None => mret (fail «"failed to expand JSON payload buffer"», j)
      | Some p => mret (Ok (), mkMJson (Some p) (mkJsonBuffer (data (j_buffer j)) (grow_capacity 64 start needed)))
      end.

Definition json_buffer_append_raw_mem (j : MJson) (txt : cstr) : M (result SqlError () * MJson) :=
  '(r, j) ← json_buffer_reserve_mem j (N.of_nat (length txt));
  match r with
  | Err e => mret (Err e, j)
  | Ok _ => mret (Ok (), mkMJson (j_data j) (mkJsonBuffer (data (j_buffer j) ++ txt) (capacity (j_buffer j))))
  end.

Definition sql_json_quote_mem (src : cstr) : M (result SqlError ostr) :=
  match sql_json_quote src with
  | Err e => mret (Err e)
  | Ok quoted =>
      p ← malloc;
      match p with
      | None => mret (fail «"failed to allocate JSON string"»)
      | Some b => mret (Ok (mkOstr b quoted))
      end
  end.

Definition json_buffer_append_quoted_mem (j : MJson) (txt : cstr) : M (result SqlError () * MJson) :=
  quoted ← sql_json_quote_mem txt;
  match quoted with
  | Err e => mret (Err e, j)
  | Ok quoted =>
      '(r, j) ← json_buffer_append_raw_mem j (text quoted);
      _ ← release (block quoted);
      mret (r, j)
  end.

(** The payload takes over the buffer. *)
Definition json_buffer_finalize_mem (j : MJson) : M (option ostr) :=
  match j_data j with
  | None => sql_strdup []
  | Some p => mret (Some (mkOstr p (data (j_buffer j))))
  end.

(** [if (!first) return 0;], and go on. *)
Definition json_then (first : M (result SqlError () * MJson)) (rest : MJson → M (result SqlError () * MJson))
    : M (result SqlError () * MJson) :=
  '(r, j) ← first;
  match r with Err e => mret (Err e, j) | Ok _ => rest j end.

(** ** Payloads *)

(** Fill a new buffer: [free(json.data)] and NULL when an append fails, the payload otherwise. *)
Definition json_payload (appended : M (result SqlError () * MJson)) (unfinished : cstr) : M (result SqlError ostr) :=
  '(r, j) ← appended;
  match r with
  | Err e => _ ← free (j_data j); mret (Err e)
  | Ok _ =>
      payload ← json_buffer_finalize_mem j;
      match payload with None => mret (fail unfinished) | Some p => mret (Ok p) end
  end.

Definition trimmed_message_copy_mem (message : cstr) : M (result SqlError ostr) :=
  copy ← malloc;
  match copy with
  | None => mret (fail «"failed to allocate trimmed SQL message"»)
  | Some b => mret (Ok (mkOstr b (trimmed_message_copy message)))
  end.

Definition build_error_payload_mem (message : cstr) : M (result SqlError ostr) :=
  trimmed ← trimmed_message_copy_mem message;
  match trimmed with
  | Err e => mret (Err e)
  | Ok trimmed =>
      payload ← json_payload (
        json_then (json_buffer_append_raw_mem json_zero (dq «"{'ok':false,'error':{'message':"»)) (λ j,
        json_then (json_buffer_append_quoted_mem j (text trimmed)) (λ j,
        json_buffer_append_raw_mem j «"}}"»))) «"failed to finalize JSON error payload"»;
      _ ← release (block trimmed);
      mret payload
  end.

Definition build_insert_payload_mem (q : Query) (message : cstr) : M (result SqlError ostr) :=
  trimmed ← trimmed_message_copy_mem message;
  match trimmed with
  | Err e => mret (Err e)
  | Ok trimmed =>
      payload ← json_payload (
        json_then (json_buffer_append_raw_mem json_zero (dq «"{'ok':true,'type':'insert','table':"»)) (λ j,
        json_then (json_buffer_append_quoted_mem j (table_name q)) (λ j,
        json_then (json_buffer_append_raw_mem j (dq «",'affected_rows':1,'message':"»)) (λ j,
        json_then (json_buffer_append_quoted_mem j (text trimmed)) (λ j,
        json_buffer_append_raw_mem j «"}"»))))) «"failed to finalize JSON insert payload"»;
      _ ← release (block trimmed);
      mret payload
  end.

Definition append_field_value_mem (j : MJson) (c : ColumnDef) (field : cstr) : M (result SqlError () * MJson) :=
  match col_type c with
  | COLUMN_TYPE_STRING => json_buffer_append_quoted_mem j field
  | COLUMN_TYPE_INT =>
      if negb (is_integer_string field) then mret (fail («"invalid persisted int for column "» ++ col_name c), j)
      else json_buffer_append_raw_mem j field
  | COLUMN_TYPE_FLOAT =>
      if negb (is_float_string field) then mret (fail («"invalid persisted float for column "» ++ col_name c), j)
      else json_buffer_append_raw_mem j field
  end.

Definition append_comma_mem (first : bool) (j : MJson) : M (result SqlError () * MJson) :=
  if first then mret (Ok (), j) else json_buffer_append_raw_mem j «","».

Fixpoint append_columns_mem (j : MJson) (first : bool) (cols : list ColumnDef) (r : Row) : M (result SqlError () * MJson) :=
  match cols with
  | [] => mret (Ok (), j)
  | c :: cols' =>
      json_then (append_comma_mem first j) (λ j,
      json_then (json_buffer_append_quoted_mem j (col_name c)) (λ j,
      json_then (json_buffer_append_raw_mem j «":"») (λ j,
      json_then (append_field_value_mem j c (default [] (head r))) (λ j,
      append_columns_mem j false cols' (tail r)))))
  end.

Definition append_row_object_mem (j : MJson) (s : Schema) (r : Row) : M (result SqlError () * MJson) :=
  json_then (json_buffer_append_raw_mem j «"{"») (λ j,
  json_then (append_columns_mem j true (columns s) r) (λ j,
  json_buffer_append_raw_mem j «"}"»)).

Fixpoint append_row_objects_mem (j : MJson) (first : bool) (s : Schema) (rs : list Row) : M (result SqlError () * MJson) :=
  match rs with
  | [] => mret (Ok (), j)
  | r :: rs' =>
      json_then (append_comma_mem first j) (λ j,
      json_then (append_row_object_mem j s r) (λ j,
      append_row_objects_mem j false s rs'))
  end.

Definition append_selected_mem (j : MJson) (t : TableState BPTree) (cond : option Condition) : M (result SqlError () * MJson) :=
  match cond with
  | None => append_row_objects_mem j true (schema t) (rows (rowset t))
  | Some c =>
      if bool_decide (cond_column c = «"id"») then
        if negb (is_integer_string (raw (cond_value c))) then mret (fail «"WHERE id requires an integer value"», j)
        else
          match bptree_search (index t) (atoi (raw (cond_value c))) with
          | Some matched_row_index =>
              append_row_objects_mem j true (schema t) (option_list (rows (rowset t) !! Z.to_nat matched_row_index))
          | None => mret (Ok (), j)
          end
      else
        let column_index := find_column_index (schema t) (cond_column c) in
        if (column_index <? 0)%Z then mret (fail («"unknown column in WHERE clause: "» ++ cond_column c), j)
        else
          append_row_objects_mem j true (schema t)
            (List.filter (λ r, bool_decide (field_at r column_index = raw (cond_value c))) (rows (rowset t)))
  end.

(** The buffer is not NULL at the end, so that [json_buffer_finalize] copies nothing. *)
Definition select_payload_mem (t : TableState BPTree) (q : Query) : M (result SqlError ostr) :=
  json_payload (
    json_then (json_buffer_append_raw_mem json_zero (dq «"{'ok':true,'type':'select','table':"»)) (λ j,
    json_then (json_buffer_append_quoted_mem j (table_name q)) (λ j,
    json_then (json_buffer_append_raw_mem j (dq «",'rows':["»)) (λ j,
    json_then (append_selected_mem j t (condition q)) (λ j,
    json_buffer_append_raw_mem j «"]}"»))))) [].

(** [None] does not occur: the table has just been found. *)
Definition build_select_payload_mem (w : World) (m : MContext) (q : Query) : M (result SqlError ostr * MContext) :=
  '(r, m) ← db_context_get_table_mem w m (table_name q);
  match r with
  | Err e => mret (Err e, m)
  | Ok i =>
      match mc_tables m !! i with
      | None => mret (fail [], m)
      | Some t => payload ← select_payload_mem (table_of t) q; mret (payload, m)
      end
  end.

(** ** The service *)

Record MResult := mkMResult { mr_ok : bool; mr_payload : option ostr; mr_message : cstr }.

Definition sql_service_result_destroy (res : MResult) : M MResult :=
  _ ← free_str (mr_payload res);
  mret (mkMResult false None (mr_message res)).

Definition error_result_mem (m : cstr) : M MResult :=
  p ← build_error_payload_mem m;
  match p with
  | Ok p => mret (mkMResult false (Some p) m)
  | Err e => mret (mkMResult false None (message e))
  end.

Definition read_stream_payload_mem (calls : StreamCalls) (printed : cstr) : M (result SqlError ostr) :=
  if negb (fflush_ok calls) then mret (fail «"failed to flush SQL result stream"»)
  else if negb (seek_end_ok calls) then mret (fail «"failed to seek SQL result stream"»)
  else if negb (ftell_ok calls) then mret (fail «"failed to measure SQL result stream"»)
  else if negb (rewind_ok calls) then mret (fail «"failed to rewind SQL result stream"»)
  else
    payload ← malloc;
    match payload with
    | None => mret (fail «"failed to allocate SQL result payload"»)
    | Some b =>
        if negb (fread_ok calls) then _ ← release b; mret (fail «"failed to read SQL result payload"»)
        else mret (Ok (mkOstr b printed))
    end.

(** From [tmpfile] on; the query is freed before the function returns. *)
Definition service_insert_mem (w : World) (m : MContext) (q : MQuery) : M (MResult * MContext * World) :=
  stream ← (if tmpfile_ok (temporary w) then acquire else mret None);
  match stream with
  | None =>
      res ← error_result_mem «"Failed to create SQL result stream."»;
      _ ← free_query q;
      mret (res, m, w)
  | Some stream =>
      '(r, m, w) ← execute_query_mem w m (query_of q);
      match r with
      | Err e =>
          res ← error_result_mem (message e);
          _ ← release stream;
          _ ← free_query q;
          mret (res, m, w)
      | Ok out =>
          r ← read_stream_payload_mem (temporary w) out;
          _ ← release stream;
          match r with
          | Err e =>
              res ← error_result_mem (message e);
              _ ← free_query q;
              mret (res, m, w)
          | Ok msg =>
              p ← build_insert_payload_mem (query_of q) (text msg);
              _ ← release (block msg);
              _ ← free_query q;
              match p with
              | Err e => res ← error_result_mem (message e); mret (res, m, w)
              | Ok p => mret (mkMResult true (Some p) [], m, w)
              end
          end
      end
  end.

Definition sql_service_execute_mem (w : World) (m : MContext) (sql_text : cstr) : M (MResult * MContext * World) :=
  '(r, q) ← parse_sql_text_mem sql_text zero_query;
  match r with
  | Err e => res ← error_result_mem (message e); mret (res, m, w)
  | Ok _ =>
      match q_type q with
      | QUERY_SELECT =>
          '(r, m) ← build_select_payload_mem w m (query_of q);
          res ← match r with
                | Ok p => mret (mkMResult true (Some p) [])
                | Err e => error_result_mem (message e)
                end;
          _ ← free_query q;
          mret (res, m, w)
      | QUERY_INSERT => service_insert_mem w m q
      end
  end.

(** ** Specification *)

(** Where the buffer is NULL nothing is allocated. *)
Definition json_ok (j : MJson) : Prop := j_data j = None → capacity (j_buffer j) = 0%N.

(** [c] does to the buffer [j] what [pure] does, and afterwards owns the new buffer; if it fails
    it owns the buffer there was. *)
Definition appends (j : MJson) (c : M (result SqlError () * MJson)) (pure : result SqlError JsonBuffer) : Prop :=
  triple (ptr (j_data j)) c (λ '(_, j'), ptr (j_data j'))
    (λ '(r, j'), match r with Ok _ => pure = Ok (j_buffer j') ∧ is_Some (j_data j') | Err _ => True end)
    (λ '(r, _), match r with Err e => pure = Err e | Ok _ => True end).

(** The same for a chain that ends with [json_buffer_finalize]. *)
Definition fills (j : MJson) (c : M (result SqlError () * MJson)) (pure : result SqlError cstr) : Prop :=
  triple (ptr (j_data j)) c (λ '(_, j'), ptr (j_data j'))
    (λ '(r, j'), match r with Ok _ => pure = Ok (json_buffer_finalize (j_buffer j')) ∧ is_Some (j_data j') | Err _ => True end)
    (λ '(r, _), match r with Err e => pure = Err e | Ok _ => True end).

(** A function that returns a new string does so as [pure] does. *)
Definition makes (c : M (result SqlError ostr)) (pure : result SqlError cstr) : Prop :=
  triple [] c (λ r, match r with Ok p => [block p] | Err _ => [] end)
    (λ r, match r with Ok p => pure = Ok (text p) | Err _ => True end)
    (λ r, match r with Err e => pure = Err e | Ok _ => True end).

Definition result_of (res : MResult) : SqlServiceResult :=
  mkSqlServiceResult (mr_ok res) (text <$> mr_payload res) (mr_message res).

(** The file of the table of an INSERT has one more row, or nothing was written. *)
Definition service_wrote (w w' : World) (root sql : cstr) : Prop :=
  w' = w ∨ ∃ q fields, parse_sql_text sql = Ok q ∧ query_type q = QUERY_INSERT ∧ append_csv_row w root (table_name q) fields = Ok w'.

(** The result is the one of [SqlService.sql_service_execute]. *)
Definition service_agrees (w : World) (ctx : DbContext BPTree) (sql : cstr) (o : MResult * MContext * World) : Prop :=
  let '(res, m', w') := o in ∃ ctx', sql_service_execute w ctx sql = (result_of res, ctx', w') ∧ same_context m' ctx'.

(** The files that the statement reads are as [ExecutorMemory.execute_query_memory] wants them. *)
Definition statement_files (w : World) (ctx : DbContext BPTree) (sql : cstr) : Prop :=
  ∀ q, parse_sql_text sql = Ok q → columns_stable w ctx (table_name q) ∧ tidy_file w (db_root ctx) (table_name q).

(** ** Lemmas: the buffer *)

Lemma json_ok_some j : is_Some (j_data j) → json_ok j.
Proof. intros [p Hp] Hn. congruence. Qed.

Lemma appends_nothing j : is_Some (j_data j) → appends j (mret (Ok (), j)) (Ok (j_buffer j)).
Proof. intros Hj. by apply triple_ret. Qed.

Lemma appends_fails j e : appends j (mret (Err e, j)) (Err e).
Proof. by apply triple_ret. Qed.

Lemma appends_then j c k pure f :
  appends j c pure → (∀ j', is_Some (j_data j') → appends j' (k j') (f (j_buffer j'))) →
  appends j (json_then c k) (pure ≫= f).
Proof.
  intros Hc Hk. unfold appends, json_then. call Hc with (@nil nat) as [[[]|e] j'] Hj'.
  - destruct Hj' as [-> Hj']. eapply triple_conseq; [by apply Hk|by rewrite (right_id_L [] (++))|].
    intros [r j2] Hr. auto.
  - apply triple_ret; [by rewrite (right_id_L [] (++))|done|]. intros He. by rewrite He.
Qed.

Lemma appends_reserve j n : json_ok j → appends j (json_buffer_reserve_mem j n) (json_buffer_reserve (j_buffer j) n).
Proof.
  intros Hj. unfold appends, json_buffer_reserve_mem, json_buffer_reserve.
  destruct (_ <? n)%N; [by apply appends_fails|]. destruct (_ <=? capacity (j_buffer j))%N eqn:Hneed.
  - apply appends_nothing. destruct (j_data j) as [p|] eqn:Hp; [by eexists|]. apply N.leb_le in Hneed. rewrite (Hj Hp) in Hneed. lia.
  - cbv zeta. generalize (grow_capacity 64). intros grow. call triple_realloc with (@nil nat) as [p|] _; [by finish|]. apply triple_ret; [by rewrite (right_id_L [] (++))|done|].
    by intros [? ?].
Qed.

Lemma appends_raw j txt : json_ok j → appends j (json_buffer_append_raw_mem j txt) (json_buffer_append_raw (j_buffer j) txt).
Proof. intros Hj. eapply appends_then; [by apply appends_reserve|]. intros j' Hj'. by apply triple_ret. Qed.

Lemma makes_quote src : makes (sql_json_quote_mem src) (sql_json_quote src).
Proof.
  unfold makes, sql_json_quote_mem. destruct (sql_json_quote src) as [quoted|e]; [|by finish].
  call triple_acquire with (@nil nat) as [b|] _; finish.
Qed.

Lemma appends_quoted j txt : json_ok j → appends j (json_buffer_append_quoted_mem j txt) (json_buffer_append_quoted (j_buffer j) txt).
Proof.
  intros Hj. unfold appends, json_buffer_append_quoted_mem, json_buffer_append_quoted.
  call makes_quote with (ptr (j_data j)) as [quoted|e] Hq; [|finish; intros He; by rewrite He].
  rewrite Hq. cbn [mbind result_bind].
  call appends_raw with [block quoted] as [r j'] Hr; [done|].
  call triple_release with (ptr (j_data j')). apply triple_ret; [by rewrite ?(right_id_L [] (++))|done|auto].
Qed.

Create HintDb appends.
#[local] Hint Resolve appends_nothing appends_fails appends_raw appends_quoted json_ok_some : appends.

(** A chain of appends, against the same chain of pure appends. *)
Ltac append_chain := unfold fail; repeat first [progress auto with appends|apply appends_then; [|intros ??]].

Lemma appends_field_value j c field :
  is_Some (j_data j) → appends j (append_field_value_mem j c field) (append_field_value (j_buffer j) c field).
Proof. intros Hj. unfold append_field_value_mem, append_field_value. destruct (col_type c); repeat case_match; append_chain. Qed.

Lemma appends_comma first j : is_Some (j_data j) → appends j (append_comma_mem first j) (append_comma first (j_buffer j)).
Proof. intros Hj. unfold append_comma_mem, append_comma. destruct first; append_chain. Qed.

#[local] Hint Resolve appends_field_value appends_comma : appends.

Lemma appends_columns j first cols r :
  is_Some (j_data j) → appends j (append_columns_mem j first cols r) (append_columns (j_buffer j) first cols r).
Proof. revert j first r. induction cols as [|c cols IH]; intros j first r Hj; simpl; append_chain. Qed.

#[local] Hint Resolve appends_columns : appends.

Lemma appends_row_object j s r :
  is_Some (j_data j) → appends j (append_row_object_mem j s r) (append_row_object (j_buffer j) s r).
Proof. intros Hj. unfold append_row_object_mem, append_row_object. append_chain. Qed.

#[local] Hint Resolve appends_row_object : appends.

Lemma appends_row_objects j first s rs :
  is_Some (j_data j) → appends j (append_row_objects_mem j first s rs) (append_row_objects (j_buffer j) first s rs).
Proof. revert j first. induction rs as [|r rs IH]; intros j first Hj; simpl; append_chain. Qed.

#[local] Hint Resolve appends_row_objects : appends.

Lemma appends_selected j t cond :
  is_Some (j_data j) → appends j (append_selected_mem j t cond) (append_selected (j_buffer j) t cond).
Proof.
  intros Hj. unfold append_selected_mem, append_selected. destruct cond as [c|]; [|append_chain].
  change (index_search (index t)) with (bptree_search (index t)). repeat case_match; append_chain.
Qed.

#[local] Hint Resolve appends_selected : appends.

(** ** Lemmas: payloads *)

Lemma json_zero_ok : json_ok json_zero.
Proof. done. Qed.

Lemma fills_then j c k pure f :
  appends j c pure → (∀ j', is_Some (j_data j') → fills j' (k j') (f (j_buffer j'))) →
  fills j (json_then c k) (pure ≫= f).
Proof.
  intros Hc Hk. unfold fills, json_then. call Hc with (@nil nat) as [[[]|e] j'] Hj'.
  - destruct Hj' as [-> Hj']. eapply triple_conseq; [by apply Hk|by rewrite (right_id_L [] (++))|].
    intros [r j2] Hr. auto.
  - apply triple_ret; [by rewrite (right_id_L [] (++))|done|]. intros He. by rewrite He.
Qed.

Lemma fills_last j c pure : appends j c pure → fills j c (b ← pure; Ok (json_buffer_finalize b)).
Proof.
  intros Hc. eapply triple_conseq; [exact Hc|done|]. intros [[[]|e] j'] Hr; simpl in *.
  - destruct Hr as [-> Hj]. by split_and!.
  - split_and!; [done|done|]. intros He. by rewrite He.
Qed.

#[local] Hint Resolve json_zero_ok : appends.

Ltac fill_chain := repeat first [apply fills_last; by append_chain|apply fills_then; [by append_chain|intros ??]].

(** What is built in a new buffer becomes the payload, or nothing is left of it. *)
Lemma makes_json c pure unfinished : fills json_zero c pure → makes (json_payload c unfinished) pure.
Proof.
  intros Hc. unfold makes, json_payload. call Hc with (@nil nat) as [[[]|e] j] Hr.
  - destruct Hr as [-> [p Hp]]. unfold json_buffer_finalize_mem. rewrite Hp. by apply triple_ret.
  - call triple_free with (@nil nat). finish. 
Qed.

Lemma makes_trimmed message : makes (trimmed_message_copy_mem message) (Ok (trimmed_message_copy message)).
Proof. unfold makes, trimmed_message_copy_mem. call triple_acquire with (@nil nat) as [b|] _; finish. Qed.

(** The frame of the two builders that copy the message first. *)
Lemma makes_trimmed_json message (c : cstr → M (result SqlError () * MJson)) pure unfinished :
  fills json_zero (c (trimmed_message_copy message)) pure →
  makes (trimmed ← trimmed_message_copy_mem message;
         match trimmed with
         | Err e => mret (Err e)
         | Ok trimmed =>
             payload ← json_payload (c (text trimmed)) unfinished;
             _ ← release (block trimmed);
             mret payload
         end) pure.
Proof.
  intros Hc. unfold makes. call makes_trimmed with (@nil nat) as [trimmed|e] Ht; [|by finish].
  apply Ok_inj in Ht. rewrite <- Ht. call makes_json with [block trimmed] as p Hp; [done|].
  call triple_release with (match p with Ok p => [block p] | Err _ => [] end).
  apply triple_ret; [by rewrite ?(right_id_L [] (++))|done|auto].
Qed.

Lemma makes_error_payload message : makes (build_error_payload_mem message) (build_error_payload message).
Proof.
  unfold build_error_payload_mem, build_error_payload. apply (makes_trimmed_json message (λ trimmed, json_then _ (λ j, json_then (_ j trimmed) _))). fill_chain.
Qed.

Lemma makes_insert_payload q message : makes (build_insert_payload_mem q message) (build_insert_payload q message).
Proof.
  apply (makes_trimmed_json message (λ trimmed, json_then _ (λ j, json_then _ (λ j, json_then _ (λ j, json_then (_ j trimmed) _))))). fill_chain.
Qed.

Lemma makes_select_payload t q : makes (select_payload_mem t q) (select_payload t q).
Proof. apply makes_json. fill_chain. Qed.

(** ** Lemmas: the service *)

Lemma triple_error_result m :
  triple [] (error_result_mem m) (λ res, strs (mr_payload res)) (λ res, mr_ok res = false) (λ res, result_of res = error_result m).
Proof.
  unfold error_result_mem, error_result. call makes_error_payload with (@nil nat) as [p|e] Hp; finish.
  - by rewrite Hp.
  - intros He. by rewrite He.
Qed.

Lemma makes_stream_payload calls printed : makes (read_stream_payload_mem calls printed) (read_stream_payload calls printed).
Proof.
  unfold makes, read_stream_payload_mem, read_stream_payload. do 4 (case_match; [by finish|]).
  call triple_acquire with (@nil nat) as [b|] _; [|by finish; intros [? ?]]. case_match; [|by finish].
  call triple_release with (@nil nat). by finish.
Qed.

Lemma select_payload_same t t0 q : same_table t t0 → select_payload (table_of t) q = select_payload t0 q.
Proof.
  intros Hsame. destruct (table_of_same t t0 [] Hsame) as (_ & Hsearch & _). destruct Hsame as (_ & Hs & Hr & _).
  unfold select_payload, append_selected. change (index_search (index (table_of t))) with (bptree_search (index (table_of t))).
  destruct (condition q) as [c|]; [rewrite Hsearch|]; cbn [schema rowset table_of]; by rewrite Hs, Hr.
Qed.

Lemma leaks_select_payload w m ctx q :
  same_context m ctx → tidy_file w (db_root ctx) (table_name q) →
  leaks (context_blocks m) (build_select_payload_mem w m q)
    (λ '(r, m'), match r with Ok p => [block p] | Err _ => [] end ++ context_blocks m')
    (λ '(r, m') leak, match r with
       | Ok p => leak = [] ∧ ∃ ctx', build_select_payload w ctx q = (Ok (text p), ctx') ∧ same_context m' ctx'
       | Err _ => True
       end)
    (λ '(r, m') leak, match r with
       | Ok p => True
       | Err e => leak = [] ∧ ∃ ctx', build_select_payload w ctx q = (Err e, ctx') ∧ same_context m' ctx'
       end).
Proof.
  intros Hctx Htidy. unfold build_select_payload_mem, build_select_payload. pose proof (proj1 Hctx) as Hrt.
  eapply (leaks_seq []); [apply leaks_get_table|by rewrite (right_id_L [] (++))|]. rewrite Hrt.
  intros [[i|e] m'] leak (Hl & Hroot' & Hsame); specialize (Hsame ctx Hctx).
  - destruct (Hl Htidy) as [->|(e & ? & _)]; [|done]. destruct Hsame as (ctx' & Hget & Hctx'). rewrite Hget. unfold with_table.
    destruct (got_table _ _ _ _ _ _ Hget Hctx') as (t & t0 & Ht & Ht0 & Hs). rewrite Ht, Ht0, <- (select_payload_same t t0 q Hs).
    call makes_select_payload with (context_blocks m') as [p|e] Hp; apply (leaks_ret _ _ _ []); simpl; rewrite ?(right_id_L [] (++)); try done.
    + rewrite Hp. eauto.
    + intros -> _. eauto.
  - apply (leaks_ret _ _ _ []); simpl; rewrite ?(right_id_L [] (++)); [done|done|].
    intros [Hl' HR]. split; [by apply Hl'|]. rewrite (HR ctx Hctx). by eexists.
Qed.

(** Report an error and free the query. *)
Lemma triple_report q msg m w :
  triple (A := MResult * MContext * World) (query_blocks q ++ context_blocks m) (res ← error_result_mem msg; _ ← free_query q; mret (res, m, w))
    (λ '(res, m', _), strs (mr_payload res) ++ context_blocks m')
    (λ '(res, m', w'), mr_ok res = false ∧ m' = m ∧ w' = w) (λ '(res, _, _), result_of res = error_result msg).
Proof.
  call triple_error_result with (query_blocks q ++ context_blocks m) as res Hres.
  call triple_free_query with (strs (mr_payload res) ++ context_blocks m) as q' _. by finish.
Qed.

Section Service.
Context (w : World) (m : MContext) (ctx : DbContext BPTree) (sql : cstr).
Context (Hctx : same_context m ctx) (Hroot : length (db_root ctx) + 2 < SQL_PATH_BUFFER_SIZE).
Context (Hfiles : statement_files w ctx sql).

Lemma leaks_service_insert q :
  parse_sql_text sql = Ok (query_of q) → query_type (query_of q) = QUERY_INSERT →
  leaks (query_blocks q ++ context_blocks m) (service_insert_mem w m q)
    (λ '(res, m', _), strs (mr_payload res) ++ context_blocks m')
    (λ '(res, m', w') leak, service_wrote w w' (db_root ctx) sql ∧
       (mr_ok res = true → leak = [] ∧ service_agrees w ctx sql (res, m', w')))
    (λ o leak, leak = [] ∧ service_agrees w ctx sql o).
Proof.
  intros Hq Hty. unfold service_insert_mem, service_agrees, sql_service_execute. rewrite Hq, Hty.
  destruct (Hfiles _ Hq) as [Hstable Htidy].
  destruct (tmpfile_ok (temporary w)); cbn [negb].
  2: { eapply triple_leaks; [apply triple_report|]. intros [[res m'] w'] (Hok & -> & ->). rewrite Hok.
       split; [split; [by left|done]|]. intros ->. eauto. }
  call triple_acquire with (query_blocks q ++ context_blocks m) as [stream|] _.
  2: { eapply triple_leaks; [apply triple_report|]. intros [[res m'] w'] (Hok & -> & ->). rewrite Hok.
       split; [split; [by left|done]|]. by intros _ [? ?]. }
  eapply (leaks_seq (stream :: query_blocks q)); [apply (leaks_execute_query w m ctx (query_of q)); done|solve_Permutation|].
  intros [[r m1] w1] leak [Hw Hok]. simpl in Hok.
  assert (Hwrote : service_wrote w w1 (db_root ctx) sql).
  { destruct Hw as [->|[fields Hf]]; [by left|]. right. eauto. }
  destruct r as [out|e].
  - destruct (Hok eq_refl) as (-> & ctx1 & Hexec & Hctx1). rewrite Hexec. clear Hok. cbn [app].
    call makes_stream_payload with (stream :: query_blocks q ++ context_blocks m1) as r Hr.
    call triple_release with (match r with Ok p => [block p] | Err _ => [] end ++ query_blocks q ++ context_blocks m1).
    destruct r as [msg|e].
    + rewrite Hr. cbn beta iota.
      call makes_insert_payload with (block msg :: query_blocks q ++ context_blocks m1) as p Hp.
      call triple_release with (match p with Ok p => [block p] | Err _ => [] end ++ query_blocks q ++ context_blocks m1).
      call triple_free_query with (match p with Ok p => [block p] | Err _ => [] end ++ context_blocks m1) as q' _.
      destruct p as [p|e].
      * apply (leaks_ret _ _ _ []); simpl; [by rewrite (right_id_L [] (++))| |]; rewrite Hp; eauto 10.
      * call triple_error_result with (context_blocks m1) as res Hres.
        apply (leaks_ret _ _ _ []); simpl; rewrite ?(right_id_L [] (++)); [done|by rewrite Hres|].
        intros Hrs _ _ He _ _ _ _. rewrite He, Hrs. eauto.
    + eapply triple_leaks; [apply triple_report|]. intros [[res m'] w'] (Hrs & -> & ->). rewrite Hrs. split; [done|].
      intros Hres _ He _ _. rewrite He, Hres. eauto.
  - clear Hok. call triple_error_result with (stream :: query_blocks q ++ context_blocks m1) as res Hres.
    call triple_release with (strs (mr_payload res) ++ query_blocks q ++ context_blocks m1).
    call triple_free_query with (strs (mr_payload res) ++ context_blocks m1) as q' _.
    apply (leaks_ret _ _ _ []); simpl; rewrite ?(right_id_L [] (++)); [done|by rewrite Hres|].
    intros _ _ Hrs (-> & ctx1 & Hexec & Hctx1) _. rewrite Hexec, Hrs. eauto.
Qed.

Lemma leaks_service_execute :
  leaks (context_blocks m) (sql_service_execute_mem w m sql) (λ '(res, m', _), strs (mr_payload res) ++ context_blocks m')
    (λ '(res, m', w') leak, service_wrote w w' (db_root ctx) sql ∧
       (mr_ok res = true → leak = [] ∧ service_agrees w ctx sql (res, m', w')))
    (λ o leak, leak = [] ∧ service_agrees w ctx sql o).
Proof.
  unfold sql_service_execute_mem. call triple_parse_sql_text with (context_blocks m) as [[[]|e] q] Hq.
  2: { call triple_error_result with (context_blocks m) as res Hres.
       apply (leaks_ret _ _ _ []); simpl; rewrite ?(right_id_L [] (++)); [done|split; [by left|by rewrite Hres]|].
       intros Hrs He. split; [done|]. unfold sql_service_execute. rewrite He, Hrs. eauto. }
  destruct Hq as (pq & Hpq & <-%denotes_query_of). change (q_type q) with (query_type (query_of q)).
  destruct (query_type (query_of q)) eqn:Hty.
  { eapply leaks_conseq; [by apply leaks_service_insert|done|auto]. }
  destruct (Hfiles _ Hpq) as [_ Htidy].
  eapply (leaks_seq (query_blocks q)); [by apply (leaks_select_payload w m ctx)|solve_Permutation|].
  unfold service_agrees, sql_service_execute. rewrite Hpq, Hty. intros [[p|e] m1] leak Hr.
  - destruct Hr as (-> & ctx1 & Hsel & Hctx1). rewrite Hsel.
    eapply (leaks_ext _ (_ ← free_query q; mret (mkMResult true (Some p) [], m1, w))); [done|].
    call triple_free_query with (block p :: context_blocks m1) as q' _.
    apply (leaks_ret _ _ _ []); simpl; [by rewrite (right_id_L [] (++))|split; [by left|eauto]|eauto].
  - call triple_error_result with (query_blocks q ++ context_blocks m1) as res Hres.
    call triple_free_query with (strs (mr_payload res) ++ context_blocks m1) as q' _.
    apply (leaks_ret _ _ _ []); simpl; rewrite ?(right_id_L [] (++)); [done|split; [by left|by rewrite Hres]|].
    intros _ Hrs (-> & ctx1 & Hsel & Hctx1) _. rewrite Hsel, Hrs. eauto.
Qed.

End Service.
