(* ===== verification/DbGuard.v ===== *)
(** * [src/src/server/concurrency/db_guard.c]: the reader-writer lock

    Threads interleave their atomic operations on the three counters.  Each thread is at a
    program point of [db_guard_execute_read] or [db_guard_execute_write]; one step is one atomic
    operation of the source, taken in sequentially consistent order.  The source asks for
    acquire and release ordering only; [GuardTSO] and [GuardWeak] take the same steps to machines
    that give less. *)

From stdpp Require Import base list relations.
From S2P Require Import Prelude CString.

(** ** The counters *)

Record DbGuard := mkDbGuard {
  reader_count : Z;
  writer_active : Z;
  writers_waiting : Z
}.

Definition db_guard_create : DbGuard := mkDbGuard 0 0 0.

Definition add_readers (n : Z) (g : DbGuard) : DbGuard :=
  mkDbGuard (wrap32 (reader_count g + n)) (writer_active g) (writers_waiting g).
Definition set_active (v : Z) (g : DbGuard) : DbGuard :=
  mkDbGuard (reader_count g) v (writers_waiting g).
Definition add_waiting (n : Z) (g : DbGuard) : DbGuard :=
  mkDbGuard (reader_count g) (writer_active g) (wrap32 (writers_waiting g + n)).

(** ** Program points *)

Inductive point :=
| Idle                 (** not inside the guard *)
| ReadLoadActive       (** about to load [writer_active], first test *)
| ReadLoadWaiting      (** about to load [writers_waiting], first test *)
| ReadEnter            (** about to increment [reader_count] *)
| ReadCheckActive      (** about to load [writer_active], second test *)
| ReadCheckWaiting     (** about to load [writers_waiting], second test *)
| ReadBackOff          (** about to decrement [reader_count] and retry *)
| Reading              (** inside [work_fn] with the read lock; next is [db_guard_unlock_read] *)
| WriteAnnounce        (** about to increment [writers_waiting] *)
| WriteClaim           (** about to compare-exchange [writer_active] *)
| WriteCheckReaders    (** about to load [reader_count] *)
| WriteRetract         (** about to decrement [writers_waiting] and return *)
| WriteRelease         (** about to store 0 to [writer_active] and retry *)
| Writing.             (** inside [work_fn] with the write lock; next is [db_guard_unlock_write] *)

#[export] Instance point_eq_dec : EqDecision point.
Proof. solve_decision. Defined.

(** One atomic step of a thread: [db_guard_lock_read], [db_guard_lock_write] and the unlocks. *)
Inductive thread_step (g : DbGuard) : point → DbGuard → point → Prop :=
| start_read : thread_step g Idle g ReadLoadActive
| start_write : thread_step g Idle g WriteAnnounce
| read_active_busy : writer_active g ≠ 0%Z → thread_step g ReadLoadActive g ReadLoadActive
| read_active_free : writer_active g = 0%Z → thread_step g ReadLoadActive g ReadLoadWaiting
| read_waiting_busy : writers_waiting g ≠ 0%Z → thread_step g ReadLoadWaiting g ReadLoadActive
| read_waiting_free : writers_waiting g = 0%Z → thread_step g ReadLoadWaiting g ReadEnter
| read_enter : thread_step g ReadEnter (add_readers 1 g) ReadCheckActive
| read_check_active_busy : writer_active g ≠ 0%Z → thread_step g ReadCheckActive g ReadBackOff
| read_check_active_free : writer_active g = 0%Z → thread_step g ReadCheckActive g ReadCheckWaiting
| read_check_waiting_busy : writers_waiting g ≠ 0%Z → thread_step g ReadCheckWaiting g ReadBackOff
| read_check_waiting_free : writers_waiting g = 0%Z → thread_step g ReadCheckWaiting g Reading
| read_back_off : thread_step g ReadBackOff (add_readers (-1) g) ReadLoadActive
| read_unlock : thread_step g Reading (add_readers (-1) g) Idle
| write_announce : thread_step g WriteAnnounce (add_waiting 1 g) WriteClaim
| write_claim_fail : thread_step g WriteClaim g WriteClaim
| write_claim_ok : writer_active g = 0%Z → thread_step g WriteClaim (set_active 1 g) WriteCheckReaders
| write_readers_none : reader_count g = 0%Z → thread_step g WriteCheckReaders g WriteRetract
| write_readers_some : reader_count g ≠ 0%Z → thread_step g WriteCheckReaders g WriteRelease
| write_retract : thread_step g WriteRetract (add_waiting (-1) g) Writing
| write_release : thread_step g WriteRelease (set_active 0 g) WriteClaim
| write_unlock : thread_step g Writing (set_active 0 g) Idle.

(** ** The system *)

Record System := mkSystem { guard : DbGuard; points : list point }.

Inductive system_step : System → System → Prop :=
| system_thread g ps i p g' p' :
    ps !! i = Some p → thread_step g p g' p' →
    system_step (mkSystem g ps) (mkSystem g' (<[i := p']> ps)).

Definition initial (n : nat) : System := mkSystem db_guard_create (replicate n Idle).

Definition reachable (n : nat) (s : System) : Prop := rtc system_step (initial n) s.

(** The points where a thread is counted by each counter. *)
Definition counts_reader (p : point) : bool :=
  match p with ReadCheckActive | ReadCheckWaiting | ReadBackOff | Reading => true | _ => false end.
Definition counts_active (p : point) : bool :=
  match p with WriteCheckReaders | WriteRetract | WriteRelease | Writing => true | _ => false end.
Definition counts_waiting (p : point) : bool :=
  match p with WriteClaim | WriteCheckReaders | WriteRetract | WriteRelease => true | _ => false end.

(** A reader that passed its second test of [writer_active], and a writer that saw no reader. *)
Definition read_committed (p : point) : bool := bool_decide (p = ReadCheckWaiting ∨ p = Reading).
Definition write_committed (p : point) : bool := bool_decide (p = WriteRetract ∨ p = Writing).

Definition count {A} (f : A → bool) (ps : list A) : Z := Z.of_nat (length (List.filter f ps)).

(** The invariant: the counters count, at most one writer is active, and a committed writer
    excludes committed readers. *)
Record guard_ok (s : System) : Prop := {
  readers_counted : reader_count (guard s) = count counts_reader (points s);
  active_counted : writer_active (guard s) = count counts_active (points s);
  waiting_counted : writers_waiting (guard s) = count counts_waiting (points s);
  one_active : (count counts_active (points s) <= 1)%Z;
  committed_excluded : (0 < count write_committed (points s))%Z → count read_committed (points s) = 0%Z
}.

(** ** Lemmas: counting *)

Definition b2z (b : bool) : Z := if b then 1%Z else 0%Z.

Lemma count_cons {A} (f : A → bool) p ps : count f (p :: ps) = (b2z (f p) + count f ps)%Z.
Proof. unfold count, b2z. simpl. destruct (f p); simpl; lia. Qed.

Lemma count_nonneg {A} (f : A → bool) ps : (0 <= count f ps)%Z.
Proof. unfold count. lia. Qed.

Lemma count_insert {A} (f : A → bool) ps i p p' :
  ps !! i = Some p → count f (<[i := p']> ps) = (count f ps - b2z (f p) + b2z (f p'))%Z.
Proof.
  revert i. induction ps as [|x ps IH]; intros [|i] Hi; simpl in *; [done|done| |].
  - injection Hi as ->. rewrite !count_cons. lia.
  - rewrite !count_cons, (IH i) by done. lia.
Qed.

Lemma count_lookup {A} (f : A → bool) ps i p : ps !! i = Some p → (b2z (f p) <= count f ps)%Z.
Proof.
  revert i. induction ps as [|x ps IH]; intros [|i] Hi; simpl in *; [done|done| |]; rewrite count_cons.
  - injection Hi as ->. pose proof (count_nonneg f ps). lia.
  - specialize (IH i Hi). unfold b2z in *. destruct (f x), (f p); lia.
Qed.

Lemma count_implies {A} (f g : A → bool) ps : (∀ p, f p = true → g p = true) → (count f ps <= count g ps)%Z.
Proof.
  intros Hfg. induction ps as [|p ps IH]; [done|]. rewrite !count_cons. specialize (Hfg p).
  unfold b2z. destruct (f p), (g p); lia || (specialize (Hfg eq_refl); done).
Qed.

Lemma count_length {A} (f : A → bool) ps : (count f ps <= Z.of_nat (length ps))%Z.
Proof. induction ps as [|p ps IH]; [done|]. rewrite count_cons. unfold b2z. simpl. destruct (f p); lia. Qed.

Lemma count_replicate {A} (f : A → bool) n x : f x = false → count f (replicate n x) = 0%Z.
Proof. intros Hf. induction n as [|n IH]; [done|]. cbn [replicate]. rewrite count_cons, Hf. simpl. lia. Qed.

Lemma committed_counts ps :
  (count write_committed ps <= count counts_active ps)%Z ∧ (count read_committed ps <= count counts_reader ps)%Z.
Proof. split; apply count_implies; intros []; done. Qed.

(** ** Lemmas: the invariant *)

Lemma initial_ok n : guard_ok (initial n).
Proof. constructor; simpl; rewrite ?count_replicate; done. Qed.

Lemma step_length s s' : system_step s s' → length (points s') = length (points s).
Proof. destruct 1. simpl. by rewrite length_insert. Qed.

Lemma step_ok s s' :
  (Z.of_nat (length (points s)) <= INT_MAX)%Z → guard_ok s → system_step s s' → guard_ok s'.
Proof.
  intros Hn [Hr Ha Hw H1 Hx] Hstep. destruct Hstep as [g ps i p g' p' Hi Hstep]. simpl in *.
  pose proof (count_lookup counts_reader ps i p Hi) as Lr. pose proof (count_lookup counts_active ps i p Hi) as La.
  pose proof (count_lookup counts_waiting ps i p Hi) as Lw. pose proof (count_lookup read_committed ps i p Hi) as Lc.
  pose proof (committed_counts ps) as [Cw Cr]. pose proof (count_nonneg write_committed ps).
  pose proof (count_nonneg read_committed ps). pose proof (count_nonneg counts_active ps).
  pose proof (count_length counts_reader (<[i := p']> ps)) as Br. pose proof (count_length counts_waiting (<[i := p']> ps)) as Bw.
  rewrite length_insert in Br, Bw. rewrite (count_insert counts_reader ps i p) in Br by done.
  rewrite (count_insert counts_waiting ps i p) in Bw by done.
  pose proof (count_nonneg counts_reader ps). pose proof (count_nonneg counts_waiting ps).
  destruct Hstep; constructor; simpl; rewrite ?(count_insert _ ps i _ _ Hi); unfold b2z in *; simpl in *;
    rewrite ?wrap32_id by (unfold is_int, INT_MIN, INT_MAX in *; lia); lia.
Qed.

Lemma reachable_ok n s :
  (Z.of_nat n <= INT_MAX)%Z → reachable n s → guard_ok s ∧ length (points s) = n.
Proof.
  intros Hn Hr. assert (Hlen : length (points s) = n ∧ guard_ok s); [|naive_solver].
  unfold reachable in Hr. apply (rtc_ind_r (λ s, length (points s) = n ∧ guard_ok s) (initial n)) in Hr; [done| |].
  - split; [simpl; by rewrite length_replicate|apply initial_ok].
  - intros s1 s2 _ Hs [Hl Hok]. split; [by rewrite (step_length s1)|].
    eapply step_ok; [|done|done]. by rewrite Hl.
Qed.

(** Two different threads at points that are both counted make the count at least two. *)
Lemma count_two {A} (f : A → bool) ps i j p q :
  i ≠ j → ps !! i = Some p → ps !! j = Some q → f p = true → f q = true → (2 <= count f ps)%Z.
Proof.
  revert i j. induction ps as [|x ps IH]; intros [|i] [|j] Hne Hi Hj Hp Hq; simpl in *; try done; rewrite count_cons.
  - injection Hi as ->. rewrite Hp. pose proof (count_lookup f ps j q Hj) as Hl. rewrite Hq in Hl. simpl in *. lia.
  - injection Hj as ->. rewrite Hq. pose proof (count_lookup f ps i p Hi) as Hl. rewrite Hp in Hl. simpl in *. lia.
  - assert (2 <= count f ps)%Z by (apply (IH i j); [congruence|done..]). unfold b2z. destruct (f x); lia.
Qed.

(** A thread inside a write section is alone. *)
Lemma writer_alone s i j p :
  guard_ok s → points s !! i = Some Writing → points s !! j = Some p → p = Writing ∨ p = Reading → j = i ∧ p = Writing.
Proof.
  intros [Hrd Ha Hw H1 Hx] Hi Hj [-> | ->].
  - split; [|done]. destruct (decide (j = i)) as [|Hne]; [done|].
    pose proof (count_two counts_active (points s) j i Writing Writing Hne Hj Hi eq_refl eq_refl). lia.
  - pose proof (count_lookup write_committed _ i _ Hi) as Lw.
    pose proof (count_lookup read_committed _ j _ Hj) as Lr. simpl in *. lia.
Qed.

(** ** Properties *)

(** C15. Mutual exclusion: in every state that any number of threads (up to the [int] range)
    can reach by interleaving their atomic operations, a thread inside a write section is alone:
    no other thread is inside a write section and none is inside a read section.  The counters
    always equal the number of threads at the points they stand for, [reader_count] those between
    a reader's increment and its decrement, [writer_active] those of the writer that has claimed
    the lock, [writers_waiting] those of writers not yet let in, so they neither overflow nor go
    negative.  The operations are taken in sequentially consistent order; [GuardTSO] shows the
    exclusion when stores are buffered, and [GuardWeak] what the acquire and release orders that
    the source asks for guarantee and what they do not. *)
Theorem guard_mutual_exclusion n s :
  (Z.of_nat n <= INT_MAX)%Z → reachable n s →
  (∀ i j, points s !! i = Some Writing → points s !! j = Some Writing → i = j) ∧
  (∀ i j, points s !! i = Some Writing → points s !! j ≠ Some Reading) ∧
  reader_count (guard s) = count counts_reader (points s) ∧
  writer_active (guard s) = count counts_active (points s) ∧
  writers_waiting (guard s) = count counts_waiting (points s) ∧
  (0 <= reader_count (guard s) <= Z.of_nat n)%Z ∧ (0 <= writer_active (guard s) <= 1)%Z ∧
  (0 <= writers_waiting (guard s) <= Z.of_nat n)%Z.
Proof.
  intros Hn Hr. destruct (reachable_ok n s Hn Hr) as [Hok Hlen]. pose proof Hok as [Hrd Ha Hw H1 Hx]. split_and!.
  - intros i j Hi Hj. destruct (writer_alone s i j Writing Hok Hi Hj) as [-> _]; auto.
  - intros i j Hi Hj. destruct (writer_alone s i j Reading Hok Hi Hj) as [_ ?]; auto. done.
  - done.
  - done.
  - done.
  - rewrite Hrd. apply count_nonneg.
  - rewrite Hrd, <- Hlen. apply count_length.
  - rewrite Ha. apply count_nonneg.
  - rewrite Ha. done.
  - rewrite Hw. apply count_nonneg.
  - rewrite Hw, <- Hlen. apply count_length.
Qed.

(** Run a schedule: the thread that moves and where it goes. *)
Ltac schedule i rule :=
  eapply rtc_l; [eapply (system_thread _ _ i); [reflexivity|apply rule; try reflexivity; try done]|];
  simpl.

Lemma guard_mutual_exclusion_witness :
  ∃ s, reachable 2 s ∧ points s = [Writing; ReadLoadActive] ∧
    (∀ i j, points s !! i = Some Writing → points s !! j ≠ Some Reading).
Proof.
  exists (mkSystem (mkDbGuard 0 1 0) [Writing; ReadLoadActive]).
  assert (Hr : reachable 2 (mkSystem (mkDbGuard 0 1 0) [Writing; ReadLoadActive])).
  { unfold reachable, initial, db_guard_create. simpl.
    schedule 0 start_write. schedule 1 start_read. schedule 0 write_announce. schedule 0 write_claim_ok.
    schedule 0 write_readers_none. schedule 0 write_retract. apply rtc_refl. }
  split; [exact Hr|]. split; [reflexivity|].
  apply (guard_mutual_exclusion 2); [done|exact Hr].
Defined.

(** Read sections overlap: two threads can be inside [work_fn] with the read lock at once. *)
Theorem guard_readers_overlap : ∃ s, reachable 2 s ∧ points s = [Reading; Reading].
Proof.
  exists (mkSystem (mkDbGuard 2 0 0) [Reading; Reading]). split; [|done].
  unfold reachable, initial, db_guard_create. simpl.
  schedule 0 start_read. schedule 0 read_active_free. schedule 0 read_waiting_free. schedule 0 read_enter.
  schedule 0 read_check_active_free. schedule 0 read_check_waiting_free.
  schedule 1 start_read. schedule 1 read_active_free. schedule 1 read_waiting_free. schedule 1 read_enter.
  schedule 1 read_check_active_free. schedule 1 read_check_waiting_free. apply rtc_refl.
Qed.
