(* ===== verification/GuardTSO.v ===== *)
(** * [src/src/server/concurrency/db_guard.c] on a store-buffer machine

    [DbGuard] runs the atomic operations of the lock one after the other.  Here they run on a
    machine that delays stores, as x86 processors do: a plain store goes to the first-in
    first-out buffer of its thread and reaches the memory later; a load takes the newest pending
    store of its own thread and the memory otherwise; a read-modify-write (the
    [atomic_fetch_add], [atomic_fetch_sub] and [atomic_compare_exchange] of the source) waits
    for its own buffer to be empty and acts on the memory.  The plain stores of the lock are the
    two [atomic_store_explicit(&guard->writer_active, 0, ...)]; the protected data is stored
    plainly by the work of a write section.  Only write sections store to it here: the first
    SELECT of a table, which extends the context under the read lock ([FirstLoad]), is not a
    behaviour of this machine. *)

From stdpp Require Import base list gmap relations.
From S2P Require Import Prelude CString DbGuard.

(** ** The machine *)

Inductive store :=
| StoreData (k : nat) (v : Z)   (** a cell of the protected data *)
| StoreInactive.                (** [writer_active] becomes 0 *)

Definition is_data (st : store) : bool := match st with StoreData _ _ => true | StoreInactive => false end.
Definition dirty (b : list store) : bool := existsb is_data b.
Definition pending (b : list store) : bool := existsb (negb ∘ is_data) b.

(** What a thread with pending stores [b] sees in the counters. *)
Definition own_view (g : DbGuard) (b : list store) : DbGuard := if pending b then set_active 0 g else g.

Record Memory := mkMemory { counters : DbGuard; cells : gmap nat Z }.
Record Thread := mkThread { at_point : point; buffer : list store }.
Record Machine := mkMachine { mem : Memory; threads : list Thread }.

Definition apply_store (st : store) (m : Memory) : Memory :=
  match st with
  | StoreData k v => mkMemory (counters m) (<[k := v]> (cells m))
  | StoreInactive => mkMemory (set_active 0 (counters m)) (cells m)
  end.

(** The load of a data cell: the newest pending store of the thread, or the memory. *)
Fixpoint newest (k : nat) (b : list store) : option Z :=
  match b with
  | [] => None
  | StoreData k' v :: b' => match newest k b' with Some w => Some w | None => if decide (k' = k) then Some v else None end
  | StoreInactive :: b' => newest k b'
  end.
Definition load_cell (b : list store) (m : gmap nat Z) (k : nat) : option Z :=
  match newest k b with Some v => Some v | None => m !! k end.

(** What the next atomic operation at a point is. *)
Inductive access := NoAccess | Load | ReadModifyWrite | Store.
Definition access_of (p : point) : access :=
  match p with
  | Idle => NoAccess
  | ReadLoadActive | ReadLoadWaiting | ReadCheckActive | ReadCheckWaiting | WriteCheckReaders => Load
  | ReadEnter | ReadBackOff | Reading | WriteAnnounce | WriteClaim | WriteRetract => ReadModifyWrite
  | WriteRelease | Writing => Store
  end.

(** One step of a thread with the memory: an operation of the lock, a store to the data inside a
    write section, or the oldest pending store reaching the memory. *)
Inductive tso_thread_step (m : Memory) : Thread → Memory → Thread → Prop :=
| tso_load p b p' :
    access_of p = Load ∨ access_of p = NoAccess →
    thread_step (own_view (counters m) b) p (own_view (counters m) b) p' →
    tso_thread_step m (mkThread p b) m (mkThread p' b)
| tso_rmw p g' p' :
    access_of p = ReadModifyWrite → thread_step (counters m) p g' p' →
    tso_thread_step m (mkThread p []) (mkMemory g' (cells m)) (mkThread p' [])
| tso_store p b g' p' :
    access_of p = Store → thread_step (own_view (counters m) b) p g' p' →
    tso_thread_step m (mkThread p b) m (mkThread p' (b ++ [StoreInactive]))
| tso_write_data k v b :
    tso_thread_step m (mkThread Writing b) m (mkThread Writing (b ++ [StoreData k v]))
| tso_flush p st b :
    tso_thread_step m (mkThread p (st :: b)) (apply_store st m) (mkThread p b).

Inductive tso_step : Machine → Machine → Prop :=
| tso_thread m ts i t m' t' :
    ts !! i = Some t → tso_thread_step m t m' t' →
    tso_step (mkMachine m ts) (mkMachine m' (<[i := t']> ts)).

Definition tso_initial (n : nat) (d : gmap nat Z) : Machine :=
  mkMachine (mkMemory db_guard_create d) (replicate n (mkThread Idle [])).

Definition tso_reachable (n : nat) (d : gmap nat Z) (s : Machine) : Prop := rtc tso_step (tso_initial n d) s.

(** ** The invariant *)

(** A buffer left by a write section: data first, the release of the lock last. *)
Fixpoint released (b : list store) : bool :=
  match b with
  | [] => true
  | StoreInactive :: b' => bool_decide (b' = [])
  | StoreData _ _ :: b' => negb (bool_decide (b' = [])) && released b'
  end.

Definition buffer_shape (t : Thread) : bool :=
  match at_point t with
  | Writing => forallb is_data (buffer t)
  | Idle | ReadLoadActive | ReadLoadWaiting | ReadEnter | WriteAnnounce | WriteClaim => released (buffer t)
  | _ => bool_decide (buffer t = [])
  end.

Definition t_reader (t : Thread) : bool := counts_reader (at_point t).
Definition t_waiting (t : Thread) : bool := counts_waiting (at_point t).
(** The thread holds [writer_active], or its release has not reached the memory. *)
Definition t_active (t : Thread) : bool := counts_active (at_point t) || pending (buffer t).
Definition t_reading (t : Thread) : bool := read_committed (at_point t).
(** The thread is past its last test as a writer, or its data has not reached the memory. *)
Definition t_writing (t : Thread) : bool := write_committed (at_point t) || dirty (buffer t).

Record tso_ok (s : Machine) : Prop := {
  tso_shape : Forall (λ t, buffer_shape t = true) (threads s);
  tso_readers : reader_count (counters (mem s)) = count t_reader (threads s);
  tso_active : writer_active (counters (mem s)) = count t_active (threads s);
  tso_waiting : writers_waiting (counters (mem s)) = count t_waiting (threads s);
  tso_one : (count t_active (threads s) <= 1)%Z;
  tso_excluded : (0 < count t_writing (threads s))%Z → count t_reading (threads s) = 0%Z
}.

(** The data once every pending store has reached the memory. *)
Definition drain (b : list store) (d : gmap nat Z) : gmap nat Z :=
  fold_left (λ d st, match st with StoreData k v => <[k := v]> d | StoreInactive => d end) b d.
Definition logical (s : Machine) : gmap nat Z :=
  fold_left (λ d t, drain (buffer t) d) (threads s) (cells (mem s)).

(** ** Lemmas: buffers *)

Lemma pending_snoc b st : pending (b ++ [st]) = pending b || negb (is_data st).
Proof. unfold pending. rewrite existsb_app. simpl. by rewrite orb_false_r. Qed.

Lemma dirty_snoc b st : dirty (b ++ [st]) = dirty b || is_data st.
Proof. unfold dirty. rewrite existsb_app. simpl. by rewrite orb_false_r. Qed.

Lemma data_not_pending b : forallb is_data b = true → pending b = false.
Proof. unfold pending. induction b as [|[] b IH]; simpl; auto. Qed.

Lemma data_released b : forallb is_data b = true → released (b ++ [StoreInactive]) = true.
Proof. induction b as [|[] b IH]; simpl; [done| |done]. intros Hb. rewrite IH by done. destruct b; done. Qed.

Lemma released_dirty b : released b = true → dirty b = true → pending b = true.
Proof. unfold pending, dirty. induction b as [|[] b IH]; simpl; auto. intros [? ?]%andb_true_iff _.
  destruct b as [|[] b]; simpl in *; auto. Qed.

Lemma released_tail st b : released (st :: b) = true → released b = true.
Proof. destruct st; simpl; [by intros [_ ?]%andb_true_iff|]. by intros ->%bool_decide_eq_true. Qed.

(** A thread whose data is on its way holds the lock, as far as the memory knows. *)
Lemma writing_active t : buffer_shape t = true → t_writing t = true → t_active t = true.
Proof.
  destruct t as [p b]. unfold buffer_shape, t_writing, t_active. simpl.
  destruct p; simpl; auto using released_dirty; try (by intros ->%bool_decide_eq_true).
Qed.

(** ** Lemmas: the invariant *)

Lemma count_implies_on {A} (P : A → bool) f g ts :
  Forall (λ t, P t = true) ts → (∀ t, P t = true → f t = true → g t = true) → (count f ts <= count g ts)%Z.
Proof.
  intros HP Hfg. induction HP as [|t ts Ht _ IH]; [done|]. rewrite !count_cons. specialize (Hfg t Ht).
  unfold b2z. destruct (f t), (g t); lia || (specialize (Hfg eq_refl); done).
Qed.

Lemma tso_initial_ok n d : tso_ok (tso_initial n d).
Proof. constructor; simpl; rewrite ?count_replicate by done; try done. by apply Forall_replicate. Qed.

Lemma tso_step_length s s' : tso_step s s' → length (threads s') = length (threads s).
Proof. destruct 1. simpl. by rewrite length_insert. Qed.

(** The shape of the buffers is kept by every step of a thread. *)
Lemma shape_step m t m' t' : tso_thread_step m t m' t' → buffer_shape t = true → buffer_shape t' = true.
Proof.
  destruct 1 as [p b p' Ha Hs|p g' p' Ha Hs|p b g' p' Ha Hs|k v b|p st b]; unfold buffer_shape; simpl.
  - destruct Ha; destruct Hs; try done; by intros ->%bool_decide_eq_true.
  - destruct Hs; done.
  - destruct Hs; try done; [by intros ->%bool_decide_eq_true|apply data_released].
  - rewrite forallb_app. simpl. by intros ->.
  - destruct p; eauto using released_tail; try (by intros ?%bool_decide_eq_true); destruct st; done.
Qed.

(** Evaluate the counts of one thread, whatever its buffer holds. *)
Ltac account :=
  unfold t_reader, t_active, t_waiting, t_reading, t_writing, buffer_shape, own_view, b2z in *; simpl in *;
  rewrite ?pending_snoc, ?dirty_snoc in *; simpl in *;
  repeat match goal with H : bool_decide (_ = []) = true |- _ => apply bool_decide_eq_true in H; subst end;
  simpl in *; rewrite ?wrap32_id by (unfold is_int, INT_MIN, INT_MAX in *; lia);
  repeat match goal with |- context [pending ?b] => destruct (pending b); simpl in * | H : context [pending ?b] |- _ => destruct (pending b); simpl in * end;
  repeat match goal with |- context [dirty ?b] => destruct (dirty b); simpl in * | H : context [dirty ?b] |- _ => destruct (dirty b); simpl in * end;
  try lia.

Lemma tso_step_ok s s' :
  (Z.of_nat (length (threads s)) <= INT_MAX)%Z → tso_ok s → tso_step s s' → tso_ok s'.
Proof.
  intros Hn [Hs Hr Ha Hw H1 Hx] Hstep. destruct Hstep as [m ts i t m' t' Hi Hstep]. simpl in *.
  pose proof (Forall_lookup_1 _ _ _ _ Hs Hi) as Ht. cbn beta in Ht.
  pose proof (shape_step _ _ _ _ Hstep Ht) as Ht'.
  pose proof (count_lookup t_reader ts i t Hi) as Lr. pose proof (count_lookup t_active ts i t Hi) as La.
  pose proof (count_lookup t_waiting ts i t Hi) as Lw. pose proof (count_lookup t_reading ts i t Hi) as Lc.
  pose proof (count_lookup t_writing ts i t Hi) as Lx.
  pose proof (count_implies_on _ _ _ _ Hs writing_active) as Cw.
  assert (count t_reading ts <= count t_reader ts)%Z as Cr.
  { apply count_implies. intros [[] b]; unfold t_reading, t_reader; done. }
  pose proof (count_nonneg t_writing ts). pose proof (count_nonneg t_reading ts).
  pose proof (count_length t_reader (<[i := t']> ts)) as Br. pose proof (count_length t_waiting (<[i := t']> ts)) as Bw.
  rewrite length_insert in Br, Bw. rewrite (count_insert t_reader ts i t) in Br by done.
  rewrite (count_insert t_waiting ts i t) in Bw by done.
  pose proof (count_nonneg t_reader ts). pose proof (count_nonneg t_waiting ts). pose proof (count_nonneg t_active ts).
  constructor; simpl; [by apply Forall_insert|..]; rewrite ?(count_insert _ ts i _ _ Hi); clear Hs Hi.
  all: destruct Hstep as [p b p' Hk Hstep|p g' p' Hk Hstep|p b g' p' Hk Hstep|k v b|p st b]; simpl in *.
  all: try (destruct Hstep; try (destruct Hk; done); try done).
  all: try (account; fail).
  all: destruct st, p; try done; account.
Qed.

Lemma tso_reachable_ok n d s :
  (Z.of_nat n <= INT_MAX)%Z → tso_reachable n d s → length (threads s) = n ∧ tso_ok s.
Proof.
  intros Hn Hr. unfold tso_reachable in Hr.
  apply (rtc_ind_r (λ s, length (threads s) = n ∧ tso_ok s) (tso_initial n d)) in Hr; [done| |].
  - split; [apply length_replicate|apply tso_initial_ok].
  - intros s1 s2 _ Hs [Hl Hok]. split; [by rewrite (tso_step_length s1)|].
    eapply tso_step_ok; [|done|done]. by rewrite Hl.
Qed.

(** ** Lemmas: the data *)

Lemma drain_app b b' d : drain (b ++ b') d = drain b' (drain b d).
Proof. apply fold_left_app. Qed.

Lemma drain_lookup b d k : drain b d !! k = load_cell b d k.
Proof.
  unfold load_cell. revert d. induction b as [|[k' v|] b IH]; intros d; [done| |by apply IH]. simpl. rewrite IH.
  destruct (newest k b); [done|]. destruct (decide (k' = k)) as [->|Hk]; [by rewrite lookup_insert_eq|by rewrite lookup_insert_ne].
Qed.

Lemma drain_clean b d : dirty b = false → drain b d = d.
Proof. unfold dirty. revert d. induction b as [|[] b IH]; intros d; simpl; [done|done|apply IH]. Qed.

Definition drain_all (ts : list Thread) (d : gmap nat Z) : gmap nat Z := fold_left (λ d t, drain (buffer t) d) ts d.

Lemma drain_all_clean ts d : Forall (λ t, dirty (buffer t) = false) ts → drain_all ts d = d.
Proof. intros Hts. revert d. induction Hts as [|t ts Ht _ IH]; intros d; [done|]. simpl. by rewrite drain_clean, IH. Qed.

(** With every other thread clean, only the stores of thread [i] are on their way. *)
Lemma drain_all_only ts i t d :
  ts !! i = Some t → (∀ j u, j ≠ i → ts !! j = Some u → dirty (buffer u) = false) →
  drain_all ts d = drain (buffer t) d.
Proof.
  revert i d. induction ts as [|x ts IH]; intros [|i] d Hi Hc; simpl in *; [done|done| |].
  - injection Hi as ->. apply drain_all_clean, Forall_lookup_2. intros j u Hu. by apply (Hc (S j) u).
  - rewrite (drain_clean (buffer x)) by (by apply (Hc 0)). apply (IH i); [done|]. intros j u Hj Hu.
    apply (Hc (S j)); [congruence|done].
Qed.

(** Thread [i] holds the lock as far as the memory knows: the others have no data on its way. *)
Lemma active_others_clean s i t :
  tso_ok s → threads s !! i = Some t → t_active t = true →
  ∀ j u, j ≠ i → threads s !! j = Some u → dirty (buffer u) = false.
Proof.
  intros Hok Hi Ht j u Hj Hu. apply not_true_is_false. intros Hd.
  assert (t_active u = true) as Hau.
  { apply writing_active; [exact (Forall_lookup_1 _ _ _ _ (tso_shape s Hok) Hu)|]. unfold t_writing. by rewrite Hd, orb_true_r. }
  pose proof (count_two t_active (threads s) j i u t Hj Hu Hi Hau Ht). destruct Hok. lia.
Qed.

Lemma reading_clean s i t :
  tso_ok s → threads s !! i = Some t → t_reading t = true →
  ∀ j u, threads s !! j = Some u → t_writing u = false.
Proof.
  intros Hok Hi Ht j u Hu. apply not_true_is_false. intros Hw.
  pose proof (count_lookup t_writing _ _ _ Hu) as Lw. pose proof (count_lookup t_reading _ _ _ Hi) as Lr.
  rewrite Hw in Lw. rewrite Ht in Lr. simpl in *. destruct Hok. lia.
Qed.

Lemma logical_dirty s i t :
  tso_ok s → threads s !! i = Some t → t_active t = true → logical s = drain (buffer t) (cells (mem s)).
Proof. intros Hok Hi Ht. apply (drain_all_only _ i); [done|]. by eapply active_others_clean. Qed.

Lemma drain_all_insert ts i t t' d :
  ts !! i = Some t → (∀ d, drain (buffer t') d = drain (buffer t) d) → drain_all (<[i := t']> ts) d = drain_all ts d.
Proof.
  revert i d. induction ts as [|x ts IH]; intros [|i] d Hi Ht; simpl in *; [done|done| |].
  - injection Hi as ->. by rewrite Ht.
  - by apply IH.
Qed.

Lemma drain_all_only_insert ts i t t' d :
  ts !! i = Some t → (∀ j u, j ≠ i → ts !! j = Some u → dirty (buffer u) = false) →
  drain_all (<[i := t']> ts) d = drain (buffer t') d.
Proof.
  intros Hi Hc. apply (drain_all_only _ i).
  - apply list_lookup_insert_eq. by eapply lookup_lt_Some.
  - intros j u Hj. rewrite list_lookup_insert_ne by done. by apply Hc.
Qed.

(** A step leaves the data as it is, or is a store made inside a write section. *)
Lemma logical_step s s' :
  tso_ok s → tso_step s s' →
  logical s' = logical s ∨
  ∃ i t k v, threads s !! i = Some t ∧ at_point t = Writing ∧ logical s' = <[k := v]> (logical s).
Proof.
  intros Hok Hstep. destruct Hstep as [m ts i t m' t' Hi Hstep].
  pose proof (Forall_lookup_1 _ _ _ _ (tso_shape _ Hok) Hi) as Ht. cbn beta in Ht.
  unfold logical. cbn [threads mem] in *. fold (drain_all ts (cells m)). fold (drain_all (<[i := t']> ts) (cells m')).
  destruct Hstep as [p b p' Hk Hstep|p g' p' Hk Hstep|p b g' p' Hk Hstep|k v b|p st b].
  - left. by apply (drain_all_insert _ _ _ _ _ Hi).
  - left. by apply (drain_all_insert _ _ _ _ _ Hi).
  - left. apply (drain_all_insert _ _ _ _ _ Hi). intros d. cbn [buffer]. by rewrite drain_app.
  - right. exists i, (mkThread Writing b), k, v. split_and!; [done|done|].
    pose proof (active_others_clean _ i _ Hok Hi eq_refl) as Hc. cbn [threads] in Hc.
    rewrite (drain_all_only_insert _ _ _ _ _ Hi Hc), (drain_all_only _ _ _ _ Hi Hc). cbn [buffer]. by rewrite drain_app.
  - left. destruct st as [k v|]; [|by apply (drain_all_insert _ _ _ _ _ Hi)].
    assert (t_active (mkThread p (StoreData k v :: b)) = true) as Ha.
    { apply writing_active; [done|]. unfold t_writing. cbn. apply orb_true_r. }
    pose proof (active_others_clean _ i _ Hok Hi Ha) as Hc. cbn [threads] in Hc.
    by rewrite (drain_all_only_insert _ _ _ _ _ Hi Hc), (drain_all_only _ _ _ _ Hi Hc).
Qed.

(** ** Properties *)

(** C16. Mutual exclusion survives the delayed stores of x86: in every state that threads reach
    on the store-buffer machine, a thread inside a write section is alone, and while a thread is
    inside any section no other thread has a store to the protected data on its way to the
    memory. *)
Theorem guard_tso_mutual_exclusion n d s i j t u :
  (Z.of_nat n <= INT_MAX)%Z → tso_reachable n d s →
  threads s !! i = Some t → threads s !! j = Some u → i ≠ j →
  (at_point t = Writing → at_point u ≠ Writing ∧ at_point u ≠ Reading) ∧
  (at_point t = Writing ∨ at_point t = Reading → dirty (buffer u) = false).
Proof.
  intros Hn Hr Hi Hj Hij. destruct (tso_reachable_ok n d s Hn Hr) as [_ Hok]. split.
  - intros Ht. split; intros Hu.
    + assert (t_active t = true ∧ t_active u = true) as [Hat Hau] by (unfold t_active; by rewrite Ht, Hu).
      pose proof (count_two t_active _ i j t u Hij Hi Hj Hat Hau). destruct Hok. lia.
    + assert (t_writing t = false) as Hw by (eapply (reading_clean s j u); [done|done|unfold t_reading; by rewrite Hu|done]).
      unfold t_writing in Hw. by rewrite Ht in Hw.
  - intros [Ht|Ht].
    + eapply (active_others_clean s i t); [done|done| |by apply not_eq_sym|done]. unfold t_active. by rewrite Ht.
    + assert (t_writing u = false) as Hw by (eapply (reading_clean s i t); [done|done|unfold t_reading; by rewrite Ht|done]).
      unfold t_writing in Hw. by apply orb_false_iff in Hw as [_ ?].
Qed.

(** C17. The protected data is sequentially consistent on the store-buffer machine: there is one
    logical content, changed only by the stores made inside write sections, each at the moment
    it is made; and every load made inside a section, of a reader or a writer, returns it. *)
Theorem guard_tso_data n d s :
  (Z.of_nat n <= INT_MAX)%Z → tso_reachable n d s →
  (∀ i t k, threads s !! i = Some t → at_point t = Writing ∨ at_point t = Reading →
     load_cell (buffer t) (cells (mem s)) k = logical s !! k) ∧
  (∀ s', tso_step s s' → logical s' = logical s ∨
     ∃ i t k v, threads s !! i = Some t ∧ at_point t = Writing ∧ logical s' = <[k := v]> (logical s)).
Proof.
  intros Hn Hr. destruct (tso_reachable_ok n d s Hn Hr) as [_ Hok]. split; [|intros s'; by apply logical_step].
  intros i t k Hi Ht. rewrite <- drain_lookup. destruct Ht as [Ht|Ht].
  - rewrite (logical_dirty s i t Hok Hi); [done|]. unfold t_active. by rewrite Ht.
  - unfold logical. fold (drain_all (threads s) (cells (mem s))). rewrite (drain_all_only _ i t); [done|done|].
    intros j u _ Hu. assert (t_writing u = false) as Hw by (eapply (reading_clean s i t); [done|done|unfold t_reading; by rewrite Ht|done]).
    unfold t_writing in Hw. by apply orb_false_iff in Hw as [_ ?].
Qed.

(** Thread [i] takes the step of the lock [lock], as the machine rule [rule]. *)
Ltac tso_rule i rule lock :=
  eapply rtc_l; [eapply (tso_thread _ _ i); [reflexivity|eapply rule; [first [reflexivity|left; reflexivity|right; reflexivity]|apply lock; reflexivity]]|]; simpl.

(** A writer stores to a cell and unlocks; both stores are pending when a reader loads
    [writer_active] for the first time. *)
Definition after_write : Machine :=
  mkMachine (mkMemory (mkDbGuard 0 1 0) (<[0 := 5%Z]> ∅))
    [mkThread Idle [StoreData 0 7; StoreInactive]; mkThread ReadLoadActive []].

Lemma after_write_reachable : tso_reachable 2 (<[0 := 5%Z]> ∅) after_write.
Proof.
  unfold tso_reachable, tso_initial, db_guard_create. simpl.
  tso_rule 0 tso_load start_write. tso_rule 1 tso_load start_read. tso_rule 0 tso_rmw write_announce.
  tso_rule 0 tso_rmw write_claim_ok. tso_rule 0 tso_load write_readers_none. tso_rule 0 tso_rmw write_retract.
  eapply rtc_l; [eapply (tso_thread _ _ 0); [reflexivity|apply (tso_write_data _ 0 7)]|]; simpl.
  tso_rule 0 tso_store write_unlock. apply rtc_refl.
Qed.

(** Inside the read section that follows, once the stores have reached the memory. *)
Definition then_read : Machine :=
  mkMachine (mkMemory (mkDbGuard 1 0 0) (<[0 := 7%Z]> (<[0 := 5%Z]> ∅))) [mkThread Idle []; mkThread Reading []].

Lemma then_read_reachable : tso_reachable 2 (<[0 := 5%Z]> ∅) then_read.
Proof.
  unfold tso_reachable. etrans; [exact after_write_reachable|]. unfold after_write.
  do 2 (eapply rtc_l; [eapply (tso_thread _ _ 0); [reflexivity|apply tso_flush]|]; simpl).
  tso_rule 1 tso_load read_active_free. tso_rule 1 tso_load read_waiting_free. tso_rule 1 tso_rmw read_enter.
  tso_rule 1 tso_load read_check_active_free. tso_rule 1 tso_load read_check_waiting_free. apply rtc_refl.
Qed.

Lemma guard_tso_mutual_exclusion_witness :
  tso_reachable 2 (<[0 := 5%Z]> ∅) then_read ∧ dirty (buffer (mkThread Idle [])) = false.
Proof.
  split; [exact then_read_reachable|].
  apply (guard_tso_mutual_exclusion 2 (<[0 := 5%Z]> ∅) then_read 1 0 (mkThread Reading []) (mkThread Idle []));
    [done|exact then_read_reachable|reflexivity|reflexivity|done|by right].
Defined.

Lemma guard_tso_data_witness :
  logical after_write !! 0 = Some 7%Z ∧ logical then_read !! 0 = Some 7%Z ∧
  load_cell [] (cells (mem then_read)) 0 = logical then_read !! 0.
Proof.
  split; [reflexivity|]. split; [reflexivity|].
  apply (guard_tso_data 2 (<[0 := 5%Z]> ∅) then_read) with (i := 1) (t := mkThread Reading []);
    [done|exact then_read_reachable|reflexivity|by right].
Defined.
