(* ===== verification/GuardWeak.v ===== *)
(** * [src/src/server/concurrency/db_guard.c] with the memory orders it asks for

    The lock names a memory order at each atomic operation: acquire for the loads and for the
    increment of [reader_count], release for its decrements and for the stores of
    [writer_active], both for the other read-modify-writes.  Here the operations run on a
    machine that gives no more than that.  Every location keeps all values written to it, in
    modification order, each with the view its writer passes on; a thread has a view, for each
    location the newest value it knows of; an acquire load returns any value not older than that
    and takes over the view that comes with it; a read-modify-write extends the newest value.
    One more component of the views counts the writes to the protected data, so that a thread
    whose view has the newest one happens after them all.

    A store here goes to the end of the modification order; [store_is_newest] shows that there is
    no other place for it, because the storing thread knows the newest value. *)

From stdpp Require Import base list relations.
From S2P Require Import Prelude CString DbGuard.

(** ** The machine *)

Inductive location := ReaderCount | WriterActive | WritersWaiting.

#[export] Instance location_eq_dec : EqDecision location.
Proof. solve_decision. Defined.

Record View := mkView { at_loc : location → nat; at_data : nat }.

Definition view_zero : View := mkView (λ _, 0) 0.
Definition view_join (v w : View) : View :=
  mkView (λ l, at_loc v l `max` at_loc w l) (at_data v `max` at_data w).
Definition view_set (l : location) (k : nat) (v : View) : View :=
  mkView (λ l', if decide (l' = l) then k else at_loc v l') (at_data v).

Record Message := mkMessage { value : Z; passed : View }.

(** The modification order of each location, oldest first, and how often the data was written. *)
Record WeakMemory := mkWeakMemory { history : location → list Message; data_writes : nat }.

Definition append (l : location) (m : Message) (mem : WeakMemory) : WeakMemory :=
  mkWeakMemory (λ l', if decide (l' = l) then history mem l ++ [m] else history mem l') (data_writes mem).

Record WeakThread := mkWeakThread { wpoint : point; wview : View }.
Record Weak := mkWeak { wmem : WeakMemory; wthreads : list WeakThread }.

(** The atomic operation at each point of the lock: its location, its kind and its order. *)
Inductive operation :=
| OpLoad (l : location)                                   (** [memory_order_acquire] *)
| OpUpdate (l : location) (acquire release : bool)        (** a read-modify-write *)
| OpStore (l : location)                                  (** [memory_order_release] *)
| OpNone.

Definition operation_of (p : point) : operation :=
  match p with
  | Idle => OpNone
  | ReadLoadActive | ReadCheckActive => OpLoad WriterActive
  | ReadLoadWaiting | ReadCheckWaiting => OpLoad WritersWaiting
  | ReadEnter => OpUpdate ReaderCount true false
  | ReadBackOff | Reading => OpUpdate ReaderCount false true
  | WriteAnnounce | WriteRetract => OpUpdate WritersWaiting true true
  | WriteClaim => OpUpdate WriterActive true true
  | WriteCheckReaders => OpLoad ReaderCount
  | WriteRelease | Writing => OpStore WriterActive
  end.

(** The counters as an operation on one location sees them, and what it leaves there. *)
Definition reads (v : Z) : DbGuard := mkDbGuard v v v.
Definition left_in (l : location) (g : DbGuard) : Z :=
  match l with ReaderCount => reader_count g | WriterActive => writer_active g | WritersWaiting => writers_waiting g end.

(** The view after reading value number [k] of [l], which came with the view of [m]. *)
Definition acquire_view (l : location) (k : nat) (m : Message) (v : View) : View := view_join v (view_set l k (passed m)).

Inductive weak_thread_step (mem : WeakMemory) : WeakThread → WeakMemory → WeakThread → Prop :=
| weak_start p' v :
    thread_step (reads 0) Idle (reads 0) p' →
    weak_thread_step mem (mkWeakThread Idle v) mem (mkWeakThread p' v)
| weak_load p v l k m p' :
    operation_of p = OpLoad l → at_loc v l ≤ k → history mem l !! k = Some m →
    thread_step (reads (value m)) p (reads (value m)) p' →
    weak_thread_step mem (mkWeakThread p v) mem (mkWeakThread p' (acquire_view l k m v))
| weak_claim_fail v k m :
    at_loc v WriterActive ≤ k → history mem WriterActive !! k = Some m →
    weak_thread_step mem (mkWeakThread WriteClaim v) mem (mkWeakThread WriteClaim (acquire_view WriterActive k m v))
| weak_update p v l (acquire release : bool) m g' p' (k := length (history mem l)) :
    operation_of p = OpUpdate l acquire release → last (history mem l) = Some m → p' ≠ p →
    thread_step (reads (value m)) p g' p' →
    let v' := view_set l k (if acquire then view_join v (passed m) else v) in
    let w := view_set l k (if release then view_join v' (passed m) else passed m) in
    weak_thread_step mem (mkWeakThread p v) (append l (mkMessage (left_in l g') w) mem) (mkWeakThread p' v')
| weak_store p v l g' p' (k := length (history mem l)) :
    operation_of p = OpStore l → thread_step (reads 0) p g' p' →
    let v' := view_set l k v in
    weak_thread_step mem (mkWeakThread p v) (append l (mkMessage (left_in l g') v') mem) (mkWeakThread p' v')
| weak_write_data v :
    weak_thread_step mem (mkWeakThread Writing v) (mkWeakMemory (history mem) (S (data_writes mem)))
      (mkWeakThread Writing (mkView (at_loc v) (S (data_writes mem)))).

Inductive weak_step : Weak → Weak → Prop :=
| weak_thread mem ts i t mem' t' :
    ts !! i = Some t → weak_thread_step mem t mem' t' →
    weak_step (mkWeak mem ts) (mkWeak mem' (<[i := t']> ts)).

Definition weak_initial (n : nat) : Weak :=
  mkWeak (mkWeakMemory (λ _, [mkMessage 0 view_zero]) 0) (replicate n (mkWeakThread Idle view_zero)).

Definition weak_reachable (n : nat) (s : Weak) : Prop := rtc weak_step (weak_initial n) s.

(** ** The invariant: writers *)

Definition newest_active (mem : WeakMemory) : nat := pred (length (history mem WriterActive)).
Definition w_active (t : WeakThread) : bool := counts_active (wpoint t).

(** A view that does not run ahead of the memory. *)
Definition behind (mem : WeakMemory) (v : View) : Prop :=
  at_loc v WriterActive ≤ newest_active mem ∧ at_data v ≤ data_writes mem.

(** A view with the newest value of [writer_active] and every write to the data. *)
Definition newest_view (mem : WeakMemory) (v : View) : Prop :=
  at_loc v WriterActive = newest_active mem ∧ at_data v = data_writes mem.

Record weak_ok (s : Weak) : Prop := {
  ok_messages : ∀ l, Forall (λ m, behind (wmem s) (passed m)) (history (wmem s) l);
  ok_views : Forall (λ t, behind (wmem s) (wview t)) (wthreads s);
  ok_one : (count w_active (wthreads s) <= 1)%Z;
  ok_active : Forall (λ t, w_active t = true → newest_view (wmem s) (wview t)) (wthreads s);
  ok_newest : ∃ m, last (history (wmem s) WriterActive) = Some m ∧ value m = count w_active (wthreads s) ∧
    (value m = 0%Z → at_data (passed m) = data_writes (wmem s))
}.

(** ** Lemmas: views *)

Lemma behind_join mem v w : behind mem v → behind mem w → behind mem (view_join v w).
Proof. unfold behind. simpl. lia. Qed.

Lemma newest_join mem v w : newest_view mem v → behind mem w → newest_view mem (view_join v w).
Proof. unfold newest_view, behind. simpl. lia. Qed.

Lemma behind_set mem l k v :
  behind mem v → (l = WriterActive → k ≤ newest_active mem) → behind mem (view_set l k v).
Proof. unfold behind, view_set. simpl. intros [? ?] Hk. destruct (decide (WriterActive = l)) as [<-|]; auto. Qed.

Lemma newest_set_other mem l k v : l ≠ WriterActive → newest_view mem v → newest_view mem (view_set l k v).
Proof. unfold newest_view, view_set. simpl. intros Hl. by rewrite decide_False. Qed.

Lemma behind_mono mem mem' v :
  newest_active mem ≤ newest_active mem' → data_writes mem ≤ data_writes mem' → behind mem v → behind mem' v.
Proof. unfold behind. lia. Qed.

Lemma newest_behind mem v : newest_view mem v → behind mem v.
Proof. unfold newest_view, behind. lia. Qed.

Lemma newest_active_append l m mem :
  newest_active (append l m mem) = if decide (l = WriterActive) then length (history mem WriterActive) else newest_active mem.
Proof.
  unfold newest_active, append. simpl. destruct (decide (l = WriterActive)) as [->|Hl].
  - rewrite decide_True by done. rewrite length_app. simpl. lia.
  - by rewrite decide_False.
Qed.

Lemma history_append l l' m mem :
  history (append l m mem) l' = if decide (l' = l) then history mem l ++ [m] else history mem l'.
Proof. done. Qed.

(** A value that can be read comes with a view the memory is not behind. *)
Lemma read_behind s l k m :
  weak_ok s → history (wmem s) l !! k = Some m → behind (wmem s) (view_set l k (passed m)).
Proof.
  intros Hok Hm. apply behind_set; [exact (Forall_lookup_1 _ _ _ _ (ok_messages s Hok l) Hm)|].
  intros ->. apply lookup_lt_Some in Hm. unfold newest_active. lia.
Qed.

Lemma last_behind s l m : weak_ok s → last (history (wmem s) l) = Some m → behind (wmem s) (passed m).
Proof. intros Hok Hm. rewrite last_lookup in Hm. exact (Forall_lookup_1 _ _ _ _ (ok_messages s Hok l) Hm). Qed.

(** ** Lemmas: the invariant *)

Lemma weak_initial_ok n : weak_ok (weak_initial n).
Proof.
  constructor; simpl.
  - intros l. by constructor; [|constructor].
  - by apply Forall_replicate.
  - by rewrite count_replicate.
  - apply Forall_replicate. done.
  - eexists. split; [done|]. by rewrite count_replicate.
Qed.

(** A step that touches neither [writer_active] nor the data, and keeps the thread where it was
    as a writer. *)
Lemma weak_ok_quiet mem ts i t mem' t' :
  weak_ok (mkWeak mem ts) → ts !! i = Some t →
  history mem' WriterActive = history mem WriterActive → data_writes mem' = data_writes mem →
  (∀ l, Forall (λ m, behind mem (passed m)) (history mem' l)) →
  w_active t' = w_active t → behind mem (wview t') →
  (w_active t = true → newest_view mem (wview t) → newest_view mem (wview t')) →
  weak_ok (mkWeak mem' (<[i := t']> ts)).
Proof.
  intros [Hm Hv H1 Ha Hn] Hi Hh Hd Hm' Hsame Hb Hnew. simpl in *.
  assert (Hbe : ∀ v, behind mem v → behind mem' v) by (intros v; unfold behind, newest_active; by rewrite Hh, Hd).
  assert (Hne : ∀ v, newest_view mem v → newest_view mem' v) by (intros v; unfold newest_view, newest_active; by rewrite Hh, Hd).
  assert (Hc : count w_active (<[i := t']> ts) = count w_active ts) by (rewrite (count_insert _ ts i t) by done; rewrite Hsame; lia).
  constructor; simpl; rewrite ?Hc, ?Hh, ?Hd; try done.
  - intros l. eapply Forall_impl; [apply Hm'|]. intros m. apply Hbe.
  - apply Forall_insert; [|by apply Hbe]. eapply Forall_impl; [exact Hv|]. intros u. apply Hbe.
  - apply Forall_insert; [eapply Forall_impl; [exact Ha|]; cbn beta; auto|]. rewrite Hsame. intros Ht.
    apply Hne, Hnew; [done|]. exact (Forall_lookup_1 _ _ _ _ Ha Hi Ht).
Qed.

Lemma count_zero {A} (f : A → bool) ts : (∀ j u, ts !! j = Some u → f u = false) → count f ts = 0%Z.
Proof.
  induction ts as [|x ts IH]; intros Hf; [done|]. rewrite count_cons, (Hf 0 x), IH; [done| |done].
  intros j u. apply (Hf (S j)).
Qed.

Lemma count_only {A} (f : A → bool) ts i t :
  ts !! i = Some t → (∀ j u, j ≠ i → ts !! j = Some u → f u = false) → count f ts = b2z (f t).
Proof.
  revert i. induction ts as [|x ts IH]; intros [|i] Hi Ho; simpl in *; [done|done| |]; rewrite count_cons.
  - injection Hi as ->. rewrite count_zero; [lia|]. intros j u. by apply (Ho (S j)).
  - rewrite (Ho 0 x), (IH i); [simpl; lia|done| |done|done]. intros j u Hj. apply (Ho (S j)). congruence.
Qed.

(** With thread [i] the only one that can be active afterwards, a change of [writer_active] or of
    the data. *)
Lemma weak_ok_writer mem ts i t mem' t' m :
  weak_ok (mkWeak mem ts) → ts !! i = Some t →
  (∀ j u, j ≠ i → ts !! j = Some u → w_active u = false) →
  newest_active mem ≤ newest_active mem' → data_writes mem ≤ data_writes mem' →
  (∀ l, Forall (λ m, behind mem' (passed m)) (history mem' l)) →
  newest_view mem' (wview t') →
  last (history mem' WriterActive) = Some m → value m = b2z (w_active t') →
  (value m = 0%Z → at_data (passed m) = data_writes mem') →
  weak_ok (mkWeak mem' (<[i := t']> ts)).
Proof.
  intros [Hm Hv H1 Ha Hn] Hi Ho Hla Hld Hm' Hnew Hlast Hval Hz. simpl in *.
  assert (Hc : count w_active (<[i := t']> ts) = b2z (w_active t')).
  { rewrite (count_insert _ ts i t), (count_only _ ts i t) by done. lia. }
  constructor; simpl; rewrite ?Hc; try done.
  - apply Forall_insert; [|by apply newest_behind]. eapply Forall_impl; [exact Hv|]. cbn beta. intros u. by apply behind_mono.
  - destruct (w_active t'); simpl; lia.
  - apply Forall_lookup_2. intros j u [(<- & <- & _)|[Hj Hu]]%list_lookup_insert_Some Hau; [done|].
    by rewrite (Ho j u) in Hau.
  - eauto.
Qed.

Lemma others_inactive s i t :
  weak_ok s → wthreads s !! i = Some t → w_active t = true →
  ∀ j u, j ≠ i → wthreads s !! j = Some u → w_active u = false.
Proof.
  intros Hok Hi Ht j u Hj Hu. apply not_true_is_false. intros Hau.
  pose proof (count_two w_active _ j i u t Hj Hu Hi Hau Ht). pose proof (ok_one s Hok). lia.
Qed.

Lemma none_active s : count w_active (wthreads s) = 0%Z → ∀ j u, wthreads s !! j = Some u → w_active u = false.
Proof.
  intros Hc j u Hu. apply not_true_is_false. intros Hau.
  pose proof (count_lookup w_active _ _ _ Hu) as Hl. rewrite Hau in Hl. simpl in Hl. lia.
Qed.

(** The step of the lock that an operation other than on [writer_active] makes keeps a writer a
    writer. *)
Lemma load_keeps_active g p g' p' l : operation_of p = OpLoad l → thread_step g p g' p' → counts_active p' = counts_active p.
Proof. intros Hop Hs. destruct Hs; done. Qed.

Lemma update_keeps_active g p g' p' l a r :
  operation_of p = OpUpdate l a r → l ≠ WriterActive → thread_step g p g' p' → counts_active p' = counts_active p.
Proof. intros Hop Hl Hs. destruct Hs; try done; simpl in Hop; congruence. Qed.

Lemma claim_step g p g' p' a r :
  operation_of p = OpUpdate WriterActive a r → p' ≠ p → thread_step g p g' p' →
  p = WriteClaim ∧ p' = WriteCheckReaders ∧ a = true ∧ r = true ∧ writer_active g = 0%Z ∧ writer_active g' = 1%Z.
Proof. intros Hop Hp Hs. destruct Hs; simpl in Hop; try done; simplify_eq; auto 10. Qed.

Lemma store_step g p g' p' l :
  operation_of p = OpStore l → thread_step g p g' p' →
  l = WriterActive ∧ counts_active p = true ∧ counts_active p' = false ∧ writer_active g' = 0%Z.
Proof. intros Hop Hs. destruct Hs; simpl in Hop; try done; simplify_eq; auto. Qed.

(** The messages of the memory with one more. *)
Lemma append_behind s l m mem' :
  weak_ok s → behind mem' (passed m) →
  newest_active (wmem s) ≤ newest_active mem' → data_writes (wmem s) ≤ data_writes mem' →
  ∀ l', Forall (λ m, behind mem' (passed m)) (history (append l m (wmem s)) l').
Proof.
  intros Hok Hb Ha Hd l'. rewrite history_append.
  assert (∀ l'', Forall (λ m, behind mem' (passed m)) (history (wmem s) l'')) as Hall.
  { intros l''. eapply Forall_impl; [apply (ok_messages s Hok)|]. intros x. by apply behind_mono. }
  destruct (decide (l' = l)) as [->|]; [|done]. apply Forall_app. split; [done|by constructor].
Qed.

Lemma weak_update_ok mem ts i p v l (acquire release : bool) m g' p' :
  weak_ok (mkWeak mem ts) → ts !! i = Some (mkWeakThread p v) →
  operation_of p = OpUpdate l acquire release → last (history mem l) = Some m → p' ≠ p →
  thread_step (reads (value m)) p g' p' →
  let k := length (history mem l) in
  let v' := view_set l k (if acquire then view_join v (passed m) else v) in
  let w := view_set l k (if release then view_join v' (passed m) else passed m) in
  weak_ok (mkWeak (append l (mkMessage (left_in l g') w) mem) (<[i := mkWeakThread p' v']> ts)).
Proof.
  intros Hok Hi Hop Hlast Hp Hs k v' w.
  pose proof (last_behind _ _ _ Hok Hlast) as Hmb. simpl in Hmb.
  pose proof (Forall_lookup_1 _ _ _ _ (ok_views _ Hok) Hi) as Hvb. simpl in Hvb.
  destruct (decide (l = WriterActive)) as [->|Hl].
  - destruct (claim_step _ _ _ _ _ _ Hop Hp Hs) as (-> & -> & -> & -> & Hz & H1). simpl in Hz.
    destruct (ok_newest _ Hok) as (m' & Hlast' & Hval & Hdata). simpl in *. rewrite Hlast in Hlast'. injection Hlast' as <-.
    specialize (Hdata Hz). pose proof (none_active (mkWeak mem ts) (eq_trans (eq_sym Hval) Hz)) as Hnone. simpl in Hnone.
    set (mem' := append _ _ mem).
    assert (Hnew : newest_active mem' = k) by (unfold mem'; rewrite newest_active_append, decide_True; done).
    assert (Hk : newest_active mem ≤ k) by (unfold newest_active, k; lia).
    assert (Hvd : newest_view mem' v').
    { unfold newest_view. rewrite Hnew. unfold v', behind in *. simpl. split; [done|]. rewrite Hdata. lia. }
    eapply (weak_ok_writer _ _ i _ _ _ (mkMessage 1 w)); [done|done| |lia|done| |done| |done|done].
    + intros j u _. apply Hnone.
    + apply (append_behind _ _ _ _ Hok); [|simpl; lia|done]. simpl.
      apply behind_set; [|intros _; rewrite Hnew; lia]. apply behind_join; [by apply newest_behind|].
      eapply behind_mono; [| |exact Hmb]; [rewrite Hnew; exact Hk|done].
    + unfold mem'. rewrite history_append, decide_True by done. rewrite last_snoc, H1. done.
  - assert (Hv' : behind mem v').
    { unfold v'. apply behind_set; [|done]. destruct acquire; [by apply behind_join|done]. }
    eapply weak_ok_quiet; [done|done| |done| | |done|].
    + rewrite history_append. by rewrite decide_False.
    + apply (append_behind _ _ _ _ Hok); [|done|done]. simpl. unfold w.
      apply behind_set; [|done]. destruct release; [by apply behind_join|done].
    + exact (update_keeps_active _ _ _ _ _ _ _ Hop Hl Hs).
    + intros _ Hnv. unfold v'. apply newest_set_other; [done|]. destruct acquire; [by apply newest_join|done].
Qed.

Lemma weak_store_ok mem ts i p v l g' p' :
  weak_ok (mkWeak mem ts) → ts !! i = Some (mkWeakThread p v) →
  operation_of p = OpStore l → thread_step (reads 0) p g' p' →
  let v' := view_set l (length (history mem l)) v in
  weak_ok (mkWeak (append l (mkMessage (left_in l g') v') mem) (<[i := mkWeakThread p' v']> ts)).
Proof.
  intros Hok Hi Hop Hs v'. destruct (store_step _ _ _ _ _ Hop Hs) as (-> & Hp & Hp' & Hg).
  assert (Hnv : newest_view mem v) by exact (Forall_lookup_1 _ _ _ _ (ok_active _ Hok) Hi Hp).
  set (mem' := append _ _ mem).
  assert (Hnew : newest_active mem' = length (history mem WriterActive)) by (unfold mem'; by rewrite newest_active_append, decide_True).
  assert (Hk : newest_active mem ≤ newest_active mem') by (rewrite Hnew; unfold newest_active; lia).
  assert (Hv' : newest_view mem' v') by (unfold newest_view; rewrite Hnew; unfold v'; simpl; split; [done|apply Hnv]).
  eapply (weak_ok_writer _ _ i _ _ _ (mkMessage 0 v')); [done|done| |done|done| |done| | |].
  - exact (others_inactive _ i _ Hok Hi Hp).
  - apply (append_behind _ _ _ _ Hok); [|done|done]. by apply newest_behind.
  - unfold mem'. rewrite history_append, decide_True by done. simpl. by rewrite last_snoc, Hg.
  - unfold w_active. simpl. by rewrite Hp'.
  - intros _. apply Hv'.
Qed.

Lemma weak_data_ok mem ts i v :
  weak_ok (mkWeak mem ts) → ts !! i = Some (mkWeakThread Writing v) →
  weak_ok (mkWeak (mkWeakMemory (history mem) (S (data_writes mem)))
    (<[i := mkWeakThread Writing (mkView (at_loc v) (S (data_writes mem)))]> ts)).
Proof.
  intros Hok Hi. pose proof (others_inactive _ i _ Hok Hi eq_refl) as Ho.
  pose proof (Forall_lookup_1 _ _ _ _ (ok_active _ Hok) Hi eq_refl) as [Ha Hd]. simpl in *.
  destruct (ok_newest _ Hok) as (m & Hlast & Hval & _). simpl in *.
  rewrite (count_only _ ts i _ Hi Ho) in Hval. unfold w_active, b2z in Hval. simpl in Hval.
  eapply (weak_ok_writer _ _ i _ _ _ m); [done|done|done|done|simpl; lia| |done|done|done|by rewrite Hval].
  intros l. eapply Forall_impl; [exact (ok_messages _ Hok l)|]. intros x. apply behind_mono; [done|simpl; lia].
Qed.

Lemma weak_step_ok s s' : weak_ok s → weak_step s s' → weak_ok s'.
Proof.
  intros Hok Hstep. destruct Hstep as [mem ts i t mem' t' Hi Hstep].
  pose proof (Forall_lookup_1 _ _ _ _ (ok_views _ Hok) Hi) as Hvb. cbn beta in Hvb.
  destruct Hstep as [p' v Hs|p v l k m p' Hop Hk Hm Hs|v k m Hk Hm|p v l a r m g' p' k Hop Hm Hp Hs|p v l g' p' k Hop Hs|v];
    [| | |by eapply weak_update_ok|by eapply weak_store_ok|by apply weak_data_ok];
    (eapply weak_ok_quiet; [done|done|done|done|exact (ok_messages _ Hok)| | |]); simpl in *.
  - inversion Hs; done.
  - done.
  - done.
  - exact (load_keeps_active _ _ _ _ _ Hop Hs).
  - apply behind_join; [done|]. exact (read_behind _ _ _ _ Hok Hm).
  - intros _ Hnv. apply newest_join; [done|]. exact (read_behind _ _ _ _ Hok Hm).
  - done.
  - apply behind_join; [done|]. exact (read_behind _ _ _ _ Hok Hm).
  - done.
Qed.

Lemma weak_reachable_ok n s : weak_reachable n s → weak_ok s.
Proof.
  intros Hr. apply (rtc_ind_r weak_ok (weak_initial n)) in Hr; [done|apply weak_initial_ok|].
  intros s1 s2 _ Hs Hok. by eapply weak_step_ok.
Qed.

(** A thread about to store to [writer_active] knows its newest value: the store can only come
    after it. *)
Lemma store_is_newest n s i t l :
  weak_reachable n s → wthreads s !! i = Some t → operation_of (wpoint t) = OpStore l →
  l = WriterActive ∧ at_loc (wview t) l = newest_active (wmem s).
Proof.
  intros Hr Hi Hop. pose proof (weak_reachable_ok n s Hr) as Hok.
  assert (l = WriterActive ∧ w_active t = true) as [-> Ha].
  { unfold w_active. destruct (wpoint t); simpl in Hop; try done; by simplify_eq. }
  split; [done|]. by apply (Forall_lookup_1 _ _ _ _ (ok_active s Hok) Hi).
Qed.

(** ** Properties *)

(** C18. The memory orders of the source are enough between writers: on the acquire-release
    machine no two threads are inside a write section at once, and a thread inside one happens
    after every write to the protected data made so far, so write sections see each other's
    work and never race.  This needs no bound on the number of threads. *)
Theorem guard_weak_writers n s i t :
  weak_reachable n s → wthreads s !! i = Some t → wpoint t = Writing →
  at_data (wview t) = data_writes (wmem s) ∧
  (∀ j u, wthreads s !! j = Some u → wpoint u = Writing → j = i).
Proof.
  intros Hr Hi Ht. pose proof (weak_reachable_ok n s Hr) as Hok.
  assert (Ha : w_active t = true) by (unfold w_active; by rewrite Ht). split.
  - by apply (Forall_lookup_1 _ _ _ _ (ok_active s Hok) Hi).
  - intros j u Hj Hu. destruct (decide (j = i)) as [|Hne]; [done|].
    pose proof (others_inactive s i t Hok Hi Ha j u Hne Hj) as Hau. unfold w_active in Hau. by rewrite Hu in Hau.
Qed.

(** The schedule tactics: thread [i] loads value number [k], updates, stores, writes data. *)
Ltac weak_move i rule := eapply rtc_l; [eapply (weak_thread _ _ i); [reflexivity|rule]|]; cbn [list_insert insert].
Ltac w_start lock := apply weak_start, lock.
Ltac w_load k lock := eapply (weak_load _ _ _ _ k); [reflexivity|apply Nat.leb_le; reflexivity|reflexivity|apply lock; reflexivity].
Ltac w_update lock := eapply weak_update; [reflexivity|reflexivity| |apply lock; reflexivity]; done.
Ltac w_data := apply weak_write_data.

(** Between a reader and a writer they are not: after both have announced themselves, each may
    still read the value from before the other did, and both enter.  The reader is inside its
    read section while the writer has written to the data, which the reader's view lacks. *)
Theorem guard_weak_reader_writer_race :
  ∃ s t u, weak_reachable 2 s ∧ wthreads s = [t; u] ∧ wpoint t = Reading ∧ wpoint u = Writing ∧
    data_writes (wmem s) = 1 ∧ at_data (wview t) = 0.
Proof.
  eexists. eexists. eexists. split.
  { unfold weak_reachable, weak_initial. cbn [replicate].
    weak_move 0 ltac:(w_start start_read). weak_move 1 ltac:(w_start start_write).
    weak_move 0 ltac:(w_load 0 read_active_free). weak_move 0 ltac:(w_load 0 read_waiting_free).
    weak_move 0 ltac:(w_update read_enter).
    weak_move 1 ltac:(w_update write_announce). weak_move 1 ltac:(w_update write_claim_ok).
    weak_move 1 ltac:(w_load 0 write_readers_none). weak_move 1 ltac:(w_update write_retract).
    weak_move 0 ltac:(w_load 0 read_check_active_free). weak_move 0 ltac:(w_load 0 read_check_waiting_free).
    weak_move 1 ltac:(w_data). apply rtc_refl. }
  split_and!; reflexivity.
Qed.

(** A writer alone: it has written to the data and its view says so. *)
Lemma guard_weak_writers_witness :
  ∃ s t, weak_reachable 2 s ∧ wthreads s !! 1 = Some t ∧ wpoint t = Writing ∧
    data_writes (wmem s) = 2 ∧ at_data (wview t) = data_writes (wmem s).
Proof.
  assert (Hs : ∃ s t, weak_reachable 2 s ∧ wthreads s !! 1 = Some t ∧ wpoint t = Writing ∧ data_writes (wmem s) = 2).
  { eexists. eexists. split.
    { unfold weak_reachable, weak_initial. cbn [replicate].
      weak_move 1 ltac:(w_start start_write). weak_move 1 ltac:(w_update write_announce).
      weak_move 1 ltac:(w_update write_claim_ok). weak_move 1 ltac:(w_load 0 write_readers_none).
      weak_move 1 ltac:(w_update write_retract). weak_move 1 ltac:(w_data). weak_move 1 ltac:(w_data). apply rtc_refl. }
    split_and!; reflexivity. }
  destruct Hs as (s & t & Hr & Hi & Ht & Hd). exists s, t. split; [exact Hr|]. split; [exact Hi|]. split; [exact Ht|].
  split; [exact Hd|]. apply (guard_weak_writers 2 s 1 t Hr Hi Ht).
Defined.
