(* ===== verification/GuardProgress.v ===== *)
(** * [src/src/server/concurrency/db_guard.c]: the lock does not get stuck

    Progress of the reader-writer lock of [DbGuard]: from every reachable state the threads can
    run to completion, so no combination of waiting readers and writers is a deadlock, and no
    reader gets in while a writer waits. *)

From stdpp Require Import base list relations.
From S2P Require Import Prelude CString DbGuard.

(** ** Running one thread at a time *)

(** A thread that has begun to lock or unlock runs alone. *)
Definition alone : relation (DbGuard * point) := λ x y, x.2 ≠ Idle ∧ thread_step x.1 x.2 y.1 y.2.

(** Threads go on with what they have begun: no idle thread starts. *)
Inductive finishing_step : System → System → Prop :=
| finishing_thread g ps i p g' p' :
    ps !! i = Some p → p ≠ Idle → thread_step g p g' p' →
    finishing_step (mkSystem g ps) (mkSystem g' (<[i := p']> ps)).

Lemma finishing_system s s' : rtc finishing_step s s' → rtc system_step s s'.
Proof. apply rtc_subrel. intros a b []. by eapply system_thread. Qed.

Lemma alone_system g ps i p g' p' :
  ps !! i = Some p → rtc alone (g, p) (g', p') →
  rtc finishing_step (mkSystem g ps) (mkSystem g' (<[i := p']> ps)).
Proof.
  intros Hi Hr. remember (g, p) as x eqn:Hx. remember (g', p') as y eqn:Hy. revert g p ps Hx Hi.
  induction Hr as [x|x [g1 p1] y [Hne Hstep] _ IH]; intros g p ps -> Hi; simplify_eq.
  - by rewrite list_insert_id.
  - eapply rtc_l; [by eapply finishing_thread|].
    rewrite <- (list_insert_insert_eq ps i p' p1). eapply IH; [done|done|].
    apply list_lookup_insert_eq. by eapply lookup_lt_Some.
Qed.

Lemma system_cons p g ps g' ps' :
  rtc finishing_step (mkSystem g ps) (mkSystem g' ps') →
  rtc finishing_step (mkSystem g (p :: ps)) (mkSystem g' (p :: ps')).
Proof.
  intros Hr. remember (mkSystem g ps) as x eqn:Hx. remember (mkSystem g' ps') as y eqn:Hy.
  revert g ps Hx. induction Hr as [x|x z y Hstep _ IH]; intros g ps ->; simplify_eq; [done|].
  inversion Hstep as [? ? i q g1 q' Hi Hne Ht]; subst. eapply rtc_l; [|by apply IH].
  by apply (finishing_thread _ (p :: ps) (S i) q).
Qed.

(** What each thread can do alone, all threads can do one after the other. *)
Lemma one_by_one (G : DbGuard → Prop) (P Q : point → Prop) g ps :
  (∀ g p, G g → P p → ∃ g' q, rtc alone (g, p) (g', q) ∧ G g' ∧ Q q) →
  G g → Forall P ps →
  ∃ g' ps', rtc finishing_step (mkSystem g ps) (mkSystem g' ps') ∧ G g' ∧ Forall Q ps'.
Proof.
  intros Hone HG Hps. revert g HG. induction Hps as [|p ps Hp _ IH]; intros g HG; [by exists g, []|].
  destruct (IH g HG) as (g1 & ps1 & Hr1 & HG1 & HQ1). destruct (Hone g1 p HG1 Hp) as (g2 & q & Hr2 & HG2 & Hq).
  exists g2, (q :: ps1). split_and!; [|done|by apply Forall_cons].
  etrans; [by apply system_cons|]. by apply (alone_system g1 (p :: ps1) 0 p).
Qed.

(** ** First round: every thread leaves the counters it may leave *)

(** Points where a thread is neither counted as a reader nor as the active writer. *)
Definition settled (p : point) : Prop := p = Idle ∨ p = ReadLoadActive ∨ p = WriteAnnounce ∨ p = WriteClaim.

Definition settles (g : DbGuard) (p : point) : Prop := ∃ g' q, rtc alone (g, p) (g', q) ∧ settled q.

Lemma settles_now g p : settled p → settles g p.
Proof. intros Hp. by exists g, p. Qed.

Lemma settles_step g p g1 p1 : p ≠ Idle → thread_step g p g1 p1 → settles g1 p1 → settles g p.
Proof. intros Hne Hs (g' & q & Hr & Hq). exists g', q. split; [|done]. by apply (rtc_l _ _ (g1, p1)). Qed.

Create HintDb settle.
#[local] Hint Extern 1 (settled _) => unfold settled; tauto : settle.
#[local] Hint Extern 1 (_ ≠ Idle) => done : settle.
#[local] Hint Resolve settles_now : settle.
#[local] Hint Constructors thread_step : settle.

Lemma settles_reader g :
  settles g ReadBackOff ∧ settles g Reading ∧ settles g ReadCheckWaiting ∧ settles g ReadCheckActive ∧ settles g ReadEnter.
Proof.
  assert (Hb : ∀ g, settles g ReadBackOff) by (intros ?; eapply settles_step; eauto with settle).
  assert (Hr : ∀ g, settles g Reading) by (intros ?; eapply settles_step; eauto with settle).
  assert (Hw : ∀ g, settles g ReadCheckWaiting).
  { intros g1. destruct (decide (writers_waiting g1 = 0%Z)); eapply settles_step; eauto with settle. }
  assert (Ha : ∀ g, settles g ReadCheckActive).
  { intros g1. destruct (decide (writer_active g1 = 0%Z)); eapply settles_step; eauto with settle. }
  split_and!; auto. eapply settles_step; eauto with settle.
Qed.

Lemma settles_writer g :
  settles g Writing ∧ settles g WriteRetract ∧ settles g WriteRelease ∧ settles g WriteCheckReaders.
Proof.
  assert (Hw : ∀ g, settles g Writing) by (intros ?; eapply settles_step; eauto with settle).
  assert (Ht : ∀ g, settles g WriteRetract) by (intros ?; eapply settles_step; eauto with settle).
  assert (Hr : ∀ g, settles g WriteRelease) by (intros ?; eapply settles_step; eauto with settle).
  split_and!; auto. destruct (decide (reader_count g = 0%Z)); eapply settles_step; eauto with settle.
Qed.

Lemma settles_all g p : settles g p.
Proof.
  destruct (settles_reader g) as (? & ? & ? & ? & He), (settles_writer g) as (? & ? & ? & ?).
  destruct p; auto with settle.
  destruct (decide (writers_waiting g = 0%Z)); eapply settles_step; eauto with settle.
Qed.

(** ** Second and third round: the writers, then the readers *)

(** The next step of a thread that runs alone. *)
Ltac alone rule := eapply (rtc_l _ _ (_, _)); [split; [done|by apply rule]|].

Definition no_holder (g : DbGuard) : Prop := reader_count g = 0%Z ∧ writer_active g = 0%Z.

(** A thread that is not a waiting writer. *)
Definition reader_or_idle (p : point) : Prop := p = Idle ∨ p = ReadLoadActive.

Lemma writer_finishes g p :
  no_holder g → settled p → ∃ g' q, rtc alone (g, p) (g', q) ∧ no_holder g' ∧ reader_or_idle q.
Proof.
  intros [Hr Ha] Hp.
  assert (Hclaim : ∀ g, no_holder g → ∃ g', rtc alone (g, WriteClaim) (g', Idle) ∧ no_holder g').
  { intros g1 [Hr1 Ha1]. exists (set_active 0 (add_waiting (-1) (set_active 1 g1))). split; [|done].
    alone write_claim_ok. alone write_readers_none. alone write_retract. alone write_unlock. apply rtc_refl. }
  unfold reader_or_idle. destruct Hp as [-> |[-> |[-> | ->]]].
  - exists g, Idle. split_and!; [apply rtc_refl|done|by left].
  - exists g, ReadLoadActive. split_and!; [apply rtc_refl|done|by right].
  - destruct (Hclaim (add_waiting 1 g)) as (g' & Hrun & Hg'); [done|]. exists g', Idle. split_and!; [|done|auto].
    by alone write_announce.
  - destruct (Hclaim g) as (g' & Hrun & Hg'); [done|]. exists g', Idle. auto.
Qed.

Lemma reader_finishes g p :
  g = db_guard_create → reader_or_idle p → ∃ g' q, rtc alone (g, p) (g', q) ∧ g' = db_guard_create ∧ q = Idle.
Proof.
  intros -> [-> | ->]; [by exists db_guard_create, Idle|]. exists db_guard_create, Idle. split; [|done].
  alone read_active_free. alone read_waiting_free. alone read_enter. alone read_check_active_free.
  alone read_check_waiting_free. alone read_unlock. apply rtc_refl.
Qed.

Lemma count_none f (P : point → Prop) ps : (∀ p, P p → f p = false) → Forall P ps → count f ps = 0%Z.
Proof.
  intros Hf. induction 1 as [|p ps Hp _ IH]; [done|]. rewrite count_cons, (Hf p Hp), IH. done.
Qed.

(** All threads can finish what they are doing. *)
Lemma all_finish n s :
  (Z.of_nat n <= INT_MAX)%Z → reachable n s → rtc finishing_step s (initial n).
Proof.
  intros Hn Hreach. destruct s as [g ps].
  destruct (one_by_one (λ _, True) (λ _, True) settled g ps) as (g1 & ps1 & Hr1 & _ & Hs1); [|done|by apply Forall_true|].
  { intros g0 p _ _. destruct (settles_all g0 p) as (g' & q & ? & ?). eauto. }
  assert (Hreach1 : reachable n (mkSystem g1 ps1)) by (unfold reachable in *; etrans; [done|by apply finishing_system]).
  destruct (reachable_ok n _ Hn Hreach1) as [[Hrd Ha _ _ _] _]. simpl in *.
  rewrite (count_none _ settled) in Hrd by (done || by intros ? [-> |[-> |[-> | ->]]]).
  rewrite (count_none _ settled) in Ha by (done || by intros ? [-> |[-> |[-> | ->]]]).
  destruct (one_by_one no_holder settled reader_or_idle g1 ps1) as (g2 & ps2 & Hr2 & [Hrd2 Ha2] & Hs2);
    [by apply writer_finishes|done|done|].
  assert (Hreach2 : reachable n (mkSystem g2 ps2)) by (unfold reachable in *; etrans; [done|by apply finishing_system]).
  destruct (reachable_ok n _ Hn Hreach2) as [[_ _ Hw _ _] _]. simpl in *.
  rewrite (count_none _ reader_or_idle) in Hw by (done || by intros ? [-> | ->]).
  destruct (one_by_one (λ g, g = db_guard_create) reader_or_idle (λ q, q = Idle) g2 ps2) as (g3 & ps3 & Hr3 & -> & Hs3);
    [apply reader_finishes|destruct g2; simplify_eq/=; done|done|].
  assert (Hreach3 : reachable n (mkSystem db_guard_create ps3)) by (unfold reachable in *; etrans; [done|by apply finishing_system]).
  destruct (reachable_ok n _ Hn Hreach3) as [_ Hlen]. simpl in Hlen.
  assert (replicate n Idle = ps3) as <- by (apply replicate_as_elem_of; by rewrite <- Forall_forall).
  unfold initial. by do 2 (etrans; [done|]).
Qed.

(** From the initial state any thread can get the lock in either mode. *)
Lemma initial_enter n i :
  (i < n)%nat →
  ∃ sr sw, rtc system_step (initial n) sr ∧ points sr !! i = Some Reading ∧
           rtc system_step (initial n) sw ∧ points sw !! i = Some Writing.
Proof.
  intros Hi. assert (Hidle : replicate n Idle !! i = Some Idle) by (by apply lookup_replicate_2).
  assert (Hlen : (i < length (replicate n Idle))%nat) by (by rewrite length_replicate).
  assert (Hrun : ∀ p g' q, thread_step db_guard_create Idle db_guard_create p → rtc alone (db_guard_create, p) (g', q) →
    rtc system_step (initial n) (mkSystem g' (<[i := q]> (replicate n Idle)))).
  { intros p g' q Hs Hr. eapply rtc_l; [by eapply (system_thread _ _ i)|].
    rewrite <- (list_insert_insert_eq _ i q p). apply finishing_system. eapply alone_system; [by apply list_lookup_insert_eq|done]. }
  exists (mkSystem (mkDbGuard 1 0 0) (<[i := Reading]> (replicate n Idle))),
         (mkSystem (mkDbGuard 0 1 0) (<[i := Writing]> (replicate n Idle))).
  split_and!; [|by apply list_lookup_insert_eq| |by apply list_lookup_insert_eq].
  - eapply Hrun; [apply start_read|]. alone read_active_free. alone read_waiting_free. alone read_enter. alone read_check_active_free.
    alone read_check_waiting_free. apply rtc_refl.
  - eapply Hrun; [apply start_write|]. alone write_announce. alone write_claim_ok. alone write_readers_none.
    alone write_retract. apply rtc_refl.
Qed.

(** ** Properties *)

(** C31. The lock never deadlocks: from every state that any number of threads (up to the [int]
    range) can reach, however far each has got into locking or unlocking, the threads can all
    finish, leaving the counters at zero; and every thread can still obtain the read lock and
    the write lock. *)
Theorem guard_deadlock_free n s :
  (Z.of_nat n <= INT_MAX)%Z → reachable n s →
  rtc system_step s (initial n) ∧
  ∀ i, (i < n)%nat →
    (∃ s', rtc system_step s s' ∧ points s' !! i = Some Reading) ∧
    (∃ s', rtc system_step s s' ∧ points s' !! i = Some Writing).
Proof.
  intros Hn Hr. pose proof (finishing_system _ _ (all_finish n s Hn Hr)) as Hfin. split; [done|]. intros i Hi.
  destruct (initial_enter n i Hi) as (sr & sw & Hsr & Hpr & Hsw & Hpw).
  split; [exists sr|exists sw]; (split; [by etrans|done]).
Qed.

Lemma guard_deadlock_free_witness :
  ∃ s, reachable 3 s ∧ points s = [WriteRelease; WriteClaim; ReadBackOff] ∧ rtc system_step s (initial 3).
Proof.
  assert (Hr : reachable 3 (mkSystem (mkDbGuard 1 1 2) [WriteRelease; WriteClaim; ReadBackOff])).
  { unfold reachable, initial, db_guard_create. simpl.
    schedule 2 start_read. schedule 2 read_active_free. schedule 2 read_waiting_free. schedule 2 read_enter.
    schedule 0 start_write. schedule 0 write_announce. schedule 1 start_write. schedule 1 write_announce.
    schedule 0 write_claim_ok. schedule 0 write_readers_some. schedule 2 read_check_active_busy. apply rtc_refl. }
  eexists. split; [exact Hr|]. split; [reflexivity|].
  apply (guard_deadlock_free 3); [done|exact Hr].
Defined.

(** Writers have priority: along any run during which some writer is waiting, no thread newly
    enters a read section, so the thread that is reading at the end was reading all along. *)
Theorem guard_writer_priority s s' i :
  rtc (λ a b, writers_waiting (guard a) ≠ 0%Z ∧ system_step a b) s s' →
  points s' !! i = Some Reading → points s !! i = Some Reading.
Proof.
  induction 1 as [|a b c [Hw Hstep] _ IH]; [done|]. intros Hi. specialize (IH Hi).
  destruct Hstep as [g ps j p g' p' Hj Hstep]. simpl in *.
  apply list_lookup_insert_Some in IH as [(-> & -> & _)|[_ IH]]; [|done]. inversion Hstep; by subst.
Qed.
