(* ===== verification/GuardedWork.v ===== *)
(** * [db_guard_execute_read], [db_guard_execute_write] in [src/src/server/concurrency/db_guard.c]: isolation

    The guarded sections of several threads over a shared state.  A section is not one step: the
    work of a writer is a sequence of updates of the shared state, that of a reader a sequence
    of looks at it, and the steps of all threads, inside and outside their sections, interleave. *)

From stdpp Require Import base list relations.
From Stdlib Require Import Ascii.
From S2P Require Import Prelude CString DbGuard.

Section Guarded.
Context {A : Type}.

(** A section of a thread: the shared state when it was entered, the updates made so far and
    those left, and the states a reader has seen. *)
Record Work := mkWork {
  at_entry : A;
  made : list (A → A);
  left : list (A → A);
  seen : list A
}.

(** [committed] are the works of the write sections that have ended, in order. *)
Record Guarded := mkGuarded {
  locks : System;
  works : list Work;
  shared : A;
  committed : list (list (A → A))
}.

Definition apply_all (fs : list (A → A)) (x : A) : A := fold_left (λ y f, f y) fs x.

Definition inside (p : point) : bool := match p with Reading | Writing => true | _ => false end.

Inductive guarded_step : Guarded → Guarded → Prop :=
| guarded_lock s i p g' p' ws x c :
    points s !! i = Some p → thread_step (guard s) p g' p' → inside p = false → inside p' = false →
    guarded_step (mkGuarded s ws x c) (mkGuarded (mkSystem g' (<[i := p']> (points s))) ws x c)
| guarded_enter s i p g' p' ws x c work :
    points s !! i = Some p → thread_step (guard s) p g' p' → inside p = false → inside p' = true →
    guarded_step (mkGuarded s ws x c)
      (mkGuarded (mkSystem g' (<[i := p']> (points s))) (<[i := mkWork x [] work []]> ws) x c)
| guarded_look s i w ws x c :
    points s !! i = Some Reading → ws !! i = Some w →
    guarded_step (mkGuarded s ws x c)
      (mkGuarded s (<[i := mkWork (at_entry w) (made w) (left w) (seen w ++ [x])]> ws) x c)
| guarded_update s i w ws x c f fs :
    points s !! i = Some Writing → ws !! i = Some w → left w = f :: fs →
    guarded_step (mkGuarded s ws x c)
      (mkGuarded s (<[i := mkWork (at_entry w) (made w ++ [f]) fs (seen w)]> ws) (f x) c)
| guarded_read_unlock s i g' ws x c :
    points s !! i = Some Reading → thread_step (guard s) Reading g' Idle →
    guarded_step (mkGuarded s ws x c) (mkGuarded (mkSystem g' (<[i := Idle]> (points s))) ws x c)
| guarded_write_unlock s i g' w ws x c :
    points s !! i = Some Writing → thread_step (guard s) Writing g' Idle → ws !! i = Some w → left w = [] →
    guarded_step (mkGuarded s ws x c)
      (mkGuarded (mkSystem g' (<[i := Idle]> (points s))) ws x (c ++ [made w])).

Definition guarded_initial (n : nat) (x : A) : Guarded :=
  mkGuarded (initial n) (replicate n (mkWork x [] [] [])) x [].

(** The works of a list of write sections, one after the other. *)
Definition serially (c : list (list (A → A))) (x : A) : A := apply_all (concat c) x.

(** Every section inside started from what the ended sections left; a reader has seen nothing
    else, and the writer, if there is one, is alone in having changed it. *)
Record isolated (x0 : A) (s : Guarded) : Prop := {
  iso_works : length (works s) = length (points (locks s));
  iso_reader : ∀ i w, points (locks s) !! i = Some Reading → works s !! i = Some w →
    at_entry w = serially (committed s) x0 ∧ shared s = at_entry w ∧ Forall (λ y, y = at_entry w) (seen w);
  iso_writer : ∀ i w, points (locks s) !! i = Some Writing → works s !! i = Some w →
    at_entry w = serially (committed s) x0 ∧ shared s = apply_all (made w) (at_entry w);
  iso_free : Writing ∉ points (locks s) → shared s = serially (committed s) x0
}.

(** ** Lemmas *)

Lemma guarded_step_locks s s' : guarded_step s s' → rtc system_step (locks s) (locks s').
Proof.
  destruct 1 as [[g ps] i p g' p'|[g ps] i p g' p'| | |[g ps] i g'|[g ps] i g']; simpl in *; [| |done|done| |];
    apply rtc_once; by eapply system_thread.
Qed.

Lemma serially_snoc c fs x : serially (c ++ [fs]) x = apply_all fs (serially c x).
Proof. unfold serially, apply_all. rewrite concat_app, fold_left_app. cbn. by rewrite app_nil_r. Qed.

(** Thread [i] moves between two points outside its section, or ends a read section. *)
Lemma isolated_outside x0 s i p g' p' ws x c :
  isolated x0 (mkGuarded s ws x c) → points s !! i = Some p → p ≠ Writing → inside p' = false →
  isolated x0 (mkGuarded (mkSystem g' (<[i := p']> (points s))) ws x c).
Proof.
  intros [Hlen Hr Hw Hf] Hi Hp Hp'. simpl in *.
  assert (Hback : ∀ j q, <[i := p']> (points s) !! j = Some q → inside q = true → points s !! j = Some q).
  { intros j q [(-> & -> & _)|[_ Hj]]%list_lookup_insert_Some Hq; congruence. }
  constructor; simpl; [by rewrite length_insert|intros j w Hj; apply Hr, Hback; done|intros j w Hj; apply Hw, Hback; done|].
  intros Hout. apply Hf. intros (j & Hj)%list_elem_of_lookup. apply Hout, list_elem_of_lookup. exists j.
  rewrite list_lookup_insert_ne; [done|]. intros <-. congruence.
Qed.

(** A section is entered: no writer is inside. *)
Lemma isolated_enter x0 s i p g' p' ws x c work :
  isolated x0 (mkGuarded s ws x c) → guard_ok (mkSystem g' (<[i := p']> (points s))) →
  points s !! i = Some p → inside p = false → inside p' = true →
  isolated x0 (mkGuarded (mkSystem g' (<[i := p']> (points s))) (<[i := mkWork x [] work []]> ws) x c).
Proof.
  intros [Hlen Hr Hw Hf] Hok Hi Hp Hp'. simpl in *. pose proof (lookup_lt_Some _ _ _ Hi) as Hlt.
  assert (Hx : x = serially c x0).
  { apply Hf. intros (j & Hj)%list_elem_of_lookup. assert (Hji : j ≠ i) by (intros ->; by simplify_eq).
    destruct (writer_alone _ j i p' Hok) as [Heq _]; simpl.
    - by rewrite list_lookup_insert_ne.
    - by rewrite list_lookup_insert_eq.
    - destruct p'; try done; auto.
    - congruence. }
  constructor; simpl; [by rewrite !length_insert| | |done];
    intros j w [(<- & -> & _)|[Hne Hj]]%list_lookup_insert_Some.
  - rewrite list_lookup_insert_eq by lia. intros [= <-]. done.
  - rewrite list_lookup_insert_ne by done. by apply Hr.
  - rewrite list_lookup_insert_eq by lia. intros [= <-]. done.
  - rewrite list_lookup_insert_ne by done. by apply Hw.
Qed.

Lemma isolated_step x0 s s' :
  isolated x0 s → guard_ok (locks s) → guard_ok (locks s') → guarded_step s s' → isolated x0 s'.
Proof.
  intros Hs Hok Hok' Hstep. destruct Hstep as [s i p g' p' ws x c Hi _ Hp Hp'|s i p g' p' ws x c work Hi _ Hp Hp'|
    s i w ws x c Hi Hw|s i w ws x c f fs Hi Hw Hl|s i g' ws x c Hi _|s i g' w ws x c Hi _ Hw Hl].
  - eapply isolated_outside; [done|done| |done]. by intros ->.
  - by eapply isolated_enter.
  - destruct Hs as [Hlen Hr Hwr Hf]. simpl in *. constructor; simpl; [by rewrite length_insert| | |done].
    + intros j v Hj [(<- & <- & _)|[Hne Hv]]%list_lookup_insert_Some; [|by eapply Hr].
      destruct (Hr i w Hi Hw) as (? & -> & Hseen). simpl. split_and!; [done|done|]. by apply Forall_app; split; [|constructor].
    + intros j v Hj [(<- & <- & _)|[Hne Hv]]%list_lookup_insert_Some; [congruence|by eapply Hwr].
  - destruct Hs as [Hlen Hr Hwr Hf]. simpl in *. constructor; simpl; [by rewrite length_insert| | |].
    + intros j v Hj _. destruct (writer_alone s i j Reading Hok Hi Hj) as [_ ?]; auto. done.
    + intros j v Hj. destruct (writer_alone s i j Writing Hok Hi Hj) as [-> _]; [auto|].
      rewrite list_lookup_insert_eq by (by apply lookup_lt_Some in Hw). intros [= <-].
      destruct (Hwr i w Hi Hw) as [? ->]. simpl. split; [done|]. unfold apply_all. by rewrite fold_left_app.
    + intros Hout. edestruct Hout. by eapply list_elem_of_lookup_2.
  - by eapply isolated_outside.
  - destruct Hs as [Hlen Hr Hwr Hf]. simpl in *. destruct (Hwr i w Hi Hw) as [Hentry Hx].
    assert (Hnone : ∀ j q, <[i := Idle]> (points s) !! j = Some q → ¬ (q = Writing ∨ q = Reading)).
    { intros j q [(<- & <- & _)|[Hne Hj]]%list_lookup_insert_Some Hq; [by destruct Hq|].
      by destruct (writer_alone s i j q Hok Hi Hj Hq). }
    constructor; simpl; [by rewrite length_insert| | |by rewrite serially_snoc, <- Hentry].
    + intros j v Hj. destruct (Hnone j Reading Hj). auto.
    + intros j v Hj. destruct (Hnone j Writing Hj). auto.
Qed.

Lemma isolated_initial n x0 : isolated x0 (guarded_initial n x0).
Proof. constructor; simpl; [by rewrite !length_replicate| | |done]; by intros ? ? [? _]%lookup_replicate. Qed.

Lemma guarded_reachable n x0 s :
  (Z.of_nat n <= INT_MAX)%Z → rtc guarded_step (guarded_initial n x0) s →
  reachable n (locks s) ∧ isolated x0 s.
Proof.
  intros Hn Hr. apply (rtc_ind_r (λ s, reachable n (locks s) ∧ isolated x0 s) (guarded_initial n x0)) in Hr; [done| |].
  - split; [apply rtc_refl|apply isolated_initial].
  - intros s1 s2 _ Hstep [Hl Hi]. assert (Hl2 : reachable n (locks s2)) by (unfold reachable in *; etrans; [done|by apply guarded_step_locks]).
    split; [done|]. eapply isolated_step; [done| | |done]; by eapply reachable_ok.
Qed.

End Guarded.
Arguments Work : clear implicits.
Arguments Guarded : clear implicits.

(** ** Properties *)

(** Guarded sections are isolated, however the small steps of the threads interleave: all a
    reader ever sees inside one section is one state, the one left by the write sections that
    have ended; the updates of a write section are applied to exactly that state with no other
    update in between; and outside write sections the shared state is what the ended write
    sections give when they run one after the other. *)
Theorem guarded_isolation {A} n (x0 : A) s :
  (Z.of_nat n <= INT_MAX)%Z → rtc guarded_step (guarded_initial n x0) s →
  (∀ i w, points (locks s) !! i = Some Reading → works s !! i = Some w →
     shared s = serially (committed s) x0 ∧ Forall (λ y, y = serially (committed s) x0) (seen w)) ∧
  (∀ i w, points (locks s) !! i = Some Writing → works s !! i = Some w →
     shared s = apply_all (made w) (serially (committed s) x0)) ∧
  (Writing ∉ points (locks s) → shared s = serially (committed s) x0).
Proof.
  intros Hn Hr. destruct (guarded_reachable n x0 s Hn Hr) as [_ [_ Hrd Hw Hf]]. split_and!; [| |done].
  - intros i w Hi Hwi. destruct (Hrd i w Hi Hwi) as (<- & ? & ?). done.
  - intros i w Hi Hwi. by destruct (Hw i w Hi Hwi) as [<- ?].
Qed.

(** Thread [i] takes a step of the lock, or of its section. *)
Ltac lock_step i rule := eapply rtc_l; [eapply (guarded_lock _ i); [reflexivity|apply rule; try reflexivity|reflexivity|reflexivity]|]; simpl.

(** A writer adds one and doubles, with a reader waiting outside. *)
Lemma guarded_isolation_witness :
  ∃ s : Guarded Z, rtc guarded_step (guarded_initial 2 5%Z) s ∧ shared s = 12%Z ∧ committed s = [[Z.succ; Z.mul 2]] ∧
    shared s = serially (committed s) 5%Z.
Proof.
  assert (Hr : ∃ s : Guarded Z, rtc guarded_step (guarded_initial 2 5%Z) s ∧ shared s = 12%Z ∧
                 committed s = [[Z.succ; Z.mul 2]] ∧ points (locks s) = [Idle; ReadLoadActive]).
  { eexists. split.
    { unfold guarded_initial, initial, db_guard_create. simpl.
      lock_step 0%nat start_write. lock_step 0%nat write_announce. lock_step 1%nat start_read. lock_step 0%nat write_claim_ok.
      lock_step 0%nat write_readers_none.
      eapply rtc_l; [eapply (guarded_enter _ 0 _ _ Writing _ _ _ [Z.succ; Z.mul 2]); [reflexivity|apply write_retract|reflexivity|reflexivity]|]; simpl.
      eapply rtc_l; [eapply (guarded_update _ 0); reflexivity|]; simpl.
      eapply rtc_l; [eapply (guarded_update _ 0); reflexivity|]; simpl.
      eapply rtc_l; [eapply (guarded_write_unlock _ 0); [reflexivity|apply write_unlock|reflexivity|reflexivity]|]; simpl.
      apply rtc_refl. }
    split_and!; reflexivity. }
  destruct Hr as (s & Hr & Hx & Hc & Hp). exists s. split; [exact Hr|]. split; [exact Hx|]. split; [exact Hc|].
  apply (guarded_isolation 2 5%Z s); [done|exact Hr|]. rewrite Hp. by apply (bool_decide_unpack _).
Defined.
