(* ===== verification/GuardedPrograms.v ===== *)
(** * [db_guard_execute_read], [db_guard_execute_write] in [src/src/server/concurrency/db_guard.c]: programs

    [GuardedWork] has sections whose updates are fixed when they are entered.  Here a section
    runs a program: a step reads and changes its local state and the shared state together, so
    that what it does next depends on what it has found.  The lock, its program points and its
    steps are those of [DbGuard]; the steps of all threads interleave.  Sections whose programs
    leave the shared state alone take the read lock, the others the write lock. *)

From stdpp Require Import base list relations.
From S2P Require Import Prelude CString DbGuard GuardedWork.

Section Programs.
(** The local states of programs, the shared state, and one step; [None] when it has ended. *)
Context {L A : Type} (pstep : L → A → option (L * A)).

(** [l0] and [l] below are where the program of a section started and where it is. *)
Record Progs := mkProgs {
  plocks : System;
  jobs : list (L * L);
  pshared : A;
  ended : list (L * L)   (** the sections that have ended, in order *)
}.

(** Which lock the program started in [l0] runs under. *)
Context (writes : L → bool).

Definition section_point (l0 : L) : point := if writes l0 then Writing else Reading.

Inductive progs_step : Progs → Progs → Prop :=
| progs_lock s i p g' p' js x e :
    points s !! i = Some p → thread_step (guard s) p g' p' → inside p = false → inside p' = false →
    progs_step (mkProgs s js x e) (mkProgs (mkSystem g' (<[i := p']> (points s))) js x e)
| progs_enter s i p g' js x e l0 :
    points s !! i = Some p → thread_step (guard s) p g' (section_point l0) → inside p = false →
    progs_step (mkProgs s js x e)
      (mkProgs (mkSystem g' (<[i := section_point l0]> (points s))) (<[i := (l0, l0)]> js) x e)
| progs_work s i p js x e l0 l l' x' :
    points s !! i = Some p → inside p = true → js !! i = Some (l0, l) → pstep l x = Some (l', x') →
    progs_step (mkProgs s js x e) (mkProgs s (<[i := (l0, l')]> js) x' e)
| progs_unlock s i p g' js x e l0 l :
    points s !! i = Some p → inside p = true → js !! i = Some (l0, l) → pstep l x = None →
    thread_step (guard s) p g' Idle →
    progs_step (mkProgs s js x e) (mkProgs (mkSystem g' (<[i := Idle]> (points s))) js x (e ++ [(l0, l)])).

(** [none] stands for the job of a thread that has not had one. *)
Definition progs_initial (n : nat) (none : L) (x : A) : Progs :=
  mkProgs (initial n) (replicate n (none, none)) x [].

(** ** Serial execution *)

Definition pmove (a b : L * A) : Prop := pstep a.1 a.2 = Some b.

(** The program started in [l0] ends in [l] and takes the shared state from [x] to [x']. *)
Definition runs (l0 : L) (x : A) (l : L) (x' : A) : Prop := rtc pmove (l0, x) (l, x') ∧ pstep l x' = None.

(** The sections one after the other. *)
Inductive serial (x : A) : list (L * L) → A → Prop :=
| serial_none : serial x [] x
| serial_then e y l0 l z : serial x e y → runs l0 y l z → serial x (e ++ [(l0, l)]) z.

Context (allowed : L → Prop) (good : A → Prop).

(** A readers' program leaves a good state alone, a writers' program leaves a good one. *)
Hypothesis read_only : ∀ l0 l x x', allowed l0 → good x → writes l0 = false → rtc pmove (l0, x) (l, x') → x' = x.
Hypothesis write_good : ∀ l0 l x x', allowed l0 → good x → writes l0 = true → runs l0 x l x' → good x'.

(** The programs of the sections that are entered are among these. *)
Definition all_allowed (s : Progs) : Prop :=
  ∀ i p l0 l, points (plocks s) !! i = Some p → inside p = true → jobs s !! i = Some (l0, l) → allowed l0.

Definition allowed_step (s s' : Progs) : Prop := progs_step s s' ∧ all_allowed s'.

(** [y] is the state the ended sections have left: those inside started from it. *)
Record programs_ok (x0 : A) (s : Progs) (y : A) : Prop := {
  pr_jobs : length (jobs s) = length (points (plocks s));
  pr_serial : serial x0 (ended s) y;
  pr_ended : Forall (λ e, allowed e.1) (ended s);
  pr_good : good y;
  pr_inside : ∀ i p l0 l, points (plocks s) !! i = Some p → inside p = true → jobs s !! i = Some (l0, l) →
    p = section_point l0 ∧ rtc pmove (l0, y) (l, pshared s);
  pr_free : Writing ∉ points (plocks s) → pshared s = y
}.

(** ** Lemmas *)

(** A program that ends does so in one way. *)
Lemma runs_det l0 x l x' l2 x2 : runs l0 x l x' → runs l0 x l2 x2 → l2 = l ∧ x2 = x'.
Proof.
  intros [Hr Hend] [Hr2 Hend2]. remember (l0, x) as a eqn:Ha. remember (l, x') as b eqn:Hb. clear Ha l0 x.
  induction Hr as [a|a c b Hac _ IH]; subst.
  - apply rtc_inv in Hr2 as [[= <- <-]|(c & Hc & _)]; [done|]. unfold pmove in Hc. simpl in Hc. congruence.
  - apply rtc_inv in Hr2 as [->|(c' & Hc & Hr2)]; unfold pmove in *; simpl in *; [congruence|].
    assert (c' = c) as -> by congruence. by apply IH.
Qed.

Lemma section_inside l0 : inside (section_point l0) = true.
Proof. unfold section_point. by destruct (writes l0). Qed.

Lemma progs_step_locks s s' : progs_step s s' → rtc system_step (plocks s) (plocks s').
Proof.
  destruct 1 as [[g ps] i p g' p'|[g ps] i p g'| |[g ps] i p g']; simpl in *; [| |done|];
    apply rtc_once; by eapply system_thread.
Qed.

(** Thread [i] moves between points outside sections. *)
Lemma programs_outside x0 s i p g' p' js x e y :
  programs_ok x0 (mkProgs s js x e) y → points s !! i = Some p → inside p = false → inside p' = false →
  programs_ok x0 (mkProgs (mkSystem g' (<[i := p']> (points s))) js x e) y.
Proof.
  intros [Hj Hs He Hg Hin Hf] Hi Hp Hp'. simpl in *. constructor; simpl; [by rewrite length_insert|done|done|done| |].
  - intros j q l0 l [(-> & -> & _)|[_ Hq]]%list_lookup_insert_Some Hqi; [congruence|by eapply Hin].
  - intros Hout. apply Hf. intros (j & Hw)%list_elem_of_lookup. apply Hout, list_elem_of_lookup. exists j.
    rewrite list_lookup_insert_ne; [done|]. intros <-. by simplify_eq.
Qed.

Lemma programs_enter x0 s i p g' js x e y l0 :
  programs_ok x0 (mkProgs s js x e) y → guard_ok (mkSystem g' (<[i := section_point l0]> (points s))) →
  points s !! i = Some p → inside p = false →
  programs_ok x0 (mkProgs (mkSystem g' (<[i := section_point l0]> (points s))) (<[i := (l0, l0)]> js) x e) y.
Proof.
  intros [Hj Hs He Hg Hin Hf] Hok Hi Hp. simpl in *. pose proof (lookup_lt_Some _ _ _ Hi) as Hlt.
  assert (Hx : x = y).
  { apply Hf. intros (j & Hw)%list_elem_of_lookup. assert (Hji : j ≠ i) by (intros ->; by simplify_eq).
    destruct (writer_alone _ j i (section_point l0) Hok) as [Heq _]; simpl.
    - by rewrite list_lookup_insert_ne.
    - by rewrite list_lookup_insert_eq.
    - unfold section_point. destruct (writes l0); auto.
    - congruence. }
  constructor; simpl; [by rewrite !length_insert|done|done|done| |done].
  intros j q k0 k [(<- & <- & _)|[Hne Hq]]%list_lookup_insert_Some Hqi.
  - rewrite list_lookup_insert_eq by lia. intros [= <- <-]. rewrite Hx. done.
  - rewrite list_lookup_insert_ne by done. by eapply Hin.
Qed.

(** A step of a program: a reader's leaves the shared state as it is, a writer is alone. *)
Lemma programs_work x0 s i p js x e l0 l l' x' y :
  programs_ok x0 (mkProgs s js x e) y → guard_ok s → allowed l0 →
  points s !! i = Some p → inside p = true → js !! i = Some (l0, l) → pstep l x = Some (l', x') →
  programs_ok x0 (mkProgs s (<[i := (l0, l')]> js) x' e) y.
Proof.
  intros [Hj Hs He Hg Hin Hf] Hok Hal Hi Hp Hl Hstep. simpl in *. pose proof (lookup_lt_Some _ _ _ Hl) as Hlt.
  destruct (Hin i p l0 l Hi Hp Hl) as [-> Hr].
  assert (Hr' : rtc pmove (l0, y) (l', x')) by (by eapply rtc_r).
  unfold section_point in *. destruct (writes l0) eqn:Hw.
  - constructor; simpl; [by rewrite length_insert|done|done|done| |].
    + intros j q k0 k Hq Hqi Hk. destruct (decide (j = i)) as [->|Hne].
      * rewrite list_lookup_insert_eq in Hk by lia. simplify_eq. unfold section_point. by rewrite Hw.
      * destruct (writer_alone s i j q Hok Hi Hq) as [? _]; [destruct q; try done; auto|done].
    + intros Hout. edestruct Hout. by eapply list_elem_of_lookup_2.
  - pose proof (read_only _ _ _ _ Hal Hg Hw Hr') as ->. pose proof (read_only _ _ _ _ Hal Hg Hw Hr) as ->.
    constructor; simpl; [by rewrite length_insert|done|done|done| |done].
    intros j q k0 k Hq Hqi [(<- & [= <- <-] & _)|[Hne Hk]]%list_lookup_insert_Some; [|by eapply Hin].
    simplify_eq. unfold section_point. by rewrite Hw.
Qed.

Lemma programs_unlock x0 s i p g' js x e l0 l y :
  programs_ok x0 (mkProgs s js x e) y → guard_ok s → allowed l0 →
  points s !! i = Some p → inside p = true → js !! i = Some (l0, l) → pstep l x = None →
  programs_ok x0 (mkProgs (mkSystem g' (<[i := Idle]> (points s))) js x (e ++ [(l0, l)])) x.
Proof.
  intros [Hj Hs He Hg Hin Hf] Hok Hal Hi Hp Hl Hend. simpl in *. destruct (Hin i p l0 l Hi Hp Hl) as [-> Hr].
  assert (Hruns : runs l0 y l x) by done.
  assert (Hgood : good x).
  { destruct (writes l0) eqn:Hw; [by eapply write_good|]. by rewrite (read_only _ _ _ _ Hal Hg Hw Hr). }
  constructor; simpl; [by rewrite length_insert|by econstructor|by apply Forall_app; split; [|constructor]|done| |done].
  intros j q k0 k [(<- & <- & _)|[Hne Hq]]%list_lookup_insert_Some Hqi Hk; [done|].
  unfold section_point in *. destruct (writes l0) eqn:Hw.
  - destruct (writer_alone s i j q Hok Hi Hq) as [? _]; [destruct q; try done; auto|done].
  - rewrite (read_only _ _ _ _ Hal Hg Hw Hr) in *. by eapply Hin.
Qed.

Lemma programs_step x0 s s' y :
  programs_ok x0 s y → guard_ok (plocks s) → guard_ok (plocks s') → all_allowed s → progs_step s s' →
  ∃ y', programs_ok x0 s' y'.
Proof.
  intros Hs Hok Hok' Hal Hstep. destruct Hstep as [s i p g' p' js x e Hi _ Hp Hp'|s i p g' js x e l0 Hi _ Hp|
    s i p js x e l0 l l' x' Hi Hp Hl Hst|s i p g' js x e l0 l Hi Hp Hl Hend _].
  - exists y. by eapply programs_outside.
  - exists y. by eapply programs_enter.
  - exists y. eapply programs_work; try done. by eapply Hal.
  - exists x. eapply programs_unlock; try done. by eapply Hal.
Qed.

Lemma programs_reachable n none x0 s :
  (Z.of_nat n <= INT_MAX)%Z → good x0 → rtc allowed_step (progs_initial n none x0) s →
  ∃ y, programs_ok x0 s y.
Proof.
  intros Hn Hg Hr.
  apply (rtc_ind_r (λ s, reachable n (plocks s) ∧ all_allowed s ∧ ∃ y, programs_ok x0 s y) (progs_initial n none x0)) in Hr.
  - by destruct Hr as (_ & _ & Hy).
  - split_and!; [apply rtc_refl|by intros ???? [-> _]%lookup_replicate|]. exists x0.
    constructor; simpl; [by rewrite !length_replicate|constructor|constructor|done|by intros ???? [-> _]%lookup_replicate|done].
  - intros s1 s2 _ [Hstep Hal2] (Hl & Hal & y & Hy).
    assert (Hl2 : reachable n (plocks s2)) by (unfold reachable in *; etrans; [done|by apply progs_step_locks]).
    split_and!; [done|done|]. eapply programs_step; [done| | |done|done]; by eapply reachable_ok.
Qed.

(** ** Running a section *)

(** A program's steps inside a section, with nobody else moving. *)
Lemma section_runs s i p js x e l0 l l' x' :
  points s !! i = Some p → inside p = true → js !! i = Some (l0, l) → all_allowed (mkProgs s js x e) →
  rtc pmove (l, x) (l', x') →
  rtc allowed_step (mkProgs s js x e) (mkProgs s (<[i := (l0, l')]> js) x' e) ∧
  all_allowed (mkProgs s (<[i := (l0, l')]> js) x' e).
Proof.
  intros Hi Hp Hj Hal Hr. remember (l, x) as a eqn:Ha. remember (l', x') as b eqn:Hb.
  revert l x js Ha Hj Hal. induction Hr as [a|a [l1 x1] b Hac _ IH]; intros l x js -> Hj Hal.
  - injection Hb as -> ->. rewrite list_insert_id by done. split; [apply rtc_refl|done].
  - assert (Hal1 : all_allowed (mkProgs s (<[i := (l0, l1)]> js) x1 e)).
    { intros j q k0 k Hq Hqi [(<- & [= <- <-] & _)|[Hne Hk]]%list_lookup_insert_Some; [|by eapply Hal]. by eapply (Hal i p). }
    destruct (IH Hb l1 x1 (<[i := (l0, l1)]> js)) as [Hsteps Hal2];
      [done|apply list_lookup_insert_eq; by eapply lookup_lt_Some|done|].
    rewrite list_insert_insert_eq in Hsteps, Hal2. split; [|done]. eapply rtc_l; [|exact Hsteps]. split; [|done].
    by eapply progs_work.
Qed.

End Programs.
Arguments Progs : clear implicits.
