(* ===== verification/JobQueue.v ===== *)
(** * [src/src/server/pool/job_queue.c]: the bounded job queue

    A ring buffer of jobs with [head], [tail] and [count].  [job_queue_push] and
    [job_queue_pop] run their whole body under the mutex; waiting on a condition variable is
    the result [None], and the call is taken again when another thread has changed the queue.
    The specification is a first-in first-out list of bounded length. *)

From stdpp Require Import base list strings.
From Stdlib Require Import Ascii.
From S2P Require Import Prelude CString Common.

(** A function pointer is a number, [None] for NULL. *)
Record Job := mkJob { execute : option nat; cleanup : option nat; job_data : nat }.

#[export] Instance Job_eq_dec : EqDecision Job.
Proof. solve_decision. Defined.

(** The result of [memset] to zero. *)
Definition zero_job : Job := mkJob None None 0.

Record JobQueue := mkJobQueue {
  capacity : Z;
  count : Z;
  head : Z;
  tail : Z;
  closed : bool;
  jobs : list Job
}.

Definition job_queue_create (cap : Z) : result SqlError JobQueue :=
  if (cap <=? 0)%Z then fail «"job queue capacity must be positive"»
  else Ok (mkJobQueue cap 0 0 0 false (replicate (Z.to_nat cap) zero_job)).

(** [(index + 1) % capacity] on [int]. *)
Definition next_index (index cap : Z) : Z := Z.rem (wrap32 (index + 1)) cap.

(** [None] while the caller waits for room. *)
Definition job_queue_push (q : JobQueue) (job : Job) : option (result SqlError () * JobQueue) :=
  match execute job with
  | None => Some (fail «"job execute callback must not be null"», q)
  | Some _ =>
      if negb (closed q) && (count q =? capacity q)%Z then None
      else if closed q then Some (fail «"job queue is closed"», q)
      else Some (Ok (), mkJobQueue (capacity q) (wrap32 (count q + 1)) (head q) (next_index (tail q) (capacity q))
                          (closed q) (<[Z.to_nat (tail q) := job]> (jobs q)))
  end.

(** [None] while the caller waits for a job; the job is missing when the queue is closed and
    drained. *)
Definition job_queue_pop (q : JobQueue) : option (option Job * JobQueue) :=
  if negb (closed q) && (count q =? 0)%Z then None
  else if (count q =? 0)%Z then Some (None, q)
  else Some (jobs q !! Z.to_nat (head q),
             mkJobQueue (capacity q) (wrap32 (count q - 1)) (next_index (head q) (capacity q)) (tail q)
               (closed q) (<[Z.to_nat (head q) := zero_job]> (jobs q))).

Definition job_queue_close (q : JobQueue) : JobQueue :=
  mkJobQueue (capacity q) (count q) (head q) (tail q) true (jobs q).

(** The job at [(head + index) % capacity]. *)
Definition job_at (q : JobQueue) (index : Z) : Job :=
  default zero_job (jobs q !! Z.to_nat (Z.rem (wrap32 (head q + index)) (capacity q))).

(** [if (job.cleanup != NULL) job.cleanup(job.data)]: the call, as callback and data. *)
Definition cleanup_call (job : Job) : option (nat * nat) :=
  match cleanup job with Some f => Some (f, job_data job) | None => None end.

(** The cleanup calls of [job_queue_destroy], in order. *)
Definition job_queue_destroy (q : JobQueue) : list (nat * nat) :=
  omap cleanup_call
       (map (job_at (job_queue_close q)) (map Z.of_nat (seq 0 (Z.to_nat (count q))))).

(** ** Specification: a bounded first-in first-out list *)

Record BoundedFifo := mkBoundedFifo { fifo_capacity : nat; fifo_closed : bool; fifo_items : list Job }.

Definition fifo_push (s : BoundedFifo) (job : Job) : option (result SqlError () * BoundedFifo) :=
  match execute job with
  | None => Some (fail «"job execute callback must not be null"», s)
  | Some _ =>
      if fifo_closed s then Some (fail «"job queue is closed"», s)
      else if Nat.eqb (length (fifo_items s)) (fifo_capacity s) then None
      else Some (Ok (), mkBoundedFifo (fifo_capacity s) (fifo_closed s) (fifo_items s ++ [job]))
  end.

Definition fifo_pop (s : BoundedFifo) : option (option Job * BoundedFifo) :=
  match fifo_items s with
  | [] => if fifo_closed s then Some (None, s) else None
  | job :: items => Some (Some job, mkBoundedFifo (fifo_capacity s) (fifo_closed s) items)
  end.

Definition fifo_close (s : BoundedFifo) : BoundedFifo := mkBoundedFifo (fifo_capacity s) true (fifo_items s).

(** The queued jobs, oldest first: [count] jobs from [head], wrapping around. *)
Definition contents (q : JobQueue) : list Job :=
  take (Z.to_nat (count q)) (drop (Z.to_nat (head q)) (jobs q) ++ take (Z.to_nat (head q)) (jobs q)).

Definition abstract (q : JobQueue) : BoundedFifo :=
  mkBoundedFifo (Z.to_nat (capacity q)) (closed q) (contents q).

Record queue_ok (q : JobQueue) : Prop := {
  queue_capacity : (0 < capacity q <= INT_MAX)%Z;
  queue_length : Z.of_nat (length (jobs q)) = capacity q;
  queue_count : (0 <= count q <= capacity q)%Z;
  queue_head : (0 <= head q < capacity q)%Z;
  queue_tail : tail q = ((head q + count q) mod capacity q)%Z
}.

(** ** Lemmas *)

Lemma wrap_around a b c : (0 <= a < c)%Z → (0 <= b <= c)%Z → ((a + b) mod c = if a + b <? c then a + b else a + b - c)%Z.
Proof.
  intros Ha Hb. destruct (Z.ltb_spec (a + b) c).
  - by rewrite Z.mod_small by lia.
  - rewrite <- (Z.mod_add (a + b) (-1) c) by lia. rewrite Z.mod_small by lia. lia.
Qed.

Lemma next_index_spec i c : (0 <= i < c)%Z → (c <= INT_MAX)%Z → next_index i c = ((i + 1) mod c)%Z.
Proof.
  intros Hi Hc. unfold next_index. rewrite wrap32_id by (unfold is_int, INT_MIN; lia).
  by rewrite Z.rem_mod_nonneg by lia.
Qed.

(** The job at distance [k] from the head. *)
Lemma contents_lookup q k :
  queue_ok q → (Z.of_nat k < count q)%Z →
  contents q !! k = jobs q !! Z.to_nat ((head q + Z.of_nat k) mod capacity q).
Proof.
  intros [Hc Hl Hn Hh _] Hk. unfold contents. rewrite lookup_take_lt by lia.
  rewrite wrap_around by lia. destruct (Z.ltb_spec (head q + Z.of_nat k) (capacity q)).
  - rewrite lookup_app_l by (rewrite length_drop; lia). rewrite lookup_drop. f_equal. lia.
  - rewrite lookup_app_r by (rewrite length_drop; lia). rewrite length_drop, lookup_take_lt by lia. f_equal. lia.
Qed.

Lemma contents_length q : queue_ok q → length (contents q) = Z.to_nat (count q).
Proof.
  intros [Hc Hl Hn Hh _]. unfold contents. rewrite length_take, length_app, length_drop, length_take. lia.
Qed.

(** The ring denotes [l] when it has [l]'s jobs at their distances from the head. *)
Lemma contents_eq q l :
  queue_ok q → Z.of_nat (length l) = count q →
  (∀ k job, l !! k = Some job → jobs q !! Z.to_nat ((head q + Z.of_nat k) mod capacity q) = Some job) →
  contents q = l.
Proof.
  intros Hq Hlen Hl. apply list_eq. intros k. destruct (l !! k) as [job|] eqn:Hk.
  - assert (Z.of_nat k < count q)%Z by (apply lookup_lt_Some in Hk; lia).
    rewrite contents_lookup by done. by apply Hl.
  - apply lookup_ge_None in Hk. apply lookup_ge_None. rewrite contents_length by done. lia.
Qed.

Lemma create_ok cap q :
  (cap <= INT_MAX)%Z → job_queue_create cap = Ok q → queue_ok q ∧ contents q = [].
Proof.
  intros Hmax. unfold job_queue_create. destruct (Z.leb_spec cap 0); [done|]. intros [= <-]. split; [|done].
  constructor; simpl; [lia|rewrite length_replicate; lia|lia|lia|]. by rewrite Z.mod_small by lia.
Qed.

Lemma push_room q job :
  queue_ok q → (count q < capacity q)%Z →
  let q' := mkJobQueue (capacity q) (wrap32 (count q + 1)) (head q) (next_index (tail q) (capacity q))
              (closed q) (<[Z.to_nat (tail q) := job]> (jobs q)) in
  queue_ok q' ∧ contents q' = contents q ++ [job].
Proof.
  intros Hq Hroom q'. pose proof Hq as [Hc Hl Hn Hh Ht].
  assert (Htail : (0 <= tail q < capacity q)%Z) by (rewrite Ht; apply Z.mod_pos_bound; lia).
  assert (Hq' : queue_ok q').
  { constructor; simpl; [done|by rewrite length_insert|rewrite wrap32_id by (unfold is_int, INT_MIN; lia); lia|done|].
    rewrite wrap32_id by (unfold is_int, INT_MIN; lia). rewrite next_index_spec by lia.
    rewrite Ht, Z.add_mod_idemp_l by lia. f_equal. lia. }
  split; [done|]. apply contents_eq; [done| |].
  { rewrite length_app, contents_length by done. simpl. rewrite wrap32_id by (unfold is_int, INT_MIN; lia). lia. }
  intros k x Hk. apply lookup_app_Some in Hk as [Hk|[Hge Hk]].
  - pose proof (lookup_lt_Some _ _ _ Hk) as Hlt. rewrite contents_length in Hlt by done.
    rewrite contents_lookup in Hk by (done || lia). simpl. rewrite list_lookup_insert_ne; [done|].
    intros Heq. apply Z2Nat.inj in Heq; [|lia|apply Z.mod_pos_bound; lia].
    rewrite Ht, !wrap_around in Heq by lia. repeat case_match; breflect; lia.
  - rewrite contents_length in * by done. apply list_lookup_singleton_Some in Hk as [Hk <-].
    replace (Z.of_nat k) with (count q) by lia. simpl. rewrite <- Ht.
    apply list_lookup_insert_eq. lia.
Qed.

Lemma pop_some q :
  queue_ok q → (0 < count q)%Z →
  let q' := mkJobQueue (capacity q) (wrap32 (count q - 1)) (next_index (head q) (capacity q)) (tail q)
              (closed q) (<[Z.to_nat (head q) := zero_job]> (jobs q)) in
  ∃ job, jobs q !! Z.to_nat (head q) = Some job ∧ queue_ok q' ∧ contents q = job :: contents q'.
Proof.
  intros Hq Hpos q'. pose proof Hq as [Hc Hl Hn Hh Ht].
  assert (Hw : wrap32 (count q - 1) = (count q - 1)%Z) by (apply wrap32_id; unfold is_int, INT_MIN; lia).
  assert (Hq' : queue_ok q').
  { constructor; simpl; rewrite ?Hw, ?next_index_spec by lia; [done|by rewrite length_insert|lia| |].
    - apply Z.mod_pos_bound. lia.
    - rewrite Z.add_mod_idemp_l by lia. rewrite Ht. f_equal. lia. }
  destruct (lookup_lt_is_Some_2 (jobs q) (Z.to_nat (head q))) as [job Hjob]; [lia|].
  exists job. split; [done|]. split; [done|]. symmetry.
  apply list_eq. intros [|k]; simpl.
  - rewrite contents_lookup by (done || lia). rewrite Z.add_0_r, Z.mod_small by lia. done.
  - destruct (decide (Z.of_nat (S k) < count q)%Z) as [Hk|Hk].
    + rewrite !contents_lookup by (try done; simpl; lia). simpl. rewrite next_index_spec by lia.
      rewrite Z.add_mod_idemp_l by lia.
      replace (head q + 1 + Z.of_nat k)%Z with (head q + Z.of_nat (S k))%Z by lia.
      rewrite list_lookup_insert_ne; [done|].
      intros Heq. apply Z2Nat.inj in Heq; [|lia|apply Z.mod_pos_bound; lia].
      rewrite wrap_around in Heq by lia. repeat case_match; breflect; lia.
    + rewrite (proj2 (lookup_ge_None (contents q') k)) by (rewrite contents_length by done; simpl; lia).
      symmetry. apply lookup_ge_None. rewrite contents_length by done. lia.
Qed.

Lemma push_refines q job :
  queue_ok q →
  match job_queue_push q job with
  | None => fifo_push (abstract q) job = None
  | Some (r, q') => queue_ok q' ∧ fifo_push (abstract q) job = Some (r, abstract q')
  end.
Proof.
  intros Hq. pose proof (queue_count q Hq). unfold job_queue_push, fifo_push. destruct (execute job); [|done]. simpl.
  rewrite contents_length by done. destruct (closed q) eqn:Hcl; [simpl; done|]. simpl.
  destruct (Z.eqb_spec (count q) (capacity q)) as [Heq|Hne].
  - rewrite Heq. by rewrite Nat.eqb_refl.
  - destruct (Nat.eqb_spec (Z.to_nat (count q)) (Z.to_nat (capacity q))); [lia|].
    destruct (push_room q job Hq) as [Hq' Hc]; [lia|]. rewrite Hcl in Hq', Hc. split; [done|].
    unfold abstract. by rewrite Hc.
Qed.

Lemma pop_refines q :
  queue_ok q →
  match job_queue_pop q with
  | None => fifo_pop (abstract q) = None
  | Some (r, q') => queue_ok q' ∧ fifo_pop (abstract q) = Some (r, abstract q')
  end.
Proof.
  intros Hq. pose proof (queue_count q Hq). unfold job_queue_pop, fifo_pop. simpl.
  pose proof (contents_length q Hq) as Hlen. destruct (Z.eqb_spec (count q) 0) as [H0|Hne].
  - rewrite H0 in Hlen. destruct (contents q) eqn:Hc; [|done]. destruct (closed q) eqn:Hcl; simpl; [|done].
    split; [done|]. unfold abstract. by rewrite Hc, Hcl.
  - rewrite andb_false_r. destruct (pop_some q Hq) as (job & Hjob & Hq' & Hc); [lia|]. rewrite Hjob.
    split; [done|]. by rewrite Hc.
Qed.

Lemma close_ok q : queue_ok q → queue_ok (job_queue_close q).
Proof. intros []. by constructor. Qed.

Lemma destroy_calls q :
  queue_ok q → (2 * capacity q <= INT_MAX)%Z → job_queue_destroy q = omap cleanup_call (contents q).
Proof.
  intros Hq Hcap. unfold job_queue_destroy. f_equal. apply list_eq. intros k. rewrite !list_lookup_fmap.
  pose proof (contents_length q Hq) as Hlen. destruct (decide (k < Z.to_nat (count q))%nat) as [Hk|Hk].
  - rewrite lookup_seq_lt by done. cbn [fmap option_fmap option_map plus]. unfold job_at. cbn [job_queue_close head jobs capacity].
    pose proof Hq as [Hc Hl Hn Hh _]. rewrite wrap32_id by (unfold is_int, INT_MIN; lia).
    rewrite Z.rem_mod_nonneg by lia. rewrite <- contents_lookup by (done || lia).
    destruct (lookup_lt_is_Some_2 (contents q) k) as [x ->]; [lia|done].
  - rewrite (proj2 (lookup_ge_None (contents q) k)) by lia. by rewrite lookup_seq_ge by lia.
Qed.

(** ** Properties *)

(** C26. The ring buffer is a bounded first-in first-out queue: from a queue in a consistent
    state, push, pop and close do exactly what they do on the list of queued jobs, waiting and
    failing included, and leave a consistent state.  A push waits exactly while the open queue
    is full, a pop exactly while the open queue is empty, and a closed queue is still drained. *)
Theorem job_queue_refines_fifo q job :
  queue_ok q →
  match job_queue_push q job with
  | None => fifo_push (abstract q) job = None
  | Some (r, q') => queue_ok q' ∧ fifo_push (abstract q) job = Some (r, abstract q')
  end ∧
  match job_queue_pop q with
  | None => fifo_pop (abstract q) = None
  | Some (r, q') => queue_ok q' ∧ fifo_pop (abstract q) = Some (r, abstract q')
  end ∧
  queue_ok (job_queue_close q) ∧ abstract (job_queue_close q) = fifo_close (abstract q).
Proof.
  intros Hq. split_and!; [by apply push_refines|by apply pop_refines|by apply close_ok|done].
Qed.

Definition job_a : Job := mkJob (Some 1%nat) (Some 2%nat) 10.
Definition job_b : Job := mkJob (Some 1%nat) (Some 2%nat) 20.

(** A full ring whose head is not at 0. *)
Definition wrapped_queue : JobQueue := mkJobQueue 2 2 1 1 false [job_b; job_a].

Lemma wrapped_queue_ok : queue_ok wrapped_queue.
Proof. by constructor. Qed.

Lemma job_queue_refines_fifo_witness :
  abstract wrapped_queue = mkBoundedFifo 2 false [job_a; job_b] ∧
  fifo_push (abstract wrapped_queue) job_a = None ∧
  ∃ q', job_queue_pop wrapped_queue = Some (Some job_a, q') ∧
    fifo_pop (abstract wrapped_queue) = Some (Some job_a, abstract q').
Proof.
  split; [reflexivity|]. pose proof (job_queue_refines_fifo wrapped_queue job_a wrapped_queue_ok) as (Hpush & Hpop & _).
  split; [exact Hpush|]. eexists. split; [reflexivity|]. exact (proj2 Hpop).
Defined.

(** Destroying the queue runs the cleanup of exactly the jobs still queued, once each and
    oldest first, for capacities up to half the [int] range (beyond it the index computation
    [head + index] can overflow). *)
Theorem job_queue_destroy_cleans q :
  queue_ok q → (2 * capacity q <= INT_MAX)%Z → job_queue_destroy q = omap cleanup_call (contents q).
Proof. apply destroy_calls. Qed.

Lemma job_queue_destroy_cleans_witness : job_queue_destroy wrapped_queue = [(2, 10); (2, 20)]%nat.
Proof. apply (job_queue_destroy_cleans wrapped_queue); [apply wrapped_queue_ok|done]. Defined.
