(* ===== verification/QueueMonitor.v ===== *)
(** * [src/src/server/pool/job_queue.c]: the mutex and the condition variables

    [JobQueue] takes each call as one step.  Here threads interleave inside the calls: taking and
    releasing the mutex, testing the loop condition, sleeping on a condition variable, every
    store to the ring buffer, signalling.  [pthread_cond_wait] releases the mutex and falls asleep
    in one step; [pthread_cond_signal] wakes one sleeping thread if there is one, which then
    takes the mutex again; a thread may also wake up without a signal.

    The calls take effect one after the other as in [JobQueue], and a call sleeps only while
    [JobQueue] says that it has to wait: no wakeup is lost. *)

From stdpp Require Import base list strings relations.
From Stdlib Require Import Ascii.
From S2P Require Import Prelude CString Common JobQueue.

(** Where a thread is in [job_queue_push], [job_queue_pop] or [job_queue_close]. *)
Inductive qpoint :=
| Out                              (** in none of the calls *)
| PushLock (job : Job)             (** about to lock the mutex *)
| PushTest (job : Job)             (** about to test the loop condition and [closed] *)
| PushWaiting (job : Job)          (** asleep on [not_full] *)
| PushWoken (job : Job)            (** woken, about to lock the mutex again *)
| PushStore (job : Job)            (** about to store [jobs[tail]] *)
| PushTail (job : Job)             (** about to advance [tail] *)
| PushCount (job : Job)            (** about to increment [count] *)
| PushSignal                       (** about to signal [not_empty] *)
| PushUnlock                       (** about to unlock and return *)
| PopLock
| PopTest
| PopWaiting                       (** asleep on [not_empty] *)
| PopWoken
| PopRead                          (** about to read [jobs[head]] *)
| PopClear (job : Job)             (** about to clear [jobs[head]] *)
| PopHead (job : Job)              (** about to advance [head] *)
| PopCount (job : Job)             (** about to decrement [count] *)
| PopSignal                        (** about to signal [not_full] *)
| PopUnlock
| CloseLock
| CloseSet                         (** about to set [closed] *)
| CloseWakePop                     (** about to broadcast [not_empty] *)
| CloseWakePush                    (** about to broadcast [not_full] *)
| CloseUnlock.

#[export] Instance qpoint_eq_dec : EqDecision qpoint.
Proof. solve_decision. Defined.

(** What the calls did, in the order in which they did it. *)
Inductive event :=
| Pushed (job : Job)
| Refused (job : Job)
| Popped (job : Job)
| Drained
| Closed.

(** Which threads a step wakes. *)
Inductive wake := WakeNone | WakeOnePop | WakeOnePush | WakeAllPop | WakeAllPush.

Definition set_jobs (l : list Job) (q : JobQueue) : JobQueue :=
  mkJobQueue (capacity q) (count q) (head q) (tail q) (closed q) l.
Definition set_head (h : Z) (q : JobQueue) : JobQueue :=
  mkJobQueue (capacity q) (count q) h (tail q) (closed q) (jobs q).
Definition set_tail (t : Z) (q : JobQueue) : JobQueue :=
  mkJobQueue (capacity q) (count q) (head q) t (closed q) (jobs q).
Definition set_count (n : Z) (q : JobQueue) : JobQueue :=
  mkJobQueue (capacity q) n (head q) (tail q) (closed q) (jobs q).

(** The next step of thread [i] at [p], with the mutex [m] and the queue [q]: the mutex, the
    queue, what it did, whom it wakes, and where it goes.  [None] when it cannot move. *)
Definition call_next (i : nat) (m : option nat) (q : JobQueue) (p : qpoint)
    : option (option nat * JobQueue * list event * wake * qpoint) :=
  let lock p' := match m with None => Some (Some i, q, [], WakeNone, p') | Some _ => None end in
  let goto q' p' := Some (m, q', [], WakeNone, p') in
  match p with
  | Out | PushWaiting _ | PopWaiting => None
  | PushLock job | PushWoken job => lock (PushTest job)
  | PushTest job =>
      if negb (closed q) && (count q =? capacity q)%Z then Some (None, q, [], WakeNone, PushWaiting job)
      else if closed q then Some (m, q, [Refused job], WakeNone, PushUnlock)
      else goto q (PushStore job)
  | PushStore job => goto (set_jobs (<[Z.to_nat (tail q) := job]> (jobs q)) q) (PushTail job)
  | PushTail job => goto (set_tail (next_index (tail q) (capacity q)) q) (PushCount job)
  | PushCount job => Some (m, set_count (wrap32 (count q + 1)) q, [Pushed job], WakeNone, PushSignal)
  | PushSignal => Some (m, q, [], WakeOnePop, PushUnlock)
  | PopLock | PopWoken => lock PopTest
  | PopTest =>
      if negb (closed q) && (count q =? 0)%Z then Some (None, q, [], WakeNone, PopWaiting)
      else if (count q =? 0)%Z then Some (m, q, [Drained], WakeNone, PopUnlock)
      else goto q PopRead
  | PopRead => goto q (PopClear (default zero_job (jobs q !! Z.to_nat (head q))))
  | PopClear job => goto (set_jobs (<[Z.to_nat (head q) := zero_job]> (jobs q)) q) (PopHead job)
  | PopHead job => goto (set_head (next_index (head q) (capacity q)) q) (PopCount job)
  | PopCount job => Some (m, set_count (wrap32 (count q - 1)) q, [Popped job], WakeNone, PopSignal)
  | PopSignal => Some (m, q, [], WakeOnePush, PopUnlock)
  | CloseLock => lock CloseSet
  | CloseSet => Some (m, job_queue_close q, [Closed], WakeNone, CloseWakePop)
  | CloseWakePop => Some (m, q, [], WakeAllPop, CloseWakePush)
  | CloseWakePush => Some (m, q, [], WakeAllPush, CloseUnlock)
  | PushUnlock | PopUnlock | CloseUnlock => Some (None, q, [], WakeNone, Out)
  end.

Definition wake_pop (p : qpoint) : option qpoint := match p with PopWaiting => Some PopWoken | _ => None end.
Definition wake_push (p : qpoint) : option qpoint :=
  match p with PushWaiting job => Some (PushWoken job) | _ => None end.

(** One of the threads that [f] wakes wakes up, if there is one. *)
Inductive wakes_one (f : qpoint → option qpoint) (ps : list qpoint) : list qpoint → Prop :=
| wakes_some j p p' : ps !! j = Some p → f p = Some p' → wakes_one f ps (<[j := p']> ps)
| wakes_no_one : Forall (λ p, f p = None) ps → wakes_one f ps ps.

Definition wake_all (f : qpoint → option qpoint) (ps : list qpoint) : list qpoint := map (λ p, default p (f p)) ps.

Inductive wakes : wake → list qpoint → list qpoint → Prop :=
| wakes_none ps : wakes WakeNone ps ps
| wakes_one_pop ps ps' : wakes_one wake_pop ps ps' → wakes WakeOnePop ps ps'
| wakes_one_push ps ps' : wakes_one wake_push ps ps' → wakes WakeOnePush ps ps'
| wakes_all_pop ps : wakes WakeAllPop ps (wake_all wake_pop ps)
| wakes_all_push ps : wakes WakeAllPush ps (wake_all wake_push ps).

(** [mutex] is the thread that holds it. *)
Record Monitor := mkMonitor {
  data : JobQueue;
  mutex : option nat;
  calls : list qpoint;
  history : list event
}.

(** A thread moves inside a call. *)
Inductive inside_step : Monitor → Monitor → Prop :=
| inside_call q m ps h i p q' m' ev wk p' ps' :
    ps !! i = Some p → call_next i m q p = Some (m', q', ev, wk, p') → wakes wk (<[i := p']> ps) ps' →
    inside_step (mkMonitor q m ps h) (mkMonitor q' m' ps' (h ++ ev)).

(** Where a call goes to the mutex: [job_queue_push] refuses a job without a callback before. *)
Definition starts (p : qpoint) : bool :=
  match p with
  | PushLock job => match execute job with Some _ => true | None => false end
  | PopLock | CloseLock => true
  | _ => false
  end.

(** A thread moves inside a call, starts one, or wakes up without a signal. *)
Inductive monitor_step : Monitor → Monitor → Prop :=
| step_inside s s' : inside_step s s' → monitor_step s s'
| step_call q m ps h i p :
    ps !! i = Some Out →
    starts p = true →
    monitor_step (mkMonitor q m ps h) (mkMonitor q m (<[i := p]> ps) h)
| step_spurious q m ps h i p p' :
    ps !! i = Some p → wake_pop p = Some p' ∨ wake_push p = Some p' →
    monitor_step (mkMonitor q m ps h) (mkMonitor q m (<[i := p']> ps) h).

(** [n] threads and a new queue. *)
Definition monitor_initial (q : JobQueue) (n : nat) : Monitor := mkMonitor q None (replicate n Out) [].

(** ** Specification: the calls of [JobQueue] *)

(** The effect of a call that is taken as one step, when it has that outcome. *)
Definition atomic (q : JobQueue) (e : event) : option JobQueue :=
  match e with
  | Pushed job => match job_queue_push q job with Some (Ok _, q') => Some q' | _ => None end
  | Refused job => match job_queue_push q job with Some (Err _, q') => Some q' | _ => None end
  | Popped job =>
      match job_queue_pop q with
      | Some (Some j, q') => if bool_decide (j = job) then Some q' else None
      | _ => None
      end
  | Drained => match job_queue_pop q with Some (None, q') => Some q' | _ => None end
  | Closed => Some (job_queue_close q)
  end.

Fixpoint replay (q : JobQueue) (h : list event) : option JobQueue :=
  match h with
  | [] => Some q
  | e :: h' => q' ← atomic q e; replay q' h'
  end.

(** ** The invariant *)

(** The points between lock and unlock. *)
Definition holds (p : qpoint) : bool :=
  match p with
  | Out | PushLock _ | PushWaiting _ | PushWoken _ | PopLock | PopWaiting | PopWoken | CloseLock => false
  | _ => true
  end.

(** The queue as the holder of the mutex, at [p], has it, when [q] is the queue between calls. *)
Definition partial (p : qpoint) (q : JobQueue) : JobQueue :=
  match p with
  | PushTail job => set_jobs (<[Z.to_nat (tail q) := job]> (jobs q)) q
  | PushCount job => set_tail (next_index (tail q) (capacity q)) (set_jobs (<[Z.to_nat (tail q) := job]> (jobs q)) q)
  | PopHead _ => set_jobs (<[Z.to_nat (head q) := zero_job]> (jobs q)) q
  | PopCount _ => set_head (next_index (head q) (capacity q)) (set_jobs (<[Z.to_nat (head q) := zero_job]> (jobs q)) q)
  | _ => q
  end.

(** What the holder of the mutex has found out. *)
Definition ready (p : qpoint) (q : JobQueue) : Prop :=
  match p with
  | PushStore _ | PushTail _ | PushCount _ => closed q = false ∧ (count q < capacity q)%Z
  | PopRead => (0 < count q)%Z
  | PopClear job | PopHead job | PopCount job => (0 < count q)%Z ∧ jobs q !! Z.to_nat (head q) = Some job
  | _ => True
  end.

(** Only jobs with a callback are pushed. *)
Definition call_ok (p : qpoint) : Prop :=
  match p with
  | PushLock job | PushTest job | PushWaiting job | PushWoken job | PushStore job | PushTail job | PushCount job =>
      execute job ≠ None
  | _ => True
  end.

(** The point of the holder of the mutex. *)
Definition at_mutex (s : Monitor) : qpoint :=
  match mutex s with Some i => default Out (calls s !! i) | None => Out end.

Record monitor_ok (q0 : JobQueue) (s : Monitor) (q : JobQueue) : Prop := {
  mon_mutex : ∀ i p, calls s !! i = Some p → holds p = true ↔ mutex s = Some i;
  mon_owner : ∀ i, mutex s = Some i → is_Some (calls s !! i);
  mon_calls : Forall call_ok (calls s);
  mon_queue : queue_ok q;
  mon_replay : replay q0 (history s) = Some q;
  mon_data : data s = partial (at_mutex s) q;
  mon_ready : ready (at_mutex s) q
}.

(** ** Lemmas: the effect of the calls *)

Lemma replay_app q h1 h2 : replay q (h1 ++ h2) = q' ← replay q h1; replay q' h2.
Proof. revert q. induction h1 as [|e h1 IH]; intros q; [done|]. simpl. destruct (atomic q e); simpl; [apply IH|done]. Qed.

Lemma push_effect q job :
  queue_ok q → execute job ≠ None → closed q = false → (count q < capacity q)%Z →
  job_queue_push q job = Some (Ok (), set_count (wrap32 (count q + 1)) (partial (PushCount job) q)) ∧
  queue_ok (set_count (wrap32 (count q + 1)) (partial (PushCount job) q)).
Proof.
  intros Hq Hjob Hcl Hroom. destruct (push_room q job Hq Hroom) as [Hok _]. split; [|exact Hok].
  unfold job_queue_push. destruct (execute job); [|done]. rewrite Hcl. simpl.
  destruct (Z.eqb_spec (count q) (capacity q)); [lia|]. unfold set_count. simpl. by rewrite Hcl.
Qed.

Lemma pop_effect q job :
  queue_ok q → (0 < count q)%Z → jobs q !! Z.to_nat (head q) = Some job →
  job_queue_pop q = Some (Some job, set_count (wrap32 (count q - 1)) (partial (PopCount job) q)) ∧
  queue_ok (set_count (wrap32 (count q - 1)) (partial (PopCount job) q)).
Proof.
  intros Hq Hn Hjob. destruct (pop_some q Hq Hn) as (job' & Hjob' & Hok & _). split; [|exact Hok].
  unfold job_queue_pop. destruct (Z.eqb_spec (count q) 0); [lia|]. rewrite andb_false_r. by rewrite Hjob.
Qed.

(** A step of the holder of the mutex. *)
Lemma call_next_holder i p q m' q' ev wk p' :
  holds p = true → call_ok p → queue_ok q → ready p q →
  call_next i (Some i) (partial p q) p = Some (m', q', ev, wk, p') →
  ∃ q1, queue_ok q1 ∧ replay q ev = Some q1 ∧ q' = partial p' q1 ∧ ready p' q1 ∧ call_ok p' ∧
    (if holds p' then m' = Some i else m' = None).
Proof.
  intros Hp Hjob Hq Hready. pose proof Hq as [Hcap Hlen Hcount Hhead _].
  assert (Hread : (0 < count q)%Z → ∃ job, jobs q !! Z.to_nat (head q) = Some job).
  { intros _. apply lookup_lt_is_Some_2. lia. }
  destruct p; simpl in *; try done; try (intros [= <- <- <- <- <-]; exists q; done).
  - destruct (closed q) eqn:Hcl; simpl.
    + intros [= <- <- <- <- <-]. exists q. split_and!; try done. simpl. unfold job_queue_push.
      destruct (execute job); [|done]. by rewrite Hcl.
    + destruct (Z.eqb_spec (count q) (capacity q)); intros [= <- <- <- <- <-]; exists q; split_and!; try done.
      simpl. split; [done|lia].
  - destruct Hready as [Hcl Hroom]. destruct (push_effect q job Hq Hjob Hcl Hroom) as [Hpush Hok].
    intros [= <- <- <- <- <-]. eexists. split; [exact Hok|]. simpl. by rewrite Hpush.
  - destruct (Z.eqb_spec (count q) 0) as [H0|H0]; [|rewrite andb_false_r].
    + destruct (closed q) eqn:Hcl; simpl; intros [= <- <- <- <- <-]; exists q; split_and!; try done. simpl.
      unfold job_queue_pop. by rewrite H0, Hcl.
    + intros [= <- <- <- <- <-]. exists q. split_and!; try done. simpl. lia.
  - destruct (Hread Hready) as [job Hj]. intros [= <- <- <- <- <-]. exists q. rewrite Hj. split_and!; done.
  - destruct Hready as [Hn Hj]. destruct (pop_effect q job Hq Hn Hj) as [Hpop Hok].
    intros [= <- <- <- <- <-]. eexists. split; [exact Hok|]. simpl. rewrite Hpop, bool_decide_eq_true_2 by done. done.
  - intros [= <- <- <- <- <-]. exists (job_queue_close q). split_and!; try done. by apply close_ok.
Qed.

(** A thread that takes the mutex. *)
Lemma call_next_locks i p q m m' q' ev wk p' :
  holds p = false → call_ok p → call_next i m q p = Some (m', q', ev, wk, p') →
  m = None ∧ m' = Some i ∧ q' = q ∧ ev = [] ∧ holds p' = true ∧ call_ok p' ∧ (∀ q1, partial p' q1 = q1 ∧ ready p' q1).
Proof. intros Hp Hjob. destruct p; simpl in *; try done; (destruct m; [done|]); intros [= <- <- <- <- <-]; done. Qed.

(** ** Lemmas: waking *)

Definition woken (p p' : qpoint) : Prop := wake_pop p = Some p' ∨ wake_push p = Some p'.
Definition only_woken : list qpoint → list qpoint → Prop := Forall2 (λ p p', p' = p ∨ woken p p').

Lemma woken_spec p p' : woken p p' → holds p = false ∧ holds p' = false ∧ (call_ok p → call_ok p').
Proof. by intros [H|H]; destruct p; simpl in H; simplify_eq. Qed.

Lemma only_woken_refl ps : only_woken ps ps.
Proof. unfold only_woken. induction ps; constructor; [by left|done]. Qed.

Lemma only_woken_insert ps i p p' : ps !! i = Some p → woken p p' → only_woken ps (<[i := p']> ps).
Proof.
  intros Hi Hw. rewrite <- (list_insert_id ps i p Hi) at 1.
  apply Forall2_insert; [apply only_woken_refl|by right].
Qed.

Lemma wakes_only wk ps ps' : wakes wk ps ps' → only_woken ps ps'.
Proof.
  assert (Hall : ∀ f ps, (∀ p p', f p = Some p' → woken p p') → only_woken ps (wake_all f ps)).
  { intros f l Hf. unfold wake_all. induction l as [|p l IH]; constructor; [|done].
    destruct (f p) eqn:Hp; [right; by apply Hf|by left]. }
  assert (Hone : ∀ f ps ps', (∀ p p', f p = Some p' → woken p p') → wakes_one f ps ps' → only_woken ps ps').
  { intros f l l' Hf []; [eapply only_woken_insert; [done|by apply Hf]|apply only_woken_refl]. }
  destruct 1; [apply only_woken_refl|eapply Hone; [|done]|eapply Hone; [|done]|apply Hall|apply Hall]; intros; (by left) || (by right).
Qed.

(** Waking threads leaves the point of the holder alone. *)
Lemma only_woken_lookup ps ps' i : only_woken ps ps' → ∀ p', ps' !! i = Some p' →
  ∃ p, ps !! i = Some p ∧ (p' = p ∨ woken p p').
Proof.
  intros Hw p' Hi. eapply Forall2_lookup_r in Hw as (p & Hp & H); [|done]. eauto.
Qed.

Lemma monitor_ok_woken q0 d m ps ps' h q :
  monitor_ok q0 (mkMonitor d m ps h) q → only_woken ps ps' → monitor_ok q0 (mkMonitor d m ps' h) q.
Proof.
  intros [Hm Ho Hc Hq Hr Hd Hready] Hw. simpl in *.
  assert (Hat : at_mutex (mkMonitor d m ps' h) = at_mutex (mkMonitor d m ps h)).
  { unfold at_mutex. simpl. destruct m as [i|]; [|done]. destruct (ps' !! i) as [p'|] eqn:Hi'.
    - destruct (only_woken_lookup _ _ _ Hw _ Hi') as (p & Hi & [->|Hp]); [by rewrite Hi|].
      apply woken_spec in Hp as (Hp & _). by rewrite (proj2 (Hm i p Hi) eq_refl) in Hp.
    - apply lookup_ge_None in Hi'. rewrite <- (Forall2_length _ _ _ Hw) in Hi'. by rewrite (lookup_ge_None_2 _ _ Hi'). }
  split; simpl; rewrite ?Hat; try done.
  - intros i p' Hi'. destruct (only_woken_lookup _ _ _ Hw _ Hi') as (p & Hi & [->|Hp]); [by apply Hm|].
    rewrite <- (Hm i p Hi). apply woken_spec in Hp as (-> & -> & _). done.
  - intros i Hi. specialize (Ho i Hi). rewrite lookup_lt_is_Some in *. by rewrite <- (Forall2_length _ _ _ Hw).
  - eapply Forall_lookup. intros i p' Hi'. destruct (only_woken_lookup _ _ _ Hw _ Hi') as (p & Hi & Hp).
    pose proof (Forall_lookup_1 _ _ _ _ Hc Hi). destruct Hp as [->|Hp]; [done|]. by apply woken_spec in Hp as (_ & _ & Hp); apply Hp.
Qed.

(** A thread moves and holds the mutex afterwards, or nobody does. *)
Lemma monitor_ok_moved q0 d m ps h d' m' ev i p p' q q' :
  monitor_ok q0 (mkMonitor d m ps h) q → ps !! i = Some p → call_ok p' →
  (∀ j, m = Some j → j = i) → (if holds p' then m' = Some i else m' = None) →
  queue_ok q' → replay q ev = Some q' → d' = partial p' q' → ready p' q' →
  monitor_ok q0 (mkMonitor d' m' (<[i := p']> ps) (h ++ ev)) q'.
Proof.
  intros [Hm _ Hc _ Hr _ _] Hi Hp' Howner Hm' Hq' Hev Hd' Hready. simpl in *. pose proof (lookup_lt_Some _ _ _ Hi) as Hlt.
  assert (Hat : at_mutex (mkMonitor d' m' (<[i := p']> ps) (h ++ ev)) = if holds p' then p' else Out).
  { unfold at_mutex. simpl. destruct (holds p'); subst m'; [|done]. by rewrite list_lookup_insert_eq. }
  split; simpl; rewrite ?Hat; try done.
  - intros j pj. rewrite list_lookup_insert_Some. intros [(<- & -> & _)|[Hne Hj]]; [by destruct (holds pj); subst m'|].
    rewrite (Hm j pj Hj). split; [intros Hmj; by specialize (Howner j Hmj)|destruct (holds p'); subst m'; congruence].
  - intros j Hj. destruct (holds p'); subst m'; simplify_eq. by rewrite list_lookup_insert_eq.
  - by apply Forall_insert.
  - by rewrite replay_app, Hr.
  - rewrite Hd'. destruct p'; done.
  - destruct (holds p'); done.
Qed.

Lemma inside_step_ok q0 s s' q :
  monitor_ok q0 s q → inside_step s s' → ∃ q', monitor_ok q0 s' q'.
Proof.
  intros Hok Hs. destruct Hs as [d m ps h i p d' m' ev wk p' ps' Hi Hnext Hw]. pose proof Hok as [Hm Ho Hc Hq Hr Hd Hready].
  simpl in *. pose proof (Hm i p Hi) as Hpi. pose proof (Forall_lookup_1 _ _ _ _ Hc Hi) as Hp.
  assert (Hmoved : ∃ q', monitor_ok q0 (mkMonitor d' m' (<[i := p']> ps) (h ++ ev)) q').
  { destruct (holds p) eqn:Hh.
    - rewrite (proj1 Hpi eq_refl) in *. unfold at_mutex in *. simpl in *. rewrite Hi in *. simpl in *. subst d.
      destruct (call_next_holder _ _ _ _ _ _ _ _ Hh Hp Hq Hready Hnext) as (q' & Hq' & Hev & Hd' & Hr' & Hp' & Hm').
      exists q'. eapply monitor_ok_moved; eauto. congruence.
    - destruct (call_next_locks _ _ _ _ _ _ _ _ _ Hh Hp Hnext) as (-> & -> & -> & -> & Hh' & Hp' & Hq').
      destruct (Hq' q) as [Hpart Hr']. exists q. eapply monitor_ok_moved; eauto; [done|by rewrite Hh'|by rewrite Hpart, Hd]. }
  destruct Hmoved as [q' Hq']. exists q'. eapply monitor_ok_woken; [done|by eapply wakes_only].
Qed.

Lemma monitor_step_ok q0 s s' q :
  monitor_ok q0 s q → monitor_step s s' → ∃ q', monitor_ok q0 s' q'.
Proof.
  intros Hok Hs. destruct Hs as [s s' Hs|d m ps h i p Hi Hp|d m ps h i p p' Hi Hw].
  - by eapply inside_step_ok.
  - exists q. destruct Hok as [Hm Ho Hc Hq Hr Hd Hready]. simpl in *. pose proof (lookup_lt_Some _ _ _ Hi).
    assert (Hh : holds p = false ∧ call_ok p) by (destruct p; simpl in *; try done; by case_match). destruct Hh as [Hh Hcp].
    assert (Hmi : m ≠ Some i) by (intros ->; by destruct (Hm i Out Hi) as [_ Hm']; specialize (Hm' eq_refl)).
    assert (Hat : at_mutex (mkMonitor d m (<[i := p]> ps) h) = at_mutex (mkMonitor d m ps h)).
    { unfold at_mutex. simpl. destruct m as [j|]; [|done]. rewrite list_lookup_insert_ne by congruence. done. }
    split; simpl; rewrite ?Hat; try done.
    + intros j pj. rewrite list_lookup_insert_Some. intros [(<- & -> & _)|[Hne Hj]]; [|by apply Hm]. rewrite Hh. done.
    + intros j Hj. rewrite list_lookup_insert_ne by congruence. by apply Ho.
    + by apply Forall_insert.
  - exists q. eapply monitor_ok_woken; [done|]. by eapply only_woken_insert.
Qed.

Lemma monitor_initial_ok q n : queue_ok q → monitor_ok q (monitor_initial q n) q.
Proof.
  intros Hq. split; simpl; try done.
  - intros i p [-> _]%lookup_replicate. done.
  - by apply Forall_replicate.
Qed.

Lemma monitor_reachable_ok q n s : queue_ok q → rtc monitor_step (monitor_initial q n) s → ∃ q', monitor_ok q s q'.
Proof.
  intros Hq. apply (rtc_ind_r (λ s, ∃ q', monitor_ok q s q')); [by exists q; apply monitor_initial_ok|].
  intros s1 s2 _ Hs [q1 Hok]. by eapply monitor_step_ok.
Qed.

(** ** The invariant that no wakeup is lost *)

(** One of the two condition variables: who sleeps on it, whom a signal wakes, at which points the
    broadcast of [job_queue_close] is still to come, what there is for the sleepers to take, and
    who is awake to take it or to pass it on. *)
Record side := mkSide {
  waits : qpoint → bool;
  rouse : qpoint → option qpoint;
  closing : qpoint → bool;
  offer : JobQueue → Z;
  taker : qpoint → nat
}.

(** [not_empty]: the offer is the queued jobs. *)
Definition pop_side : side := {|
  waits := λ p, match p with PopWaiting => true | _ => false end;
  rouse := wake_pop;
  closing := λ p, match p with CloseWakePop => true | _ => false end;
  offer := count;
  taker := λ p, match p with
    | PopLock | PopTest | PopWoken | PopRead | PopClear _ | PopHead _ | PopCount _ | PushSignal => 1
    | _ => 0
    end
|}.

(** [not_full]: the offer is the free places. *)
Definition push_side : side := {|
  waits := λ p, match p with PushWaiting _ => true | _ => false end;
  rouse := wake_push;
  closing := λ p, match p with CloseWakePop | CloseWakePush => true | _ => false end;
  offer := λ q, (capacity q - count q)%Z;
  taker := λ p, match p with
    | PushLock _ | PushTest _ | PushWoken _ | PushStore _ | PushTail _ | PushCount _ | PopSignal => 1
    | _ => 0
    end
|}.

(** While a thread sleeps, either the broadcast is still to come, or the queue is open and every
    job (every free place) has a thread that is awake for it. *)
Definition fed (sd : side) (q : JobQueue) (ps : list qpoint) : Prop :=
  (∃ j p, ps !! j = Some p ∧ waits sd p = true) →
  (∃ j p, ps !! j = Some p ∧ closing sd p = true) ∨
  (closed q = false ∧ (offer sd q <= Z.of_nat (sum_list_with (taker sd) ps))%Z).

(** What the proofs use of a condition variable. *)
Record side_ok (sd : side) : Prop := {
  side_rouse : ∀ p p', rouse sd p = Some p' →
    waits sd p' = false ∧ closing sd p = false ∧ taker sd p = 0 ∧ taker sd p' = 1;
  side_waits : ∀ p, waits sd p = true → is_Some (rouse sd p);
  side_woken : ∀ p p', woken p p' →
    (waits sd p' = true → waits sd p = true) ∧ closing sd p = false ∧ taker sd p ≤ taker sd p'
}.

Lemma pop_side_ok : side_ok pop_side.
Proof.
  split; simpl; [by intros [] ?; simpl; intros; simplify_eq|by intros []; simpl; eauto|].
  by intros p p' [H|H]; destruct p; simpl in H; simplify_eq; simpl; auto with lia.
Qed.

Lemma push_side_ok : side_ok push_side.
Proof.
  split; simpl; [by intros [] ?; simpl; intros; simplify_eq|by intros []; simpl; eauto|].
  by intros p p' [H|H]; destruct p; simpl in H; simplify_eq; simpl; auto with lia.
Qed.

Lemma sum_insert {A} (f : A → nat) l i x y :
  l !! i = Some x → sum_list_with f (<[i := y]> l) + f x = sum_list_with f l + f y.
Proof. revert i. induction l as [|z l IH]; intros [|i] Hi; simplify_eq/=; [lia|]. specialize (IH i Hi). lia. Qed.

Lemma sum_zero {A} (f : A → nat) l : (∀ x, x ∈ l → f x = 0) → sum_list_with f l = 0.
Proof. induction l as [|x l IH]; intros Hf; simpl; [done|]. rewrite (Hf x), IH; [done|..]; set_solver. Qed.

Section fed.
Context (sd : side) (Hside : side_ok sd).

(** A thread moves from [p] to [p']. *)
Lemma fed_move q q' ps i p p' :
  ps !! i = Some p → fed sd q ps →
  (closing sd p = true → closing sd p' = true) →
  (waits sd p' = true → closed q' = false ∧ (offer sd q' <= 0)%Z) →
  (waits sd p' = false → closed q = false → closing sd p' = true ∨
     (closed q' = false ∧ (offer sd q' + Z.of_nat (taker sd p) <= offer sd q + Z.of_nat (taker sd p'))%Z)) →
  fed sd q' (<[i := p']> ps).
Proof.
  intros Hi Hfed Hcl Hwait Hq (j & pj & Hj & Hpj). pose proof (lookup_lt_Some _ _ _ Hi) as Hlt.
  pose proof (sum_insert (taker sd) ps i p p' Hi) as Hsum.
  destruct (waits sd p') eqn:Hp'.
  { right. destruct Hwait; [done|]. split; [done|lia]. }
  apply list_lookup_insert_Some in Hj as [(<- & <- & _)|[Hne Hj]]; [congruence|].
  destruct Hfed as [(k & pk & Hk & Hpk)|[Hopen Hoff]]; [by eauto| |].
  - left. destruct (decide (i = k)) as [<-|Hik].
    + simplify_eq. exists i, p'. split; [by apply list_lookup_insert_eq|auto].
    + exists k, pk. by rewrite list_lookup_insert_ne.
  - destruct (Hq eq_refl Hopen) as [Hc|[? ?]].
    + left. exists i, p'. split; [by apply list_lookup_insert_eq|done].
    + right. split; [done|lia].
Qed.

Lemma fed_woken q ps ps' : only_woken ps ps' → fed sd q ps → fed sd q ps'.
Proof.
  intros Hw Hfed (j & p' & Hj & Hp').
  destruct (only_woken_lookup _ _ _ Hw _ Hj) as (p & Hjp & Hp).
  destruct Hfed as [(k & pk & Hk & Hpk)|[Hopen Hoff]].
  - exists j, p. split; [done|]. destruct Hp as [->|Hp]; [done|]. by apply (side_woken sd Hside p p' Hp).
  - left. destruct (Forall2_lookup_l _ _ _ _ _ Hw Hk) as (pk' & Hk' & [->|Hwk]); [by eauto|].
    destruct (side_woken sd Hside _ _ Hwk) as (_ & Hc & _). by rewrite Hc in Hpk.
  - right. split; [done|]. assert (sum_list_with (taker sd) ps ≤ sum_list_with (taker sd) ps'); [|lia].
    clear -Hw Hside. induction Hw as [|p p' ps ps' Hp _ IH]; simpl; [lia|].
    assert (taker sd p ≤ taker sd p'); [|lia]. destruct Hp as [->|Hp]; [lia|]. by apply (side_woken sd Hside p p').
Qed.

(** A thread that counts as awake signals and hands over to the one it wakes. *)
Lemma fed_signal q ps i p p' ps' :
  ps !! i = Some p → fed sd q ps → closing sd p = false → waits sd p' = false → taker sd p = S (taker sd p') →
  wakes_one (rouse sd) (<[i := p']> ps) ps' → fed sd q ps'.
Proof.
  intros Hi Hfed Hcl Hp' Htake Hw. pose proof (sum_insert (taker sd) ps i p p' Hi) as Hsum.
  assert (Hback : ∀ k pk, <[i := p']> ps !! k = Some pk → waits sd pk = true → ps !! k = Some pk).
  { intros k pk. rewrite list_lookup_insert_Some. intros [(<- & -> & _)|[_ Hk]]; congruence. }
  destruct Hw as [j pj pj' Hj Hr|Hnone].
  - destruct (side_rouse sd Hside _ _ Hr) as (Hpj' & Hpjc & Hpj0 & Hpj1).
    pose proof (sum_insert (taker sd) _ j pj pj' Hj) as Hsum'.
    intros (k & pk & Hk & Hpk). apply list_lookup_insert_Some in Hk as [(<- & <- & _)|[Hne Hk]]; [congruence|].
    destruct Hfed as [(l & pl & Hl & Hpl)|[Hopen Hoff]]; [by eauto| |right; split; [done|lia]].
    left. exists l, pl. split; [|done]. assert (l ≠ i) by congruence.
    assert (l ≠ j); [|by rewrite !list_lookup_insert_ne].
    intros ->. rewrite list_lookup_insert_ne in Hj by done. congruence.
  - intros (k & pk & Hk & Hpk). destruct (side_waits sd Hside _ Hpk) as [pk' Hpk'].
    pose proof (Forall_lookup_1 _ _ _ _ Hnone Hk). simpl in *. congruence.
Qed.

Lemma fed_broadcast q ps : fed sd q (wake_all (rouse sd) ps).
Proof.
  intros (k & pk & Hk & Hpk). unfold wake_all in Hk. apply list_lookup_fmap_Some in Hk as (p & -> & _).
  destruct (rouse sd p) as [p'|] eqn:Hp; simpl in Hpk.
  - destruct (side_rouse sd Hside _ _ Hp). congruence.
  - destruct (side_waits sd Hside _ Hpk). congruence.
Qed.

End fed.

Lemma partial_data p q : capacity (partial p q) = capacity q ∧ count (partial p q) = count q ∧ closed (partial p q) = closed q.
Proof. by destruct p. Qed.

(** [count] is in its range at every point, and does not wrap when it changes. *)
Lemma count_in_range q0 s q i p :
  monitor_ok q0 s q → calls s !! i = Some p → (0 <= count (data s) <= capacity (data s))%Z ∧
  match p with
  | PushCount _ => wrap32 (count (data s) + 1) = (count (data s) + 1)%Z
  | PopCount _ => wrap32 (count (data s) - 1) = (count (data s) - 1)%Z
  | _ => True
  end.
Proof.
  intros [Hm _ _ Hq _ Hd Hready] Hi. destruct Hq as [Hcap _ Hn _ _].
  destruct (partial_data (at_mutex s) q) as (Hpc & Hpn & _). rewrite <- Hd in *. rewrite Hpc, Hpn. split; [lia|].
  destruct p as [| | | | | | |job| | | | | | | | | |job| | | | | | |]; try done; pose proof (proj1 (Hm i _ Hi) eq_refl) as Hmi;
    unfold at_mutex in Hready; rewrite Hmi, Hi in Hready; simpl in Hready; apply wrap32_id; unfold is_int, INT_MIN; lia.
Qed.

Ltac by_move :=
  eapply fed_woken; [done|by eapply wakes_only|]; eapply fed_move; [done|done|simpl..]; intros; breflect; try done;
  first [congruence|by left|split; [done|lia]|right; split; [done|lia]].

Lemma inside_step_fed sd q0 s s' q :
  sd = pop_side ∨ sd = push_side → monitor_ok q0 s q → inside_step s s' → fed sd (data s) (calls s) → fed sd (data s') (calls s').
Proof.
  intros Hsd Hok Hs Hfed. assert (Hside : side_ok sd) by (destruct Hsd as [->| ->]; [apply pop_side_ok|apply push_side_ok]).
  destruct Hs as [d m ps h i p d' m' ev wk p' ps' Hi Hnext Hw].
  destruct (count_in_range _ _ _ _ _ Hok Hi) as [Hrange Hwrap]. clear Hok. simpl in *.
  destruct p; simpl in Hnext; destruct (closed d) eqn:Hcl; simpl in Hnext; repeat case_match; simplify_eq;
    destruct Hsd as [->| ->]; try by_move; inversion Hw; subst.
  all: first [by eapply (fed_signal pop_side pop_side_ok _ _ _ PushSignal PushUnlock)
             |by eapply (fed_signal push_side push_side_ok _ _ _ PopSignal PopUnlock)
             |by apply (fed_broadcast pop_side)|by apply (fed_broadcast push_side)].
Qed.

Lemma monitor_step_fed sd q0 s s' q :
  sd = pop_side ∨ sd = push_side → monitor_ok q0 s q → monitor_step s s' → fed sd (data s) (calls s) → fed sd (data s') (calls s').
Proof.
  intros Hsd Hok Hs Hfed. assert (Hside : side_ok sd) by (destruct Hsd as [->| ->]; [apply pop_side_ok|apply push_side_ok]).
  destruct Hs as [s s' Hs|d m ps h i p Hi Hp|d m ps h i p p' Hi Hw]; simpl in *.
  - by eapply inside_step_fed.
  - eapply fed_move; [done|done|..]; destruct Hsd as [->| ->]; destruct p; simpl; try done; right; split; (done || lia).
  - eapply fed_woken; [done|by eapply only_woken_insert|done].
Qed.

Lemma reachable_fed sd q n s :
  sd = pop_side ∨ sd = push_side → queue_ok q → rtc monitor_step (monitor_initial q n) s → fed sd (data s) (calls s).
Proof.
  intros Hsd Hq Hs. cut ((∃ q', monitor_ok q s q') ∧ fed sd (data s) (calls s)); [by intros [_ ?]|]. revert s Hs.
  apply (rtc_ind_r (λ s, (∃ q', monitor_ok q s q') ∧ fed sd (data s) (calls s))).
  - split; [by exists q; apply monitor_initial_ok|]. intros (j & p & [-> _]%lookup_replicate & Hp).
    by destruct Hsd as [->| ->].
  - intros s1 s2 _ Hs [[q1 Hok] Hfed]. split; [by eapply monitor_step_ok|by eapply monitor_step_fed].
Qed.

(** ** Termination of a run inside the calls *)

(** How many steps are left, for one of [n] threads. *)
Definition cost (n : nat) (p : qpoint) : nat :=
  match p with
  | Out => 0
  | PushLock _ | PushWoken _ => 9 | PushTest _ => 8 | PushWaiting _ => 7 | PushStore _ => 7 | PushTail _ => 6
  | PushCount _ => 5 | PushSignal => 4 | PushUnlock => 1
  | PopLock | PopWoken => 10 | PopTest => 9 | PopWaiting => 8 | PopRead => 8 | PopClear _ => 7 | PopHead _ => 6
  | PopCount _ => 5 | PopSignal => 4 | PopUnlock => 1
  | CloseLock => 5 + 4 * n | CloseSet => 4 + 4 * n | CloseWakePop => 3 + 4 * n | CloseWakePush => 2 + 2 * n
  | CloseUnlock => 1
  end.

(** A bound on the steps of all threads. *)
Definition steps_left (s : Monitor) : nat := sum_list_with (cost (length (calls s))) (calls s).

Lemma wakes_cost wk n ps ps' :
  wakes wk ps ps' → sum_list_with (cost n) ps' ≤ sum_list_with (cost n) ps +
    match wk with WakeNone => 0 | WakeOnePop | WakeOnePush => 2 | _ => 2 * length ps end.
Proof.
  assert (Hc : ∀ p p', woken p p' → cost n p' = cost n p + 2) by (intros p p' [H|H]; destruct p; by simplify_eq/=).
  assert (Hone : ∀ f ps ps', (∀ p p', f p = Some p' → woken p p') → wakes_one f ps ps' →
    sum_list_with (cost n) ps' ≤ sum_list_with (cost n) ps + 2).
  { intros f l l' Hf [j p p' Hj Hp|]; [|lia]. pose proof (sum_insert (cost n) l j p p' Hj). rewrite (Hc p p') in *; [lia|auto]. }
  assert (Hall : ∀ f ps, (∀ p p', f p = Some p' → woken p p') →
    sum_list_with (cost n) (wake_all f ps) ≤ sum_list_with (cost n) ps + 2 * length ps).
  { intros f l Hf. unfold wake_all. induction l as [|p l IH]; simpl in *; [lia|].
    assert (cost n (default p (f p)) ≤ cost n p + 2); [|lia]. destruct (f p) as [p'|] eqn:Hp; simpl; [rewrite (Hc p p') by auto|]; lia. }
  destruct 1; [lia|eapply Hone; [|done]|eapply Hone; [|done]|apply Hall|apply Hall]; intros; (by left) || (by right).
Qed.

Lemma inside_step_cost s s' : inside_step s s' → steps_left s' < steps_left s ∧ length (calls s') = length (calls s).
Proof.
  intros Hs. destruct Hs as [d m ps h i p d' m' ev wk p' ps' Hi Hnext Hw]. unfold steps_left. simpl.
  assert (Hlen : length ps' = length ps) by (rewrite <- (Forall2_length _ _ _ (wakes_only _ _ _ Hw)); apply length_insert).
  split; [|done]. rewrite Hlen. pose proof (wakes_cost wk (length ps) _ _ Hw) as Hcost. rewrite length_insert in Hcost.
  pose proof (sum_insert (cost (length ps)) ps i p p' Hi) as Hsum.
  destruct p; simpl in Hnext; repeat case_match; simplify_eq; simpl in *; lia.
Qed.

(** ** A state in which no thread can move *)

(** A signal that wakes the first of the sleeping threads. *)
Definition wake_first (wk : wake) (ps : list qpoint) : list qpoint :=
  let first f := match list_find (λ p, is_Some (f p)) ps with
                 | Some (j, p) => <[j := default p (f p)]> ps
                 | None => ps
                 end in
  match wk with
  | WakeNone => ps
  | WakeOnePop => first wake_pop
  | WakeOnePush => first wake_push
  | WakeAllPop => wake_all wake_pop ps
  | WakeAllPush => wake_all wake_push ps
  end.

Lemma wakes_exists wk ps : wakes wk ps (wake_first wk ps).
Proof.
  assert (Hone : ∀ f, wakes_one f ps match list_find (λ p, is_Some (f p)) ps with
                                     | Some (j, p) => <[j := default p (f p)]> ps | None => ps end).
  { intros f. destruct (list_find _ ps) as [[j p]|] eqn:Hf.
    - apply list_find_Some in Hf as (Hj & [p' Hp] & _). rewrite Hp. by econstructor.
    - apply list_find_None in Hf. constructor 2. eapply Forall_impl; [done|]. intros p Hp. by apply eq_None_not_Some. }
  destruct wk; simpl; constructor; apply Hone.
Qed.

(** Thread [i] starts the call at [p], or moves inside its call. *)
Definition advance (s : Monitor) (a : nat * option qpoint) : option Monitor :=
  let '(i, start) := a in
  p ← calls s !! i;
  match start with
  | Some p' =>
      if bool_decide (p = Out) && starts p'
      then Some (mkMonitor (data s) (mutex s) (<[i := p']> (calls s)) (history s)) else None
  | None =>
      '(m', q', ev, wk, p') ← call_next i (mutex s) (data s) p;
      Some (mkMonitor q' m' (wake_first wk (<[i := p']> (calls s))) (history s ++ ev))
  end.

Fixpoint run_schedule (s : Monitor) (l : list (nat * option qpoint)) : option Monitor :=
  match l with [] => Some s | a :: l' => s' ← advance s a; run_schedule s' l' end.

Lemma advance_inside s i s' : advance s (i, None) = Some s' → inside_step s s'.
Proof.
  destruct s as [d m ps h]. simpl. intros (p & Hi & Hs)%bind_Some. apply bind_Some in Hs as ([[[[m' q'] ev] wk] p'] & Hnext & [= <-]).
  by econstructor; [| |apply wakes_exists].
Qed.

Lemma advance_sound s a s' : advance s a = Some s' → monitor_step s s'.
Proof.
  destruct a as [i [p'|]]; [|by intros ?%advance_inside; apply step_inside].
  destruct s as [d m ps h]. simpl. intros (p & Hi & Hs)%bind_Some. destruct (bool_decide (p = Out) && starts p') eqn:Hp; [|done].
  apply andb_prop in Hp as [->%bool_decide_eq_true Hp]. simplify_eq. by apply step_call.
Qed.

Lemma run_schedule_sound l s s' : run_schedule s l = Some s' → rtc monitor_step s s'.
Proof.
  revert s. induction l as [|a l IH]; intros s Hs; simpl in Hs; [by simplify_eq|].
  apply bind_Some in Hs as (s1 & Ha & Hs). eapply rtc_l; [by eapply advance_sound|by apply IH].
Qed.

Lemma run_schedule_inside l s s' :
  run_schedule s (map (λ i, (i, None)) l) = Some s' → nsteps inside_step (length l) s s'.
Proof.
  revert s. induction l as [|i l IH]; intros s Hs; cbn [map run_schedule length] in *; [simplify_eq; constructor|].
  apply bind_Some in Hs as (s1 & Ha & Hs). econstructor; [by eapply advance_inside|by apply IH].
Qed.

(** A thread is in no call, or sleeps in one that has to wait. *)
Definition settled (q : JobQueue) (p : qpoint) : Prop :=
  match p with
  | Out => True
  | PushWaiting job => job_queue_push q job = None
  | PopWaiting => job_queue_pop q = None
  | _ => False
  end.

Lemma stuck_points q0 s q i p :
  monitor_ok q0 s q → nf inside_step s → calls s !! i = Some p → p = Out ∨ p = PopWaiting ∨ ∃ job, p = PushWaiting job.
Proof.
  intros [Hm Ho _ _ _ _ _] Hnf Hi. destruct s as [d m ps h]. simpl in *.
  assert (Hno : ∀ j pj r, ps !! j = Some pj → call_next j m d pj = Some r → False).
  { intros j pj [[[[m' d'] ev] wk] pj'] Hj Hnext. pose proof (wakes_exists wk (<[j := pj']> ps)) as Hw.
    apply Hnf. eexists. by econstructor. }
  destruct m as [j|].
  - exfalso. destruct (Ho j eq_refl) as [pj Hj]. pose proof (proj2 (Hm j pj Hj) eq_refl) as Hh.
    destruct (call_next j (Some j) d pj) as [r|] eqn:Hnext; [by eapply Hno|]. destruct pj; simpl in *; repeat case_match; done.
  - destruct (call_next i None d p) as [r|] eqn:Hnext; [by exfalso; eapply Hno|].
    pose proof (Hm i p Hi). destruct p; simpl in *; repeat case_match; eauto; by naive_solver.
Qed.

Lemma stuck_settled q0 s q :
  monitor_ok q0 s q → fed pop_side (data s) (calls s) → fed push_side (data s) (calls s) → nf inside_step s →
  Forall (settled (data s)) (calls s).
Proof.
  intros Hok Hpop Hpush Hnf. apply Forall_lookup. intros i p Hi.
  assert (Hpoints : ∀ j pj, calls s !! j = Some pj → pj = Out ∨ pj = PopWaiting ∨ ∃ job, pj = PushWaiting job)
    by (intros; by eapply stuck_points).
  assert (Hzero : ∀ sd, sd = pop_side ∨ sd = push_side → sum_list_with (taker sd) (calls s) = 0 ∧
    ¬ ∃ j pj, calls s !! j = Some pj ∧ closing sd pj = true).
  { intros sd Hsd. split.
    - apply sum_zero. intros pj [j Hj]%list_elem_of_lookup.
      destruct (Hpoints j pj Hj) as [->|[->|[job ->]]]; by destruct Hsd as [->| ->].
    - intros (j & pj & Hj & Hc). destruct (Hpoints j pj Hj) as [->|[->|[job ->]]]; by destruct Hsd as [->| ->]. }
  destruct (count_in_range _ _ _ _ _ Hok Hi) as [Hrange _]. pose proof (Forall_lookup_1 _ _ _ _ (mon_calls _ _ _ Hok) Hi) as Hp.
  destruct (Hpoints i p Hi) as [->|[->|[job ->]]]; [done|..]; simpl in *.
  - destruct (Hzero pop_side) as [Hz Hc]; [by left|]. destruct Hpop as [?|[Hopen Hoff]]; [by eauto|done|].
    rewrite Hz in Hoff. simpl in Hoff. unfold job_queue_pop. rewrite Hopen. by replace (count (data s)) with 0%Z by lia.
  - destruct (Hzero push_side) as [Hz Hc]; [by right|]. destruct Hpush as [?|[Hopen Hoff]]; [by eauto|done|].
    rewrite Hz in Hoff. simpl in Hoff. unfold job_queue_push. destruct (execute job); [|done]. rewrite Hopen.
    replace (count (data s)) with (capacity (data s)) by lia. by rewrite Z.eqb_refl.
Qed.

(** ** Properties *)

(** C27. Every interleaving of calls of [job_queue_push], [job_queue_pop] and [job_queue_close] by
    any number of threads, down to the single stores, the sleeping and the spurious wakeups, is
    one after the other: the outcomes so far, in the order in which they happened, are those of
    the same calls taken as single steps, and whenever the mutex is free the queue is the one
    those calls leave, a well-formed ring buffer. *)
Theorem queue_calls_linearizable (q : JobQueue) (n : nat) (s : Monitor) :
  queue_ok q → rtc monitor_step (monitor_initial q n) s →
  ∃ q', replay q (history s) = Some q' ∧ queue_ok q' ∧ (mutex s = None → data s = q').
Proof.
  intros Hq Hs. destruct (monitor_reachable_ok q n s Hq Hs) as [q' [_ _ _ Hq' Hr Hd _]]. exists q'.
  split_and!; [done|done|]. intros Hm. rewrite Hd. unfold at_mutex. by rewrite Hm.
Qed.

(** C28. No wakeup is lost: when no further calls are started and no further wakeup is spurious, the
    calls that are under way take a bounded number of steps, and when none of them can go on, each
    thread has returned or sleeps in a call that has to wait: a [job_queue_pop] on an open
    empty queue, or a [job_queue_push] on an open full one. *)
Theorem queue_no_lost_wakeup (q : JobQueue) (n : nat) (s s' : Monitor) (k : nat) :
  queue_ok q → rtc monitor_step (monitor_initial q n) s → nsteps inside_step k s s' →
  k ≤ steps_left s ∧ (nf inside_step s' → Forall (settled (data s')) (calls s')).
Proof.
  intros Hq Hs Hk. split.
  - clear Hs Hq. induction Hk as [|k s s1 s' Hs Hk IH]; [lia|]. destruct (inside_step_cost _ _ Hs). lia.
  - assert (Hs' : rtc monitor_step (monitor_initial q n) s').
    { etrans; [done|]. assert (Hr : rtc inside_step s s') by (apply rtc_nsteps; eauto).
      clear -Hr. induction Hr; [done|]. eapply rtc_l; [by apply step_inside|done]. }
    destruct (monitor_reachable_ok q n s' Hq Hs') as [q' Hok].
    eapply stuck_settled; [done|apply (reachable_fed _ q n); auto..].
Qed.

(** ** Examples *)

(** Thread 0 pops from an empty queue and falls asleep; thread 1 pushes and wakes it. *)
Definition small_queue : JobQueue := mkJobQueue 1 0 0 0 false [zero_job].
Definition sleepy_schedule : list (nat * option qpoint) :=
  [(0, Some PopLock); (0, None); (0, None); (1, Some (PushLock job_a)); (1, None); (1, None); (1, None)].
Definition sleepy : Monitor := default (monitor_initial small_queue 2) (run_schedule (monitor_initial small_queue 2) sleepy_schedule).
Definition waking : list nat := [1; 1; 1; 1; 0; 0; 0; 0; 0; 0; 0; 0].
Definition awake : Monitor := default sleepy (run_schedule sleepy (map (λ i, (i, None)) waking)).

Example sleepy_run :
  calls sleepy = [PopWaiting; PushTail job_a] ∧ history awake = [Pushed job_a; Popped job_a] ∧ calls awake = [Out; Out].
Proof. vm_compute. done. Qed.

Lemma small_queue_ok : queue_ok small_queue.
Proof. split; vm_compute; done. Qed.

Lemma queue_calls_linearizable_witness :
  ∃ q', replay small_queue (history sleepy) = Some q' ∧ queue_ok q' ∧ (mutex sleepy = None → data sleepy = q').
Proof.
  apply (queue_calls_linearizable small_queue 2 sleepy); [exact small_queue_ok|].
  apply (run_schedule_sound sleepy_schedule). vm_compute. reflexivity.
Defined.

Lemma queue_no_lost_wakeup_witness :
  12 ≤ steps_left sleepy ∧ (nf inside_step awake → Forall (settled (data awake)) (calls awake)).
Proof.
  apply (queue_no_lost_wakeup small_queue 2 sleepy awake 12); [exact small_queue_ok|..].
  - apply (run_schedule_sound sleepy_schedule). vm_compute. reflexivity.
  - apply (run_schedule_inside waking). vm_compute. reflexivity.
Defined.
