(* ===== verification/ThreadPool.v ===== *)
(** * [src/src/server/pool/thread_pool.c]: the worker threads

    The pool as a transition system: the thread that starts, stops and destroys the pool, the
    threads that submit jobs, and the worker loops.  A step is one call on the queue, which the
    mutex makes atomic, one callback of [run_job], or a part of [thread_pool_start] and
    [thread_pool_stop] between two waits.  The logs record which jobs were accepted, taken from
    the queue, executed and done with, and the cleanup callbacks that were called. *)

From stdpp Require Import base list strings relations.
From S2P Require Import Prelude CString Common JobQueue.

Record ThreadPool := mkThreadPool { worker_count : Z; started : bool; queue : JobQueue }.

Definition thread_pool_create (workers queue_capacity : Z) : result SqlError ThreadPool :=
  if (workers <=? 0)%Z then fail «"worker count must be positive"»
  else if (queue_capacity <=? 0)%Z then fail «"queue capacity must be positive"»
  else
    q ← job_queue_create queue_capacity;
    Ok (mkThreadPool workers false q).

Definition set_queue (p : ThreadPool) (q : JobQueue) : ThreadPool := mkThreadPool (worker_count p) (started p) q.
Definition set_started (b : bool) (p : ThreadPool) : ThreadPool := mkThreadPool (worker_count p) b (queue p).

(** [None] while the caller waits for room in the queue.  The third part is the cleanup call
    made for a job that was refused. *)
Definition thread_pool_submit (pool : ThreadPool) (job : Job)
    : option (result SqlError () * ThreadPool * option (nat * nat)) :=
  if negb (started pool) then Some (fail «"thread pool is not started"», pool, cleanup_call job)
  else
    match execute job with
    | None => Some (fail «"job execute callback must not be null"», pool, cleanup_call job)
    | Some _ =>
        match job_queue_push (queue pool) job with
        | None => None
        | Some (Err e, q) => Some (Err e, set_queue pool q, cleanup_call job)
        | Some (Ok _, q) => Some (Ok (), set_queue pool q, None)
        end
    end.

(** Where a worker is in [thread_pool_worker_main]. *)
Inductive worker :=
| Popping              (** about to call [job_queue_pop] *)
| Running (job : Job)  (** about to call [job->execute] *)
| Ran (job : Job)      (** about to call [job->cleanup] and loop *)
| Exited.

#[export] Instance worker_eq_dec : EqDecision worker.
Proof. solve_decision. Defined.

(** [thread_pool_stop] up to the first [pthread_join]: the new pool, and whether it goes on to
    join the workers. *)
Definition thread_pool_stop_begin (pool : ThreadPool) : ThreadPool * bool :=
  (set_queue pool (job_queue_close (queue pool)), started pool).

(** The rest of [thread_pool_stop]; [None] while a worker that it joins is still running. *)
Definition thread_pool_stop_end (pool : ThreadPool) (workers : list worker) : option ThreadPool :=
  if forallb (λ w, bool_decide (w = Exited)) (take (Z.to_nat (worker_count pool)) workers)
  then Some (set_started false pool)
  else None.

(** [thread_pool_start], where [created] is how many [pthread_create] calls succeed before one
    fails.  The result, the pool, the workers, and whether the call is still joining the
    workers of a start that failed. *)
Definition thread_pool_start (pool : ThreadPool) (workers : list worker) (created : nat)
    : result SqlError () * ThreadPool * list worker * bool :=
  if started pool then (Ok (), pool, workers, false)
  else if Nat.leb (Z.to_nat (worker_count pool)) created
  then (Ok (), set_started true pool, replicate (Z.to_nat (worker_count pool)) Popping, false)
  else
    let '(pool', joins) := thread_pool_stop_begin (mkThreadPool (Z.of_nat created) true (queue pool)) in
    (fail «"failed to start worker thread"», pool', replicate created Popping, joins).

(** The cleanup calls of [thread_pool_destroy] once its [thread_pool_stop] has returned. *)
Definition thread_pool_destroy (pool : ThreadPool) : list (nat * nat) := job_queue_destroy (queue pool).

Record PoolState := mkPoolState {
  pool : ThreadPool;
  workers : list worker;
  joining : bool;            (** [thread_pool_stop] is joining the workers *)
  accepted : list Job;       (** jobs [thread_pool_submit] returned 1 for, in order *)
  refused : list Job;        (** jobs [thread_pool_submit] returned 0 for *)
  taken : list Job;          (** jobs popped, in order *)
  executed : list Job;       (** [execute] calls, in order *)
  finished : list Job;       (** jobs [run_job] returned from *)
  cleanups : list (nat * nat)  (** cleanup callbacks called, in order *)
}.

(** One step of a worker: a call of [job_queue_pop], or one callback of [run_job]. *)
Inductive worker_step : PoolState → PoolState → Prop :=
| step_pop p ws j a r t e f k i job q' :
    ws !! i = Some Popping → job_queue_pop (queue p) = Some (Some job, q') →
    worker_step (mkPoolState p ws j a r t e f k)
              (mkPoolState (set_queue p q') (<[i := Running job]> ws) j a r (t ++ [job]) e f k)
| step_exit p ws j a r t e f k i q' :
    ws !! i = Some Popping → job_queue_pop (queue p) = Some (None, q') →
    worker_step (mkPoolState p ws j a r t e f k) (mkPoolState (set_queue p q') (<[i := Exited]> ws) j a r t e f k)
| step_execute p ws j a r t e f k i job :
    ws !! i = Some (Running job) →
    worker_step (mkPoolState p ws j a r t e f k) (mkPoolState p (<[i := Ran job]> ws) j a r t (e ++ [job]) f k)
| step_cleanup p ws j a r t e f k i job :
    ws !! i = Some (Ran job) →
    worker_step (mkPoolState p ws j a r t e f k)
              (mkPoolState p (<[i := Popping]> ws) j a r t e (f ++ [job]) (k ++ option_list (cleanup_call job))).

(** The step worker [i] takes, if it can move. *)
Definition worker_next (i : nat) (s : PoolState) : option PoolState :=
  let '(mkPoolState p ws j a r t e f k) := s in
  match ws !! i with
  | Some Popping =>
      match job_queue_pop (queue p) with
      | Some (Some job, q') => Some (mkPoolState (set_queue p q') (<[i := Running job]> ws) j a r (t ++ [job]) e f k)
      | Some (None, q') => Some (mkPoolState (set_queue p q') (<[i := Exited]> ws) j a r t e f k)
      | None => None
      end
  | Some (Running job) => Some (mkPoolState p (<[i := Ran job]> ws) j a r t (e ++ [job]) f k)
  | Some (Ran job) =>
      Some (mkPoolState p (<[i := Popping]> ws) j a r t e (f ++ [job]) (k ++ option_list (cleanup_call job)))
  | _ => None
  end.

Inductive pool_step : PoolState → PoolState → Prop :=
| step_start p ws a r t e f k created res p' ws' j :
    started p = false → thread_pool_start p ws created = (res, p', ws', j) →
    pool_step (mkPoolState p ws false a r t e f k) (mkPoolState p' ws' j a r t e f k)
| step_submit_ok p ws j a r t e f k job p' c :
    thread_pool_submit p job = Some (Ok (), p', c) →
    pool_step (mkPoolState p ws j a r t e f k) (mkPoolState p' ws j (a ++ [job]) r t e f (k ++ option_list c))
| step_submit_refused p ws j a r t e f k job err p' c :
    thread_pool_submit p job = Some (Err err, p', c) →
    pool_step (mkPoolState p ws j a r t e f k) (mkPoolState p' ws j a (r ++ [job]) t e f (k ++ option_list c))
| step_worker s s' : worker_step s s' → pool_step s s'
| step_stop_begin p ws a r t e f k p' j :
    thread_pool_stop_begin p = (p', j) →
    pool_step (mkPoolState p ws false a r t e f k) (mkPoolState p' ws j a r t e f k)
| step_stop_end p ws a r t e f k p' :
    thread_pool_stop_end p ws = Some p' →
    pool_step (mkPoolState p ws true a r t e f k) (mkPoolState p' ws false a r t e f k).

(** The pool [thread_pool_create] returns. *)
Definition pool_initial (p : ThreadPool) : PoolState := mkPoolState p [] false [] [] [] [] [] [].

Definition running_of (w : worker) : option Job := match w with Running j => Some j | _ => None end.
Definition ran_of (w : worker) : option Job := match w with Ran j => Some j | _ => None end.

(** The jobs workers are about to execute, and those they are about to clean up. *)
Definition running_jobs (ws : list worker) : list Job := omap running_of ws.
Definition ran_jobs (ws : list worker) : list Job := omap ran_of ws.

Record pool_ok (s : PoolState) : Prop := {
  pool_queue : queue_ok (queue (pool s));
  pool_fifo : taken s ++ contents (queue (pool s)) = accepted s;
  pool_running : taken s ≡ₚ running_jobs (workers s) ++ executed s;
  pool_ran : executed s ≡ₚ ran_jobs (workers s) ++ finished s;
  pool_cleanups : cleanups s ≡ₚ omap cleanup_call (finished s ++ refused s);
  pool_exited : Exited ∈ workers s → closed (queue (pool s)) = true ∧ contents (queue (pool s)) = [];
  pool_joining : joining s = true → closed (queue (pool s)) = true;
  pool_started : if started (pool s) then length (workers s) = Z.to_nat (worker_count (pool s))
                 else Forall (λ w, w = Exited) (workers s)
}.

(** ** Lemmas *)

Lemma worker_next_spec s s' : worker_step s s' ↔ ∃ i, worker_next i s = Some s'.
Proof.
  split.
  - intros Hstep. destruct Hstep as [p ws j a r t e f k i job q' Hi Hp|p ws j a r t e f k i q' Hi Hp|
      p ws j a r t e f k i job Hi|p ws j a r t e f k i job Hi]; exists i; simpl; by rewrite Hi, ?Hp.
  - intros [i Hn]. destruct s as [p ws j a r t e f k]. simpl in Hn.
    destruct (ws !! i) as [[|job|job|]|] eqn:Hi; try done; [|injection Hn as <-; by constructor..].
    destruct (job_queue_pop (queue p)) as [[[job|] q']|] eqn:Hp; [| |done]; injection Hn as <-; by econstructor.
Qed.

(** Changing one worker changes the jobs workers hold by that worker's jobs. *)
Lemma omap_insert {A B} (f : A → option B) l i x y :
  l !! i = Some x →
  option_list (f x) ++ omap f (<[i := y]> l) ≡ₚ option_list (f y) ++ omap f l.
Proof.
  revert i. induction l as [|z l IH]; intros [|i] Hi; simpl in *; [done|done| |].
  - injection Hi as ->. destruct (f x), (f y); simpl; by rewrite 1?Permutation_swap.
  - specialize (IH i Hi). destruct (f z); [|done].
    rewrite <- !Permutation_middle. by f_equiv.
Qed.

Lemma push_accepts q job q' :
  queue_ok q → job_queue_push q job = Some (Ok (), q') →
  queue_ok q' ∧ contents q' = contents q ++ [job] ∧ closed q = false ∧ closed q' = false.
Proof.
  intros Hq Hp. pose proof (push_refines q job Hq) as Hr. rewrite Hp in Hr. destruct Hr as [Hq' Hr].
  split; [done|]. unfold fifo_push in Hr. destruct (execute job); [|done]. simpl in Hr.
  destruct (closed q) eqn:Hc; [done|]. destruct (Nat.eqb _ _); [done|].
  injection Hr as _ Hcl Hco. by rewrite <- Hco, <- Hcl.
Qed.

Lemma pop_takes q job q' :
  queue_ok q → job_queue_pop q = Some (Some job, q') →
  queue_ok q' ∧ contents q = job :: contents q' ∧ closed q' = closed q.
Proof.
  intros Hq Hp. pose proof (pop_refines q Hq) as Hr. rewrite Hp in Hr. destruct Hr as [Hq' Hr].
  split; [done|]. unfold fifo_pop in Hr. simpl in Hr. destruct (contents q) as [|x l]; [by destruct (closed q)|].
  injection Hr as -> _ Hcl Hco. by rewrite <- Hco, <- Hcl.
Qed.

Lemma pop_drained q q' :
  queue_ok q → job_queue_pop q = Some (None, q') → q' = q ∧ closed q = true ∧ contents q = [].
Proof.
  intros Hq. pose proof (contents_length q Hq) as Hlen. unfold job_queue_pop.
  destruct (Z.eqb_spec (count q) 0) as [H0|Hne].
  - destruct (closed q); simpl; [|done]. intros [= <-]. rewrite H0 in Hlen. by destruct (contents q).
  - rewrite andb_false_r. destruct (pop_some q Hq) as (job & Hjob & _); [pose proof (queue_count q Hq); lia|].
    by rewrite Hjob.
Qed.

(** A refused job leaves the pool alone and its cleanup is called. *)
Lemma submit_refused p job err p' c :
  thread_pool_submit p job = Some (Err err, p', c) → p' = p ∧ c = cleanup_call job.
Proof.
  destruct p as [n b q]. unfold thread_pool_submit. simpl. destruct b; simpl; [|by intros [= _ <- <-]].
  destruct (execute job) eqn:He; [|by intros [= _ <- <-]]. unfold job_queue_push. rewrite He.
  destruct (_ && _); [done|]. destruct (closed q); [|done]. by intros [= _ <- <-].
Qed.

Lemma submit_accepted p job p' c :
  thread_pool_submit p job = Some (Ok (), p', c) →
  started p = true ∧ c = None ∧ ∃ q, job_queue_push (queue p) job = Some (Ok (), q) ∧ p' = set_queue p q.
Proof.
  unfold thread_pool_submit. destruct (started p); simpl; [|done]. destruct (execute job); [|done].
  destruct (job_queue_push (queue p) job) as [[[[]|] q]|]; [|done..]. intros [= <- <-]. eauto.
Qed.

Lemma exited_insert (ws : list worker) (i : nat) w : w ≠ Exited → Exited ∈ <[i := w]> ws → Exited ∈ ws.
Proof.
  intros Hw (j & Hj)%list_elem_of_lookup. apply list_elem_of_lookup. exists j.
  apply list_lookup_insert_Some in Hj as [(-> & Hx & _)|[_ Hj]]; [congruence|done].
Qed.

(** How the jobs in workers' hands change when worker [i] moves from [w] to [w']. *)
Lemma workers_insert ws i w w' :
  ws !! i = Some w →
  option_list (running_of w) ++ running_jobs (<[i := w']> ws) ≡ₚ option_list (running_of w') ++ running_jobs ws ∧
  option_list (ran_of w) ++ ran_jobs (<[i := w']> ws) ≡ₚ option_list (ran_of w') ++ ran_jobs ws.
Proof. intros Hi. split; by apply omap_insert. Qed.

(** Only the workers of a started pool move. *)
Lemma started_move (b : bool) (n : nat) ws i w w' :
  ws !! i = Some w → w ≠ Exited →
  (if b then length ws = n else Forall (λ x, x = Exited) ws) →
  if b then length (<[i := w']> ws) = n else Forall (λ x, x = Exited) (<[i := w']> ws).
Proof.
  intros Hi Hw Hb. destruct b; [by rewrite length_insert|]. rewrite Forall_lookup in Hb. by apply Hb in Hi.
Qed.

Lemma all_exited ws :
  Forall (λ w, w = Exited) ws → running_jobs ws = [] ∧ ran_jobs ws = [] ∧ (ws ≠ [] → Exited ∈ ws).
Proof.
  induction 1 as [|w ws -> _ (IH1 & IH2 & _)]; [done|]. unfold running_jobs, ran_jobs in *. simpl.
  split_and!; [done|done|]. intros _. by left.
Qed.

Lemma fresh_workers n :
  running_jobs (replicate n Popping) = [] ∧ ran_jobs (replicate n Popping) = [] ∧ (Exited ∉ replicate n Popping).
Proof. split_and!; [by induction n..|]. by intros [? _]%elem_of_replicate. Qed.

Lemma stop_end p ws p' :
  length ws = Z.to_nat (worker_count p) → thread_pool_stop_end p ws = Some p' →
  Forall (λ w, w = Exited) ws ∧ p' = set_started false p.
Proof.
  intros Hlen. unfold thread_pool_stop_end. rewrite take_ge by lia.
  destruct (forallb _ ws) eqn:Hall; [|done]. intros [= <-]. split; [|done].
  apply Forall_forall. intros w Hw. rewrite forallb_forall in Hall.
  apply (bool_decide_eq_true_1 (w = Exited)), Hall. by apply list_elem_of_In.
Qed.

(** Starting workers on a pool that has none running keeps the invariant. *)
Lemma start_ok p ws a r t e f k created res p' ws' j :
  pool_ok (mkPoolState p ws false a r t e f k) → started p = false →
  thread_pool_start p ws created = (res, p', ws', j) → pool_ok (mkPoolState p' ws' j a r t e f k).
Proof.
  intros [Hq Hf Hr Hran Hk _ _ Hst] Hs. simpl in *. rewrite Hs in Hst.
  destruct (all_exited ws Hst) as (Hr0 & Hran0 & _). rewrite Hr0 in Hr. rewrite Hran0 in Hran.
  unfold thread_pool_start. rewrite Hs. simpl. case_match; intros [= _ <- <- <-].
  - destruct (fresh_workers (Z.to_nat (worker_count p))) as (Hn1 & Hn2 & Hn3).
    constructor; simpl; [done|done|by rewrite Hn1|by rewrite Hn2|done|done|done|by rewrite length_replicate].
  - destruct (fresh_workers created) as (Hn1 & Hn2 & Hn3).
    constructor; simpl; [by apply close_ok|done|by rewrite Hn1|by rewrite Hn2|done|done|done|].
    rewrite length_replicate. lia.
Qed.

(** A worker's step on its own job: executing it, or finishing it and looping. *)
Lemma execute_ok p ws j a r t e f k i job :
  pool_ok (mkPoolState p ws j a r t e f k) → ws !! i = Some (Running job) →
  pool_ok (mkPoolState p (<[i := Ran job]> ws) j a r t (e ++ [job]) f k).
Proof.
  intros [Hq Hf Hr Hran Hk He Hj Hst] Hi. simpl in *.
  destruct (workers_insert ws i (Running job) (Ran job) Hi) as [Ho1 Ho2]; simpl in Ho1, Ho2.
  constructor; simpl; [done|done| | |done| |done|by eapply started_move].
  - rewrite Hr, <- Ho1. simpl. by rewrite Permutation_middle, <- Permutation_cons_append.
  - rewrite Ho2. simpl. rewrite <- Permutation_cons_append. by rewrite Hran.
  - intros Hex. apply exited_insert in Hex; [|done]. by apply He.
Qed.

Lemma cleanup_ok p ws j a r t e f k i job :
  pool_ok (mkPoolState p ws j a r t e f k) → ws !! i = Some (Ran job) →
  pool_ok (mkPoolState p (<[i := Popping]> ws) j a r t e (f ++ [job]) (k ++ option_list (cleanup_call job))).
Proof.
  intros [Hq Hf Hr Hran Hk He Hj Hst] Hi. simpl in *.
  destruct (workers_insert ws i (Ran job) Popping Hi) as [Ho1 Ho2]; simpl in Ho1, Ho2.
  constructor; simpl; [done|done|by rewrite Ho1| | | |done|by eapply started_move].
  - rewrite Hran, <- Ho2. simpl. by rewrite Permutation_middle, <- Permutation_cons_append.
  - rewrite Hk, !omap_app. simpl. destruct (cleanup_call job); simpl; [|by rewrite !app_nil_r].
    rewrite <- !app_assoc. f_equiv. apply Permutation_app_comm.
  - intros Hex. apply exited_insert in Hex; [|done]. by apply He.
Qed.

Lemma worker_step_ok s s' : pool_ok s → worker_step s s' → pool_ok s'.
Proof.
  intros Hs Hstep. destruct Hstep as [| | |]; [| |by eapply execute_ok|by eapply cleanup_ok];
    destruct Hs as [Hq Hf Hr Hran Hk He Hj Hst]; simpl in *.
  - destruct (pop_takes (queue p) job q') as (? & Hc & Hcl); [done|done|].
    destruct (workers_insert ws i Popping (Running job)) as [Ho1 Ho2]; [done|]; simpl in Ho1, Ho2.
    constructor; simpl; [done|by rewrite <- Hf, Hc, <- app_assoc| |by rewrite Ho2|done| |by rewrite Hcl|by eapply started_move].
    + rewrite Ho1, Hr. by rewrite Permutation_app_comm.
    + intros Hex. apply exited_insert in Hex; [|done]. apply He in Hex as [? Hemp]. congruence.
  - destruct (pop_drained (queue p) q') as (-> & Hcl & Hemp); [done|done|].
    destruct (workers_insert ws i Popping Exited) as [Ho1 Ho2]; [done|]; simpl in Ho1, Ho2.
    constructor; simpl; [done|done|by rewrite Ho1|by rewrite Ho2|done|done|done|by eapply started_move].
Qed.

Lemma pool_step_ok s s' : pool_ok s → pool_step s s' → pool_ok s'.
Proof.
  intros Hs Hstep. destruct Hstep;
    [by eapply start_ok| | |by eapply worker_step_ok| |];
    destruct Hs as [Hq Hf Hr Hran Hk He Hj Hst]; simpl in *.
  - destruct (submit_accepted p job p' c) as (Hs & -> & q & Hp & ->); [done|].
    destruct (push_accepts (queue p) job q) as (? & Hc & Hopen & _); [done..|].
    constructor; simpl; [done|by rewrite Hc, app_assoc, Hf|done|done|by rewrite app_nil_r| | |done].
    + intros [Hcl _]%He. congruence.
    + intros ?%Hj. congruence.
  - destruct (submit_refused p job err p' c) as [-> ->]; [done|].
    constructor; simpl; try done. rewrite Hk, app_assoc, !omap_app. simpl.
    destruct (cleanup_call job); simpl; by rewrite ?app_nil_r.
  - unfold thread_pool_stop_begin in *. simplify_eq.
    constructor; simpl; [by apply close_ok|done|done|done|done| |done|done]. intros Hex. split; [done|]. by apply He.
  - destruct (started p) eqn:Hs.
    + destruct (stop_end p ws p') as [Hall ->]; [done|done|]. by constructor.
    + unfold thread_pool_stop_end in *. destruct (forallb _ _); simplify_eq. by constructor.
Qed.

Lemma pool_reachable_ok s s' : pool_ok s → rtc pool_step s s' → pool_ok s'.
Proof. intros Hs Hr. induction Hr; [done|]. eauto using pool_step_ok. Qed.

Lemma created_pool_ok w c p :
  (c <= INT_MAX)%Z → thread_pool_create w c = Ok p → pool_ok (pool_initial p).
Proof.
  intros Hc. unfold thread_pool_create. case_match; [done|]. case_match; [done|].
  destruct (job_queue_create c) as [q|] eqn:Hq; simpl; [|done]. intros [= <-].
  apply create_ok in Hq as [Hq Hemp]; [|done]. constructor; simpl; [done|done|done|done|done| |done|done].
  by intros ?%elem_of_nil.
Qed.

(** The queue keeps the capacity it was created with. *)
Lemma worker_step_capacity s s' :
  worker_step s s' → capacity (queue (pool s')) = capacity (queue (pool s)).
Proof.
  intros Hstep. destruct Hstep; simpl in *; [| |done|done];
    unfold job_queue_pop in *; repeat case_match; by simplify_eq/=.
Qed.

Lemma pool_step_capacity s s' :
  pool_step s s' → capacity (queue (pool s')) = capacity (queue (pool s)).
Proof.
  intros Hstep. destruct Hstep; simpl in *.
  - unfold thread_pool_start, thread_pool_stop_begin in *. destruct (started p); [by simplify_eq|].
    by destruct (Nat.leb _ _); simplify_eq.
  - destruct (submit_accepted p job p' c) as (_ & _ & q & Hp & ->); [done|]. unfold job_queue_push in Hp.
    repeat case_match; by simplify_eq/=.
  - by destruct (submit_refused p job err p' c) as [-> _].
  - by apply worker_step_capacity.
  - unfold thread_pool_stop_begin in *. by simplify_eq.
  - unfold thread_pool_stop_end in *. case_match; by simplify_eq.
Qed.

Lemma pool_capacity w c p s :
  thread_pool_create w c = Ok p → rtc pool_step (pool_initial p) s → capacity (queue (pool s)) = c.
Proof.
  intros Hp Hr. assert (H0 : capacity (queue (pool (pool_initial p))) = c).
  { unfold thread_pool_create, job_queue_create in Hp. repeat case_match; simplify_eq/=; repeat case_match; by simplify_eq. }
  revert H0. induction Hr; [done|]. intros H0. apply IHHr. by erewrite pool_step_capacity by done.
Qed.

(** ** Lemmas: the workers' remaining work *)

(** The steps a worker still takes for the job in its hands and to leave the loop. *)
Definition worker_work (w : worker) : nat :=
  match w with Popping => 1 | Running _ => 3 | Ran _ => 2 | Exited => 0 end.

Definition work (s : PoolState) : nat :=
  3 * length (contents (queue (pool s))) + sum_list_with worker_work (workers s).

Lemma sum_list_with_insert {A} (f : A → nat) l i x y :
  l !! i = Some x → (sum_list_with f (<[i := y]> l) + f x = sum_list_with f l + f y)%nat.
Proof.
  revert i. induction l as [|z l IH]; intros [|i] Hi; simplify_eq/=; [lia|]. specialize (IH i Hi). lia.
Qed.

(** Every worker step does one unit of the work. *)
Lemma worker_step_work s s' : pool_ok s → worker_step s s' → work s = S (work s').
Proof.
  intros Hs Hstep. destruct Hstep as [p ws j a r t e f k i job q' Hi Hpop|p ws j a r t e f k i q' Hi Hpop|
    p ws j a r t e f k i job Hi|p ws j a r t e f k i job Hi]; unfold work; simpl.
  - destruct (pop_takes (queue p) job q') as (_ & -> & _); [apply Hs|done|]. simpl.
    pose proof (sum_list_with_insert worker_work ws i _ (Running job) Hi). simpl in *. lia.
  - destruct (pop_drained (queue p) q') as (-> & _ & _); [apply Hs|done|].
    pose proof (sum_list_with_insert worker_work ws i _ Exited Hi). simpl in *. lia.
  - pose proof (sum_list_with_insert worker_work ws i _ (Ran job) Hi). simpl in *. lia.
  - pose proof (sum_list_with_insert worker_work ws i _ Popping Hi). simpl in *. lia.
Qed.

Lemma worker_steps_work n s s' :
  pool_ok s → nsteps worker_step n s s' → pool_ok s' ∧ work s = (n + work s')%nat.
Proof.
  intros Hs Hn. induction Hn as [s|n s s1 s2 Hstep _ IH]; [done|].
  destruct IH as [Hok IH]; [by eapply worker_step_ok|]. split; [done|].
  rewrite (worker_step_work s s1) by done. lia.
Qed.

(** Workers that cannot move wait for a job on an open, empty queue, or have left their loop. *)
Lemma workers_stuck s :
  pool_ok s → (∀ s', ¬ worker_step s s') →
  Forall (λ w, if closed (queue (pool s)) then w = Exited else w = Popping ∧ contents (queue (pool s)) = []) (workers s).
Proof.
  intros Hs Hstuck. apply Forall_lookup. intros i w Hi. destruct s as [p ws j a r t e f k]. simpl in *.
  destruct w as [|job|job|].
  - destruct (job_queue_pop (queue p)) as [[[job|] q']|] eqn:Hpop.
    + edestruct Hstuck. by eapply (step_pop p ws j a r t e f k i job q').
    + edestruct Hstuck. by eapply (step_exit p ws j a r t e f k i q').
    + pose proof (pop_refines (queue p) (pool_queue _ Hs)) as Hr. rewrite Hpop in Hr. unfold fifo_pop in Hr.
      simpl in Hr. destruct (contents (queue p)); [|done]. by destruct (closed (queue p)).
  - edestruct Hstuck. by eapply (step_execute p ws j a r t e f k i job).
  - edestruct Hstuck. by eapply (step_cleanup p ws j a r t e f k i job).
  - destruct (pool_exited _ Hs) as [Hcl _]; [by eapply list_elem_of_lookup_2|]. simpl in *. by rewrite Hcl.
Qed.

(** The joins return once all workers have left their loop. *)
Lemma exited_joined p ws : Forall (λ w, w = Exited) ws → is_Some (thread_pool_stop_end p ws).
Proof.
  intros Hw. unfold thread_pool_stop_end. rewrite (proj2 (forallb_forall _ _)); [done|].
  intros x Hx%list_elem_of_In. apply bool_decide_eq_true_2. rewrite Forall_forall in Hw. apply Hw.
  eapply elem_of_subseteq; [|done]. apply subseteq_take.
Qed.

(** A queue with room takes the job or refuses it. *)
Lemma submit_ready p job : queue_ok (queue p) → contents (queue p) = [] → thread_pool_submit p job ≠ None.
Proof.
  intros Hq Hemp. pose proof (contents_length _ Hq) as Hlen. pose proof (queue_capacity _ Hq) as Hcap.
  pose proof (queue_count _ Hq) as Hcount. rewrite Hemp in Hlen. simpl in Hlen.
  unfold thread_pool_submit, job_queue_push. destruct (started p); [|done]. simpl. destruct (execute job); [|done].
  destruct (Z.eqb_spec (count (queue p)) (capacity (queue p))); [lia|]. rewrite andb_false_r.
  by destruct (closed (queue p)).
Qed.

(** ** Properties *)

(** C29. Every accepted job runs exactly once, in order, shutdown loses none, and every job is
    cleaned up exactly once.  In every state that a pool created with a capacity of at most half
    the largest [int] can reach, through starts that
    succeed or fail, submissions, worker steps and stops: the jobs taken by workers followed by
    the jobs still queued are the accepted jobs in submission order; when the pool is not
    running but has had workers ([thread_pool_stop] has returned), the queue is empty and the
    executed jobs are the accepted ones, each once; and when the pool is not running, the cleanup
    calls made so far together with those of [thread_pool_destroy] are one for each job ever
    submitted, accepted or refused, that has a cleanup callback. *)
Theorem pool_runs_each_job_once w c p s :
  (2 * c <= INT_MAX)%Z → thread_pool_create w c = Ok p → rtc pool_step (pool_initial p) s →
  taken s ++ contents (queue (pool s)) = accepted s ∧
  (started (pool s) = false → workers s ≠ [] →
     contents (queue (pool s)) = [] ∧ executed s ≡ₚ accepted s) ∧
  (started (pool s) = false →
     cleanups s ++ thread_pool_destroy (pool s) ≡ₚ omap cleanup_call (accepted s ++ refused s)).
Proof.
  intros Hc Hp Hreach. pose proof (pool_capacity w c p s Hp Hreach) as Hcap.
  assert (Hc' : (c <= INT_MAX)%Z) by (unfold INT_MAX in *; lia).
  destruct (pool_reachable_ok _ s (created_pool_ok w c p Hc' Hp) Hreach) as [Hq Hf Hr Hran Hk He _ Hst].
  split; [done|]. split.
  - intros Hs Hne. rewrite Hs in Hst. destruct (all_exited _ Hst) as (Hr0 & _ & Hin).
    destruct (He (Hin Hne)) as [_ Hemp]. rewrite Hemp, app_nil_r in Hf. rewrite Hr0 in Hr. simpl in Hr.
    split; [done|]. by rewrite <- Hf, Hr.
  - intros Hs. rewrite Hs in Hst. destruct (all_exited _ Hst) as (Hr0 & Hran0 & _).
    rewrite Hr0 in Hr. rewrite Hran0 in Hran. simpl in *.
    unfold thread_pool_destroy. rewrite destroy_calls by (done || lia).
    rewrite Hk, <- Hf, <- Hran, <- Hr, !omap_app, <- !app_assoc. f_equiv. apply Permutation_app_comm.
Qed.

Definition sample_pool : ThreadPool := mkThreadPool 1 false (mkJobQueue 1 0 0 0 false [zero_job]).

(** Take one step of the pool. *)
Tactic Notation "pool_run" open_constr(rule) := eapply rtc_l; [eapply rule; reflexivity|]; simpl.
Tactic Notation "worker_run" open_constr(rule) := eapply rtc_l; [apply step_worker; eapply rule; reflexivity|]; simpl.

(** A run that accepts two jobs, refuses one after the stop, and ends with the pool stopped. *)
Lemma sample_run :
  ∃ s, rtc pool_step (pool_initial sample_pool) s ∧ workers s = [Exited] ∧ started (pool s) = false ∧
    accepted s = [job_a; job_b] ∧ refused s = [job_a].
Proof.
  eexists. split.
  { unfold pool_initial, sample_pool.
    pool_run (step_start sample_pool [] [] [] [] [] [] [] 1).
    pool_run (step_submit_ok _ _ _ _ _ _ _ _ _ job_a).
    worker_run (step_pop _ _ _ _ _ _ _ _ _ 0).
    pool_run (step_submit_ok _ _ _ _ _ _ _ _ _ job_b).
    pool_run step_stop_begin.
    pool_run (step_submit_refused _ _ _ _ _ _ _ _ _ job_a).
    worker_run (step_execute _ _ _ _ _ _ _ _ _ 0).
    worker_run (step_cleanup _ _ _ _ _ _ _ _ _ 0).
    worker_run (step_pop _ _ _ _ _ _ _ _ _ 0).
    worker_run (step_execute _ _ _ _ _ _ _ _ _ 0).
    worker_run (step_cleanup _ _ _ _ _ _ _ _ _ 0).
    worker_run (step_exit _ _ _ _ _ _ _ _ _ 0).
    pool_run step_stop_end. apply rtc_refl. }
  split_and!; reflexivity.
Qed.

Lemma pool_runs_each_job_once_witness :
  ∃ s, rtc pool_step (pool_initial sample_pool) s ∧ executed s ≡ₚ [job_a; job_b] ∧
    cleanups s ++ thread_pool_destroy (pool s) ≡ₚ omap cleanup_call [job_a; job_b; job_a].
Proof.
  destruct sample_run as (s & Hr & Hw & Hs & Ha & Hrf). exists s. split; [exact Hr|].
  pose proof (pool_runs_each_job_once 1 1 sample_pool s ltac:(done) eq_refl Hr) as (_ & H1 & H2).
  rewrite Ha, Hrf in H2. rewrite Ha in H1.
  split; [apply H1; [exact Hs|by rewrite Hw]|exact (H2 Hs)].
Defined.

(** The pool makes progress and stopping it ends.  Let the workers of a pool in any reachable
    state run, in any order, while nobody submits: they take exactly [work s] steps less what is
    left, so they cannot run for ever; and when no worker can move any more, the queue is empty
    and every submission goes through without waiting.  If the queue was closed, all workers have
    then left their loop, and the joins of [thread_pool_stop] return. *)
Theorem workers_drain_queue w c p s s' n :
  (c <= INT_MAX)%Z → thread_pool_create w c = Ok p → rtc pool_step (pool_initial p) s →
  nsteps worker_step n s s' →
  work s = (n + work s')%nat ∧
  ((∀ s'', ¬ worker_step s' s'') → workers s' ≠ [] →
     contents (queue (pool s')) = [] ∧ (∀ job, thread_pool_submit (pool s') job ≠ None) ∧
     (closed (queue (pool s')) = true →
        Forall (λ x, x = Exited) (workers s') ∧ is_Some (thread_pool_stop_end (pool s') (workers s')))).
Proof.
  intros Hc Hp Hreach Hrun.
  pose proof (pool_reachable_ok _ s (created_pool_ok w c p Hc Hp) Hreach) as Hs.
  destruct (worker_steps_work n s s' Hs Hrun) as [Hs' Hwork]. split; [done|]. intros Hstuck Hne.
  pose proof (workers_stuck s' Hs' Hstuck) as Hw.
  assert (Hemp : contents (queue (pool s')) = []).
  { destruct (workers s') as [|x ws] eqn:Hws; [done|]. apply Forall_cons in Hw as [Hx _].
    destruct (closed _) eqn:Hcl; [|by apply Hx]. subst x. apply (pool_exited _ Hs'). rewrite Hws. by left. }
  split; [done|]. split; [intros job; by apply submit_ready; [apply Hs'|]|]. intros Hcl. rewrite Hcl in Hw.
  split; [done|]. by apply exited_joined.
Qed.

(** A pool that was stopped with one job queued, and its worker after it has left the loop. *)
Definition closing_state : PoolState :=
  mkPoolState (mkThreadPool 1 true (mkJobQueue 1 1 0 0 true [job_a])) [Popping] true [job_a] [] [] [] [] [].
Definition drained_state : PoolState :=
  mkPoolState (mkThreadPool 1 true (mkJobQueue 1 0 0 0 true [zero_job])) [Exited] true
    [job_a] [] [job_a] [job_a] [job_a] [(2, 10)%nat].

Lemma closing_reachable : rtc pool_step (pool_initial sample_pool) closing_state.
Proof.
  unfold pool_initial, sample_pool.
  pool_run (step_start sample_pool [] [] [] [] [] [] [] 1).
  pool_run (step_submit_ok _ _ _ _ _ _ _ _ _ job_a).
  pool_run step_stop_begin. apply rtc_refl.
Qed.

Lemma closing_drains : nsteps worker_step 4 closing_state drained_state.
Proof.
  unfold closing_state.
  eapply nsteps_l; [eapply (step_pop _ _ _ _ _ _ _ _ _ 0); reflexivity|]. simpl.
  eapply nsteps_l; [eapply (step_execute _ _ _ _ _ _ _ _ _ 0); reflexivity|]. simpl.
  eapply nsteps_l; [eapply (step_cleanup _ _ _ _ _ _ _ _ _ 0); reflexivity|]. simpl.
  eapply nsteps_l; [eapply (step_exit _ _ _ _ _ _ _ _ _ 0); reflexivity|]. apply nsteps_O.
Qed.

Lemma drained_stuck s : ¬ worker_step drained_state s.
Proof. intros Hstep. inversion Hstep as [????????? i|????????? i|????????? i|????????? i]; subst; by destruct i. Qed.

Lemma workers_drain_queue_witness :
  work closing_state = 4%nat ∧ Forall (λ x, x = Exited) (workers drained_state) ∧
  is_Some (thread_pool_stop_end (pool drained_state) (workers drained_state)).
Proof.
  pose proof (workers_drain_queue 1 1 sample_pool closing_state drained_state 4 ltac:(done) eq_refl
    closing_reachable closing_drains) as [Hw H]. split; [exact Hw|].
  apply H; [apply drained_stuck|done|reflexivity].
Defined.
