(* ===== verification/HttpProtocol.v ===== *)
(** * [src/src/server/request/http_protocol.c]: HTTP requests and responses

    A request arrives as one C string.  Positions returned by [strstr] and [strchr] are offsets
    into it. *)

From stdpp Require Import base list strings sets.
From Stdlib Require Import Ascii.
From S2P Require Import Prelude CString Common Schema.

Definition CRLF : cstr := [CR; LF].
Definition METHOD_SIZE : nat := 16.
Definition PATH_SIZE : nat := 128.

(** [body] is [None] for a NULL pointer; [body_length] is the length of the body. *)
Record HttpRequest := mkHttpRequest { method : cstr; path : cstr; body : option cstr }.

(** The first of two positions, preferring the first when it is strictly before the second. *)
Definition earlier (a b : option nat) : bool :=
  match a, b with
  | Some i, Some j => Nat.ltb i j
  | Some _, None => true
  | None, _ => false
  end.

Definition find_request_line_end (raw : cstr) : option nat :=
  let crlf := strstr raw CRLF in
  let lf := strstr raw [LF] in
  if earlier crlf lf then crlf else lf.

Definition find_body_start (raw : cstr) : option cstr :=
  let crlf := strstr raw (CRLF ++ CRLF) in
  let lf := strstr raw [LF; LF] in
  if earlier crlf lf then (λ i, drop (i + 4) raw) <$> crlf
  else (λ i, drop (i + 2) raw) <$> lf.

Definition copy_request_token (dest_size : nat) (token label : cstr) : result SqlError cstr :=
  if Nat.eqb (length token) 0 then fail (label ++ «" must not be empty"»)
  else if Nat.leb dest_size (length token) then fail (label ++ «" is too long"»)
  else Ok token.

Definition is_blank_char (c : ascii) : bool := Ascii.eqb c " " || Ascii.eqb c TAB.
Definition not_blank_char (c : ascii) : bool := negb (is_blank_char c).

Definition http_parse_request (raw : cstr) : result SqlError HttpRequest :=
  if Ascii.eqb (peek raw) NUL then fail «"raw HTTP request must not be empty"»
  else
    match find_request_line_end raw with
    | None => fail «"HTTP request line must end with newline"»
    | Some line_end =>
        let request_line := take line_end raw in
        m ← copy_request_token METHOD_SIZE (take_while not_blank_char request_line) «"HTTP method"»;
        let rest := drop_while is_blank_char (drop_while not_blank_char request_line) in
        p ← copy_request_token PATH_SIZE (take_while not_blank_char rest) «"HTTP path"»;
        let b := match find_body_start raw with
                 | Some text => if Ascii.eqb (peek text) NUL then None else Some text
                 | None => None
                 end in
        Ok (mkHttpRequest m p b)
    end.

(** ** Responses *)

Record HttpResponse := mkHttpResponse {
  status_code : Z;
  content_type : option cstr;
  response_body : option cstr;
  body_length : N
}.

Definition http_reason_phrase (status : Z) : cstr :=
  if (status =? 200)%Z then «"OK"»
  else if (status =? 400)%Z then «"Bad Request"»
  else if (status =? 404)%Z then «"Not Found"»
  else if (status =? 405)%Z then «"Method Not Allowed"»
  else if (status =? 500)%Z then «"Internal Server Error"»
  else if (status =? 503)%Z then «"Service Unavailable"»
  else «"Unknown"».

(** The formatted header block. *)
Definition response_header (status : Z) (ctype : cstr) (len : N) : cstr :=
  «"HTTP/1.1 "» ++ show_int status ++ «" "» ++ http_reason_phrase status ++ CRLF ++
  «"Content-Type: "» ++ ctype ++ CRLF ++
  «"Content-Length: "» ++ show_N len ++ CRLF ++
  «"Connection: close"» ++ CRLF ++ CRLF.

(** A body shorter than [body_length] would be read past its end; the responses the handler
    builds have the two equal. *)
Definition http_serialize_response (r : HttpResponse) : result SqlError cstr :=
  match response_body r, body_length r with
  | None, Npos _ => fail «"HTTP response body pointer/length are inconsistent"»
  | b, len =>
      let ctype := default «"text/plain; charset=utf-8"» (content_type r) in
      let text := default [] b in
      let n := match b, len with Some s, N0 => N.of_nat (length s) | _, _ => len end in
      Ok (response_header (status_code r) ctype n ++ take (N.to_nat n) text)
  end.

(** ** Specification *)

(** Text without line ends. *)
Definition one_line (s : cstr) : Prop := s ≠ [] ∧ CR ∉ s ∧ LF ∉ s.

(** Header lines, the empty line and the body, after the request line. *)
Fixpoint header_block (headers : list cstr) (b : cstr) : cstr :=
  match headers with
  | [] => CR :: LF :: CR :: LF :: b
  | h :: headers' => CR :: LF :: h ++ header_block headers' b
  end.

(** A request as clients send it. *)
Definition print_request (m p version : cstr) (headers : list cstr) (b : cstr) : cstr :=
  (m ++ " "%char :: p ++ " "%char :: version) ++ header_block headers b.

Definition token (n : nat) (t : cstr) : Prop :=
  t ≠ [] ∧ (length t < n)%nat ∧ Forall (λ c, not_blank_char c = true ∧ c ≠ CR ∧ c ≠ LF ∧ c ≠ NUL) t.

(** ** Lemmas: searching *)

Lemma strstr_miss c s pat : starts_with pat (c :: s) = false → strstr (c :: s) pat = S <$> strstr s pat.
Proof. intros Hs. cbn [strstr]. by rewrite Hs. Qed.

Lemma strstr_hit s pat : starts_with pat s = true → strstr s pat = Some 0%nat.
Proof. intros Hs. destruct s; cbn [strstr]; by rewrite Hs. Qed.

Lemma starts_with_app pat s : starts_with pat (pat ++ s) = true.
Proof. induction pat as [|p pat IH]; simpl; [done|]. by rewrite (proj2 (ascii_eqb_eq p p)), IH. Qed.

(** Text without the first character of the pattern is skipped. *)
Lemma strstr_skip p pat s t :
  p ∉ s → strstr (s ++ t) (p :: pat) = (λ i, (length s + i)%nat) <$> strstr t (p :: pat).
Proof.
  induction s as [|c s IH]; intros Hs.
  - simpl. by destruct (strstr t (p :: pat)).
  - cbn [app]. rewrite strstr_miss.
    + rewrite IH by set_solver. by destruct (strstr t (p :: pat)).
    + cbn [starts_with]. by rewrite (proj2 (ascii_eqb_neq p c)) by set_solver.
Qed.

Lemma starts_with_mismatch p q pat c s :
  c ≠ q → starts_with (p :: q :: pat) (p :: c :: s) = false.
Proof.
  intros Hc. cbn [starts_with]. rewrite (proj2 (ascii_eqb_eq p p)) by done.
  by rewrite (proj2 (ascii_eqb_neq q c)) by congruence.
Qed.

Definition header_length (headers : list cstr) : nat := sum_list_with (λ h, 2 + length h) headers.

(** The first empty line of a block of lines ends it: in CRLF form it is found at the end of
    the headers, and a bare double newline can only occur after it. *)
Lemma find_empty_line l headers b :
  CR ∉ l → Forall one_line headers →
  strstr (l ++ header_block headers b) (CRLF ++ CRLF) = Some (length l + header_length headers)%nat.
Proof.
  intros Hl Hh. revert l Hl. change (CRLF ++ CRLF) with [CR; LF; CR; LF].
  induction Hh as [|h headers [Hne [Hcr Hlf]] _ IH]; intros l Hl; rewrite strstr_skip by done; cbn [header_block].
  - by rewrite strstr_hit by done.
  - destruct h as [|c h]; [done|]. rewrite strstr_miss.
    2:{ cbn [app starts_with]. rewrite (proj2 (ascii_eqb_neq CR c)) by set_solver. done. }
    rewrite strstr_miss by done. rewrite IH by done. cbn. by f_equal.
Qed.

Lemma find_double_newline l headers b :
  LF ∉ l → Forall one_line headers →
  ∀ j, strstr (l ++ header_block headers b) [LF; LF] = Some j → (length l + header_length headers < j)%nat.
Proof.
  intros Hl Hh. revert l Hl. induction Hh as [|h headers [Hne [Hcr Hlf]] _ IH]; intros l Hl j;
    rewrite strstr_skip by done; cbn [header_block]; rewrite strstr_miss by done.
  - rewrite strstr_miss by done. rewrite strstr_miss by done.
    destruct (strstr (LF :: b) [LF; LF]); [|done]. unfold header_length. simpl. intros [= <-]. lia.
  - destruct h as [|c h]; [done|]. rewrite strstr_miss.
    2:{ cbn [app]. apply starts_with_mismatch. set_solver. }
    destruct (strstr ((c :: h) ++ header_block headers b) [LF; LF]) as [k|] eqn:Hk; [|done].
    apply IH in Hk; [|done]. unfold header_length in *. simpl in *. intros [= <-]. lia.
Qed.

Lemma drop_header_block l headers b : drop (length l + header_length headers + 4) (l ++ header_block headers b) = b.
Proof.
  revert l. induction headers as [|h headers IH]; intros l.
  - rewrite Nat.add_0_r, drop_app_add. done.
  - cbn [header_block].
    replace (l ++ CR :: LF :: h ++ header_block headers b) with ((l ++ CR :: LF :: h) ++ header_block headers b)
      by (by rewrite <- app_assoc).
    rewrite <- (IH (l ++ CR :: LF :: h)) at 2. f_equal. rewrite length_app. unfold header_length. simpl. lia.
Qed.

Lemma find_body_start_block l headers b :
  CR ∉ l → LF ∉ l → Forall one_line headers → find_body_start (l ++ header_block headers b) = Some b.
Proof.
  intros Hcr Hlf Hh. unfold find_body_start. rewrite find_empty_line by done.
  pose proof (find_double_newline l headers b Hlf Hh) as Hj.
  replace (earlier _ _) with true.
  - cbn. by rewrite drop_header_block.
  - symmetry. unfold earlier. destruct (strstr _ [LF; LF]) as [j|]; [|done]. apply Nat.ltb_lt. by apply Hj.
Qed.

Lemma find_line_end_block l headers b :
  CR ∉ l → LF ∉ l → find_request_line_end (l ++ header_block headers b) = Some (length l).
Proof.
  intros Hcr Hlf. unfold find_request_line_end.
  assert (Hb : ∃ t, header_block headers b = CR :: LF :: t) by (destruct headers; eexists; reflexivity).
  destruct Hb as [t ->]. change CRLF with [CR; LF]. rewrite !strstr_skip by done. rewrite strstr_hit by done.
  rewrite strstr_miss by done. rewrite strstr_hit by done.
  cbn [fmap option_fmap option_map earlier].
  destruct (Nat.ltb_spec (length l + 0) (length l + 1)); [f_equal|]; lia.
Qed.

Lemma blank_span t rest :
  Forall (λ c, not_blank_char c = true) t → not_blank_char (peek rest) = false →
  take_while not_blank_char (t ++ rest) = t ∧ drop_while not_blank_char (t ++ rest) = rest.
Proof.
  intros Ht Hr. rewrite take_while_app, drop_while_app by done. destruct rest as [|c rest]; [done|].
  simpl in *. by rewrite Hr, app_nil_r.
Qed.

Lemma copy_token_ok n t label : token n t → copy_request_token n t label = Ok t.
Proof.
  intros (Hne & Hlen & _). unfold copy_request_token. destruct t as [|c t]; [done|].
  by rewrite (proj2 (Nat.leb_gt n (length (c :: t)))).
Qed.

Lemma token_chars n t c : token n t → c ∈ t → not_blank_char c = true ∧ c ≠ CR ∧ c ≠ LF ∧ c ≠ NUL.
Proof. intros (_ & _ & Ht) Hc. rewrite Forall_forall in Ht. by apply Ht. Qed.

Lemma parse_request_line m p version :
  token METHOD_SIZE m → token PATH_SIZE p →
  let line := m ++ " "%char :: p ++ " "%char :: version in
  take_while not_blank_char line = m ∧
  take_while not_blank_char (drop_while is_blank_char (drop_while not_blank_char line)) = p.
Proof.
  intros Hm Hp line. assert (Hmc : Forall (λ c, not_blank_char c = true) m).
  { apply Forall_forall. intros c Hc. by eapply token_chars in Hc as [? _]. }
  assert (Hpc : Forall (λ c, not_blank_char c = true) p).
  { apply Forall_forall. intros c Hc. by eapply token_chars in Hc as [? _]. }
  destruct (blank_span m (" "%char :: p ++ " "%char :: version) Hmc eq_refl) as [Ht Hd].
  unfold line. split; [done|]. rewrite Hd. cbn [drop_while]. change (is_blank_char " ") with true. cbn iota.
  destruct Hp as (Hne & _). destruct p as [|c p]; [done|]. apply Forall_cons in Hpc as Hpc'. destruct Hpc' as [Hc _].
  cbn [app]. rewrite drop_while_stop by (by apply negb_true_iff).
  by destruct (blank_span (c :: p) (" "%char :: version) Hpc eq_refl) as [Ht' _].
Qed.

Lemma request_line_clean n1 n2 m p version c :
  token n1 m → token n2 p → c ∉ version → c = CR ∨ c = LF → c ∉ m ++ " "%char :: p ++ " "%char :: version.
Proof.
  intros Hm Hp Hv Hc. rewrite !elem_of_app, !elem_of_cons, elem_of_app, elem_of_cons.
  intros [Hx|[Hx|[Hx|[Hx|Hx]]]]; try done.
  - eapply token_chars in Hx as (_ & ? & ? & _); [|done]. naive_solver.
  - by destruct Hc as [-> | ->].
  - eapply token_chars in Hx as (_ & ? & ? & _); [|done]. naive_solver.
  - by destruct Hc as [-> | ->].
Qed.

(** ** Lemmas: responses *)

Lemma serialize_body status ctype b :
  http_serialize_response (mkHttpResponse status (Some ctype) (Some b) (N.of_nat (length b))) =
    Ok (response_header status ctype (N.of_nat (length b)) ++ b).
Proof.
  unfold http_serialize_response. cbn [response_body body_length status_code content_type default].
  destruct b as [|c b]; [done|]. cbn [length Nat.add]. destruct (N.of_nat (S (length b))) eqn:E; [lia|].
  rewrite <- E. do 2 f_equal. apply take_ge. cbn [length]. lia.
Qed.

Lemma digits_clean ds c : Forall (λ d, isdigit d = true) ds → isdigit c = false → c ∉ ds.
Proof. rewrite Forall_forall. intros Hd Hc Hin. apply Hd in Hin. congruence. Qed.

Lemma show_int_clean z c : isdigit c = false → c ≠ "-"%char → c ∉ show_int z.
Proof.
  intros Hc Hm. rewrite show_int_form, not_elem_of_app. split.
  - destruct (z <? 0)%Z; [|set_solver]. by rewrite list_elem_of_singleton.
  - apply digits_clean; [apply show_N_isdigit|done].
Qed.

Lemma status_line_clean status c :
  c ∈ [CR; LF; NUL] → c ∉ «"HTTP/1.1 "» ++ show_int status ++ «" "» ++ http_reason_phrase status.
Proof.
  assert (Hlit : ∀ s : cstr, forallb (λ x, bool_decide (x ∉ s)) [CR; LF; NUL] = true → c ∈ [CR; LF; NUL] → c ∉ s).
  { intros s Hs Hc. rewrite forallb_forall in Hs. apply list_elem_of_In, Hs in Hc. by apply bool_decide_eq_true in Hc. }
  intros Hc. rewrite !not_elem_of_app. split_and!; [by apply Hlit| |by apply Hlit|].
  - apply show_int_clean; revert Hc; rewrite !elem_of_cons, elem_of_nil; intros [-> |[-> |[-> |[]]]]; done.
  - unfold http_reason_phrase. repeat case_match; by apply Hlit.
Qed.

Lemma header_line_clean (label v : cstr) :
  one_line label → CR ∉ v → LF ∉ v → one_line (label ++ v).
Proof.
  intros (Hne & Hcr & Hlf) Hvc Hvl. split_and!; [by destruct label|by rewrite not_elem_of_app..].
Qed.

Lemma one_line_dec s : bool_decide (s ≠ [] ∧ CR ∉ s ∧ LF ∉ s) = true → one_line s.
Proof. by rewrite bool_decide_eq_true. Qed.

Lemma parse_printed_request m p version headers b :
  token METHOD_SIZE m → token PATH_SIZE p → CR ∉ version → LF ∉ version → Forall one_line headers → NUL ∉ b →
  http_parse_request (print_request m p version headers b) =
    Ok (mkHttpRequest m p (match b with [] => None | _ => Some b end)).
Proof.
  intros Hm Hp Hcr Hlf Hh Hb. unfold http_parse_request, print_request.
  destruct (parse_request_line m p version Hm Hp) as [Hpm Hpp].
  pose proof (request_line_clean _ _ m p version CR Hm Hp Hcr (or_introl eq_refl)) as Hlcr.
  pose proof (request_line_clean _ _ m p version LF Hm Hp Hlf (or_intror eq_refl)) as Hllf.
  set (line := m ++ " "%char :: p ++ " "%char :: version) in *.
  assert (Hnul : Ascii.eqb (peek (line ++ header_block headers b)) NUL = false).
  { apply ascii_eqb_neq. unfold line. destruct m as [|c m]; [by destruct Hm|]. simpl.
    apply (token_chars METHOD_SIZE (c :: m)); [done|by left]. }
  rewrite Hnul, find_line_end_block by done. rewrite take_app_length, Hpm, Hpp.
  rewrite !copy_token_ok by done. cbn [mbind result_bind]. rewrite find_body_start_block by done.
  destruct b as [|c b]; [done|]. cbn [peek]. by rewrite (proj2 (ascii_eqb_neq c NUL)) by set_solver.
Qed.

(** The serialized response of a body, as lines. *)
Definition response_lines (ctype b : cstr) : list cstr :=
  [«"Content-Type: "» ++ ctype; «"Content-Length: "» ++ show_N (N.of_nat (length b)); «"Connection: close"»].

Lemma response_lines_ok ctype b : CR ∉ ctype → LF ∉ ctype → Forall one_line (response_lines ctype b).
Proof.
  intros Hcr Hlf. repeat apply Forall_cons_2; [| | |done].
  - by apply header_line_clean; [apply one_line_dec|..].
  - apply header_line_clean; [by apply one_line_dec|apply digits_clean; [apply show_N_isdigit|done]..].
  - by apply one_line_dec.
Qed.

Lemma serialize_lines status ctype b :
  CR ∉ ctype → LF ∉ ctype →
  let t := («"HTTP/1.1 "» ++ show_int status ++ «" "» ++ http_reason_phrase status) ++
           header_block (response_lines ctype b) b in
  http_serialize_response (mkHttpResponse status (Some ctype) (Some b) (N.of_nat (length b))) = Ok t ∧
  find_body_start t = Some b.
Proof.
  intros Hcr Hlf t. split.
  - rewrite serialize_body. unfold t, response_header, response_lines. cbn [header_block]. change CRLF with [CR; LF].
    rewrite <- ?app_assoc. cbn [app]. rewrite <- ?app_assoc. reflexivity.
  - apply find_body_start_block; [apply status_line_clean; by left|apply status_line_clean; right; by left|].
    by apply response_lines_ok.
Qed.

Lemma header_block_clean c hs b :
  c ≠ CR → c ≠ LF → Forall (λ h, c ∉ h) hs → c ∉ b → c ∉ header_block hs b.
Proof.
  intros Hcr Hlf Hhs Hb. induction Hhs as [|h hs Hh _ IH]; cbn [header_block]; [set_solver|].
  rewrite !not_elem_of_cons, not_elem_of_app. done.
Qed.

Lemma atol_show_N n : (Z.of_N n <= LONG_MAX)%Z → atol (show_N n) = Z.of_N n.
Proof.
  intros Hn. pose proof (strtol_digits false (show_N n) []) as Hs. cbn [app] in Hs. rewrite app_nil_r in Hs.
  unfold atol. rewrite Hs by (apply show_N_not_nil || apply show_N_isdigit || done). cbn [fst].
  rewrite show_N_value, clamp_long_id; [done|]. unfold LONG_MIN. lia.
Qed.

(** ** Properties *)

(** Requests round-trip: whatever well-formed request a client prints, with any number of
    headers, is parsed to exactly its method, its path and its body.  The body is taken as it
    is, even when it contains empty lines of its own. *)
Theorem http_parse_request_roundtrip m p version headers b :
  token METHOD_SIZE m → token PATH_SIZE p → CR ∉ version → LF ∉ version → Forall one_line headers → NUL ∉ b →
  http_parse_request (print_request m p version headers b) =
    Ok (mkHttpRequest m p (match b with [] => None | _ => Some b end)).
Proof. apply parse_printed_request. Qed.

Lemma token_dec n t :
  bool_decide (t ≠ [] ∧ (length t < n)%nat ∧ Forall (λ c, not_blank_char c = true ∧ c ≠ CR ∧ c ≠ LF ∧ c ≠ NUL) t) = true →
  token n t.
Proof. by rewrite bool_decide_eq_true. Qed.

Lemma http_parse_request_roundtrip_witness :
  http_parse_request (print_request «"POST"» «"/sql"» «"HTTP/1.1"» [«"Host: x"»; «"Content-Length: 9"»]
    (LF :: LF :: «"SELECT *"»)) = Ok (mkHttpRequest «"POST"» «"/sql"» (Some (LF :: LF :: «"SELECT *"»))).
Proof.
  apply (http_parse_request_roundtrip «"POST"» «"/sql"» «"HTTP/1.1"» _ (LF :: LF :: «"SELECT *"»)).
  - apply token_dec. vm_compute. reflexivity.
  - apply token_dec. vm_compute. reflexivity.
  - apply (bool_decide_unpack _). vm_compute. reflexivity.
  - apply (bool_decide_unpack _). vm_compute. reflexivity.
  - repeat constructor; try done; (apply (bool_decide_unpack _); vm_compute; reflexivity).
  - apply (bool_decide_unpack _). vm_compute. reflexivity.
Defined.

(** Responses are framed correctly: the serialized response of a body consists of the
    status line and header lines, the Content-Length line states exactly the body's length
    (read back with [strtol] for bodies below the [long] range), the first empty line is the
    end of the headers, and what follows it is exactly the body. *)
Theorem http_serialize_framing status ctype b :
  CR ∉ ctype → LF ∉ ctype → (Z.of_nat (length b) <= LONG_MAX)%Z →
  ∃ t digits, http_serialize_response (mkHttpResponse status (Some ctype) (Some b) (N.of_nat (length b))) = Ok t ∧
    t = («"HTTP/1.1 "» ++ show_int status ++ «" "» ++ http_reason_phrase status) ++
        header_block [«"Content-Type: "» ++ ctype; «"Content-Length: "» ++ digits; «"Connection: close"»] b ∧
    atol digits = Z.of_nat (length b) ∧ find_body_start t = Some b.
Proof.
  intros Hcr Hlf Hlen. destruct (serialize_lines status ctype b Hcr Hlf) as [Hser Hbody].
  eexists _, (show_N (N.of_nat (length b))). split; [exact Hser|]. split; [reflexivity|]. split; [|exact Hbody].
  rewrite atol_show_N; lia.
Qed.

Lemma http_serialize_framing_witness :
  ∃ t digits, http_serialize_response (mkHttpResponse 200 (Some «"application/json"»)
                (Some (LF :: LF :: «"{}"»)) 4) = Ok t ∧
    t = («"HTTP/1.1 "» ++ show_int 200 ++ «" "» ++ http_reason_phrase 200) ++
        header_block [«"Content-Type: "» ++ «"application/json"»; «"Content-Length: "» ++ digits; «"Connection: close"»]
          (LF :: LF :: «"{}"») ∧
    atol digits = 4%Z ∧ find_body_start t = Some (LF :: LF :: «"{}"»).
Proof.
  apply (http_serialize_framing 200 «"application/json"» (LF :: LF :: «"{}"»));
    [apply (bool_decide_unpack _); vm_compute; reflexivity..|done].
Defined.
