(* ===== verification/RequestHandler.v ===== *)
(** * [src/src/server/request/request_handler.c]: from an HTTP request to a response

    [request_handler_handle] validates the request, classifies the SQL, runs it under the
    matching lock and turns the result into a JSON response.  The result says which lock the
    execution ran under; that the lock makes the section exclusive is the subject of
    [DbGuard]. *)

From stdpp Require Import base list strings sets gmap.
From Stdlib Require Import Ascii.
From S2P Require Import Prelude CString Common Parser Index BPTree Schema Json Storage DbContext Executor SqlService HttpProtocol.

Definition is_blank_text (text : cstr) : bool := forallb isspace text.

Definition JSON_CONTENT_TYPE : cstr := «"application/json; charset=utf-8"».

Definition set_json_response (status : Z) (b : cstr) : HttpResponse :=
  mkHttpResponse status (Some JSON_CONTENT_TYPE) (Some b) (N.of_nat (length b)).

Definition handler_error_payload (message : cstr) : result SqlError cstr :=
  quoted ← sql_json_quote message;
  Ok (dq «"{'ok':false,'error':{'message':"» ++ quoted ++ «"}}"»).

Definition set_json_error_response (status : Z) (message : cstr) : result SqlError HttpResponse :=
  p ← handler_error_payload message;
  Ok (set_json_response status p).

(** The lock the SQL ran under. *)
Inductive lock_mode := Unlocked | ReadLocked | WriteLocked.

Section RequestHandler.
Context `{RowIndex Idx}.

(** The body of the guarded section; its first part is what [db_guard_execute_read] and
    [db_guard_execute_write] return. *)
Definition execute_sql_work (w : World) (ctx : DbContext Idx) (sql : cstr)
    : bool * SqlServiceResult * DbContext Idx * World :=
  let '(res, ctx', w') := sql_service_execute w ctx sql in
  (match payload res with Some _ => true | None => false end, res, ctx', w').

(** What the handler makes of the result of the guarded section. *)
Definition run_sql (w : World) (ctx : DbContext Idx) (sql : cstr) (mode : lock_mode)
    : result SqlError HttpResponse * lock_mode * DbContext Idx * World :=
  let '(executed, res, ctx', w') := execute_sql_work w ctx sql in
  match payload res with
  | Some p => (Ok (set_json_response (if ok res then 200 else 400) p), mode, ctx', w')
  | None =>
      (set_json_error_response 500
         (if executed then «"SQL request completed without a response payload."»
          else match out_message res with [] => «"Failed to execute SQL request."» | m => m end), mode, ctx', w')
  end.

Definition request_handler_handle (w : World) (ctx : DbContext Idx) (r : HttpRequest)
    : result SqlError HttpResponse * lock_mode * DbContext Idx * World :=
  if negb (bool_decide (method r = «"POST"»)) then
    (set_json_error_response 405 «"Only POST requests are supported."», Unlocked, ctx, w)
  else if negb (Ascii.eqb (peek (path r)) "/") then
    (set_json_error_response 400 «"Request path must start with '/'."», Unlocked, ctx, w)
  else
    match body r with
    | None => (set_json_error_response 400 «"Request body must contain SQL text."», Unlocked, ctx, w)
    | Some sql =>
        if Nat.eqb (length sql) 0 || is_blank_text sql then
          (set_json_error_response 400 «"Request body must contain SQL text."», Unlocked, ctx, w)
        else
          match sql_service_classify_operation sql with
          | Err e => (set_json_error_response 400 (message e), Unlocked, ctx, w)
          | Ok SQL_OPERATION_READ => run_sql w ctx sql ReadLocked
          | Ok SQL_OPERATION_WRITE => run_sql w ctx sql WriteLocked
          | Ok SQL_OPERATION_UNKNOWN =>
              (set_json_error_response 400 «"Unsupported SQL operation."», Unlocked, ctx, w)
          end
    end.

End RequestHandler.

(** ** Lemmas *)

Lemma error_response_status status m r : set_json_error_response status m = Ok r → status_code r = status.
Proof. unfold set_json_error_response. destruct (handler_error_payload m); simpl; [|done]. by intros [= <-]. Qed.

(** A request refused before any SQL runs. *)
Lemma rejected {A} status m (mode : lock_mode) (ctx ctx' : A) (w w' : World) resp mode' (P : Prop) :
  (set_json_error_response status m, mode, ctx, w) = (Ok resp, mode', ctx', w') → status ≠ 200%Z →
  (status_code resp = 200%Z → P) ∧ (status_code resp ≠ 200%Z → w' = w).
Proof.
  intros Heq Hst. assert (Hr : set_json_error_response status m = Ok resp) by congruence.
  apply error_response_status in Hr. split; [congruence|]. intros _. congruence.
Qed.

Lemma handler_error_payload_json m p :
  handler_error_payload m = Ok p → p = print_json (error_json m).
Proof.
  unfold handler_error_payload. destruct (sql_json_quote m) as [q|] eqn:Hq; cbn [mbind result_bind]; [|done].
  apply sql_json_quote_Ok in Hq as ->. fold (json_quoted m).
  intros <-%Ok_inj. unfold error_json. flatten. reflexivity.
Qed.

Section Effects.
Context `{RowIndex Idx}.

(** A failed execution changes no file, if the result can be read back. *)
Lemma service_failure_keeps_files w (ctx : DbContext Idx) sql res ctx' w' :
  ctx_ok ctx → reads_back (temporary w) = true →
  (∀ q, parse_sql_text sql = Ok q → single_columns_line w (db_root ctx) (table_name q) ∧
                                    (N.of_nat (length (table_name q)) <= 4096)%N) →
  sql_service_execute w ctx sql = (res, ctx', w') → ok res = false → w' = w.
Proof.
  intros Hctx Hback Hq. unfold sql_service_execute. destruct (parse_sql_text sql) as [q|] eqn:Hp; [|by intros [= _ _ <-]].
  destruct (Hq q eq_refl) as [Hs Hn]. destruct (query_type q) eqn:Hty.
  - destruct (tmpfile_ok _); cbn [negb]; [|by intros [= _ _ <-]]. unfold execute_query. rewrite Hty. destruct (execute_insert w ctx q) as [[r ctx1] w1] eqn:Hins.
    assert (Hsch : ∀ t : TableState Idx, table_state_load w (db_root ctx) (table_name q) = Ok t → schema_ok (schema t)).
    { intros t (Hl & _)%table_state_load_inv. by eapply load_schema_schema_ok. }
    destruct (execute_insert_cases w ctx q r ctx1 w1 Hsch Hctx Hins)
      as (_ & _ & [(e & -> & _ & ->)|(i & t & fields & _ & _ & _ & _ & _ & -> & t' & _ & _ & Ha)]); [by intros [= _ _ <-]|].
    apply append_csv_row_Ok in Ha as [_ Hw1]. rewrite read_stream_works by (by rewrite Hw1).
    pose proof (build_insert_payload_total q («"INSERT 1"» ++ [LF]) Hn) as Ht.
    destruct (build_insert_payload q («"INSERT 1"» ++ [LF])) as [p|e].
    + by intros [= <- _ _].
    + assert (false = true); [|done]. apply Ht. apply Nat.ltb_lt. vm_compute. reflexivity.
  - destruct (build_select_payload w ctx q) as [[p|e] ctx1]; by intros [= _ _ <-].
Qed.

(** The response of the guarded section. *)
Lemma run_sql_status w (ctx : DbContext Idx) sql :
  ctx_ok ctx → reads_back (temporary w) = true →
  (∀ q, parse_sql_text sql = Ok q → single_columns_line w (db_root ctx) (table_name q) ∧
                                    (N.of_nat (length (table_name q)) <= 4096)%N) →
  ∃ res ctx1 w1, sql_service_execute w ctx sql = (res, ctx1, w1) ∧
    ∀ m resp mode ctx' w', run_sql w ctx sql m = (Ok resp, mode, ctx', w') →
      mode = m ∧ ctx' = ctx1 ∧ w' = w1 ∧
      (status_code resp = 200%Z → ∃ q p, parse_sql_text sql = Ok q ∧ ok res = true ∧ payload res = Some p ∧
         resp = set_json_response 200 p) ∧
      (status_code resp ≠ 200%Z → w' = w).
Proof.
  intros Hctx Hback Hq. destruct (sql_service_execute w ctx sql) as [[res ctx1] w1] eqn:He.
  exists res, ctx1, w1. split; [done|]. intros m resp mode ctx' w'. unfold run_sql, execute_sql_work. rewrite He.
  pose proof (service_failure_keeps_files w ctx sql res ctx1 w1 Hctx Hback Hq He) as Hfail.
  assert (Hparse : ok res = true → ∃ q, parse_sql_text sql = Ok q).
  { unfold sql_service_execute in He. destruct (parse_sql_text sql) as [q|]; [by exists q|].
    injection He as <- _ _. by rewrite error_result_ok. }
  assert (Hpay : payload res = None → ok res = false).
  { unfold sql_service_execute in He. intros Hn. destruct (ok res) eqn:Hok; [|done].
    repeat case_match; simplify_eq; try done; by rewrite error_result_ok in Hok. }
  destruct (payload res) as [p|] eqn:Hp.
  - intros [= <- <- <- <-]. split_and!; [done..| |].
    + destruct (ok res) eqn:Hok; [|done]. intros _. destruct (Hparse eq_refl) as [q ?]. by exists q, p.
    + destruct (ok res); [done|]. intros _. by apply Hfail.
  - intros [= Hr <- <- <-]. apply error_response_status in Hr. split_and!; [done..|lia|].
    intros _. by apply Hfail, Hpay.
Qed.

End Effects.

Lemma handle_db_ok `{RowIndex Idx} w (ctx : DbContext Idx) r resp mode ctx' w' :
  db_ok w ctx → request_handler_handle w ctx r = (resp, mode, ctx', w') →
  db_ok w' ctx' ∧ db_root ctx' = db_root ctx ∧ files_grow w w'.
Proof.
  intros Hok.
  assert (Hrun : ∀ sql m, run_sql w ctx sql m = (resp, mode, ctx', w') →
                   db_ok w' ctx' ∧ db_root ctx' = db_root ctx ∧ files_grow w w').
  { intros sql m. unfold run_sql, execute_sql_work. destruct (sql_service_execute w ctx sql) as [[res ctx1] w1] eqn:He.
    pose proof (service_db_ok w ctx sql res ctx1 w1 Hok He). destruct (payload res); by intros [= _ _ <- <-]. }
  unfold request_handler_handle. case_match; [by intros [= _ _ <- <-]|]. case_match; [by intros [= _ _ <- <-]|].
  destruct (body r) as [sql|]; [|by intros [= _ _ <- <-]]. case_match; [by intros [= _ _ <- <-]|].
  destruct (sql_service_classify_operation sql) as [[]|]; [by intros [= _ _ <- <-]|apply Hrun..|by intros [= _ _ <- <-]].
Qed.

(** ** Properties *)

(** What a response status tells the client.  Status 200 is given only to a POST whose body
    is a supported SQL statement that was executed successfully, an INSERT under the write lock
    and a SELECT under the read lock, and its body is the payload of that execution.  Any
    other status means that no file changed.  (The table named must have a schema file with at
    most one [columns] line and a name of at most 4096 bytes, and the temporary file that carries
    the result must be readable.) *)
Theorem request_status_sound `{RowIndex Idx} w (ctx : DbContext Idx) r resp mode ctx' w' :
  ctx_ok ctx → reads_back (temporary w) = true →
  (∀ sql q, body r = Some sql → parse_sql_text sql = Ok q →
     single_columns_line w (db_root ctx) (table_name q) ∧ (N.of_nat (length (table_name q)) <= 4096)%N) →
  request_handler_handle w ctx r = (Ok resp, mode, ctx', w') →
  (status_code resp = 200%Z →
     method r = «"POST"» ∧
     ∃ sql q res p, body r = Some sql ∧ parse_sql_text sql = Ok q ∧
       sql_service_execute w ctx sql = (res, ctx', w') ∧ ok res = true ∧ payload res = Some p ∧
       resp = set_json_response 200 p ∧
       mode = match query_type q with QUERY_INSERT => WriteLocked | QUERY_SELECT => ReadLocked end) ∧
  (status_code resp ≠ 200%Z → w' = w).
Proof.
  intros Hctx Hback Hq. unfold request_handler_handle.
  case_bool_decide as Hm; cbn [negb]; [|intros Hr; by apply (rejected _ _ _ _ _ _ _ _ _ _ Hr)].
  destruct (Ascii.eqb (peek (path r)) "/"); cbn [negb]; [|intros Hr; by apply (rejected _ _ _ _ _ _ _ _ _ _ Hr)].
  destruct (body r) as [sql|]; [|intros Hr; by apply (rejected _ _ _ _ _ _ _ _ _ _ Hr)].
  destruct (_ || _); [intros Hr; by apply (rejected _ _ _ _ _ _ _ _ _ _ Hr)|].
  destruct (run_sql_status w ctx sql) as (res & ctx1 & w1 & Hexec & Hrun); [done|done|by intros; apply (Hq sql)|].
  destruct (sql_service_classify_operation sql) as [[]|e] eqn:Hcl;
    [intros Hr; by apply (rejected _ _ _ _ _ _ _ _ _ _ Hr)| | |
     intros Hr; by apply (rejected _ _ _ _ _ _ _ _ _ _ Hr)].
  - intros Hh. destruct (Hrun ReadLocked resp mode ctx' w' Hh) as (-> & -> & -> & H200 & Hno). split; [|done].
    intros Hst. destruct (H200 Hst) as (q & p & Hp & ? & ? & ?). split; [done|].
    pose proof (classify_statement sql q (parse_sql_text_sound sql q Hp)) as Hc. rewrite Hcl in Hc.
    exists sql, q, res, p. split_and!; try done. revert Hc. by destruct (query_type q).
  - intros Hh. destruct (Hrun WriteLocked resp mode ctx' w' Hh) as (-> & -> & -> & H200 & Hno). split; [|done].
    intros Hst. destruct (H200 Hst) as (q & p & Hp & ? & ? & ?). split; [done|].
    pose proof (classify_statement sql q (parse_sql_text_sound sql q Hp)) as Hc. rewrite Hcl in Hc.
    exists sql, q, res, p. split_and!; try done. revert Hc. by destruct (query_type q).
Qed.

Definition post_request (sql : cstr) : HttpRequest := mkHttpRequest «"POST"» «"/query"» (Some sql).

Lemma request_status_sound_witness :
  ∃ resp ctx' w', request_handler_handle sample_world sample_ctx (post_request insert_choi) = (Ok resp, WriteLocked, ctx', w') ∧
    (status_code resp ≠ 200%Z → w' = sample_world).
Proof.
  eexists _, _, _. split; [vm_compute; reflexivity|].
  eapply (request_status_sound sample_world sample_ctx (post_request insert_choi)).
  - apply sample_ctx_ok.
  - reflexivity.
  - intros sql q [= <-] Hp. assert (Hq : table_name q = «"users"»).
    { vm_compute in Hp. injection Hp as <-. reflexivity. }
    rewrite Hq. split; [apply sample_world_single|]. apply N.leb_le. vm_compute. reflexivity.
  - vm_compute. reflexivity.
Defined.

(** An INSERT whose result cannot be read back is reported as a failure although its row was
    written: the status is 400 and the file has the row. *)
Theorem failure_after_insert :
  let w := mkWorld (files sample_world) (writable sample_world) (freed sample_world)
             (mkStreamCalls true true true true true false) in
  ∃ resp ctx' w',
    request_handler_handle w sample_ctx (post_request insert_choi) = (Ok resp, WriteLocked, ctx', w') ∧
    status_code resp = 400%Z ∧
    ∃ fields, append_csv_row w «"data"» «"users"» fields = Ok w'.
Proof.
  do 3 eexists. split; [vm_compute; reflexivity|]. split; [reflexivity|].
  exists [«"8"»; «"choi"»; «"40"»]. vm_compute. reflexivity.
Qed.

(** A SELECT of a table that is loaded changes neither the context nor the files, so that its
    read section only looks at what it shares with other readers. *)
Theorem select_reads_only `{RowIndex Idx} w (ctx : DbContext Idx) sql q :
  parse_sql_text sql = Ok q → query_type q = QUERY_SELECT → is_Some (find_table (tables ctx) (table_name q)) →
  ∃ executed res, execute_sql_work w ctx sql = (executed, res, ctx, w).
Proof.
  intros Hp Hq [i Hi]. unfold execute_sql_work, sql_service_execute, build_select_payload, db_context_get_table.
  rewrite Hp, Hq, Hi. destruct (with_table _ _ _ _); eauto.
Qed.

(** A read section writes shared memory: the first SELECT of a table runs under the read lock,
    which other readers may hold too, and extends the shared context with the table it loads. *)
Theorem read_section_changes_context :
  ∃ resp ctx' w',
    request_handler_handle sample_world (db_context_create (Idx := BPTree) «"data"») (post_request «"SELECT * FROM users"»)
      = (Ok resp, ReadLocked, ctx', w') ∧
    status_code resp = 200%Z ∧ length (tables ctx') = 1%nat.
Proof.
  do 3 eexists. split; [vm_compute; reflexivity|]. split; vm_compute; reflexivity.
Qed.
