(* ===== verification/RequestWrites.v ===== *)
(** * [sql_service_execute], [request_handler_handle] with writes that can fail

    The request path of [SqlService] and [RequestHandler] ([src/src/server/request/sql_service.c],
    [request_handler.c]) with the INSERT of [InsertWrites]: what a status tells the client about
    the files when the disk may be full. *)

From stdpp Require Import base list strings gmap.
From Stdlib Require Import Ascii.
From S2P Require Import Prelude CString Common Parser Index BPTree Schema Storage CsvWrite DbContext Executor InsertWrites.
From S2P Require Import Json SqlService HttpProtocol RequestHandler.

Section RequestWrites.
Context `{RowIndex Idx}.

Definition sql_service_execute_io (calls : WriteCalls) (w : World) (ctx : DbContext Idx) (sql_text : cstr)
    : SqlServiceResult * DbContext Idx * World :=
  match parse_sql_text sql_text with
  | Err e => (error_result (message e), ctx, w)
  | Ok q =>
      match query_type q with
      | QUERY_SELECT =>
          match build_select_payload w ctx q with
          | (Ok p, ctx') => (mkSqlServiceResult true (Some p) [], ctx', w)
          | (Err e, ctx') => (error_result (message e), ctx', w)
          end
      | QUERY_INSERT =>
          if negb (tmpfile_ok (temporary w)) then (error_result «"Failed to create SQL result stream."», ctx, w)
          else
            match execute_insert_io calls w ctx q with
            | (Err e, ctx', w') => (error_result (message e), ctx', w')
            | (Ok out, ctx', w') =>
                match read_stream_payload (temporary w') out with
                | Err e => (error_result (message e), ctx', w')
                | Ok m =>
                    match build_insert_payload q m with
                    | Err e => (error_result (message e), ctx', w')
                    | Ok p => (mkSqlServiceResult true (Some p) [], ctx', w')
                    end
                end
            end
      end
  end.

Definition execute_sql_work_io (calls : WriteCalls) (w : World) (ctx : DbContext Idx) (sql : cstr)
    : bool * SqlServiceResult * DbContext Idx * World :=
  let '(res, ctx', w') := sql_service_execute_io calls w ctx sql in
  (match payload res with Some _ => true | None => false end, res, ctx', w').

Definition run_sql_io (calls : WriteCalls) (w : World) (ctx : DbContext Idx) (sql : cstr) (mode : lock_mode)
    : result SqlError HttpResponse * lock_mode * DbContext Idx * World :=
  let '(executed, res, ctx', w') := execute_sql_work_io calls w ctx sql in
  match payload res with
  | Some p => (Ok (set_json_response (if ok res then 200 else 400) p), mode, ctx', w')
  | None =>
      (set_json_error_response 500
         (if executed then «"SQL request completed without a response payload."»
          else match out_message res with [] => «"Failed to execute SQL request."» | m => m end), mode, ctx', w')
  end.

Definition request_handler_handle_io (calls : WriteCalls) (w : World) (ctx : DbContext Idx) (r : HttpRequest)
    : result SqlError HttpResponse * lock_mode * DbContext Idx * World :=
  if negb (bool_decide (method r = «"POST"»)) then
    (set_json_error_response 405 «"Only POST requests are supported."», Unlocked, ctx, w)
  else if negb (Ascii.eqb (peek (path r)) "/") then
    (set_json_error_response 400 «"Request path must start with '/'."», Unlocked, ctx, w)
  else
    match body r with
    | None => (set_json_error_response 400 «"Request body must contain SQL text."», Unlocked, ctx, w)
    | Some sql =>
        if Nat.eqb (length sql) 0 || is_blank_text sql then
          (set_json_error_response 400 «"Request body must contain SQL text."», Unlocked, ctx, w)
        else
          match sql_service_classify_operation sql with
          | Err e => (set_json_error_response 400 (message e), Unlocked, ctx, w)
          | Ok SQL_OPERATION_READ => run_sql_io calls w ctx sql ReadLocked
          | Ok SQL_OPERATION_WRITE => run_sql_io calls w ctx sql WriteLocked
          | Ok SQL_OPERATION_UNKNOWN =>
              (set_json_error_response 400 «"Unsupported SQL operation."», Unlocked, ctx, w)
          end
    end.

(** ** Specification *)





(** ** Lemmas *)






End RequestWrites.

(** ** Properties *)



(** When no write fails, the request is answered as in [RequestHandler]. *)
Theorem requests_without_failing_writes `{RowIndex Idx} calls w (ctx : DbContext Idx) r :
  all_written calls → request_handler_handle_io calls w ctx r = request_handler_handle w ctx r.
Proof.
  intros Hall. unfold request_handler_handle_io, request_handler_handle.
  repeat match goal with |- (if ?b then _ else _) = (if ?b then _ else _) => destruct b; [done|] end.
  destruct (body r) as [sql|]; [|done]. destruct (_ || _); [done|].
  assert (Hrun : ∀ m, run_sql_io calls w ctx sql m = run_sql w ctx sql m); [|by destruct (sql_service_classify_operation sql) as [[]|]].
  intros m. unfold run_sql_io, execute_sql_work_io, run_sql, execute_sql_work.
  assert (Hex : sql_service_execute_io calls w ctx sql = sql_service_execute w ctx sql).
  { unfold sql_service_execute_io, sql_service_execute, execute_query. destruct (parse_sql_text sql) as [q|]; [|done].
    destruct (query_type q) eqn:Hq; [|done]. by rewrite insert_without_failing_writes. }
  rewrite Hex. destruct (sql_service_execute w ctx sql) as [[res ctx1] w1]. by destruct (payload res).
Qed.
