(* ===== verification/RequestPrograms.v ===== *)
(** * [sql_service_execute] in [src/src/server/request/sql_service.c] as a program of small steps

    [SqlService] runs a statement as one function of the database.  On the server statements
    overlap, so here the same code is taken apart where it reads or changes the shared tables
    and files: the look-up of the table, the search of the index, each row of a result, the
    append to the file, the append to the rows in memory, the insertion into the index, the next
    id.  The steps run in the guarded sections of [GuardedPrograms]. *)

From stdpp Require Import base list strings relations.
From Stdlib Require Import Ascii.
From S2P Require Import Prelude CString Common Parser Index BPTree Schema Storage DbContext Executor Json SqlService.
From S2P Require Import DbGuard GuardedWork GuardedPrograms RequestHandler.

Local Open Scope nat_scope.

Section RequestPrograms.
Context `{RowIndex Idx}.

(** The shared state: the context and the files. *)
Definition Database : Type := DbContext Idx * World.

(** Where the service is in its work, with its local variables. *)
Inductive service_point :=
| SvcStart (sql : cstr)                                        (** parse *)
| SelGet (q : Query)                                           (** [db_context_get_table] *)
| SelOpen (q : Query) (i : nat)                                (** the head of the payload, which rows *)
| SelRows (i : nat) (column : option (Z * cstr)) (row_index : nat) (first : bool) (json : JsonBuffer)
                                                               (** the loop over the rows *)
| SelMatched (i : nat) (matched : Z) (json : JsonBuffer)       (** the row found by id *)
| SelClose (json : JsonBuffer)
| InsOpen (q : Query)                                          (** [tmpfile] *)
| InsGet (q : Query)                                           (** [db_context_get_table] *)
| InsCheck (q : Query) (i : nat)                               (** values, duplicate id *)
| InsFile (q : Query) (i : nat) (fields : Row)                 (** [append_csv_row] *)
| InsMemory (q : Query) (i : nat) (fields : Row)               (** [append_row_to_memory] *)
| InsIndex (q : Query) (i : nat) (id row_index : Z)            (** [bptree_insert] *)
| InsReload (q : Query) (e : SqlError)                         (** [db_context_reload_table] *)
| InsNext (q : Query) (i : nat) (id : Z)                       (** [table->next_id] *)
| InsPrint (q : Query)                                         (** read the stream, build the payload *)
| SvcDone (res : SqlServiceResult).

Definition select_result (r : result SqlError cstr) : SqlServiceResult :=
  match r with Ok p => mkSqlServiceResult true (Some p) [] | Err e => error_result (message e) end.

(** End with an error, or go on. *)
Definition or_error {A} (r : result SqlError A) (k : A → service_point) : service_point :=
  match r with Ok a => k a | Err e => SvcDone (error_result (message e)) end.

Definition select_head (q : Query) : result SqlError JsonBuffer :=
  json ← json_buffer_append_raw json_empty (dq «"{'ok':true,'type':'select','table':"»);
  json ← json_buffer_append_quoted json (table_name q);
  json_buffer_append_raw json (dq «",'rows':["»).

(** Which rows a SELECT goes through. *)
Definition select_rows (i : nat) (t : TableState Idx) (cond : option Condition) (json : JsonBuffer) : service_point :=
  match cond with
  | None => SelRows i None 0 true json
  | Some c =>
      if bool_decide (cond_column c = «"id"») then
        if negb (is_integer_string (raw (cond_value c))) then SvcDone (select_result (fail «"WHERE id requires an integer value"»))
        else match index_search (index t) (atoi (raw (cond_value c))) with
             | Some matched => SelMatched i matched json
             | None => SelClose json
             end
      else
        let column_index := find_column_index (schema t) (cond_column c) in
        if (column_index <? 0)%Z then SvcDone (select_result (fail («"unknown column in WHERE clause: "» ++ cond_column c)))
        else SelRows i (Some (column_index, raw (cond_value c))) 0 true json
  end.

Definition row_matches (column : option (Z * cstr)) (r : Row) : bool :=
  match column with None => true | Some (c, v) => bool_decide (field_at r c = v) end.

(** Position [i] of the table array; positions come from [db_context_get_table]. *)
Definition at_table (x : Database) (i : nat) (k : TableState Idx → service_point * Database) : option (service_point * Database) :=
  Some (match tables x.1 !! i with Some t => k t | None => (SvcDone (select_result (Ok [])), x) end).

(** [build_select_payload]. *)
Definition select_step (pt : service_point) (x : Database) : option (service_point * Database) :=
  let '(ctx, w) := x in
  match pt with
  | SelGet q =>
      let '(r, ctx') := db_context_get_table w ctx (table_name q) in
      Some (or_error r (SelOpen q), (ctx', w))
  | SelOpen q i => at_table x i (λ t, (or_error (select_head q) (select_rows i t (condition q)), x))
  | SelRows i column k first json =>
      at_table x i (λ t,
        (match rows (rowset t) !! k with
         | None => SelClose json
         | Some r =>
             if row_matches column r then
               or_error (json ← append_comma first json; append_row_object json (schema t) r) (SelRows i column (S k) false)
             else SelRows i column (S k) first json
         end, x))
  | SelMatched i matched json =>
      at_table x i (λ t,
        (or_error (append_row_objects json true (schema t) (option_list (rows (rowset t) !! Z.to_nat matched))) SelClose, x))
  | SelClose json =>
      Some (SvcDone (select_result (json ← json_buffer_append_raw json «"]}"»; Ok (json_buffer_finalize json))), x)
  | _ => None
  end.

(** [execute_insert]. *)
Definition insert_step (pt : service_point) (x : Database) : option (service_point * Database) :=
  let '(ctx, w) := x in
  match pt with
  | InsGet q =>
      let '(r, ctx') := db_context_get_table w ctx (table_name q) in
      Some (or_error r (InsCheck q), (ctx', w))
  | InsCheck q i =>
      at_table x i (λ t,
        (or_error (checked_fields t (values q)) (λ fields,
           match index_search (index t) (row_id (schema t) fields) with
           | Some _ => SvcDone (select_result (fail («"duplicate id: "» ++ show_int (row_id (schema t) fields))))
           | None => InsFile q i fields
           end), x))
  | InsFile q i fields =>
      Some match append_csv_row w (db_root ctx) (table_name q) fields with
      | Err e => (SvcDone (error_result (message e)), x)
      | Ok w' => (InsMemory q i fields, (ctx, w'))
      end
  | InsMemory q i fields =>
      at_table x i (λ t,
        (InsIndex q i (row_id (schema t) fields) (Z.of_nat (row_count (rowset t))),
         (set_table ctx i (append_row_to_memory t fields), w)))
  | InsIndex q i id row_index =>
      at_table x i (λ t,
        match index_insert (index t) id row_index with
        | Err e => (InsReload q e, x)
        | Ok idx => (InsNext q i id, (set_table ctx i (mkTableState (name t) (schema t) (rowset t) idx (next_id t)), w))
        end)
  | InsReload q e =>
      let '(r, ctx') := db_context_reload_table w ctx (table_name q) in
      Some (SvcDone (error_result (message (match r with Err e' => e' | Ok _ => e end))), (ctx', w))
  | InsNext q i id =>
      at_table x i (λ t, (InsPrint q, (set_table ctx i (finish_insert t (index t) id), w)))
  | _ => None
  end.

Definition service_step (pt : service_point) (x : Database) : option (service_point * Database) :=
  let '(ctx, w) := x in
  match pt with
  | SvcStart sql =>
      Some (or_error (parse_sql_text sql) (λ q, match query_type q with QUERY_SELECT => SelGet q | QUERY_INSERT => InsOpen q end), x)
  | SelGet _ | SelOpen _ _ | SelRows _ _ _ _ _ | SelMatched _ _ _ | SelClose _ => select_step pt x
  | InsOpen q =>
      Some (if tmpfile_ok (temporary w) then InsGet q
            else SvcDone (error_result «"Failed to create SQL result stream."»), x)
  | InsGet _ | InsCheck _ _ | InsFile _ _ _ | InsMemory _ _ _ | InsIndex _ _ _ _ | InsReload _ _ | InsNext _ _ _ => insert_step pt x
  | InsPrint q =>
      Some (SvcDone (select_result (m ← read_stream_payload (temporary w) («"INSERT 1"» ++ [LF]); build_insert_payload q m)), x)
  | SvcDone _ => None
  end.

(** The lock of the section that runs a statement, as [request_handler_handle] chooses it. *)
Definition takes_write_lock (pt : service_point) : bool :=
  match pt with
  | SvcStart sql => match sql_service_classify_operation sql with Ok SQL_OPERATION_WRITE => true | _ => false end
  | _ => false
  end.

(** The statements one after the other, each as one step: the results and the database. *)
Fixpoint execute_all (x : Database) (sqls : list cstr) : list SqlServiceResult * Database :=
  match sqls with
  | [] => ([], x)
  | sql :: sqls' =>
      let '(res, ctx', w') := sql_service_execute x.2 x.1 sql in
      let '(rest, x') := execute_all (ctx', w') sqls' in
      (res :: rest, x')
  end.

(** ** Lemmas: a statement alone *)

Notation move := (pmove service_step).

Definition close_payload (json : JsonBuffer) : result SqlError cstr :=
  json ← json_buffer_append_raw json «"]}"»; Ok (json_buffer_finalize json).

(** The rest of a SELECT whose loop is at row [k]. *)
Lemma select_rows_run ctx w i t column k first json :
  tables ctx !! i = Some t →
  rtc move (SelRows i column k first json, (ctx, w))
    (SvcDone (select_result (append_row_objects json first (schema t) (List.filter (row_matches column) (drop k (rows (rowset t))))
                             ≫= close_payload)), (ctx, w)).
Proof.
  intros Ht. remember (length (rows (rowset t)) - k) as d eqn:Hd. revert k first json Hd.
  induction d as [|d IH]; intros k first json Hd; (eapply rtc_l; [unfold pmove; cbn; unfold at_table; cbn; rewrite Ht; reflexivity|]).
  - rewrite drop_ge by lia. rewrite lookup_ge_None_2 by lia. simpl. by apply rtc_once.
  - destruct (lookup_lt_is_Some_2 (rows (rowset t)) k ltac:(lia)) as [r Hr]. rewrite (drop_S _ _ _ Hr), Hr. cbn [List.filter].
    destruct (row_matches column r); [|apply IH; lia]. cbn [append_row_objects].
    destruct (append_comma first json) as [json1|e]; simpl; [|apply rtc_refl].
    destruct (append_row_object json1 (schema t) r) as [json2|e]; simpl; [|apply rtc_refl]. apply IH. lia.
Qed.

Lemma filter_all {A} (l : list A) : List.filter (λ _, true) l = l.
Proof. induction l as [|x l IH]; [done|]. simpl. by rewrite IH. Qed.

Lemma select_run ctx w i t q :
  tables ctx !! i = Some t →
  rtc move (SelOpen q i, (ctx, w)) (SvcDone (select_result (select_payload t q)), (ctx, w)).
Proof.
  intros Ht. eapply rtc_l; [unfold pmove; cbn; unfold at_table; cbn; rewrite Ht; reflexivity|].
  assert (Hp : select_payload t q = select_head q ≫= λ json, append_selected json t (condition q) ≫= close_payload).
  { unfold select_payload, select_head. destruct (json_buffer_append_raw json_empty _) as [j1|]; [|done]. cbn.
    by destruct (json_buffer_append_quoted j1 (table_name q)). }
  rewrite Hp. destruct (select_head q) as [json|e]; cbn; [|apply rtc_refl].
  unfold select_rows, append_selected. destruct (condition q) as [c|].
  - destruct (bool_decide (cond_column c = _)).
    + destruct (is_integer_string (raw (cond_value c))); cbn [negb]; [|apply rtc_refl].
      destruct (index_search _ _) as [m|]; [|by apply rtc_once].
      eapply rtc_l; [unfold pmove; cbn; unfold at_table; cbn; rewrite Ht; reflexivity|].
      destruct (append_row_objects json true (schema t) _) as [json'|e]; cbn; [by apply rtc_once|apply rtc_refl].
    + cbv zeta. destruct (_ <? 0)%Z; [apply rtc_refl|]. by apply (select_rows_run ctx w i t (Some (_, _)) 0 true json).
  - pose proof (select_rows_run ctx w i t None 0 true json Ht) as Hr. cbn [row_matches drop] in Hr.
    by rewrite filter_all in Hr.
Qed.

Lemma set_table_twice (ctx : DbContext Idx) i t1 t2 : set_table (set_table ctx i t1) i t2 = set_table ctx i t2.
Proof. unfold set_table. simpl. by rewrite list_insert_insert_eq. Qed.

Lemma set_table_lookup (ctx : DbContext Idx) i t t' : tables ctx !! i = Some t → tables (set_table ctx i t') !! i = Some t'.
Proof. intros Ht. simpl. apply list_lookup_insert_eq. by eapply lookup_lt_Some. Qed.

(** What the service makes of the result of [execute_query]. *)
Definition insert_result (q : Query) (w : World) (r : result SqlError cstr) : SqlServiceResult :=
  match r with
  | Ok out => select_result (m ← read_stream_payload (temporary w) out; build_insert_payload q m)
  | Err e => error_result (message e)
  end.

Lemma insert_run ctx w i t q r ctx' w' :
  tables ctx !! i = Some t → insert_into w ctx i (table_name q) (values q) t = (r, ctx', w') →
  rtc move (InsCheck q i, (ctx, w)) (SvcDone (insert_result q w' r), (ctx', w')).
Proof.
  intros Ht. unfold insert_into.
  assert (Hfirst : ∀ l x, rtc move (or_error (checked_fields t (values q)) (λ fields,
      match index_search (index t) (row_id (schema t) fields) with
      | Some _ => SvcDone (select_result (fail («"duplicate id: "» ++ show_int (row_id (schema t) fields))))
      | None => InsFile q i fields end), (ctx, w)) (l, x) → rtc move (InsCheck q i, (ctx, w)) (l, x)).
  { intros l x Hr. eapply rtc_l; [|exact Hr]. unfold pmove. cbn. unfold at_table. cbn. by rewrite Ht. }
  intros Hins. apply Hfirst. clear Hfirst. destruct (checked_fields t (values q)) as [fields|e]; cbn [or_error].
  2: { simplify_eq. apply rtc_refl. }
  cbv zeta in Hins. destruct (index_search _ _); [simplify_eq; apply rtc_refl|].
  eapply rtc_l; [unfold pmove; cbn; reflexivity|].
  destruct (append_csv_row w (db_root ctx) (table_name q) fields) as [w1|e]; [|simplify_eq; apply rtc_refl].
  eapply rtc_l; [unfold pmove; cbn; unfold at_table; cbn; rewrite Ht; reflexivity|].
  set (t1 := append_row_to_memory t fields) in *. pose proof (set_table_lookup ctx i t t1 Ht) as Ht1.
  eapply rtc_l; [unfold pmove; cbn -[set_table]; unfold at_table; cbn -[set_table]; rewrite Ht1; reflexivity|].
  destruct (index_insert (index t1) _ _) as [idx|e].
  - simplify_eq. eapply rtc_l.
    { unfold pmove. cbn -[set_table]. unfold at_table. cbn -[set_table]. by rewrite (set_table_lookup _ _ _ _ Ht1). }
    rewrite !set_table_twice. by apply rtc_once.
  - apply rtc_once. unfold pmove. cbn -[set_table].
    destruct (db_context_reload_table w1 (set_table ctx i t1) (table_name q)) as [[[]|e'] c]; by simplify_eq.
Qed.

Lemma service_run x sql res ctx' w' :
  sql_service_execute x.2 x.1 sql = (res, ctx', w') → rtc move (SvcStart sql, x) (SvcDone res, (ctx', w')).
Proof.
  destruct x as [ctx w]. unfold sql_service_execute. simpl. intros Hx. eapply rtc_l; [unfold pmove; cbn; reflexivity|].
  destruct (parse_sql_text sql) as [q|e]; cbn [or_error]; [|simplify_eq; apply rtc_refl].
  destruct (query_type q) eqn:Hq.
  - eapply rtc_l; [unfold pmove; cbn; reflexivity|]. destruct (tmpfile_ok (temporary w)); cbn [negb] in Hx; [|simplify_eq; apply rtc_refl].
    unfold execute_query, execute_insert in Hx. rewrite Hq in Hx.
    destruct (db_context_get_table w ctx (table_name q)) as [[i|e] ctx1] eqn:Hg.
    + eapply rtc_l; [unfold pmove; cbn; rewrite Hg; reflexivity|]. cbn [or_error].
      destruct (get_table_position _ _ _ _ _ Hg) as [_ [t Ht]]. unfold with_table in Hx. rewrite Ht in Hx.
      destruct (insert_into w ctx1 i (table_name q) (values q) t) as [[r ctx2] w2] eqn:Hins.
      pose proof (insert_run _ _ _ _ _ _ _ _ Ht Hins) as Hr. unfold insert_result in Hr.
      destruct r as [out|e]; [|by simplify_eq]. destruct (read_stream_payload (temporary w2) out) as [m|e]; [|by simplify_eq].
      cbn in Hr. destruct (build_insert_payload q m); by simplify_eq.
    + simplify_eq. apply rtc_once. unfold pmove. cbn. by rewrite Hg.
  - unfold build_select_payload in Hx. destruct (db_context_get_table w ctx (table_name q)) as [[i|e] ctx1] eqn:Hg.
    + eapply rtc_l; [unfold pmove; cbn; rewrite Hg; reflexivity|]. cbn [or_error].
      destruct (get_table_position _ _ _ _ _ Hg) as [_ [t Ht]]. unfold with_table in Hx. rewrite Ht in Hx.
      pose proof (select_run ctx1 w i t q Ht) as Hr. destruct (select_payload t q); by simplify_eq.
    + simplify_eq. apply rtc_once. unfold pmove. cbn. by rewrite Hg.
Qed.

Lemma service_runs x sql :
  ∃ res x', runs service_step (SvcStart sql) x (SvcDone res) x' ∧ sql_service_execute x.2 x.1 sql = (res, x'.1, x'.2).
Proof.
  destruct (sql_service_execute x.2 x.1 sql) as [[res ctx'] w'] eqn:Hx. exists res, (ctx', w').
  split; [|done]. split; [by apply service_run|done].
Qed.

(** ** Lemmas: loaded tables *)

(** Every table of [ns] is loaded. *)
Definition loaded (ns : list cstr) (x : Database) : Prop :=
  ∀ n, n ∈ ns → length n < TABLE_NAME_SIZE ∧ is_Some (find_table (tables x.1) n).

(** The requests: classified statements about the tables of [ns]. *)
Definition request (ns : list cstr) (pt : service_point) : Prop :=
  ∃ sql op, pt = SvcStart sql ∧ sql_service_classify_operation sql = Ok op ∧
    ∀ q, parse_sql_text sql = Ok q → table_name q ∈ ns.

(** The points of a SELECT from these tables. *)
Definition quiet (ns : list cstr) (pt : service_point) : Prop :=
  match pt with
  | SvcStart sql => takes_write_lock pt = false ∧ ∀ q, parse_sql_text sql = Ok q → table_name q ∈ ns
  | SelGet q => table_name q ∈ ns
  | SelOpen _ _ | SelRows _ _ _ _ _ | SelMatched _ _ _ | SelClose _ | SvcDone _ => True
  | _ => False
  end.

Lemma quiet_or_error {A} ns (r : result SqlError A) k : (∀ a, quiet ns (k a)) → quiet ns (or_error r k).
Proof. destruct r; simpl; auto. Qed.

Lemma loaded_get ns x n :
  loaded ns x → n ∈ ns → ∃ i t, db_context_get_table x.2 x.1 n = (Ok i, x.1) ∧ find_table (tables x.1) n = Some i ∧
    tables x.1 !! i = Some t ∧ name t = n ∧ length n < TABLE_NAME_SIZE.
Proof.
  intros Hl Hn. destruct (Hl n Hn) as [Hlen [i Hi]]. destruct (find_table_Some _ _ _ Hi) as (t & Ht & Hname).
  exists i, t. unfold db_context_get_table. by rewrite Hi.
Qed.

Lemma quiet_step ns pt x pt' x' : loaded ns x → quiet ns pt → service_step pt x = Some (pt', x') → x' = x ∧ quiet ns pt'.
Proof.
  intros Hl Hq. destruct x as [ctx w]. destruct pt; simpl in Hq; try done; cbn; unfold at_table; cbn.
  - destruct Hq as [Hr Hns]. intros [= <- <-]. split; [done|]. destruct (parse_sql_text sql) as [q|] eqn:Hp; [|done].
    rewrite (classify_statement sql q (parse_sql_text_sound sql q Hp)) in Hr. cbn [or_error].
    destruct (query_type q); [done|]. by apply Hns.
  - destruct (loaded_get ns _ _ Hl Hq) as (i & t & Hg & _). cbn in Hg. rewrite Hg. by intros [= <- <-].
  - destruct (tables ctx !! i); intros [= <- <-]; split; try done. apply quiet_or_error. intros json.
    unfold select_rows. repeat case_match; done.
  - destruct (tables ctx !! i); intros [= <- <-]; split; try done. repeat case_match; try done. by apply quiet_or_error.
  - destruct (tables ctx !! i); intros [= <- <-]; split; try done. by apply quiet_or_error.
  - by intros [= <- <-].
Qed.

Lemma quiet_run ns a b : rtc move a b → loaded ns a.2 → quiet ns a.1 → b.2 = a.2.
Proof.
  induction 1 as [|a c b Hac _ IH]; [done|]. intros Hl Hq. destruct a as [pt x], c as [pt' x']. unfold pmove in Hac. simpl in *.
  destruct (quiet_step _ _ _ _ _ Hl Hq Hac) as [-> Hq']. by apply IH.
Qed.

(** Look-ups depend on the names only, and an INSERT into a loaded table keeps these. *)
Lemma find_table_names (ts ts' : list (TableState Idx)) n : map name ts = map name ts' → find_table ts n = find_table ts' n.
Proof.
  revert ts'. induction ts as [|t ts IH]; intros [|t' ts'] Hn; simpl in *; try done. injection Hn as Hn Hns.
  by rewrite Hn, (IH ts').
Qed.

Lemma set_table_names (ctx : DbContext Idx) i t t' :
  tables ctx !! i = Some t → name t' = name t → map name (tables (set_table ctx i t')) = map name (tables ctx).
Proof.
  intros Ht Hn. simpl. change (map name) with (fmap (M := list) (name (Idx := Idx))). rewrite list_fmap_insert.
  apply list_insert_id. rewrite list_lookup_fmap, Ht. simpl. by rewrite Hn.
Qed.

Lemma insert_names w ctx i t q r ctx' w' :
  find_table (tables ctx) (table_name q) = Some i → tables ctx !! i = Some t → name t = table_name q →
  length (table_name q) < TABLE_NAME_SIZE →
  insert_into w ctx i (table_name q) (values q) t = (r, ctx', w') → map name (tables ctx') = map name (tables ctx).
Proof.
  intros Hf Ht Hname Hlen. unfold insert_into. destruct (checked_fields t (values q)) as [fields|]; [|by intros [= <- <- <-]]. cbv zeta.
  destruct (index_search _ _); [by intros [= <- <- <-]|]. destruct (append_csv_row _ _ _ _) as [w1|]; [|by intros [= <- <- <-]].
  set (t1 := append_row_to_memory t fields). pose proof (set_table_lookup ctx i t t1 Ht) as Ht1.
  destruct (index_insert _ _ _) as [idx|e]; [intros [= <- <- <-]; by apply (set_table_names _ _ t)|].
  unfold db_context_reload_table. rewrite (find_table_names _ (tables ctx)), Hf by (by apply (set_table_names _ _ t)).
  destruct (table_state_load _ _ _) as [t2|e2] eqn:Hload; intros [= <- <- <-]; [|by apply (set_table_names _ _ t)].
  change (mkDbContext _ _) with (set_table (set_table ctx i t1) i t2). rewrite set_table_twice.
  apply (set_table_names _ _ t); [done|]. apply table_state_load_inv in Hload as (_ & _ & _ & _ & Hn & _).
  rewrite Hn, Hname. unfold bounded. apply take_ge. lia.
Qed.

Lemma execute_names ns x sql res ctx' w' :
  loaded ns x → (∀ q, parse_sql_text sql = Ok q → table_name q ∈ ns) →
  sql_service_execute x.2 x.1 sql = (res, ctx', w') → map name (tables ctx') = map name (tables x.1).
Proof.
  intros Hl Hns. unfold sql_service_execute. destruct (parse_sql_text sql) as [q|]; [|by intros [= <- <- <-]].
  destruct (loaded_get ns x (table_name q) Hl (Hns q eq_refl)) as (i & t & Hg & Hf & Ht & Hname & Hlen). destruct (query_type q) eqn:Hq.
  - destruct (tmpfile_ok _); cbn [negb]; [|by intros [= <- <- <-]]. unfold execute_query, execute_insert, with_table. rewrite Hq, Hg, Ht.
    destruct (insert_into _ _ _ _ _ _) as [[r ctx1] w1] eqn:Hins. intros Hx. assert (ctx' = ctx1) as ->.
    { destruct r as [out|]; [destruct (read_stream_payload _ out) as [m|]; [destruct (build_insert_payload q m)|]|]; by simplify_eq. }
    by eapply insert_names.
  - unfold build_select_payload, with_table. rewrite Hg, Ht. destruct (select_payload t q); by intros [= <- <- <-].
Qed.

Lemma execute_loaded ns x sql res ctx' w' :
  loaded ns x → (∀ q, parse_sql_text sql = Ok q → table_name q ∈ ns) →
  sql_service_execute x.2 x.1 sql = (res, ctx', w') → loaded ns (ctx', w').
Proof.
  intros Hl Hns Hx n Hn. simpl. rewrite (find_table_names _ (tables x.1)) by (by eapply execute_names). by apply Hl.
Qed.

(** ** Lemmas: serial execution *)

Lemma request_runs ns l0 x l x' :
  request ns l0 → runs service_step l0 x l x' →
  ∃ sql res, l0 = SvcStart sql ∧ l = SvcDone res ∧ sql_service_execute x.2 x.1 sql = (res, x'.1, x'.2) ∧
    ∀ q, parse_sql_text sql = Ok q → table_name q ∈ ns.
Proof.
  intros (sql & op & -> & _ & Hns) Hr. destruct (service_runs x sql) as (res & x2 & Hr2 & Hx).
  destruct (runs_det _ _ _ _ _ _ _ Hr2 Hr) as [-> ->]. eauto 10.
Qed.

Lemma execute_all_snoc x sqls sql :
  execute_all x (sqls ++ [sql]) =
  let '(ress, y) := execute_all x sqls in
  let '(res, ctx', w') := sql_service_execute y.2 y.1 sql in (ress ++ [res], (ctx', w')).
Proof.
  revert x. induction sqls as [|s sqls IH]; intros x; simpl.
  - by destruct (sql_service_execute x.2 x.1 sql) as [[res ctx'] w'].
  - destruct (sql_service_execute x.2 x.1 s) as [[res ctx'] w']. rewrite IH. destruct (execute_all (ctx', w') sqls) as [ress y].
    by destruct (sql_service_execute y.2 y.1 sql) as [[res2 ctx2] w2].
Qed.

Definition log_entry (e : cstr * SqlServiceResult) : service_point * service_point := (SvcStart e.1, SvcDone e.2).

Lemma serial_requests ns x0 e y :
  Forall (λ e, request ns e.1) e → serial service_step x0 e y →
  ∃ log, e = map log_entry log ∧ execute_all x0 (map fst log) = (map snd log, y).
Proof.
  intros He Hs. induction Hs as [|e y l0 l z Hs IH Hr]; [by exists []|].
  apply Forall_app in He as [He [Hq _]%Forall_cons_1]. destruct (IH He) as (log & -> & Hlog). simpl in Hq.
  destruct (request_runs _ _ _ _ _ Hq Hr) as (sql & res & -> & -> & Hx & _). exists (log ++ [(sql, res)]).
  rewrite !map_app. split; [done|]. cbn [map fst]. rewrite execute_all_snoc, Hlog, Hx. by destruct z.
Qed.

Lemma request_read_only ns l0 l x x' :
  request ns l0 → loaded ns x → takes_write_lock l0 = false → rtc move (l0, x) (l, x') → x' = x.
Proof.
  intros (sql & op & -> & _ & Hns) Hl Hw Hr. exact (quiet_run ns _ _ Hr Hl (conj Hw Hns)).
Qed.

Lemma request_keeps_loaded ns l0 l x x' :
  request ns l0 → loaded ns x → takes_write_lock l0 = true → runs service_step l0 x l x' → loaded ns x'.
Proof.
  intros Hq Hl _ Hr. destruct (request_runs _ _ _ _ _ Hq Hr) as (sql & res & _ & _ & Hx & Hns).
  destruct x' as [ctx' w']. by eapply execute_loaded.
Qed.

End RequestPrograms.

(** ** Properties *)

(** C19. Taken apart into its accesses to the tables and files, a statement that runs alone ends,
    and then it has given the result, the context and the files that [sql_service_execute] gives
    in one step, for every text, database and state of the files. *)
Theorem service_program_refines `{RowIndex Idx} (ctx : DbContext Idx) w sql :
  let '(res, ctx', w') := sql_service_execute w ctx sql in
  runs service_step (SvcStart sql) (ctx, w) (SvcDone res) (ctx', w') ∧
  ∀ l x, runs service_step (SvcStart sql) (ctx, w) l x → l = SvcDone res ∧ x = (ctx', w').
Proof.
  destruct (service_runs (ctx, w) sql) as (res & [ctx' w'] & Hr & Hx). simpl in Hx. rewrite Hx. split; [done|].
  intros l x Hl. by eapply runs_det.
Qed.

(** C13. Requests on loaded tables are serializable: any number of threads run statements inside the
    sections of the reader-writer lock, their atomic operations on the lock and their steps on the
    tables and files interleave freely, and the sections that have ended have given exactly the
    results of executing their statements one after the other, in the order in which they
    ended; when no write section is open, the tables and files are those of that execution.
    The steps are the calls that read or change what is shared (the look-up of the table, the
    search of the index, each row of a result, [append_csv_row], the append in memory,
    [bptree_insert], the next id), each as one step, and all steps are taken in one order that
    every thread sees ([GuardTSO] and [GuardWeak] look at weaker memory). *)
Theorem requests_serializable `{RowIndex Idx} n ns none (x0 : Database) s :
  (Z.of_nat n <= INT_MAX)%Z → loaded ns x0 →
  rtc (allowed_step service_step takes_write_lock (request ns)) (progs_initial n none x0) s →
  ∃ log y, ended s = map log_entry log ∧ execute_all x0 (map fst log) = (map snd log, y) ∧
    (Writing ∉ points (plocks s) → pshared s = y).
Proof.
  intros Hn Hl Hr.
  destruct (programs_reachable service_step takes_write_lock (request ns) (loaded ns)
    (request_read_only ns) (request_keeps_loaded ns) n none x0 s Hn Hl Hr) as [y [_ Hs He _ _ Hf]].
  destruct (serial_requests ns x0 _ y He Hs) as (log & Hlog & Hx). eauto 10.
Qed.

(** ** Examples *)

Definition insert_sql : cstr := «"INSERT INTO users VALUES ('park', 31);"».
Definition sample_database : Database (Idx := BPTree) := (sample_ctx, sample_world).

Lemma users_are_loaded : loaded [«"users"»] sample_database.
Proof.
  intros n ->%list_elem_of_singleton. split; [apply Nat.ltb_lt; vm_compute; reflexivity|].
  exists 0. vm_compute. reflexivity.
Qed.

Lemma insert_request : request [«"users"»] (SvcStart insert_sql).
Proof.
  exists insert_sql, SQL_OPERATION_WRITE. split; [done|]. split; [vm_compute; reflexivity|].
  intros q Hq. assert (Hp : parse_sql_text insert_sql = Ok insert_park) by (vm_compute; reflexivity).
  rewrite Hp in Hq. injection Hq as <-. by apply list_elem_of_singleton.
Qed.

(** Nobody is inside a section. *)
Ltac nobody_inside :=
  intros j q k0 k Hq Hin _; apply list_elem_of_lookup_2 in Hq; simpl in Hq;
  repeat (apply elem_of_cons in Hq as [->|Hq]; [done|]); by apply elem_of_nil in Hq.

Ltac locks i rule :=
  eapply rtc_l; [split; [eapply (progs_lock _ _ _ i); [reflexivity|apply rule; reflexivity|reflexivity|reflexivity]|nobody_inside]|]; simpl.

(** An INSERT runs to its end while another thread waits to read. *)
Lemma requests_serializable_witness :
  ∃ s res, rtc (allowed_step service_step takes_write_lock (request [«"users"»])) (progs_initial 2 (SvcStart []) sample_database) s ∧
    ended s = [(SvcStart insert_sql, SvcDone res)] ∧ points (plocks s) = [Idle; ReadLoadActive] ∧
    ∃ log y, ended s = map log_entry log ∧ execute_all sample_database (map fst log) = (map snd log, y) ∧ pshared s = y.
Proof.
  destruct (service_runs sample_database insert_sql) as (res & x' & [Hsteps Hend] & _).
  set (inside_writing := mkSystem (mkDbGuard 0 1 0) [Writing; ReadLoadActive]).
  set (start := mkProgs inside_writing [(SvcStart insert_sql, SvcStart insert_sql); (SvcStart [], SvcStart [])] sample_database []).
  assert (Hal : all_allowed (request [«"users"»]) start).
  { intros [|[|j]] p l0 l Hp Hin Hj; simpl in Hp, Hj; simplify_eq; exact insert_request || done. }
  assert (Hstart : rtc (allowed_step service_step takes_write_lock (request [«"users"»])) (progs_initial 2 (SvcStart []) sample_database) start).
  { unfold progs_initial, initial, db_guard_create. cbn [replicate].
    locks 0 start_write. locks 1 start_read. locks 0 write_announce. locks 0 write_claim_ok. locks 0 write_readers_none.
    eapply rtc_l; [|apply rtc_refl]. split; [|exact Hal].
    assert (Hw : takes_write_lock (SvcStart insert_sql) = true) by (vm_compute; reflexivity).
    pose proof (progs_enter (service_step (Idx := BPTree)) takes_write_lock
      (mkSystem (mkDbGuard 0 1 1) [WriteRetract; ReadLoadActive]) 0 WriteRetract (mkDbGuard 0 1 0)
      [(SvcStart [], SvcStart []); (SvcStart [], SvcStart [])] sample_database [] (SvcStart insert_sql) eq_refl) as Henter.
    unfold section_point in Henter. rewrite Hw in Henter. apply Henter; [apply write_retract|done]. }
  destruct (section_runs service_step takes_write_lock (request [«"users"»]) inside_writing 0 Writing (jobs start) sample_database []
    (SvcStart insert_sql) (SvcStart insert_sql) (SvcDone res) x'
    eq_refl eq_refl eq_refl Hal Hsteps) as [Hwork _].
  set (last := mkProgs (mkSystem (mkDbGuard 0 0 0) [Idle; ReadLoadActive])
    [(SvcStart insert_sql, SvcDone res); (SvcStart [], SvcStart [])] x' [(SvcStart insert_sql, SvcDone res)]).
  assert (Hlast : rtc (allowed_step service_step takes_write_lock (request [«"users"»])) (progs_initial 2 (SvcStart []) sample_database) last).
  { etrans; [exact Hstart|]. etrans; [exact Hwork|]. eapply rtc_l; [|apply rtc_refl].
    split; [|nobody_inside].
    exact (progs_unlock service_step takes_write_lock inside_writing 0 Writing (mkDbGuard 0 0 0) (jobs last) x' [] (SvcStart insert_sql) (SvcDone res)
      eq_refl eq_refl eq_refl Hend (write_unlock _)). }
  exists last, res. split; [exact Hlast|]. split; [reflexivity|]. split; [reflexivity|].
  destruct (requests_serializable 2 [«"users"»] (SvcStart []) sample_database last) as (log & y & He & Hx & Hy);
    [done|exact users_are_loaded|exact Hlast|]. exists log, y. split; [exact He|]. split; [exact Hx|].
  apply Hy. by apply (bool_decide_unpack _).
Defined.
