(* ===== verification/SocketServer.v ===== *)
(** * [src/src/server/api/socket_server.c]: reading a request from a socket

    What the kernel delivers is a list of receive events.  [recv] gives at most the room left
    in the buffer; the rest of a chunk stays for the next call.  The buffer is known by its
    capacity: the code allocates one byte more for the closing NUL. *)

From stdpp Require Import base list strings sets.
From Stdlib Require Import Ascii.
From S2P Require Import Prelude CString Common Schema HttpProtocol.

Definition SERVER_REQUEST_INITIAL_CAPACITY : N := 1024.
Definition SERVER_REQUEST_MAX_CAPACITY : N := 65536.

(** ** Headers *)

Definition server_ascii_case_equals (left right : cstr) : bool :=
  bool_decide (length right = length left) && bool_decide (map tolower left = map tolower right).

(** The offset of the first empty line and the length of its terminator. *)
Fixpoint server_find_request_terminator (buffer : cstr) : option (nat * nat) :=
  match buffer with
  | [] => None
  | _ :: rest =>
      if starts_with [LF; LF] buffer then Some (0, 2)%nat
      else if starts_with [CR; LF; CR; LF] buffer then Some (0, 4)%nat
      else match server_find_request_terminator rest with
           | Some (i, n) => Some (S i, n)
           | None => None
           end
  end.

Definition size_t (n : N) : N := (n mod (SIZE_MAX + 1))%N.

(** The loop over the value of the Content-Length header. *)
Fixpoint content_length_digits (value : cstr) (parsed : N) (saw_digit : bool) : result SqlError N :=
  match value with
  | [] =>
      if saw_digit then Ok parsed else fail «"Content-Length header is missing a numeric value"»
  | c :: value' =>
      if isdigit c then content_length_digits value' (size_t (parsed * 10 + Z.to_N (digit_value c))) true
      else if is_blank_char c then
        if forallb is_blank_char value' then
          if saw_digit then Ok parsed else fail «"Content-Length header is missing a numeric value"»
        else fail «"Content-Length header is invalid"»
      else fail «"Content-Length header is invalid"»
  end.

Definition in_line (c : ascii) : bool := negb (Ascii.eqb c CR) && negb (Ascii.eqb c LF).

(** The loop over the header lines; every round consumes a line, so the length of the text is
    enough fuel. *)
Fixpoint content_length_lines (fuel : nat) (cursor : cstr) : result SqlError N :=
  match fuel with
  | O => Ok 0%N
  | S fuel =>
      match take_while in_line cursor with
      | [] => Ok 0%N
      | line =>
          let next := drop_while (λ c, negb (in_line c)) (drop_while in_line cursor) in
          match split_at ":" line with
          | Some (name, value) =>
              if server_ascii_case_equals name «"Content-Length"» then
                content_length_digits (drop_while is_blank_char value) 0 false
              else content_length_lines fuel next
          | None => content_length_lines fuel next
          end
      end
  end.

Definition server_parse_content_length (headers : cstr) : result SqlError N :=
  content_length_lines (S (length headers)) headers.

(** ** Reading *)

(** What a call of [recv] finds: bytes, the end of the stream, or an error. *)
Inductive recv_event :=
| Bytes (chunk : cstr)
| Interrupted
| TimedOut
| Failed.

Inductive ServerRequestReadStatus :=
| SERVER_REQUEST_READ_OK (buffer : cstr)
| SERVER_REQUEST_READ_EMPTY
| SERVER_REQUEST_READ_TOO_LARGE (e : SqlError)
| SERVER_REQUEST_READ_ERROR (e : SqlError).

(** The loop's variables. *)
Record ReadState := mkReadState {
  buffer : cstr;
  read_capacity : N;
  headers : option (N * N)   (** [header_length] and [content_length] once the headers are complete *)
}.

Definition buffer_length (s : ReadState) : N := N.of_nat (length (buffer s)).

Definition too_large : SqlError := sql_set_error 0 0 «"request exceeded the maximum supported size"».

Definition grow (cap : N) : N :=
  if (SERVER_REQUEST_MAX_CAPACITY <? cap * 2)%N then SERVER_REQUEST_MAX_CAPACITY else (cap * 2)%N.

(** The tests before [recv]: the size limit, and growing a full buffer. *)
Definition before_recv (s : ReadState) : result SqlError ReadState :=
  let oversized := match headers s with
                   | Some (h, n) => (SERVER_REQUEST_MAX_CAPACITY <? size_t (h + n))%N
                   | None => false
                   end in
  if oversized then Err too_large
  else if (buffer_length s =? read_capacity s)%N then
    if (SERVER_REQUEST_MAX_CAPACITY <=? read_capacity s)%N then Err too_large
    else Ok (mkReadState (buffer s) (grow (read_capacity s)) (headers s))
  else Ok s.

(** After new bytes arrived: look for the end of the headers. *)
Definition update_headers (s : ReadState) : result SqlError ReadState :=
  match headers s with
  | Some _ => Ok s
  | None =>
      match server_find_request_terminator (buffer s) with
      | None => Ok s
      | Some (i, n) =>
          len ← server_parse_content_length (take (i + n) (buffer s));
          Ok (mkReadState (buffer s) (read_capacity s) (Some (N.of_nat (i + n), len)))
      end
  end.

Definition request_complete (s : ReadState) : bool :=
  match headers s with Some (h, n) => (size_t (h + n) <=? buffer_length s)%N | None => false end.

(** The checks after the loop. *)
Definition finish_read (s : ReadState) : ServerRequestReadStatus :=
  if (buffer_length s =? 0)%N then SERVER_REQUEST_READ_EMPTY
  else match headers s with
       | None => SERVER_REQUEST_READ_ERROR (sql_set_error 0 0 «"HTTP request headers are incomplete"»)
       | Some _ =>
           if request_complete s then SERVER_REQUEST_READ_OK (buffer s)
           else SERVER_REQUEST_READ_ERROR (sql_set_error 0 0 «"HTTP request body is incomplete"»)
       end.

(** The receive loop.  A chunk that does not fit is delivered in parts.  [None] only when
    [fuel] runs out; the end of the event list is the end of the stream. *)
Fixpoint read_loop (fuel : nat) (s : ReadState) (events : list recv_event) : option ServerRequestReadStatus :=
  match fuel with
  | O => None
  | S fuel =>
      match before_recv s with
      | Err e => Some (SERVER_REQUEST_READ_TOO_LARGE e)
      | Ok s =>
          match events with
          | [] | Bytes [] :: _ => Some (finish_read s)
          | Interrupted :: events' => read_loop fuel s events'
          | TimedOut :: _ => Some (finish_read s)
          | Failed :: _ => Some (SERVER_REQUEST_READ_ERROR (sql_set_error 0 0 «"failed to receive request bytes"»))
          | Bytes chunk :: events' =>
              let room := N.to_nat (read_capacity s - buffer_length s) in
              match update_headers (mkReadState (buffer s ++ take room chunk) (read_capacity s) (headers s)) with
              | Err e => Some (SERVER_REQUEST_READ_ERROR e)
              | Ok s' =>
                  if request_complete s' then Some (finish_read s')
                  else
                    let rest := match drop room chunk with [] => events' | remaining => Bytes remaining :: events' end in
                    read_loop fuel s' rest
              end
          end
      end
  end.

(** Bytes and events left. *)
Definition event_size (e : recv_event) : nat := match e with Bytes c => S (length c) | _ => 1 end.
Definition events_size (es : list recv_event) : nat := sum_list_with event_size es.

Definition server_socket_read_request (events : list recv_event) : option ServerRequestReadStatus :=
  read_loop (S (events_size events)) (mkReadState [] SERVER_REQUEST_INITIAL_CAPACITY None) events.

(** ** Writing *)

(** The results of successive [send] calls: bytes accepted, interrupted, or closed. *)
Inductive send_event := Sent (n : nat) | SendInterrupted | SendFailed.

(** The bytes that reached the peer, whether all did, and the results of later calls. *)
Fixpoint server_socket_write_all (text : cstr) (events : list send_event) : cstr * bool * list send_event :=
  match text, events with
  | [], _ => ([], true, events)
  | _, [] => ([], false, [])
  | _, SendInterrupted :: events' => server_socket_write_all text events'
  | _, SendFailed :: events' | _, Sent 0 :: events' => ([], false, events')
  | _, Sent n :: events' =>
      let '(out, done, rest) := server_socket_write_all (drop n text) events' in (take n text ++ out, done, rest)
  end.

(** ** Specification *)

(** All bytes the peer sends. *)
Definition stream (es : list recv_event) : cstr :=
  concat (map (λ e, match e with Bytes c => c | _ => [] end) es).

(** A state of the receive loop after [received] arrived. *)
Record read_ok (s : ReadState) : Prop := {
  read_in_capacity : (buffer_length s <= read_capacity s)%N;
  read_capacity_max : (0 < read_capacity s <= SERVER_REQUEST_MAX_CAPACITY)%N;
  read_headers : ∀ h n, headers s = Some (h, n) →
    ∃ i k, server_find_request_terminator (take (N.to_nat h) (buffer s)) = Some (i, k) ∧ h = N.of_nat (i + k) ∧
      (h <= buffer_length s)%N ∧ server_parse_content_length (take (i + k) (buffer s)) = Ok n
}.

(** ** Lemmas: sending *)

(** What arrives is a prefix of the text, all of it when the call reports success. *)
Lemma write_all_prefix text events out ok rest :
  server_socket_write_all text events = (out, ok, rest) → out `prefix_of` text ∧ (ok = true → out = text).
Proof.
  revert text out ok rest. induction events as [|e events IH]; intros [|c text] out ok rest; cbn [server_socket_write_all];
    [by intros [= <- <- <-]|intros [= <- <- <-]; split; [by eexists|done]|by intros [= <- <- <-]|].
  destruct e as [[|n]| |]; [intros [= <- <- <-]; split; [by eexists|done]| |by apply IH|intros [= <- <- <-]; split; [by eexists|done]].
  destruct (server_socket_write_all (drop (S n) (c :: text)) events) as [[out' ok'] rest'] eqn:Hw.
  intros [= <- <- <-]. apply IH in Hw as [[t Ht] Hall]. split.
  - exists t. assert (Heq : c :: text = (take (S n) (c :: text) ++ out') ++ t); [|exact Heq].
    by rewrite <- app_assoc, <- Ht, take_drop.
  - intros Hok. assert (Heq : take (S n) (c :: text) ++ out' = c :: text); [|exact Heq].
    by rewrite Hall, take_drop.
Qed.

(** ** Lemmas: the end of the headers *)

#[local] Arguments starts_with : simpl never.

Lemma terminator_strstr b :
  server_find_request_terminator b =
    let crlf := strstr b (CRLF ++ CRLF) in
    let lf := strstr b [LF; LF] in
    if earlier crlf lf then (λ i, (i, 4%nat)) <$> crlf else (λ i, (i, 2%nat)) <$> lf.
Proof.
  change (CRLF ++ CRLF) with [CR; LF; CR; LF]. induction b as [|c b IH]; [done|].
  cbn [server_find_request_terminator]. destruct (starts_with [LF; LF] (c :: b)) eqn:Hlf.
  - rewrite (strstr_hit _ [LF; LF]) by done. rewrite strstr_miss.
    + cbv zeta. destruct (strstr b [CR; LF; CR; LF]); done.
    + unfold starts_with in *. apply andb_true_iff in Hlf as [Hc _]. apply ascii_eqb_eq in Hc as <-. done.
  - destruct (starts_with [CR; LF; CR; LF] (c :: b)) eqn:Hcrlf.
    + rewrite (strstr_hit _ [CR; LF; CR; LF]) by done. rewrite strstr_miss by done. cbv zeta.
      by destruct (strstr b [LF; LF]).
    + rewrite !strstr_miss by done. rewrite IH. cbv zeta.
      destruct (strstr b [CR; LF; CR; LF]) as [i|], (strstr b [LF; LF]) as [j|]; simpl; try done.
      change (Nat.ltb (S i) (S j)) with (Nat.ltb i j). by destruct (Nat.ltb i j).
Qed.

(** The body the HTTP parser takes starts after the terminator. *)
Lemma body_start_terminator b :
  find_body_start b = (λ '(i, k), drop (i + k) b) <$> server_find_request_terminator b.
Proof.
  rewrite terminator_strstr. unfold find_body_start. cbv zeta.
  destruct (earlier _ _); [by destruct (strstr b (CRLF ++ CRLF))|by destruct (strstr b [LF; LF])].
Qed.

(** A terminator lies inside the text, and text after it does not matter. *)
Lemma terminator_bounds b i k :
  server_find_request_terminator b = Some (i, k) → (i + k <= length b)%nat ∧ (k = 2 ∨ k = 4)%nat.
Proof.
  revert i. induction b as [|c b IH]; intros i; cbn [server_find_request_terminator]; [done|].
  assert (Hlen : ∀ pat s, starts_with pat s = true → (length pat <= length s)%nat).
  { induction pat as [|p pat IHp]; intros [|x s] Hs; cbn in *; [lia|lia|done|].
    apply andb_true_iff in Hs as [_ Hs]. apply IHp in Hs. lia. }
  destruct (starts_with [LF; LF] (c :: b)) eqn:H2; [intros [= <- <-]; split; [by apply (Hlen [LF; LF])|lia]|].
  destruct (starts_with [CR; LF; CR; LF] (c :: b)) eqn:H4; [intros [= <- <-]; split; [by apply (Hlen [CR; LF; CR; LF])|lia]|].
  destruct (server_find_request_terminator b) as [[j k']|]; [|done]. intros [= <- <-].
  destruct (IH j eq_refl). simpl. lia.
Qed.

Lemma starts_with_prefix pat s t : starts_with pat s = true → starts_with pat (s ++ t) = true.
Proof.
  revert s. induction pat as [|p pat IH]; intros s; [done|]. destruct s as [|c s]; [done|].
  cbn [app]. unfold starts_with; fold starts_with. intros [Hc Hs]%andb_true_iff. by rewrite Hc, IH.
Qed.

Lemma terminator_take b i k :
  server_find_request_terminator b = Some (i, k) →
  server_find_request_terminator (take (i + k) b) = Some (i, k).
Proof.
  revert i. induction b as [|c b IH]; intros i; cbn [server_find_request_terminator]; [done|].
  destruct (starts_with [LF; LF] (c :: b)) eqn:H2.
  { intros [= <- <-]. destruct b as [|d b]; [by unfold starts_with in H2; rewrite andb_false_r in H2|].
    unfold starts_with in H2. rewrite andb_true_r in H2. apply andb_true_iff in H2 as [Hc Hd].
    apply ascii_eqb_eq in Hc as <-. apply ascii_eqb_eq in Hd as <-. done. }
  destruct (starts_with [CR; LF; CR; LF] (c :: b)) eqn:H4.
  { intros [= <- <-]. destruct b as [|d [|e [|f b]]]; unfold starts_with in H4; rewrite ?andb_false_r in H4; try done.
    rewrite andb_true_r in H4. breflect.
    repeat match goal with H : Ascii.eqb _ _ = true |- _ => apply ascii_eqb_eq in H as <- end. done. }
  destruct (server_find_request_terminator b) as [[j k']|] eqn:Hb; [|done]. intros [= <- <-].
  cbn [Nat.add take server_find_request_terminator].
  assert (Hno : ∀ pat, starts_with pat (c :: b) = false → starts_with pat (c :: take (j + k') b) = false).
  { intros pat Hp. destruct (starts_with pat (c :: take (j + k') b)) eqn:Ht; [|done].
    apply (starts_with_prefix _ _ (drop (j + k') b)) in Ht. cbn [app] in Ht. rewrite take_drop in Ht. congruence. }
  rewrite !Hno by done. by rewrite (IH j eq_refl).
Qed.

(** ** Lemmas: the receive loop *)

Lemma before_recv_ok s s' :
  read_ok s → before_recv s = Ok s' →
  read_ok s' ∧ buffer s' = buffer s ∧ headers s' = headers s ∧ (buffer_length s' < read_capacity s')%N.
Proof.
  intros [Hl Hc Hh]. unfold before_recv. case_match; [done|].
  destruct (N.eqb_spec (buffer_length s) (read_capacity s)) as [Heq|Hne].
  - destruct (N.leb_spec SERVER_REQUEST_MAX_CAPACITY (read_capacity s)); [done|]. intros [= <-].
    assert (Hg : (read_capacity s < grow (read_capacity s) <= SERVER_REQUEST_MAX_CAPACITY)%N).
    { unfold grow. destruct (N.ltb_spec SERVER_REQUEST_MAX_CAPACITY (read_capacity s * 2)); lia. }
    split; [|split_and!; [done|done|unfold buffer_length in *; simpl in *; lia]].
    constructor; [unfold buffer_length in *; simpl in *; lia|simpl; lia|done].
  - intros [= <-]. split_and!; [done..|lia].
Qed.

Lemma extend_ok s t :
  read_ok s → (N.of_nat (length (buffer s ++ t)) <= read_capacity s)%N →
  read_ok (mkReadState (buffer s ++ t) (read_capacity s) (headers s)).
Proof.
  intros [Hl Hc Hh] Ht. constructor; [done|done|]. simpl. intros h n Hs.
  destruct (Hh h n Hs) as (i & k & Hf & -> & Hle & Hp). exists i, k. unfold buffer_length in *. simpl.
  rewrite Nat2N.id in *. rewrite !take_app_le by lia. split_and!; [done|done|rewrite length_app; lia|done].
Qed.

Lemma update_headers_ok s s' :
  read_ok s → update_headers s = Ok s' → read_ok s' ∧ buffer s' = buffer s ∧ read_capacity s' = read_capacity s.
Proof.
  intros Hok. pose proof Hok as [Hl Hc Hh]. unfold update_headers. destruct (headers s) as [[h n]|] eqn:Hs.
  { intros [= <-]. done. }
  destruct (server_find_request_terminator (buffer s)) as [[i k]|] eqn:Hf; [|by intros [= <-]].
  destruct (server_parse_content_length (take (i + k) (buffer s))) as [len|] eqn:Hp; simpl; [|done].
  intros [= <-]. split; [|done]. constructor; simpl; [done|done|]. intros h n [= <- <-].
  pose proof (terminator_bounds _ _ _ Hf) as [Hle _]. exists i, k. rewrite Nat2N.id.
  split_and!; [by apply terminator_take|done|unfold buffer_length; simpl; lia|done].
Qed.

(** What a successful read returns. *)
Definition complete_request (total buf : cstr) : Prop :=
  (N.of_nat (length buf) <= SERVER_REQUEST_MAX_CAPACITY)%N ∧ buf `prefix_of` total ∧
  ∃ i k n, server_find_request_terminator (take (i + k) buf) = Some (i, k) ∧
    server_parse_content_length (take (i + k) buf) = Ok n ∧ (i + k <= length buf)%nat ∧
    (size_t (N.of_nat (i + k) + n) <= N.of_nat (length buf))%N.

Lemma finish_read_ok s total buf :
  read_ok s → buffer s `prefix_of` total → finish_read s = SERVER_REQUEST_READ_OK buf → complete_request total buf.
Proof.
  intros [Hl Hc Hh] Hp. unfold finish_read. case_match; [done|]. destruct (headers s) as [[h n]|] eqn:Hs; [|done].
  destruct (request_complete s) eqn:Hcmp; [|done]. intros [= <-].
  destruct (Hh h n eq_refl) as (i & k & Hf & -> & Hle & Hlen). rewrite Nat2N.id in Hf.
  unfold request_complete in Hcmp. rewrite Hs in Hcmp. apply N.leb_le in Hcmp. unfold buffer_length in *.
  split; [lia|]. split; [done|]. exists i, k, n. split_and!; [done|done|lia|done].
Qed.

Lemma read_loop_ok fuel s events total buf :
  read_ok s → buffer s ++ stream events = total →
  read_loop fuel s events = Some (SERVER_REQUEST_READ_OK buf) → complete_request total buf.
Proof.
  revert s events. induction fuel as [|fuel IH]; intros s events Hok Htot; cbn [read_loop]; [done|].
  destruct (before_recv s) as [s1|] eqn:Hb; [|done]. apply before_recv_ok in Hb as (Hok1 & Hb1 & Hh1 & Hroom); [|done].
  rewrite <- Hb1 in Htot. clear Hok Hb1 Hh1 s. subst total.
  destruct events as [|[chunk| | |] events]; [| | |intros [= Hfin]; eapply finish_read_ok; [done|by eexists|done]|done].
  - intros [= Hfin]. eapply finish_read_ok; [done|by eexists|done].
  - destruct chunk as [|c chunk]; [intros [= Hfin]; eapply finish_read_ok; [done|by eexists|done]|].
    set (room := N.to_nat (read_capacity s1 - buffer_length s1)).
    assert (Hext : read_ok (mkReadState (buffer s1 ++ take room (c :: chunk)) (read_capacity s1) (headers s1))).
    { apply extend_ok; [done|]. rewrite length_app, length_take. unfold room, buffer_length in *. lia. }
    destruct (update_headers _) as [s2|] eqn:Hu; [|done].
    apply update_headers_ok in Hu as (Hok2 & Hbuf & _); [|done]. simpl in Hbuf.
    assert (Htotal : buffer s1 ++ stream (Bytes (c :: chunk) :: events) =
      buffer s2 ++ stream (match drop room (c :: chunk) with [] => events | remaining => Bytes remaining :: events end)).
    { rewrite Hbuf. unfold stream at 1. cbn [map concat]. fold (stream events).
      rewrite <- (take_drop room (c :: chunk)) at 1. rewrite <- !app_assoc.
      by destruct (drop room (c :: chunk)). }
    destruct (request_complete s2).
    + intros [= Hfin]. eapply finish_read_ok; [done|by rewrite Htotal; eexists|done].
    + by apply IH.
  - by apply IH.
Qed.

Lemma read_loop_total fuel s events :
  read_ok s → (events_size events < fuel)%nat → is_Some (read_loop fuel s events).
Proof.
  revert s events. induction fuel as [|fuel IH]; intros s events Hok Hf; [lia|]. cbn [read_loop].
  destruct (before_recv s) as [s1|] eqn:Hb; [|done]. apply before_recv_ok in Hb as (Hok1 & _ & _ & Hroom); [|done].
  destruct events as [|[chunk| | |] events]; [done| | |done|done].
  - destruct chunk as [|c chunk]; [done|]. set (room := N.to_nat (read_capacity s1 - buffer_length s1)).
    assert (Hext : read_ok (mkReadState (buffer s1 ++ take room (c :: chunk)) (read_capacity s1) (headers s1))).
    { apply extend_ok; [done|]. rewrite length_app, length_take. unfold room, buffer_length in *. lia. }
    destruct (update_headers _) as [s2|] eqn:Hu; [|done].
    apply update_headers_ok in Hu as (Hok2 & _); [|done]. destruct (request_complete s2); [done|].
    apply IH; [done|]. unfold events_size in *. pose proof (length_drop (c :: chunk) room) as Hd.
    assert (0 < room)%nat by (unfold room; lia).
    destruct (drop room (c :: chunk)) as [|d l]; simpl in *; lia.
  - apply IH; [done|]. unfold events_size in *. simpl in *. lia.
Qed.

(** ** Lemmas: a complete request, however it is cut into chunks *)

Lemma starts_with_length pat s : starts_with pat s = true → (length pat <= length s)%nat.
Proof.
  revert s. induction pat as [|p pat IH]; intros [|c s] Hs; cbn in *; [lia|lia|done|].
  apply andb_true_iff in Hs as [_ Hs]. apply IH in Hs. lia.
Qed.

Lemma starts_with_app_short pat s t :
  starts_with pat s = false → starts_with pat (s ++ t) = true → (length s < length pat)%nat.
Proof.
  revert s. induction pat as [|p pat IH]; intros [|c s]; cbn [app]; [done|done|simpl; lia|].
  unfold starts_with; fold starts_with. intros Hf [Hc Ht]%andb_true_iff. rewrite Hc in Hf. simpl in *.
  specialize (IH s Hf Ht). lia.
Qed.

(** Text after the first empty line does not matter. *)
Lemma terminator_app b t i k :
  server_find_request_terminator b = Some (i, k) → server_find_request_terminator (b ++ t) = Some (i, k).
Proof.
  revert i. induction b as [|c b IH]; intros i; cbn [server_find_request_terminator app]; [done|].
  destruct (starts_with [LF; LF] (c :: b)) eqn:H2.
  { apply (starts_with_prefix _ _ t) in H2. cbn [app] in H2. by rewrite H2. }
  destruct (starts_with [CR; LF; CR; LF] (c :: b)) eqn:H4.
  { intros [= <- <-]. pose proof (starts_with_length _ _ H4). apply (starts_with_prefix _ _ t) in H4.
    cbn [app] in H4. rewrite H4. destruct (starts_with [LF; LF] (c :: b ++ t)) eqn:H2'; [|done].
    apply (starts_with_app_short _ (c :: b)) in H2'; [|done]. simpl in *. lia. }
  destruct (server_find_request_terminator b) as [[j k']|] eqn:Hb; [|done]. intros [= <- <-].
  pose proof (terminator_bounds b j k' Hb) as [Hlen Hk].
  destruct (starts_with [LF; LF] (c :: b ++ t)) eqn:H2'.
  { apply (starts_with_app_short _ (c :: b)) in H2'; [|done]. simpl in *. lia. }
  destruct (starts_with [CR; LF; CR; LF] (c :: b ++ t)) eqn:H4'; [|by rewrite (IH j eq_refl)].
  pose proof (starts_with_app_short _ (c :: b) t H4 H4') as Hshort. simpl in Hshort.
  destruct b as [|d [|e [|f b]]]; simpl in *; try lia. unfold starts_with in *. breflect.
  repeat match goal with H : Ascii.eqb _ _ = true |- _ => apply ascii_eqb_eq in H as <- end. done.
Qed.

(** Events that only deliver bytes, possibly interrupted. *)
Definition delivers (e : recv_event) : Prop := match e with Bytes c => c ≠ [] | Interrupted => True | _ => False end.

(** A text that is exactly one request: its headers, and as many bytes as they announce. *)
Definition exact_request (total : cstr) (i k : nat) (n : N) : Prop :=
  server_find_request_terminator total = Some (i, k) ∧
  server_parse_content_length (take (i + k) total) = Ok n ∧
  (N.of_nat (i + k) + n = N.of_nat (length total))%N ∧
  (N.of_nat (length total) <= SERVER_REQUEST_MAX_CAPACITY)%N.

Section Exact.
Context (total : cstr) (i k : nat) (n : N) (Hexact : exact_request total i k n).

(** The headers variable after the bytes [b]. *)
Definition seen_headers (b : cstr) : option (N * N) :=
  if Nat.leb (i + k) (length b) then Some (N.of_nat (i + k), n) else None.

Lemma prefix_terminator b t :
  b ++ t = total →
  server_find_request_terminator b = if Nat.leb (i + k) (length b) then Some (i, k) else None.
Proof using Hexact.
  destruct Hexact as (Hf & _). intros Htot. destruct (Nat.leb_spec (i + k) (length b)) as [Hle|Hgt].
  - apply terminator_take in Hf. rewrite <- Htot, take_app_le in Hf by lia.
    apply (terminator_app _ (drop (i + k) b)) in Hf. by rewrite take_drop in Hf.
  - destruct (server_find_request_terminator b) as [[j k']|] eqn:Hb; [|done].
    pose proof (terminator_bounds _ _ _ Hb). apply (terminator_app _ t) in Hb.
    rewrite Htot, Hf in Hb. simplify_eq. lia.
Qed.

Lemma size_t_exact : size_t (N.of_nat (i + k) + n) = N.of_nat (length total).
Proof using Hexact.
  destruct Hexact as (_ & _ & Hn & Hmax). rewrite Hn. unfold size_t. apply N.mod_small.
  unfold SERVER_REQUEST_MAX_CAPACITY, SIZE_MAX in *. lia.
Qed.

Lemma exact_before_recv s :
  read_ok s → headers s = seen_headers (buffer s) → (length (buffer s) < length total)%nat →
  ∃ s', before_recv s = Ok s' ∧ read_ok s' ∧ buffer s' = buffer s ∧ headers s' = headers s ∧
        (buffer_length s' < read_capacity s')%N.
Proof using Hexact.
  intros Hok Hh Hlt. destruct Hexact as (_ & _ & _ & Hmax). pose proof Hok as [Hl Hc _].
  assert (Hover : match headers s with Some (h, m) => (SERVER_REQUEST_MAX_CAPACITY <? size_t (h + m))%N | None => false end = false).
  { rewrite Hh. unfold seen_headers. destruct (Nat.leb _ _); [|done]. rewrite size_t_exact. by apply N.ltb_ge. }
  destruct (before_recv s) as [s'|e] eqn:Hb; [exists s'; split; [done|by apply before_recv_ok]|].
  exfalso. revert Hb. unfold before_recv. rewrite Hover. unfold buffer_length.
  destruct (N.eqb_spec (N.of_nat (length (buffer s))) (read_capacity s)); [|done].
  destruct (N.leb_spec SERVER_REQUEST_MAX_CAPACITY (read_capacity s)); [lia|done].
Qed.

Lemma exact_update s b t :
  headers s = seen_headers (buffer s) → buffer s `prefix_of` b → b ++ t = total →
  update_headers (mkReadState b (read_capacity s) (headers s)) = Ok (mkReadState b (read_capacity s) (seen_headers b)).
Proof using Hexact.
  intros Hh [c ->] Htot. unfold update_headers. simpl. rewrite Hh. unfold seen_headers.
  destruct (Nat.leb_spec (i + k) (length (buffer s))) as [Hle|Hgt].
  - rewrite (proj2 (Nat.leb_le _ (length (buffer s ++ c)))); [done|]. rewrite length_app. lia.
  - rewrite (prefix_terminator _ t Htot).
    destruct (Nat.leb_spec (i + k) (length (buffer s ++ c))) as [Hle|_]; [|done].
    destruct Hexact as (_ & Hp & _). rewrite <- Htot, take_app_le in Hp by done. by rewrite Hp.
Qed.

Lemma exact_complete b t cap :
  b ++ t = total → request_complete (mkReadState b cap (seen_headers b)) = bool_decide (b = total).
Proof using Hexact.
  intros Htot. pose proof size_t_exact as Hsize. destruct Hexact as (Hf & _ & Hn & _).
  pose proof (f_equal length Htot) as Hlen. rewrite length_app in Hlen.
  unfold request_complete, seen_headers, buffer_length. simpl. case_bool_decide as Hb.
  - subst b. rewrite (proj2 (Nat.leb_le _ _)) by (apply terminator_bounds in Hf; lia).
    rewrite Hsize. apply N.leb_refl.
  - destruct (Nat.leb _ _); [|done]. rewrite Hsize. apply N.leb_gt.
    destruct t; [by rewrite app_nil_r in Htot|]. simpl in *. lia.
Qed.

Lemma read_loop_exact fuel s events more :
  read_ok s → buffer s ++ stream events = total → headers s = seen_headers (buffer s) →
  (length (buffer s) < length total)%nat → Forall delivers events → (events_size (events ++ more) < fuel)%nat →
  read_loop fuel s (events ++ more) = Some (SERVER_REQUEST_READ_OK total).
Proof using Hexact.
  revert s events. induction fuel as [|fuel IH]; intros s events Hok Htot Hh Hlt Hev Hfuel; [lia|]. cbn [read_loop].
  destruct (exact_before_recv s Hok Hh Hlt) as (s1 & -> & Hok1 & Hb1 & Hh1 & Hroom).
  rewrite Hh, <- Hb1 in Hh1. rewrite <- Hb1 in Htot, Hlt. clear Hok Hh Hb1 s.
  destruct Hev as [|[chunk| | |] events Hd Hev]; cbn [app]; [|simpl in Hd|by apply IH; [..|unfold events_size in *; simpl in *; lia]|done|done].
  { unfold stream in Htot. simpl in Htot. rewrite app_nil_r in Htot. rewrite Htot in Hlt. lia. }
  destruct chunk as [|c chunk]; [done|]. set (room := N.to_nat (read_capacity s1 - buffer_length s1)).
  set (rest := match drop room (c :: chunk) with [] => events | remaining => Bytes remaining :: events end).
  assert (Hmore : match drop room (c :: chunk) with [] => events ++ more | remaining => Bytes remaining :: events ++ more end = rest ++ more)
    by (unfold rest; by destruct (drop room (c :: chunk))).
  rewrite Hmore. clear Hmore.
  assert (Hrest : (buffer s1 ++ take room (c :: chunk)) ++ stream rest = total).
  { rewrite <- Htot, <- app_assoc. f_equal. unfold rest, stream. cbn [map concat].
    rewrite <- (take_drop room (c :: chunk)) at 3. rewrite <- app_assoc. f_equal. by destruct (drop room (c :: chunk)). }
  rewrite (exact_update s1 _ (stream rest)) by (done || by eexists).
  rewrite (exact_complete _ (stream rest)) by done.
  assert (Hext : read_ok (mkReadState (buffer s1 ++ take room (c :: chunk)) (read_capacity s1) (seen_headers (buffer s1 ++ take room (c :: chunk))))).
  { eapply (update_headers_ok (mkReadState _ (read_capacity s1) (headers s1))); [|by apply (exact_update s1 _ (stream rest)); [|by eexists|]].
    apply extend_ok; [done|]. rewrite length_app, length_take. unfold room, buffer_length in *. lia. }
  case_bool_decide as Hdone.
  - rewrite Hdone in *. f_equal. unfold finish_read, buffer_length. simpl.
    destruct (N.eqb_spec (N.of_nat (length total)) 0); [lia|].
    pose proof (exact_complete total [] (read_capacity s1) (app_nil_r _)) as Hc. rewrite bool_decide_eq_true_2 in Hc by done.
    rewrite Hc. unfold seen_headers. rewrite (proj2 (Nat.leb_le _ _)); [done|].
    destruct Hexact as (Hf & _). by apply terminator_bounds in Hf as [? _].
  - assert (Hroom' : (0 < room)%nat) by (unfold room, buffer_length in *; lia).
    apply IH; [done|done|done| | |]; simpl.
    + pose proof (f_equal length Hrest) as Hl. rewrite length_app in Hl.
      destruct (stream rest) eqn:Hs; [by rewrite app_nil_r in Hrest|]. simpl in Hl. lia.
    + unfold rest. destruct (drop room (c :: chunk)) eqn:Hdr; [done|]. by apply Forall_cons.
    + unfold rest, events_size in *. pose proof (length_drop (c :: chunk) room) as Hl.
      destruct (drop room (c :: chunk)); simpl in *; lia.
Qed.

End Exact.

Lemma initial_read_ok : read_ok (mkReadState [] SERVER_REQUEST_INITIAL_CAPACITY None).
Proof. constructor; simpl; [apply N.leb_le; reflexivity|split; [apply N.ltb_lt|apply N.leb_le]; reflexivity|done]. Qed.

Lemma read_request_exact total i k n events more :
  exact_request total i k n → Forall delivers events → stream events = total →
  server_socket_read_request (events ++ more) = Some (SERVER_REQUEST_READ_OK total).
Proof.
  intros Hexact Hev Htot. pose proof Hexact as (Hf & _). apply terminator_bounds in Hf as [Hle Hk].
  unfold server_socket_read_request. apply (read_loop_exact total i k n); [done|apply initial_read_ok|done| | |done|lia]; simpl.
  - unfold seen_headers. simpl. destruct (i + k)%nat eqn:E; [lia|done].
  - lia.
Qed.

(** ** Properties *)

(** The two components agree on where a request's headers end: for every text, the body
    that the HTTP parser takes starts exactly where the socket reader's scan says that the
    headers end, although one uses two [strstr] searches and the other one pass over the
    bytes.  (A text is a C string: a request with a NUL byte is cut there by the parser.) *)
Theorem header_end_agrees b :
  find_body_start b = (λ '(i, k), drop (i + k) b) <$> server_find_request_terminator b.
Proof. apply body_start_terminator. Qed.

(** C36. Reading a request terminates and stays in bounds, however the bytes are split over
    [recv] calls and whatever interruptions occur: the loop always reaches a result; when it
    reports success the bytes are a prefix of what the peer sent, at most 65536, they contain a
    complete header block, and they reach at least to [header_length + content_length] as
    computed in [size_t]. *)
Theorem read_request_correct events :
  ∃ r, server_socket_read_request events = Some r ∧
    ∀ buf, r = SERVER_REQUEST_READ_OK buf → complete_request (stream events) buf.
Proof.
  pose proof initial_read_ok as Hok.
  unfold server_socket_read_request.
  destruct (read_loop_total (S (events_size events)) _ events Hok) as [r Hr]; [lia|].
  exists r. split; [done|]. intros buf ->. eapply read_loop_ok; [exact Hok|reflexivity|exact Hr].
Qed.

(** C37. A complete request is read whatever way it is cut into packets.  When the peer sends a
    text that is exactly one request, headers and as many body bytes as they announce, of at
    most 65536 bytes, then for every way the kernel may deliver it, in chunks of any size and
    with any interruptions, of which the last ends with the text, and whatever [recv] would
    return after it, the reader returns exactly that text, without waiting for the connection to
    be closed. *)
Theorem read_request_any_chunking total i k n events more :
  exact_request total i k n → Forall delivers events → stream events = total →
  server_socket_read_request (events ++ more) = Some (SERVER_REQUEST_READ_OK total).
Proof. apply read_request_exact. Qed.

Definition small_post : cstr :=
  «"POST /query HTTP/1.1"» ++ CRLF ++ «"content-length: 5"» ++ CRLF ++ CRLF ++ «"hello"».

Lemma read_request_any_chunking_witness :
  server_socket_read_request
    ([Bytes (take 7 small_post); Interrupted; Bytes (take 35 (drop 7 small_post)); Bytes (drop 42 small_post)] ++ [Failed])
  = Some (SERVER_REQUEST_READ_OK small_post).
Proof.
  apply (read_request_any_chunking small_post 39 4 5).
  - split_and!; [vm_compute; reflexivity|vm_compute; reflexivity|vm_compute; reflexivity|].
    apply N.leb_le. vm_compute. reflexivity.
  - repeat constructor; vm_compute; discriminate.
  - vm_compute. reflexivity.
Defined.

(** The size test can be bypassed: a Content-Length of 2^64 - 1 makes [header_length +
    content_length] wrap around, and the request is accepted as complete without a body. *)
Theorem content_length_wraps :
  ∃ buf, server_parse_content_length («"POST /query HTTP/1.1"» ++ CRLF ++ «"Content-Length: 18446744073709551615"» ++ CRLF ++ CRLF)
           = Ok SIZE_MAX ∧
    server_socket_read_request [Bytes («"POST /query HTTP/1.1"» ++ CRLF ++ «"Content-Length: 18446744073709551615"» ++ CRLF ++ CRLF)]
      = Some (SERVER_REQUEST_READ_OK buf).
Proof. eexists. split; vm_compute; reflexivity. Qed.
