(* ===== verification/Server.v ===== *)
(** * [src/src/server/api/socket_server.c]: answering a request

    [server_socket_process_request] ties the layers together: the raw request is parsed,
    handled, serialized and written to the socket. *)

From stdpp Require Import base list strings sets gmap.
From Stdlib Require Import Ascii.
From S2P Require Import Prelude CString Common Parser Index BPTree Schema Json Storage DbContext Executor SqlService HttpProtocol RequestHandler SocketServer.

Definition PLAIN_HEADER_SIZE : nat := 256.

Definition plain_header (status : cstr) (len : N) : cstr :=
  «"HTTP/1.1 "» ++ status ++ CRLF ++ «"Content-Type: text/plain; charset=utf-8"» ++ CRLF ++
  «"Content-Length: "» ++ show_N len ++ CRLF ++ «"Connection: close"» ++ CRLF ++ CRLF.

(** The bytes that reached the peer, whether the response was sent, and the later [send] results.
    A header that does not fit its buffer is not sent. *)
Definition server_socket_send_plain_response (status b : cstr) (events : list send_event)
    : cstr * bool * list send_event :=
  let header := plain_header status (N.of_nat (length b)) in
  if Nat.leb PLAIN_HEADER_SIZE (length header) then ([], false, events)
  else
    match server_socket_write_all header events with
    | (out, false, events') => (out, false, events')
    | (out, true, events') =>
        let '(out', ok, rest) := server_socket_write_all b events' in (out ++ out', ok, rest)
    end.

(** What is to be sent for a request. *)
Inductive Reply :=
| Plain (status b : cstr)        (** a text/plain response *)
| Serialized (text : cstr).      (** the serialized response *)

(** [error->message[0] != '\0' ? error->message : text] *)
Definition message_or (m text : cstr) : cstr := match m with [] => text | _ => m end.

Section Server.
Context `{RowIndex Idx}.

(** What [server_socket_process_request] decides to send, the message left in [error], the
    context and the files. *)
Definition server_reply (w : World) (ctx : DbContext Idx) (raw_request : cstr) : Reply * cstr * DbContext Idx * World :=
  match http_parse_request raw_request with
  | Err e =>
      (Plain «"400 Bad Request"» (message_or (message e) («"failed to parse HTTP request"» ++ [LF])), message e, ctx, w)
  | Ok r =>
      match request_handler_handle w ctx r with
      | (Err e, _, ctx', w') =>
          (Plain «"500 Internal Server Error"» (message_or (message e) («"failed to handle HTTP request"» ++ [LF])),
           message e, ctx', w')
      | (Ok response, _, ctx', w') =>
          match http_serialize_response response with
          | Err e =>
              (Plain «"500 Internal Server Error"» (message_or (message e) («"failed to serialize HTTP response"» ++ [LF])),
               message e, ctx', w')
          | Ok serialized => (Serialized (c_string serialized), [], ctx', w')
          end
      end
  end.

Definition send_reply (r : Reply) (events : list send_event) : cstr * bool * list send_event :=
  match r with
  | Plain status b => server_socket_send_plain_response status b events
  | Serialized text => server_socket_write_all text events
  end.

(** The bytes sent, the result, the later [send] results and [error->message]; the context and
    the files. *)
Definition server_socket_process_request (w : World) (ctx : DbContext Idx) (raw_request : cstr) (events : list send_event)
    : cstr * bool * list send_event * cstr * DbContext Idx * World :=
  let '(reply, m, ctx', w') := server_reply w ctx raw_request in
  (send_reply reply events, m, ctx', w').

(** What the worker's callback sends after a reply that could not be sent. *)
Definition failure_body (m : cstr) : cstr := message_or m («"request processing failed"» ++ [LF]).

(** The worker's callback: everything it writes to the client. *)
Definition server_socket_execute_request_job (w : World) (ctx : DbContext Idx) (raw_request : cstr) (events : list send_event)
    : cstr * DbContext Idx * World :=
  match server_socket_process_request w ctx raw_request events with
  | (out, true, _, _, ctx', w') => (out, ctx', w')
  | (out, false, events', m, ctx', w') =>
      let '(out', _, _) := server_socket_send_plain_response «"500 Internal Server Error"» (failure_body m) events' in
      (out ++ out', ctx', w')
  end.

(** The sends of the callback, for a reply and the message left in [error]. *)
Definition write_answer (a : Reply * cstr) (events : list send_event) : cstr :=
  match send_reply a.1 events with
  | (out, true, _) => out
  | (out, false, events') =>
      out ++ (server_socket_send_plain_response «"500 Internal Server Error"» (failure_body a.2) events').1.1
  end.

End Server.

(** ** Lemmas *)

Lemma handle_sql `{RowIndex Idx} w (ctx : DbContext Idx) p sql q res ctx' w' pay :
  Ascii.eqb (peek p) "/" = true → parse_sql_text sql = Ok q →
  sql_service_execute w ctx sql = (res, ctx', w') → payload res = Some pay →
  request_handler_handle w ctx (mkHttpRequest «"POST"» p (Some sql)) =
    (Ok (set_json_response (if ok res then 200 else 400) pay),
     match query_type q with QUERY_INSERT => WriteLocked | QUERY_SELECT => ReadLocked end, ctx', w').
Proof.
  intros Hp Hq He Hpay. unfold request_handler_handle. cbn [method path body].
  rewrite bool_decide_eq_true_2 by done. rewrite Hp. cbn [negb].
  pose proof (parse_sql_text_sound sql q Hq) as Hs. destruct (statement_nonblank sql q Hs) as [Htok _].
  assert (Hb : Nat.eqb (length sql) 0 || is_blank_text sql = false).
  { apply orb_false_iff. split; [by destruct sql|]. unfold is_blank_text.
    clear -Htok. induction sql as [|c sql IH]; [done|]. cbn [tokenize_sql forallb] in *.
    case_match; [done|]. destruct (isspace c); [by apply IH|done]. }
  rewrite Hb, (classify_statement sql q Hs). unfold run_sql, execute_sql_work. rewrite He, Hpay. by destruct (query_type q).
Qed.

(** The serialized JSON response: its status line, its body and no NUL in it. *)
Lemma serialize_json status pay :
  NUL ∉ pay →
  ∃ rest, http_serialize_response (set_json_response status pay) =
      Ok ((«"HTTP/1.1 "» ++ show_int status ++ «" "» ++ http_reason_phrase status) ++ CRLF ++ rest) ∧
    find_body_start ((«"HTTP/1.1 "» ++ show_int status ++ «" "» ++ http_reason_phrase status) ++ CRLF ++ rest) = Some pay ∧
    NUL ∉ («"HTTP/1.1 "» ++ show_int status ++ «" "» ++ http_reason_phrase status) ++ CRLF ++ rest.
Proof.
  intros Hnul. assert (Hct : ∀ c, c ∈ [CR; LF; NUL] → c ∉ JSON_CONTENT_TYPE).
  { intros c. rewrite !elem_of_cons, elem_of_nil. intros [-> |[-> |[-> |[]]]];
      apply (bool_decide_unpack _); vm_compute; reflexivity. }
  destruct (serialize_lines status JSON_CONTENT_TYPE pay) as [Hser Hbody]; [apply Hct; set_solver..|].
  assert (Hclean : NUL ∉ header_block (response_lines JSON_CONTENT_TYPE pay) pay).
  { apply header_block_clean; [done|done| |done]. unfold response_lines. repeat apply Forall_cons_2; [| | |done].
    - rewrite not_elem_of_app. split; [apply (bool_decide_unpack _); vm_compute; reflexivity|apply Hct; set_solver].
    - rewrite not_elem_of_app. split; [apply (bool_decide_unpack _); vm_compute; reflexivity|].
      apply digits_clean; [apply show_N_isdigit|done].
    - apply (bool_decide_unpack _). vm_compute. reflexivity. }
  eexists. split; [exact Hser|]. split; [exact Hbody|]. rewrite not_elem_of_app. split; [|exact Hclean].
  apply status_line_clean. set_solver.
Qed.

(** A posted statement is answered with its JSON payload. *)
Lemma reply_sql `{RowIndex Idx} w (ctx : DbContext Idx) p version headers sql q res ctx' w' pay :
  token PATH_SIZE p → Ascii.eqb (peek p) "/" = true → CR ∉ version → LF ∉ version → Forall one_line headers →
  NUL ∉ sql → parse_sql_text sql = Ok q →
  sql_service_execute w ctx sql = (res, ctx', w') → payload res = Some pay → NUL ∉ pay →
  ∃ t rest, server_reply w ctx (print_request «"POST"» p version headers sql) = (Serialized t, [], ctx', w') ∧
    t = (if ok res then «"HTTP/1.1 200 OK"» else «"HTTP/1.1 400 Bad Request"») ++ CRLF ++ rest ∧
    find_body_start t = Some pay.
Proof.
  intros Hp Hslash Hvcr Hvlf Hh Hnul Hq He Hpay Hpn. unfold server_reply.
  rewrite parse_printed_request by (done || by apply token_dec).
  destruct sql as [|c sql]; [done|]. rewrite (handle_sql w ctx p (c :: sql) q res ctx' w' pay) by done.
  destruct (serialize_json (if ok res then 200 else 400)%Z pay) as (rest & -> & Hbody & Hclean); [done|].
  rewrite c_string_id by done. eexists _, rest. split; [reflexivity|]. split; [by destruct (ok res)|done].
Qed.

(** A printed request whose headers announce its body is exactly one request. *)
Lemma printed_request_exact m p version headers sql :
  token METHOD_SIZE m → token PATH_SIZE p → CR ∉ version → LF ∉ version → Forall one_line headers →
  let total := print_request m p version headers sql in
  server_parse_content_length (take (length total - length sql) total) = Ok (N.of_nat (length sql)) →
  (N.of_nat (length total) <= SERVER_REQUEST_MAX_CAPACITY)%N →
  ∃ i k, exact_request total i k (N.of_nat (length sql)).
Proof.
  intros Hm Hp Hcr Hlf Hh total Hlen Hmax.
  assert (Hbody : find_body_start total = Some sql).
  { apply find_body_start_block; [| |done]; eapply request_line_clean; eauto. }
  rewrite body_start_terminator in Hbody.
  destruct (server_find_request_terminator total) as [[i k]|] eqn:Hf; [|done].
  cbn [fmap option_fmap option_map] in Hbody. apply (inj Some) in Hbody.
  pose proof (terminator_bounds _ _ _ Hf) as [Hle _]. pose proof (length_drop total (i + k)) as Hd. rewrite Hbody in Hd.
  exists i, k. replace (length total - length sql)%nat with (i + k)%nat in Hlen by lia.
  split_and!; [done|done|lia|done].
Qed.

Lemma reply_db_ok `{RowIndex Idx} w (ctx : DbContext Idx) raw r m ctx' w' :
  db_ok w ctx → server_reply w ctx raw = (r, m, ctx', w') →
  db_ok w' ctx' ∧ db_root ctx' = db_root ctx ∧ files_grow w w'.
Proof.
  intros Hok. unfold server_reply. destruct (http_parse_request raw) as [req|]; [|by intros [= _ _ <- <-]].
  destruct (request_handler_handle w ctx req) as [[[resp mode] ctx1] w1] eqn:Hh.
  pose proof (handle_db_ok w ctx req resp mode ctx1 w1 Hok Hh).
  destruct resp as [resp|]; [destruct (http_serialize_response resp)|]; by intros [= _ _ <- <-].
Qed.

Lemma execute_job_state `{RowIndex Idx} w (ctx : DbContext Idx) raw sends :
  (server_socket_execute_request_job w ctx raw sends).1.2 = (server_reply w ctx raw).1.2 ∧
  (server_socket_execute_request_job w ctx raw sends).2 = (server_reply w ctx raw).2.
Proof.
  unfold server_socket_execute_request_job, server_socket_process_request.
  destruct (server_reply w ctx raw) as [[[r m] ctx'] w']. destruct (send_reply r sends) as [[out sent] rest].
  destruct sent; [done|]. by destruct (server_socket_send_plain_response _ _ rest) as [[? ?] ?].
Qed.

(** The callback is the reply and its sends. *)
Lemma execute_job_split `{RowIndex Idx} w (ctx : DbContext Idx) raw sends :
  server_socket_execute_request_job w ctx raw sends =
    (write_answer (server_reply w ctx raw).1.1 sends, (server_reply w ctx raw).1.2, (server_reply w ctx raw).2).
Proof.
  unfold server_socket_execute_request_job, server_socket_process_request, write_answer.
  destruct (server_reply w ctx raw) as [[[r m] ctx'] w']. cbn [fst snd]. destruct (send_reply r sends) as [[out sent] rest].
  destruct sent; [done|]. by destruct (server_socket_send_plain_response _ _ rest) as [[? ?] ?].
Qed.

(** What is written of a plain response, and of the callback's two responses. *)
Lemma plain_response_prefix status b sends :
  (server_socket_send_plain_response status b sends).1.1 `prefix_of` plain_header status (N.of_nat (length b)) ++ b.
Proof.
  unfold server_socket_send_plain_response. cbv zeta. destruct (Nat.leb _ _); [apply prefix_nil|].
  destruct (server_socket_write_all (plain_header _ _) sends) as [[out sent] rest] eqn:Hh.
  destruct (write_all_prefix _ _ _ _ _ Hh) as [Hp Heq]. destruct sent; [|by apply prefix_app_r].
  rewrite (Heq eq_refl). destruct (server_socket_write_all b rest) as [[out' sent'] rest'] eqn:Hb.
  apply prefix_app. by eapply write_all_prefix.
Qed.

Lemma write_answer_prefix t m sends :
  (write_answer (Serialized t, m) sends = t ∨
   ∃ first second, write_answer (Serialized t, m) sends = first ++ second ∧ first `prefix_of` t ∧
     second `prefix_of` plain_header «"500 Internal Server Error"» (N.of_nat (length (failure_body m))) ++ failure_body m) ∧
  ((server_socket_write_all t sends).1.2 = true → write_answer (Serialized t, m) sends = t).
Proof.
  unfold write_answer, send_reply. cbn [fst snd]. destruct (server_socket_write_all t sends) as [[out sent] rest] eqn:Hw.
  destruct (write_all_prefix _ _ _ _ _ Hw) as [Hp Heq]. cbn [fst snd]. destruct sent; [rewrite (Heq eq_refl); auto|].
  split; [|done]. right. eexists out, _. split_and!; [done|done|]. apply plain_response_prefix.
Qed.

(** ** Properties *)

(** C11. End to end, from the client's packets to the bytes it gets back: when a client posts a
    supported SQL statement in a well-formed HTTP request of at most 65536 bytes (a path that
    starts with a slash and fits its buffer, one-line headers that announce the length of the
    body, no NUL in the statement or in its payload), then however the network cuts the request
    into packets, of which the last ends with it, the server reads exactly that request, and the
    worker's callback leaves the context and the files as the execution of the statement leaves
    them.  There is one response,
    whose status line says 200 when the statement succeeded and 400 when it failed, and whose
    body, after the first empty line, is the JSON payload of the execution; the callback writes
    all of it and nothing else when the sends for it succeed.  When one of them fails, what it
    writes is a prefix of that response followed by a prefix of a plain 500 response (both can
    be there: [second_response_after_partial_write]). *)
Theorem server_end_to_end `{RowIndex Idx} w (ctx : DbContext Idx) p version headers sql q res ctx' w' pay recv more :
  token PATH_SIZE p → Ascii.eqb (peek p) "/" = true → CR ∉ version → LF ∉ version → Forall one_line headers →
  NUL ∉ sql → parse_sql_text sql = Ok q →
  sql_service_execute w ctx sql = (res, ctx', w') → payload res = Some pay → NUL ∉ pay →
  let total := print_request «"POST"» p version headers sql in
  server_parse_content_length (take (length total - length sql) total) = Ok (N.of_nat (length sql)) →
  (N.of_nat (length total) <= SERVER_REQUEST_MAX_CAPACITY)%N →
  Forall delivers recv → stream recv = total →
  server_socket_read_request (recv ++ more) = Some (SERVER_REQUEST_READ_OK total) ∧
  ∃ t rest,
    t = (if ok res then «"HTTP/1.1 200 OK"» else «"HTTP/1.1 400 Bad Request"») ++ CRLF ++ rest ∧
    find_body_start t = Some pay ∧
    ∀ sends, let '(out, ctx1, w1) := server_socket_execute_request_job w ctx total sends in
      ctx1 = ctx' ∧ w1 = w' ∧ ((server_socket_write_all t sends).1.2 = true → out = t) ∧
      (out = t ∨ ∃ first second, out = first ++ second ∧ first `prefix_of` t ∧
         second `prefix_of` plain_header «"500 Internal Server Error"» (N.of_nat (length (failure_body []))) ++ failure_body []).
Proof.
  intros Hp Hslash Hvcr Hvlf Hh Hnul Hq He Hpay Hpn total Hlen Hmax Hrecv Hstream. split.
  - destruct (printed_request_exact «"POST"» p version headers sql) as (i & k & Hexact); try done.
    { apply token_dec. vm_compute. reflexivity. }
    by eapply read_request_exact.
  - destruct (reply_sql w ctx p version headers sql q res ctx' w' pay) as (t & rest & Hr & Ht & Hb); try done.
    exists t, rest. split_and!; [done|done|]. intros sends. rewrite execute_job_split. fold total in Hr. rewrite Hr. cbn [fst snd].
    destruct (write_answer_prefix t [] sends) as [Hcases Hall]. auto.
Qed.

Definition choi_request : cstr :=
  print_request «"POST"» «"/query"» «"HTTP/1.1"» [«"Host: localhost"»; «"Content-Length: 38"»] insert_choi.

Lemma server_end_to_end_witness :
  server_socket_read_request ([Bytes (take 30 choi_request); Interrupted; Bytes (drop 30 choi_request)] ++ [TimedOut])
    = Some (SERVER_REQUEST_READ_OK choi_request) ∧
  ∃ t rest, t = «"HTTP/1.1 200 OK"» ++ CRLF ++ rest ∧
    find_body_start t = Some (print_json (insert_json «"users"» «"INSERT 1"»)).
Proof.
  pose proof (server_end_to_end sample_world sample_ctx «"/query"» «"HTTP/1.1"»
    [«"Host: localhost"»; «"Content-Length: 38"»] insert_choi
    (mkQuery QUERY_INSERT «"users"» [«"choi"»; «"40"»] None)
    (mkSqlServiceResult true (Some (print_json (insert_json «"users"» «"INSERT 1"»))) [])
    (sql_service_execute sample_world sample_ctx insert_choi).1.2
    (sql_service_execute sample_world sample_ctx insert_choi).2
    (print_json (insert_json «"users"» «"INSERT 1"»))
    [Bytes (take 30 choi_request); Interrupted; Bytes (drop 30 choi_request)] [TimedOut]) as He.
  destruct He as [Hread (t & rest & Ht & Hb & _)]; [..|split; [exact Hread|exists t, rest; split; [exact Ht|exact Hb]]].
  - apply token_dec. vm_compute. reflexivity.
  - reflexivity.
  - apply (bool_decide_unpack _). vm_compute. reflexivity.
  - apply (bool_decide_unpack _). vm_compute. reflexivity.
  - repeat constructor; try done; (apply (bool_decide_unpack _); vm_compute; reflexivity).
  - apply (bool_decide_unpack _). vm_compute. reflexivity.
  - vm_compute. reflexivity.
  - vm_compute. reflexivity.
  - reflexivity.
  - apply (bool_decide_unpack _). vm_compute. reflexivity.
  - vm_compute. reflexivity.
  - apply N.leb_le. vm_compute. reflexivity.
  - repeat constructor; vm_compute; discriminate.
  - vm_compute. reflexivity.
Defined.

(** A response that was cut short is followed by a second one: when [send] fails after part of
    the response was written, the worker still sends a 500 response on the same connection, in
    the middle of the first one. *)
Theorem second_response_after_partial_write :
  ∃ sends,
    let out := (server_socket_execute_request_job sample_world sample_ctx choi_request sends).1.1 in
    starts_with «"HTTP/1.1 200 OK"» (take 40 out) = true ∧ find_body_start (take 40 out) = None ∧
    starts_with «"HTTP/1.1 500 Internal Server Error"» (drop 40 out) = true.
Proof. exists [Sent 40; SendFailed; Sent 1000; Sent 1000]. split_and!; vm_compute; reflexivity. Qed.
