(* ===== verification/RequestMemory.v ===== *)
(** * [request_handler.c], [http_protocol.c], [socket_server.c]: the memory of a request

    [server_socket_process_request] again, with the memory it takes: the body of the request, what
    [sql_service_execute] takes, the body of the response and its serialized text.  Any request
    for memory can fail; the client then gets an error response. *)

From stdpp Require Import base list strings sets gmap.
From Stdlib Require Import Ascii.
From S2P Require Import Prelude CString Common Memory Parser Index BPTree Schema Json Storage DbContext Executor SqlService.
From S2P Require Import HttpProtocol RequestHandler SocketServer Server.
From S2P Require Import ContextMemory ExecutorMemory ServiceMemory.

Local Open Scope nat_scope.

(** ** HTTP *)

Record MRequest := mkMRequest { rq_method : cstr; rq_path : cstr; rq_body : option ostr }.

Record MResponse := mkMResponse { rs_status : Z; rs_type : option cstr; rs_body : option ostr; rs_length : N }.

Definition request_of (r : MRequest) : HttpRequest := mkHttpRequest (rq_method r) (rq_path r) (text <$> rq_body r).

Definition response_of (r : MResponse) : HttpResponse :=
  mkHttpResponse (rs_status r) (rs_type r) (text <$> rs_body r) (rs_length r).

Definition http_parse_request_mem (raw : cstr) : M (result SqlError MRequest) :=
  match http_parse_request raw with
  | Err e => mret (Err e)
  | Ok r =>
      match body r with
      | None => mret (Ok (mkMRequest (method r) (path r) None))
      | Some b =>
          p ← malloc;
          match p with
          | None => mret (fail «"failed to allocate HTTP request body"»)
          | Some p => mret (Ok (mkMRequest (method r) (path r) (Some (mkOstr p b))))
          end
      end
  end.

Definition http_request_destroy (r : MRequest) : M MRequest :=
  _ ← free_str (rq_body r);
  mret (mkMRequest [] [] None).

Definition http_response_destroy (r : MResponse) : M MResponse :=
  _ ← free_str (rs_body r);
  mret (mkMResponse 0 None None 0).

Definition http_serialize_response_mem (r : MResponse) : M (result SqlError ostr) :=
  match http_serialize_response (response_of r) with
  | Err e => mret (Err e)
  | Ok serialized =>
      p ← malloc;
      match p with
      | None => mret (fail «"failed to allocate HTTP response buffer"»)
      | Some p => mret (Ok (mkOstr p serialized))
      end
  end.

(** ** The handler *)

Definition set_json_response_mem (status : Z) (b : cstr) : M (result SqlError MResponse) :=
  copy ← sql_strdup b;
  match copy with
  | None => mret (fail «"failed to allocate HTTP response body"»)
  | Some copy => mret (Ok (mkMResponse status (Some JSON_CONTENT_TYPE) (Some copy) (N.of_nat (length (text copy)))))
  end.

Definition handler_error_payload_mem (message : cstr) : M (result SqlError ostr) :=
  quoted ← sql_json_quote_mem message;
  match quoted with
  | Err e => mret (Err e)
  | Ok quoted =>
      p ← malloc;
      match p with
      | None => _ ← release (block quoted); mret (fail «"failed to allocate JSON error payload"»)
      | Some p =>
          let payload := dq «"{'ok':false,'error':{'message':"» ++ text quoted ++ «"}}"» in
          _ ← release (block quoted);
          mret (Ok (mkOstr p payload))
      end
  end.

Definition set_json_error_response_mem (status : Z) (message : cstr) : M (result SqlError MResponse) :=
  payload ← handler_error_payload_mem message;
  match payload with
  | Err e => mret (Err e)
  | Ok payload =>
      r ← set_json_response_mem status (text payload);
      _ ← release (block payload);
      mret r
  end.

(** The guarded section and what the handler makes of its result. *)
Definition run_sql_mem (w : World) (m : MContext) (sql : cstr) : M (result SqlError MResponse * MContext * World) :=
  '(res, m, w) ← sql_service_execute_mem w m sql;
  match mr_payload res with
  | Some p =>
      r ← set_json_response_mem (if mr_ok res then 200 else 400) (text p);
      _ ← sql_service_result_destroy res;
      mret (r, m, w)
  | None =>
      r ← set_json_error_response_mem 500
            (match mr_message res with [] => «"Failed to execute SQL request."» | m => m end);
      mret (r, m, w)
  end.

(** A response without running SQL. *)
Definition refuse (w : World) (m : MContext) (status : Z) (message : cstr) : M (result SqlError MResponse * MContext * World) :=
  r ← set_json_error_response_mem status message; mret (r, m, w).

Definition request_handler_handle_mem (w : World) (m : MContext) (r : MRequest)
    : M (result SqlError MResponse * MContext * World) :=
  if negb (bool_decide (rq_method r = «"POST"»)) then refuse w m 405 «"Only POST requests are supported."»
  else if negb (Ascii.eqb (peek (rq_path r)) "/") then refuse w m 400 «"Request path must start with '/'."»
  else
    match rq_body r with
    | None => refuse w m 400 «"Request body must contain SQL text."»
    | Some sql =>
        if Nat.eqb (length (text sql)) 0 || is_blank_text (text sql) then
          refuse w m 400 «"Request body must contain SQL text."»
        else
          match sql_service_classify_operation (text sql) with
          | Err e => refuse w m 400 (message e)
          | Ok SQL_OPERATION_READ | Ok SQL_OPERATION_WRITE => run_sql_mem w m (text sql)
          | Ok SQL_OPERATION_UNKNOWN => refuse w m 400 «"Unsupported SQL operation."»
          end
    end.

(** ** The socket server *)

(** [server_socket_process_request] but for the sending, which asks for no memory: what is to be
    sent, the message left in [error], the context and the files. *)
Definition server_reply_mem (w : World) (m : MContext) (raw_request : cstr) : M (Reply * cstr * MContext * World) :=
  r ← http_parse_request_mem raw_request;
  match r with
  | Err e =>
      mret (Plain «"400 Bad Request"» (message_or (message e) («"failed to parse HTTP request"» ++ [LF])), message e, m, w)
  | Ok request =>
      '(r, m, w) ← request_handler_handle_mem w m request;
      match r with
      | Err e =>
          _ ← http_request_destroy request;
          mret (Plain «"500 Internal Server Error"» (message_or (message e) («"failed to handle HTTP request"» ++ [LF])),
                message e, m, w)
      | Ok response =>
          s ← http_serialize_response_mem response;
          match s with
          | Err e =>
              _ ← http_response_destroy response;
              _ ← http_request_destroy request;
              mret (Plain «"500 Internal Server Error"» (message_or (message e) («"failed to serialize HTTP response"» ++ [LF])),
                    message e, m, w)
          | Ok serialized =>
              _ ← release (block serialized);
              _ ← http_response_destroy response;
              _ ← http_request_destroy request;
              mret (Serialized (c_string (text serialized)), [], m, w)
          end
      end
  end.

(** ** Specification *)

Definition response_blocks (r : result SqlError MResponse) : list nat :=
  match r with Ok x => strs (rs_body x) | Err _ => [] end.

Definition response_result (r : result SqlError MResponse) : result SqlError HttpResponse :=
  match r with Ok x => Ok (response_of x) | Err e => Err e end.

(** The SQL text of a request. *)
Definition request_sql (raw_request : cstr) : option cstr :=
  match http_parse_request raw_request with Ok r => body r | Err _ => None end.

(** The file of the table of an INSERT has one more row, or nothing was written. *)
Definition wrote (w w' : World) (root : cstr) (sql : option cstr) : Prop :=
  w' = w ∨ ∃ s, sql = Some s ∧ service_wrote w w' root s.

(** A response with status 200. *)
Definition success (r : Reply) : Prop :=
  match r with Serialized t => starts_with «"HTTP/1.1 200"» t = true | Plain _ _ => False end.
Arguments success : simpl never.

Definition request_files (w : World) (ctx : DbContext BPTree) (sql : option cstr) : Prop :=
  ∀ s, sql = Some s → statement_files w ctx s.

(** ** Lemmas: responses *)

(** [c] builds a response with this status as [pure] does. *)
Definition responds (status : Z) (c : M (result SqlError MResponse)) (pure : result SqlError HttpResponse) : Prop :=
  triple [] c response_blocks
    (λ r, match r with Ok x => pure = Ok (response_of x) ∧ rs_status x = status | Err _ => True end)
    (λ r, match r with Err e => pure = Err e | Ok _ => True end).

Lemma responds_json status b : responds status (set_json_response_mem status b) (Ok (set_json_response status b)).
Proof.
  unfold responds, set_json_response_mem. call triple_strdup with (@nil nat) as [copy|] Hcopy; finish.
  rewrite <- (Hcopy copy) by done. done.
Qed.

Lemma makes_handler_payload message : makes (handler_error_payload_mem message) (handler_error_payload message).
Proof.
  unfold makes, handler_error_payload_mem, handler_error_payload.
  call makes_quote with (@nil nat) as [quoted|e] Hq; [|finish; intros He; by rewrite He]. rewrite Hq. cbn [mbind result_bind].
  call triple_acquire with [block quoted] as [p|] _; [call triple_release with [p]|call triple_release with (@nil nat)]; finish.
Qed.

Lemma responds_json_error status message :
  responds status (set_json_error_response_mem status message) (set_json_error_response status message).
Proof.
  unfold responds, set_json_error_response_mem, set_json_error_response.
  call makes_handler_payload with (@nil nat) as [p|e] Hp; [|finish; intros He; by rewrite He]. rewrite Hp. cbn [mbind result_bind].
  call responds_json with [block p] as r Hr. call triple_release with (response_blocks r).
  apply triple_ret; [by rewrite ?(right_id_L [] (++))|done|auto].
Qed.

(** ** Lemmas: the request *)

Lemma triple_result_destroy res :
  triple (strs (mr_payload res)) (sql_service_result_destroy res) (λ _, []) (λ _, True) (λ _, True).
Proof. unfold sql_service_result_destroy. call triple_free_str with (@nil nat). by finish. Qed.

Lemma triple_request_destroy r : triple (strs (rq_body r)) (http_request_destroy r) (λ _, []) (λ _, True) (λ _, True).
Proof. unfold http_request_destroy. call triple_free_str with (@nil nat). by finish. Qed.

Lemma triple_response_destroy r : triple (strs (rs_body r)) (http_response_destroy r) (λ _, []) (λ _, True) (λ _, True).
Proof. unfold http_response_destroy. call triple_free_str with (@nil nat). by finish. Qed.

Lemma triple_result_destroy_payload res p :
  mr_payload res = Some p → triple [block p] (sql_service_result_destroy res) (λ _, []) (λ _, True) (λ _, True).
Proof. intros Hp. eapply triple_conseq; [apply triple_result_destroy|by rewrite Hp|done]. Qed.

Lemma run_sql_result w (ctx : DbContext BPTree) sql mode res ctx' w' :
  sql_service_execute w ctx sql = (res, ctx', w') →
  run_sql w ctx sql mode =
    (match payload res with
     | Some p => Ok (set_json_response (if ok res then 200 else 400) p)
     | None => set_json_error_response 500 (match out_message res with [] => «"Failed to execute SQL request."» | m => m end)
     end, mode, ctx', w').
Proof. intros Hexec. unfold run_sql, execute_sql_work. rewrite Hexec. by destruct (payload res). Qed.

Lemma triple_parse_request raw :
  triple [] (http_parse_request_mem raw) (λ r, match r with Ok x => strs (rq_body x) | Err _ => [] end)
    (λ r, match r with Ok x => http_parse_request raw = Ok (request_of x) | Err _ => True end)
    (λ r, match r with Err e => http_parse_request raw = Err e | Ok _ => True end).
Proof.
  unfold http_parse_request_mem. destruct (http_parse_request raw) as [[me pa [b|]]|e]; simpl; [|by finish..].
  call triple_acquire with (@nil nat) as [p|] _; by finish.
Qed.

Lemma makes_serialized x : makes (http_serialize_response_mem x) (http_serialize_response (response_of x)).
Proof.
  unfold makes, http_serialize_response_mem. destruct (http_serialize_response (response_of x)) as [s|e]; [|by finish].
  call triple_acquire with (@nil nat) as [p|] _; finish.
Qed.

(** The status code is in the text of the response. *)
Lemma success_status r s :
  status_code r ∈ [200; 400; 405; 500]%Z → http_serialize_response r = Ok s → success (Serialized (c_string s)) → status_code r = 200%Z.
Proof.
  intros Hst Hs Hok. assert (Hform : ∃ ctype n rest, s = response_header (status_code r) ctype n ++ rest).
  { unfold http_serialize_response in Hs.
    destruct (response_body r), (body_length r); first [discriminate|apply Ok_inj in Hs as <-; eauto]. }
  destruct Hform as (ctype & n & rest & ->). clear Hs. unfold success in Hok.
  revert Hst Hok. generalize (status_code r). intros st Hst Hok. set_unfold in Hst.
  destruct Hst as [->|Hst]; [done|exfalso]. by destruct Hst as [->|[->|[->|?]]]; vm_compute in Hok.
Qed.

Lemma wrote_service w' w root sql : service_wrote w w' root sql → wrote w w' root (Some sql).
Proof. right. eauto. Qed.

(** The branch of the handler that was taken. *)
Ltac handler_branch :=
  unfold request_handler_handle; cbn [method path body];
  repeat match goal with H : ?b = _ |- context [?b] => rewrite H end; reflexivity.

Section Request.
Context (w : World) (m : MContext) (ctx : DbContext BPTree).
Context (Hctx : same_context m ctx) (Hroot : length (db_root ctx) + 2 < SQL_PATH_BUFFER_SIZE).

(** The handler did what it does when no request fails. *)
Definition handle_agrees (request : HttpRequest) (o : result SqlError MResponse * MContext * World) : Prop :=
  let '(r, m', w') := o in
  ∃ mode ctx', request_handler_handle w ctx request = (response_result r, mode, ctx', w') ∧ same_context m' ctx'.

Definition handled (request : HttpRequest) (o : result SqlError MResponse * MContext * World) (leak : list nat) : Prop :=
  let '(r, m', w') := o in
  wrote w w' (db_root ctx) (body request) ∧
  (∀ x, r = Ok x → rs_status x = 200%Z → leak = [] ∧ handle_agrees request o) ∧
  (∀ x, r = Ok x → rs_status x ∈ [200; 400; 405; 500]%Z).

Lemma leaks_refuse request status message mode :
  status ∈ [400; 405; 500]%Z →
  request_handler_handle w ctx request = (set_json_error_response status message, mode, ctx, w) →
  leaks (context_blocks m) (refuse w m status message) (λ '(r, m', _), response_blocks r ++ context_blocks m')
    (handled request) (λ o leak, leak = [] ∧ handle_agrees request o).
Proof.
  intros Hst Hpure. unfold refuse, handled, handle_agrees. rewrite Hpure.
  call responds_json_error with (context_blocks m) as [x|e] Hx; apply (leaks_ret _ _ _ []); simpl; rewrite ?(right_id_L [] (++)); try done.
  - destruct Hx as [Hx Hs]. split_and!; [by left| |]; intros ? [= <-].
    + intros Hx200. exfalso. clear -Hst Hs Hx200. set_solver by lia.
    + rewrite Hs. set_solver.
  - destruct Hx as [Hx _]. intros _. rewrite Hx. eauto 10.
  - split_and!; [by left|done|done].
  - intros He. rewrite He. eauto 10.
Qed.

Lemma leaks_run_sql method path sql mode :
  statement_files w ctx sql →
  request_handler_handle w ctx (mkHttpRequest method path (Some sql)) = run_sql w ctx sql mode →
  leaks (context_blocks m) (run_sql_mem w m sql) (λ '(r, m', _), response_blocks r ++ context_blocks m')
    (handled (mkHttpRequest method path (Some sql))) (λ o leak, leak = [] ∧ handle_agrees (mkHttpRequest method path (Some sql)) o).
Proof.
  intros Hfiles Hpure. unfold run_sql_mem, handled, handle_agrees. rewrite Hpure.
  eapply (leaks_seq []); [by apply leaks_service_execute|by rewrite (right_id_L [] (++))|].
  intros [[res m1] w1] leak [Hw Hok]. destruct (mr_payload res) as [p|] eqn:Hp.
  - call responds_json with (block p :: context_blocks m1) as r Hr.
    call (triple_result_destroy_payload res p) with (response_blocks r ++ context_blocks m1) as res' _; [done|].
    apply (leaks_ret _ _ _ []); simpl; rewrite ?(right_id_L [] (++)); [done| |].
    + split_and!; [by apply wrote_service| |]; intros x ->; destruct Hr as [Hx Hst].
      * intros H200. destruct (mr_ok res) eqn:Hres; [|congruence]. destruct (Hok eq_refl) as (-> & ctx1 & Hexec & Hctx1).
        split; [done|]. rewrite (run_sql_result _ _ _ _ _ _ _ Hexec). simpl. rewrite Hp, Hres. simpl. rewrite Hx. eauto.
      * rewrite Hst. destruct (mr_ok res); set_solver.
    + intros _ Hr' (-> & ctx1 & Hexec & Hctx1). split; [done|]. rewrite (run_sql_result _ _ _ _ _ _ _ Hexec). simpl. rewrite Hp. simpl.
      destruct r as [x|e]; [destruct Hr as [-> _]; eauto|done].
  - call responds_json_error with (context_blocks m1) as r Hr.
    apply (leaks_ret _ _ _ []); simpl; rewrite ?(right_id_L [] (++)); [done| |].
    + split_and!; [by apply wrote_service| |]; intros x ->; destruct Hr as [Hx Hst].
      * congruence.
      * rewrite Hst. set_solver.
    + intros Hr' (-> & ctx1 & Hexec & Hctx1). split; [done|]. rewrite (run_sql_result _ _ _ _ _ _ _ Hexec). simpl. rewrite Hp. simpl.
      destruct r as [x|e]; [destruct Hr as [-> _]|rewrite Hr']; eauto.
Qed.

Lemma leaks_handle request :
  request_files w ctx (text <$> rq_body request) →
  leaks (context_blocks m) (request_handler_handle_mem w m request) (λ '(r, m', _), response_blocks r ++ context_blocks m')
    (handled (request_of request)) (λ o leak, leak = [] ∧ handle_agrees (request_of request) o).
Proof.
  intros Hfiles. unfold request_handler_handle_mem. destruct request as [me pa [sql|]]; unfold request_of; simpl in *.
  - specialize (Hfiles _ eq_refl).
    repeat case_match; simplify_eq; (eapply leaks_refuse || eapply leaks_run_sql); try done; try set_solver; handler_branch.
  - clear Hfiles. repeat case_match; simplify_eq; eapply leaks_refuse; try set_solver; handler_branch.
Qed.

(** The reply is the one that is sent when no request fails. *)
Definition reply_agrees (raw_request : cstr) (o : Reply * cstr * MContext * World) : Prop :=
  let '(reply, message, m', w') := o in
  ∃ ctx', server_reply w ctx raw_request = (reply, message, ctx', w') ∧ same_context m' ctx'.

Lemma leaks_server_reply raw_request :
  request_files w ctx (request_sql raw_request) →
  leaks (context_blocks m) (server_reply_mem w m raw_request) (λ '(_, _, m', _), context_blocks m')
    (λ '(reply, message, m', w') leak, wrote w w' (db_root ctx) (request_sql raw_request) ∧
       (success reply → leak = [] ∧ reply_agrees raw_request (reply, message, m', w')))
    (λ o leak, leak = [] ∧ reply_agrees raw_request o).
Proof.
  intros Hfiles. unfold server_reply_mem, reply_agrees, server_reply, request_sql in *.
  call triple_parse_request with (context_blocks m) as [request|e] Hreq.
  2: { apply (leaks_ret _ _ _ []); simpl; [by rewrite (right_id_L [] (++))|split; [by left|done]|]. intros He. rewrite He. eauto. }
  rewrite Hreq in *.
  eapply (leaks_seq (strs (rq_body request))); [by apply leaks_handle|solve_Permutation|].
  intros [[r m1] w1] leak (Hw & H200 & Hst). simpl in Hw. destruct r as [x|e].
  2: { call triple_request_destroy with (context_blocks m1) as ? _.
       apply (leaks_ret _ _ _ []); simpl; rewrite ?(right_id_L [] (++)); [done|done|].
       intros _ (-> & mode & ctx1 & Hh & Hctx1). rewrite Hh. eauto. }
  call makes_serialized with (strs (rs_body x) ++ strs (rq_body request) ++ context_blocks m1) as [s|e] Hs.
  - call triple_release with (strs (rs_body x) ++ strs (rq_body request) ++ context_blocks m1).
    call triple_response_destroy with (strs (rq_body request) ++ context_blocks m1) as ? _.
    call triple_request_destroy with (context_blocks m1) as ? _.
    apply (leaks_ret _ _ _ []); simpl; rewrite ?(right_id_L [] (++)); [done| |].
    + split; [done|]. intros Hsucc. destruct (H200 x eq_refl) as (-> & mode & ctx1 & Hh & Hctx1).
      { by apply (success_status (response_of x) (text s)); [apply Hst| |]. }
      rewrite Hh. simpl. rewrite Hs. eauto.
    + intros _ _ _ _ (-> & mode & ctx1 & Hh & Hctx1). rewrite Hh. simpl. rewrite Hs. eauto.
  - call triple_response_destroy with (strs (rq_body request) ++ context_blocks m1) as ? _.
    call triple_request_destroy with (context_blocks m1) as ? _.
    apply (leaks_ret _ _ _ []); simpl; rewrite ?(right_id_L [] (++)); [done|done|].
    intros _ _ He (-> & mode & ctx1 & Hh & Hctx1). rewrite Hh. simpl. rewrite He. eauto.
Qed.
End Request.

(** ** Properties *)

(** C8. Answering a request with failing allocations, from the raw bytes to the response and back.
    Whatever requests for memory and streams fail, nothing is given back twice, every block that
    the context had or has now is accounted for, and no file changes but that the table of an
    INSERT may have one more row.  If the answer has status 200, or if no request fails, then
    nothing is left behind, and the answer, the files and the context are those of
    [Server.server_reply]: a success that is reported is real.  This is for a root of fewer than
    4094 bytes and, when the body is a statement, a table which, if loaded, still has as many
    columns in its schema file as when it was loaded, and whose schema file is tidy: at most one
    line assigns [columns] and one [pkey], and every entry of [columns], an empty last one
    excepted, has a colon. *)
Theorem request_memory (w : World) (m : MContext) (ctx : DbContext BPTree) (raw_request : cstr) (mem : Mem) (others : list nat) :
  mem_ok mem → held mem ≡ₚ context_blocks m ++ others → same_context m ctx →
  length (db_root ctx) + 2 < SQL_PATH_BUFFER_SIZE → request_files w ctx (request_sql raw_request) →
  let '((reply, message, m', w'), mem') := server_reply_mem w m raw_request mem in
  mem_ok mem' ∧ wrote w w' (db_root ctx) (request_sql raw_request) ∧
  (∃ leak, held mem' ≡ₚ context_blocks m' ++ leak ++ others) ∧
  (success reply ∨ all_succeed mem →
     held mem' ≡ₚ context_blocks m' ++ others ∧
     ∃ ctx', server_reply w ctx raw_request = (reply, message, ctx', w') ∧ same_context m' ctx').
Proof.
  intros Hm Hh Hctx Hroot Hfiles.
  destruct (leaks_server_reply w m ctx Hctx Hroot raw_request Hfiles mem others Hm Hh) as (leak & Hm1 & Hh1 & HQ & HR).
  destruct (server_reply_mem w m raw_request mem) as [[[[reply msg] m'] w'] mem']; simpl in *. destruct HQ as [Hw Hok].
  split_and!; [done|done|by eexists|]. intros [Hr|Hall].
  - by destruct (Hok Hr) as [-> Hag].
  - by destruct (HR Hall) as (_ & -> & Hag).
Qed.

(** ** Examples *)

Definition insert_request : cstr :=
  print_request «"POST"» «"/sql"» «"HTTP/1.1"» [«"Host: db"»] «"INSERT INTO users VALUES (8, park, 31)"».

(** The payload cannot be built after the row has been written. *)
Definition no_payload : Mem := with_outcomes (replicate 18 true ++ [false]) sample_loaded.2.

Lemma request_memory_witness :
  let '((reply, message, m', w'), mem') := server_reply_mem sample_world sample_loaded.1 insert_request no_payload in
  mem_ok mem' ∧ wrote sample_world w' (db_root sample_ctx) (request_sql insert_request) ∧
  (∃ leak, held mem' ≡ₚ context_blocks m' ++ leak ++ []) ∧
  (success reply ∨ all_succeed no_payload →
     held mem' ≡ₚ context_blocks m' ++ [] ∧
     ∃ ctx', server_reply sample_world sample_ctx insert_request = (reply, message, ctx', w') ∧ same_context m' ctx').
Proof.
  apply (request_memory sample_world sample_loaded.1 sample_ctx insert_request no_payload []).
  - split_and!; [vm_compute; reflexivity|apply (bool_decide_unpack _); vm_compute; exact I|apply (bool_decide_unpack _); vm_compute; exact I].
  - apply (bool_decide_unpack _). vm_compute. exact I.
  - exact sample_loaded_same.
  - apply Nat.ltb_lt. vm_compute. reflexivity.
  - intros sql Hsql q Hq. vm_compute in Hsql. injection Hsql as <-. vm_compute in Hq. injection Hq as <-. split.
    + intros t s Ht _ Hs. apply list_elem_of_singleton in Ht as ->. vm_compute in Hs. injection Hs as <-. vm_compute. reflexivity.
    + exact users_file_tidy.
Defined.
