(* ===== verification/ServerJob.v ===== *)
(** * [src/src/server/pool/server_job_stub.c] and the dispatch in [src/src/server/api/socket_server.c]

    The payload that travels from the accept loop to a worker: the client's socket and the
    request text.  Payloads live in a heap, a list of allocations with [None] for a freed one;
    a [void *data] is a position in it.  Reading or freeing a payload that was freed is
    undefined in C and has no result here. *)

From stdpp Require Import base list strings sets gmap relations.
From Stdlib Require Import Ascii.
From S2P Require Import Prelude CString Common Index BPTree Schema Storage DbContext Executor SqlService HttpProtocol RequestHandler SocketServer Server JobQueue ThreadPool.

(** ** The payload *)

(** [has_handler] is whether [request_handler] is not NULL. *)
Record ServerJobData := mkServerJobData {
  client_fd : Z;
  raw_request : option cstr;
  raw_request_length : N;
  has_handler : bool
}.

(** The result of [calloc]. *)
Definition zero_job_data : ServerJobData := mkServerJobData 0 None 0 false.

Definition server_job_data_init (d : ServerJobData) (fd : Z) (raw : option cstr) (len : N) (handler : bool)
    : ServerJobData :=
  mkServerJobData fd raw len handler.

Definition server_job_data_validate (d : ServerJobData) : result SqlError () :=
  if (client_fd d <? 0)%Z then fail «"server_job_data client_fd must be valid"»
  else
    match raw_request d with
    | None => fail «"server_job_data raw_request must not be empty"»
    | Some _ =>
        if (raw_request_length d =? 0)%N then fail «"server_job_data raw_request must not be empty"»
        else if negb (has_handler d) then fail «"server_job_data request_handler must not be null"»
        else Ok ()
    end.

Definition server_job_build (execute cleanup : option nat) (job_data : nat) : Job := mkJob execute cleanup job_data.

(** The payload after it was emptied, the socket closed and the request freed. *)
Definition server_job_data_destroy (d : ServerJobData) : ServerJobData * option Z * option cstr :=
  (mkServerJobData (-1) None 0 false, if (0 <=? client_fd d)%Z then Some (client_fd d) else None, raw_request d).

Abbreviation heap := (list (option ServerJobData)).

(** What a cleanup released: the socket and the request text. *)
Abbreviation release := (option Z * option cstr)%type.

Definition server_job_cleanup (h : heap) (ptr : nat) : option (heap * release) :=
  match h !! ptr with
  | Some (Some d) =>
      let '(_, fd, raw) := server_job_data_destroy d in Some (<[ptr := None]> h, (fd, raw))
  | _ => None
  end.

(** ** Dispatching a request *)

(** The callbacks, as function pointers. *)
Definition EXECUTE_REQUEST : nat := 1.
Definition SERVER_JOB_CLEANUP : nat := 2.

(** The new payload's address, or the error with what the cleanup released. *)
Definition server_socket_create_job_data (h : heap) (fd : Z) (raw : cstr) (handler : bool)
    : option (result SqlError nat * heap * list release) :=
  let d := server_job_data_init zero_job_data fd (Some raw) (N.of_nat (length raw)) handler in
  let h' := h ++ [Some d] in
  match server_job_data_validate d with
  | Ok _ => Some (Ok (length h), h', [])
  | Err e =>
      match server_job_cleanup h' (length h) with
      | Some (h'', r) => Some (Err e, h'', [r])
      | None => None
      end
  end.

(** [thread_pool_submit] with the records of [ThreadPool.PoolState]. *)
Definition pool_submit (s : PoolState) (job : Job) : option (result SqlError () * PoolState * option (nat * nat)) :=
  match thread_pool_submit (pool s) job with
  | None => None
  | Some (Ok _, p, c) =>
      Some (Ok (), mkPoolState p (workers s) (joining s) (accepted s ++ [job]) (refused s) (taken s) (executed s)
                     (finished s) (cleanups s ++ option_list c), c)
  | Some (Err e, p, c) =>
      Some (Err e, mkPoolState p (workers s) (joining s) (accepted s) (refused s ++ [job]) (taken s) (executed s)
                     (finished s) (cleanups s ++ option_list c), c)
  end.

(** Run the cleanup callbacks that were called. *)
Fixpoint run_cleanups (h : heap) (calls : list (nat * nat)) : option (heap * list release) :=
  match calls with
  | [] => Some (h, [])
  | (_, ptr) :: calls' =>
      '(h1, r) ← server_job_cleanup h ptr;
      '(h2, rs) ← run_cleanups h1 calls';
      Some (h2, r :: rs)
  end.

(** [None] while the queue is full: the result, the pool, the heap and what was released. *)
Definition server_socket_dispatch_request (s : PoolState) (h : heap) (fd : Z) (raw : cstr)
    : option (result SqlError () * PoolState * heap * list release) :=
  '(created, h1, rs) ← server_socket_create_job_data h fd raw true;
  match created with
  | Err e => Some (Err e, s, h1, rs)
  | Ok ptr =>
      let job := server_job_build (Some EXECUTE_REQUEST) (Some SERVER_JOB_CLEANUP) ptr in
      '(submitted, s', c) ← pool_submit s job;
      '(h2, rs') ← run_cleanups h1 (option_list c);
      Some (submitted, s', h2, rs ++ rs')
  end.

(** ** A client of the accept loop *)

(** [struct timeval] for a timeout in milliseconds. *)
Definition timeval (timeout_ms : Z) : Z * Z := (Z.quot timeout_ms 1000, (Z.rem timeout_ms 1000 * 1000)%Z).

(** The [SO_RCVTIMEO] and [SO_SNDTIMEO] options of a socket, where they have been set. *)
Record Timeouts := mkTimeouts { rcvtimeo : option (Z * Z); sndtimeo : option (Z * Z) }.

(** [rcv_ok] and [snd_ok] are the results of the two [setsockopt] calls. *)
Definition server_socket_set_timeout (timeout_ms : Z) (rcv_ok snd_ok : bool) : bool * Timeouts :=
  if (timeout_ms <=? 0)%Z then (true, mkTimeouts None None)
  else
    let timeout := timeval timeout_ms in
    if negb rcv_ok then (false, mkTimeouts None None)
    else if negb snd_ok then (false, mkTimeouts (Some timeout) None)
    else (true, mkTimeouts (Some timeout) (Some timeout)).

(** Calls on a socket with this option can wait for ever: it is not set, or set to zero. *)
Definition waits_for_ever (timeo : option (Z * Z)) : bool :=
  match timeo with None => true | Some (sec, usec) => (sec =? 0)%Z && (usec =? 0)%Z end.

(** An accepted connection: its socket, the results of [setsockopt], what the peer sends and
    what [send] returns. *)
Record Client := mkClient {
  fd : Z;
  rcv_ok : bool;
  snd_ok : bool;
  packets : list recv_event;
  peer : list send_event
}.

Inductive ClientOutcome :=
| TurnedAway (out : cstr)     (** answered with [out] and closed by the accept loop *)
| Request (raw : cstr).       (** a complete request, to be dispatched *)

(** [server_socket_handle_client] up to the dispatch. *)
Definition server_socket_handle_client (timeout_ms : Z) (c : Client) : ClientOutcome :=
  let answer status b := TurnedAway (server_socket_send_plain_response status b (peer c)).1.1 in
  if negb (server_socket_set_timeout timeout_ms (rcv_ok c) (snd_ok c)).1 then TurnedAway []
  else
    match server_socket_read_request (packets c) with
    | Some (SERVER_REQUEST_READ_OK buf) => Request buf
    | Some (SERVER_REQUEST_READ_TOO_LARGE _) =>
        answer «"413 Payload Too Large"» («"request exceeded the temporary API skeleton limit"» ++ [LF])
    | Some SERVER_REQUEST_READ_EMPTY => answer «"400 Bad Request"» («"empty request received"» ++ [LF])
    | Some (SERVER_REQUEST_READ_ERROR e) =>
        answer «"400 Bad Request"» (message_or (message e) («"failed to read request"» ++ [LF]))
    | None => TurnedAway []
    end.

(** ** Lemmas *)

(** The timeout given to the socket is the configured one, in a valid [struct timeval]. *)
Lemma timeval_valid ms :
  (0 <= ms)%Z → let '(sec, usec) := timeval ms in
  (0 <= sec ∧ 0 <= usec < 1000000 ∧ sec * 1000000 + usec = ms * 1000)%Z.
Proof.
  intros Hms. unfold timeval. rewrite Z.quot_div_nonneg, Z.rem_mod_nonneg by lia.
  pose proof (Z.div_mod ms 1000). pose proof (Z.mod_pos_bound ms 1000). pose proof (Z.div_pos ms 1000). lia.
Qed.

(** With a positive timeout no call on the socket of a client that is let in waits for ever. *)
Lemma set_timeout_limits ms rcv snd t :
  (0 < ms)%Z → server_socket_set_timeout ms rcv snd = (true, t) →
  waits_for_ever (rcvtimeo t) = false ∧ waits_for_ever (sndtimeo t) = false.
Proof.
  intros Hms. unfold server_socket_set_timeout. destruct (Z.leb_spec ms 0); [lia|].
  destruct rcv, snd; cbn [negb]; try done. intros [= <-]. cbn [rcvtimeo sndtimeo].
  pose proof (timeval_valid ms ltac:(lia)) as Hv. destruct (timeval ms) as [sec usec].
  assert (Hw : waits_for_ever (Some (sec, usec)) = false); [|done]. cbn [waits_for_ever].
  destruct (Z.eqb_spec sec 0), (Z.eqb_spec usec 0); cbn [andb]; lia.
Qed.

(** The payload of a dispatched request. *)
Definition payload_of (fd : Z) (raw : cstr) : ServerJobData := mkServerJobData fd (Some raw) (N.of_nat (length raw)) true.

Definition request_job (ptr : nat) : Job := server_job_build (Some EXECUTE_REQUEST) (Some SERVER_JOB_CLEANUP) ptr.

Lemma create_job_data_ok h fd raw :
  (0 <= fd)%Z → raw ≠ [] →
  server_socket_create_job_data h fd raw true = Some (Ok (length h), h ++ [Some (payload_of fd raw)], []).
Proof.
  intros Hfd Hraw. unfold server_socket_create_job_data, server_job_data_validate. simpl.
  destruct (Z.ltb_spec fd 0); [lia|]. destruct (N.eqb_spec (N.of_nat (length raw)) 0) as [Hl|]; [|done].
  by destruct raw.
Qed.

Lemma cleanup_live h ptr fd raw :
  (0 <= fd)%Z → h !! ptr = Some (Some (payload_of fd raw)) →
  server_job_cleanup h ptr = Some (<[ptr := None]> h, (Some fd, Some raw)).
Proof.
  intros Hfd Hp. unfold server_job_cleanup. rewrite Hp. unfold server_job_data_destroy. simpl.
  by rewrite (proj2 (Z.leb_le 0 fd)).
Qed.

Lemma run_cleanups_one h f ptr h' r :
  server_job_cleanup h ptr = Some (h', r) → run_cleanups h [(f, ptr)] = Some (h', [r]).
Proof. intros Hc. cbn [run_cleanups]. by rewrite Hc. Qed.

Lemma pool_submit_step s job r s' c : pool_submit s job = Some (r, s', c) → pool_step s s'.
Proof.
  destruct s as [p ws j a r0 t e f k]. unfold pool_submit. simpl.
  destruct (thread_pool_submit p job) as [[[[[]|er] p'] c']|] eqn:Hs; [| |done]; intros [= <- <- <-].
  - by eapply step_submit_ok.
  - by eapply step_submit_refused.
Qed.

(** The three ways a dispatch of a valid request can end. *)
Lemma dispatch_cases s h fd raw r s' h' rs :
  (0 <= fd)%Z → raw ≠ [] → server_socket_dispatch_request s h fd raw = Some (r, s', h', rs) →
  pool_step s s' ∧
  ((r = Ok () ∧ accepted s' = accepted s ++ [request_job (length h)] ∧ refused s' = refused s ∧
    cleanups s' = cleanups s ∧ h' = h ++ [Some (payload_of fd raw)] ∧ rs = []) ∨
   (∃ e, r = Err e ∧ accepted s' = accepted s ∧ refused s' = refused s ++ [request_job (length h)] ∧
    cleanups s' = cleanups s ++ [(SERVER_JOB_CLEANUP, length h)] ∧ h' = h ++ [None] ∧ rs = [(Some fd, Some raw)])) ∧
  executed s' = executed s.
Proof.
  intros Hfd Hraw. unfold server_socket_dispatch_request. rewrite create_job_data_ok by done. cbn [mbind option_bind].
  fold (request_job (length h)).
  destruct (pool_submit s (request_job (length h))) as [[[r0 s0] c]|] eqn:Hs; cbn [mbind option_bind]; [|done].
  pose proof (pool_submit_step _ _ _ _ _ Hs) as Hstep. unfold pool_submit in Hs.
  destruct (thread_pool_submit (pool s) (request_job (length h))) as [[[[[]|er] p'] c']|] eqn:Ht; [| |done];
    injection Hs as <- <- <-.
  - apply submit_accepted in Ht as (_ & -> & q & _ & ->). cbn. intros [= <- <- <- <-].
    split_and!; [done| |done]. left. simpl. by rewrite app_nil_r.
  - apply submit_refused in Ht as [-> ->].
    change (option_list (cleanup_call (request_job (length h)))) with [(SERVER_JOB_CLEANUP, length h)].
    rewrite (run_cleanups_one _ _ _ (h ++ [None]) (Some fd, Some raw)).
    + cbn [mbind option_bind]. intros [= <- <- <- <-]. split_and!; [done| |done]. right. by exists er.
    + rewrite (cleanup_live _ _ fd raw) by (done || by rewrite lookup_app_r, Nat.sub_diag by lia).
      by rewrite insert_app_r_alt, Nat.sub_diag by lia.
Qed.
