(* ===== verification/ClientMemory.v ===== *)
(** * [socket_server.c], [server_job_stub.c]: the memory of a client

    The accept loop again, for one client, with what it takes: the socket, the buffer the request
    is read into, which grows, and the payload of the job.  Any request for memory can fail.  A
    payload that the pool has taken is given back by [server_job_cleanup]. *)

From stdpp Require Import base list strings sets gmap.
From Stdlib Require Import Ascii.
From S2P Require Import Prelude CString Common Memory Schema HttpProtocol SocketServer Server JobQueue ThreadPool ServerJob.

Local Open Scope nat_scope.

(** ** Reading the request *)

(** The end of the loop: a buffer that is not handed out is freed. *)
Definition finish_read_mem (b : nat) (s : ReadState) : M (option (ServerRequestReadStatus * option nat)) :=
  match finish_read s with
  | SERVER_REQUEST_READ_OK buf => mret (Some (SERVER_REQUEST_READ_OK buf, Some b))
  | status => _ ← Memory.release b; mret (Some (status, None))
  end.

(** The receive loop with the buffer [b]: the status and the buffer that is handed out.  [None] is
    not reached ([SocketServer.read_loop_total]). *)
Fixpoint read_loop_mem (fuel : nat) (b : nat) (s : ReadState) (events : list recv_event)
    : M (option (ServerRequestReadStatus * option nat)) :=
  match fuel with
  | O => _ ← Memory.release b; mret None
  | S fuel =>
      match before_recv s with
      | Err e => _ ← Memory.release b; mret (Some (SERVER_REQUEST_READ_TOO_LARGE e, None))
      | Ok s1 =>
          grown ← (if (buffer_length s =? read_capacity s)%N then realloc (Some b) else mret (Some b));
          match grown with
          | None =>
              _ ← Memory.release b;
              mret (Some (SERVER_REQUEST_READ_ERROR (sql_set_error 0 0 «"failed to grow request buffer"»), None))
          | Some b =>
              match events with
              | [] | Bytes [] :: _ => finish_read_mem b s1
              | Interrupted :: events' => read_loop_mem fuel b s1 events'
              | TimedOut :: _ => finish_read_mem b s1
              | Failed :: _ =>
                  _ ← Memory.release b;
                  mret (Some (SERVER_REQUEST_READ_ERROR (sql_set_error 0 0 «"failed to receive request bytes"»), None))
              | Bytes chunk :: events' =>
                  let room := N.to_nat (read_capacity s1 - buffer_length s1) in
                  match update_headers (mkReadState (buffer s1 ++ take room chunk) (read_capacity s1) (headers s1)) with
                  | Err e => _ ← Memory.release b; mret (Some (SERVER_REQUEST_READ_ERROR e, None))
                  | Ok s2 =>
                      if request_complete s2 then finish_read_mem b s2
                      else
                        let rest := match drop room chunk with [] => events' | remaining => Bytes remaining :: events' end in
                        read_loop_mem fuel b s2 rest
                  end
              end
          end
      end
  end.

Definition server_socket_read_request_mem (events : list recv_event) : M (option (ServerRequestReadStatus * option nat)) :=
  buf ← malloc;
  match buf with
  | None => mret (Some (SERVER_REQUEST_READ_ERROR (sql_set_error 0 0 «"failed to allocate request buffer"»), None))
  | Some b =>
      read_loop_mem (S (events_size events)) b (mkReadState [] SERVER_REQUEST_INITIAL_CAPACITY None) events
  end.

(** ** The payload *)

(** The payload at [jd_block]; [jd_socket] is the socket that [client_fd] names. *)
Record MJobData := mkMJobData { jd_block : nat; jd_socket : nat; jd_buffer : nat; jd_data : ServerJobData }.

Definition server_job_data_destroy_mem (d : MJobData) : M () :=
  _ ← (if (0 <=? client_fd (jd_data d))%Z then Memory.release (jd_socket d) else mret ());
  match raw_request (jd_data d) with Some _ => Memory.release (jd_buffer d) | None => mret () end.

Definition server_job_cleanup_mem (d : MJobData) : M () :=
  _ ← server_job_data_destroy_mem d;
  Memory.release (jd_block d).

Definition server_socket_create_job_data_mem (sock : nat) (fd : Z) (b : nat) (raw : cstr) (handler : bool)
    : M (result SqlError MJobData) :=
  job_data ← malloc;
  match job_data with
  | None =>
      _ ← Memory.release b;
      _ ← Memory.release sock;
      mret (fail «"failed to allocate server job payload"»)
  | Some j =>
      let data := server_job_data_init zero_job_data fd (Some raw) (N.of_nat (length raw)) handler in
      match server_job_data_validate data with
      | Err e => _ ← server_job_cleanup_mem (mkMJobData j sock b data); mret (Err e)
      | Ok _ => mret (Ok (mkMJobData j sock b data))
      end
  end.

(** ** The client *)

(** How handling a client ends.  [Waiting]: [thread_pool_submit] waits for room in the queue. *)
Inductive ClientEnd :=
| Answered (out : cstr)                          (** answered and closed, returns 1 *)
| Queued (d : MJobData) (p : ThreadPool)         (** handed to the pool, returns 1 *)
| Waiting (d : MJobData)
| Ended (e : SqlError) (p : ThreadPool).         (** returns 0, which ends the accept loop *)

Definition server_socket_dispatch_request_mem (p : ThreadPool) (sock : nat) (fd : Z) (b : nat) (raw : cstr) : M ClientEnd :=
  created ← server_socket_create_job_data_mem sock fd b raw true;
  match created with
  | Err e => mret (Ended e p)
  | Ok d =>
      match thread_pool_submit p (server_job_build (Some EXECUTE_REQUEST) (Some SERVER_JOB_CLEANUP) (jd_block d)) with
      | None => mret (Waiting d)
      | Some (Ok _, p, _) => mret (Queued d p)
      | Some (Err e, p, None) => mret (Ended e p)
      | Some (Err e, p, Some _) => _ ← server_job_cleanup_mem d; mret (Ended e p)
      end
  end.

(** An answer of the accept loop: the socket is closed. *)
Definition turn_away (c : Client) (sock : nat) (status b : cstr) : M ClientEnd :=
  let out := (server_socket_send_plain_response status b (peer c)).1.1 in
  _ ← Memory.release sock;
  mret (Answered out).

Definition server_socket_handle_client_mem (p : ThreadPool) (timeout_ms : Z) (c : Client) (sock : nat) : M ClientEnd :=
  if negb (server_socket_set_timeout timeout_ms (rcv_ok c) (snd_ok c)).1 then
    _ ← Memory.release sock; mret (Answered [])
  else
    read ← server_socket_read_request_mem (packets c);
    match read with
    | Some (SERVER_REQUEST_READ_OK buf, Some b) => server_socket_dispatch_request_mem p sock (fd c) b buf
    | Some (SERVER_REQUEST_READ_TOO_LARGE _, _) =>
        turn_away c sock «"413 Payload Too Large"» («"request exceeded the temporary API skeleton limit"» ++ [LF])
    | Some (SERVER_REQUEST_READ_EMPTY, _) =>
        turn_away c sock «"400 Bad Request"» («"empty request received"» ++ [LF])
    | Some (SERVER_REQUEST_READ_ERROR e, _) =>
        turn_away c sock «"400 Bad Request"» (message_or (message e) («"failed to read request"» ++ [LF]))
    | Some (SERVER_REQUEST_READ_OK _, None) | None => _ ← Memory.release sock; mret (Answered [])
    end.

(** ** Specification *)

Definition read_blocks (r : option (ServerRequestReadStatus * option nat)) : list nat :=
  match r with Some (_, p) => ptr p | None => [] end.

(** A request is handed out only with its buffer, and then it is the one [pure] reads. *)
Definition read_sound (pure : option ServerRequestReadStatus) (r : option (ServerRequestReadStatus * option nat)) : Prop :=
  match r with
  | Some (SERVER_REQUEST_READ_OK buf, p) => is_Some p ∧ pure = Some (SERVER_REQUEST_READ_OK buf) ∧ buf ≠ []
  | Some (_, p) => p = None
  | None => True
  end.

Definition job_blocks (d : MJobData) : list nat := [jd_socket d; jd_buffer d; jd_block d].

Definition client_blocks (o : ClientEnd) : list nat :=
  match o with Queued d _ | Waiting d => job_blocks d | Answered _ | Ended _ _ => [] end.

(** The payload is that of the request that the client sent. *)
Definition carries (timeout_ms : Z) (c : Client) (d : MJobData) : Prop :=
  ∃ raw, server_socket_handle_client timeout_ms c = Request raw ∧ jd_data d = payload_of (fd c) raw.

Definition client_sound (p : ThreadPool) (timeout_ms : Z) (c : Client) (o : ClientEnd) : Prop :=
  match o with
  | Queued d p' => carries timeout_ms c d ∧ thread_pool_submit p (request_job (jd_block d)) = Some (Ok (), p', None)
  | Waiting d => carries timeout_ms c d ∧ thread_pool_submit p (request_job (jd_block d)) = None
  | Answered _ | Ended _ _ => True
  end.

(** What [ServerJob] says that happens to the client. *)
Definition client_agrees (p : ThreadPool) (timeout_ms : Z) (c : Client) (o : ClientEnd) : Prop :=
  match o with
  | Answered out => server_socket_handle_client timeout_ms c = TurnedAway out
  | Queued d _ | Waiting d => carries timeout_ms c d
  | Ended e p' => ∃ raw j call, server_socket_handle_client timeout_ms c = Request raw ∧
                    thread_pool_submit p (request_job j) = Some (Err e, p', call)
  end.

(** ** Lemmas *)

Lemma triple_finish_read b s :
  triple [b] (finish_read_mem b s) read_blocks (read_sound (Some (finish_read s))) (λ r, fst <$> r = Some (finish_read s)).
Proof.
  unfold finish_read_mem. assert (Hok : ∀ buf, finish_read s = SERVER_REQUEST_READ_OK buf → buf ≠ []).
  { intros buf. unfold finish_read, buffer_length. repeat case_match; intros [= <-] Hb. rewrite Hb in *. done. }
  destruct (finish_read s) as [buf| |e|e]; [|call triple_release with (@nil nat); by finish..].
  finish. split_and!; [by eexists|done|by apply Hok].
Qed.

Lemma triple_grow_buffer (full : bool) b :
  triple [b] (if full then realloc (Some b) else mret (Some b)) (λ r, match r with Some b' => [b'] | None => [b] end)
    (λ _, True) (λ r, is_Some r).
Proof. destruct full; [apply (triple_realloc (Some b))|by finish]. Qed.

Lemma triple_read_loop fuel b s events :
  triple [b] (read_loop_mem fuel b s events) read_blocks (read_sound (read_loop fuel s events))
    (λ r, fst <$> r = read_loop fuel s events).
Proof.
  revert b s events. induction fuel as [|fuel IH]; intros b s events; cbn [read_loop read_loop_mem].
  { call triple_release with (@nil nat). by finish. }
  destruct (before_recv s) as [s1|e]; [|call triple_release with (@nil nat); by finish].
  call triple_grow_buffer with (@nil nat) as [b1|] _; [|call triple_release with (@nil nat); by finish; intros _ [? ?]].
  clear b. rename b1 into b.
  destruct events as [|[[|ch chunk]| | |] events].
  - eapply triple_conseq; [apply triple_finish_read|done|auto].
  - eapply triple_conseq; [apply triple_finish_read|done|auto].
  - set (rm := N.to_nat _). destruct (update_headers _) as [s2|e]; [|call triple_release with (@nil nat); by finish].
    destruct (request_complete s2); (eapply triple_conseq; [apply triple_finish_read || apply IH|done|auto]).
  - eapply triple_conseq; [apply IH|done|auto].
  - eapply triple_conseq; [apply triple_finish_read|done|auto].
  - call triple_release with (@nil nat). by finish.
Qed.

Lemma triple_read_request events :
  triple [] (server_socket_read_request_mem events) read_blocks (read_sound (server_socket_read_request events))
    (λ r, fst <$> r = server_socket_read_request events).
Proof.
  unfold server_socket_read_request_mem, server_socket_read_request. generalize (S (events_size events)). intros fuel.
  call triple_acquire with (@nil nat) as [b|] _; [|by finish; intros [? ?]].
  eapply triple_conseq; [apply triple_read_loop|done|auto].
Qed.

Lemma triple_cleanup d fd raw :
  (0 <= fd)%Z → jd_data d = payload_of fd raw →
  triple (job_blocks d) (server_job_cleanup_mem d) (λ _, []) (λ _, True) (λ _, True).
Proof.
  intros Hfd Hd. unfold server_job_cleanup_mem, server_job_data_destroy_mem, job_blocks. rewrite Hd. simpl.
  rewrite (proj2 (Z.leb_le 0 fd)) by done.
  eapply (triple_seq [jd_block d] _ _ _ [jd_socket d; jd_buffer d] (λ _, []) _ (λ _, True) (λ _, True)); [|done|].
  - call triple_release with [jd_buffer d]. eapply triple_conseq; [apply triple_release|done|auto].
  - intros [] _. eapply triple_conseq; [apply triple_release|done|auto].
Qed.

Lemma triple_create_job_data sock fd b raw :
  (0 <= fd)%Z → raw ≠ [] →
  triple [sock; b] (server_socket_create_job_data_mem sock fd b raw true)
    (λ r, match r with Ok d => job_blocks d | Err _ => [] end)
    (λ r, match r with Ok d => jd_data d = payload_of fd raw | Err _ => True end) (λ r, is_ok r = true).
Proof.
  intros Hfd Hraw. unfold server_socket_create_job_data_mem. call triple_acquire with [sock; b] as [j|] _.
  - unfold server_job_data_validate. simpl. destruct (Z.ltb_spec fd 0); [lia|].
    destruct (N.eqb_spec (N.of_nat (length raw)) 0) as [Hl|]; [by destruct raw|]. by finish.
  - call triple_release with [sock]. call triple_release with (@nil nat). by finish.
Qed.

Lemma triple_turn_away c sock status txt :
  triple [sock] (turn_away c sock status txt) client_blocks (λ o, o = Answered (server_socket_send_plain_response status txt (peer c)).1.1) (λ _, True).
Proof. unfold turn_away. call triple_release with (@nil nat). by finish. Qed.

Lemma triple_dispatch p timeout_ms c sock b raw :
  (0 <= fd c)%Z → raw ≠ [] → server_socket_handle_client timeout_ms c = Request raw →
  triple [sock; b] (server_socket_dispatch_request_mem p sock (fd c) b raw) client_blocks
    (client_sound p timeout_ms c) (client_agrees p timeout_ms c).
Proof.
  intros Hfd Hraw Hc. unfold server_socket_dispatch_request_mem.
  call triple_create_job_data with (@nil nat) as [d|e] Hd; [done|done|..].
  2: { by finish. }
  fold (request_job (jd_block d)).
  assert (Hcar : carries timeout_ms c d) by (by exists raw).
  destruct (thread_pool_submit p (request_job (jd_block d))) as [[[[[]|e] p'] call]|] eqn:Hs.
  - apply triple_ret; [done| |done]. split; [done|]. rewrite Hs.
    by apply submit_accepted in Hs as (_ & -> & _).
  - pose proof (submit_refused _ _ _ _ _ Hs) as [-> ->]. simpl.
    call triple_cleanup with (@nil nat); [done|done|..]. finish. exists raw. eauto.
  - by apply triple_ret.
Qed.

(** The accept loop answers by itself. *)
Ltac turned_away Ht :=
  eapply triple_conseq; [apply triple_turn_away|done|]; intros o ->; split_and!; [done|done|];
  intros _ Hpure; simpl; unfold server_socket_handle_client; by rewrite Ht, <- Hpure.

Lemma triple_handle_client p timeout_ms c sock :
  (0 <= fd c)%Z →
  triple [sock] (server_socket_handle_client_mem p timeout_ms c sock) client_blocks
    (client_sound p timeout_ms c) (client_agrees p timeout_ms c).
Proof.
  intros Hfd. unfold server_socket_handle_client_mem.
  destruct (server_socket_set_timeout timeout_ms (rcv_ok c) (snd_ok c)).1 eqn:Ht; simpl.
  2: { call triple_release with (@nil nat). finish. unfold server_socket_handle_client. by rewrite Ht. }
  call triple_read_request with [sock] as [[[buf| |e|e] b]|] Hr; simpl in Hr.
  - destruct Hr as ([b' ->] & Hread & Hbuf).
    eapply triple_conseq; [apply (triple_dispatch p timeout_ms); [done|done|]|simpl; solve_Permutation|auto].
    unfold server_socket_handle_client. by rewrite Ht, Hread.
  - subst b. turned_away Ht.
  - subst b. turned_away Ht.
  - subst b. turned_away Ht.
  - call triple_release with (@nil nat). finish. intros _ Hpure. unfold server_socket_handle_client. by rewrite Ht, <- Hpure.
Qed.

(** ** Properties *)

(** C33. Handling a client with failing allocations.  Whatever requests fail while the request is
    read and handed to the pool, nothing is given back twice: when the accept loop keeps nothing
    for the pool, the socket is closed and everything it took is given back; when it hands a
    job to the pool, or waits to do so, what is held is the socket, the buffer and the payload
    of the request that the client sent, and [server_job_cleanup] gives back exactly these.  When
    no request fails the client is treated as [ServerJob.server_socket_handle_client] says. *)
Theorem client_memory (p : ThreadPool) (timeout_ms : Z) (c : Client) (sock : nat) (mem : Mem) (others : list nat) :
  mem_ok mem → held mem ≡ₚ sock :: others → (0 <= fd c)%Z →
  let '(o, mem') := server_socket_handle_client_mem p timeout_ms c sock mem in
  mem_ok mem' ∧ held mem' ≡ₚ client_blocks o ++ others ∧ client_sound p timeout_ms c o ∧
  (all_succeed mem → client_agrees p timeout_ms c o) ∧
  ∀ d, carries timeout_ms c d → ∀ m2 others2, mem_ok m2 → held m2 ≡ₚ job_blocks d ++ others2 →
    mem_ok (server_job_cleanup_mem d m2).2 ∧ held (server_job_cleanup_mem d m2).2 ≡ₚ others2.
Proof.
  intros Hm Hh Hfd. destruct (triple_handle_client p timeout_ms c sock Hfd mem others Hm Hh) as (Hm1 & Hh1 & HQ & HR).
  destruct (server_socket_handle_client_mem p timeout_ms c sock mem) as [o mem']; simpl in *.
  split_and!; [done|done|done|by intros Hall; apply HR|]. intros d (raw & _ & Hd) m2 others2 Hm2 Hh2.
  by destruct (triple_cleanup d (fd c) raw Hfd Hd m2 others2 Hm2 Hh2) as (? & ? & _).
Qed.

(** ** Examples *)

Definition sample_client : Client :=
  mkClient 4 true true [Bytes (print_request «"POST"» «"/"» «"HTTP/1.1"» [«"Content-Length: 9"»] «"SELECT 1;"»)] [].

Definition running_pool : ThreadPool := mkThreadPool 1 true (mkJobQueue 2 0 0 0 false [zero_job; zero_job]).

(** The payload cannot be allocated: the client is disconnected, and the accept loop ends. *)
Lemma payload_failure_ends_server :
  let '(o, mem') := server_socket_handle_client_mem running_pool 5000 sample_client 0 (mkMem [0] 1 [true; false] false) in
  match o with Ended _ _ => True | _ => False end ∧ held mem' = [] ∧ fault mem' = false.
Proof. vm_compute. done. Qed.

Lemma client_memory_witness :
  let mem := mkMem [0; 9] 10 [] false in
  let '(o, mem') := server_socket_handle_client_mem running_pool 5000 sample_client 0 mem in
  mem_ok mem' ∧ held mem' ≡ₚ client_blocks o ++ [9] ∧ client_sound running_pool 5000 sample_client o ∧
  (all_succeed mem → client_agrees running_pool 5000 sample_client o) ∧
  ∀ d, carries 5000 sample_client d → ∀ m2 others2, mem_ok m2 → held m2 ≡ₚ job_blocks d ++ others2 →
    mem_ok (server_job_cleanup_mem d m2).2 ∧ held (server_job_cleanup_mem d m2).2 ≡ₚ others2.
Proof.
  intros mem. apply (client_memory running_pool 5000 sample_client 0 mem [9]).
  - split_and!; [reflexivity|apply (bool_decide_unpack _); vm_compute; exact I|apply (bool_decide_unpack _); vm_compute; exact I].
  - reflexivity.
  - vm_compute. discriminate.
Defined.
