(* ===== verification/ServerMain.v ===== *)
(** * [server_config.c], [server_main.c], [server_runtime_main.c] under [src/src/server/api]: starting the server

    The configuration, its defaults, the command-line arguments and the validation, what
    [server_create] builds, and opening and closing the listening socket.  The results of the
    socket calls are inputs; the calls made are a trace. *)

From stdpp Require Import base list strings sets gmap.
From Stdlib Require Import Ascii.
From S2P Require Import Prelude CString Common Index BPTree Schema Storage DbContext Executor SqlService JobQueue ThreadPool.

Definition SERVER_HOST_BUFFER_SIZE : nat := 64.

(** [host] and [config_db_root] are the strings in their buffers, NUL terminated. *)
Record ServerConfig := mkServerConfig {
  host : cstr;
  config_db_root : cstr;
  port : Z;
  backlog : Z;
  config_worker_count : Z;
  config_queue_capacity : Z;
  client_read_timeout_ms : Z
}.

Definition server_config_set_defaults : ServerConfig :=
  mkServerConfig «"0.0.0.0"» «"./data"» 8080 128 4 128 3000.

Definition parse_port_value (text : cstr) : result SqlError Z :=
  let '(parsed, stop) := strtol text in
  if bool_decide (stop = text) || negb (Ascii.eqb (peek stop) NUL) then fail «"server port must be numeric"»
  else if (parsed <=? 0)%Z || (65535 <? parsed)%Z then fail «"server port must be between 1 and 65535"»
  else Ok parsed.

(** The argument loop; [--help] prints the usage and stops with the error record untouched. *)
Fixpoint parse_server_arguments (c : ServerConfig) (args : list cstr) : result SqlError ServerConfig :=
  match args with
  | [] => Ok c
  | arg :: args' =>
      let other := if bool_decide (arg = «"--help"») then Err (mkSqlError 0 0 [])
                   else fail («"unknown server argument: "» ++ arg) in
      match args' with
      | [] => other
      | v :: args'' =>
          if bool_decide (arg = «"--host"») then
            if Nat.leb SERVER_HOST_BUFFER_SIZE (length v) then fail «"server host is too long"»
            else parse_server_arguments (mkServerConfig v (config_db_root c) (port c) (backlog c) (config_worker_count c)
                   (config_queue_capacity c) (client_read_timeout_ms c)) args''
          else if bool_decide (arg = «"--port"») then
            p ← parse_port_value v;
            parse_server_arguments (mkServerConfig (host c) (config_db_root c) p (backlog c) (config_worker_count c)
              (config_queue_capacity c) (client_read_timeout_ms c)) args''
          else if bool_decide (arg = «"--db"») then
            if Nat.leb SQL_PATH_BUFFER_SIZE (length v) then fail «"server db path is too long"»
            else parse_server_arguments (mkServerConfig (host c) v (port c) (backlog c) (config_worker_count c)
                   (config_queue_capacity c) (client_read_timeout_ms c)) args''
          else other
      end
  end.

Definition parse_server_args (args : list cstr) : result SqlError ServerConfig :=
  parse_server_arguments server_config_set_defaults args.

Definition server_config_validate (c : ServerConfig) : result SqlError () :=
  if Nat.leb SERVER_HOST_BUFFER_SIZE (length (host c)) then fail «"server host must be null terminated"»
  else if Nat.leb SQL_PATH_BUFFER_SIZE (length (config_db_root c)) then fail «"server db_root must be null terminated"»
  else if Nat.eqb (length (config_db_root c)) 0 then fail «"server db_root must not be empty"»
  else if (port c <=? 0)%Z || (65535 <? port c)%Z then fail «"server port must be between 1 and 65535"»
  else if (backlog c <=? 0)%Z then fail «"server backlog must be positive"»
  else if (config_worker_count c <=? 0)%Z then fail «"server worker_count must be positive"»
  else if (config_queue_capacity c <=? 0)%Z then fail «"server queue_capacity must be positive"»
  else if (client_read_timeout_ms c <? 0)%Z then fail «"server client_read_timeout_ms must not be negative"»
  else Ok ().

(** What [server_create] puts together: the pool and the service's context. *)
Definition server_create `{RowIndex Idx} (c : ServerConfig) : result SqlError (ThreadPool * DbContext Idx) :=
  _ ← server_config_validate c;
  p ← thread_pool_create (config_worker_count c) (config_queue_capacity c);
  ctx ← sql_service_create (config_db_root c);
  Ok (p, ctx).

(** ** The listening socket ([socket_server.c]) *)

(** A system call failed: the message with the text of [strerror(errno)]. *)
Definition server_set_errno_error {A} (context strerror : cstr) : result SqlError A :=
  fail (context ++ «": "» ++ strerror).

(** The results of the calls: the descriptor [socket] returns, whether the others succeed, and
    [strerror(errno)] after one that fails. *)
Record SocketCalls := mkSocketCalls {
  socket_fd : Z;
  reuse_ok : bool;
  bind_ok : bool;
  listen_ok : bool;
  errno_text : cstr
}.

(** The calls that were made.  An address is the four bytes of the host and the two of the
    port, in network order. *)
Inductive SocketCall :=
| CallSocket (fd : Z)
| CallReuse (fd : Z)
| CallBind (fd : Z) (address : list Z) (port : Z * Z)
| CallListen (fd : Z) (backlog : Z)
| CallClose (fd : Z).

(** [htons((uint16_t) port)], as bytes. *)
Definition htons (p : Z) : Z * Z := let u := (p mod 65536)%Z in (u / 256, u mod 256)%Z.

(** [inet_pton(AF_INET, ...)]: [octets] are complete, [current] is the one being read; an octet
    has no leading zero. *)
Fixpoint inet_pton_loop (octets : list Z) (current : option Z) (text : cstr) : option (list Z) :=
  match text with
  | [] =>
      match current with
      | Some v => if Nat.eqb (length octets) 3 then Some (octets ++ [v]) else None
      | None => None
      end
  | c :: text' =>
      if isdigit c then
        let v := (default 0 current * 10 + digit_value c)%Z in
        if bool_decide (current = Some 0%Z) || (255 <? v)%Z then None
        else inet_pton_loop octets (Some v) text'
      else if Ascii.eqb c "." then
        match current with
        | Some v => if Nat.ltb (length octets) 3 then inet_pton_loop (octets ++ [v]) None text' else None
        | None => None
        end
      else None
  end.

Definition inet_pton (text : cstr) : option (list Z) := inet_pton_loop [] None text.

Definition server_socket_set_reuseaddr (calls : SocketCalls) : result SqlError () :=
  if reuse_ok calls then Ok () else server_set_errno_error «"failed to set SO_REUSEADDR"» (errno_text calls).

(** An empty host is all interfaces. *)
Definition bind_host (c : ServerConfig) : cstr := match host c with [] => «"0.0.0.0"» | h => h end.

Definition server_socket_open (c : ServerConfig) (calls : SocketCalls) : result SqlError Z * list SocketCall :=
  let s := socket_fd calls in
  if (s <? 0)%Z then (server_set_errno_error «"failed to create listen socket"» (errno_text calls), [])
  else
    match server_socket_set_reuseaddr calls with
    | Err e => (Err e, [CallSocket s; CallReuse s; CallClose s])
    | Ok _ =>
        match inet_pton (bind_host c) with
        | None => (fail «"server host must be a valid IPv4 address"», [CallSocket s; CallReuse s; CallClose s])
        | Some address =>
            let bound := [CallSocket s; CallReuse s; CallBind s address (htons (port c))] in
            if negb (bind_ok calls)
            then (server_set_errno_error «"failed to bind listen socket"» (errno_text calls), bound ++ [CallClose s])
            else if negb (listen_ok calls)
            then (server_set_errno_error «"failed to listen on socket"» (errno_text calls),
                  bound ++ [CallListen s (backlog c); CallClose s])
            else (Ok s, bound ++ [CallListen s (backlog c)])
        end
    end.

(** The new [listen_fd] and the descriptor that was closed. *)
Definition server_socket_close (listen_fd : Z) : Z * option Z :=
  if (listen_fd <? 0)%Z then (listen_fd, None) else ((-1)%Z, Some listen_fd).

(** ** Lemmas *)

(** Everything but the database path is valid. *)
Definition args_ok (c : ServerConfig) : Prop :=
  (length (host c) < SERVER_HOST_BUFFER_SIZE)%nat ∧ (length (config_db_root c) < SQL_PATH_BUFFER_SIZE)%nat ∧
  (0 < port c <= 65535)%Z ∧ backlog c = 128%Z ∧ config_worker_count c = 4%Z ∧ config_queue_capacity c = 128%Z ∧
  client_read_timeout_ms c = 3000%Z.

Lemma parse_port_value_range v p : parse_port_value v = Ok p → (0 < p <= 65535)%Z.
Proof.
  unfold parse_port_value. destruct (strtol v) as [parsed stop]. case_match; [done|].
  destruct ((parsed <=? 0)%Z || (65535 <? parsed)%Z) eqn:Hr; [done|]. intros <-%Ok_inj. breflect. lia.
Qed.

Lemma parse_server_arguments_ok args c c' : args_ok c → parse_server_arguments c args = Ok c' → args_ok c'.
Proof.
  remember (length args) as n eqn:Hn. revert args Hn c. induction (lt_wf n) as [n _ IH]; intros args -> c Hc.
  destruct args as [|arg [|v args]]; cbn [parse_server_arguments]; [by intros [= <-]|by case_bool_decide|].
  destruct Hc as (Hh & Hd & Hp & Hrest).
  case_bool_decide; [destruct (Nat.leb_spec SERVER_HOST_BUFFER_SIZE (length v)); [done|];
                     apply (IH (length args)); [simpl; lia|done|done]|].
  case_bool_decide; [destruct (parse_port_value v) as [p|] eqn:Hv; cbn [mbind result_bind]; [|done];
                     apply parse_port_value_range in Hv; apply (IH (length args)); [simpl; lia|done|done]|].
  case_bool_decide; [destruct (Nat.leb_spec SQL_PATH_BUFFER_SIZE (length v)); [done|];
                     apply (IH (length args)); [simpl; lia|done|done]|].
  by case_bool_decide.
Qed.

Lemma leb_lt_false a b : (a < b)%nat → Nat.leb b a = false.
Proof. apply Nat.leb_gt. Qed.

(** ** Lemmas: host addresses *)

Definition octet (v : Z) : Prop := (0 <= v <= 255)%Z.

(** The dotted text of an address. *)
Fixpoint dotted (octets : list Z) : cstr :=
  match octets with
  | [] => []
  | [v] => show_int v
  | v :: octets' => show_int v ++ "."%char :: dotted octets'
  end.

Lemma dotted_cons v octets : octets ≠ [] → dotted (v :: octets) = show_int v ++ "."%char :: dotted octets.
Proof. by destruct octets. Qed.

(** Reading the digits of an octet. *)
Lemma inet_pton_octet octets v text :
  octet v → inet_pton_loop octets None (show_int v ++ text) = inet_pton_loop octets (Some v) text.
Proof.
  intros Hv. rewrite <- (Z2Nat.id v) by apply Hv. assert (Hn : (Z.to_nat v < 256)%nat) by (destruct Hv; lia).
  revert Hn. generalize (Z.to_nat v). clear v Hv. intros n Hn.
  do 256 (destruct n as [|n]; [reflexivity|]). lia.
Qed.

(** The text of an octet and one more digit. *)
Lemma show_octet_digit v d :
  (0 < v <= 25)%Z → (0 <= d <= 9)%Z → show_int (v * 10 + d) = show_int v ++ show_int d.
Proof.
  intros Hv Hd. rewrite <- (Z2Nat.id v), <- (Z2Nat.id d) by lia.
  assert (Hm : (0 < Z.to_nat v < 26)%nat) by lia. assert (Hn : (Z.to_nat d < 10)%nat) by lia.
  revert Hm Hn. generalize (Z.to_nat v) (Z.to_nat d). clear. intros m n Hm Hn.
  do 26 (destruct m as [|m]; [do 10 (destruct n as [|n]; [reflexivity || lia|]); lia|]). lia.
Qed.

Lemma isdigit_show c : isdigit c = true → octet (digit_value c) ∧ (digit_value c <= 9)%Z ∧ show_int (digit_value c) = [c].
Proof. destruct c as [[] [] [] [] [] [] [] []]; vm_compute; intuition congruence. Qed.

Lemma inet_pton_sound octets current text a :
  from_option octet True current → inet_pton_loop octets current text = Some a →
  ∃ rest, a = octets ++ rest ∧ length a = 4%nat ∧ Forall octet rest ∧ rest ≠ [] ∧
    from_option show_int [] current ++ text = dotted rest.
Proof.
  revert octets current. induction text as [|c text IH]; intros octets current Hcur; cbn [inet_pton_loop].
  { destruct current as [v|]; [|done]. destruct (Nat.eqb_spec (length octets) 3) as [Hl|]; [|done]. intros [= <-].
    exists [v]. rewrite length_app, Hl. simpl. rewrite app_nil_r. split_and!; try done. by apply Forall_singleton. }
  destruct (isdigit c) eqn:Hc.
  - destruct (isdigit_show c Hc) as (Ho & Hd & Hshow).
    case_bool_decide as H0; [done|]. cbn [orb].
    destruct (Z.ltb_spec 255 (default 0 current * 10 + digit_value c)) as [|Hle]; [done|].
    intros (rest & -> & Hl & Hr & Hne & Ht)%IH; [|by destruct current; unfold octet in *; simpl in *; lia].
    exists rest. split_and!; try done. rewrite <- Ht. destruct current as [v|]; cbn [from_option id] in *;
      [|by rewrite Z.mul_0_l, Z.add_0_l, Hshow].
    unfold octet in *. assert (v ≠ 0)%Z by congruence. rewrite show_octet_digit by lia.
    by rewrite Hshow, <- app_assoc.
  - destruct (Ascii.eqb_spec c ".") as [->|]; [|done]. destruct current as [v|]; [|done].
    destruct (Nat.ltb (length octets) 3); [|done]. intros (rest & -> & Hl & Hr & Hne & Ht)%IH; [|done].
    simpl in Ht. subst text. exists (v :: rest). rewrite <- app_assoc in *. split_and!; try done; [by constructor|].
    cbn [from_option]. by rewrite dotted_cons.
Qed.

(** [inet_pton] accepts exactly the dotted texts of four octets. *)
Lemma inet_pton_iff text a : inet_pton text = Some a ↔ length a = 4%nat ∧ Forall octet a ∧ text = dotted a.
Proof.
  unfold inet_pton. split.
  - intros (rest & -> & Hl & Hr & _ & Ht)%inet_pton_sound; [|done].
    cbn [app from_option] in *. done.
  - intros (Hl & Hr & ->). destruct a as [|v1 [|v2 [|v3 [|v4 [|]]]]]; try done.
    repeat (apply Forall_cons in Hr as [? Hr]). cbn [dotted].
    do 3 (rewrite inet_pton_octet by done; cbn -[inet_pton_loop]; cbn [inet_pton_loop app length]; 
          change (isdigit ".") with false; cbn -[inet_pton_loop show_int]).
    rewrite <- (app_nil_r (show_int v4)), inet_pton_octet by done. reflexivity.
Qed.

(** The descriptors a trace of calls leaves open. *)
Fixpoint left_open (open : list Z) (trace : list SocketCall) : list Z :=
  match trace with
  | [] => open
  | CallSocket fd :: trace' => left_open (fd :: open) trace'
  | CallClose fd :: trace' => left_open (filter (λ x, x ≠ fd) open) trace'
  | _ :: trace' => left_open open trace'
  end.

Lemma htons_bytes p : (0 < p <= 65535)%Z → let '(hi, lo) := htons p in octet hi ∧ octet lo ∧ (hi * 256 + lo = p)%Z.
Proof.
  intros Hp. unfold htons, octet. rewrite (Z.mod_small p) by lia.
  pose proof (Z.div_mod p 256). pose proof (Z.mod_pos_bound p 256). lia.
Qed.

Lemma validated_port c : server_config_validate c = Ok () → (0 < port c <= 65535)%Z.
Proof.
  unfold server_config_validate. do 3 (case_match; [done|]).
  destruct ((port c <=? 0)%Z || (65535 <? port c)%Z) eqn:Hp; [done|]. intros _. breflect. lia.
Qed.

(** ** Properties *)

(** Opening the listening socket with a valid configuration either returns the socket, bound
    to exactly the configured IPv4 address and port (all interfaces for an empty host) and
    listening with the configured backlog, and leaves no other descriptor open, or it fails and
    leaves none open at all.  When the operating system grants every call, it succeeds exactly
    for a host that is four decimal octets without leading zeros, or empty. *)
Theorem server_socket_open_spec c calls r trace :
  server_config_validate c = Ok () → server_socket_open c calls = (r, trace) →
  match r with
  | Ok s =>
      left_open [] trace = [s] ∧
      ∃ a hi lo, trace = [CallSocket s; CallReuse s; CallBind s a (hi, lo); CallListen s (backlog c)] ∧
        length a = 4%nat ∧ Forall octet a ∧ bind_host c = dotted a ∧
        octet hi ∧ octet lo ∧ (hi * 256 + lo = port c)%Z
  | Err _ => left_open [] trace = []
  end ∧
  ((0 <= socket_fd calls)%Z → reuse_ok calls = true → bind_ok calls = true → listen_ok calls = true →
   (∃ s, r = Ok s) ↔ ∃ a, length a = 4%nat ∧ Forall octet a ∧ bind_host c = dotted a).
Proof.
  intros Hport%validated_port%htons_bytes. unfold server_socket_open, server_socket_set_reuseaddr.
  assert (Hself : ∀ s : Z, filter (λ x, x ≠ s) [s] = []) by (intros s; by rewrite filter_cons_False by auto).
  destruct (Z.ltb_spec (socket_fd calls) 0); [intros [= <- <-]; split; [done|lia]|].
  destruct (reuse_ok calls); [|intros [= <- <-]; split; [apply Hself|done]].
  destruct (inet_pton (bind_host c)) as [a|] eqn:Ha.
  - apply inet_pton_iff in Ha as Hd. destruct (htons (port c)) as [hi lo].
    destruct (bind_ok calls); [destruct (listen_ok calls)|]; simpl; intros [= <- <-];
      [|split; [apply Hself|done]..].
    split; [|intros _ _ _ _; split; eauto]. split; [done|]. exists a, hi, lo. intuition.
  - intros [= <- <-]. split; [apply Hself|]. intros _ _ _ _. split; [by intros [s ?]|].
    intros (a & Hd%inet_pton_iff). congruence.
Qed.

Lemma server_socket_open_spec_witness :
  server_socket_open server_config_set_defaults (mkSocketCalls 3 true true true []) =
    (Ok 3%Z, [CallSocket 3; CallReuse 3; CallBind 3 [0; 0; 0; 0]%Z (31, 144)%Z; CallListen 3 128]) ∧
  left_open [] [CallSocket 3; CallReuse 3; CallBind 3 [0; 0; 0; 0]%Z (31, 144)%Z; CallListen 3 128] = [3%Z].
Proof.
  split; [vm_compute; reflexivity|].
  apply (server_socket_open_spec server_config_set_defaults (mkSocketCalls 3 true true true [])
    (Ok 3%Z) [CallSocket 3; CallReuse 3; CallBind 3 [0; 0; 0; 0]%Z (31, 144)%Z; CallListen 3 128]).
  - vm_compute. reflexivity.
  - vm_compute. reflexivity.
Defined.

(** Accepted arguments make a server: the configuration passes the validation and every part is
    created, unless the database path was set to the empty string. *)
Theorem server_args_create `{RowIndex Idx} args c :
  parse_server_args args = Ok c → config_db_root c ≠ [] →
  ∃ p ctx, server_create (Idx := Idx) c = Ok (p, ctx) ∧ queue_ok (queue p) ∧ tables ctx = [] ∧
    db_root ctx = config_db_root c.
Proof.
  intros Hp Hne. apply parse_server_arguments_ok in Hp as (Hh & Hd & Hport & Hb & Hw & Hq & Ht).
  2:{ split_and!; try done; apply Nat.ltb_lt; vm_compute; reflexivity. }
  assert (Hlen : Nat.eqb (length (config_db_root c)) 0 = false) by (by destruct (config_db_root c)).
  unfold server_create, server_config_validate. rewrite !leb_lt_false, Hlen by done.
  rewrite (proj2 (Z.leb_gt (port c) 0)), (proj2 (Z.ltb_ge 65535 (port c))) by lia. rewrite Hb, Hw, Hq, Ht. simpl.
  unfold sql_service_create. rewrite Hlen, leb_lt_false by done. cbn [mbind result_bind].
  eexists _, _. split; [reflexivity|]. split; [by apply (create_ok 128)|]. split; [done|].
  simpl. unfold bounded. apply take_ge. unfold SQL_PATH_BUFFER_SIZE in *. lia.
Qed.
