(* ===== verification/Lifecycle.v ===== *)
(** * Creating and destroying the objects of the server

    [job_queue.c], [thread_pool.c], [sql_service.c], [db_guard.c], [request_handler.c] and
    [server_main.c]: the create and destroy functions, with every request (memory, mutex,
    condition variable) as a resource that can be refused.  The state inside the objects is that
    of [JobQueue], [ThreadPool] and [ContextMemory]. *)

From stdpp Require Import base list strings sets gmap.
From Stdlib Require Import Ascii.
From S2P Require Import Prelude CString Common Memory Index BPTree DbContext ContextMemory SqlService JobQueue ThreadPool ServerMain.

Local Open Scope nat_scope.

(** ** The objects *)

Record MQueue := mkMQueue {
  mq_block : nat; mq_jobs : nat; mq_mutex : nat; mq_not_empty : nat; mq_not_full : nat;
  mq_data : JobQueue
}.

Record MPool := mkMPool { mp_block : nat; mp_workers : nat; mp_count : Z; mp_started : bool; mp_queue : MQueue }.

Record MService := mkMService { ms_block : nat; ms_root : cstr; ms_context : MContext }.

(** [guard->ctx] and the pointers of the handler are not owned. *)
Record MGuard := mkMGuard { mg_block : nat; mg_context : nat }.
Record MHandler := mkMHandler { mh_block : nat; mh_service : nat; mh_guard : nat }.

(** [listen_fd] is the open descriptor, [None] for -1. *)
Record MServer := mkMServer {
  mv_block : nat;
  mv_listen : option nat;
  mv_pool : MPool;
  mv_service : MService;
  mv_guard : MGuard;
  mv_handler : MHandler
}.

(** ** Job queue *)

Definition job_queue_create_mem (cap : Z) : M (result SqlError MQueue) :=
  match job_queue_create cap with
  | Err e => mret (Err e)
  | Ok data =>
      queue ← malloc;
      match queue with
      | None => mret (fail «"failed to allocate job queue"»)
      | Some queue =>
          jobs ← malloc;
          match jobs with
          | None => _ ← release queue; mret (fail «"failed to allocate job queue buffer"»)
          | Some jobs =>
              mutex ← acquire;
              match mutex with
              | None => _ ← release jobs; _ ← release queue; mret (fail «"failed to initialize job queue mutex"»)
              | Some mutex =>
                  not_empty ← acquire;
                  match not_empty with
                  | None =>
                      _ ← release mutex; _ ← release jobs; _ ← release queue;
                      mret (fail «"failed to initialize job queue not_empty condition"»)
                  | Some not_empty =>
                      not_full ← acquire;
                      match not_full with
                      | None =>
                          _ ← release not_empty; _ ← release mutex; _ ← release jobs; _ ← release queue;
                          mret (fail «"failed to initialize job queue not_full condition"»)
                      | Some not_full => mret (Ok (mkMQueue queue jobs mutex not_empty not_full data))
                      end
                  end
              end
          end
      end
  end.

(** The cleanup calls it makes. *)
Definition job_queue_destroy_mem (q : MQueue) : M (list (nat * nat)) :=
  let calls := job_queue_destroy (mq_data q) in
  _ ← release (mq_not_full q);
  _ ← release (mq_not_empty q);
  _ ← release (mq_mutex q);
  _ ← release (mq_jobs q);
  _ ← release (mq_block q);
  mret calls.

(** ** Thread pool *)

Definition thread_pool_create_mem (workers queue_capacity : Z) : M (result SqlError MPool) :=
  if (workers <=? 0)%Z then mret (fail «"worker count must be positive"»)
  else if (queue_capacity <=? 0)%Z then mret (fail «"queue capacity must be positive"»)
  else
    p ← malloc;
    match p with
    | None => mret (fail «"failed to allocate thread pool"»)
    | Some p =>
        ws ← malloc;
        match ws with
        | None => _ ← release p; mret (fail «"failed to allocate thread pool workers"»)
        | Some ws =>
            r ← job_queue_create_mem queue_capacity;
            match r with
            | Err e => _ ← release ws; _ ← release p; mret (Err e)
            | Ok q => mret (Ok (mkMPool p ws workers false q))
            end
        end
    end.

(** [thread_pool_stop], when the workers it joins have exited. *)
Definition thread_pool_stop_mem (p : MPool) : MPool :=
  let q := mp_queue p in
  mkMPool (mp_block p) (mp_workers p) (mp_count p) false
    (mkMQueue (mq_block q) (mq_jobs q) (mq_mutex q) (mq_not_empty q) (mq_not_full q) (job_queue_close (mq_data q))).

Definition thread_pool_destroy_mem (p : MPool) : M (list (nat * nat)) :=
  let p := thread_pool_stop_mem p in
  calls ← job_queue_destroy_mem (mp_queue p);
  _ ← release (mp_workers p);
  _ ← release (mp_block p);
  mret calls.

(** ** SQL service, lock, request handler *)

Definition sql_service_create_mem (root : cstr) : M (result SqlError MService) :=
  match sql_service_create (Idx := BPTree) root with
  | Err e => mret (Err e)
  | Ok _ =>
      p ← malloc;
      match p with
      | None => mret (fail «"failed to allocate SQL service"»)
      | Some p =>
          r ← db_context_create_mem root;
          match r with
          | Err e => _ ← release p; mret (Err e)
          | Ok ctx => mret (Ok (mkMService p root ctx))
          end
      end
  end.

Definition sql_service_destroy (s : MService) : M () :=
  _ ← db_context_destroy (ms_context s);
  release (ms_block s).

Definition db_guard_create_mem (ctx : MContext) : M (result SqlError MGuard) :=
  p ← malloc;
  match p with
  | None => mret (fail «"db_guard_create failed to allocate guard"»)
  | Some p => mret (Ok (mkMGuard p (mc_block ctx)))
  end.

Definition db_guard_destroy (g : MGuard) : M () := release (mg_block g).

Definition request_handler_create_mem (s : MService) (g : MGuard) : M (result SqlError MHandler) :=
  p ← malloc;
  match p with
  | None => mret (fail «"failed to allocate request handler"»)
  | Some p => mret (Ok (mkMHandler p (ms_block s) (mg_block g)))
  end.

Definition request_handler_destroy (h : MHandler) : M () := release (mh_block h).

(** ** Server *)

Definition server_create_mem (c : ServerConfig) : M (result SqlError MServer) :=
  match server_config_validate c with
  | Err e => mret (Err e)
  | Ok _ =>
      server ← malloc;
      match server with
      | None => mret (fail «"failed to allocate server runtime"»)
      | Some server =>
          r ← thread_pool_create_mem (config_worker_count c) (config_queue_capacity c);
          match r with
          | Err e => _ ← release server; mret (Err e)
          | Ok pool =>
              r ← sql_service_create_mem (config_db_root c);
              match r with
              | Err e => _ ← thread_pool_destroy_mem pool; _ ← release server; mret (Err e)
              | Ok service =>
                  r ← db_guard_create_mem (ms_context service);
                  match r with
                  | Err e =>
                      _ ← sql_service_destroy service; _ ← thread_pool_destroy_mem pool; _ ← release server;
                      mret (Err e)
                  | Ok guard =>
                      r ← request_handler_create_mem service guard;
                      match r with
                      | Err e =>
                          _ ← db_guard_destroy guard; _ ← sql_service_destroy service;
                          _ ← thread_pool_destroy_mem pool; _ ← release server;
                          mret (Err e)
                      | Ok handler => mret (Ok (mkMServer server None pool service guard handler))
                      end
                  end
              end
          end
      end
  end.

(** [server_stop], when the workers it joins have exited. *)
Definition server_stop_mem (s : MServer) : M MServer :=
  _ ← free (mv_listen s);
  mret (mkMServer (mv_block s) None (thread_pool_stop_mem (mv_pool s)) (mv_service s) (mv_guard s) (mv_handler s)).

Definition server_destroy_mem (s : MServer) : M (list (nat * nat)) :=
  s ← server_stop_mem s;
  _ ← request_handler_destroy (mv_handler s);
  _ ← db_guard_destroy (mv_guard s);
  _ ← sql_service_destroy (mv_service s);
  calls ← thread_pool_destroy_mem (mv_pool s);
  _ ← release (mv_block s);
  mret calls.

(** ** Specification *)

Definition queue_blocks (q : MQueue) : list nat := [mq_block q; mq_jobs q; mq_mutex q; mq_not_empty q; mq_not_full q].
Definition pool_blocks (p : MPool) : list nat := mp_block p :: mp_workers p :: queue_blocks (mp_queue p).
Definition service_blocks (s : MService) : list nat := ms_block s :: context_blocks (ms_context s).
Definition server_blocks (s : MServer) : list nat :=
  mv_block s :: ptr (mv_listen s) ++ pool_blocks (mv_pool s) ++ service_blocks (mv_service s) ++
  [mg_block (mv_guard s); mh_block (mv_handler s)].

(** The pool of [ThreadPool] that this is in memory. *)
Definition pool_of (p : MPool) : ThreadPool := mkThreadPool (mp_count p) (mp_started p) (mq_data (mp_queue p)).

(** ** Lemmas *)

Lemma triple_queue_create cap :
  triple [] (job_queue_create_mem cap) (λ r, match r with Ok q => queue_blocks q | Err _ => [] end)
    (λ r, match r with Ok q => job_queue_create cap = Ok (mq_data q) | Err _ => True end)
    (λ r, match r with Err e => job_queue_create cap = Err e | Ok _ => True end).
Proof.
  unfold job_queue_create_mem, queue_blocks. destruct (job_queue_create cap) as [data|e]; [|by finish].
  call triple_acquire with (@nil nat) as [queue|] _; [|finish].
  call triple_acquire with [queue] as [jobs|] _; [|call triple_release with (@nil nat); finish].
  call triple_acquire with [jobs; queue] as [mutex|] _.
  2: { call triple_release with [queue]. call triple_release with (@nil nat). finish. }
  call triple_acquire with [mutex; jobs; queue] as [not_empty|] _.
  2: { call triple_release with [jobs; queue]. call triple_release with [queue]. call triple_release with (@nil nat). finish. }
  call triple_acquire with [not_empty; mutex; jobs; queue] as [not_full|] _; [finish|].
  call triple_release with [mutex; jobs; queue]. call triple_release with [jobs; queue]. call triple_release with [queue].
  call triple_release with (@nil nat). finish.
Qed.

Lemma triple_queue_destroy q :
  triple (queue_blocks q) (job_queue_destroy_mem q) (λ _, []) (λ calls, calls = job_queue_destroy (mq_data q)) (λ _, True).
Proof.
  unfold job_queue_destroy_mem, queue_blocks.
  call triple_release with [mq_block q; mq_jobs q; mq_mutex q; mq_not_empty q].
  call triple_release with [mq_block q; mq_jobs q; mq_mutex q]. call triple_release with [mq_block q; mq_jobs q].
  call triple_release with [mq_block q]. call triple_release with (@nil nat). finish.
Qed.

Lemma triple_pool_create workers cap :
  triple [] (thread_pool_create_mem workers cap) (λ r, match r with Ok p => pool_blocks p | Err _ => [] end)
    (λ r, match r with Ok p => thread_pool_create workers cap = Ok (pool_of p) | Err _ => True end)
    (λ r, match r with Err e => thread_pool_create workers cap = Err e | Ok _ => True end).
Proof.
  unfold thread_pool_create_mem, thread_pool_create, pool_blocks.
  destruct (workers <=? 0)%Z; [by finish|]. destruct (cap <=? 0)%Z; [by finish|].
  call triple_acquire with (@nil nat) as [p|] _; [|finish].
  call triple_acquire with [p] as [ws|] _; [|call triple_release with (@nil nat); finish].
  call triple_queue_create with [ws; p] as [q|e] Hq.
  - finish. by rewrite Hq.
  - call triple_release with [p]. call triple_release with (@nil nat). finish. by intros _ _ ->.
Qed.

Lemma triple_pool_destroy p :
  triple (pool_blocks p) (thread_pool_destroy_mem p) (λ _, [])
    (λ calls, calls = job_queue_destroy (mq_data (mp_queue p))) (λ _, True).
Proof.
  unfold thread_pool_destroy_mem, pool_blocks. simpl.
  eapply (triple_seq [mp_block p; mp_workers p]); [apply triple_queue_destroy|unfold queue_blocks; simpl; solve_Permutation|].
  intros calls ->. simpl. call triple_release with [mp_block p]. call triple_release with (@nil nat). finish.
Qed.

Lemma triple_service_create root :
  triple [] (sql_service_create_mem root) (λ r, match r with Ok s => service_blocks s | Err _ => [] end)
    (λ r, match r with
          | Ok s => ∃ ctx, sql_service_create root = Ok ctx ∧ same_context (ms_context s) ctx
          | Err _ => True
          end)
    (λ r, match r with Err e => sql_service_create (Idx := BPTree) root = Err e | Ok _ => True end).
Proof.
  unfold sql_service_create_mem, service_blocks. destruct (sql_service_create root) as [ctx|e] eqn:Hc; [|by finish].
  call triple_acquire with (@nil nat) as [p|] _; [|finish].
  unfold db_context_create_mem. eapply (triple_seq [p] _ _ _ [] (λ r, match r with Ok c => context_blocks c | Err _ => [] end) _
    (λ r, match r with Ok c => same_context c ctx | Err _ => True end) (λ r, is_ok r = true)); [|done|].
  { call triple_acquire with (@nil nat) as [b|] _; finish.
    unfold sql_service_create in Hc. repeat case_match; simplify_eq. by split; [|constructor]. }
  intros [c|e] Hr; simpl; [finish; eauto|]. call triple_release with (@nil nat). finish.
Qed.

Lemma triple_service_destroy s : triple (service_blocks s) (sql_service_destroy s) (λ _, []) (λ _, True) (λ _, True).
Proof.
  unfold sql_service_destroy, service_blocks. call triple_context_destroy with [ms_block s].
  eapply triple_conseq; [apply triple_release|done|auto].
Qed.

Lemma triple_server_destroy s :
  triple (server_blocks s) (server_destroy_mem s) (λ _, [])
    (λ calls, calls = job_queue_destroy (mq_data (mp_queue (mv_pool s)))) (λ _, True).
Proof.
  unfold server_destroy_mem, server_stop_mem, server_blocks. set (P := pool_blocks (mv_pool s)). set (S := service_blocks (mv_service s)).
  eapply (triple_seq (mv_block s :: P ++ S ++ [mg_block (mv_guard s); mh_block (mv_handler s)]) _ _ _ (ptr (mv_listen s)) (λ _, []) _
    (λ s', s' = mkMServer (mv_block s) None (thread_pool_stop_mem (mv_pool s)) (mv_service s) (mv_guard s) (mv_handler s)) (λ _, True));
    [|solve_Permutation|].
  { call triple_free with (@nil nat). finish. }
  intros s' ->. simpl. call triple_release with (mv_block s :: P ++ S ++ [mg_block (mv_guard s)]).
  call triple_release with (mv_block s :: P ++ S). call triple_service_destroy with (mv_block s :: P).
  call triple_pool_destroy with [mv_block s] as calls ->. call triple_release with (@nil nat). finish.
Qed.

(** The object that a create function of one block makes. *)
Lemma triple_object {A} (f : nat → A) (blocks : A → list nat) (msg : cstr) :
  (∀ p, blocks (f p) = [p]) →
  triple [] (p ← malloc; match p with None => mret (fail msg) | Some p => mret (Ok (f p)) end : M (result SqlError A))
    (λ r, match r with Ok a => blocks a | Err _ => [] end)
    (λ r, match r with Ok a => ∃ p, a = f p | Err _ => True end) (λ r, is_ok r = true).
Proof. intros Hb. call triple_acquire with (@nil nat) as [p|] _; finish; [by rewrite Hb|by eexists]. Qed.

Lemma triple_server_create c :
  triple [] (server_create_mem c) (λ r, match r with Ok s => server_blocks s | Err _ => [] end)
    (λ r, match r with
          | Ok s => (∃ ctx, server_create c = Ok (pool_of (mv_pool s), ctx) ∧ same_context (ms_context (mv_service s)) ctx) ∧
                    mg_context (mv_guard s) = mc_block (ms_context (mv_service s)) ∧
                    mh_service (mv_handler s) = ms_block (mv_service s) ∧ mh_guard (mv_handler s) = mg_block (mv_guard s)
          | Err _ => True
          end)
    (λ r, match r with Err e => server_create (Idx := BPTree) c = Err e | Ok _ => True end).
Proof.
  unfold server_create_mem, server_create. destruct (server_config_validate c) as [[]|e]; [|by finish].
  call triple_acquire with (@nil nat) as [server|] _; [|finish].
  call triple_pool_create with [server] as [pool|e] Hpool.
  2: { call triple_release with (@nil nat). finish. by intros _ ->. }
  rewrite Hpool. simpl. call triple_service_create with (server :: pool_blocks pool) as [service|e] Hservice.
  2: { call triple_pool_destroy with [server] as ? _. call triple_release with (@nil nat). finish. by intros _ _ ->. }
  destruct Hservice as (ctx & Hservice & Hctx). rewrite Hservice. simpl.
  set (F := server :: pool_blocks pool ++ service_blocks service).
  call (triple_object (λ p, mkMGuard p (mc_block (ms_context service))) (λ g, [mg_block g])) with F as [guard|e] Hguard; [done|..].
  2: { call triple_service_destroy with (server :: pool_blocks pool). call triple_pool_destroy with [server] as ? _.
       call triple_release with (@nil nat). finish. }
  call (triple_object (λ p, mkMHandler p (ms_block service) (mg_block guard)) (λ h, [mh_block h])) with (mg_block guard :: F) as [handler|e] Hh; [done|..].
  2: { call triple_release with F. call triple_service_destroy with (server :: pool_blocks pool).
       call triple_pool_destroy with [server] as ? _. call triple_release with (@nil nat). finish. }
  destruct Hguard as [? ->], Hh as [? ->]. apply triple_ret; [|split; [by eexists|done]|done].
  unfold server_blocks. simpl. subst F. solve_Permutation.
Qed.

(** ** Properties *)

(** C34. The life of the server's objects.  If [server_create] is refused any resource it returns
    NULL and has given back what it took, and nothing twice.  Otherwise what is held is the
    objects of the server, which are those of [ServerMain.server_create], linked to each other;
    and [server_destroy], whenever the workers have stopped, whatever tables are loaded then and
    whatever jobs are queued, gives back all of it and calls the cleanups of the queued jobs. *)
Theorem server_lifecycle (c : ServerConfig) (m : Mem) :
  mem_ok m →
  let '(r, m1) := server_create_mem c m in
  mem_ok m1 ∧
  match r with
  | Err e => held m1 ≡ₚ held m ∧ (all_succeed m → server_create (Idx := BPTree) c = Err e)
  | Ok s =>
      held m1 ≡ₚ server_blocks s ++ held m ∧
      (∃ ctx, server_create c = Ok (pool_of (mv_pool s), ctx) ∧ same_context (ms_context (mv_service s)) ctx) ∧
      mg_context (mv_guard s) = mc_block (ms_context (mv_service s)) ∧
      mh_service (mv_handler s) = ms_block (mv_service s) ∧ mh_guard (mv_handler s) = mg_block (mv_guard s) ∧
      ∀ s2 m2, mem_ok m2 → held m2 ≡ₚ server_blocks s2 ++ held m →
        let '(calls, m3) := server_destroy_mem s2 m2 in
        mem_ok m3 ∧ held m3 ≡ₚ held m ∧ calls = job_queue_destroy (mq_data (mp_queue (mv_pool s2)))
  end.
Proof.
  intros Hm. destruct (triple_server_create c m (held m) Hm) as (Hm1 & Hh1 & HQ & HR); [done|].
  destruct (server_create_mem c m) as [[s|e] m1]; simpl in *; (split; [done|]).
  - destruct HQ as (Hctx & Hg & Hs & Hgd). split_and!; [done..|]. intros s2 m2 Hm2 Hh2.
    destruct (triple_server_destroy s2 m2 (held m) Hm2 Hh2) as (? & ? & ? & _). by destruct (server_destroy_mem s2 m2).
  - split; [done|]. intros Hall. by apply HR.
Qed.

(** ** Examples *)

(** The condition variable [not_full] is refused. *)
Lemma server_lifecycle_witness :
  let m := mkMem [3] 4 [true; true; true; true; true; true; true; false] false in
  let '(r, m1) := server_create_mem server_config_set_defaults m in
  is_ok r = false ∧ mem_ok m1 ∧
  match r with
  | Err e => held m1 ≡ₚ held m
  | Ok s => held m1 ≡ₚ server_blocks s ++ held m
  end.
Proof.
  intros m. pose proof (server_lifecycle server_config_set_defaults m) as Hlife.
  destruct (server_create_mem server_config_set_defaults m) as [r m1] eqn:Hrun.
  destruct Hlife as [Hok Hr].
  - split_and!; [reflexivity|apply (bool_decide_unpack _); vm_compute; exact I|apply (bool_decide_unpack _); vm_compute; exact I].
  - split; [vm_compute in Hrun; injection Hrun as <- _; reflexivity|]. split; [exact Hok|].
    destruct r as [s|e]; exact (proj1 Hr).
Defined.
