(* ===== verification/ServerRun.v ===== *)
(** * [server_main.c], [socket_server.c], [server_runtime_main.c] under [src/src/server/api]: the running server

    The whole server as a transition system: the thread that calls [server_start], accepts
    clients and stops the pool, and the workers that execute and clean up the requests.  A step
    is a part of [server_start] or [server_stop] between two waits, one iteration of the accept
    loop, or one step of a worker with the callback it calls.  What the operating system and the
    clients do is an input of the step.  Executing a request is one step, which always returns:
    this file is about what the server owns (jobs, payloads, sockets) and gives back, while
    [ServerThreads] and [ServerProgress] take the execution apart and say what overlapping
    requests do and when they can be made to wait for ever.

    Freeing a payload twice, reading a freed one and closing a socket that is not open have no
    successor state; the theorems show that no reachable state gets there. *)

From stdpp Require Import base list strings sets gmap relations.
From Stdlib Require Import Ascii.
From S2P Require Import Prelude CString Common Parser Index BPTree Schema Storage DbContext Executor Main SqlService HttpProtocol RequestHandler SocketServer Server JobQueue ThreadPool ServerJob ServerMain.

(** Where the thread that called [server_start] is. *)
Inductive Phase :=
| Created                                  (** before [server_start] *)
| Accepting                                (** in [server_socket_accept_loop] *)
| StartFailed (e : SqlError)               (** [thread_pool_start] failed and joins its workers *)
| Leaving (r : result SqlError ())         (** the accept loop returned [r] *)
| Stopping (r : result SqlError ())        (** in [server_stop], joining the workers *)
| Returned (r : result SqlError ()).       (** [server_start] returned [r] *)

(** [close] on one of the open client sockets. *)
Fixpoint close_fd (x : Z) (open : list Z) : option (list Z) :=
  match open with
  | [] => None
  | y :: open' => if bool_decide (x = y) then Some open' else cons y <$> close_fd x open'
  end.

(** Close the sockets that cleanups released. *)
Fixpoint close_released (open : list Z) (rs : list release) : option (list Z) :=
  match rs with
  | [] => Some open
  | (Some x, _) :: rs' => open' ← close_fd x open; close_released open' rs'
  | (None, _) :: rs' => close_released open rs'
  end.

(** What [accept] returns. *)
Inductive AcceptResult :=
| Accepted (c : Client)
| AcceptInterrupted                  (** [EINTR] *)
| AcceptClosed                       (** [EBADF] or [EINVAL] *)
| AcceptFailed (strerror : cstr).    (** another error *)

Section Run.
Context `{RowIndex Idx}.

(** [DbServer], the payloads, the open client sockets and the logs: [requests] are the complete
    requests read, in order; [served] the executed ones with the bytes written, in order;
    [turned_away] the clients answered by the accept loop. *)
Record ServerState := mkServerState {
  phase : Phase;
  is_running : bool;
  listen_fd : Z;
  pool_state : PoolState;
  job_heap : heap;
  open_fds : list Z;
  requests : list (Z * cstr);
  served : list (Z * cstr * cstr);
  turned_away : list (Z * cstr);
  context : DbContext Idx;
  world : World
}.

Definition server_initial (p : ThreadPool) (ctx : DbContext Idx) (w : World) : ServerState :=
  mkServerState Created false (-1) (pool_initial p) [] [] [] [] [] ctx w.

Definition set_phase (ph : Phase) (s : ServerState) : ServerState :=
  mkServerState ph (is_running s) (listen_fd s) (pool_state s) (job_heap s) (open_fds s) (requests s) (served s)
    (turned_away s) (context s) (world s).

Definition set_control (ph : Phase) (running : bool) (fd : Z) (ps : PoolState) (s : ServerState) : ServerState :=
  mkServerState ph running fd ps (job_heap s) (open_fds s) (requests s) (served s)
    (turned_away s) (context s) (world s).

Definition pool_start (ps : PoolState) (created : nat) : result SqlError () * PoolState :=
  let '(r, p, ws, j) := thread_pool_start (pool ps) (workers ps) created in
  (r, mkPoolState p ws j (accepted ps) (refused ps) (taken ps) (executed ps) (finished ps) (cleanups ps)).

(** [server_start] up to the accept loop, or up to the joins of a start that failed. *)
Definition server_start (c : ServerConfig) (calls : SocketCalls) (created : nat) (s : ServerState) : ServerState :=
  if is_running s then set_phase (Returned (fail «"server is already running"»)) s
  else
    match server_socket_open c calls with
    | (Err e, _) => set_phase (Returned (Err e)) s
    | (Ok x, _) =>
        match pool_start (pool_state s) created with
        | (Ok _, ps) => set_control Accepting true x ps s
        | (Err e, ps) => set_control (StartFailed e) true x ps s
        end
    end.

(** The end of [thread_pool_stop]: its joins, if there are any. *)
Definition pool_stop_end (ps : PoolState) : option PoolState :=
  if joining ps then
    p ← thread_pool_stop_end (pool ps) (workers ps);
    Some (mkPoolState p (workers ps) false (accepted ps) (refused ps) (taken ps) (executed ps) (finished ps) (cleanups ps))
  else Some ps.

(** The rest of [server_start] after a failed [thread_pool_start]. *)
Definition server_start_failed (e : SqlError) (s : ServerState) : option ServerState :=
  ps ← pool_stop_end (pool_state s);
  Some (set_control (Returned (Err e)) false (server_socket_close (listen_fd s)).1 ps s).

(** [server_stop] up to the joins, and after them. *)
Definition server_stop_begin (ph : Phase) (s : ServerState) : ServerState :=
  let ps := pool_state s in
  let '(p, j) := thread_pool_stop_begin (pool ps) in
  set_control ph false (server_socket_close (listen_fd s)).1
    (mkPoolState p (workers ps) j (accepted ps) (refused ps) (taken ps) (executed ps) (finished ps) (cleanups ps)) s.

Definition server_stop_end (ph : Phase) (s : ServerState) : option ServerState :=
  ps ← pool_stop_end (pool_state s);
  Some (set_control ph (is_running s) (listen_fd s) ps s).

(** A complete request is dispatched; an error ends the accept loop. *)
Definition dispatch (x : Z) (raw : cstr) (s : ServerState) : option ServerState :=
  '(r, ps, h, rs) ← server_socket_dispatch_request (pool_state s) (job_heap s) x raw;
  open ← close_released (x :: open_fds s) rs;
  Some (mkServerState (match r with Ok _ => Accepting | Err e => Leaving (Err e) end) (is_running s) (listen_fd s) ps h open
          (requests s ++ [(x, raw)]) (served s) (turned_away s) (context s) (world s)).

(** One iteration of the accept loop; [None] while the queue is full. *)
Definition accept_iteration (timeout_ms : Z) (a : AcceptResult) (s : ServerState) : option ServerState :=
  if negb (is_running s) then Some (set_phase (Leaving (Ok ())) s)
  else
    match a with
    | AcceptInterrupted => Some s
    | AcceptClosed => Some (set_phase (Leaving (Ok ())) s)
    | AcceptFailed t => Some (set_phase (Leaving (server_set_errno_error «"failed to accept client"» t)) s)
    | Accepted c =>
        match server_socket_handle_client timeout_ms c with
        | TurnedAway out =>
            open ← close_fd (fd c) (fd c :: open_fds s);
            Some (mkServerState (phase s) (is_running s) (listen_fd s) (pool_state s) (job_heap s) open (requests s)
                    (served s) (turned_away s ++ [(fd c, out)]) (context s) (world s))
        | Request raw => dispatch (fd c) raw s
        end
    end.

(** [job->execute(job->data)] for a dispatched request. *)
Definition run_execute (s : ServerState) (job : Job) (sends : list send_event) : option ServerState :=
  d ← mjoin (job_heap s !! job_data job);
  raw ← raw_request d;
  let '(out, ctx, w) := server_socket_execute_request_job (world s) (context s) raw sends in
  Some (mkServerState (phase s) (is_running s) (listen_fd s) (pool_state s) (job_heap s) (open_fds s) (requests s)
          (served s ++ [(client_fd d, raw, out)]) (turned_away s) ctx w).

Fixpoint run_executes (s : ServerState) (jobs : list Job) (sends : list send_event) : option ServerState :=
  match jobs with
  | [] => Some s
  | job :: jobs' => s' ← run_execute s job sends; run_executes s' jobs' sends
  end.

(** A worker moves the pool to [ps]: run the callbacks it called. *)
Definition server_worker (ps : PoolState) (sends : list send_event) (s : ServerState) : option ServerState :=
  s1 ← run_executes s (drop (length (executed (pool_state s))) (executed ps)) sends;
  '(h, rs) ← run_cleanups (job_heap s1) (drop (length (cleanups (pool_state s))) (cleanups ps));
  open ← close_released (open_fds s1) rs;
  Some (mkServerState (phase s1) (is_running s1) (listen_fd s1) ps h open (requests s1) (served s1) (turned_away s1)
          (context s1) (world s1)).

(** [server_destroy] once its [server_stop] has nothing to join: the payloads, the open client
    sockets and the listening socket it leaves. *)
Definition server_destroy (s : ServerState) : option (heap * list Z * Z) :=
  let s1 := server_stop_begin (phase s) s in
  if joining (pool_state s1) then None
  else
    '(h, rs) ← run_cleanups (job_heap s1) (thread_pool_destroy (pool (pool_state s1)));
    open ← close_released (open_fds s1) rs;
    Some (h, open, listen_fd s1).

(** [accept] returns a descriptor that is not in use. *)
Definition fresh_client (a : AcceptResult) (s : ServerState) : Prop :=
  match a with Accepted c => (0 <= fd c)%Z ∧ fd c ∉ open_fds s | _ => True end.

Inductive server_step (c : ServerConfig) : ServerState → ServerState → Prop :=
| serve_start s calls created :
    phase s = Created → server_step c s (server_start c calls created s)
| serve_start_failed s e s' :
    phase s = StartFailed e → server_start_failed e s = Some s' → server_step c s s'
| serve_accept s a s' :
    phase s = Accepting → fresh_client a s →
    accept_iteration (client_read_timeout_ms c) a s = Some s' → server_step c s s'
| serve_stop s r :
    phase s = Leaving r → server_step c s (server_stop_begin (Stopping r) s)
| serve_stopped s r s' :
    phase s = Stopping r → server_stop_end (Returned r) s = Some s' → server_step c s s'
| serve_worker s ps sends s' :
    worker_step (pool_state s) ps → server_worker ps sends s = Some s' → server_step c s s'.

(** A choice of what happens next, and the state it leads to. *)
Inductive Action :=
| StartServer (calls : SocketCalls) (created : nat)
| AcceptClient (a : AcceptResult)
| MoveWorker (i : nat) (sends : list send_event)
| MoveMain.    (** the main thread goes on with its shutdown *)

Definition server_action (c : ServerConfig) (act : Action) (s : ServerState) : option ServerState :=
  match act, phase s with
  | StartServer calls created, Created => Some (server_start c calls created s)
  | AcceptClient a, Accepting =>
      match a with
      | Accepted cl =>
          if (0 <=? fd cl)%Z && negb (bool_decide (fd cl ∈ open_fds s))
          then accept_iteration (client_read_timeout_ms c) a s else None
      | _ => accept_iteration (client_read_timeout_ms c) a s
      end
  | MoveMain, StartFailed e => server_start_failed e s
  | MoveMain, Leaving r => Some (server_stop_begin (Stopping r) s)
  | MoveMain, Stopping r => server_stop_end (Returned r) s
  | MoveWorker i sends, _ => ps ← worker_next i (pool_state s); server_worker ps sends s
  | _, _ => None
  end.

Fixpoint server_actions (c : ServerConfig) (acts : list Action) (s : ServerState) : option ServerState :=
  match acts with
  | [] => Some s
  | act :: acts' => s' ← server_action c act s; server_actions c acts' s'
  end.

End Run.
Arguments ServerState : clear implicits.

(** ** The program ([server_runtime_main.c]) *)

Definition print_server_usage (program_name : cstr) : cstr :=
  «"usage: "» ++ program_name ++ «" [--host 0.0.0.0] [--port 8080] [--db ./data]"» ++ [LF].

(** The exit code of [main], what it prints on standard output and on standard error.  The
    program ends when [server_start] has returned and [server_destroy] is done. *)
Inductive server_main `{RowIndex Idx} (w : World) (program_name : cstr) (args : list cstr) : Z → cstr → cstr → Prop :=
| main_help e :
    parse_server_args args = Err e → message e = [] → server_main w program_name args 0 (print_server_usage program_name) []
| main_bad_args e :
    parse_server_args args = Err e → message e ≠ [] →
    server_main w program_name args 1 [] (print_server_usage program_name ++ error_line e)
| main_not_created c e :
    parse_server_args args = Ok c → server_create (Idx := Idx) c = Err e → server_main w program_name args 1 [] (error_line e)
| main_started c p (ctx : DbContext Idx) s r rest :
    parse_server_args args = Ok c → server_create c = Ok (p, ctx) →
    rtc (server_step c) (server_initial p ctx w) s → phase s = Returned r → server_destroy s = Some rest →
    server_main w program_name args (match r with Ok _ => 0 | Err _ => 1 end)%Z []
      (match r with Ok _ => [] | Err e => error_line e end).

(** ** Lemmas: the steps as actions *)

Section Actions.
Context `{RowIndex Idx}.

Lemma server_action_spec c (s s' : ServerState Idx) : server_step c s s' ↔ ∃ act, server_action c act s = Some s'.
Proof.
  split.
  - intros Hstep. destruct Hstep as [s calls created Hf|s e s' Hf Hst|s a s' Hf Hfr Hst|s r Hf|s r s' Hf Hst|s ps sends s' Hw Hst].
    + exists (StartServer calls created). cbn. by rewrite Hf.
    + exists MoveMain. cbn. by rewrite Hf.
    + exists (AcceptClient a). cbn. rewrite Hf. destruct a as [cl| | |]; try done. destruct Hfr as [Hpos Hfr].
      by rewrite (proj2 (Z.leb_le _ _) Hpos), bool_decide_eq_false_2.
    + exists MoveMain. cbn. by rewrite Hf.
    + exists MoveMain. cbn. by rewrite Hf.
    + apply worker_next_spec in Hw as [i Hi]. exists (MoveWorker i sends). cbn. by rewrite Hi.
  - intros [act Hact]. destruct act as [calls created|a|i sends|]; cbn in Hact.
    + destruct (phase s) eqn:Hf; try done. injection Hact as <-. by constructor.
    + destruct (phase s) eqn:Hf; try done. apply (serve_accept c s a); [done| |].
      * destruct a as [cl| | |]; try done. destruct (_ && _) eqn:Hb in Hact; [|done].
        by apply andb_true_iff in Hb as [?%Z.leb_le ?%negb_true_iff%bool_decide_eq_false_1].
      * destruct a; try done. by destruct (_ && _) in Hact.
    + destruct (worker_next i (pool_state s)) as [ps|] eqn:Hw; [|done].
      apply (serve_worker c s ps sends); [|done]. apply worker_next_spec. by exists i.
    + destruct (phase s) as [| |e|r|r|] eqn:Hf; try done; [by eapply serve_start_failed| |by eapply serve_stopped].
      injection Hact as <-. by apply serve_stop.
Qed.

Lemma server_actions_nsteps c acts (s s' : ServerState Idx) :
  server_actions c acts s = Some s' → nsteps (server_step c) (length acts) s s'.
Proof.
  revert s. induction acts as [|act acts IH]; intros s; cbn [server_actions]; [intros [= <-]; constructor|].
  destruct (server_action c act s) as [s1|] eqn:Ha; cbn [mbind option_bind]; [|done]. intros Hr.
  eapply nsteps_l; [|by apply IH]. apply server_action_spec. by exists act.
Qed.

Lemma server_actions_reach c acts (s s' : ServerState Idx) : server_actions c acts s = Some s' → rtc (server_step c) s s'.
Proof. intros Hn%server_actions_nsteps. by eapply rtc_nsteps_2. Qed.

End Actions.

(** ** Lemmas: sockets *)

Lemma close_fd_some x open l : open ≡ₚ x :: l → ∃ l', close_fd x open = Some l' ∧ l' ≡ₚ l.
Proof.
  revert l. induction open as [|y open IH]; intros l Hp; [by apply Permutation_nil_cons in Hp|].
  cbn [close_fd]. case_bool_decide as Hxy.
  - subst y. exists open. split; [done|]. by apply Permutation_cons_inv in Hp.
  - assert (Hin : x ∈ open).
    { assert (Hx : x ∈ y :: open) by (rewrite Hp; by left). by apply elem_of_cons in Hx as [|]. }
    apply elem_of_Permutation in Hin as [k Hk]. destruct (IH k Hk) as (l' & -> & Hl').
    exists (y :: l'). split; [done|]. rewrite Hl'. rewrite Hk in Hp. apply (Permutation_cons_inv (a := x)).
    by rewrite <- Hp, Permutation_swap.
Qed.

Lemma close_released_one x raw open l :
  open ≡ₚ x :: l → ∃ l', close_released open [(Some x, raw)] = Some l' ∧ l' ≡ₚ l.
Proof. intros (l' & Hc & Hl)%close_fd_some. exists l'. cbn [close_released]. by rewrite Hc. Qed.

(** The payloads that were not freed. *)
Definition live (h : heap) : list ServerJobData := omap id h.

Lemma live_app h h' : live (h ++ h') = live h ++ live h'.
Proof. apply omap_app. Qed.

Lemma live_free h ptr d : h !! ptr = Some (Some d) → live h ≡ₚ d :: live (<[ptr := None]> h).
Proof. intros Hp. symmetry. apply (omap_insert id h ptr (Some d) None Hp). Qed.

(** A complete request is not empty. *)
Lemma handled_request timeout_ms c raw : server_socket_handle_client timeout_ms c = Request raw → raw ≠ [].
Proof.
  unfold server_socket_handle_client. destruct (negb _); [done|].
  destruct (server_socket_read_request (packets c)) as [[buf| | |]|] eqn:Hr; try done. intros [= <-] ->.
  unfold server_socket_read_request in Hr. eapply read_loop_ok in Hr; [|apply initial_read_ok|reflexivity].
  destruct Hr as (_ & _ & i & k & n & Ht & _). by rewrite take_nil in Ht.
Qed.

(** ** Lemmas: what a step of a worker changes *)

Lemma worker_step_frame s s' :
  worker_step s s' →
  started (pool s') = started (pool s) ∧ closed (queue (pool s')) = closed (queue (pool s)) ∧ joining s' = joining s ∧
  worker_count (pool s') = worker_count (pool s) ∧ accepted s' = accepted s ∧ refused s' = refused s.
Proof.
  intros Hstep. destruct Hstep as [p ws j a r t e f k i job q' Hi Hpop|p ws j a r t e f k i q' Hi Hpop| |]; [| |done|done];
    simpl; split_and!; try done; unfold job_queue_pop in Hpop; repeat case_match; by simplify_eq/=.
Qed.

(** At most one callback is called, for the job in the worker's hands. *)
Lemma worker_step_logs s s' :
  worker_step s s' →
  (executed s' = executed s ∧ finished s' = finished s ∧ cleanups s' = cleanups s) ∨
  (∃ job, job ∈ running_jobs (workers s) ∧ executed s' = executed s ++ [job] ∧ finished s' = finished s ∧
     cleanups s' = cleanups s) ∨
  (∃ job, job ∈ ran_jobs (workers s) ∧ executed s' = executed s ∧ finished s' = finished s ++ [job] ∧
     cleanups s' = cleanups s ++ option_list (cleanup_call job)).
Proof.
  intros Hstep. destruct Hstep as [| |p ws j a r t e f k i job Hi|p ws j a r t e f k i job Hi]; simpl.
  - by left.
  - by left.
  - right. left. exists job. split; [|done]. apply list_elem_of_omap. exists (Running job).
    split; [by eapply list_elem_of_lookup_2|done].
  - right. right. exists job. split; [|done]. apply list_elem_of_omap. exists (Ran job).
    split; [by eapply list_elem_of_lookup_2|done].
Qed.

(** Every accepted job is queued, in the hands of a worker, or done with. *)
Lemma pool_jobs s :
  pool_ok s →
  accepted s ≡ₚ running_jobs (workers s) ++ ran_jobs (workers s) ++ contents (queue (pool s)) ++ finished s.
Proof.
  intros [_ Hf Hr Hran _ _ _ _]. rewrite <- Hf, Hr, Hran, <- !app_assoc. do 2 f_equiv. apply Permutation_app_comm.
Qed.

(** ** Lemmas: lists *)

Lemma drop_same {A} (l l' : list A) : drop (length l) (l ++ l') = l'.
Proof. by rewrite drop_app_length. Qed.

Lemma omap_Some {A} (l : list A) : omap id (Some <$> l) = l.
Proof. induction l as [|x l IH]; [done|]. cbn. by rewrite IH. Qed.

Lemma filter_keeps_all {A} (P : A → Prop) `{∀ x, Decision (P x)} l : Forall P l → filter P l = l.
Proof. induction 1 as [|x l Hx _ IH]; [done|]. by rewrite filter_cons_True, IH. Qed.

Lemma filter_keeps_none {A} (P : A → Prop) `{∀ x, Decision (P x)} l : Forall (λ x, ¬ P x) l → filter P l = [].
Proof. induction 1 as [|x l Hx _ IH]; [done|]. by rewrite filter_cons_False, IH. Qed.

(** ** The invariant *)

Section Invariant.
Context `{RowIndex Idx}.

(** [log] are requests executed one after the other from [ctx0] and [w0], each with the bytes
    written for it, and [ctx] and [w] what they leave. *)
Inductive serial_run (ctx0 : DbContext Idx) (w0 : World) : list (Z * cstr * cstr) → DbContext Idx → World → Prop :=
| serial_nil : serial_run ctx0 w0 [] ctx0 w0
| serial_snoc log ctx w x raw sends out ctx' w' :
    serial_run ctx0 w0 log ctx w → server_socket_execute_request_job w ctx raw sends = (out, ctx', w') →
    serial_run ctx0 w0 (log ++ [(x, raw, out)]) ctx' w'.

(** What the phase says about the pool and the listening socket. *)
Definition phase_ok (s : ServerState Idx) : Prop :=
  let p := pool (pool_state s) in
  let ps := pool_state s in
  match phase s with
  | Created => started p = false ∧ closed (queue p) = false ∧ joining ps = false ∧ requests s = [] ∧
               workers ps = [] ∧ (0 < worker_count p)%Z ∧ is_running s = false ∧ listen_fd s = (-1)%Z
  | Accepting => started p = true ∧ closed (queue p) = false ∧ joining ps = false ∧ (0 < worker_count p)%Z ∧
                 is_running s = true ∧ (0 <= listen_fd s)%Z
  | Leaving _ => started p = true ∧ closed (queue p) = false ∧ joining ps = false ∧ (0 < worker_count p)%Z ∧
                 (0 <= listen_fd s)%Z
  | StartFailed _ => started p = true ∧ closed (queue p) = true ∧ joining ps = true ∧ requests s = [] ∧
                     (0 <= listen_fd s)%Z
  | Stopping _ => started p = true ∧ closed (queue p) = true ∧ joining ps = true ∧ (0 < worker_count p)%Z ∧
                  is_running s = false ∧ listen_fd s = (-1)%Z
  | Returned _ => started p = false ∧ joining ps = false ∧ contents (queue p) = [] ∧ is_running s = false ∧
                  listen_fd s = (-1)%Z
  end.

Record server_ok (ctx0 : DbContext Idx) (w0 : World) (s : ServerState Idx) : Prop := {
  sok_pool : pool_ok (pool_state s);
  sok_refused : refused (pool_state s) = [];
  sok_jobs : accepted (pool_state s) = request_job <$> seq 0 (length (requests s));
  sok_heap : length (job_heap s) = length (requests s);
  sok_payload : ∀ ptr x raw, requests s !! ptr = Some (x, raw) →
    (0 <= x)%Z ∧
    job_heap s !! ptr = Some (if decide (ptr ∈ job_data <$> finished (pool_state s)) then None else Some (payload_of x raw));
  sok_open : open_fds s ≡ₚ client_fd <$> live (job_heap s);
  sok_nodup : NoDup (open_fds s);
  sok_served : Some <$> (served s).*1 = (λ job, requests s !! job_data job) <$> executed (pool_state s);
  sok_serial : serial_run ctx0 w0 (served s) (context s) (world s);
  sok_phase : phase_ok s
}.

(** A job in the hands of a worker has its payload. *)
Lemma held_job ctx0 w0 s job :
  server_ok ctx0 w0 s → job ∈ running_jobs (workers (pool_state s)) ++ ran_jobs (workers (pool_state s)) →
  ∃ x raw, requests s !! job_data job = Some (x, raw) ∧ (0 <= x)%Z ∧
    job_heap s !! job_data job = Some (Some (payload_of x raw)) ∧ job = request_job (job_data job) ∧
    job_data job ∉ job_data <$> finished (pool_state s).
Proof.
  intros Hs Hjob. pose proof (pool_jobs _ (sok_pool _ _ _ Hs)) as Hp. rewrite (sok_jobs _ _ _ Hs) in Hp.
  rewrite app_assoc in Hp.
  assert (Hin : job ∈ request_job <$> seq 0 (length (requests s))) by (rewrite Hp; set_solver).
  apply list_elem_of_fmap in Hin as (ptr & -> & Hptr%elem_of_seq). simpl.
  destruct (lookup_lt_is_Some_2 (requests s) ptr) as [[x raw] Hx]; [lia|].
  destruct (sok_payload _ _ _ Hs ptr x raw Hx) as [Hpos Hheap].
  assert (Hnot : ptr ∉ job_data <$> finished (pool_state s)).
  { intros Hfin. assert (Hnd : NoDup (job_data <$> (request_job <$> seq 0 (length (requests s))))).
    { rewrite <- list_fmap_compose. rewrite (list_fmap_ext _ id), list_fmap_id by done. apply NoDup_seq. }
    rewrite Hp, fmap_app in Hnd. apply NoDup_app in Hnd as (_ & Hd & _).
    apply (Hd ptr); [apply list_elem_of_fmap; by exists (request_job ptr)|]. rewrite fmap_app. set_solver. }
  rewrite decide_False in Hheap by done. eauto 10.
Qed.

(** Workers move only while the pool is started. *)
Lemma worker_step_started s s' : pool_ok s → worker_step s s' → started (pool s) = true.
Proof.
  intros Hs Hstep. pose proof (pool_started _ Hs) as Hst. destruct (started (pool s)) eqn:Hb; [done|].
  rewrite Forall_lookup in Hst. destruct Hstep as [????????? i|????????? i|????????? i|????????? i]; simpl in *;
    by match goal with Hi : _ !! i = Some _ |- _ => apply Hst in Hi end.
Qed.

Lemma phase_ok_worker s s' :
  phase_ok s → pool_ok (pool_state s) → worker_step (pool_state s) (pool_state s') →
  phase s' = phase s → requests s' = requests s → is_running s' = is_running s → listen_fd s' = listen_fd s →
  phase_ok s'.
Proof.
  intros Hph Hok Hstep Hp Hr Hrun Hl. pose proof (worker_step_started _ _ Hok Hstep) as Hst.
  destruct (worker_step_frame _ _ Hstep) as (Hs & Hc & Hj & Hw & _ & _).
  unfold phase_ok in *. rewrite Hp, Hr, Hrun, Hl, Hs, Hc, Hj, Hw. destruct (phase s); try done.
  - destruct Hph as (Hn & _). congruence.
  - destruct Hph as (Hn & _). congruence.
Qed.

(** A job is executed: its payload is still there. *)
Lemma execute_callback ctx0 w0 s job sends :
  server_ok ctx0 w0 s → job ∈ running_jobs (workers (pool_state s)) →
  ∃ x raw out ctx w, requests s !! job_data job = Some (x, raw) ∧
    server_socket_execute_request_job (world s) (context s) raw sends = (out, ctx, w) ∧
    run_execute s job sends =
      Some (mkServerState (phase s) (is_running s) (listen_fd s) (pool_state s) (job_heap s) (open_fds s) (requests s)
              (served s ++ [(x, raw, out)]) (turned_away s) ctx w).
Proof.
  intros Hs Hjob. destruct (held_job ctx0 w0 s job Hs) as (x & raw & Hx & _ & Hh & _); [set_solver|].
  unfold run_execute. rewrite Hh. cbn [mjoin option_join mbind option_bind raw_request payload_of client_fd].
  destruct (server_socket_execute_request_job (world s) (context s) raw sends) as [[out ctx] w] eqn:He.
  exists x, raw, out, ctx, w. by rewrite He.
Qed.

(** A request that was executed is cleaned up: the payload is freed and the socket closed. *)
Lemma cleanup_callback ctx0 w0 s job :
  server_ok ctx0 w0 s → job ∈ ran_jobs (workers (pool_state s)) →
  ∃ x raw open, run_cleanups (job_heap s) (option_list (cleanup_call job)) =
      Some (<[job_data job := None]> (job_heap s), [(Some x, Some raw)]) ∧
    close_released (open_fds s) [(Some x, Some raw)] = Some open ∧
    open_fds s ≡ₚ x :: open ∧ open ≡ₚ client_fd <$> live (<[job_data job := None]> (job_heap s)).
Proof.
  intros Hs Hjob. destruct (held_job ctx0 w0 s job Hs) as (x & raw & _ & Hpos & Hh & Hreq & _); [set_solver|].
  pose proof (sok_open _ _ _ Hs) as Hopen. rewrite (live_free _ _ _ Hh) in Hopen. cbn [fmap list_fmap] in Hopen.
  destruct (close_released_one x (Some raw) (open_fds s) _ Hopen) as (open & Hc & Hp).
  exists x, raw, open. split; [|split; [done|split; [by rewrite Hopen, Hp|done]]].
  rewrite Hreq. cbn [cleanup_call cleanup request_job server_job_build option_list].
  apply run_cleanups_one. by apply cleanup_live.
Qed.

(** Every step a worker can take is carried out, and keeps the invariant. *)
Lemma server_worker_ok ctx0 w0 s ps sends :
  server_ok ctx0 w0 s → worker_step (pool_state s) ps →
  ∃ s', server_worker ps sends s = Some s' ∧ server_ok ctx0 w0 s' ∧ phase s' = phase s ∧ pool_state s' = ps.
Proof.
  intros Hs Hstep. pose proof Hs as [Hpool Href Hjobs Hheap Hpay Hopen Hnd Hserved Hserial Hph].
  pose proof (worker_step_ok _ _ Hpool Hstep) as Hpool'.
  destruct (worker_step_frame _ _ Hstep) as (_ & _ & _ & _ & Hacc & Href').
  unfold server_worker.
  destruct (worker_step_logs _ _ Hstep) as [(He & Hf & Hk)|[(job & Hjob & He & Hf & Hk)|(job & Hjob & He & Hf & Hk)]];
    rewrite He, Hk, ?drop_same, ?drop_all.
  - eexists. split; [reflexivity|]. split; [|done].
    constructor; cbn; rewrite ?Hf, ?He, ?Hacc, ?Href'; try done. by eapply (phase_ok_worker s).
  - destruct (execute_callback ctx0 w0 s job sends Hs Hjob) as (x & raw & out & ctx & w & Hx & Hexec & Hrun).
    cbn [run_executes]. rewrite Hrun. cbn. eexists. split; [reflexivity|]. split; [|done].
    constructor; cbn; rewrite ?Hf, ?He, ?Hacc, ?Href'; try done.
    + rewrite !fmap_app, Hserved. cbn. by rewrite Hx.
    + by eapply serial_snoc.
    + by eapply (phase_ok_worker s).
  - destruct (cleanup_callback ctx0 w0 s job Hs Hjob) as (x & raw & open & Hc & Hcl & Hperm & Hlive).
    cbn [run_executes mbind option_bind]. rewrite Hc. cbn [mbind option_bind]. rewrite Hcl. cbn [mbind option_bind].
    eexists. split; [reflexivity|]. split; [|done].
    constructor; cbn -[live]; rewrite ?Hf, ?He, ?Hacc, ?Href', ?length_insert; try done.
    + intros ptr y raw' Hy. destruct (Hpay ptr y raw' Hy) as [Hpos Hh]. split; [done|].
      rewrite fmap_app. destruct (decide (ptr = job_data job)) as [->|Hne].
      * rewrite list_lookup_insert_eq by (apply lookup_lt_Some in Hh; done). rewrite decide_True; [done|set_solver].
      * rewrite list_lookup_insert_ne, Hh by done. f_equal. apply decide_ext. cbn. set_solver.
    + rewrite Hperm in Hnd. by apply NoDup_cons in Hnd as [_ ?].
    + by eapply (phase_ok_worker s).
Qed.

(** A pool that is started and not closed refuses no request. *)
Lemma submit_not_refused p ptr e p' c :
  started p = true → closed (queue p) = false → thread_pool_submit p (request_job ptr) ≠ Some (Err e, p', c).
Proof.
  intros Hst Hcl. unfold thread_pool_submit, job_queue_push. rewrite Hst, Hcl. simpl. by destruct (Z.eqb _ _).
Qed.

(** While the pool is started and its queue open, a request is taken by the queue. *)
Lemma dispatch_open s h x raw r s' h' rs :
  pool_ok s → started (pool s) = true → closed (queue (pool s)) = false → (0 <= x)%Z → raw ≠ [] →
  server_socket_dispatch_request s h x raw = Some (r, s', h', rs) →
  r = Ok () ∧ pool_ok s' ∧ h' = h ++ [Some (payload_of x raw)] ∧ rs = [] ∧
  ∃ q, s' = mkPoolState (set_queue (pool s) q) (workers s) (joining s) (accepted s ++ [request_job (length h)]) (refused s)
              (taken s) (executed s) (finished s) (cleanups s) ∧ closed q = false.
Proof.
  intros Hok Hst Hcl Hx Hraw. unfold server_socket_dispatch_request. rewrite create_job_data_ok by done.
  cbn [mbind option_bind]. fold (request_job (length h)).
  destruct (pool_submit s (request_job (length h))) as [[[r0 s0] c]|] eqn:Hs; cbn [mbind option_bind]; [|done].
  pose proof (pool_step_ok _ _ Hok (pool_submit_step _ _ _ _ _ Hs)) as Hok'. unfold pool_submit in Hs.
  destruct (thread_pool_submit (pool s) (request_job (length h))) as [[[[[]|e] p'] c']|] eqn:Ht; [| |done];
    injection Hs as <- <- <-.
  - apply submit_accepted in Ht as (_ & -> & q & Hpush & ->). cbn. intros [= <- <- <- <-].
    apply push_accepts in Hpush as (_ & _ & _ & Hq); [|apply Hok]. rewrite app_nil_r in *. eauto 10.
  - by apply submit_not_refused in Ht.
Qed.

(** Dispatching the request of a fresh client while the server accepts. *)
Lemma dispatch_ok ctx0 w0 s x raw s' :
  server_ok ctx0 w0 s → phase s = Accepting → (0 <= x)%Z → x ∉ open_fds s → raw ≠ [] →
  dispatch x raw s = Some s' → server_ok ctx0 w0 s' ∧ phase s' = Accepting.
Proof.
  intros [Hpool Href Hjobs Hheap Hpay Hopen Hnd Hserved Hserial Hph] Hacc Hx Hfresh Hraw.
  unfold phase_ok in Hph. rewrite Hacc in Hph. destruct Hph as (Hst & Hcl & Hj & Hw & Hrun & Hl).
  unfold dispatch. destruct (server_socket_dispatch_request _ _ x raw) as [[[[r ps] h] rs]|] eqn:Hd;
    cbn [mbind option_bind]; [|done].
  destruct (dispatch_open _ _ _ _ _ _ _ _ Hpool Hst Hcl Hx Hraw Hd) as (-> & Hpool' & -> & -> & q & -> & Hq).
  cbn [close_released mbind option_bind]. intros [= <-]. split; [|done].
  assert (Hlt : ∀ job, job ∈ executed (pool_state s) → (job_data job < length (requests s))%nat).
  { intros job Hjob. assert (Hin : job ∈ accepted (pool_state s)).
    { rewrite <- (pool_fifo _ Hpool), (pool_running _ Hpool). set_solver. }
    rewrite Hjobs in Hin. apply list_elem_of_fmap in Hin as (ptr & -> & Hptr%elem_of_seq). simpl. lia. }
  constructor; cbn -[live seq]; try done.
  - rewrite length_app, seq_app, fmap_app, Hjobs, Hheap. done.
  - by rewrite !length_app, Hheap.
  - intros ptr y raw' [Hy|[Hge Hy]]%lookup_app_Some.
    + destruct (Hpay ptr y raw' Hy) as [Hpos Hh]. split; [done|].
      rewrite lookup_app_l; [done|]. apply lookup_lt_Some in Hy. lia.
    + apply list_lookup_singleton_Some in Hy as [Hz Heq]. injection Heq as <- <-. split; [done|].
      rewrite lookup_app_r, Hheap, Hz by lia. rewrite decide_False; [done|].
      intros (job & Hptr & Hjob)%list_elem_of_fmap. assert (Hin : job ∈ executed (pool_state s)).
      { rewrite (pool_ran _ Hpool). set_solver. }
      apply Hlt in Hin. lia.
  - rewrite live_app, fmap_app, <- Hopen. cbn. by rewrite Permutation_cons_append.
  - by constructor.
  - rewrite Hserved. apply list_fmap_ext. intros i job Hjob. symmetry. apply lookup_app_l, Hlt.
    by eapply list_elem_of_lookup_2.
Qed.

(** A step of the main thread that changes the pool but none of its logs. *)
Lemma set_control_ok ctx0 w0 s ph running x p ws j :
  let ps := pool_state s in
  let ps' := mkPoolState p ws j (accepted ps) (refused ps) (taken ps) (executed ps) (finished ps) (cleanups ps) in
  server_ok ctx0 w0 s → pool_step ps ps' → phase_ok (set_control ph running x ps' s) →
  server_ok ctx0 w0 (set_control ph running x ps' s).
Proof.
  intros ps ps' [Hpool Href Hjobs Hheap Hpay Hopen Hnd Hserved Hserial _] Hstep Hph.
  constructor; try done. by apply (pool_step_ok ps).
Qed.

Lemma set_phase_ok ctx0 w0 s ph :
  server_ok ctx0 w0 s → phase_ok (set_phase ph s) → server_ok ctx0 w0 (set_phase ph s).
Proof. intros [Hpool Href Hjobs Hheap Hpay Hopen Hnd Hserved Hserial _] Hph. by constructor. Qed.

Lemma no_requests_empty ctx0 w0 s :
  server_ok ctx0 w0 s → requests s = [] → contents (queue (pool (pool_state s))) = [].
Proof.
  intros Hs Hr. pose proof (pool_fifo _ (sok_pool _ _ _ Hs)) as Hf. rewrite (sok_jobs _ _ _ Hs), Hr in Hf.
  by apply app_nil in Hf as [_ ?].
Qed.

Lemma open_nonneg c calls x trace : server_socket_open c calls = (Ok x, trace) → (0 <= x)%Z.
Proof.
  unfold server_socket_open, server_socket_set_reuseaddr. destruct (Z.ltb_spec (socket_fd calls) 0); [done|].
  destruct (reuse_ok calls); [|done]. destruct (inet_pton _); [|done].
  destruct (bind_ok calls); [|done]. destruct (listen_ok calls); [|done]. by intros [= <- _].
Qed.

Lemma server_start_ok ctx0 w0 s c calls created :
  server_ok ctx0 w0 s → phase s = Created → server_ok ctx0 w0 (server_start c calls created s).
Proof.
  intros Hs Hcr. pose proof (sok_phase _ _ _ Hs) as Hph. unfold phase_ok in Hph. rewrite Hcr in Hph.
  destruct Hph as (Hst & Hcl & Hj & Hreq & Hws & Hw & Hrun & Hl).
  pose proof (no_requests_empty _ _ _ Hs Hreq) as Hemp.
  unfold server_start. rewrite Hrun.
  destruct (server_socket_open c calls) as [[x|e] trace] eqn:Ho; [|by apply set_phase_ok].
  apply open_nonneg in Ho. unfold pool_start.
  destruct (thread_pool_start _ _ created) as [[[r p] ws] j] eqn:Hstart.
  assert (Hstep : pool_step (pool_state s) (mkPoolState p ws j (accepted (pool_state s)) (refused (pool_state s))
      (taken (pool_state s)) (executed (pool_state s)) (finished (pool_state s)) (cleanups (pool_state s)))).
  { destruct (pool_state s); simpl in *; subst. by eapply step_start. }
  unfold thread_pool_start in Hstart. rewrite Hst in Hstart.
  destruct (Nat.leb _ _); [|destruct (thread_pool_stop_begin _) as [p' j'] eqn:Hb; unfold thread_pool_stop_begin in Hb];
    simplify_eq; by apply set_control_ok.
Qed.

(** The joins return: all workers have left their loop. *)
Lemma pool_joined ps ps' :
  pool_ok ps → started (pool ps) = true → joining ps = true → pool_stop_end ps = Some ps' →
  ps' = mkPoolState (set_started false (pool ps)) (workers ps) false (accepted ps) (refused ps) (taken ps) (executed ps)
          (finished ps) (cleanups ps) ∧
  pool_step ps ps' ∧ ((0 < worker_count (pool ps))%Z → contents (queue (pool ps)) = []).
Proof.
  intros Hok Hst Hj. unfold pool_stop_end. rewrite Hj.
  destruct (thread_pool_stop_end (pool ps) (workers ps)) as [p|] eqn:He; cbn [mbind option_bind]; [|done].
  intros [= <-]. pose proof (pool_started _ Hok) as Hlen. rewrite Hst in Hlen.
  destruct (stop_end _ _ _ Hlen He) as [Hall ->]. split_and!; [done| |].
  - destruct ps; simpl in *; subst. by apply step_stop_end.
  - intros Hw. apply (pool_exited _ Hok). apply (all_exited _ Hall). intros Hnil. rewrite Hnil in Hlen. simpl in Hlen. lia.
Qed.

Lemma close_listen x : (0 <= x)%Z → (server_socket_close x).1 = (-1)%Z.
Proof. intros Hx. unfold server_socket_close. by rewrite (proj2 (Z.ltb_ge x 0)). Qed.

Lemma server_start_failed_ok ctx0 w0 s e s' :
  server_ok ctx0 w0 s → phase s = StartFailed e → server_start_failed e s = Some s' → server_ok ctx0 w0 s'.
Proof.
  intros Hs Hf. pose proof (sok_phase _ _ _ Hs) as Hph. unfold phase_ok in Hph. rewrite Hf in Hph.
  destruct Hph as (Hst & Hcl & Hj & Hreq & Hl). pose proof (no_requests_empty _ _ _ Hs Hreq) as Hemp.
  unfold server_start_failed. destruct (pool_stop_end (pool_state s)) as [ps|] eqn:He; cbn [mbind option_bind]; [|done].
  intros [= <-]. destruct (pool_joined _ _ (sok_pool _ _ _ Hs) Hst Hj He) as (-> & Hstep & _).
  rewrite close_listen by done. by apply set_control_ok.
Qed.

Lemma server_stop_begin_ok ctx0 w0 s r :
  server_ok ctx0 w0 s → phase s = Leaving r → server_ok ctx0 w0 (server_stop_begin (Stopping r) s).
Proof.
  intros Hs Hf. pose proof (sok_phase _ _ _ Hs) as Hph. unfold phase_ok in Hph. rewrite Hf in Hph.
  destruct Hph as (Hst & Hcl & Hj & Hw & Hl). unfold server_stop_begin.
  destruct (thread_pool_stop_begin _) as [p j] eqn:Hb. rewrite close_listen by done. apply set_control_ok; [done| |].
  - destruct (pool_state s); simpl in *; subst. by apply step_stop_begin.
  - unfold thread_pool_stop_begin in Hb. rewrite Hst in Hb. by injection Hb as <- <-.
Qed.

Lemma server_stop_end_ok ctx0 w0 s r s' :
  server_ok ctx0 w0 s → phase s = Stopping r → server_stop_end (Returned r) s = Some s' → server_ok ctx0 w0 s'.
Proof.
  intros Hs Hf. pose proof (sok_phase _ _ _ Hs) as Hph. unfold phase_ok in Hph. rewrite Hf in Hph.
  destruct Hph as (Hst & Hcl & Hj & Hw & Hrun & Hl).
  unfold server_stop_end. destruct (pool_stop_end (pool_state s)) as [ps|] eqn:He; cbn [mbind option_bind]; [|done].
  intros [= <-]. destruct (pool_joined _ _ (sok_pool _ _ _ Hs) Hst Hj He) as (-> & Hstep & Hemp).
  apply set_control_ok; [done|done|]. unfold phase_ok. cbn. by rewrite Hemp.
Qed.

Lemma accept_ok ctx0 w0 s timeout_ms a s' :
  server_ok ctx0 w0 s → phase s = Accepting → fresh_client a s →
  accept_iteration timeout_ms a s = Some s' → server_ok ctx0 w0 s'.
Proof.
  intros Hs Hf Hfresh. pose proof (sok_phase _ _ _ Hs) as Hph. unfold phase_ok in Hph. rewrite Hf in Hph.
  destruct Hph as (Hst & Hcl & Hj & Hw & Hrun & Hl). unfold accept_iteration. rewrite Hrun. cbn [negb].
  destruct a as [c| | |t]; [|by intros [= <-]|intros [= <-]; by apply set_phase_ok..].
  destruct Hfresh as [Hpos Hfresh].
  destruct (server_socket_handle_client timeout_ms c) as [out|raw] eqn:Hc.
  - cbn [close_fd]. rewrite bool_decide_eq_true_2 by done. cbn [mbind option_bind]. intros [= <-].
    destruct Hs as [Hpool Href Hjobs Hheap Hpay Hopen Hnd Hserved Hserial Hph]. constructor; try done.
    unfold phase_ok. cbn. by rewrite Hf.
  - apply handled_request in Hc. intros Hd. by destruct (dispatch_ok ctx0 w0 s (fd c) raw s').
Qed.

Lemma server_step_ok ctx0 w0 c s s' : server_ok ctx0 w0 s → server_step c s s' → server_ok ctx0 w0 s'.
Proof.
  intros Hs Hstep. destruct Hstep; [by apply server_start_ok|by eapply server_start_failed_ok|by eapply accept_ok|
    by apply server_stop_begin_ok|by eapply server_stop_end_ok|].
  destruct (server_worker_ok ctx0 w0 s ps sends) as (s1 & ? & ? & _); [done|done|]. by simplify_eq.
Qed.

Lemma server_created_ok c p ctx w : server_create c = Ok (p, ctx) → (config_queue_capacity c <= INT_MAX)%Z →
  server_ok ctx w (server_initial p ctx w).
Proof.
  unfold server_create. destruct (server_config_validate c) as [[]|] eqn:Hv; cbn [mbind result_bind]; [|done].
  destruct (thread_pool_create _ _) as [p'|] eqn:Hp; cbn [mbind result_bind]; [|done].
  destruct (sql_service_create _) as [ctx'|]; cbn [mbind result_bind]; [|done]. intros [= <- <-] Hc.
  pose proof (created_pool_ok _ _ _ Hc Hp) as Hok. constructor; try done; try by constructor.
  unfold thread_pool_create in Hp. destruct (Z.leb_spec (config_worker_count c) 0); [done|].
  destruct (Z.leb _ 0); [done|]. destruct (job_queue_create _) as [q|] eqn:Hq; simplify_eq/=.
  assert (Hcl : closed q = false) by (unfold job_queue_create in Hq; case_match; by simplify_eq). by unfold phase_ok.
Qed.

Lemma server_reachable_ok ctx0 w0 c s s' : server_ok ctx0 w0 s → rtc (server_step c) s s' → server_ok ctx0 w0 s'.
Proof. intros Hs Hr. induction Hr; [done|]. eauto using server_step_ok. Qed.

(** The requests that are queued or in the hands of a worker. *)
Definition pending (ps : PoolState) : list Job :=
  running_jobs (workers ps) ++ ran_jobs (workers ps) ++ contents (queue (pool ps)).

Definition request_fd (s : ServerState Idx) (job : Job) : option Z := fst <$> requests s !! job_data job.

(** The live payloads, from the jobs that are not done with. *)
Lemma live_unfinished ctx0 w0 s :
  server_ok ctx0 w0 s →
  client_fd <$> live (job_heap s) =
    omap (request_fd s) (filter (λ job, job_data job ∉ job_data <$> finished (pool_state s)) (accepted (pool_state s))).
Proof.
  intros Hs. rewrite (sok_jobs _ _ _ Hs).
  assert (Hh : job_heap s = (λ ptr, mjoin (job_heap s !! ptr)) <$> seq 0 (length (requests s))).
  { rewrite <- (sok_heap _ _ _ Hs). apply list_eq. intros i. rewrite list_lookup_fmap.
    destruct (decide (i < length (job_heap s))%nat) as [Hi|Hi].
    - rewrite lookup_seq_lt by done. cbn. destruct (lookup_lt_is_Some_2 _ _ Hi) as [d Hd]. by rewrite Hd.
    - rewrite lookup_seq_ge, lookup_ge_None_2 by lia. done. }
  rewrite Hh. clear Hh. unfold live. assert (Hlt : Forall (λ ptr, ptr < length (requests s))%nat (seq 0 (length (requests s)))).
  { apply Forall_forall. intros ptr Hptr%elem_of_seq. lia. }
  induction Hlt as [|ptr l Hptr Hl IH]; [done|]. cbn [fmap list_fmap]. rewrite filter_cons. cbn [omap list_omap id].
  destruct (lookup_lt_is_Some_2 (requests s) ptr Hptr) as [[x raw] Hx].
  destruct (sok_payload _ _ _ Hs ptr x raw Hx) as [_ Hp]. rewrite Hp. cbn [mjoin option_join request_job server_job_build job_data].
  destruct (decide (ptr ∈ job_data <$> finished (pool_state s))) as [Hin|Hout].
  - rewrite decide_False by auto. apply IH.
  - rewrite decide_True by done. cbn [omap list_omap fmap list_fmap]. unfold request_fd at 1. cbn [job_data request_job server_job_build].
    rewrite Hx. cbn. f_equal. apply IH.
Qed.

(** The open client sockets are those of the requests that are not done with. *)
Lemma open_pending ctx0 w0 s :
  server_ok ctx0 w0 s → open_fds s ≡ₚ omap (request_fd s) (pending (pool_state s)).
Proof.
  intros Hs. rewrite (sok_open _ _ _ Hs), (live_unfinished ctx0 w0) by done.
  pose proof (pool_jobs _ (sok_pool _ _ _ Hs)) as Hp. rewrite !app_assoc, <- (app_assoc (running_jobs _)) in Hp.
  fold (pending (pool_state s)) in Hp.
  assert (Hnd : NoDup (job_data <$> accepted (pool_state s))).
  { rewrite (sok_jobs _ _ _ Hs), <- list_fmap_compose, (list_fmap_ext _ id), list_fmap_id by done. apply NoDup_seq. }
  rewrite Hp, fmap_app in Hnd. apply NoDup_app in Hnd as (_ & Hd & _).
  rewrite Hp, filter_app, omap_app, (filter_keeps_all _ (pending _)).
  - rewrite (filter_keeps_none _ (finished _)); [by rewrite app_nil_r|].
    apply Forall_forall. intros job Hjob Hnot. apply Hnot. by apply list_elem_of_fmap_2.
  - apply Forall_forall. intros job Hjob. apply Hd. by apply list_elem_of_fmap_2.
Qed.

(** When no request is pending, every request was executed and its socket is closed. *)
Lemma idle_drained ctx0 w0 s :
  server_ok ctx0 w0 s → pending (pool_state s) = [] →
  open_fds s = [] ∧ Forall (λ d, d = None) (job_heap s) ∧ (served s).*1 ≡ₚ requests s.
Proof.
  intros Hs Hidle. pose proof (sok_pool _ _ _ Hs) as Hpool.
  assert (Hopen : open_fds s = []).
  { apply Permutation_nil_r. by rewrite (open_pending ctx0 w0), Hidle by done. }
  apply app_nil in Hidle as [Hr0 [_ Hemp]%app_nil]. split_and!; [done| |].
  - pose proof (sok_open _ _ _ Hs) as Hlive. rewrite Hopen in Hlive. apply Permutation_nil_l in Hlive.
    destruct (live (job_heap s)) eqn:Hl; [|done]. clear -Hl. unfold live in Hl.
    induction (job_heap s) as [|[d|] h IH]; [done|done|]. constructor; [done|]. by apply IH.
  - rewrite <- (omap_Some (served s).*1), <- (omap_Some (requests s)), (sok_served _ _ _ Hs).
    assert (Hreq : Some <$> requests s = (λ job, requests s !! job_data job) <$> accepted (pool_state s)).
    { rewrite (sok_jobs _ _ _ Hs), <- list_fmap_compose. apply list_eq. intros i. rewrite !list_lookup_fmap.
      destruct (decide (i < length (requests s))%nat).
      - rewrite lookup_seq_lt by done. cbn. by destruct (lookup_lt_is_Some_2 (requests s) i) as [q ->].
      - by rewrite lookup_seq_ge, lookup_ge_None_2 by lia. }
    rewrite Hreq, <- (pool_fifo _ Hpool), (pool_running _ Hpool), Hr0, Hemp. simpl. by rewrite app_nil_r.
Qed.

Lemma returned_idle ctx0 w0 s r : server_ok ctx0 w0 s → phase s = Returned r → pending (pool_state s) = [].
Proof.
  intros Hs Hr. pose proof (sok_phase _ _ _ Hs) as Hph. unfold phase_ok in Hph. rewrite Hr in Hph.
  destruct Hph as (Hst & _ & Hemp & _). pose proof (pool_started _ (sok_pool _ _ _ Hs)) as Hall. rewrite Hst in Hall.
  destruct (all_exited _ Hall) as (Hr0 & Hr1 & _). unfold pending. by rewrite Hr0, Hr1, Hemp.
Qed.

(** After [server_start] has returned, [server_destroy] finds nothing left to release. *)
Lemma destroy_returned ctx0 w0 s r :
  server_ok ctx0 w0 s → phase s = Returned r → server_destroy s = Some (job_heap s, open_fds s, (-1)%Z).
Proof.
  intros Hs Hr. pose proof (sok_phase _ _ _ Hs) as Hph. unfold phase_ok in Hph. rewrite Hr in Hph.
  destruct Hph as (Hst & Hj & Hemp & _ & Hl). pose proof (contents_length _ (pool_queue _ (sok_pool _ _ _ Hs))) as Hc.
  rewrite Hemp in Hc. unfold server_destroy, server_stop_begin, thread_pool_stop_begin. rewrite Hst, Hl. cbn.
  unfold thread_pool_destroy, job_queue_destroy. cbn. by rewrite <- Hc.
Qed.

(** Requests executed one after the other keep the database consistent. *)
Lemma serial_run_db_ok ctx0 w0 log ctx w :
  db_ok w0 ctx0 → serial_run ctx0 w0 log ctx w → db_ok w ctx ∧ db_root ctx = db_root ctx0 ∧ files_grow w0 w.
Proof.
  intros Hok Hrun. induction Hrun as [|log ctx w x raw sends out ctx' w' Hrun (Hdb & Hroot & Hgrow) He]; [done|].
  destruct (execute_job_state w ctx raw sends) as [Hc Hw]. rewrite He in Hc, Hw. cbn in Hc, Hw.
  destruct (server_reply w ctx raw) as [[[reply m] ctx1] w1] eqn:Hr. cbn in Hc, Hw. subst ctx' w'.
  apply reply_db_ok in Hr as (? & Hroot' & ?); [|done]. split_and!; [done|congruence|by etrans].
Qed.

(** ** Lemmas: shutting down *)

(** The steps the main thread still takes. *)
Definition phase_work (ph : Phase) : nat :=
  match ph with Leaving _ => 2 | Stopping _ => 1 | _ => 0 end.

Definition shutting_down (r : result SqlError ()) (ph : Phase) : Prop :=
  ph = Leaving r ∨ ph = Stopping r ∨ ph = Returned r.

Lemma shutdown_step ctx0 w0 c s s' r :
  server_ok ctx0 w0 s → shutting_down r (phase s) → server_step c s s' →
  shutting_down r (phase s') ∧
  (work (pool_state s) + phase_work (phase s) = S (work (pool_state s') + phase_work (phase s')))%nat.
Proof.
  intros Hs Hd Hstep. pose proof (sok_phase _ _ _ Hs) as Hph. unfold shutting_down in *.
  destruct Hstep as [s calls created Hf|s e s' Hf Hst|s a s' Hf _ _|s r' Hf|s r' s' Hf Hst|s ps sends s' Hw Hst].
  1-3: destruct Hd as [|[|]]; congruence.
  - assert (r' = r) as -> by (destruct Hd as [|[|]]; congruence). rewrite Hf.
    split; [auto|]. change (work (pool_state s) + 2 = S (work (pool_state s) + 1))%nat. lia.
  - assert (r' = r) as -> by (destruct Hd as [|[|]]; congruence). unfold phase_ok in Hph. rewrite Hf in *.
    destruct Hph as (Hst1 & _ & Hj & _). unfold server_stop_end in Hst.
    destruct (pool_stop_end (pool_state s)) as [ps|] eqn:He; cbn [mbind option_bind] in Hst; [|done].
    destruct (pool_joined _ _ (sok_pool _ _ _ Hs) Hst1 Hj He) as (-> & _). injection Hst as <-. split; [cbn; auto|].
    change (work (pool_state s) + 1 = S (work (pool_state s) + 0))%nat. lia.
  - destruct (server_worker_ok ctx0 w0 s ps sends Hs Hw) as (s1 & Hs1 & _ & Hp1 & Hps). rewrite Hst in Hs1.
    injection Hs1 as <-. rewrite Hp1, Hps. split; [done|].
    rewrite (worker_step_work _ _ (sok_pool _ _ _ Hs) Hw). lia.
Qed.

(** A server that is shutting down can move until [server_start] has returned. *)
Lemma shutdown_stuck ctx0 w0 c s r :
  server_ok ctx0 w0 s → shutting_down r (phase s) → (∀ s', ¬ server_step c s s') → phase s = Returned r.
Proof.
  intros Hs [Hp|[Hp|Hp]] Hstuck; [by destruct (Hstuck _ (serve_stop c s r Hp))| |done].
  pose proof (sok_phase _ _ _ Hs) as Hph. unfold phase_ok in Hph. rewrite Hp in Hph. destruct Hph as (_ & Hcl & Hj & _).
  assert (Hw : Forall (λ w, w = Exited) (workers (pool_state s))).
  { pose proof (workers_stuck _ (sok_pool _ _ _ Hs)) as Hw. rewrite Hcl in Hw. apply Hw. intros ps Hstep.
    destruct (server_worker_ok ctx0 w0 s ps [] Hs Hstep) as (s1 & Hs1 & _). by apply (Hstuck s1), (serve_worker c s ps []). }
  destruct (exited_joined (pool (pool_state s)) _ Hw) as [p Hjoin].
  edestruct Hstuck. apply (serve_stopped c s r); [done|]. unfold server_stop_end, pool_stop_end. rewrite Hj, Hjoin. done.
Qed.

Lemma shutdown_run ctx0 w0 c n s s' r :
  server_ok ctx0 w0 s → shutting_down r (phase s) → nsteps (server_step c) n s s' →
  server_ok ctx0 w0 s' ∧ shutting_down r (phase s') ∧
  (work (pool_state s) + phase_work (phase s) = n + (work (pool_state s') + phase_work (phase s')))%nat.
Proof.
  intros Hs Hd Hn. induction Hn as [s|n s s1 s2 Hstep _ IH]; [done|].
  destruct (shutdown_step ctx0 w0 c s s1 r Hs Hd Hstep) as [Hd1 Hw1].
  destruct IH as (? & ? & Hw); [by eapply server_step_ok|done|]. split_and!; [done|done|lia].
Qed.

Lemma returned_work ctx0 w0 s r : server_ok ctx0 w0 s → phase s = Returned r → work (pool_state s) = 0%nat.
Proof.
  intros Hs Hr. pose proof (sok_phase _ _ _ Hs) as Hph. unfold phase_ok in Hph. rewrite Hr in Hph.
  destruct Hph as (Hst & _ & Hemp & _). pose proof (pool_started _ (sok_pool _ _ _ Hs)) as Hall. rewrite Hst in Hall.
  unfold work. rewrite Hemp. cbn [length]. clear -Hall. induction Hall as [|w ws -> _ IH]; [done|exact IH].
Qed.

(** ** Lemmas: serving *)

(** The workers move, and nothing else. *)
Definition workers_move (s s' : ServerState Idx) : Prop :=
  ∃ ps sends, worker_step (pool_state s) ps ∧ server_worker ps sends s = Some s'.

Lemma workers_move_run ctx0 w0 n s s' :
  server_ok ctx0 w0 s → nsteps workers_move n s s' →
  server_ok ctx0 w0 s' ∧ phase s' = phase s ∧ (work (pool_state s) = n + work (pool_state s'))%nat.
Proof.
  intros Hs Hn. induction Hn as [s|n s s1 s2 (ps & sends & Hw & Hst) _ IH]; [done|].
  destruct (server_worker_ok ctx0 w0 s ps sends Hs Hw) as (s1' & Hst' & Hs1 & Hp1 & Hps). simplify_eq.
  destruct (IH Hs1) as (? & Hp2 & Hwork). split_and!; [done|congruence|].
  rewrite (worker_step_work _ _ (sok_pool _ _ _ Hs) Hw). lia.
Qed.

(** Workers of an accepting server that cannot move have nothing left to do. *)
Lemma workers_idle ctx0 w0 s :
  server_ok ctx0 w0 s → phase s = Accepting → (∀ s', ¬ workers_move s s') → pending (pool_state s) = [].
Proof.
  intros Hs Hp Hstuck. pose proof (sok_phase _ _ _ Hs) as Hph. unfold phase_ok in Hph. rewrite Hp in Hph.
  destruct Hph as (Hst & Hcl & _ & Hw & _).
  assert (Hall : Forall (λ w, w = Popping ∧ contents (queue (pool (pool_state s))) = []) (workers (pool_state s))).
  { pose proof (workers_stuck _ (sok_pool _ _ _ Hs)) as Hall. rewrite Hcl in Hall. apply Hall. intros ps Hstep.
    destruct (server_worker_ok ctx0 w0 s ps [] Hs Hstep) as (s1 & Hs1 & _). apply (Hstuck s1). by exists ps, []. }
  pose proof (pool_started _ (sok_pool _ _ _ Hs)) as Hlen. rewrite Hst in Hlen.
  assert (Hemp : contents (queue (pool (pool_state s))) = []).
  { destruct (workers (pool_state s)) as [|x ws]; [simpl in Hlen; lia|]. apply Forall_cons in Hall as [[_ ?] _]. done. }
  unfold pending. rewrite Hemp. clear -Hall. induction Hall as [|x ws [-> _] _ IH]; [done|exact IH].
Qed.

(** A server whose queue is empty takes the next client without waiting. *)
Lemma accept_ready ctx0 w0 s timeout_ms c :
  server_ok ctx0 w0 s → phase s = Accepting → contents (queue (pool (pool_state s))) = [] → (0 <= fd c)%Z →
  is_Some (accept_iteration timeout_ms (Accepted c) s).
Proof.
  intros Hs Hp Hemp Hpos. pose proof (sok_phase _ _ _ Hs) as Hph. unfold phase_ok in Hph. rewrite Hp in Hph.
  destruct Hph as (Hst & Hcl & _ & _ & Hrun & _). unfold accept_iteration. rewrite Hrun. cbn [negb].
  destruct (server_socket_handle_client timeout_ms c) as [out|raw] eqn:Hc.
  - cbn [close_fd]. by rewrite bool_decide_eq_true_2.
  - apply handled_request in Hc. unfold dispatch, server_socket_dispatch_request. rewrite create_job_data_ok by done.
    cbn [mbind option_bind]. fold (request_job (length (job_heap s))). unfold pool_submit.
    pose proof (submit_ready (pool (pool_state s)) (request_job (length (job_heap s)))
      (pool_queue _ (sok_pool _ _ _ Hs)) Hemp) as Hready.
    destruct (thread_pool_submit _ _) as [[[[[]|e] p'] k]|] eqn:Ht; [|by apply submit_not_refused in Ht|done].
    apply submit_accepted in Ht as (_ & -> & _). cbn. by eexists.
Qed.

Definition worker_actions (moves : list (nat * list send_event)) : list Action := map (λ m, MoveWorker m.1 m.2) moves.

Lemma worker_actions_run c moves s s' :
  server_actions c (worker_actions moves) s = Some s' → nsteps workers_move (length moves) s s'.
Proof.
  revert s. induction moves as [|[i sends] moves IH]; intros s; cbn; [intros [= <-]; constructor|].
  destruct (worker_next i (pool_state s)) as [ps|] eqn:Hw; cbn; [|done].
  destruct (server_worker ps sends s) as [s1|] eqn:Hs; cbn; [|done]. intros Hr.
  eapply nsteps_l; [|by apply IH]. exists ps, sends. split; [|done]. apply worker_next_spec. by exists i.
Qed.

End Invariant.

(** ** Properties *)

(** C14. The server releases what it takes, exactly once, whatever the clients, the network and
    the scheduler do.  In every state a created server can reach: whatever a worker does next is
    defined (it reads no freed request, frees none twice and closes no socket that is not open);
    the open client sockets are exactly those of the requests that are queued or in the hands of
    a worker, each open once; and after [server_start] has returned, with or without an error,
    every complete request was executed exactly once, and [server_destroy] finds every request
    freed, every client socket and the listening socket closed. *)
Theorem server_releases_everything `{RowIndex Idx} c p (ctx : DbContext Idx) w s :
  server_create c = Ok (p, ctx) → (config_queue_capacity c <= INT_MAX)%Z →
  rtc (server_step c) (server_initial p ctx w) s →
  (∀ ps sends, worker_step (pool_state s) ps → is_Some (server_worker ps sends s)) ∧
  NoDup (open_fds s) ∧ open_fds s ≡ₚ omap (request_fd s) (pending (pool_state s)) ∧
  ∀ r, phase s = Returned r →
    (served s).*1 ≡ₚ requests s ∧
    ∃ h, server_destroy s = Some (h, [], (-1)%Z) ∧ Forall (λ d, d = None) h.
Proof.
  intros Hc Hcap Hr. pose proof (server_reachable_ok ctx w c _ s (server_created_ok c p ctx w Hc Hcap) Hr) as Hs.
  split_and!; [|apply Hs|by eapply open_pending|].
  - intros ps sends Hw. destruct (server_worker_ok ctx w s ps sends Hs Hw) as (s' & -> & _). done.
  - intros r Hp. destruct (idle_drained ctx w s Hs) as (Ho & Hh & Hq); [by eapply returned_idle|]. split; [done|].
    exists (job_heap s). rewrite (destroy_returned ctx w s r) by done. by rewrite Ho.
Qed.

(** A server with one worker and room for one request. *)
Definition sample_config : ServerConfig := mkServerConfig «"127.0.0.1"» «"data"» 8080 128 1 1 3000.

Definition sample_server_pool : ThreadPool := mkThreadPool 1 false (mkJobQueue 1 0 0 0 false [zero_job]).
Definition sample_server_ctx : DbContext BPTree := mkDbContext «"data"» [].

(** A client posts a statement, another sends nothing; then the listening socket is closed. *)
Definition sample_actions : list Action :=
  [StartServer (mkSocketCalls 3 true true true []) 1;
   AcceptClient (Accepted (mkClient 4 true true [Bytes choi_request] []));
   AcceptClient (Accepted (mkClient 5 true true [] [Sent 1000; Sent 1000]));
   MoveWorker 0 []; AcceptClient AcceptInterrupted; MoveWorker 0 [Sent 1000]; MoveWorker 0 [];
   AcceptClient AcceptClosed; MoveMain; MoveWorker 0 []; MoveMain].

Definition sample_final : ServerState BPTree :=
  default (server_initial sample_server_pool sample_server_ctx sample_world)
    (server_actions sample_config sample_actions (server_initial sample_server_pool sample_server_ctx sample_world)).

Lemma sample_server_run :
  rtc (server_step sample_config) (server_initial sample_server_pool sample_server_ctx sample_world) sample_final.
Proof. apply (server_actions_reach _ sample_actions). vm_compute. reflexivity. Qed.

Lemma server_releases_everything_witness :
  (served sample_final).*1 ≡ₚ [(4%Z, choi_request)] ∧
  ∃ h, server_destroy sample_final = Some (h, [], (-1)%Z) ∧ Forall (λ d, d = None) h.
Proof.
  pose proof (server_releases_everything sample_config sample_server_pool sample_server_ctx sample_world sample_final
    eq_refl ltac:(done) sample_server_run) as (_ & _ & _ & H).
  destruct (H (Ok ()) ltac:(vm_compute; reflexivity)) as [Hs Hd]. split; [|exact Hd].
  assert (Hq : requests sample_final = [(4%Z, choi_request)]) by (vm_compute; reflexivity).
  rewrite <- Hq. exact Hs.
Defined.

(** The logs of the run: the context, the files and the bytes written to each client are those of
    executing the served requests in the order of [served], each of which was received; the
    database invariant holds, and no file has lost a byte.  (Here a request is one step, so that
    nothing overlaps; for overlapping requests see
    [ServerThreads.overlapping_requests_serializable].) *)
Theorem server_run_serial `{RowIndex Idx} c p (ctx : DbContext Idx) w s :
  server_create c = Ok (p, ctx) → (config_queue_capacity c <= INT_MAX)%Z → db_ok w ctx →
  rtc (server_step c) (server_initial p ctx w) s →
  serial_run ctx w (served s) (context s) (world s) ∧
  (∀ x raw out, (x, raw, out) ∈ served s → (x, raw) ∈ requests s) ∧
  db_ok (world s) (context s) ∧ files_grow w (world s).
Proof.
  intros Hc Hcap Hdb Hr. pose proof (server_reachable_ok ctx w c _ s (server_created_ok c p ctx w Hc Hcap) Hr) as Hs.
  pose proof (sok_serial _ _ _ Hs) as Hrun. destruct (serial_run_db_ok _ _ _ _ _ Hdb Hrun) as (? & _ & ?).
  split_and!; [done| |done|done]. intros x raw out Hin.
  assert (Hx : Some (x, raw) ∈ (λ job, requests s !! job_data job) <$> executed (pool_state s)).
  { rewrite <- (sok_served _ _ _ Hs). apply list_elem_of_fmap. exists (x, raw). split; [done|].
    apply list_elem_of_fmap. by exists (x, raw, out). }
  apply list_elem_of_fmap in Hx as (job & Hx & _). by eapply list_elem_of_lookup_2.
Qed.

Lemma sample_server_db_ok : db_ok sample_world sample_server_ctx.
Proof. destruct sample_db_ok as [_ Hs Hl]. constructor; [constructor|exact Hs|exact Hl]. Qed.

Lemma server_run_serial_witness :
  serial_run sample_server_ctx sample_world (served sample_final) (context sample_final) (world sample_final) ∧
  db_ok (world sample_final) (context sample_final) ∧ files_grow sample_world (world sample_final).
Proof.
  destruct (server_run_serial sample_config sample_server_pool sample_server_ctx sample_world sample_final
    eq_refl ltac:(done) sample_server_db_ok sample_server_run) as (H1 & _ & H2 & H3).
  split; [exact H1|]. split; [exact H2|exact H3].
Defined.

(** Shutting down the server of this file, in which executing a request is one step that always
    returns: once the accept loop has returned, for whatever reason, the server takes at most
    as many more steps as its workers have work left, plus the two of the main thread; and the
    only state in which nothing can happen any more is the one in which [server_start] has
    returned the result of the accept loop.  [ServerProgress.shutdown_completes] is about
    requests that wait for the lock and sends that may wait for ever. *)
Theorem server_shutdown_terminates `{RowIndex Idx} c p (ctx : DbContext Idx) w s r n s' :
  server_create c = Ok (p, ctx) → (config_queue_capacity c <= INT_MAX)%Z →
  rtc (server_step c) (server_initial p ctx w) s → phase s = Leaving r →
  nsteps (server_step c) n s s' →
  (n <= work (pool_state s) + 2)%nat ∧
  ((∀ s'', ¬ server_step c s' s'') → phase s' = Returned r ∧ n = (work (pool_state s) + 2)%nat).
Proof.
  intros Hc Hcap Hr Hp Hn. pose proof (server_reachable_ok ctx w c _ s (server_created_ok c p ctx w Hc Hcap) Hr) as Hs.
  destruct (shutdown_run ctx w c n s s' r Hs) as (Hs' & Hd' & Hw); [by left|done|]. rewrite Hp in Hw. cbn [phase_work] in Hw.
  split; [lia|]. intros Hstuck. pose proof (shutdown_stuck ctx w c s' r Hs' Hd' Hstuck) as Hp'.
  split; [done|]. rewrite Hp', (returned_work ctx w s' r) in Hw by done. cbn [phase_work] in Hw. lia.
Qed.

(** The sample run up to the end of the accept loop. *)
Definition sample_leaving : ServerState BPTree :=
  default (server_initial sample_server_pool sample_server_ctx sample_world)
    (server_actions sample_config (take 8 sample_actions) (server_initial sample_server_pool sample_server_ctx sample_world)).

Lemma server_shutdown_terminates_witness :
  phase sample_leaving = Leaving (Ok ()) ∧ nsteps (server_step sample_config) 3 sample_leaving sample_final ∧
  (3 <= work (pool_state sample_leaving) + 2)%nat.
Proof.
  assert (Hp : phase sample_leaving = Leaving (Ok ())) by (vm_compute; reflexivity).
  assert (Hr : rtc (server_step sample_config) (server_initial sample_server_pool sample_server_ctx sample_world) sample_leaving)
    by (apply (server_actions_reach _ (take 8 sample_actions)); vm_compute; reflexivity).
  assert (Hn : nsteps (server_step sample_config) 3 sample_leaving sample_final)
    by (apply (server_actions_nsteps _ (drop 8 sample_actions)); vm_compute; reflexivity).
  split; [exact Hp|]. split; [exact Hn|].
  apply (server_shutdown_terminates sample_config sample_server_pool sample_server_ctx sample_world sample_leaving (Ok ()) 3
    sample_final eq_refl ltac:(done) Hr Hp Hn).
Defined.

(** When executing a request is one step that always returns: in any reachable state of an
    accepting server the workers, left to themselves, come to rest after at most [work] steps;
    by then every complete request received so far has been executed and its connection closed,
    and the accept loop takes the next client without waiting for the queue.
    [ServerProgress.every_request_can_be_answered] is about requests that wait for the lock. *)
Theorem server_serves_every_client `{RowIndex Idx} c p (ctx : DbContext Idx) w s n s' :
  server_create c = Ok (p, ctx) → (config_queue_capacity c <= INT_MAX)%Z →
  rtc (server_step c) (server_initial p ctx w) s → phase s = Accepting → nsteps workers_move n s s' →
  (n <= work (pool_state s))%nat ∧
  ((∀ s'', ¬ workers_move s' s'') →
     (served s').*1 ≡ₚ requests s' ∧ open_fds s' = [] ∧
     ∀ timeout_ms cl, (0 <= fd cl)%Z → is_Some (accept_iteration timeout_ms (Accepted cl) s')).
Proof.
  intros Hc Hcap Hr Hp Hn. pose proof (server_reachable_ok ctx w c _ s (server_created_ok c p ctx w Hc Hcap) Hr) as Hs.
  destruct (workers_move_run ctx w n s s' Hs Hn) as (Hs' & Hp' & Hw). rewrite Hp in Hp'. split; [lia|]. intros Hstuck.
  pose proof (workers_idle ctx w s' Hs' Hp' Hstuck) as Hidle. destruct (idle_drained ctx w s' Hs' Hidle) as (Ho & _ & Hq).
  split_and!; [done|done|]. intros timeout_ms cl Hcl. eapply accept_ready; [done|done| |done].
  by apply app_nil in Hidle as [_ [_ ?]%app_nil].
Qed.

(** The sample run up to the dispatch of the request, and after its worker is done with it. *)
Definition sample_accepting : ServerState BPTree :=
  default (server_initial sample_server_pool sample_server_ctx sample_world)
    (server_actions sample_config (take 2 sample_actions) (server_initial sample_server_pool sample_server_ctx sample_world)).
Definition sample_moves : list (nat * list send_event) := [(0%nat, []); (0%nat, [Sent 1000]); (0%nat, [])].
Definition sample_rested : ServerState BPTree :=
  default sample_accepting
    (server_actions sample_config (worker_actions sample_moves) sample_accepting).

Lemma server_serves_every_client_witness :
  (served sample_rested).*1 ≡ₚ [(4%Z, choi_request)] ∧ open_fds sample_rested = [].
Proof.
  assert (Hr : rtc (server_step sample_config) (server_initial sample_server_pool sample_server_ctx sample_world) sample_accepting)
    by (apply (server_actions_reach _ (take 2 sample_actions)); vm_compute; reflexivity).
  assert (Hn : nsteps workers_move 3 sample_accepting sample_rested)
    by (apply (worker_actions_run sample_config sample_moves); vm_compute; reflexivity).
  assert (Hstuck : ∀ s, ¬ workers_move sample_rested s).
  { intros s (ps & sends & Hw & _). apply worker_next_spec in Hw as [i Hw]. destruct i as [|i]; by vm_compute in Hw. }
  pose proof (server_serves_every_client sample_config sample_server_pool sample_server_ctx sample_world sample_accepting 3
    sample_rested eq_refl ltac:(done) Hr ltac:(vm_compute; reflexivity) Hn) as [_ H].
  destruct (H Hstuck) as (Hs & Ho & _). split; [|exact Ho].
  assert (Hq : requests sample_rested = [(4%Z, choi_request)]) by (vm_compute; reflexivity).
  rewrite <- Hq. exact Hs.
Defined.

(** The program's exit code says whether there was an error, errors go to standard error only,
    and a server that could be started ends with every socket closed. *)
Theorem server_main_exit `{RowIndex Idx} w name args code out err :
  server_main (Idx := Idx) w name args code out err →
  (code = 0%Z ∧ err = [] ∨ code = 1%Z ∧ err ≠ [] ∧ out = []) ∧
  (code = 0%Z → (∃ e, parse_server_args args = Err e ∧ message e = []) ∨
     ∃ c, parse_server_args args = Ok c ∧ server_config_validate c = Ok () ∧ out = []).
Proof.
  assert (Herr : ∀ e, error_line e ≠ []) by done.
  intros Hm. destruct Hm as [e He Hmsg|e He Hmsg|c e Hc He|c p ctx s [[]|e] rest Hc Hp Hr Hph Hd].
  - split; [by left|]. intros _. left. by exists e.
  - split; [|done]. right. split_and!; [done| |done]. by intros [_ ?]%app_nil.
  - split; [|done]. right. by split_and!.
  - split; [by left|]. intros _. right. exists c. split_and!; [done| |done].
    unfold server_create in Hp. by destruct (server_config_validate c) as [[]|].
  - split; [|done]. right. by split_and!.
Qed.
