(* ===== verification/ServerThreads.v ===== *)
(** * Overlapping requests: [server_socket_process_request] on several workers

    [Server] answers a request as one function of the database.  On the running server the
    workers of [src/src/server/pool/thread_pool.c] are in the middle of several requests at once.
    Here each worker goes through the callback [server_socket_execute_request_job] of
    [src/src/server/api/socket_server.c] in its parts: the request is parsed and checked, its SQL
    runs inside a section of the reader-writer lock ([DbGuard], [GuardedPrograms],
    [RequestPrograms]), the response is built and sent.  The atomic operations on the lock, the
    steps of the statements, the sends, the arrivals and the shutdown all interleave.  A call on
    a socket without a timeout may wait for ever. *)

From stdpp Require Import base list strings relations.
From Stdlib Require Import Ascii.
From S2P Require Import Prelude CString Common Parser Index BPTree Schema Storage DbContext Executor SqlService.
From S2P Require Import DbGuard GuardedWork GuardedPrograms ThreadPool HttpProtocol RequestHandler RequestPrograms SocketServer Server ServerJob ServerMain.

Local Open Scope nat_scope.

(** ** The parts of the callback *)

(** [request_handler_handle] up to the guarded section: a response that needs none, or the SQL
    text that runs in one. *)
Definition guarded_sql (r : HttpRequest) : result SqlError HttpResponse + cstr :=
  if negb (bool_decide (method r = «"POST"»)) then inl (set_json_error_response 405 «"Only POST requests are supported."»)
  else if negb (Ascii.eqb (peek (path r)) "/") then inl (set_json_error_response 400 «"Request path must start with '/'."»)
  else
    match body r with
    | None => inl (set_json_error_response 400 «"Request body must contain SQL text."»)
    | Some sql =>
        if Nat.eqb (length sql) 0 || is_blank_text sql then inl (set_json_error_response 400 «"Request body must contain SQL text."»)
        else
          match sql_service_classify_operation sql with
          | Err e => inl (set_json_error_response 400 (message e))
          | Ok SQL_OPERATION_UNKNOWN => inl (set_json_error_response 400 «"Unsupported SQL operation."»)
          | Ok _ => inr sql
          end
    end.

(** [request_handler_handle] after the section. *)
Definition sql_response (res : SqlServiceResult) : result SqlError HttpResponse :=
  let executed := match payload res with Some _ => true | None => false end in
  match payload res with
  | Some p => Ok (set_json_response (if ok res then 200 else 400) p)
  | None =>
      set_json_error_response 500
        (if executed then «"SQL request completed without a response payload."»
         else match out_message res with [] => «"Failed to execute SQL request."» | m => m end)
  end.

(** [server_socket_process_request] once the request is handled: what is sent, and [error]. *)
Definition reply_with (handled : result SqlError HttpResponse) : Reply * cstr :=
  match handled with
  | Err e => (Plain «"500 Internal Server Error"» (message_or (message e) («"failed to handle HTTP request"» ++ [LF])), message e)
  | Ok response =>
      match http_serialize_response response with
      | Err e => (Plain «"500 Internal Server Error"» (message_or (message e) («"failed to serialize HTTP response"» ++ [LF])), message e)
      | Ok serialized => (Serialized (c_string serialized), [])
      end
  end.

(** The callback up to the section, and between the section and the first send. *)
Definition before_section (raw : cstr) : (Reply * cstr) + cstr :=
  match http_parse_request raw with
  | Err e => inl (Plain «"400 Bad Request"» (message_or (message e) («"failed to parse HTTP request"» ++ [LF])), message e)
  | Ok r => match guarded_sql r with inl handled => inl (reply_with handled) | inr sql => inr sql end
  end.

Definition after_section (res : SqlServiceResult) : Reply * cstr := reply_with (sql_response res).

(** ** The threads *)

(** A complete request, with the socket it came from. *)
Definition ClientRequest : Type := Z * cstr.

(** Where a worker is. *)
Inductive stage :=
| InPop                                              (** in [job_queue_pop] *)
| InExecute (r : ClientRequest)                      (** in the callback, before the first send *)
| InSend (r : ClientRequest) (a : Reply * cstr)      (** sending *)
| Stuck (r : ClientRequest) (a : Reply * cstr)       (** in a [send] that never returns *)
| Left.                                              (** has returned *)

(** Where the thread that called [server_start] is. *)
Inductive main_point :=
| MainAccepting       (** in the accept loop *)
| MainStuck           (** in a [recv] that never returns *)
| MainJoining         (** in [server_stop], the queue closed, joining the workers *)
| MainReturned.

Section Threads.
Context `{RowIndex Idx}.

(** The threads and what they share.  The logs: the requests received; the requests that have
    taken effect, in order, with what they are answered; the answers written to the clients. *)
Record Threads := mkThreads {
  main : main_point;
  queued : list ClientRequest;
  stages : list stage;
  progs : Progs service_point (Database (Idx := Idx));
  received : list ClientRequest;
  effects : list (ClientRequest * (Reply * cstr));
  answers : list (ClientRequest * (Reply * cstr) * cstr)
}.

Definition lock_points (m : Threads) : list point := points (plocks (progs m)).

(** Worker [i] goes to [st]; the lock and the statements to [pr]. *)
Definition at_stage (i : nat) (st : stage) (pr : Progs service_point (Database (Idx := Idx))) (m : Threads) : Threads :=
  mkThreads (main m) (queued m) (<[i := st]> (stages m)) pr (received m) (effects m) (answers m).

Definition set_progs (pr : Progs service_point (Database (Idx := Idx))) (m : Threads) : Threads :=
  mkThreads (main m) (queued m) (stages m) pr (received m) (effects m) (answers m).

Definition log_effect (e : ClientRequest * (Reply * cstr)) (m : Threads) : Threads :=
  mkThreads (main m) (queued m) (stages m) (progs m) (received m) (effects m ++ [e]) (answers m).

Definition set_main (p : main_point) (m : Threads) : Threads :=
  mkThreads p (queued m) (stages m) (progs m) (received m) (effects m) (answers m).

(** Where the lock operation for a statement begins. *)
Definition start_point (sql : cstr) : point :=
  if takes_write_lock (SvcStart sql) then WriteAnnounce else ReadLoadActive.

Definition at_point (i : nat) (g : DbGuard) (p : point) (pr : Progs service_point (Database (Idx := Idx)))
    : Progs service_point (Database (Idx := Idx)) :=
  mkProgs (mkSystem g (<[i := p]> (points (plocks pr)))) (jobs pr) (pshared pr) (ended pr).

Definition set_job (i : nat) (j : service_point * service_point) (x : Database)
    (pr : Progs service_point (Database (Idx := Idx))) : Progs service_point (Database (Idx := Idx)) :=
  mkProgs (plocks pr) (<[i := j]> (jobs pr)) x (ended pr).

(** A worker inside [db_guard_execute_read] or [db_guard_execute_write]: an operation of the lock
    or a step of the statement. *)
Inductive guard_move (m : Threads) : Threads → Prop :=
| move_lock i r p g' p' :
    stages m !! i = Some (InExecute r) → lock_points m !! i = Some p → p ≠ Idle →
    thread_step (guard (plocks (progs m))) p g' p' → inside p = false → inside p' = false →
    guard_move m (set_progs (at_point i g' p' (progs m)) m)
| move_enter i r sql p g' :
    stages m !! i = Some (InExecute r) → before_section r.2 = inr sql → lock_points m !! i = Some p → p ≠ Idle →
    thread_step (guard (plocks (progs m))) p g' (section_point takes_write_lock (SvcStart sql)) → inside p = false →
    guard_move m (set_progs (set_job i (SvcStart sql, SvcStart sql) (pshared (progs m))
      (at_point i g' (section_point takes_write_lock (SvcStart sql)) (progs m))) m)
| move_work i r p l0 l l' x' :
    stages m !! i = Some (InExecute r) → lock_points m !! i = Some p → inside p = true →
    jobs (progs m) !! i = Some (l0, l) → service_step l (pshared (progs m)) = Some (l', x') →
    guard_move m (set_progs (set_job i (l0, l') x' (progs m)) m).

(** The rest of a worker: [thread_pool_worker_main] and the callback outside the guard. *)
Inductive worker_move (c : ServerConfig) (m : Threads) : Threads → Prop :=
| move_take i r rest :
    stages m !! i = Some InPop → queued m = r :: rest →
    worker_move c m (mkThreads (main m) rest (<[i := InExecute r]> (stages m)) (progs m) (received m) (effects m) (answers m))
| move_leave i :
    stages m !! i = Some InPop → queued m = [] → main m = MainJoining →
    worker_move c m (at_stage i Left (progs m) m)
| move_refuse i r a :                       (* answered without a section *)
    stages m !! i = Some (InExecute r) → lock_points m !! i = Some Idle → before_section r.2 = inl a →
    worker_move c m (log_effect (r, a) (at_stage i (InSend r a) (progs m) m))
| move_begin i r sql :                      (* calls the guard *)
    stages m !! i = Some (InExecute r) → lock_points m !! i = Some Idle → before_section r.2 = inr sql →
    worker_move c m (set_progs (at_point i (guard (plocks (progs m))) (start_point sql) (progs m)) m)
| move_unlock i r p g' l0 l res :           (* the statement has ended: unlock, build the response *)
    stages m !! i = Some (InExecute r) → lock_points m !! i = Some p → inside p = true →
    jobs (progs m) !! i = Some (l0, l) → service_step l (pshared (progs m)) = None → l = SvcDone res →
    thread_step (guard (plocks (progs m))) p g' Idle →
    worker_move c m (log_effect (r, after_section res)
      (at_stage i (InSend r (after_section res))
        (mkProgs (mkSystem g' (<[i := Idle]> (lock_points m))) (jobs (progs m)) (pshared (progs m)) (ended (progs m) ++ [(l0, l)])) m))
| move_send i r a sends :
    stages m !! i = Some (InSend r a) →
    worker_move c m (mkThreads (main m) (queued m) (<[i := InPop]> (stages m)) (progs m) (received m) (effects m)
      (answers m ++ [(r, a, write_answer a sends)]))
| move_send_forever i r a rcv_ok snd_ok t :
    stages m !! i = Some (InSend r a) →
    server_socket_set_timeout (client_read_timeout_ms c) rcv_ok snd_ok = (true, t) → waits_for_ever (sndtimeo t) = true →
    worker_move c m (at_stage i (Stuck r a) (progs m) m).

(** The thread of [server_start]; [admits] says which requests the clients send. *)
Inductive main_move (c : ServerConfig) (admits : cstr → Prop) (m : Threads) : Threads → Prop :=
| move_receive r :
    main m = MainAccepting → (Z.of_nat (length (queued m)) < config_queue_capacity c)%Z → admits r.2 →
    main_move c admits m
      (mkThreads (main m) (queued m ++ [r]) (stages m) (progs m) (received m ++ [r]) (effects m) (answers m))
| move_recv_forever rcv_ok snd_ok t :
    main m = MainAccepting →
    server_socket_set_timeout (client_read_timeout_ms c) rcv_ok snd_ok = (true, t) → waits_for_ever (rcvtimeo t) = true →
    main_move c admits m (set_main MainStuck m)
| move_stop : main m = MainAccepting → main_move c admits m (set_main MainJoining m)
| move_return :
    main m = MainJoining → Forall (λ st, st = Left) (stages m) → main_move c admits m (set_main MainReturned m).

Definition threads_step (c : ServerConfig) (admits : cstr → Prop) (m m' : Threads) : Prop :=
  guard_move m m' ∨ worker_move c m m' ∨ main_move c admits m m'.

(** [n] workers after [thread_pool_start]. *)
Definition threads_initial (n : nat) (x : Database (Idx := Idx)) : Threads :=
  mkThreads MainAccepting [] (replicate n InPop) (progs_initial n (SvcStart []) x) [] [] [].

(** ** Specification *)

(** The requests one after the other, each as [Server.server_reply] answers it. *)
Fixpoint serve_all (x : Database (Idx := Idx)) (rs : list ClientRequest) : list (Reply * cstr) * Database (Idx := Idx) :=
  match rs with
  | [] => ([], x)
  | r :: rs' =>
      let '(a, ctx', w') := server_reply x.2 x.1 r.2 in
      let '(rest, x') := serve_all (ctx', w') rs' in
      (a :: rest, x')
  end.

(** The SQL of the request, if it has any, is about the tables of [ns]. *)
Definition about (ns : list cstr) (raw : cstr) : Prop :=
  ∀ sql, before_section raw = inr sql → ∀ q, parse_sql_text sql = Ok q → table_name q ∈ ns.

(** The requests that a worker has not answered: those without effect so far, those with. *)
Definition in_execute (st : stage) : option ClientRequest := match st with InExecute r => Some r | _ => None end.
Definition in_send (st : stage) : option (ClientRequest * (Reply * cstr)) :=
  match st with InSend r a | Stuck r a => Some (r, a) | _ => None end.

End Threads.
Arguments Threads : clear implicits.

(** ** Lemmas: the parts make up the callback *)

Lemma reply_parts `{RowIndex Idx} w (ctx : DbContext Idx) raw :
  server_reply w ctx raw =
    match before_section raw with
    | inl a => (a, ctx, w)
    | inr sql => let '(res, ctx', w') := sql_service_execute w ctx sql in (after_section res, ctx', w')
    end.
Proof.
  unfold server_reply, before_section. destruct (http_parse_request raw) as [r|e]; [|done].
  unfold request_handler_handle, guarded_sql.
  assert (Hfixed : ∀ handled : result SqlError HttpResponse,
    match (handled, Unlocked, ctx, w) with
    | (Err e, _, ctx', w') =>
        (Plain «"500 Internal Server Error"» (message_or (message e) («"failed to handle HTTP request"» ++ [LF])), message e, ctx', w')
    | (Ok response, _, ctx', w') =>
        match http_serialize_response response with
        | Err e => (Plain «"500 Internal Server Error"» (message_or (message e) («"failed to serialize HTTP response"» ++ [LF])), message e, ctx', w')
        | Ok serialized => (Serialized (c_string serialized), [], ctx', w')
        end
    end = (reply_with handled, ctx, w)).
  { intros [resp|e]; [|done]. unfold reply_with. by destruct (http_serialize_response resp). }
  destruct (negb (bool_decide (method r = _))); [apply Hfixed|]. destruct (negb _); [apply Hfixed|].
  destruct (body r) as [sql|]; [|apply Hfixed]. destruct (_ || _); [apply Hfixed|].
  destruct (sql_service_classify_operation sql) as [[]|e]; try apply Hfixed; unfold run_sql, execute_sql_work, after_section, sql_response;
    destruct (sql_service_execute w ctx sql) as [[res ctx'] w']; destruct (payload res) as [p|]; unfold reply_with;
    repeat case_match; simplify_eq; done.
Qed.

Lemma before_section_classified raw sql : before_section raw = inr sql → ∃ op, sql_service_classify_operation sql = Ok op.
Proof.
  unfold before_section. destruct (http_parse_request raw) as [r|]; [|done]. unfold guarded_sql.
  destruct (negb _); [done|]. destruct (negb _); [done|]. destruct (body r) as [s|]; [|done]. destruct (_ || _); [done|].
  destruct (sql_service_classify_operation s) as [[]|] eqn:Hc; try done; intros Hs; simplify_eq; eauto.
Qed.

Lemma about_request ns raw sql : about ns raw → before_section raw = inr sql → request ns (SvcStart sql).
Proof. intros Ha Hb. destruct (before_section_classified raw sql Hb) as [op Hop]. exists sql, op. eauto. Qed.

Section Invariant.
Context `{RowIndex Idx}.
Notation move := (pmove (service_step (Idx := Idx))).

(** ** Lemmas: one request after the other *)

Lemma serve_all_snoc x rs r :
  serve_all x (rs ++ [r]) =
  let '(answers, y) := serve_all x rs in
  let '(a, ctx', w') := server_reply y.2 y.1 r.2 in (answers ++ [a], (ctx', w')).
Proof.
  revert x. induction rs as [|r0 rs IH]; intros x; cbn [serve_all app].
  - by destruct (server_reply x.2 x.1 r.2) as [[a ctx'] w'].
  - destruct (server_reply x.2 x.1 r0.2) as [[a ctx'] w']. rewrite IH. destruct (serve_all (ctx', w') rs) as [answers y].
    by destruct (server_reply y.2 y.1 r.2) as [[a2 ctx2] w2].
Qed.

Lemma serve_all_log x0 (es : list (ClientRequest * (Reply * cstr))) y r a ctx' w' :
  serve_all x0 es.*1 = (es.*2, y) → server_reply y.2 y.1 r.2 = (a, ctx', w') →
  serve_all x0 (es ++ [(r, a)]).*1 = ((es ++ [(r, a)]).*2, (ctx', w')).
Proof. intros Hs Hr. rewrite !fmap_app. cbn [fmap list_fmap fst snd]. by rewrite serve_all_snoc, Hs, Hr. Qed.

Lemma serve_all_db_ok x0 rs ans y :
  serve_all x0 rs = (ans, y) → db_ok x0.2 x0.1 → db_ok y.2 y.1 ∧ files_grow x0.2 y.2.
Proof.
  revert x0 ans. induction rs as [|r rs IH]; intros x0 ans; cbn [serve_all].
  - intros [= _ <-] Hok. done.
  - destruct (server_reply x0.2 x0.1 r.2) as [[[a m] ctx'] w'] eqn:Hr. destruct (serve_all (ctx', w') rs) as [rest x'] eqn:Hrest.
    intros [= _ <-] Hok. destruct (reply_db_ok _ _ _ _ _ _ _ Hok Hr) as (Hok' & _ & Hg).
    destruct (IH _ _ Hrest Hok') as [? Hg']. split; [done|]. by etrans.
Qed.

(** ** The invariant *)

(** Is the thread locking or holding the write lock? *)
Definition writer_point (p : point) : bool :=
  match p with WriteAnnounce | WriteClaim | WriteCheckReaders | WriteRetract | WriteRelease | Writing => true | _ => false end.

(** A worker is in the guard with the statement of its request, or not at all. *)
Definition stage_ok (st : stage) (p : point) (j : service_point * service_point) : Prop :=
  p = Idle ∨
  ∃ r sql, st = InExecute r ∧ before_section r.2 = inr sql ∧ writer_point p = takes_write_lock (SvcStart sql) ∧
    (inside p = true → j.1 = SvcStart sql).

(** [y]: the database that the effects so far have left. *)
Record threads_ok (n : nat) (ns : list cstr) (x0 : Database) (m : Threads Idx) (y : Database) : Prop := {
  to_workers : length (stages m) = n;
  to_locks : DbGuard.reachable n (plocks (progs m));
  to_progs : programs_ok service_step takes_write_lock (request ns) (loaded ns) x0 (progs m) y;
  to_effects : serve_all x0 (effects m).*1 = ((effects m).*2, y);
  to_answers : (answers m).*1 ++ omap in_send (stages m) ≡ₚ effects m;
  to_received : (effects m).*1 ++ omap in_execute (stages m) ++ queued m ≡ₚ received m;
  to_written : Forall (λ e, ∃ sends, e.2 = write_answer e.1.2 sends) (answers m);
  to_about : Forall (λ r, about ns r.2) (received m);
  to_stages : ∀ i st p j, stages m !! i = Some st → lock_points m !! i = Some p → jobs (progs m) !! i = Some j → stage_ok st p j
}.

Lemma threads_initial_ok n ns x0 : loaded ns x0 → threads_ok n ns x0 (threads_initial n x0) x0.
Proof.
  intros Hl. assert (Ho : ∀ A (f : stage → option A) k, f InPop = None → omap f (replicate k InPop) = []).
  { intros A f k Hf. induction k as [|k IH]; [done|]. cbn [replicate omap list_omap]. by rewrite Hf. }
  constructor; cbn.
  - by rewrite length_replicate.
  - apply rtc_refl.
  - constructor; simpl; [by rewrite !length_replicate|constructor|constructor|done|by intros ???? [-> _]%lookup_replicate|done].
  - done.
  - by rewrite Ho.
  - by rewrite Ho.
  - constructor.
  - constructor.
  - intros i st p j _ [-> _]%lookup_replicate _. by left.
Qed.

(** The points where a request waits for the lock keep their side. *)
Lemma writer_point_step g p g' p' : thread_step g p g' p' → p ≠ Idle → p' = Idle ∨ writer_point p' = writer_point p.
Proof. destruct 1; auto; done. Qed.

Lemma threads_about n ns x0 m y i r :
  threads_ok n ns x0 m y → stages m !! i = Some (InExecute r) → about ns r.2.
Proof.
  intros Hm Hi. pose proof (to_about _ _ _ _ _ Hm) as Ha. rewrite Forall_forall in Ha. apply Ha.
  rewrite <- (to_received _ _ _ _ _ Hm), !elem_of_app. right. left. apply list_elem_of_omap. exists (InExecute r).
  split; [by eapply list_elem_of_lookup_2|done].
Qed.

(** ** Lemmas: the steps *)

(** The statements and the lock move; the workers stay where they are. *)
Lemma threads_progs n ns x0 m y pr :
  threads_ok n ns x0 m y → rtc system_step (plocks (progs m)) (plocks pr) →
  programs_ok service_step takes_write_lock (request ns) (loaded ns) x0 pr y →
  (∀ i st p j, stages m !! i = Some st → points (plocks pr) !! i = Some p → jobs pr !! i = Some j → stage_ok st p j) →
  threads_ok n ns x0 (set_progs pr m) y.
Proof. intros [] Hl Hp Hs. constructor; cbn; try done. unfold DbGuard.reachable in *. by etrans. Qed.

(** One worker moves between stages of the same request. *)
Lemma stages_insert (f : stage → option ClientRequest) sts i st st' :
  sts !! i = Some st → f st = f st' → omap f (<[i := st']> sts) ≡ₚ omap f sts.
Proof. intros Hi Hf. pose proof (omap_insert f sts i st st' Hi) as Hp. rewrite Hf in Hp. by apply Permutation_app_inv_l in Hp. Qed.

Lemma guard_move_ok n ns x0 m y m' :
  (Z.of_nat n <= INT_MAX)%Z → threads_ok n ns x0 m y → guard_move m m' → threads_ok n ns x0 m' y.
Proof.
  intros Hn Hm Hmove. pose proof (to_progs _ _ _ _ _ Hm) as Hp. pose proof (to_stages _ _ _ _ _ Hm) as Hst.
  pose proof (reachable_ok n _ Hn (to_locks _ _ _ _ _ Hm)) as [Hguard _]. pose proof (pr_jobs _ _ _ _ _ _ _ Hp) as Hlen.
  destruct Hmove as [i r p g' p' Hi Hpt Hne Hstep Hin Hin'|i r sql p g' Hi Hb Hpt Hne Hstep Hin|i r p l0 l l' x' Hi Hpt Hin Hj Hstep];
    unfold lock_points in *; destruct (progs m) as [[g ps] js x e] eqn:Hpr; cbn in *.
  - assert (Hlt : i < length js) by (rewrite Hlen; by eapply lookup_lt_Some). destruct (lookup_lt_is_Some_2 _ _ Hlt) as [j Hj].
    apply threads_progs; cbn; [done|rewrite Hpr; apply rtc_once; by eapply system_thread|by eapply programs_outside|].
    intros k st q jk Hk Hq Hjk. apply list_lookup_insert_Some in Hq as [(-> & <- & _)|[_ Hq]]; [|by eapply Hst]. simplify_eq.
    destruct (Hst _ _ _ _ Hi Hpt Hj) as [|(r' & sql & [= <-] & Hb & Hw & _)]; [done|].
    destruct (writer_point_step _ _ _ _ Hstep Hne) as [?|Hw']; [by left|]. right. exists r, sql.
    rewrite Hw', Hin'. done.
  - assert (Hlt : i < length js) by (rewrite Hlen; by eapply lookup_lt_Some).
    assert (Hs1 : system_step (mkSystem g ps) (mkSystem g' (<[i:=section_point takes_write_lock (SvcStart sql)]> ps))) by (by eapply system_thread).
    apply threads_progs; cbn; [done|rewrite Hpr; by apply rtc_once| |].
    + eapply programs_enter; [done| |done|done]. eapply step_ok; [|done|done].
      pose proof (to_locks _ _ _ _ _ Hm) as Hl. rewrite Hpr in Hl.
      destruct (reachable_ok n _ Hn Hl) as [_ Hl2]. cbn in Hl2 |- *. by rewrite Hl2.
    + intros k st q jk Hk Hq Hjk. destruct (decide (k = i)) as [->|Hki].
      * rewrite list_lookup_insert_eq in Hq by (by eapply lookup_lt_Some). rewrite list_lookup_insert_eq in Hjk by done. simplify_eq.
        right. exists r, sql. split_and!; [done|done| |done]. unfold section_point. by destruct (takes_write_lock _).
      * rewrite list_lookup_insert_ne in Hq by done. rewrite list_lookup_insert_ne in Hjk by done. by eapply Hst.
  - destruct (Hst _ _ _ _ Hi Hpt Hj) as [->|(r' & sql & [= <-] & Hb & Hw & Hl0)]; [done|].
    specialize (Hl0 Hin). cbn in Hl0. subst l0. pose proof (about_request ns r.2 sql (threads_about _ _ _ _ _ _ _ Hm Hi) Hb) as Hreq.
    apply threads_progs; cbn; [done|by rewrite Hpr| |].
    + eapply programs_work; try done. apply request_read_only.
    + intros k st q jk Hk Hq Hjk. apply list_lookup_insert_Some in Hjk as [(-> & <- & _)|[_ Hjk]]; [|by eapply Hst]. simplify_eq.
      destruct (Hst _ _ _ _ Hi Hpt Hj) as [|(r' & sql' & ? & ? & ? & ?)]; [by left|]. right. by exists r', sql'.
Qed.

(** A worker has a place in the lock, and outside the callback it is not in the guard. *)
Lemma worker_place n ns x0 m y i st :
  (Z.of_nat n <= INT_MAX)%Z → threads_ok n ns x0 m y → stages m !! i = Some st →
  ∃ p j, lock_points m !! i = Some p ∧ jobs (progs m) !! i = Some j ∧ stage_ok st p j.
Proof.
  intros Hn Hm Hi. destruct (reachable_ok n _ Hn (to_locks _ _ _ _ _ Hm)) as [_ Hlen].
  pose proof (pr_jobs _ _ _ _ _ _ _ (to_progs _ _ _ _ _ Hm)) as Hjl. pose proof (lookup_lt_Some _ _ _ Hi) as Hlt.
  rewrite (to_workers _ _ _ _ _ Hm) in Hlt.
  destruct (lookup_lt_is_Some_2 (lock_points m) i) as [p Hp]; [unfold lock_points; lia|].
  destruct (lookup_lt_is_Some_2 (jobs (progs m)) i) as [j Hj]; [lia|]. exists p, j. split_and!; [done..|]. by eapply (to_stages _ _ _ _ _ Hm).
Qed.

Lemma stages_after n ns x0 m y i st' :
  threads_ok n ns x0 m y → lock_points m !! i = Some Idle →
  ∀ k st p j, <[i := st']> (stages m) !! k = Some st → lock_points m !! k = Some p → jobs (progs m) !! k = Some j → stage_ok st p j.
Proof.
  intros Hm Hi k st p j [(-> & <- & _)|[_ Hk]]%list_lookup_insert_Some Hp Hj; [left; congruence|]. by eapply (to_stages _ _ _ _ _ Hm).
Qed.

Lemma not_executing n ns x0 m y i st :
  (Z.of_nat n <= INT_MAX)%Z → threads_ok n ns x0 m y → stages m !! i = Some st → in_execute st = None → lock_points m !! i = Some Idle.
Proof.
  intros Hn Hm Hi Hst. destruct (worker_place _ _ _ _ _ _ _ Hn Hm Hi) as (p & j & Hp & _ & [-> |(r & sql & -> & _)]); [done|done].
Qed.

Lemma take_ok n ns x0 m y i r rest :
  (Z.of_nat n <= INT_MAX)%Z → threads_ok n ns x0 m y → stages m !! i = Some InPop → queued m = r :: rest →
  threads_ok n ns x0 (mkThreads (main m) rest (<[i := InExecute r]> (stages m)) (progs m) (received m) (effects m) (answers m)) y.
Proof.
  intros Hn Hm Hi Hq. pose proof (not_executing _ _ _ _ _ _ _ Hn Hm Hi eq_refl) as Hp.
  pose proof (omap_insert in_execute _ i InPop (InExecute r) Hi) as He. pose proof (omap_insert in_send _ i InPop (InExecute r) Hi) as Hs.
  simpl in He, Hs. pose proof (stages_after _ _ _ _ _ i (InExecute r) Hm Hp) as Hst. destruct Hm. constructor; cbn; try done.
  - by rewrite length_insert.
  - by rewrite Hs.
  - rewrite He. rewrite <- to_received0, Hq. by rewrite <- Permutation_middle.
Qed.

(** A worker that has answered, or is leaving, moves on. *)
Lemma moved_on_ok n ns x0 m y i st st' done_answers :
  (Z.of_nat n <= INT_MAX)%Z → threads_ok n ns x0 m y → stages m !! i = Some st → in_execute st = None → in_execute st' = None →
  Forall (λ e, ∃ sends, e.2 = write_answer e.1.2 sends) done_answers →
  done_answers.*1 ++ option_list (in_send st') ≡ₚ option_list (in_send st) →
  threads_ok n ns x0 (mkThreads (main m) (queued m) (<[i := st']> (stages m)) (progs m) (received m) (effects m) (answers m ++ done_answers)) y.
Proof.
  intros Hn Hm Hi Hst Hst' Hw Hperm. pose proof (not_executing _ _ _ _ _ _ _ Hn Hm Hi Hst) as Hp.
  pose proof (stages_insert in_execute _ i st st' Hi ltac:(congruence)) as He. pose proof (omap_insert in_send _ i st st' Hi) as Hs.
  pose proof (stages_after _ _ _ _ _ i st' Hm Hp) as Hstages. destruct Hm. constructor; cbn; try done.
  - by rewrite length_insert.
  - rewrite fmap_app, <- to_answers0, <- (assoc_L (++)). f_equiv.
    apply (Permutation_app_inv_l (option_list (in_send st'))). rewrite <- Hs, <- Hperm. solve_Permutation.
  - by rewrite He.
  - by apply Forall_app.
Qed.

(** A request takes effect. *)
Lemma effect_ok n ns x0 m y i r a pr y' :
  threads_ok n ns x0 m y → stages m !! i = Some (InExecute r) → server_reply y.2 y.1 r.2 = (a, y'.1, y'.2) →
  rtc system_step (plocks (progs m)) (plocks pr) →
  programs_ok service_step takes_write_lock (request ns) (loaded ns) x0 pr y' →
  points (plocks pr) !! i = Some Idle →
  (∀ k st p j, k ≠ i → stages m !! k = Some st → points (plocks pr) !! k = Some p → jobs pr !! k = Some j → stage_ok st p j) →
  threads_ok n ns x0 (log_effect (r, a) (at_stage i (InSend r a) pr m)) y'.
Proof.
  intros Hm Hi Hr Hl Hp Hidle Hst.
  pose proof (omap_insert in_execute _ i _ (InSend r a) Hi) as He. pose proof (omap_insert in_send _ i _ (InSend r a) Hi) as Hs.
  simpl in He, Hs. destruct Hm. constructor; cbn; try done.
  - by rewrite length_insert.
  - unfold DbGuard.reachable in *. by etrans.
  - destruct y' as [ctx' w']. by eapply serve_all_log.
  - rewrite Hs, <- to_answers0, <- Permutation_middle. solve_Permutation.
  - rewrite <- to_received0, fmap_app, <- He. cbn. solve_Permutation.
  - intros k st p j [(-> & <- & _)|[Hne Hk]]%list_lookup_insert_Some Hpk Hj; [left; unfold lock_points in *; cbn in *; congruence|].
    by eapply Hst.
Qed.

Lemma start_point_side sql : inside (start_point sql) = false ∧ writer_point (start_point sql) = takes_write_lock (SvcStart sql).
Proof. unfold start_point. by destruct (takes_write_lock _). Qed.

Lemma start_step g sql : thread_step g Idle g (start_point sql).
Proof. unfold start_point. destruct (takes_write_lock _); constructor. Qed.

Lemma begin_ok n ns x0 m y i r sql :
  (Z.of_nat n <= INT_MAX)%Z → threads_ok n ns x0 m y → stages m !! i = Some (InExecute r) → lock_points m !! i = Some Idle →
  before_section r.2 = inr sql →
  threads_ok n ns x0 (set_progs (at_point i (guard (plocks (progs m))) (start_point sql) (progs m)) m) y.
Proof.
  intros Hn Hm Hi Hidle Hb. destruct (start_point_side sql) as [Hin Hw].
  pose proof (to_progs _ _ _ _ _ Hm) as Hp. pose proof (to_stages _ _ _ _ _ Hm) as Hst. unfold lock_points in *.
  destruct (progs m) as [[g ps] js x e] eqn:Hpr. cbn in *. apply threads_progs; cbn; [done| | |].
  - rewrite Hpr. cbn. apply rtc_once. eapply system_thread; [done|apply start_step].
  - by eapply programs_outside.
  - intros k st q jk Hk Hq Hjk. apply list_lookup_insert_Some in Hq as [(-> & <- & _)|[_ Hq]]; [|by eapply Hst]. simplify_eq.
    right. exists r, sql. rewrite Hin. done.
Qed.

(** A statement that has ended has been executed on the database of the effects so far. *)
Lemma ended_reply n ns x0 m y i r p l0 l res :
  (Z.of_nat n <= INT_MAX)%Z → threads_ok n ns x0 m y → stages m !! i = Some (InExecute r) → lock_points m !! i = Some p →
  inside p = true → jobs (progs m) !! i = Some (l0, l) → service_step l (pshared (progs m)) = None → l = SvcDone res →
  request ns l0 ∧ server_reply y.2 y.1 r.2 = (after_section res, (pshared (progs m)).1, (pshared (progs m)).2).
Proof.
  intros Hn Hm Hi Hp Hin Hj Hend ->.
  destruct (to_stages _ _ _ _ _ Hm _ _ _ _ Hi Hp Hj) as [->|(r' & sql & [= <-] & Hb & _ & Hl0)]; [done|].
  specialize (Hl0 Hin). cbn in Hl0. subst l0. pose proof (about_request ns r.2 sql (threads_about _ _ _ _ _ _ _ Hm Hi) Hb) as Hreq.
  split; [done|]. destruct (pr_inside _ _ _ _ _ _ _ (to_progs _ _ _ _ _ Hm) i p _ _ Hp Hin Hj) as [_ Hruns].
  destruct (request_runs ns _ _ _ _ Hreq (conj Hruns Hend)) as (sql' & res' & Hs & Hd & Hx & _). simplify_eq.
  by rewrite reply_parts, Hb, Hx.
Qed.

Lemma worker_move_ok c n ns x0 m y m' :
  (Z.of_nat n <= INT_MAX)%Z → threads_ok n ns x0 m y → worker_move c m m' →
  ∃ y', threads_ok n ns x0 m' y' ∧ effects m `prefix_of` effects m'.
Proof.
  intros Hn Hm Hmove. destruct Hmove as [i r rest Hi Hq|i Hi Hq Hmain|i r a Hi Hp Hb|i r sql Hi Hp Hb|i r p g' l0 l res Hi Hp Hin Hj Hend Hl Hu|
    i r a sends Hi|i r a rcv_ok snd_ok t Hi _ _].
  - exists y. split; [by apply take_ok|done].
  - exists y. split; [|done]. pose proof (moved_on_ok _ _ _ _ _ i InPop Left [] Hn Hm Hi eq_refl eq_refl) as Hok.
    rewrite (right_id_L [] (++)) in Hok. by apply Hok.
  - exists y. split; [|by apply prefix_app_r]. eapply effect_ok; try done.
    + rewrite reply_parts, Hb. done.
    + apply Hm.
    + intros k st q j _. by eapply (to_stages _ _ _ _ _ Hm).
  - exists y. split; [by eapply begin_ok|done].
  - destruct (ended_reply _ _ _ _ _ _ _ _ _ _ _ Hn Hm Hi Hp Hin Hj Hend Hl) as [Hreq Hreply].
    pose proof (reachable_ok n _ Hn (to_locks _ _ _ _ _ Hm)) as [Hguard _].
    exists (pshared (progs m)). split; [|by apply prefix_app_r].
    pose proof (to_progs _ _ _ _ _ Hm) as Hprogs. pose proof (to_stages _ _ _ _ _ Hm) as Hst. unfold lock_points in *.
    destruct (progs m) as [[g ps] js x e] eqn:Hpr. cbn in *. eapply effect_ok; try done; cbn.
    + rewrite Hpr. cbn. apply rtc_once. by eapply system_thread.
    + exact (programs_unlock service_step takes_write_lock (request ns) (loaded ns) (request_read_only ns) (request_keeps_loaded ns)
        x0 (mkSystem g ps) i p g' js x e l0 l y Hprogs Hguard Hreq Hp Hin Hj Hend).
    + apply list_lookup_insert_eq. by eapply lookup_lt_Some.
    + intros k st q j Hne Hk Hq. rewrite list_lookup_insert_ne in Hq by done. by eapply Hst.
  - exists y. split; [|done]. apply (moved_on_ok _ _ _ _ _ _ _ _ [(r, a, write_answer a sends)] Hn Hm Hi); try done.
    constructor; [|done]. by exists sends.
  - exists y. split; [|done]. pose proof (moved_on_ok _ _ _ _ _ i _ (Stuck r a) [] Hn Hm Hi eq_refl eq_refl) as Hok.
    rewrite (right_id_L [] (++)) in Hok. by apply Hok.
Qed.

Lemma main_move_ok c n ns x0 m y m' :
  threads_ok n ns x0 m y → main_move c (about ns) m m' → threads_ok n ns x0 m' y ∧ effects m `prefix_of` effects m'.
Proof.
  intros Hm Hmove. destruct Hmove as [r _ _ Hr|rcv_ok snd_ok t _ _ _|_|_ _]; (split; [|done]); destruct Hm; constructor; cbn; try done.
  - rewrite <- to_received0. solve_Permutation.
  - apply Forall_app. by split; [|constructor].
Qed.

Lemma threads_step_ok c n ns x0 m y m' :
  (Z.of_nat n <= INT_MAX)%Z → threads_ok n ns x0 m y → threads_step c (about ns) m m' →
  ∃ y', threads_ok n ns x0 m' y' ∧ effects m `prefix_of` effects m'.
Proof.
  intros Hn Hm [Hg|[Hw|Hk]]; [|by eapply worker_move_ok|].
  - exists y. split; [by eapply guard_move_ok|]. by destruct Hg.
  - exists y. by eapply main_move_ok.
Qed.

Lemma threads_run_ok c n ns x0 m y m' :
  (Z.of_nat n <= INT_MAX)%Z → threads_ok n ns x0 m y → rtc (threads_step c (about ns)) m m' →
  ∃ y', threads_ok n ns x0 m' y' ∧ effects m `prefix_of` effects m'.
Proof.
  intros Hn Hm Hr. revert y Hm. induction Hr as [m|m m1 m2 Hs _ IH]; intros y Hm; [by exists y|].
  destruct (threads_step_ok _ _ _ _ _ _ _ Hn Hm Hs) as (y1 & Hm1 & H1). destruct (IH _ Hm1) as (y2 & Hm2 & H2).
  exists y2. split; [done|]. by etrans.
Qed.

(** A statement runs inside its section, with nobody else moving. *)
Lemma work_runs (m : Threads Idx) i r p l0 l l' x' :
  stages m !! i = Some (InExecute r) → lock_points m !! i = Some p → inside p = true → jobs (progs m) !! i = Some (l0, l) →
  rtc move (l, pshared (progs m)) (l', x') → rtc guard_move m (set_progs (set_job i (l0, l') x' (progs m)) m).
Proof.
  intros Hi Hp Hin Hj Hr. remember (l, pshared (progs m)) as a eqn:Ha. remember (l', x') as b eqn:Hb.
  revert m l Hi Hp Hj Ha. induction Hr as [a|a [l1 x1] b Hac _ IH]; intros m l Hi Hp Hj ->.
  - injection Hb as <- <-. destruct m as [mn q sts [lk js x e] rc ef an]. cbn in *. unfold set_progs, set_job. cbn.
    rewrite list_insert_id by done. apply rtc_refl.
  - eapply rtc_l; [by eapply move_work|].
    specialize (IH Hb (set_progs (set_job i (l0, l1) x1 (progs m)) m) l1 Hi Hp).
    unfold set_progs, set_job in *. cbn in *. rewrite list_insert_insert_eq in IH. apply IH; [|done].
    apply list_lookup_insert_eq. by eapply lookup_lt_Some.
Qed.

End Invariant.

(** ** Properties *)

(** C12. Requests that overlap are answered as if they were served one after the other.  The
    workers' atomic operations on the reader-writer lock, the steps of their statements on the
    tables and files, their sends, the arrivals and the shutdown interleave freely.  In every
    reachable state there is one order of the requests that have taken effect such that serving
    them in that order, one at a time, gives every one of them the response the server has
    for it: each response written to a client is the one of that execution (up to what the
    client's socket takes, [Server.write_answer]).  Every request received is in that order
    once, or is still to be executed or queued.  The order only grows, so that a request
    answered before another one arrives comes before it.  While no write section is open the
    tables and files are those of that execution, for which the database invariant holds and no
    file has lost a byte.  This is for requests about tables that are already loaded (the first
    SELECT of a table loads it under the read lock, and two can collide:
    [FirstLoad.first_load_race]) and for operations in sequentially consistent order; the steps
    of a statement are those of [RequestPrograms]. *)
Theorem overlapping_requests_serializable `{RowIndex Idx} c n ns (x0 : Database) m m' :
  (Z.of_nat n <= INT_MAX)%Z → loaded ns x0 →
  rtc (threads_step c (about ns)) (threads_initial n x0) m → rtc (threads_step c (about ns)) m m' →
  effects m `prefix_of` effects m' ∧
  ∃ y, serve_all x0 (effects m').*1 = ((effects m').*2, y) ∧
    (answers m').*1 ++ omap in_send (stages m') ≡ₚ effects m' ∧
    (∀ r a out, (r, a, out) ∈ answers m' → ∃ sends, out = write_answer a sends) ∧
    (effects m').*1 ++ omap in_execute (stages m') ++ queued m' ≡ₚ received m' ∧
    (Writing ∉ lock_points m' → pshared (progs m') = y) ∧
    (db_ok x0.2 x0.1 → db_ok y.2 y.1 ∧ files_grow x0.2 y.2).
Proof.
  intros Hn Hl Hr Hr'. destruct (threads_run_ok c n ns x0 _ _ _ Hn (threads_initial_ok n ns x0 Hl) Hr) as (y1 & Hm & _).
  destruct (threads_run_ok c n ns x0 _ _ _ Hn Hm Hr') as (y & Hm' & Hpre). split; [done|]. exists y.
  split_and!; [by apply Hm'|by apply Hm'| |by apply Hm'| |].
  - intros r a out Hin. pose proof (to_written _ _ _ _ _ Hm') as Hw. rewrite Forall_forall in Hw. apply (Hw _ Hin).
  - intros Hw. by apply (pr_free _ _ _ _ _ _ _ (to_progs _ _ _ _ _ Hm')).
  - intros Hdb. eapply serve_all_db_ok; [apply Hm'|done].
Qed.

(** ** Examples *)

Definition select_request : cstr :=
  print_request «"POST"» «"/query"» «"HTTP/1.1"» [«"Host: localhost"»; «"Content-Length: 20"»] «"SELECT * FROM users;"».

Lemma sample_about raw sql q :
  before_section raw = inr sql → parse_sql_text sql = Ok q → table_name q = «"users"» → about [«"users"»] raw.
Proof. intros Hb Hp Hq sql' Hb' q' Hp'. assert (sql' = sql) as -> by congruence.
  assert (q' = q) as -> by congruence. by apply list_elem_of_singleton.
Qed.

Ltac state_after :=
  cbn [app main queued stages progs received effects answers plocks jobs pshared ended points guard
       set_progs at_point set_job at_stage log_effect insert list_insert lock_points fst snd].
Tactic Notation "moves" tactic3(t) := (eapply rtc_l; [t|]; state_after).
Ltac main_moves r := right; right; apply (move_receive _ _ _ r); [reflexivity|cbn; lia|].
Ltac worker_moves := right; left.
Ltac lock_moves i rule := left; eapply (move_lock _ i); [reflexivity|reflexivity|discriminate|apply rule; reflexivity|reflexivity|reflexivity].

(** Worker 0 is about to run the INSERT in its write section; worker 1 waits to read. *)
Definition sample_overlap : Threads BPTree :=
  mkThreads MainAccepting [] [InExecute (4%Z, choi_request); InExecute (5%Z, select_request)]
    (mkProgs (mkSystem (mkDbGuard 0 1 0) [Writing; ReadLoadActive])
       [(SvcStart insert_choi, SvcStart insert_choi); (SvcStart [], SvcStart [])] sample_database [])
    [(4%Z, choi_request); (5%Z, select_request)] [] [].

Lemma choi_sql : before_section choi_request = inr insert_choi.
Proof. vm_compute. reflexivity. Qed.

Lemma sample_overlap_reached c :
  (2 <= config_queue_capacity c)%Z →
  rtc (threads_step c (about [«"users"»])) (threads_initial 2 sample_database) sample_overlap.
Proof.
  intros Hcap. pose proof choi_sql as Hchoi.
  assert (Hsel : before_section select_request = inr «"SELECT * FROM users;"») by (vm_compute; reflexivity).
  assert (Hwrite : takes_write_lock (SvcStart insert_choi) = true) by (vm_compute; reflexivity).
  assert (Hread : takes_write_lock (SvcStart «"SELECT * FROM users;"») = false) by (vm_compute; reflexivity).
  assert (Hac : about [«"users"»] choi_request).
  { eapply sample_about; [exact Hchoi|vm_compute; reflexivity|reflexivity]. }
  assert (Has : about [«"users"»] select_request).
  { eapply sample_about; [exact Hsel|vm_compute; reflexivity|reflexivity]. }
  unfold threads_initial, progs_initial, initial, db_guard_create. cbn [replicate].
  moves (main_moves (4%Z, choi_request); exact Hac). moves (main_moves (5%Z, select_request); exact Has).
  moves (worker_moves; eapply (move_take _ _ 0); reflexivity). moves (worker_moves; eapply (move_take _ _ 1); reflexivity).
  moves (worker_moves; eapply (move_begin _ _ 0); [reflexivity|reflexivity|exact Hchoi]).
  moves (worker_moves; eapply (move_begin _ _ 1); [reflexivity|reflexivity|exact Hsel]).
  unfold start_point. rewrite Hwrite, Hread.
  moves (lock_moves 0 write_announce). moves (lock_moves 0 write_claim_ok). moves (lock_moves 0 write_readers_none).
  assert (Hpt : section_point takes_write_lock (SvcStart insert_choi) = Writing) by (unfold section_point; by rewrite Hwrite).
  moves (left; eapply (move_enter _ 0); [reflexivity|exact Hchoi|reflexivity|discriminate|rewrite Hpt; apply write_retract|reflexivity]).
  rewrite Hpt. apply rtc_refl.
Qed.

(** The INSERT is executed and answered while the other worker waits for the lock with a SELECT. *)
Lemma overlapping_requests_serializable_witness :
  ∃ m a out, rtc (threads_step server_config_set_defaults (about [«"users"»])) (threads_initial 2 sample_database) m ∧
    answers m = [((4%Z, choi_request), a, out)] ∧ omap in_execute (stages m) = [(5%Z, select_request)] ∧
    ∃ y, serve_all sample_database [(4%Z, choi_request)] = ([a], y) ∧ pshared (progs m) = y.
Proof.
  destruct (service_runs sample_database insert_choi) as (res & x' & [Hsteps Hend] & _).
  pose proof (sample_overlap_reached server_config_set_defaults ltac:(done)) as Hr.
  pose proof (work_runs sample_overlap 0 (4%Z, choi_request) Writing _ _ _ _ eq_refl eq_refl eq_refl eq_refl Hsteps) as Hw.
  set (m1 := set_progs _ sample_overlap) in Hw.
  eassert (Hlast : rtc (threads_step server_config_set_defaults (about [«"users"»])) m1 _).
  { moves (worker_moves; eapply (move_unlock _ _ 0); [reflexivity|reflexivity|reflexivity|reflexivity|exact Hend|reflexivity|apply write_unlock]).
    moves (worker_moves; apply (move_send _ _ 0 (4%Z, choi_request) (after_section res) [Sent 1000]); reflexivity). apply rtc_refl. }
  assert (Hr1 : rtc (threads_step server_config_set_defaults (about [«"users"»])) (threads_initial 2 sample_database) m1).
  { etrans; [exact Hr|]. eapply rtc_subrel; [|exact Hw]. intros u v ?. by left. }
  destruct (overlapping_requests_serializable server_config_set_defaults 2 [«"users"»] sample_database _ _
    ltac:(done) users_are_loaded Hr1 Hlast) as (_ & y & Hs & _ & _ & _ & Hx & _).
  eexists _, _, _. split; [etrans; [exact Hr1|exact Hlast]|]. split; [reflexivity|]. split; [reflexivity|].
  exists y. split; [exact Hs|]. apply Hx. apply (bool_decide_unpack _). exact I.
Defined.
