(* ===== verification/ServerProgress.v ===== *)
(** * Overlapping requests: every request can be answered, and the server can shut down

    Progress of the threads of [ServerThreads]: from every reachable state of a server with a
    positive timeout they can answer what they have received, and a shutdown can be completed;
    without a timeout a client can prevent both. *)

From stdpp Require Import base list strings relations.
From Stdlib Require Import Ascii.
From S2P Require Import Prelude CString Common Parser Index BPTree Schema Storage DbContext Executor SqlService.
From S2P Require Import DbGuard GuardProgress GuardedWork GuardedPrograms ThreadPool HttpProtocol RequestHandler RequestPrograms.
From S2P Require Import SocketServer Server ServerJob ServerMain ServerThreads.

Local Open Scope nat_scope.

Section Progress.
Context `{RowIndex Idx}.
Notation move := (pmove (service_step (Idx := Idx))).

(** A step outside the guard, of a worker or of the main thread once it has stopped accepting. *)
Definition outer_move (c : ServerConfig) (m m' : Threads Idx) : Prop :=
  worker_move c m m' ∨ main m = MainJoining ∧ main_move c (λ _, False) m m'.

(** [k] steps outside the guard, among any number of steps inside it. *)
Inductive counted (c : ServerConfig) : nat → Threads Idx → Threads Idx → Prop :=
| counted_none m : counted c 0 m m
| counted_guard k m m1 m2 : guard_move m m1 → counted c k m1 m2 → counted c k m m2
| counted_outer k m m1 m2 : outer_move c m m1 → counted c k m1 m2 → counted c (S k) m m2.

(** What is left to do outside the guard. *)
Definition stage_work (st : stage) (p : point) : nat :=
  match st with
  | InPop => 1
  | InExecute _ => if bool_decide (p = Idle) then 4 else 3
  | InSend _ _ => 2
  | Stuck _ _ | Left => 0
  end.

Definition main_work (p : main_point) : nat := match p with MainJoining => 1 | _ => 0 end.

Fixpoint stages_work (sts : list stage) (ps : list point) : nat :=
  match sts, ps with st :: sts', p :: ps' => stage_work st p + stages_work sts' ps' | _, _ => 0 end.

Definition work (m : Threads Idx) : nat :=
  4 * length (queued m) + stages_work (stages m) (lock_points m) + main_work (main m).

(** Nobody waits for ever, and workers leave only when the queue is closed and empty. *)
Record unstuck (m : Threads Idx) : Prop := {
  no_stuck_worker : ∀ r a, Stuck r a ∉ stages m;
  no_stuck_main : main m ≠ MainStuck;
  left_late : Left ∈ stages m → queued m = [] ∧ (main m = MainJoining ∨ main m = MainReturned);
  returned_left : main m = MainReturned → Forall (λ st, st = Left) (stages m)
}.

(** ** Lemmas: the work left *)

Lemma stages_work_insert sts ps i st p st' p' :
  sts !! i = Some st → ps !! i = Some p →
  stages_work (<[i := st']> sts) (<[i := p']> ps) + stage_work st p = stages_work sts ps + stage_work st' p'.
Proof.
  revert ps i. induction sts as [|x sts IH]; intros [|q ps] [|i] Hi Hp; simpl in *; simplify_eq; try done; [lia|].
  specialize (IH ps i Hi Hp). lia.
Qed.

Lemma stages_work_stage sts ps i st p st' :
  sts !! i = Some st → ps !! i = Some p →
  stages_work (<[i := st']> sts) ps + stage_work st p = stages_work sts ps + stage_work st' p.
Proof. intros Hi Hp. pose proof (stages_work_insert sts ps i st p st' p Hi Hp) as Hw. by rewrite (list_insert_id ps i p Hp) in Hw. Qed.

Lemma stages_work_point sts ps i st p p' :
  sts !! i = Some st → ps !! i = Some p →
  stages_work sts (<[i := p']> ps) + stage_work st p = stages_work sts ps + stage_work st p'.
Proof. intros Hi Hp. pose proof (stages_work_insert sts ps i st p st p' Hi Hp) as Hw. by rewrite (list_insert_id sts i st Hi) in Hw. Qed.

(** Steps of the guard leave the work outside as it is. *)
Lemma guard_step_busy g p g' p' : thread_step g p g' p' → inside p = false → p ≠ Idle → p' ≠ Idle.
Proof. destruct 1; simpl; done. Qed.

Lemma guard_move_work (m m' : Threads Idx) : guard_move m m' → work m' = work m.
Proof.
  intros Hmove. unfold work, lock_points.
  destruct Hmove as [i r p g' p' Hi Hpt Hne Hstep Hin Hin'|i r sql p g' Hi Hb Hpt Hne Hstep Hin|]; unfold lock_points in *; cbn; [| |done].
  - pose proof (stages_work_point _ _ _ _ _ p' Hi Hpt) as Hw. pose proof (guard_step_busy _ _ _ _ Hstep Hin Hne). cbn in Hw.
    rewrite !bool_decide_eq_false_2 in Hw by done. lia.
  - set (q := section_point _ _) in *. pose proof (stages_work_point _ _ _ _ _ q Hi Hpt) as Hw.
    pose proof (guard_step_busy _ _ _ _ Hstep Hin Hne). cbn in Hw. rewrite !bool_decide_eq_false_2 in Hw by done. lia.
Qed.

Lemma outer_move_work c (m m' : Threads Idx) : outer_move c m m' → length (stages m) = length (lock_points m) → work m' < work m.
Proof.
  intros [Hmove|[Hmain Hmove]] Hlen.
  2: { destruct Hmove; try congruence. unfold work, set_main, lock_points. cbn. rewrite Hmain. cbn. lia. }
  unfold work.
  assert (Hplace : ∀ i st, stages m !! i = Some st → is_Some (lock_points m !! i)).
  { intros i st Hi. apply lookup_lt_is_Some_2. apply lookup_lt_Some in Hi. lia. }
  destruct Hmove as [i r rest Hi Hq|i Hi Hq Hmain|i r a Hi Hp Hb|i r sql Hi Hp Hb|i r p g' l0 l res Hi Hp Hin Hj Hend Hl Hu'|
    i r a sends Hi|i r a rcv_ok snd_ok t Hi Ht Hw]; destruct (Hplace _ _ Hi) as [q Hpt]; unfold lock_points in *; cbn.
  - rewrite Hq. cbn. pose proof (stages_work_stage _ _ _ _ _ (InExecute r) Hi Hpt) as Hw. cbn in Hw. case_bool_decide; lia.
  - pose proof (stages_work_stage _ _ _ _ _ Left Hi Hpt) as Hw. cbn in Hw. lia.
  - pose proof (stages_work_stage _ _ _ _ _ (InSend r a) Hi Hpt) as Hw. cbn in Hw. case_bool_decide; lia.
  - pose proof (stages_work_point _ _ _ _ _ (start_point sql) Hi Hp) as Hw. cbn in Hw.
    assert (start_point sql ≠ Idle) by (unfold start_point; by destruct (takes_write_lock (SvcStart sql))).
    rewrite bool_decide_eq_true_2, bool_decide_eq_false_2 in Hw by done. lia.
  - pose proof (stages_work_insert _ _ _ _ _ (InSend r (after_section res)) Idle Hi Hpt) as Hw. cbn in Hw.
    case_bool_decide; lia.
  - pose proof (stages_work_stage _ _ _ _ _ InPop Hi Hpt) as Hw. cbn in Hw. lia.
  - pose proof (stages_work_stage _ _ _ _ _ (Stuck r a) Hi Hpt) as Hw'. cbn in Hw'. lia.
Qed.

(** ** Lemmas: nobody gets stuck *)

Lemma unstuck_initial n x0 : unstuck (threads_initial (Idx := Idx) n x0).
Proof.
  constructor; cbn; try done.
  - intros r a Hin. by apply elem_of_replicate in Hin as [? _].
  - intros Hin. by apply elem_of_replicate in Hin as [? _].
Qed.

Lemma elem_of_insert {A} (l : list A) i x y : y ∈ <[i := x]> l → y = x ∨ y ∈ l.
Proof.
  intros [j Hj]%list_elem_of_lookup. apply list_lookup_insert_Some in Hj as [(_ & <- & _)|[_ Hj]]; [by left|].
  right. by eapply list_elem_of_lookup_2.
Qed.

(** A worker that is still there goes to another stage. *)
Lemma unstuck_worker (m m' : Threads Idx) i st st' :
  unstuck m → stages m !! i = Some st → st ≠ Left → stages m' = <[i := st']> (stages m) → main m' = main m →
  (∀ r a, st' ≠ Stuck r a) → (queued m = [] → queued m' = []) → (st' = Left → queued m' = [] ∧ main m = MainJoining) → unstuck m'.
Proof.
  intros [Hs Hm Hl Hr] Hi Hne Hst Hmain Hns Hq Hleft. constructor; rewrite ?Hst, ?Hmain.
  - intros r a [Heq|?]%elem_of_insert; [by eapply Hns|by eapply Hs].
  - done.
  - intros [Heq|Hin]%elem_of_insert; [destruct (Hleft (eq_sym Heq)); auto|]. destruct (Hl Hin) as [??]. auto.
  - intros Hret. pose proof (Hr Hret) as Hall. rewrite Forall_lookup in Hall. by destruct (Hne (Hall _ _ Hi)).
Qed.

Lemma unstuck_step c admits (m m' : Threads Idx) :
  (0 < client_read_timeout_ms c)%Z → unstuck m → threads_step c admits m m' → unstuck m'.
Proof.
  intros Hc Hu [Hmove|[Hmove|Hmove]].
  - destruct Hu. by destruct Hmove; constructor.
  - destruct Hmove as [i r rest Hi Hq|i Hi Hq Hmain|i r a Hi Hp Hb|i r sql Hi Hp Hb|i r p g' l0 l res Hi Hp Hin Hj Hend He Hu'|
      i r a sends Hi|i r a rcv_ok snd_ok t Hi Ht Hw].
    + eapply unstuck_worker; [done|exact Hi|done|done|done|done|cbn; congruence|done].
    + eapply unstuck_worker; [done|exact Hi|done|done|done|done|done|done].
    + eapply unstuck_worker; [done|exact Hi|done|done|done|done|done|done].
    + by destruct Hu.
    + eapply unstuck_worker; [done|exact Hi|done|done|done|done|done|done].
    + eapply unstuck_worker; [done|exact Hi|done|done|done|done|done|done].
    + destruct (set_timeout_limits _ _ _ _ Hc Ht). congruence.
  - destruct Hu as [Hs Hm Hl Hr]. destruct Hmove as [r Hmain Hcap Ha|rcv_ok snd_ok t Hmain Ht Hw|Hmain|Hmain Hall].
    + constructor; cbn; [done|done| |congruence]. intros Hin. destruct (Hl Hin) as [_ [?|?]]; congruence.
    + destruct (set_timeout_limits _ _ _ _ Hc Ht). congruence.
    + constructor; cbn; try done. intros Hin. destruct (Hl Hin) as [_ [?|?]]; congruence.
    + constructor; cbn; try done. intros Hin. destruct (Hl Hin) as [? _]. auto.
Qed.

Lemma unstuck_run c admits (m m' : Threads Idx) :
  (0 < client_read_timeout_ms c)%Z → rtc (threads_step c admits) m m' → unstuck m → unstuck m'.
Proof. intros Hc. induction 1 as [|m m1 m2 Hs _ IH]; [done|]. intros Hu. apply IH. by eapply unstuck_step. Qed.

(** ** Lemmas: the guard lets everyone through *)

Definition inner_move (c : ServerConfig) (m m' : Threads Idx) : Prop := guard_move m m' ∨ worker_move c m m'.

(** Everything received so far is still here, and no step of the main thread has been taken. *)
Record same_requests (m m' : Threads Idx) : Prop := {
  same_main : main m' = main m;
  same_received : received m' = received m;
  same_length : length (stages m') = length (stages m)
}.

#[global] Instance same_requests_preorder : PreOrder same_requests.
Proof.
  split; [by intros ?; constructor|]. intros a b d [] []. constructor; congruence.
Qed.

Lemma inner_same c (m m' : Threads Idx) : rtc (inner_move c) m m' → same_requests m m'.
Proof.
  induction 1 as [|m m1 m2 [Hs|Hs] _ IH]; [done| |]; (etrans; [|exact IH]); destruct Hs; constructor; cbn; by rewrite ?length_insert.
Qed.

(** A statement inside its section can be finished. *)
Lemma finish_section n ns x0 (m : Threads Idx) y i r p :
  threads_ok n ns x0 m y → stages m !! i = Some (InExecute r) → lock_points m !! i = Some p → inside p = true →
  ∃ l0 res x', rtc guard_move m (set_progs (set_job i (l0, SvcDone res) x' (progs m)) m).
Proof.
  intros Hm Hi Hp Hin. pose proof (to_progs _ _ _ _ _ Hm) as Hprogs.
  destruct (lookup_lt_is_Some_2 (jobs (progs m)) i) as [[l0 l] Hj].
  { rewrite (pr_jobs _ _ _ _ _ _ _ Hprogs). by eapply lookup_lt_Some. }
  destruct (pr_inside _ _ _ _ _ _ _ Hprogs i p l0 l Hp Hin Hj) as [_ Hr].
  destruct (to_stages _ _ _ _ _ Hm _ _ _ _ Hi Hp Hj) as [->|(r' & sql & _ & _ & _ & Hl0)]; [done|].
  specialize (Hl0 Hin). cbn in Hl0. subst l0. destruct (service_runs y sql) as (res & x' & [Hruns Hend] & _).
  exists (SvcStart sql), res, x'. eapply work_runs; [done..|].
  clear -Hr Hruns Hend. remember (SvcStart sql, y) as a. clear Heqa. remember (SvcDone res, x') as b eqn:Hb. remember (l, pshared (progs m)) as d eqn:Hd.
  clear Hd. induction Hr as [a|a a1 d Ha _ IH]; [done|]. apply IH.
  apply rtc_inv in Hruns as [->|(a2 & Ha2 & Hruns)].
  - subst b. unfold pmove in Ha. cbn -[service_step] in Ha. congruence.
  - unfold pmove in Ha, Ha2. by assert (a2 = a1) as -> by congruence.
Qed.

Lemma inner_threads c admits (m m' : Threads Idx) : rtc (inner_move c) m m' → rtc (threads_step c admits) m m'.
Proof. apply rtc_subrel. intros a b [?|?]; [by left|by right; left]. Qed.

Section Run.
Context (c : ServerConfig) (n : nat) (ns : list cstr) (x0 : Database (Idx := Idx)).
Hypothesis workers_fit : (Z.of_nat n <= INT_MAX)%Z.

(** A state and the database its effects have left. *)
Notation good m := (∃ y, threads_ok n ns x0 m y).

Lemma threads_lengths m y : threads_ok n ns x0 m y → length (stages m) = n ∧ length (lock_points m) = n.
Proof. intros Hm. split; [apply Hm|]. by destruct (reachable_ok n _ workers_fit (to_locks _ _ _ _ _ Hm)). Qed.

Lemma inner_run m m' : good m → rtc (inner_move c) m m' → good m' ∧ work m' <= work m.
Proof.
  intros Hm Hr. induction Hr as [m|m m1 m2 Hs _ IH]; [done|]. destruct Hm as [y Hm].
  destruct (threads_lengths m y Hm) as [Hl1 Hl2].
  destruct (threads_step_ok c n ns x0 m y m1 workers_fit Hm) as (y1 & Hm1 & _); [destruct Hs; [by left|by right; left]|].
  destruct (IH (ex_intro _ y1 Hm1)) as [Hm2 Hw]. split; [done|]. destruct Hs as [Hs|Hs].
  - by rewrite <- (guard_move_work m m1 Hs).
  - pose proof (outer_move_work c m m1 (or_introl Hs)). lia.
Qed.

(** What a thread does with the lock, the worker can do. *)
Lemma lift_finishing m s' :
  good m → finishing_step (plocks (progs m)) s' → ∃ m', rtc (inner_move c) m m' ∧ plocks (progs m') = s'.
Proof.
  intros [y Hm] Hstep. destruct (threads_lengths m y Hm) as [Hl1 Hl2].
  remember (plocks (progs m)) as s eqn:Hs. destruct Hstep as [g ps i p g' p' Hp Hne Hstep].
  assert (Hpt : lock_points m !! i = Some p) by (unfold lock_points; by rewrite <- Hs).
  assert (Hg : guard (plocks (progs m)) = g) by (by rewrite <- Hs).
  destruct (lookup_lt_is_Some_2 (stages m) i) as [st Hi]; [apply lookup_lt_Some in Hpt; lia|].
  destruct (worker_place _ _ _ _ _ _ _ workers_fit Hm Hi) as (q & j & Hq & _ & Hst). assert (q = p) as -> by congruence.
  destruct Hst as [->|(r & sql & -> & Hb & Hside & _)]; [done|]. destruct (inside p) eqn:Hin.
  - assert (p' = Idle) as -> by (by destruct Hstep).
    destruct (finish_section n ns x0 m y i r p Hm Hi Hpt Hin) as (l0 & res & x' & Hwork).
    set (m1 := set_progs _ _) in Hwork. eexists. split.
    + etrans; [eapply rtc_subrel; [|exact Hwork]; intros ???; by left|]. apply rtc_once. right.
      apply (move_unlock c m1 i r p g' l0 (SvcDone res) res); [done|done|done| |by destruct x'|done|cbn; by rewrite Hg].
      apply list_lookup_insert_eq. rewrite (pr_jobs _ _ _ _ _ _ _ (to_progs _ _ _ _ _ Hm)). by eapply lookup_lt_Some.
    + cbn. unfold lock_points, m1. cbn. by rewrite <- Hs.
  - destruct (inside p') eqn:Hin'.
    + assert (Hsp : p' = section_point takes_write_lock (SvcStart sql)).
      { unfold section_point. rewrite <- Hside. by destruct Hstep. }
      eexists. split; [apply rtc_once; left; apply (move_enter m i r sql p g'); try done; rewrite Hg, <- Hsp; done|].
      cbn. by rewrite <- Hs, <- Hsp.
    + eexists. split; [apply rtc_once; left; apply (move_lock m i r p g' p'); try done; by rewrite Hg|]. cbn. by rewrite <- Hs.
Qed.

Lemma lift_finishing_run m s s' :
  good m → plocks (progs m) = s → rtc finishing_step s s' → ∃ m', rtc (inner_move c) m m' ∧ plocks (progs m') = s'.
Proof.
  intros Hm Hs Hr. revert m Hm Hs. induction Hr as [s|s s1 s2 Hstep _ IH]; intros m Hm Hs; [by exists m|]. subst s.
  destruct (lift_finishing m s1 Hm Hstep) as (m1 & Hr1 & Hs1). destruct (inner_run m m1 Hm Hr1) as [Hm1 _].
  destruct (IH m1 Hm1 Hs1) as (m2 & Hr2 & Hs2). exists m2. split; [by etrans|done].
Qed.

(** Everyone can leave the guard. *)
Lemma guard_emptied m : good m → ∃ m', rtc (inner_move c) m m' ∧ plocks (progs m') = initial n.
Proof.
  intros [y Hm]. eapply lift_finishing_run; [by exists y|done|]. apply all_finish; [done|apply Hm].
Qed.

(** ** Lemmas: everything received is answered *)

Definition at_rest (st : stage) : Prop := st = InPop ∨ st = Left.

#[local] Instance at_rest_dec st : Decision (at_rest st).
Proof. destruct st; (left; unfold at_rest; tauto) || (right; intros [|]; discriminate). Defined.

(** With nobody in the guard, a worker that has a request, or can take one, goes on. *)
Lemma someone_moves m :
  good m → unstuck m → 0 < n → plocks (progs m) = initial n → ¬ (queued m = [] ∧ Forall at_rest (stages m)) →
  ∃ m', worker_move c m m'.
Proof.
  intros [y Hm] Hu Hn Hlocks Hbusy. destruct (threads_lengths m y Hm) as [Hl1 Hl2].
  assert (Hidle : ∀ i st, stages m !! i = Some st → lock_points m !! i = Some Idle).
  { intros i st Hi. unfold lock_points. rewrite Hlocks. apply lookup_replicate. split; [done|]. apply lookup_lt_Some in Hi. lia. }
  destruct (decide (Forall at_rest (stages m))) as [Hall|Hsome].
  - destruct (queued m) as [|r rest] eqn:Hq; [by destruct Hbusy|].
    destruct (lookup_lt_is_Some_2 (stages m) 0 ltac:(lia)) as [st Hi]. rewrite Forall_lookup in Hall.
    destruct (Hall _ _ Hi) as [->| ->]; [eexists; by eapply move_take|].
    destruct (left_late _ Hu) as [? _]; [by eapply list_elem_of_lookup_2|congruence].
  - apply not_Forall_Exists, Exists_exists in Hsome as (st & [i Hi]%list_elem_of_lookup & Hst); [|apply _].
    specialize (Hidle i st Hi). destruct st as [|r|r a|r a|]; [by destruct Hst; left| | | |by destruct Hst; right].
    + destruct (before_section r.2) as [a|sql] eqn:Hb; eexists; [by eapply move_refuse|by eapply move_begin].
    + eexists. by apply (move_send c m i r a []).
    + destruct (no_stuck_worker _ Hu r a). by eapply list_elem_of_lookup_2.
Qed.

Hypothesis limited : (0 < client_read_timeout_ms c)%Z.
Hypothesis some_worker : 0 < n.

(** The workers can come to rest with nothing queued. *)
Lemma all_answered m :
  good m → unstuck m →
  ∃ m', rtc (inner_move c) m m' ∧ good m' ∧ unstuck m' ∧ queued m' = [] ∧ Forall at_rest (stages m').
Proof.
  remember (work m) as k eqn:Hk. revert m Hk. induction (lt_wf k) as [k _ IH]. intros m -> Hm Hu.
  destruct (guard_emptied m Hm) as (m1 & Hr1 & Hl1). destruct (inner_run m m1 Hm Hr1) as [Hm1 Hw1].
  pose proof (unstuck_run c (λ _, False) m m1 limited (inner_threads _ _ _ _ Hr1) Hu) as Hu1.
  destruct (decide (queued m1 = [] ∧ Forall at_rest (stages m1))) as [[Hq Hrest]|Hbusy]; [by exists m1|].
  destruct (someone_moves m1 Hm1 Hu1 some_worker Hl1 Hbusy) as [m2 Hmove].
  destruct Hm1 as [y1 Hm1]. destruct (threads_lengths m1 y1 Hm1) as [??].
  pose proof (outer_move_work c m1 m2 (or_introl Hmove) ltac:(congruence)) as Hw2.
  assert (Hr2 : rtc (inner_move c) m1 m2) by (apply rtc_once; by right).
  destruct (inner_run m1 m2 (ex_intro _ y1 Hm1) Hr2) as [Hm2 _].
  pose proof (unstuck_run c (λ _, False) m1 m2 limited (inner_threads _ _ _ _ Hr2) Hu1) as Hu2.
  destruct (IH (work m2) ltac:(lia) m2 eq_refl Hm2 Hu2) as (m3 & Hr3 & ?). exists m3. split; [|done]. by do 2 (etrans; [done|]).
Qed.

(** Then every request received has been answered, once. *)
Lemma rested_answers m :
  good m → unstuck m → queued m = [] → Forall at_rest (stages m) → (answers m).*1.*1 ≡ₚ received m.
Proof.
  intros [y Hm] Hu Hq Hrest.
  assert (Hnone : omap in_execute (stages m) = [] ∧ omap in_send (stages m) = []).
  { clear -Hrest. induction Hrest as [|st sts [->| ->] _ [IH1 IH2]]; [done| |]; (split; [exact IH1|exact IH2]). }
  destruct Hnone as [He Hs]. pose proof (to_received _ _ _ _ _ Hm) as Hr. pose proof (to_answers _ _ _ _ _ Hm) as Ha.
  rewrite He, Hq in Hr. rewrite Hs in Ha. rewrite !(right_id_L [] (++)) in *. by rewrite <- Hr, <- Ha.
Qed.

#[local] Instance left_dec st : Decision (st = Left).
Proof. destruct st; (left; reflexivity) || (right; discriminate). Defined.

(** Workers at rest leave once the queue is closed. *)
Lemma all_leave m :
  good m → unstuck m → main m = MainJoining → queued m = [] → Forall at_rest (stages m) →
  ∃ m', rtc (inner_move c) m m' ∧ Forall (λ st, st = Left) (stages m') ∧ (answers m') = answers m.
Proof.
  remember (work m) as k eqn:Hk. revert m Hk. induction (lt_wf k) as [k _ IH]. intros m -> Hm Hu Hmain Hq Hrest.
  destruct (decide (Forall (λ st, st = Left) (stages m))) as [Hall|Hno]; [by exists m|].
  apply not_Forall_Exists, Exists_exists in Hno as (st & Hin & Hst); [|apply _].
  assert (st = InPop) as -> by (rewrite Forall_forall in Hrest; by destruct (Hrest st Hin)). apply list_elem_of_lookup in Hin as [i Hi].
  pose proof (move_leave c m i Hi Hq Hmain) as Hmove. destruct Hm as [y Hm]. destruct (threads_lengths m y Hm) as [??].
    pose proof (outer_move_work c _ _ (or_introl Hmove) ltac:(congruence)) as Hw.
    assert (Hr : rtc (inner_move c) m (at_stage i Left (progs m) m)) by (apply rtc_once; by right).
    destruct (inner_run _ _ (ex_intro _ y Hm) Hr) as [Hm' _].
    pose proof (unstuck_run c (λ _, False) _ _ limited (inner_threads _ _ _ _ Hr) Hu) as Hu'.
    destruct (IH _ Hw _ eq_refl Hm' Hu') as (m' & Hr' & Hl & Ha); [done|done| |].
    + apply Forall_insert; [done|by right].
    + exists m'. split; [by etrans|done].
Qed.

End Run.

Lemma work_bound (m : Threads Idx) : length (stages m) = length (lock_points m) → work m <= 4 * length (queued m) + 4 * length (stages m) + 1.
Proof.
  intros Hlen. unfold work.
  assert (Hs : ∀ sts ps, stages_work sts ps <= 4 * length sts).
  { induction sts as [|st sts IH]; intros [|p ps]; simpl; try lia. specialize (IH ps). destruct st; simpl; try case_bool_decide; lia. }
  specialize (Hs (stages m) (lock_points m)). unfold main_work. destruct (main m); lia.
Qed.

(** A count of the steps outside the guard is a run, and each of them is paid for. *)
Lemma outer_threads c admits (m m' : Threads Idx) : outer_move c m m' → threads_step c admits m m'.
Proof. intros [Hw|[Hm Hk]]; [by right; left|]. right; right. destruct Hk; [done|by eapply move_recv_forever|by constructor|by constructor]. Qed.

Lemma counted_work c n ns x0 k (m m' : Threads Idx) :
  (Z.of_nat n <= INT_MAX)%Z → counted c k m m' → (∃ y, threads_ok n ns x0 m y) → k + work m' <= work m.
Proof.
  intros Hn. induction 1 as [|k m m1 m2 Hg _ IH|k m m1 m2 Ho _ IH]; intros [y Hm]; [done| |].
  - rewrite <- (guard_move_work _ _ Hg). apply IH. exists y. by eapply guard_move_ok.
  - destruct (threads_step_ok c n ns x0 m y m1 Hn Hm (outer_threads _ _ _ _ Ho)) as (y1 & Hm1 & _).
    destruct (threads_lengths n ns x0 Hn m y Hm) as [??].
    pose proof (outer_move_work c m m1 Ho ltac:(congruence)). specialize (IH (ex_intro _ y1 Hm1)). lia.
Qed.

(** Once the main thread has stopped accepting, it only goes on to return. *)
Lemma joining_run c admits (m m' : Threads Idx) :
  rtc (threads_step c admits) m m' → main m = MainJoining ∨ main m = MainReturned → main m' = MainJoining ∨ main m' = MainReturned.
Proof.
  induction 1 as [|m m1 m2 [Hs|[Hs|Hs]] _ IH]; [done| | |]; intros Hm; apply IH; destruct Hs; cbn; try done; try tauto;
    destruct Hm; congruence.
Qed.

(** Every run from there has its count. *)
Lemma joining_counted c admits (m m' : Threads Idx) :
  rtc (threads_step c admits) m m' → main m = MainJoining ∨ main m = MainReturned → ∃ k, counted c k m m'.
Proof.
  induction 1 as [m|m m1 m2 Hs Hr IH]; intros Hm; [exists 0; constructor|].
  destruct (IH (joining_run c admits m m1 (rtc_once _ _ Hs) Hm)) as [k Hk]. destruct Hs as [Hg|[Hw|Hmain]].
  - exists k. by eapply counted_guard.
  - exists (S k). eapply counted_outer; [by left|done].
  - exists (S k). eapply counted_outer; [|done]. right. destruct Hmain as [| | |Hj Hall]; try (destruct Hm; congruence).
    split; [done|by constructor].
Qed.

(** From a state in which the queue is closed, [server_start] can return. *)
Lemma can_return c n ns x0 (m : Threads Idx) :
  (Z.of_nat n <= INT_MAX)%Z → (0 < client_read_timeout_ms c)%Z → 0 < n → (∃ y, threads_ok n ns x0 m y) → unstuck m → main m = MainJoining →
  ∃ m', tc (threads_step c (about ns)) m m' ∧ main m' = MainReturned ∧ (answers m').*1.*1 ≡ₚ received m.
Proof.
  intros Hn Hc Hpos Hm Hu Hmain.
  destruct (all_answered c n ns x0 Hn Hc Hpos m Hm Hu) as (m1 & Hr1 & Hm1 & Hu1 & Hq1 & Hrest1).
  pose proof (inner_same c m m1 Hr1) as [Hmain1 Hrec1 _]. rewrite Hmain in Hmain1.
  destruct (all_leave c n ns x0 Hn Hc m1 Hm1 Hu1 Hmain1 Hq1 Hrest1) as (m2 & Hr2 & Hleft & Hans).
  pose proof (inner_same c m1 m2 Hr2) as [Hmain2 _ _]. exists (set_main MainReturned m2). split_and!; [|done|].
  - eapply tc_rtc_l; [by apply inner_threads|]. eapply tc_rtc_l; [by apply inner_threads|]. apply tc_once.
    right; right. apply move_return; [congruence|done].
  - cbn. rewrite Hans, (rested_answers n ns x0 m1 Hm1 Hu1 Hq1 Hrest1). by rewrite Hrec1.
Qed.

(** [server_start] returns only when all workers have left. *)
Lemma returned_left_run c admits (m m' : Threads Idx) :
  rtc (threads_step c admits) m m' → (main m = MainReturned → Forall (λ st, st = Left) (stages m)) →
  main m' = MainReturned → Forall (λ st, st = Left) (stages m').
Proof.
  induction 1 as [|m m1 m2 Hs _ IH]; [done|]. intros Hall. apply IH. clear IH.
  destruct Hs as [Hs|[Hs|Hs]]; destruct Hs; cbn; try done; try congruence; intros Hm; specialize (Hall Hm); rewrite Forall_lookup in Hall;
    match goal with Hi : stages m !! _ = Some _ |- _ => by specialize (Hall _ _ Hi) end.
Qed.

(** A worker whose send never returns stays where it is. *)
Lemma stuck_stays c admits (m m' : Threads Idx) i r a :
  rtc (threads_step c admits) m m' → stages m !! i = Some (Stuck r a) → stages m' !! i = Some (Stuck r a).
Proof.
  induction 1 as [|m m1 m2 Hs _ IH]; [done|]. intros Hi. apply IH.
  destruct Hs as [Hs|[Hs|Hs]]; destruct Hs; cbn; try done;
    match goal with |- <[?j:=_]> _ !! _ = _ => destruct (decide (i = j)) as [->|Hne]; [congruence|by rewrite list_lookup_insert_ne] end.
Qed.

End Progress.

(** ** Properties *)

(** C32. Every request can be answered: from every reachable state of a server with a positive
    timeout, however far its workers have got into locking, executing statements and sending,
    there is a continuation of the workers alone (the clients send nothing more and the main
    thread does nothing) after which nothing is queued, every worker is back in [job_queue_pop]
    or has left, and every request received has been answered exactly once.  So no interleaving
    leads to a deadlock or loses a request.  (That the continuation is taken depends on the
    scheduler, since the lock spins.  There is at least one worker, as the configuration demands;
    the requests are about tables that are loaded; the operations of the lock are taken in
    sequentially consistent order.) *)
Theorem every_request_can_be_answered `{RowIndex Idx} c n ns (x0 : Database) m :
  (Z.of_nat n <= INT_MAX)%Z → 0 < n → (0 < client_read_timeout_ms c)%Z → loaded ns x0 →
  rtc (threads_step c (about ns)) (threads_initial n x0) m →
  ∃ m', rtc (inner_move c) m m' ∧ queued m' = [] ∧ Forall (λ st, st = InPop ∨ st = Left) (stages m') ∧
    (answers m').*1.*1 ≡ₚ received m.
Proof.
  intros Hn Hpos Hc Hl Hr. destruct (threads_run_ok c n ns x0 _ _ _ Hn (threads_initial_ok n ns x0 Hl) Hr) as (y & Hm & _).
  pose proof (unstuck_run _ _ _ _ Hc Hr (unstuck_initial n x0)) as Hu.
  destruct (all_answered c n ns x0 Hn Hc Hpos m (ex_intro _ y Hm) Hu) as (m1 & Hr1 & Hm1 & Hu1 & Hq1 & Hrest1).
  exists m1. split_and!; [done|done|done|]. rewrite (rested_answers n ns x0 m1 Hm1 Hu1 Hq1 Hrest1).
  by rewrite (same_received _ _ (inner_same c m m1 Hr1)).
Qed.

(** C30. Shutting down a server with a positive timeout.  From every state that is reachable once
    the accept loop has ended and [server_stop] joins the workers: [server_start] can return, after every
    request received has been answered exactly once; every state in which no thread can take a
    step is one in which it has returned; and, whatever the scheduler, the clients and the
    sockets do, the workers and the main thread take at most four steps outside the guard for
    each queued request and each worker, plus one.  (The operations of the lock and the steps of
    the statements are not counted: the lock spins for as long as the scheduler lets it.  There is
    at least one worker, as the configuration demands; the requests are about tables that are
    loaded; the operations of the lock are taken in sequentially consistent order.) *)
Theorem shutdown_completes `{RowIndex Idx} c n ns (x0 : Database) m :
  (Z.of_nat n <= INT_MAX)%Z → 0 < n → (0 < client_read_timeout_ms c)%Z → loaded ns x0 →
  rtc (threads_step c (about ns)) (threads_initial n x0) m → main m = MainJoining →
  (∃ m', rtc (threads_step c (about ns)) m m' ∧ main m' = MainReturned ∧ (answers m').*1.*1 ≡ₚ received m) ∧
  (∀ m', rtc (threads_step c (about ns)) m m' → (∀ m'', ¬ threads_step c (about ns) m' m'') → main m' = MainReturned) ∧
  (∀ m', rtc (threads_step c (about ns)) m m' → ∃ k, counted c k m m') ∧
  (∀ k m', counted c k m m' → k <= 4 * length (queued m) + 4 * n + 1).
Proof.
  intros Hn Hpos Hc Hl Hr Hmain. destruct (threads_run_ok c n ns x0 _ _ _ Hn (threads_initial_ok n ns x0 Hl) Hr) as (y & Hm & _).
  pose proof (unstuck_run _ _ _ _ Hc Hr (unstuck_initial n x0)) as Hu. split_and!.
  - destruct (can_return c n ns x0 m Hn Hc Hpos (ex_intro _ y Hm) Hu Hmain) as (m' & Ht & ?). exists m'. split; [by apply tc_rtc|done].
  - intros m' Hr' Hend. destruct (joining_run _ _ _ _ Hr' (or_introl Hmain)) as [Hj|]; [|done].
    destruct (threads_run_ok c n ns x0 _ _ _ Hn Hm Hr') as (y' & Hm' & _).
    destruct (can_return c n ns x0 m' Hn Hc Hpos (ex_intro _ y' Hm') (unstuck_run _ _ _ _ Hc Hr' Hu) Hj) as (m2 & Ht & _).
    destruct Ht as [? ? Hs|? ? ? Hs]; by destruct (Hend _ Hs).
  - intros m' Hr'. eapply joining_counted; [exact Hr'|by left].
  - intros k m' Hk. pose proof (counted_work c n ns x0 k m m' Hn Hk (ex_intro _ y Hm)).
    destruct (threads_lengths n ns x0 Hn m y Hm) as [Hl1 Hl2]. pose proof (work_bound m ltac:(congruence)). lia.
Qed.

(** ** Examples *)

(** The INSERT is in its section, the SELECT waits: both can be answered. *)
Lemma every_request_can_be_answered_witness :
  ∃ m', rtc (inner_move server_config_set_defaults) sample_overlap m' ∧ queued m' = [] ∧
    (answers m').*1.*1 ≡ₚ [(4%Z, choi_request); (5%Z, select_request)].
Proof.
  destruct (every_request_can_be_answered server_config_set_defaults 2 [«"users"»] sample_database sample_overlap
    ltac:(done) ltac:(lia) ltac:(done) users_are_loaded (sample_overlap_reached server_config_set_defaults ltac:(done)))
    as (m' & Hr & Hq & _ & Ha).
  exists m'. split; [exact Hr|]. split; [exact Hq|exact Ha].
Defined.

(** The accept loop ends while both are being worked on. *)
Lemma shutdown_completes_witness :
  let m := set_main MainJoining sample_overlap in
  rtc (threads_step server_config_set_defaults (about [«"users"»])) (threads_initial 2 sample_database) m ∧
  (∃ m', rtc (threads_step server_config_set_defaults (about [«"users"»])) m m' ∧ main m' = MainReturned ∧
    (answers m').*1.*1 ≡ₚ [(4%Z, choi_request); (5%Z, select_request)]) ∧
  (∀ k m', counted server_config_set_defaults k m m' → k <= 9).
Proof.
  intros m. assert (Hr : rtc (threads_step server_config_set_defaults (about [«"users"»])) (threads_initial 2 sample_database) m).
  { etrans; [apply sample_overlap_reached; done|]. apply rtc_once. right; right. by apply move_stop. }
  split; [exact Hr|].
  destruct (shutdown_completes server_config_set_defaults 2 [«"users"»] sample_database m ltac:(done) ltac:(lia) ltac:(done)
    users_are_loaded Hr eq_refl) as (Hret & _ & _ & Hbound). split; [exact Hret|exact Hbound].
Defined.

(** Without a timeout, which the configuration may ask for, one client that does not read its
    response is enough to keep [server_start] from returning, whatever happens next. *)
Theorem no_timeout_blocks_shutdown :
  let c := mkServerConfig «"127.0.0.1"» «"data"» 8080 128 1 1 0 in
  server_config_validate c = Ok () ∧
  ∃ m, rtc (threads_step c (about [«"users"»])) (threads_initial 1 sample_database) m ∧ main m = MainJoining ∧
    ∀ m', rtc (threads_step c (about [«"users"»])) m m' → main m' ≠ MainReturned.
Proof.
  intros c. split; [vm_compute; reflexivity|].
  destruct (before_section «"hello"») as [a|sql] eqn:Hb; [|vm_compute in Hb; discriminate].
  assert (Hab : about [«"users"»] «"hello"») by (intros sql Hs; congruence).
  set (m := mkThreads MainJoining [] [Stuck (4%Z, «"hello"») a] (progs_initial 1 (SvcStart []) sample_database)
    [(4%Z, «"hello"»)] [((4%Z, «"hello"»), a)] []).
  exists m. split; [|split; [done|]].
  - unfold threads_initial. cbn [replicate].
    moves (right; right; apply (move_receive _ _ _ (4%Z, «"hello"»)); [reflexivity|cbn; lia|exact Hab]).
    moves (right; left; eapply (move_take _ _ 0); reflexivity).
    moves (right; left; eapply (move_refuse _ _ 0); [reflexivity|reflexivity|exact Hb]).
    moves (right; left; eapply (move_send_forever _ _ 0 _ _ true true); reflexivity).
    moves (right; right; apply move_stop; reflexivity). apply rtc_refl.
  - intros m' Hr Hret. pose proof (stuck_stays c _ m m' 0 _ _ Hr eq_refl) as Hs.
    pose proof (returned_left_run c _ m m' Hr ltac:(discriminate)) as Hok.
    specialize (Hok Hret). rewrite Forall_lookup in Hok. by specialize (Hok _ _ Hs).
Qed.
